(* ===== verification/_CoqProject ===== *)
-Q . S2P
Prelude.v
Vote.v
LogId.v
LogIdList.v
Quorum.v
Membership.v
VecProgress.v
IOState.v
MembershipState.v
Entry.v
RaftState.v
Config.v
ProgressEntry.v
Proposer.v
Command.v
Engine.v
Replication.v
Following.v
LeaderHandler.v
VoteHandler.v
EngineImpl.v
VoteSafety.v
Cluster.v
Election.v
RaftSpec.v
ReplicaFrame.v
Replica.v
ReplicaLead.v
ReplicaFollow.v
ReplicaSnapshot.v
ReplicaProgress.v
LogSafety.v
ReadQueue.v
CoreHelpers.v
Ticker.v
Wire.v
Endpoint.v
Core.v
CoreHandlers.v
CoreRun.v
CoreLogic.v
CoreClients.v
CoreSafety.v
CoreVotes.v
CoreReads.v
MsgReceiver.v
Storage.v
LogReader.v
MemStore.v
SmWorker.v
Startup.v
ReplStream.v
ReplSafety.v
TaskLocal.v
Watch.v
Heartbeat.v
Metrics.v
Observers.v
Join.v
Api.v
ApiTasks.v
Node.v
Deadline.v
