(* ===== verification/Prelude.v ===== *)
(** * Verification of the zenoh_raft consensus library

    zenoh_raft is a Raft library: an application supplies a log store, a state
    machine and a network, and each node runs one [RaftCore] task.  The task
    owns an [Engine], a state machine without I/O: it handles events (elections,
    votes, log replication, snapshots, membership changes) by updating its
    [RaftState] and pushing [Command]s, which the task runs against the storage
    and the network, reporting the results back as new events.  Around it run
    tasks for the state machine, for the replication to each target, for
    heartbeats, for deadlines and for observers, which talk to it over channels;
    the API of an application sends it messages.  The library models the
    engine, the runtime with its tasks, the recovery from a store, the Zenoh
    transport and the API.  Paths below are relative to [src/raft/src/].

    ** The files, in dependency order

    - [Prelude.v]: machine integers, the [outcome] of code that can panic,
      orders and partial orders as classes, generic lemmas and the tactics and
      hint databases of the development.
    - [Vote.v] ([vote/]): leader ids, votes and committed votes.  The class
      [RaftTypeConfig] is the trait [RaftLeaderId] with the type parameters of
      the program; its laws [RaftLeaderIdLaws] are what the other files rely on,
      and both implementations, [LeaderIdAdv] and [LeaderIdStd], satisfy them.
    - [LogId.v] ([log_id/], [log_id_range.rs], [engine/leader_log_ids*.rs]) and
      [LogIdList.v] ([engine/log_id_list.rs], the rebuild in
      [storage/helper.rs]): log ids and the compressed index of the log.
    - [Quorum.v] ([quorum/]), [Membership.v] ([membership/],
      [change_members.rs]) and [VecProgress.v] ([progress/vec_progress*.rs]):
      quorums, joint memberships, and the tracker of what a quorum accepted,
      which is generic in the class [QuorumSet] and uses only its laws.
    - [IOState.v] ([raft_state/io_state*], [utime.rs]), [MembershipState.v]
      ([raft_state/membership_state/]), [Entry.v] ([entry/]), [RaftState.v]
      ([raft_state/mod.rs]) and [Config.v] ([config/],
      [engine/engine_config.rs]): the state and configuration of a node.
    - [ProgressEntry.v] ([progress/inflight/], [progress/entry/]) and
      [Proposer.v] ([proposer/]): what a leader knows of one target, and the
      state of candidates and leaders.
    - [Command.v] ([engine/command*.rs], [engine/engine_output.rs],
      [engine/pending_responds.rs], [raft/message/]): what goes in and out.
    - [Engine.v], [Replication.v], [Following.v], [LeaderHandler.v],
      [VoteHandler.v] ([engine/handler/], one file per large handler) and
      [EngineImpl.v] ([engine/engine_impl.rs]): the operations of the engine.
    - [VoteSafety.v]: the operations as events and inputs of one node.  [Cluster.v] and
      [Election.v]: many nodes that exchange messages.
    - [RaftSpec.v]: Raft as a protocol on logs of log ids, without engines.
      [ReplicaFrame.v], [Replica.v], [ReplicaLead.v], [ReplicaFollow.v],
      [ReplicaSnapshot.v] and [ReplicaProgress.v]: each handler of the engine
      makes steps of the protocol (votes, elections and logs of leaders, entries
      and commits of followers, snapshots and purged logs, commits of leaders).
      [LogSafety.v]: a cluster of engines.
    - [ReadQueue.v] ([raft/linearizable_read/], [core/linearizable_read/]) and
      [CoreHelpers.v] ([core/client_responder_queue.rs], [core/balancer.rs],
      [core/tick.rs]): the queues of the runtime.  [Ticker.v]
      ([core/tick.rs]): its timer task.
    - [Wire.v] and [Endpoint.v] ([network/zenoh/]): the transport.
    - [Core.v], [CoreHandlers.v] and [CoreRun.v] ([core/raft_core.rs]): the
      runtime, its handlers, its commands and an iteration of its loop.
      [CoreLogic.v] is the logic they are reasoned in; [CoreClients.v],
      [CoreSafety.v], [CoreVotes.v] and [CoreReads.v] hold their properties.
    - [MsgReceiver.v] ([core/merged_raft_msg_receiver.rs]).
    - [Storage.v] ([storage/]): the traits of the application as the class
      [RaftStorage] and what they document as [RaftStorageLaws];
      [LogReader.v] ([storage/raft_log_reader.rs]): the stream of a leader;
      [MemStore.v] ([testing/memstore.rs]): the store in memory, an instance;
      [SmWorker.v] ([core/sm/worker.rs]): the task of the state machine;
      [Startup.v] ([storage/helper.rs]): recovery.
    - [ReplStream.v] ([replication/]) and [ReplSafety.v]: the task that sends
      the log to a target.
    - [TaskLocal.v] ([async_runtime/task_local.rs],
      [async_runtime/deterministic_rng.rs]): values local to a task and seeds.
    - [Watch.v] ([async_runtime/watch/]): the watch channel.
    - [Heartbeat.v] ([core/heartbeat/]), [Metrics.v] ([storage/callback.rs],
      [core/io_flush_tracking/], [metrics/]) and [Observers.v]
      ([metrics/wait.rs], [core/step_down_watcher.rs]): heartbeats, the
      completion of I/O, what is told to observers, and who waits for it.
    - [Join.v] ([raft/raft_inner.rs]), [Api.v] ([raft/api/], [raft/mod.rs],
      [raft/trigger.rs]) and [ApiTasks.v] ([raft/mod.rs],
      [raft/stream_append.rs]): the API and its tasks.
    - [Node.v] ([Raft::new], [main]): a node from its start to its end, and
      over crashes.  [Deadline.v]
      ([core/linearizable_read/pending_read_deadline_notifier.rs]).

    ** Correspondence with the code

    A struct is a record, an enum an inductive type with the variants of the
    source, and a method [T::m] a definition [T_m], or [m] where that is
    unambiguous.  Fields are prefixed with the name of their type where names
    would clash.  Methods with [&mut self] return the new value.

    - The handlers of the engine borrow several fields of it; they are functions
      of the whole [Engine], in a monad [M] over a [World] (the engine and the
      number of clock readings and random draws so far) where they read the
      clock, draw random numbers or may panic.  The clock and the generator are
      the class [Env].
    - The handlers of the runtime are programs of the monad [K] over [RaftCore],
      with a trace of what they do to the outside and with calls of the store
      that may fail ([StoreEnv]).  Recovery is in the monad [H] over the store
      of the application; a call of the API is a tree of requests to the
      outside ([Prog]), of which a run gives the results.
    - Tasks that wait on several things at once are functions of a list of what
      happens, or step relations over the state they share, so that the
      theorems hold for every interleaving ([Cluster.v], [LogSafety.v],
      [Watch.v], [Join.v], [Deadline.v]).
    - [u64] is [N] with the wrap-around of the release profile
      ([overflow-checks = false]) written out in [u64_add] and [u64_sub].
    - [unwrap], [expect], [assert!], [unreachable!] and slice indexing out of
      range give [Panic]; [debug_assert!] is compiled out in a release build and
      has no effect here.  That an operation does not panic is part of its
      theorem.
    - [Result] is the type [result]; a method that changes the state
      before it fails returns the changed state along with the error.
    - Node data, application data and snapshot data are type parameters.
      Logging and the names used only for it are left out.  A response channel
      is an identifier.
    - Parameters that stand for code outside the repository: the clock and the
      random numbers ([Env]), the results of storage calls ([StoreEnv]), the
      application ([RaftStorage]), the codec, key expressions and sessions of
      the transport in [Wire.v], the parser of backoff strings in
      [Config_validate].

    ** Theorems

    The doc comments of the main theorems carry an id [C<n>]; the other lemmas
    support them.

    - Elections: what a node grants, that a pre-vote predicts the vote, and the
      campaign of a candidate ([EngineImpl.v]), its tally ([Proposer.v]), the
      vote check of every message ([VoteHandler.v]); the vote of a node never
      moves back, but when a node that has none but a vote of term 0 is
      initialized ([VoteSafety.v]); nor does it on disk ([CoreVotes.v]) or over
      crashes and restarts ([Node.v]), from term 1 on; in any interleaving of the steps of any
      number of nodes, two elected votes are ordered ([Cluster.v]), every leader
      is elected and a term has one leader ([Election.v]).
    - Consensus: in the protocol, what a quorum has accepted from its proposer is
      in the log of every later leader ([RaftSpec.v]); a cluster of engines
      implements the protocol, also when logs are purged and replaced by
      snapshots, so that the logs of its nodes match, a leader has what nodes
      before it have committed, and two nodes commit the same logs
      ([LogSafety.v]).
    - Quorums: quorums of successive memberships intersect and a change takes at
      most two steps ([Membership.v]), which [MembershipState.v] enforces along
      the log, standing for all memberships in it, and [Api.v] sends as two
      fenced messages; the tracker computes the
      greatest value a quorum has reached ([VecProgress.v]).
    - Logs: the compressed list refines the list of ids and is rebuilt from the
      store ([LogIdList.v]); a follower adopts the log of the leader, never loses
      a committed log, and its commands replay to the log it keeps in memory;
      snapshots are installed or refused ([Following.v]); success is reported
      only once the entries are flushed, and a cluster is initialized once
      ([EngineImpl.v]).
    - Leaders: what is committed ([Replication.v], [RaftState.v]), proposals
      ([LeaderHandler.v]), what is sent to a target and that the search for its
      matching log ends ([ProgressEntry.v]), in which order and completely
      ([ReplSafety.v]), who has acknowledged a valid lease and the state of a new
      leader ([Proposer.v]), heartbeats ([Heartbeat.v]).
    - Clients: every write and read is answered once ([CoreClients.v]); a read
      gets a position only when leadership is confirmed ([CoreReads.v]), waits
      until it is applied ([Api.v]) and does not outlive its deadline
      ([Deadline.v]); merging writes keeps their order ([MsgReceiver.v]).
    - I/O: merging appends and releasing responds ([Command.v]), the command
      loop ([CoreSafety.v]), applying in order ([EngineImpl.v], [SmWorker.v]),
      purging, which never deletes what is needed ([Engine.v], [Replication.v],
      [EngineImpl.v]), completions in any order ([Metrics.v], [ApiTasks.v]),
      recovery ([Startup.v]), and RPCs ([Wire.v]); the store in memory is a
      list of entries with the last status of each client ([MemStore.v]), and a
      stream bound to a leader has only entries of its log ([LogReader.v]).
    - Tasks and channels: a task sees the values of its own scopes on whatever
      threads it runs, and its random seeds do not depend on other tasks
      ([TaskLocal.v]); the timer numbers its ticks and stops ([Ticker.v]);
      no update of a watch channel is lost, nor a wake-up, under sequentially
      consistent memory ([Watch.v]), waits
      return the first metrics that fit and a removed leader steps down
      ([Observers.v]), callers learn why the runtime has stopped ([Join.v]), and
      the main loop takes only the steps that the theorems are about
      ([Node.v]).

    ** Fuel

    Loops of the source over collections are structural recursion, and loops
    that wait are recursion over the list of what happens.  Where the
    recursion is not structural, a definition takes fuel and a theorem shows
    that the amount it gets is enough: the iterators of [LeaderLogIds] and
    [DrainSatisfied] get the number of their items, the stack of
    [get_key_log_ids] twice the length of the log plus two, the dialogue of
    leader and follower in [probe_search] the length of the search range, the
    command loop the number of queued commands and one ([CoreSafety.v]), and
    the chunks of the recovery the number of entries ([Startup.v]).

    ** Not modelled

    The wrappers of the asynchronous runtime ([runtime/]), the wiring of
    channels when tasks are spawned, opening a Zenoh session and declaring its
    queryable, parsing of command lines and backoff strings, formatting and
    logging, the extensions map, the test suite for stores and the procedural
    macros: I/O, libraries or text.
    Crashes are steps of [Node.v] and not of [Cluster.v] or [LogSafety.v];
    [Election.v] and [LogSafety.v] are about clusters that act under one
    membership.  What is proved of changes of the membership is in
    [Membership.v] and [MembershipState.v].

    ** Plan

    Left: changes of the membership and crashes in the clusters of
    [LogSafety.v]. *)

From stdpp Require Export prelude gmap list sorting.
From Stdlib Require Export Lia.

#[export] Set Default Goal Selector "!".

Declare Scope raft_scope.
Delimit Scope raft_scope with raft.
Open Scope raft_scope.

Create HintDb raft.
Create HintDb raft_u64.

(** ** Machine integers

    A [u64] is an [N].  The release profile compiles with
    [overflow-checks = false]: additions and subtractions wrap. *)

Abbreviation u64 := N.

Definition u64_modulus : N := 18446744073709551616.

Definition in_u64 (a : u64) : Prop := (a < u64_modulus)%N.

Definition u64_add (a b : u64) : u64 := ((a + b) mod u64_modulus)%N.

Definition u64_sub (a b : u64) : u64 :=
  ((a + u64_modulus - b mod u64_modulus) mod u64_modulus)%N.

(** [saturating_sub] is the truncated subtraction of [N]. *)
Definition u64_saturating_sub (a b : u64) : u64 := (a - b)%N.

Lemma u64_add_small a b : (a + b < u64_modulus)%N → u64_add a b = (a + b)%N.
Proof. intros; unfold u64_add; by apply N.mod_small. Qed.

Lemma u64_sub_small a b :
  (b ≤ a)%N → in_u64 a → u64_sub a b = (a - b)%N.
Proof.
  unfold u64_sub, in_u64; intros Hle Ha.
  rewrite (N.mod_small b) by lia.
  replace (a + u64_modulus - b)%N with (a - b + 1 * u64_modulus)%N by lia.
  rewrite N.Div0.mod_add. apply N.mod_small. lia.
Qed.

Lemma u64_add_in a b : in_u64 (u64_add a b).
Proof. unfold in_u64, u64_add. by apply N.mod_lt. Qed.

(** Rewrites the wrapping operations away where [lia] sees that they do not
    wrap. *)
Ltac u64_simpl :=
  unfold in_u64 in *;
  repeat first
    [ rewrite u64_add_small in * by (unfold in_u64 in *; lia)
    | rewrite u64_sub_small in * by (unfold in_u64 in *; lia) ].

(** ** Total orders: Rust's [Ord] *)

Class Ord (A : Type) := cmp : A → A → comparison.
#[global] Hint Mode Ord ! : typeclass_instances.

Class OrdLaws (A : Type) `{!Ord A} := {
  cmp_eq : ∀ x y : A, cmp x y = Eq ↔ x = y;
  cmp_flip : ∀ x y : A, cmp y x = CompOpp (cmp x y);
  cmp_lt_trans : ∀ x y z : A, cmp x y = Lt → cmp y z = Lt → cmp x z = Lt;
}.
#[global] Hint Mode OrdLaws ! - : typeclass_instances.

Section ord_ops.
Context {A : Type} `{!Ord A}.

Definition ltb (x y : A) : bool :=
  match cmp x y with Lt => true | _ => false end.
Definition leb (x y : A) : bool :=
  match cmp x y with Gt => false | _ => true end.

Definition ord_lt (x y : A) : Prop := cmp x y = Lt.
Definition ord_le (x y : A) : Prop := cmp x y ≠ Gt.

(** [std::cmp::max] returns its second argument when the two are equal,
    [std::cmp::min] its first. *)
Definition omax (x y : A) : A := if leb x y then y else x.
Definition omin (x y : A) : A := if leb x y then x else y.
End ord_ops.

Notation "x <? y" := (ltb x y) : raft_scope.
Notation "x <=? y" := (leb x y) : raft_scope.
Notation "x >? y" := (ltb y x) (only parsing) : raft_scope.
Notation "x >=? y" := (leb y x) (only parsing) : raft_scope.
Notation "x ≺ y" := (ord_lt x y) (at level 70) : raft_scope.
Notation "x ≼ y" := (ord_le x y) (at level 70) : raft_scope.

Section ord_laws.
Context {A : Type} `{OrdLaws A}.
Implicit Types x y z : A.

Lemma cmp_refl x : cmp x x = Eq.
Proof. by apply cmp_eq. Qed.

Lemma ord_lt_irrefl x : ¬ x ≺ x.
Proof. unfold ord_lt. by rewrite cmp_refl. Qed.

Lemma ord_lt_trans x y z : x ≺ y → y ≺ z → x ≺ z.
Proof. apply cmp_lt_trans. Qed.

Lemma ord_not_le x y : ¬ x ≼ y ↔ y ≺ x.
Proof. unfold ord_le, ord_lt. rewrite (cmp_flip x y). destruct (cmp x y); naive_solver. Qed.

Lemma ord_not_lt x y : ¬ x ≺ y ↔ y ≼ x.
Proof. unfold ord_le, ord_lt. rewrite (cmp_flip x y). destruct (cmp x y); naive_solver. Qed.

Lemma ord_le_alt x y : x ≼ y ↔ x ≺ y ∨ x = y.
Proof. unfold ord_le, ord_lt. rewrite <- cmp_eq. destruct (cmp x y); naive_solver. Qed.

Lemma ord_le_refl x : x ≼ x.
Proof. apply ord_le_alt; auto. Qed.

Lemma ord_lt_le x y : x ≺ y → x ≼ y.
Proof. intros; apply ord_le_alt; auto. Qed.

Lemma ord_le_trans x y z : x ≼ y → y ≼ z → x ≼ z.
Proof. rewrite !ord_le_alt. intros [?| ->] [?| ->]; eauto using ord_lt_trans. Qed.

Lemma ord_le_lt_trans x y z : x ≼ y → y ≺ z → x ≺ z.
Proof. rewrite !ord_le_alt. intros [?| ->] ?; eauto using ord_lt_trans. Qed.

Lemma ord_lt_le_trans x y z : x ≺ y → y ≼ z → x ≺ z.
Proof. rewrite !ord_le_alt. intros ? [?| ->]; eauto using ord_lt_trans. Qed.

Lemma ord_le_antisym x y : x ≼ y → y ≼ x → x = y.
Proof.
  rewrite !ord_le_alt. intros [Hl|?] [Hr|?]; auto.
  destruct (ord_lt_irrefl x). eauto using ord_lt_trans.
Qed.

Lemma ord_total x y : x ≼ y ∨ y ≼ x.
Proof. unfold ord_le. rewrite (cmp_flip x y). destruct (cmp x y); naive_solver. Qed.

Lemma ltb_spec x y : BoolSpec (x ≺ y) (y ≼ x) (x <? y).
Proof.
  unfold ltb. destruct (cmp x y) eqn:E; constructor; try done;
    unfold ord_le; rewrite cmp_flip, E; done.
Qed.

Lemma leb_spec x y : BoolSpec (x ≼ y) (y ≺ x) (x <=? y).
Proof.
  unfold leb. destruct (cmp x y) eqn:E; constructor; unfold ord_le, ord_lt;
    rewrite ?E; try done; by rewrite cmp_flip, E.
Qed.

Lemma ltb_true x y : (x <? y) = true ↔ x ≺ y.
Proof. unfold ltb, ord_lt. destruct (cmp x y); naive_solver. Qed.

Lemma leb_true x y : (x <=? y) = true ↔ x ≼ y.
Proof. unfold leb, ord_le. destruct (cmp x y); naive_solver. Qed.

Lemma ltb_false x y : (x <? y) = false ↔ y ≼ x.
Proof. destruct (ltb_spec x y) as [Hl|]; [|naive_solver]. rewrite <- ord_not_le in Hl. naive_solver. Qed.

Lemma leb_false x y : (x <=? y) = false ↔ y ≺ x.
Proof. destruct (leb_spec x y) as [Hl|]; [|naive_solver]. rewrite <- ord_not_lt in Hl. naive_solver. Qed.

Lemma omax_l x y : x ≼ omax x y.
Proof. unfold omax. destruct (leb_spec x y); auto using ord_le_refl. Qed.

Lemma omax_r x y : y ≼ omax x y.
Proof. unfold omax. destruct (leb_spec x y); auto using ord_le_refl, ord_lt_le. Qed.

Lemma omin_l x y : omin x y ≼ x.
Proof. unfold omin. destruct (leb_spec x y); auto using ord_le_refl, ord_lt_le. Qed.

Lemma omin_r x y : omin x y ≼ y.
Proof. unfold omin. destruct (leb_spec x y); auto using ord_le_refl, ord_lt_le. Qed.

Lemma omin_cases x y : omin x y = x ∨ omin x y = y.
Proof. unfold omin. destruct (x <=? y); auto. Qed.

Lemma omax_cases x y : omax x y = x ∨ omax x y = y.
Proof. unfold omax. destruct (x <=? y); auto. Qed.
End ord_laws.

#[export] Hint Resolve ord_le_refl ord_lt_le omax_l omax_r omin_l omin_r : raft.

(** Decides a goal about [≺], [≼] and [=] from the facts of the same kind in
    the context, by saturation under transitivity. *)
Ltac ord_learn H :=
  let T := type of H in
  lazymatch goal with
  | _ : T |- _ => fail
  | _ => pose proof H
  end.

Ltac ord_norm :=
  repeat match goal with
  | H : (_ <? _) = true |- _ => apply ltb_true in H
  | H : (_ <? _) = false |- _ => apply ltb_false in H
  | H : (_ <=? _) = true |- _ => apply leb_true in H
  | H : (_ <=? _) = false |- _ => apply leb_false in H
  | H : ¬ (_ ≼ _) |- _ => apply ord_not_le in H
  | H : ¬ (_ ≺ _) |- _ => apply ord_not_lt in H
  end.

Ltac ord_saturate :=
  repeat match goal with
  | H : ?x ≺ ?x |- _ => by destruct (ord_lt_irrefl x)
  | H1 : ?x ≺ ?y, H2 : ?y ≺ ?z |- _ => ord_learn (ord_lt_trans x y z H1 H2)
  | H1 : ?x ≼ ?y, H2 : ?y ≺ ?z |- _ => ord_learn (ord_le_lt_trans x y z H1 H2)
  | H1 : ?x ≺ ?y, H2 : ?y ≼ ?z |- _ => ord_learn (ord_lt_le_trans x y z H1 H2)
  | H1 : ?x ≼ ?y, H2 : ?y ≼ ?z |- _ => ord_learn (ord_le_trans x y z H1 H2)
  end.

Ltac ord :=
  subst; ord_norm;
  lazymatch goal with
  | |- (_ <? _) = true => apply ltb_true
  | |- (_ <? _) = false => apply ltb_false
  | |- (_ <=? _) = true => apply leb_true
  | |- (_ <=? _) = false => apply leb_false
  | |- _ => idtac
  end;
  lazymatch goal with
  | |- ?x ≼ ?y => destruct (leb_spec x y) as [?|?]; [assumption|exfalso]
  | |- ?x ≺ ?y => destruct (ltb_spec x y) as [?|?]; [assumption|exfalso]
  | |- ?x = ?y => apply ord_le_antisym
  | |- _ => exfalso
  end;
  lazymatch goal with
  | |- False => ord_saturate
  | |- ?x ≼ ?y => destruct (leb_spec x y) as [?|?]; [assumption|exfalso]; ord_saturate
  end.

(** *** Instances *)

#[export] Instance N_ord : Ord N := N.compare.
#[export] Instance N_ord_laws : OrdLaws N.
Proof.
  split; unfold cmp, N_ord.
  - intros; apply N.compare_eq_iff.
  - intros; apply N.compare_antisym.
  - intros x y z; rewrite !N.compare_lt_iff; lia.
Qed.

Lemma N_ord_lt (a b : N) : a ≺ b ↔ (a < b)%N.
Proof. apply N.compare_lt_iff. Qed.
Lemma N_ord_le (a b : N) : a ≼ b ↔ (a ≤ b)%N.
Proof. apply N.compare_le_iff. Qed.

(** [false < true] *)
#[export] Instance bool_ord : Ord bool := λ a b,
  match a, b with
  | false, true => Lt
  | true, false => Gt
  | _, _ => Eq
  end.
#[export] Instance bool_ord_laws : OrdLaws bool.
Proof. split; [intros [] []|intros [] []|intros [] [] []]; cbn; naive_solver. Qed.

(** [None < Some _] *)
#[export] Instance option_ord {A} `{!Ord A} : Ord (option A) := λ a b,
  match a, b with
  | None, None => Eq
  | None, Some _ => Lt
  | Some _, None => Gt
  | Some x, Some y => cmp x y
  end.
#[export] Instance option_ord_laws {A} `{OrdLaws A} : OrdLaws (option A).
Proof.
  split.
  - intros [x|] [y|]; cbn; try naive_solver. rewrite cmp_eq. naive_solver.
  - intros [x|] [y|]; cbn; try naive_solver. apply cmp_flip.
  - intros [x|] [y|] [z|]; cbn; try naive_solver. apply cmp_lt_trans.
Qed.

Lemma None_le {A} `{OrdLaws A} (o : option A) : None ≼ o.
Proof. by destruct o. Qed.
Lemma Some_lt {A} `{OrdLaws A} (x y : A) : Some x ≺ Some y ↔ x ≺ y.
Proof. done. Qed.
Lemma Some_le {A} `{OrdLaws A} (x y : A) : Some x ≼ Some y ↔ x ≼ y.
Proof. done. Qed.
Lemma Some_le_None {A} `{OrdLaws A} (x : A) : ¬ Some x ≼ None.
Proof. unfold ord_le. by intros []. Qed.
Lemma lt_is_Some {A} `{OrdLaws A} (o p : option A) : o ≺ p → is_Some p.
Proof. destruct p; [eauto|]. by destruct o. Qed.
#[export] Hint Resolve None_le : raft.

(** Lexicographic comparison: what [#[derive(PartialOrd, Ord)]] gives a
    struct of two fields. *)
Definition lex (c1 c2 : comparison) : comparison :=
  match c1 with Eq => c2 | c => c end.

(** ** Partial orders: Rust's [PartialOrd] *)

Class PartialOrd (A : Type) := partial_cmp : A → A → option comparison.
#[global] Hint Mode PartialOrd ! : typeclass_instances.

Class PartialOrdLaws (A : Type) `{!PartialOrd A} := {
  pcmp_eq : ∀ x y : A, partial_cmp x y = Some Eq ↔ x = y;
  pcmp_flip : ∀ x y : A, partial_cmp y x = CompOpp <$> partial_cmp x y;
  pcmp_lt_trans : ∀ x y z : A,
    partial_cmp x y = Some Lt → partial_cmp y z = Some Lt →
    partial_cmp x z = Some Lt;
}.
#[global] Hint Mode PartialOrdLaws ! - : typeclass_instances.

Section partial_ord_ops.
Context {A : Type} `{!PartialOrd A}.
Definition pltb (x y : A) : bool :=
  match partial_cmp x y with Some Lt => true | _ => false end.
Definition pleb (x y : A) : bool :=
  match partial_cmp x y with Some Lt | Some Eq => true | _ => false end.
Definition pgtb (x y : A) : bool :=
  match partial_cmp x y with Some Gt => true | _ => false end.
Definition pgeb (x y : A) : bool :=
  match partial_cmp x y with Some Gt | Some Eq => true | _ => false end.
End partial_ord_ops.

(** [None < Some _], and two present values compare as their contents. *)
#[export] Instance option_partial_ord {A} `{!PartialOrd A} : PartialOrd (option A) :=
  λ a b,
  match a, b with
  | None, None => Some Eq
  | None, Some _ => Some Lt
  | Some _, None => Some Gt
  | Some x, Some y => partial_cmp x y
  end.
#[export] Instance option_partial_ord_laws {A} `{PartialOrdLaws A} :
  PartialOrdLaws (option A).
Proof.
  split.
  - intros [x|] [y|]; cbn; try naive_solver. rewrite pcmp_eq. naive_solver.
  - intros [x|] [y|]; cbn; try naive_solver. apply pcmp_flip.
  - intros [x|] [y|] [z|]; cbn; try naive_solver. apply pcmp_lt_trans.
Qed.

Section partial_ord_laws.
Context {A : Type} `{PartialOrdLaws A}.
Implicit Types x y z : A.

Lemma pcmp_refl x : partial_cmp x x = Some Eq.
Proof. by apply pcmp_eq. Qed.

Lemma pgtb_flip x y : pgtb x y = pltb y x.
Proof. unfold pgtb, pltb. rewrite (pcmp_flip x y). by destruct (partial_cmp x y) as [[]|]. Qed.

Lemma pgeb_flip x y : pgeb x y = pleb y x.
Proof. unfold pgeb, pleb. rewrite (pcmp_flip x y). by destruct (partial_cmp x y) as [[]|]. Qed.

Lemma pltb_true x y : pltb x y = true ↔ partial_cmp x y = Some Lt.
Proof. unfold pltb. destruct (partial_cmp x y) as [[]|]; naive_solver. Qed.

Lemma pleb_true x y : pleb x y = true ↔ pltb x y = true ∨ x = y.
Proof.
  unfold pleb, pltb. rewrite <- pcmp_eq.
  destruct (partial_cmp x y) as [[]|]; naive_solver.
Qed.

Lemma pleb_refl x : pleb x x = true.
Proof. apply pleb_true; auto. Qed.

Lemma pltb_irrefl x : pltb x x = false.
Proof. unfold pltb. by rewrite pcmp_refl. Qed.

Lemma pltb_trans x y z : pltb x y = true → pltb y z = true → pltb x z = true.
Proof. rewrite !pltb_true. apply pcmp_lt_trans. Qed.

Lemma pleb_trans x y z : pleb x y = true → pleb y z = true → pleb x z = true.
Proof. rewrite !pleb_true. intros [?|<-] [?|<-]; eauto using pltb_trans. Qed.

Lemma pltb_pleb_trans x y z : pltb x y = true → pleb y z = true → pltb x z = true.
Proof. rewrite pleb_true. intros ? [?|<-]; eauto using pltb_trans. Qed.

Lemma pleb_pltb_trans x y z : pleb x y = true → pltb y z = true → pltb x z = true.
Proof. rewrite pleb_true. intros [?|<-] ?; eauto using pltb_trans. Qed.

Lemma pltb_pleb x y : pltb x y = true → pleb x y = true.
Proof. rewrite pleb_true; auto. Qed.

Lemma pleb_antisym x y : pleb x y = true → pleb y x = true → x = y.
Proof.
  rewrite !pleb_true. intros [Hl|?] [Hr|?]; auto.
  pose proof (pltb_trans _ _ _ Hl Hr) as Hc. by rewrite pltb_irrefl in Hc.
Qed.

Lemma pleb_None (o : option A) : pleb None o = true.
Proof. by destruct o. Qed.
End partial_ord_laws.

#[export] Hint Resolve pleb_refl pleb_None pltb_pleb : raft.

(** ** Panics

    [unwrap], [expect], [assert!], [unreachable!] and an index out of range
    end the task that runs the engine: such an operation returns an
    [outcome]. *)

Inductive outcome (A : Type) : Type :=
| Ret (a : A)
| Panic.
Arguments Ret {A} a.
Arguments Panic {A}.

#[export] Instance outcome_ret : MRet outcome := @Ret.
#[export] Instance outcome_bind : MBind outcome := λ A B f m,
  match m with Ret a => f a | Panic => Panic end.
#[export] Instance outcome_fmap : FMap outcome := λ A B f m,
  match m with Ret a => Ret (f a) | Panic => Panic end.

(** [Option::unwrap], [Option::expect] *)
Definition unwrap {A} (o : option A) : outcome A :=
  match o with Some a => Ret a | None => Panic end.

(** [assert!] *)
Definition assert (b : bool) : outcome unit := if b then Ret tt else Panic.

Lemma outcome_bind_Ret {A B} (m : outcome A) (f : A → outcome B) b :
  m ≫= f = Ret b ↔ ∃ a, m = Ret a ∧ f a = Ret b.
Proof. destruct m; cbn; naive_solver. Qed.

Lemma unwrap_Ret {A} (o : option A) a : unwrap o = Ret a ↔ o = Some a.
Proof. destruct o; cbn; naive_solver. Qed.

Lemma assert_Ret b u : assert b = Ret u ↔ b = true.
Proof. destruct b, u; cbn; naive_solver. Qed.

(** [Result<A, E>] *)
Inductive result (A E : Type) : Type :=
| Ok (a : A)
| Err (e : E).
Arguments Ok {A E} a.
Arguments Err {A E} e.

(** ** [slice::binary_search_by]

    The standard library's loop: [size] halves while the window has more than
    one element, [f] compares the element at an index with the target.  The
    fuel is the length of the slice: [size] strictly decreases. *)
Section binary_search.
Context {A : Type} (f : A → comparison).

Definition probe (l : list A) (i : nat) : comparison :=
  match l !! i with Some a => f a | None => Eq end.

Fixpoint binary_search_loop (fuel : nat) (l : list A) (base size : nat) : nat :=
  match fuel with
  | O => base
  | S fuel =>
      if decide (1 < size) then
        let half := Nat.div2 size in
        let mid := base + half in
        let base' := match probe l mid with Gt => base | _ => mid end in
        binary_search_loop fuel l base' (size - half)
      else base
  end.

Definition binary_search_by (l : list A) : result nat nat :=
  match l with
  | [] => Err 0
  | _ =>
      let base := binary_search_loop (length l) l 0 (length l) in
      match probe l base with
      | Eq => Ok base
      | Lt => Err (base + 1)
      | Gt => Err base
      end
  end.

(** The precondition of the standard library: the slice is sorted
    consistently with [f]. *)
Definition monotone_cmp (l : list A) : Prop :=
  ∀ i j a b, l !! i = Some a → l !! j = Some b → i ≤ j →
    (f a = Gt → f b = Gt) ∧ (f b = Lt → f a = Lt).

Lemma div2_bounds n : 1 < n → 1 ≤ Nat.div2 n ∧ 2 * Nat.div2 n ≤ n.
Proof.
  intros. pose proof (Nat.div2_odd n). destruct (Nat.odd n); cbn in *; lia.
Qed.

Lemma binary_search_loop_spec l fuel base size :
  monotone_cmp l → size ≤ fuel → 1 ≤ size → base + size ≤ length l →
  (∀ i a, l !! i = Some a → base + size ≤ i → f a = Gt) →
  (0 < base → probe l base ≠ Gt) →
  let r := binary_search_loop fuel l base size in
  r < length l ∧ (∀ i a, l !! i = Some a → r < i → f a = Gt) ∧
  (0 < r → probe l r ≠ Gt).
Proof.
  intros Hm. revert base size. induction fuel as [|fuel IH]; intros base size; cbn; [lia|].
  intros Hf Hs Hlen Hhi Hlo. case_decide as H1.
  - destruct (div2_bounds size H1) as [Hh1 Hh2].
    destruct (lookup_lt_is_Some_2 l (base + Nat.div2 size)) as [m Hmid]; [lia|].
    assert (probe l (base + Nat.div2 size) = f m) as Hp by (unfold probe; by rewrite Hmid).
    destruct (decide (f m = Gt)) as [HG|HG].
    + rewrite Hp, HG. apply IH; try lia; [|done].
      intros i a Hi Hle. apply (Hm _ _ _ _ Hmid Hi); [lia|done].
    + assert (match probe l (base + Nat.div2 size) with Gt => base | _ => base + Nat.div2 size end
        = base + Nat.div2 size) as -> by (rewrite Hp; by destruct (f m)).
      apply IH; try lia; [|by rewrite Hp].
      intros i a Hi Hle. apply (Hhi i); [done|lia].
  - split_and!; [lia| |done]. intros i a Hi Hlt. apply (Hhi i); [done|lia].
Qed.

(** On a sorted slice the search finds an equal element, or else the index
    that separates the smaller elements from the greater ones. *)
Lemma binary_search_by_spec l :
  monotone_cmp l →
  match binary_search_by l with
  | Ok i => ∃ a, l !! i = Some a ∧ f a = Eq
  | Err i => i ≤ length l ∧ ∀ j a, l !! j = Some a →
      (j < i → f a = Lt) ∧ (i ≤ j → f a = Gt)
  end.
Proof.
  intros Hm. unfold binary_search_by. destruct l as [|x l']; [split; [done|]; set_solver|].
  set (l := x :: l') in *.
  destruct (binary_search_loop_spec l (length l) 0 (length l) Hm) as (Hr & Hhi & Hlo);
    try (cbn; lia).
  { intros i a Hi%lookup_lt_Some; lia. }
  set (r := binary_search_loop _ _ _ _) in *.
  destruct (lookup_lt_is_Some_2 l r Hr) as [a Ha].
  unfold probe in *. rewrite Ha in *. destruct (f a) eqn:Hfa; [eauto| |].
  - split; [lia|]. intros j b Hj. split; intros.
    + apply (Hm j r b a); [done..|lia|done].
    + apply (Hhi j); [done|lia].
  - split; [lia|]. intros j b Hj. split; intros.
    + destruct (decide (0 < r)); [naive_solver|lia].
    + by apply (Hm r j a b).
Qed.
End binary_search.

(** ** [BTreeSet] and [BTreeMap]

    An ordered set of node ids is a [gset], an ordered map a [gmap]; their
    iterators visit the keys in increasing order. *)
Definition bset_iter (s : gset N) : list N := merge_sort N.le (elements s).

Definition bmap_iter {V} (m : gmap N V) : list (N * V) :=
  omap (λ k, v ← m !! k; Some (k, v)) (bset_iter (dom m)).

Lemma bset_iter_perm s : bset_iter s ≡ₚ elements s.
Proof. apply merge_sort_Permutation. Qed.

Lemma elem_of_bset_iter s x : x ∈ bset_iter s ↔ x ∈ s.
Proof. by rewrite bset_iter_perm, elem_of_elements. Qed.

Lemma NoDup_bset_iter s : NoDup (bset_iter s).
Proof. rewrite bset_iter_perm. apply NoDup_elements. Qed.

Lemma length_bset_iter s : length (bset_iter s) = size s.
Proof. by rewrite bset_iter_perm. Qed.

Lemma Sorted_bset_iter s : StronglySorted N.le (bset_iter s).
Proof. apply StronglySorted_merge_sort; apply _. Qed.

Lemma elem_of_bmap_iter {V} (m : gmap N V) k v :
  (k, v) ∈ bmap_iter m ↔ m !! k = Some v.
Proof.
  unfold bmap_iter. rewrite list_elem_of_omap. split.
  - intros (k' & _ & Hb). apply bind_Some in Hb. naive_solver.
  - intros Hk. exists k. rewrite Hk. split; [|done].
    rewrite elem_of_bset_iter. by apply elem_of_dom_2 in Hk.
Qed.

(** ** Lists *)

Lemma last_snoc_inv {A} (l : list A) x : last l = Some x → ∃ l', l = l' ++ [x].
Proof.
  induction l as [|y l' _] using rev_ind; [done|]. rewrite last_snoc. naive_solver.
Qed.

Lemma StronglySorted_lookup {A} (R : A → A → Prop) l i j x y :
  StronglySorted R l → l !! i = Some x → l !! j = Some y → i < j → R x y.
Proof.
  intros Hs. revert i j. induction Hs as [|a l Hs IH Hall]; intros [|i] [|j] Hi Hj ?; try done || lia.
  - cbn in *; simplify_eq. rewrite Forall_lookup in Hall. eauto.
  - cbn in *. eapply IH; eauto; lia.
Qed.

Lemma StronglySorted_lookup_2 {A} (R : A → A → Prop) l :
  (∀ i j x y, l !! i = Some x → l !! j = Some y → i < j → R x y) → StronglySorted R l.
Proof.
  induction l as [|a l IH]; intros Hl; constructor.
  - apply IH. intros i j x y ???. apply (Hl (S i) (S j)); try done. lia.
  - apply Forall_lookup. intros i x Hi. apply (Hl 0 (S i)); try done. lia.
Qed.

Lemma filter_all {A} (P : A → Prop) `{!∀ x, Decision (P x)} (l : list A) :
  (∀ x, x ∈ l → P x) → filter P l = l.
Proof.
  induction l as [|x l IH]; intros Hl; [done|].
  rewrite filter_cons_True by (apply Hl; set_solver). f_equal. apply IH. set_solver.
Qed.

Lemma filter_none {A} (P : A → Prop) `{!∀ x, Decision (P x)} (l : list A) :
  (∀ x, x ∈ l → ¬ P x) → filter P l = [].
Proof.
  induction l as [|x l IH]; intros Hl; [done|].
  rewrite filter_cons_False by (apply Hl; set_solver). apply IH. set_solver.
Qed.

Lemma list_insert_middle' {A} (l1 l2 : list A) x y :
  <[length l1 := y]> (l1 ++ x :: l2) = l1 ++ y :: l2.
Proof. induction l1 as [|z l1 IH]; [done|]. cbn. f_equal. exact IH. Qed.
