(* ===== verification/Vote.v ===== *)
(** * Votes and leader ids

    [vote/leader_id/*.rs], [vote/raft_vote.rs], [vote/vote_impl.rs],
    [vote/ref_vote.rs], [vote/committed.rs], [vote/non_committed.rs] and
    [vote/vote_status.rs].

    The trait [RaftLeaderId] is the class [RaftTypeConfig]: the type
    parameters of the program and the operations the engine calls on them; its
    laws, [RaftLeaderIdLaws], are discharged by the two implementations of the
    source, [leader_id_adv] and [leader_id_std].  [Term] and [NodeId] are
    [u64]. *)

From S2P Require Import Prelude.

(** ** The type parameters *)

(** [RaftTypeConfig], with the items of [RaftLeaderId] for its leader id. *)
Class RaftTypeConfig := {
  LeaderId : Type;
  CommittedLeaderId : Type;
  Node : Type;
  AppData : Type;
  SnapshotData : Type;
  #[global] LeaderId_eq_dec :: EqDecision LeaderId;
  #[global] CommittedLeaderId_eq_dec :: EqDecision CommittedLeaderId;
  #[global] Node_eq_dec :: EqDecision Node;
  #[global] LeaderId_partial_ord :: PartialOrd LeaderId;
  #[global] CommittedLeaderId_ord :: Ord CommittedLeaderId;
  LeaderId_new : u64 → u64 → LeaderId;
  LeaderId_term : LeaderId → u64;
  LeaderId_node_id : LeaderId → u64;
  LeaderId_to_committed : LeaderId → CommittedLeaderId;
}.

(** What the engine relies on: leader ids are partially ordered, two
    incomparable ids compare in the same way with any third id of another
    rank, a greater term is a greater id, committing keeps the order, and
    candidates that exclude each other have the same committed id. *)
Class RaftLeaderIdLaws (C : RaftTypeConfig) := {
  #[global] LeaderId_partial_ord_laws :: PartialOrdLaws LeaderId;
  #[global] CommittedLeaderId_ord_laws :: OrdLaws CommittedLeaderId;
  LeaderId_incomparable_lt : ∀ a b c : LeaderId,
    partial_cmp a b = None → partial_cmp b c = Some Lt → partial_cmp a c = Some Lt;
  LeaderId_term_new : ∀ t n, LeaderId_term (LeaderId_new t n) = t;
  LeaderId_node_id_new : ∀ t n, LeaderId_node_id (LeaderId_new t n) = n;
  LeaderId_term_lt : ∀ a b : LeaderId,
    (LeaderId_term a < LeaderId_term b)%N → partial_cmp a b = Some Lt;
  LeaderId_term_le : ∀ a b : LeaderId,
    partial_cmp a b = Some Lt → (LeaderId_term a ≤ LeaderId_term b)%N;
  LeaderId_to_committed_lt : ∀ a b : LeaderId,
    partial_cmp a b = Some Lt → LeaderId_to_committed a ≺ LeaderId_to_committed b;
  LeaderId_to_committed_same : ∀ a b : LeaderId,
    partial_cmp a b = None → LeaderId_to_committed a = LeaderId_to_committed b;
}.

(** ** [leader_id_adv]: several leaders per term *)

Module LeaderIdAdv.
Record LeaderId := mk { term : u64; node_id : u64 }.

#[export] Instance eq_dec : EqDecision LeaderId.
Proof. solve_decision. Defined.

(** [#[derive(PartialOrd, Ord)]] *)
#[export] Instance ord : Ord LeaderId := λ a b,
  lex (cmp (term a) (term b)) (cmp (node_id a) (node_id b)).

#[export] Instance partial_ord : PartialOrd LeaderId := λ a b, Some (cmp a b).

#[export] Instance ord_laws : OrdLaws LeaderId.
Proof.
  split; unfold cmp, ord, lex.
  - intros [t n] [t' n']; cbn. unfold cmp, N_ord.
    destruct (N.compare_spec t t') as [->|?|?], (N.compare_spec n n') as [->|?|?];
      split; try done; intros; simplify_eq; lia.
  - intros [t n] [t' n']; cbn. unfold cmp, N_ord.
    rewrite (N.compare_antisym t t'), (N.compare_antisym n n').
    by destruct (t ?= t')%N.
  - intros [t n] [t' n'] [t'' n'']; cbn. unfold cmp, N_ord.
    destruct (N.compare_spec t t'), (N.compare_spec t' t''), (N.compare_spec t t'');
      subst; try done; try lia; rewrite !N.compare_lt_iff; lia.
Qed.

#[export] Instance partial_ord_laws : PartialOrdLaws LeaderId.
Proof.
  split; unfold partial_cmp, partial_ord.
  - intros. rewrite <- cmp_eq. split; [by intros [=]|by intros ->].
  - intros. cbn. by rewrite cmp_flip.
  - intros x y z ??. simplify_eq. f_equal. by eapply cmp_lt_trans.
Qed.

Definition config (Node0 AppData0 SnapshotData0 : Type)
    (H : EqDecision Node0) : RaftTypeConfig := {|
  Vote.LeaderId := LeaderId;
  CommittedLeaderId := LeaderId;
  Node := Node0;
  AppData := AppData0;
  SnapshotData := SnapshotData0;
  LeaderId_new := mk;
  LeaderId_term := term;
  LeaderId_node_id := node_id;
  LeaderId_to_committed := λ l, l;
|}.

#[export] Instance config_laws N0 A0 S0 H : RaftLeaderIdLaws (config N0 A0 S0 H).
Proof.
  split; try apply _; try done.
  - intros [t n] [t' n']; cbn. unfold partial_cmp; cbn.
    intros Hlt. unfold partial_ord, cmp, ord, lex; cbn. unfold cmp, N_ord.
    by rewrite (proj2 (N.compare_lt_iff t t') Hlt).
  - intros [t n] [t' n']; cbn. unfold partial_cmp; cbn.
    unfold partial_ord, cmp, ord, lex; cbn. unfold cmp, N_ord.
    destruct (N.compare_spec t t'); try lia. done.
  - intros a b Hab. unfold partial_cmp in Hab; cbn in *. by injection Hab.
Qed.
End LeaderIdAdv.

(** ** [leader_id_std]: at most one leader per term *)

Module LeaderIdStd.
Record LeaderId := mk { term : u64; voted_for : u64 }.

#[export] Instance eq_dec : EqDecision LeaderId.
Proof. solve_decision. Defined.

(** [LeaderIdCompare::std] *)
Definition LeaderIdCompare_std (a b : LeaderId) : option comparison :=
  match cmp (term a) (term b) with
  | Eq => if decide (voted_for a = voted_for b) then Some Eq else None
  | c => Some c
  end.

#[export] Instance partial_ord : PartialOrd LeaderId := LeaderIdCompare_std.

(** The committed id is a wrapper of the term. *)
Record CommittedLeaderId := mkCommitted { committed_term : u64 }.

#[export] Instance committed_eq_dec : EqDecision CommittedLeaderId.
Proof. solve_decision. Defined.

#[export] Instance committed_ord : Ord CommittedLeaderId := λ a b,
  cmp (committed_term a) (committed_term b).

#[export] Instance committed_ord_laws : OrdLaws CommittedLeaderId.
Proof.
  split; unfold cmp, committed_ord.
  - intros [t] [t']; cbn. rewrite cmp_eq. naive_solver.
  - intros; apply cmp_flip.
  - intros x y z; apply cmp_lt_trans.
Qed.

#[export] Instance partial_ord_laws : PartialOrdLaws LeaderId.
Proof.
  split; unfold partial_cmp, partial_ord, LeaderIdCompare_std.
  - intros [t n] [t' n']; cbn. unfold cmp, N_ord.
    destruct (N.compare_spec t t') as [->|?|?]; [case_decide; naive_solver|..];
      split; try done; intros; simplify_eq; lia.
  - intros [t n] [t' n']; cbn. unfold cmp, N_ord.
    rewrite (N.compare_antisym t t'). destruct (t ?= t')%N; cbn; try done.
    repeat case_decide; naive_solver.
  - intros [t n] [t' n'] [t'' n'']; cbn. unfold cmp, N_ord.
    destruct (N.compare_spec t t'), (N.compare_spec t' t''), (N.compare_spec t t'');
      repeat case_decide; subst; try done; lia.
Qed.

Definition config (Node0 AppData0 SnapshotData0 : Type)
    (H : EqDecision Node0) : RaftTypeConfig := {|
  Vote.LeaderId := LeaderId;
  Vote.CommittedLeaderId := CommittedLeaderId;
  Node := Node0;
  AppData := AppData0;
  SnapshotData := SnapshotData0;
  LeaderId_new := mk;
  LeaderId_term := term;
  LeaderId_node_id := voted_for;
  LeaderId_to_committed := λ l, mkCommitted (term l);
|}.

#[export] Instance config_laws N0 A0 S0 H : RaftLeaderIdLaws (config N0 A0 S0 H).
Proof.
  split; try apply _; try done;
    unfold partial_cmp; cbn; unfold partial_ord, LeaderIdCompare_std, cmp, N_ord.
  - intros a b c. destruct (N.compare_spec (term a) (term b)) as [->| |];
      [|done|done]. case_decide; [done|]. intros _.
    destruct (term b ?= term c)%N; [case_decide|..]; done.
  - intros a b Hlt. by rewrite (proj2 (N.compare_lt_iff _ _) Hlt).
  - intros a b. destruct (N.compare_spec (term a) (term b)); try lia. done.
  - intros a b. unfold ord_lt, cmp, committed_ord, cmp, N_ord; cbn.
    destruct (term a ?= term b)%N; [case_decide|..]; done.
  - intros a b. destruct (N.compare_spec (term a) (term b)) as [->| |]; done.
Qed.
End LeaderIdStd.

(** ** Votes *)

Section vote.
Context {C : RaftTypeConfig}.

(** [RaftLeaderId::new_with_default_term] *)
Definition LeaderId_new_with_default_term (node_id : u64) : LeaderId :=
  LeaderId_new 0 node_id.

Record Vote := mkVote { Vote_leader_id : LeaderId; Vote_committed : bool }.

#[global] Instance Vote_eq_dec : EqDecision Vote.
Proof. solve_decision. Defined.

(** [RefVote::partial_cmp] *)
Definition RefVote_partial_cmp (a : LeaderId) (ac : bool) (b : LeaderId) (bc : bool) :
    option comparison :=
  match partial_cmp a b with
  | Some Eq => Some (cmp ac bc)
  | None =>
      match ac, bc with
      | false, false => None
      | true, false => Some Gt
      | false, true => Some Lt
      | true, true => None
      end
  | c => c
  end.

#[global] Instance Vote_partial_ord : PartialOrd Vote := λ a b,
  RefVote_partial_cmp (Vote_leader_id a) (Vote_committed a)
    (Vote_leader_id b) (Vote_committed b).

Definition Vote_new (term node_id : u64) : Vote := mkVote (LeaderId_new term node_id) false.
Definition Vote_new_committed (term node_id : u64) : Vote :=
  mkVote (LeaderId_new term node_id) true.
Definition Vote_new_with_default_term (node_id : u64) : Vote :=
  mkVote (LeaderId_new_with_default_term node_id) false.
Definition Vote_from_term_node_id (term node_id : u64) : Vote :=
  mkVote (LeaderId_new term node_id) false.

Definition Vote_is_committed (v : Vote) : bool := Vote_committed v.
Definition Vote_term (v : Vote) : u64 := LeaderId_term (Vote_leader_id v).
Definition Vote_leader_node_id (v : Vote) : u64 := LeaderId_node_id (Vote_leader_id v).

(** [CommittedVote] and [UncommittedVote]: a leader id, with [committed]
    fixed to [true] and [false]. *)
Record CommittedVote := CommittedVote_new { CommittedVote_leader_id : LeaderId }.
Record UncommittedVote := UncommittedVote_new { UncommittedVote_leader_id : LeaderId }.

#[global] Instance CommittedVote_eq_dec : EqDecision CommittedVote.
Proof. solve_decision. Defined.
#[global] Instance UncommittedVote_eq_dec : EqDecision UncommittedVote.
Proof. solve_decision. Defined.

(** [CommittedVote::cmp] unwraps the partial comparison: on two incomparable
    leader ids it panics, here [None]. *)
#[global] Instance CommittedVote_partial_ord : PartialOrd CommittedVote := λ a b,
  RefVote_partial_cmp (CommittedVote_leader_id a) true (CommittedVote_leader_id b) true.

Definition CommittedVote_cmp (a b : CommittedVote) : outcome comparison :=
  unwrap (RefVote_partial_cmp (CommittedVote_leader_id a) true
            (CommittedVote_leader_id b) true).

Definition CommittedVote_committed_leader_id (v : CommittedVote) : CommittedLeaderId :=
  LeaderId_to_committed (CommittedVote_leader_id v).
Definition CommittedVote_into_vote (v : CommittedVote) : Vote :=
  mkVote (CommittedVote_leader_id v) true.
Definition UncommittedVote_into_vote (v : UncommittedVote) : Vote :=
  mkVote (UncommittedVote_leader_id v) false.

Definition Vote_to_committed (v : Vote) : CommittedVote := CommittedVote_new (Vote_leader_id v).
Definition Vote_to_non_committed (v : Vote) : UncommittedVote :=
  UncommittedVote_new (Vote_leader_id v).

Inductive VoteStatus :=
| VoteStatus_Committed (v : CommittedVote)
| VoteStatus_Pending (v : UncommittedVote).

Definition Vote_into_vote_status (v : Vote) : VoteStatus :=
  if Vote_is_committed v then VoteStatus_Committed (Vote_to_committed v)
  else VoteStatus_Pending (Vote_to_non_committed v).

Definition Vote_try_to_committed (v : Vote) : option CommittedVote :=
  if Vote_is_committed v then Some (Vote_to_committed v) else None.

Definition Vote_try_to_committed_leader_id (v : Vote) : option CommittedLeaderId :=
  if Vote_is_committed v then Some (LeaderId_to_committed (Vote_leader_id v)) else None.

Definition Vote_is_same_leader (v : Vote) (leader_id : CommittedLeaderId) : bool :=
  bool_decide (LeaderId_to_committed (Vote_leader_id v) = leader_id).

(** ** Theorems *)

Context `{!RaftLeaderIdLaws C}.

Lemma LeaderId_lt_incomparable (a b c : LeaderId) :
  partial_cmp a b = Some Lt → partial_cmp b c = None → partial_cmp a c = Some Lt.
Proof.
  intros Hab Hbc.
  destruct (partial_cmp a c) as [[]|] eqn:Hac.
  - apply pcmp_eq in Hac as ->. rewrite (pcmp_flip c b), Hab in Hbc. done.
  - done.
  - rewrite (pcmp_flip c a) in Hac. destruct (partial_cmp c a) as [[]|] eqn:Hca; try done.
    pose proof (pcmp_lt_trans c a b Hca Hab) as Hcb. rewrite (pcmp_flip c b), Hcb in Hbc. done.
  - assert (partial_cmp c a = None) as Hca by (by rewrite pcmp_flip, Hac).
    pose proof (LeaderId_incomparable_lt c a b Hca Hab) as Hcb.
    rewrite (pcmp_flip c b), Hcb in Hbc. done.
Qed.

#[global] Instance Vote_partial_ord_laws : PartialOrdLaws Vote.
Proof.
  split; unfold partial_cmp, Vote_partial_ord, RefVote_partial_cmp.
  - intros [a ac] [b bc]; cbn.
    destruct (partial_cmp a b) as [[]|] eqn:E.
    + apply pcmp_eq in E as ->. destruct ac, bc; naive_solver.
    + split; [done|]. intros [= -> ->]. by rewrite pcmp_refl in E.
    + split; [done|]. intros [= -> ->]. by rewrite pcmp_refl in E.
    + split; [by destruct ac, bc|]. intros [= -> ->]. by rewrite pcmp_refl in E.
  - intros [a ac] [b bc]; cbn. rewrite (pcmp_flip a b).
    destruct (partial_cmp a b) as [[]|]; cbn; by destruct ac, bc.
  - intros [a ac] [b bc] [c cc]; cbn.
    destruct (partial_cmp a b) as [[]|] eqn:Eab; try done;
    destruct (partial_cmp b c) as [[]|] eqn:Ebc; try done;
      repeat match goal with
      | H : partial_cmp _ _ = Some Eq |- _ => apply pcmp_eq in H; subst
      end.
    + rewrite pcmp_refl. destruct ac, bc, cc; done.
    + by rewrite Ebc.
    + rewrite Ebc. destruct ac, bc, cc; done.
    + by rewrite Eab.
    + by rewrite (pcmp_lt_trans _ _ _ Eab Ebc).
    + by rewrite (LeaderId_lt_incomparable _ _ _ Eab Ebc).
    + rewrite Eab. destruct ac, bc, cc; done.
    + rewrite (LeaderId_incomparable_lt _ _ _ Eab Ebc). done.
    + destruct ac, bc, cc; done.
Qed.

Lemma CommittedVote_pcmp_vote a b :
  partial_cmp a b = partial_cmp (CommittedVote_into_vote a) (CommittedVote_into_vote b).
Proof. done. Qed.

#[global] Instance CommittedVote_partial_ord_laws : PartialOrdLaws CommittedVote.
Proof.
  split; [intros [a] [b]|intros [a] [b]|intros [a] [b] [c]]; rewrite !CommittedVote_pcmp_vote.
  - rewrite pcmp_eq. unfold CommittedVote_into_vote. naive_solver.
  - apply pcmp_flip.
  - apply pcmp_lt_trans.
Qed.

(** A committed vote is greater than any uncommitted vote that is not
    strictly above it, incomparable ones included: a leader that a quorum
    granted wins over a candidate of its term. *)
Lemma committed_vote_dominates (v w : Vote) :
  Vote_committed v = true → Vote_committed w = false →
  partial_cmp (Vote_leader_id v) (Vote_leader_id w) ≠ Some Lt →
  partial_cmp v w = Some Gt.
Proof.
  intros Hv Hw Hn. unfold partial_cmp, Vote_partial_ord, RefVote_partial_cmp.
  rewrite Hv, Hw. destruct (partial_cmp _ _) as [[]|]; done.
Qed.

(** A vote with a greater term is a greater vote, whatever the rest. *)
Lemma Vote_term_lt (v w : Vote) : (Vote_term v < Vote_term w)%N → pltb v w = true.
Proof.
  intros Ht%LeaderId_term_lt. apply pltb_true.
  unfold partial_cmp, Vote_partial_ord, RefVote_partial_cmp. by rewrite Ht.
Qed.

Lemma Vote_lt_term_le (v w : Vote) : pleb v w = true → (Vote_term v ≤ Vote_term w)%N.
Proof.
  intros Hle. destruct (decide (Vote_term v ≤ Vote_term w)%N) as [|Hn]; [done|].
  assert (pltb w v = true) as Hlt by (apply Vote_term_lt; lia).
  pose proof (pltb_pleb_trans _ _ _ Hlt Hle) as Hc. by rewrite pltb_irrefl in Hc.
Qed.
End vote.

(** Two closed configurations, used to evaluate the definitions. *)
Definition adv_config : RaftTypeConfig := LeaderIdAdv.config unit N unit _.
Definition std_config : RaftTypeConfig := LeaderIdStd.config unit N unit _.

#[export] Instance adv_config_laws : RaftLeaderIdLaws adv_config := LeaderIdAdv.config_laws _ _ _ _.
#[export] Instance std_config_laws : RaftLeaderIdLaws std_config := LeaderIdStd.config_laws _ _ _ _.
