(* ===== verification/LogId.v ===== *)
(** * Log ids

    [log_id/*.rs], [log_id_range.rs], [engine/leader_log_ids.rs] and
    [engine/leader_log_ids_iter.rs]: the identity of a log entry, ranges of log
    ids and the range of ids of one leader with its double ended iterator. *)

From S2P Require Import Prelude Vote.

Section log_id.
Context {C : RaftTypeConfig}.

Record LogId := mkLogId { LogId_leader_id : CommittedLeaderId; LogId_index : u64 }.

#[global] Instance LogId_eq_dec : EqDecision LogId.
Proof. solve_decision. Defined.

(** [#[derive(PartialOrd, Ord)]]: the leader id first, then the index. *)
#[global] Instance LogId_ord : Ord LogId := λ a b,
  lex (cmp (LogId_leader_id a) (LogId_leader_id b)) (cmp (LogId_index a) (LogId_index b)).

(** [Option<LogId>::index] *)
Definition opt_index (o : option LogId) : option u64 := LogId_index <$> o.

(** [Option<LogId>::next_index] *)
Definition next_index (o : option LogId) : u64 :=
  match o with
  | None => 0
  | Some log_id => u64_add (LogId_index log_id) 1
  end.

(** [Option<u64>::next_index] and [Option<u64>::prev_index] *)
Definition index_next_index (o : option u64) : u64 :=
  match o with None => 0 | Some v => u64_add v 1 end.

Definition index_prev_index (o : option u64) : option u64 :=
  v ← o; if decide (v = 0)%N then None else Some (u64_sub v 1).

(** ** [LogIdRange]: the log entries in [(prev, last]] *)

Record LogIdRange := mkLogIdRange {
  LogIdRange_prev : option LogId;
  LogIdRange_last : option LogId;
}.

#[global] Instance LogIdRange_eq_dec : EqDecision LogIdRange.
Proof. solve_decision. Defined.

Definition LogIdRange_validate (r : LogIdRange) : bool :=
  LogIdRange_prev r <=? LogIdRange_last r.

Definition LogIdRange_len (r : LogIdRange) : u64 :=
  u64_sub (next_index (LogIdRange_last r)) (next_index (LogIdRange_prev r)).

(** ** [LeaderLogIds]: the log ids [[first, last]] of one leader *)

Record LeaderLogIds := mkLeaderLogIds {
  LeaderLogIds_committed_leader_id : CommittedLeaderId;
  LeaderLogIds_first : u64;
  LeaderLogIds_last : u64;
}.

Definition LeaderLogIds_new_single (l : LogId) : LeaderLogIds :=
  mkLeaderLogIds (LogId_leader_id l) (LogId_index l) (LogId_index l).

Definition LeaderLogIds_first_ref (r : LeaderLogIds) : LogId :=
  mkLogId (LeaderLogIds_committed_leader_id r) (LeaderLogIds_first r).

Definition LeaderLogIds_last_ref (r : LeaderLogIds) : LogId :=
  mkLogId (LeaderLogIds_committed_leader_id r) (LeaderLogIds_last r).

(** The iterator, over the half open range [[start, end)]. *)
Record LeaderLogIdsIter := mkLeaderLogIdsIter {
  Iter_committed_leader_id : CommittedLeaderId;
  Iter_start : u64;
  Iter_end : u64;
}.

Definition LeaderLogIdsIter_len (it : LeaderLogIdsIter) : u64 :=
  if (Iter_start it >=? Iter_end it) then 0%N else u64_sub (Iter_end it) (Iter_start it).

Definition LeaderLogIdsIter_next (it : LeaderLogIdsIter) :
    option (LogId * LeaderLogIdsIter) :=
  if (Iter_start it >=? Iter_end it) then None
  else
    let index := Iter_start it in
    Some (mkLogId (Iter_committed_leader_id it) index,
      mkLeaderLogIdsIter (Iter_committed_leader_id it) (u64_add (Iter_start it) 1)
        (Iter_end it)).

Definition LeaderLogIdsIter_next_back (it : LeaderLogIdsIter) :
    option (LogId * LeaderLogIdsIter) :=
  if (Iter_start it >=? Iter_end it) then None
  else
    let end' := u64_sub (Iter_end it) 1 in
    Some (mkLogId (Iter_committed_leader_id it) end',
      mkLeaderLogIdsIter (Iter_committed_leader_id it) (Iter_start it) end').

(** [IntoIterator for LeaderLogIds] *)
Definition LeaderLogIds_into_iter (r : LeaderLogIds) : LeaderLogIdsIter :=
  mkLeaderLogIdsIter (LeaderLogIds_committed_leader_id r) (LeaderLogIds_first r)
    (u64_add (LeaderLogIds_last r) 1).

(** [collect]: the ids yielded by [next] until it returns [None]; the fuel is
    the length of the range. *)
Fixpoint LeaderLogIdsIter_collect (fuel : nat) (it : LeaderLogIdsIter) : list LogId :=
  match fuel with
  | O => []
  | S fuel =>
      match LeaderLogIdsIter_next it with
      | None => []
      | Some (x, it') => x :: LeaderLogIdsIter_collect fuel it'
      end
  end.

(** ** Lemmas *)

Context `{!RaftLeaderIdLaws C}.

#[global] Instance LogId_ord_laws : OrdLaws LogId.
Proof.
  split; unfold cmp, LogId_ord, lex.
  - intros [a i] [b j]; cbn. destruct (cmp a b) eqn:E.
    + apply cmp_eq in E as ->. rewrite cmp_eq. naive_solver.
    + split; [done|]. intros [= -> ->]. by rewrite cmp_refl in E.
    + split; [done|]. intros [= -> ->]. by rewrite cmp_refl in E.
  - intros [a i] [b j]; cbn. rewrite (cmp_flip a b). destruct (cmp a b); cbn; try done.
    apply cmp_flip.
  - intros [a i] [b j] [c k]; cbn.
    destruct (cmp a b) eqn:E1, (cmp b c) eqn:E2; try done;
      repeat match goal with H : cmp _ _ = Eq |- _ => apply cmp_eq in H; subst end.
    + rewrite cmp_refl. apply cmp_lt_trans.
    + by rewrite E2.
    + by rewrite E1.
    + by rewrite (cmp_lt_trans _ _ _ E1 E2).
Qed.

Lemma LogId_lt_alt (a b : LogId) :
  a ≺ b ↔ LogId_leader_id a ≺ LogId_leader_id b ∨
    LogId_leader_id a = LogId_leader_id b ∧ (LogId_index a < LogId_index b)%N.
Proof.
  rewrite <- N_ord_lt. unfold ord_lt, cmp at 1, LogId_ord, lex.
  destruct (cmp (LogId_leader_id a) (LogId_leader_id b)) eqn:E.
  - apply cmp_eq in E. split; [auto|]. by intros [?|[_ ?]].
  - naive_solver.
  - split; [done|]. intros [?|[Heq _]]; [done|]. rewrite Heq, cmp_refl in E. done.
Qed.

Lemma LogId_le_leader (a b : LogId) : a ≼ b → LogId_leader_id a ≼ LogId_leader_id b.
Proof. rewrite !ord_le_alt, LogId_lt_alt. naive_solver. Qed.

Lemma LogId_lt_leader (a b : LogId) : LogId_leader_id a ≺ LogId_leader_id b → a ≺ b.
Proof. rewrite LogId_lt_alt. auto. Qed.

Lemma next_index_some (l : LogId) :
  (LogId_index l + 1 < u64_modulus)%N → next_index (Some l) = (LogId_index l + 1)%N.
Proof. apply u64_add_small. Qed.

(** [next] walks the range upwards and [next_back] downwards: the ids of the
    range [[first, last]], none twice, none left out. *)
Definition LeaderLogIds_ids (r : LeaderLogIds) : list LogId :=
  (λ i : nat, mkLogId (LeaderLogIds_committed_leader_id r) (LeaderLogIds_first r + N.of_nat i)%N)
    <$> seq 0 (N.to_nat (LeaderLogIds_last r + 1 - LeaderLogIds_first r)).

Lemma Iter_ge_false (a b : u64) : (a < b)%N → (a >=? b) = false.
Proof. intros. apply leb_false, N_ord_lt. done. Qed.

Lemma Iter_ge_true (a b : u64) : (b ≤ a)%N → (a >=? b) = true.
Proof. intros. apply leb_true, N_ord_le. done. Qed.

Lemma LeaderLogIdsIter_collect_spec cl s e fuel :
  in_u64 e → N.to_nat (e - s) ≤ fuel →
  LeaderLogIdsIter_collect fuel (mkLeaderLogIdsIter cl s e) =
    (λ i : nat, mkLogId cl (s + N.of_nat i)%N) <$> seq 0 (N.to_nat (e - s)).
Proof.
  intros He. revert s. induction fuel as [|fuel IH]; intros s Hf; cbn.
  { by replace (N.to_nat (e - s)) with 0 by lia. }
  unfold LeaderLogIdsIter_next; cbn. destruct (decide (s < e)%N).
  - rewrite Iter_ge_false by done. u64_simpl.
    replace (N.to_nat (e - s)) with (S (N.to_nat (e - (s + 1)))) by lia.
    cbn. f_equal; [f_equal; lia|]. rewrite IH by lia.
    rewrite <- fmap_S_seq, <- list_fmap_compose. apply list_fmap_ext.
    intros i x Hx; cbn. f_equal. lia.
  - rewrite Iter_ge_true by lia. by replace (N.to_nat (e - s)) with 0 by lia.
Qed.

Lemma LeaderLogIds_iter_collect r :
  (LeaderLogIds_last r + 1 < u64_modulus)%N →
  LeaderLogIdsIter_collect
    (N.to_nat (LeaderLogIdsIter_len (LeaderLogIds_into_iter r))) (LeaderLogIds_into_iter r)
  = LeaderLogIds_ids r.
Proof.
  intros Hr. unfold LeaderLogIds_into_iter, LeaderLogIds_ids, LeaderLogIdsIter_len; cbn.
  rewrite u64_add_small by done.
  rewrite LeaderLogIdsIter_collect_spec; [done|done|].
  destruct (decide (LeaderLogIds_first r < LeaderLogIds_last r + 1)%N).
  - rewrite Iter_ge_false by done. u64_simpl. lia.
  - rewrite Iter_ge_true by lia. lia.
Qed.

Lemma LeaderLogIdsIter_next_back_spec it :
  in_u64 (Iter_end it) → (Iter_start it < Iter_end it)%N →
  LeaderLogIdsIter_next_back it =
    Some (mkLogId (Iter_committed_leader_id it) (Iter_end it - 1)%N,
      mkLeaderLogIdsIter (Iter_committed_leader_id it) (Iter_start it) (Iter_end it - 1)%N).
Proof.
  intros He Hlt. unfold LeaderLogIdsIter_next_back. rewrite Iter_ge_false by done.
  rewrite u64_sub_small; [done|lia|done].
Qed.
End log_id.

#[export] Hint Rewrite @N_ord_le @N_ord_lt : raft_u64.
