(* ===== verification/LogIdList.v ===== *)
(** * [LogIdList]: the compressed log id index

    [engine/log_id_list.rs].  The engine keeps, for each leader, the last log
    id it proposed, instead of one id per entry.  The abstraction function
    [LogIdList_ids] expands the list to the ids of all entries; every operation
    is shown to act on the expansion as the obvious list operation. *)

From S2P Require Import Prelude Vote LogId.

Section log_id_list.
Context {C : RaftTypeConfig}.

Record LogIdList := mkLogIdList {
  LogIdList_purged : option LogId;
  LogIdList_key_log_ids : list LogId;
}.

Definition LogIdList_default : LogIdList := mkLogIdList None [].

Definition LogIdList_new (purged : option LogId) (key_log_ids : list LogId) : LogIdList :=
  mkLogIdList purged key_log_ids.

(** [push_key_log_id]: replaces the last element if it has the same leader. *)
Definition push_key_log_id (res : list LogId) (log_id : LogId) : list LogId :=
  match last res with
  | Some last_ent =>
      if decide (LogId_leader_id last_ent = LogId_leader_id log_id)
      then take (length res - 1) res ++ [log_id]
      else res ++ [log_id]
  | None => res ++ [log_id]
  end.

(** One iteration of the loop of [get_key_log_ids]; the storage reader [sto]
    is the user's.  The head of [stack] is the top of the [Vec]. *)
Inductive step_result (A B : Type) : Type :=
| Continue (a : A)
| Break (b : B).
Arguments Continue {A B} a.
Arguments Break {A B} b.

Definition get_key_log_ids_step {E : Type} (sto : u64 → result LogId E)
    (stack : list (LogId * LogId)) (res : list LogId) :
    step_result (list (LogId * LogId) * list LogId) (result (list LogId) E) :=
  match stack with
  | [] => Break (Ok res)
  | (first, last) :: stack =>
      if decide (LogId_leader_id first = LogId_leader_id last) then
        Continue (stack, push_key_log_id res last)
      else if decide (u64_add (LogId_index first) 1 = LogId_index last) then
        Continue (stack, push_key_log_id (push_key_log_id res first) last)
      else
        let mid_index := (u64_add (LogId_index first) (LogId_index last) / 2)%N in
        match sto mid_index with
        | Err e => Break (Err e)
        | Ok mid =>
            if decide (LogId_leader_id first = LogId_leader_id mid) then
              Continue ((mid, last) :: stack, res)
            else
              Continue ((first, mid) :: (mid, last) :: stack, res)
        end
  end.

Fixpoint get_key_log_ids_loop {E : Type} (fuel : nat) (sto : u64 → result LogId E)
    (stack : list (LogId * LogId)) (res : list LogId) : option (result (list LogId) E) :=
  match fuel with
  | O => None
  | S fuel =>
      match get_key_log_ids_step sto stack res with
      | Break r => Some r
      | Continue (stack', res') => get_key_log_ids_loop fuel sto stack' res'
      end
  end.

(** [LogIdList::get_key_log_ids] on the inclusive range [[first, last]]. *)
Definition get_key_log_ids {E : Type} (fuel : nat) (sto : u64 → result LogId E)
    (first last : LogId) : option (result (list LogId) E) :=
  get_key_log_ids_loop fuel sto [(first, last)] [].

(** [StorageHelper::get_key_log_ids] *)
Definition StorageHelper_get_key_log_ids {E : Type} (fuel : nat) (sto : u64 → result LogId E)
    (purged last : option LogId) : option (result LogIdList E) :=
  match last with
  | None => Some (Ok (LogIdList_new purged []))
  | Some last =>
      if decide (opt_index purged = Some (LogId_index last)) then
        Some (Ok (LogIdList_new (Some last) []))
      else
        match sto (next_index purged) with
        | Err e => Some (Err e)
        | Ok first =>
            match get_key_log_ids fuel sto first last with
            | Some (Ok log_ids) => Some (Ok (LogIdList_new purged log_ids))
            | Some (Err e) => Some (Err e)
            | None => None
            end
        end
  end.

Definition LogIdList_first_index (l : LogIdList) : u64 := next_index (LogIdList_purged l).

Definition LogIdList_last (l : LogIdList) : option LogId :=
  match last (LogIdList_key_log_ids l) with
  | Some k => Some k
  | None => LogIdList_purged l
  end.

Definition LogIdList_append (l : LogIdList) (new_log_id : LogId) : LogIdList :=
  mkLogIdList (LogIdList_purged l) (push_key_log_id (LogIdList_key_log_ids l) new_log_id).

(** [extend_from_same_leader]: only the first id ([next]) and the last
    ([next_back]) are appended. *)
Definition LogIdList_extend_from_same_leader (l : LogIdList) (new_ids : list LogId) : LogIdList :=
  match new_ids with
  | [] => l
  | first :: it =>
      let l := LogIdList_append l first in
      match last it with
      | Some last => if decide (last ≠ first) then LogIdList_append l last else l
      | None => l
      end
  end.

Definition LogIdList_extend (l : LogIdList) (new_ids : list LogId) : LogIdList :=
  foldl LogIdList_append l new_ids.

(** The first index covered by the entry at position [i] of the key log ids.
    The last branch is an index out of bounds; [binary_search_bound] shows
    that the callers never reach it. *)
Definition LogIdList_range_start (l : LogIdList) (i : nat) : u64 :=
  match i with
  | O => LogIdList_first_index l
  | S j =>
      match LogIdList_key_log_ids l !! j with
      | Some k => u64_add (LogId_index k) 1
      | None => 0
      end
  end.

Definition search_index (index : u64) (k : LogId) : comparison := cmp (LogId_index k) index.

Definition LogIdList_truncate_keys (l : LogIdList) (at' : u64) (i : nat) : LogIdList :=
  let end_after_truncate := LogIdList_range_start l i in
  if (at' >? end_after_truncate) then
    match LogIdList_key_log_ids l !! i with
    | Some k =>
        mkLogIdList (LogIdList_purged l)
          (take i (LogIdList_key_log_ids l) ++ [mkLogId (LogId_leader_id k) (u64_sub at' 1)])
    | None => l
    end
  else mkLogIdList (LogIdList_purged l) (take i (LogIdList_key_log_ids l)).

Definition LogIdList_truncate (l : LogIdList) (at' : u64) : LogIdList :=
  if decide (at' = 0%N) then mkLogIdList (LogIdList_purged l) []
  else
    match binary_search_by (search_index at') (LogIdList_key_log_ids l) with
    | Ok i => LogIdList_truncate_keys l at' i
    | Err i =>
        if decide (i = length (LogIdList_key_log_ids l)) then l
        else LogIdList_truncate_keys l at' i
    end.

Definition LogIdList_purge (l : LogIdList) (upto : LogId) : LogIdList :=
  let upto_index := LogId_index upto in
  if (upto_index >=? next_index (LogIdList_last l)) then mkLogIdList (Some upto) []
  else if (upto_index <? LogIdList_first_index l) then l
  else
    match binary_search_by (search_index upto_index) (LogIdList_key_log_ids l) with
    | Ok i => mkLogIdList (Some upto) (drop (i + 1) (LogIdList_key_log_ids l))
    | Err i => mkLogIdList (Some upto) (drop i (LogIdList_key_log_ids l))
    end.

Definition LogIdList_ref_at_key (l : LogIdList) (index : u64) (i : nat) : option LogId :=
  if (index <? LogIdList_range_start l i) then None
  else k ← LogIdList_key_log_ids l !! i; Some (mkLogId (LogId_leader_id k) index).

(** [get], [ref_at].  [unwrap] on the purged id is reached only below
    [first_index], where it is present. *)
Definition LogIdList_get (l : LogIdList) (index : u64) : option LogId :=
  if (index <? LogIdList_first_index l) then
    purged ← LogIdList_purged l;
    if decide (index = LogId_index purged) then Some purged else None
  else
    match binary_search_by (search_index index) (LogIdList_key_log_ids l) with
    | Ok i => LogIdList_ref_at_key l index i
    | Err i =>
        if decide (length (LogIdList_key_log_ids l) ≤ i) then None
        else LogIdList_ref_at_key l index i
    end.

Definition LogIdList_first (l : LogIdList) : option LogId :=
  first_key ← head (LogIdList_key_log_ids l);
  Some (mkLogId (LogId_leader_id first_key) (LogIdList_first_index l)).

Definition LogIdList_by_last_leader (l : LogIdList) : option LeaderLogIds :=
  last ← LogIdList_last l;
  let n := length (LogIdList_key_log_ids l) in
  let first_index :=
    if decide (n = 0) then LogId_index last
    else if decide (n = 1) then LogIdList_first_index l
    else match LogIdList_key_log_ids l !! (n - 2) with
         | Some k => u64_add (LogId_index k) 1
         | None => 0%N
         end in
  Some (mkLeaderLogIds (LogId_leader_id last) first_index (LogId_index last)).

(** ** The abstraction *)

(** The ids [start .. k.index] of the leader of [k]. *)
Definition ids_upto (start : u64) (k : LogId) : list LogId :=
  LeaderLogIds_ids (mkLeaderLogIds (LogId_leader_id k) start (LogId_index k)).

Fixpoint expand_keys (start : u64) (ks : list LogId) : list LogId :=
  match ks with
  | [] => []
  | k :: ks => ids_upto start k ++ expand_keys (LogId_index k + 1)%N ks
  end.

(** The ids of the entries after the purged one. *)
Definition LogIdList_ids (l : LogIdList) : list LogId :=
  expand_keys (LogIdList_first_index l) (LogIdList_key_log_ids l).

(** The index after the last key. *)
Definition keys_end (start : u64) (ks : list LogId) : u64 :=
  match last ks with Some k => (LogId_index k + 1)%N | None => start end.

Fixpoint keys_wf (start : u64) (ks : list LogId) : Prop :=
  match ks with
  | [] => True
  | k :: ks =>
      (start ≤ LogId_index k)%N ∧ (LogId_index k + 1 < u64_modulus)%N ∧
      keys_wf (LogId_index k + 1)%N ks
  end.

Definition leader_lt (a b : LogId) : Prop := LogId_leader_id a ≺ LogId_leader_id b.

(** Indexes grow, leaders grow strictly, no index is the largest [u64], and
    the purged entry comes before. *)
Definition LogIdList_wf (l : LogIdList) : Prop :=
  match LogIdList_purged l with
  | Some p => (LogId_index p + 1 < u64_modulus)%N ∧
      ∀ k, k ∈ LogIdList_key_log_ids l → LogId_leader_id p ≼ LogId_leader_id k
  | None => True
  end ∧
  keys_wf (LogIdList_first_index l) (LogIdList_key_log_ids l) ∧
  StronglySorted leader_lt (LogIdList_key_log_ids l).


(** ** Lemmas on expanded keys *)

Lemma ids_upto_length start k :
  length (ids_upto start k) = N.to_nat (LogId_index k + 1 - start).
Proof. unfold ids_upto, LeaderLogIds_ids. by rewrite length_fmap, length_seq. Qed.

Lemma ids_upto_lookup start k i :
  (start + N.of_nat i ≤ LogId_index k)%N →
  ids_upto start k !! i = Some (mkLogId (LogId_leader_id k) (start + N.of_nat i)%N).
Proof.
  intros Hi. unfold ids_upto, LeaderLogIds_ids. rewrite list_lookup_fmap.
  rewrite lookup_seq_lt by (cbn; lia). done.
Qed.

Lemma elem_of_ids_upto start k x :
  x ∈ ids_upto start k ↔
  LogId_leader_id x = LogId_leader_id k ∧ (start ≤ LogId_index x ≤ LogId_index k)%N.
Proof.
  unfold ids_upto, LeaderLogIds_ids. rewrite list_elem_of_fmap. cbn. split.
  - intros (i & -> & Hi%elem_of_seq). cbn. split; [done|lia].
  - destruct x as [c j]; cbn. intros [-> ?]. exists (N.to_nat (j - start)).
    rewrite elem_of_seq. split; [f_equal; lia|lia].
Qed.

Lemma ids_upto_take start k n :
  (start + n ≤ LogId_index k)%N →
  take (N.to_nat n) (ids_upto start k) = ids_upto start (mkLogId (LogId_leader_id k) (start + n - 1)%N)
  ∨ n = 0%N.
Proof.
  intros Hn. destruct (decide (n = 0%N)); [by right|left].
  unfold ids_upto, LeaderLogIds_ids; cbn. rewrite <- fmap_take, take_seq.
  do 2 f_equal. lia.
Qed.

Lemma keys_end_snoc start ks k : keys_end start (ks ++ [k]) = (LogId_index k + 1)%N.
Proof. unfold keys_end. by rewrite last_snoc. Qed.

Lemma keys_end_cons start k ks : keys_end start (k :: ks) = keys_end (LogId_index k + 1)%N ks.
Proof. unfold keys_end. rewrite last_cons. by destruct (last ks). Qed.

Lemma expand_keys_app start a b :
  expand_keys start (a ++ b) = expand_keys start a ++ expand_keys (keys_end start a) b.
Proof.
  revert start; induction a as [|k a IH]; intros start; cbn; [done|].
  by rewrite IH, keys_end_cons, (assoc (++)).
Qed.

Lemma keys_wf_app start a b :
  keys_wf start (a ++ b) ↔ keys_wf start a ∧ keys_wf (keys_end start a) b.
Proof.
  revert start; induction a as [|k a IH]; intros start; cbn; [naive_solver|].
  rewrite IH, keys_end_cons. naive_solver.
Qed.

Lemma keys_wf_end start ks : keys_wf start ks → (start ≤ keys_end start ks)%N.
Proof.
  revert start; induction ks as [|k ks IH]; intros start; cbn; [done|].
  intros (?&?&Hw). rewrite keys_end_cons. apply IH in Hw. lia.
Qed.

Lemma expand_keys_length start ks :
  keys_wf start ks → length (expand_keys start ks) = N.to_nat (keys_end start ks - start).
Proof.
  revert start; induction ks as [|k ks IH]; intros start; cbn.
  { unfold keys_end; cbn. lia. }
  intros (?&?&Hw). rewrite length_app, ids_upto_length, (IH _ Hw), keys_end_cons.
  apply keys_wf_end in Hw. lia.
Qed.

Lemma keys_wf_lookup start ks i k :
  keys_wf start ks → ks !! i = Some k →
  (start ≤ LogId_index k)%N ∧ (LogId_index k + 1 < u64_modulus)%N ∧
  (keys_end start (take i ks) ≤ LogId_index k)%N.
Proof.
  intros Hw Hk. rewrite <- (take_drop_middle ks i k Hk) in Hw.
  apply keys_wf_app in Hw as [Hw1 (?&?&_)]. apply keys_wf_end in Hw1. lia.
Qed.

Lemma keys_wf_sorted start ks :
  keys_wf start ks → StronglySorted (λ a b, (LogId_index a < LogId_index b)%N) ks.
Proof.
  revert start; induction ks as [|k ks IH]; intros start; cbn; [constructor|].
  intros (?&?&Hw). constructor; [eauto|]. apply Forall_lookup. intros i x Hx.
  destruct (keys_wf_lookup _ _ _ _ Hw Hx). lia.
Qed.

(** ** The binary search on the key log ids *)

Definition found (r : result nat nat) : nat := match r with Ok i | Err i => i end.

Lemma search_pos start ks idx :
  keys_wf start ks →
  let r := binary_search_by (search_index idx) ks in
  found r ≤ length ks ∧
  (∀ j k, ks !! j = Some k → j < found r → (LogId_index k < idx)%N) ∧
  (∀ j k, ks !! j = Some k → found r ≤ j → (idx ≤ LogId_index k)%N) ∧
  (∀ i, r = Ok i → ∃ k, ks !! i = Some k ∧ LogId_index k = idx).
Proof.
  intros Hw. pose proof (keys_wf_sorted _ _ Hw) as Hs.
  assert (∀ i j a b, ks !! i = Some a → ks !! j = Some b → i < j →
    (LogId_index a < LogId_index b)%N) as Hlt.
  { intros. by eapply (StronglySorted_lookup _ _ i j) in Hs. }
  pose proof (binary_search_by_spec (search_index idx) ks) as Hspec. cbn zeta.
  destruct (binary_search_by (search_index idx) ks) as [i|i]; cbn.
  - destruct Hspec as (a & Ha & Heq).
    { intros i' j a b Hi Hj Hij. unfold search_index, cmp, N_ord.
      destruct (decide (i' = j)) as [->|]; [naive_solver|].
      pose proof (Hlt i' j a b Hi Hj ltac:(lia)).
      rewrite !N.compare_gt_iff, !N.compare_lt_iff. lia. }
    apply N.compare_eq_iff in Heq. split_and!.
    + apply lookup_lt_Some in Ha. lia.
    + intros j k Hj Hji. rewrite <- Heq. eauto.
    + intros j k Hj Hji. destruct (decide (i = j)) as [->|]; [simplify_eq; lia|].
      pose proof (Hlt i j a k Ha Hj ltac:(lia)). lia.
    + intros ? [= <-]. eauto.
  - destruct Hspec as (Hi & Ha).
    { intros i' j a b Hi Hj Hij. unfold search_index, cmp, N_ord.
      destruct (decide (i' = j)) as [->|]; [naive_solver|].
      pose proof (Hlt i' j a b Hi Hj ltac:(lia)).
      rewrite !N.compare_gt_iff, !N.compare_lt_iff. lia. }
    split_and!; [done|..|done].
    + intros j k Hj Hji. by apply N.compare_lt_iff, (Ha j k Hj).
    + intros j k Hj Hji. apply N.lt_le_incl, N.compare_gt_iff. by apply (Ha j k Hj).
Qed.

(** The position found by the search splits the keys: those before end at or
    below the index, those from the position on are not below it. *)
Lemma search_keys_end start ks idx :
  keys_wf start ks → (start ≤ idx)%N →
  (keys_end start (take (found (binary_search_by (search_index idx) ks)) ks) ≤ idx)%N.
Proof.
  intros Hw Hle. destruct (search_pos start ks idx Hw) as (Hlen & Hlo & _).
  set (i := found _) in *. unfold keys_end. destruct (last (take i ks)) as [k|] eqn:Hl; [|done].
  rewrite last_lookup in Hl. apply lookup_take_Some in Hl as [Hl Hlt].
  apply Hlo in Hl; [lia|done].
Qed.

Context `{!RaftLeaderIdLaws C}.

Lemma range_start_keys_end l i :
  keys_wf (LogIdList_first_index l) (LogIdList_key_log_ids l) →
  i ≤ length (LogIdList_key_log_ids l) →
  LogIdList_range_start l i = keys_end (LogIdList_first_index l) (take i (LogIdList_key_log_ids l)).
Proof.
  intros Hw Hi. destruct i as [|j]; cbn; [done|].
  destruct (lookup_lt_is_Some_2 (LogIdList_key_log_ids l) j) as [k Hk]; [lia|].
  rewrite Hk, (take_S_r _ _ _ Hk), keys_end_snoc.
  apply u64_add_small. by destruct (keys_wf_lookup _ _ _ _ Hw Hk) as (_&?&_).
Qed.

Lemma LogIdList_last_next_index l :
  LogIdList_wf l →
  next_index (LogIdList_last l) = keys_end (LogIdList_first_index l) (LogIdList_key_log_ids l).
Proof.
  intros (_ & Hw & _). unfold LogIdList_last, keys_end.
  destruct (last (LogIdList_key_log_ids l)) as [k|] eqn:Hk; [|done].
  rewrite last_lookup in Hk. apply next_index_some.
  by destruct (keys_wf_lookup _ _ _ _ Hw Hk) as (_&?&_).
Qed.

Lemma LogIdList_ids_length l :
  LogIdList_wf l →
  length (LogIdList_ids l) = N.to_nat (next_index (LogIdList_last l) - LogIdList_first_index l).
Proof.
  intros Hl. rewrite (LogIdList_last_next_index l Hl). destruct Hl as (_ & Hw & _).
  by apply expand_keys_length.
Qed.

Lemma LogIdList_first_le_last l :
  LogIdList_wf l → (LogIdList_first_index l ≤ next_index (LogIdList_last l))%N.
Proof.
  intros Hl. rewrite (LogIdList_last_next_index l Hl). destruct Hl as (_ & Hw & _).
  by apply keys_wf_end.
Qed.

Lemma first_index_purged l :
  LogIdList_wf l →
  LogIdList_first_index l =
    match LogIdList_purged l with Some p => (LogId_index p + 1)%N | None => 0%N end.
Proof.
  intros (Hp & _). unfold LogIdList_first_index. destruct (LogIdList_purged l); cbn; [|done].
  apply u64_add_small. tauto.
Qed.

(** ** Operations on the expansion *)

Lemma expand_keys_lookup start ks i k idx :
  keys_wf start ks → ks !! i = Some k →
  (keys_end start (take i ks) ≤ idx ≤ LogId_index k)%N →
  expand_keys start ks !! N.to_nat (idx - start) = Some (mkLogId (LogId_leader_id k) idx).
Proof.
  intros Hw Hk Hidx. rewrite <- (take_drop_middle ks i k Hk) in Hw |- *.
  apply keys_wf_app in Hw as [Hw1 (?&?&_)].
  pose proof (keys_wf_end _ _ Hw1) as Hend. rewrite expand_keys_app. cbn.
  rewrite lookup_app_r by (rewrite expand_keys_length by done; lia).
  rewrite expand_keys_length by done. rewrite lookup_app_l by (rewrite ids_upto_length; lia).
  rewrite ids_upto_lookup by lia. do 2 f_equal. lia.
Qed.

(** [get] is the lookup in the expansion; at the purged index it is the
    purged id, and [None] below. *)
Lemma LogIdList_get_spec l idx :
  LogIdList_wf l →
  LogIdList_get l idx =
    if (idx <? LogIdList_first_index l) then
      p ← LogIdList_purged l; if decide (idx = LogId_index p) then Some p else None
    else LogIdList_ids l !! N.to_nat (idx - LogIdList_first_index l).
Proof.
  intros (_ & Hw & _). unfold LogIdList_get.
  destruct (ltb_spec idx (LogIdList_first_index l)) as [|Hge]; [done|].
  rewrite N_ord_le in Hge.
  set (ks := LogIdList_key_log_ids l) in *.
  destruct (search_pos _ ks idx Hw) as (Hlen & _ & Hhi & Hok).
  pose proof (search_keys_end _ ks idx Hw Hge) as Hend.
  assert (∀ i k, i = found (binary_search_by (search_index idx) ks) → ks !! i = Some k →
    LogIdList_ref_at_key l idx i = LogIdList_ids l !! N.to_nat (idx - LogIdList_first_index l))
    as Hkey.
  { intros i k -> Hk. unfold LogIdList_ref_at_key.
    rewrite range_start_keys_end by done. fold ks.
    destruct (ltb_spec idx (keys_end (LogIdList_first_index l)
      (take (found (binary_search_by (search_index idx) ks)) ks))) as [Hc|_].
    { rewrite N_ord_lt in Hc. lia. }
    rewrite Hk. cbn. symmetry. eapply expand_keys_lookup; [done..|].
    split; [done|]. by eapply Hhi. }
  destruct (binary_search_by (search_index idx) ks) as [i|i]; cbn in *.
  - destruct (Hok i eq_refl) as (k & Hk & _). eauto.
  - case_decide.
    + symmetry. apply lookup_ge_None. unfold LogIdList_ids.
      rewrite expand_keys_length by done. rewrite take_ge in Hend by done. fold ks. lia.
    + destruct (lookup_lt_is_Some_2 ks i) as [k Hk]; [lia|]. eauto.
Qed.

Lemma push_key_log_id_snoc res k x :
  push_key_log_id (res ++ [k]) x =
    if decide (LogId_leader_id k = LogId_leader_id x) then res ++ [x] else (res ++ [k]) ++ [x].
Proof.
  unfold push_key_log_id. rewrite last_snoc. case_decide; [|done].
  rewrite length_app; cbn. by rewrite Nat.add_sub, take_app_length.
Qed.

Lemma ids_upto_app start c a b :
  (start ≤ a + 1)%N → (a ≤ b)%N →
  ids_upto start (mkLogId c a) ++ ids_upto (a + 1)%N (mkLogId c b) = ids_upto start (mkLogId c b).
Proof.
  intros Ha Hb. apply list_eq. intros i.
  destruct (decide (start + N.of_nat i ≤ b)%N) as [Hi|Hi].
  - rewrite (ids_upto_lookup start (mkLogId c b)) by (cbn; lia).
    destruct (decide (start + N.of_nat i ≤ a)%N).
    + rewrite lookup_app_l by (rewrite ids_upto_length; cbn; lia).
      by rewrite ids_upto_lookup by (cbn; lia).
    + rewrite lookup_app_r by (rewrite ids_upto_length; cbn; lia).
      rewrite ids_upto_length; cbn. rewrite ids_upto_lookup by (cbn; lia).
      cbn. do 2 f_equal. lia.
  - rewrite !lookup_ge_None_2; [done|rewrite ids_upto_length; cbn; lia|].
    rewrite length_app, !ids_upto_length; cbn; lia.
Qed.

Lemma push_key_expand start ks x :
  keys_wf start ks → (keys_end start ks ≤ LogId_index x)%N →
  expand_keys start (push_key_log_id ks x) =
    expand_keys start ks ++ ids_upto (keys_end start ks) x.
Proof.
  intros Hw Hx. destruct ks as [|k ks _] using rev_ind; [cbn; by rewrite app_nil_r|].
  rewrite push_key_log_id_snoc. rewrite keys_end_snoc in *.
  apply keys_wf_app in Hw as [Hw (?&?&_)]. case_decide as Heq.
  - rewrite !expand_keys_app. cbn. rewrite !app_nil_r, <- (assoc (++)). f_equal.
    destruct k as [c a], x as [c' b]; cbn in *; subst. by rewrite ids_upto_app by lia.
  - rewrite expand_keys_app, keys_end_snoc. cbn. by rewrite app_nil_r.
Qed.

Lemma push_key_wf start ks x :
  keys_wf start ks → (keys_end start ks ≤ LogId_index x)%N →
  (LogId_index x + 1 < u64_modulus)%N → keys_wf start (push_key_log_id ks x).
Proof.
  intros Hw Hx Hb. destruct ks as [|k ks _] using rev_ind; [done|].
  rewrite push_key_log_id_snoc. rewrite keys_end_snoc in *.
  pose proof Hw as Hw'. apply keys_wf_app in Hw' as [Hw' (?&?&_)].
  case_decide; apply keys_wf_app; rewrite ?keys_end_snoc; cbn; split_and!; try done; lia.
Qed.

Lemma push_key_sorted ks x :
  StronglySorted leader_lt ks → (∀ k, last ks = Some k → LogId_leader_id k ≼ LogId_leader_id x) →
  StronglySorted leader_lt (push_key_log_id ks x).
Proof.
  intros Hs Hx. destruct ks as [|k ks _] using rev_ind; [repeat constructor|].
  rewrite push_key_log_id_snoc. specialize (Hx k (last_snoc _ _)).
  apply StronglySorted_app in Hs as (Hks & Hs & Hk). case_decide as Heq.
  - apply StronglySorted_app. split_and!; [|done|repeat constructor].
    intros a b Ha ->%list_elem_of_singleton. unfold leader_lt. rewrite <- Heq.
    apply Hks; set_solver.
  - assert (leader_lt k x) as Hlt.
    { apply ord_le_alt in Hx as [?|?]; done. }
    apply StronglySorted_app. split_and!; [|by apply StronglySorted_app|repeat constructor].
    intros a b Ha ->%list_elem_of_singleton.
    apply elem_of_app in Ha as [Ha| ->%list_elem_of_singleton]; [|done].
    unfold leader_lt in *. eapply ord_lt_trans; [|done]. apply Hks; set_solver.
Qed.

Lemma push_key_elem_of ks x k : k ∈ push_key_log_id ks x → k ∈ ks ∨ k = x.
Proof.
  destruct ks as [|k' ks _] using rev_ind; [cbn; set_solver|].
  rewrite push_key_log_id_snoc. case_decide; set_solver.
Qed.

(** [append] adds the ids up to the new one, all of the new leader. *)
Lemma LogIdList_append_ids l x :
  LogIdList_wf l → (next_index (LogIdList_last l) ≤ LogId_index x)%N →
  LogIdList_ids (LogIdList_append l x) =
    LogIdList_ids l ++ ids_upto (next_index (LogIdList_last l)) x.
Proof.
  intros Hl. rewrite (LogIdList_last_next_index l Hl). destruct Hl as (_ & Hw & _).
  by apply push_key_expand.
Qed.

Lemma LogIdList_append_wf l x :
  LogIdList_wf l → (next_index (LogIdList_last l) ≤ LogId_index x)%N →
  (LogId_index x + 1 < u64_modulus)%N →
  (∀ p, LogIdList_last l = Some p → LogId_leader_id p ≼ LogId_leader_id x) →
  LogIdList_wf (LogIdList_append l x).
Proof.
  intros Hl. rewrite (LogIdList_last_next_index l Hl). destruct Hl as (Hp & Hw & Hs).
  intros Hx Hb Hlead. unfold LogIdList_wf, LogIdList_append; cbn. split_and!.
  - destruct (LogIdList_purged l) as [p|] eqn:Ep; [|done]. destruct Hp as [? Hp]. split; [done|].
    intros k [?|Heq]%push_key_elem_of; [by apply Hp|subst k].
    destruct (last (LogIdList_key_log_ids l)) as [k|] eqn:Ek.
    + eapply ord_le_trans; [apply (Hp k)|].
      * apply last_Some_elem_of in Ek. done.
      * apply Hlead. unfold LogIdList_last. by rewrite Ek.
    + apply Hlead. unfold LogIdList_last. by rewrite Ek.
  - by apply push_key_wf.
  - apply push_key_sorted; [done|]. intros k Hk. apply Hlead.
    unfold LogIdList_last. by rewrite Hk.
Qed.

Lemma LogIdList_append_last l x : LogIdList_last (LogIdList_append l x) = Some x.
Proof.
  unfold LogIdList_last, LogIdList_append; cbn.
  destruct (LogIdList_key_log_ids l) as [|k ks _] using rev_ind; [done|].
  rewrite push_key_log_id_snoc. case_decide; by rewrite last_snoc.
Qed.

(** A run of consecutive ids after [prev], leaders not decreasing. *)
Fixpoint follows (prev : option LogId) (xs : list LogId) : Prop :=
  match xs with
  | [] => True
  | x :: xs =>
      LogId_index x = next_index prev ∧ (LogId_index x + 1 < u64_modulus)%N ∧
      (∀ p, prev = Some p → LogId_leader_id p ≼ LogId_leader_id x) ∧
      follows (Some x) xs
  end.

Lemma ids_upto_self x : ids_upto (LogId_index x) x = [x].
Proof.
  unfold ids_upto, LeaderLogIds_ids; cbn.
  replace (N.to_nat (LogId_index x + 1 - LogId_index x)) with 1 by lia.
  cbn. destruct x; cbn. by rewrite N.add_0_r.
Qed.

Lemma LogIdList_append_next l x xs :
  LogIdList_wf l → follows (LogIdList_last l) (x :: xs) →
  LogIdList_wf (LogIdList_append l x) ∧
  LogIdList_ids (LogIdList_append l x) = LogIdList_ids l ++ [x] ∧
  follows (LogIdList_last (LogIdList_append l x)) xs.
Proof.
  intros Hl (Hi & Hb & Hlead & Hf). split_and!.
  - apply LogIdList_append_wf; try done. lia.
  - rewrite LogIdList_append_ids by (done || lia). by rewrite <- Hi, ids_upto_self.
  - by rewrite LogIdList_append_last.
Qed.

Lemma follows_lookup prev xs i x :
  follows prev xs → xs !! i = Some x →
  LogId_index x = (next_index prev + N.of_nat i)%N ∧ (LogId_index x + 1 < u64_modulus)%N.
Proof.
  revert prev i. induction xs as [|y xs IH]; intros prev i; [done|]. cbn.
  intros (Hy & Hb & _ & Hf) Hi. destruct i as [|i]; cbn in Hi.
  - injection Hi as <-. split; [lia|done].
  - destruct (IH _ _ Hf Hi) as [-> ?]. rewrite next_index_some in * by done. split; [lia|done].
Qed.

Lemma follows_drop prev xs i :
  follows prev xs → i ≤ length xs →
  follows (match i with O => prev | S j => xs !! j end) (drop i xs).
Proof.
  revert prev i. induction xs as [|y xs IH]; intros prev i; cbn.
  { intros _ ?. by replace i with 0 by lia. }
  intros Hf Hi. destruct i as [|i]; [done|]. destruct Hf as (_ & _ & _ & Hf).
  specialize (IH (Some y) i Hf). destruct i as [|i]; apply IH; lia.
Qed.

(** [extend] with consecutive ids appends them to the expansion. *)
Lemma LogIdList_extend_spec l xs :
  LogIdList_wf l → follows (LogIdList_last l) xs →
  LogIdList_wf (LogIdList_extend l xs) ∧
  LogIdList_ids (LogIdList_extend l xs) = LogIdList_ids l ++ xs.
Proof.
  revert l. induction xs as [|x xs IH]; intros l Hl Hf; cbn.
  { by rewrite app_nil_r. }
  destruct (LogIdList_append_next l x xs Hl Hf) as (Hwf & Hids & Hf').
  destruct (IH _ Hwf Hf') as [? Heq]. unfold LogIdList_extend in *. rewrite Heq. split; [done|]. by rewrite Hids, <- (assoc (++)).
Qed.

Lemma push_key_same_leader ks x y :
  LogId_leader_id x = LogId_leader_id y →
  push_key_log_id (push_key_log_id ks x) y = push_key_log_id ks y.
Proof.
  intros Heq. destruct ks as [|k ks _] using rev_ind; cbn.
  { unfold push_key_log_id; cbn. by rewrite decide_True. }
  rewrite !push_key_log_id_snoc. rewrite Heq. case_decide.
  - rewrite push_key_log_id_snoc. by rewrite decide_True.
  - by rewrite push_key_log_id_snoc, decide_True.
Qed.

Lemma LogIdList_append_same_leader l x y :
  LogId_leader_id x = LogId_leader_id y →
  LogIdList_append (LogIdList_append l x) y = LogIdList_append l y.
Proof. intros. unfold LogIdList_append; cbn. by rewrite push_key_same_leader. Qed.

(** The optimised [extend_from_same_leader] is [extend]. *)
Lemma LogIdList_extend_from_same_leader_eq l xs c :
  (∀ x, x ∈ xs → LogId_leader_id x = c) →
  LogIdList_extend_from_same_leader l xs = LogIdList_extend l xs.
Proof.
  destruct xs as [|x xs]; [done|]. cbn. intros Hc.
  assert (∀ ys z, (∀ y, y ∈ ys → LogId_leader_id y = c) → LogId_leader_id z = c →
    LogIdList_extend (LogIdList_append l z) ys = LogIdList_append l (default z (last ys))) as Hext.
  { induction ys as [|y ys IH]; intros z Hys Hz; [done|]. cbn.
    rewrite LogIdList_append_same_leader by (rewrite Hz; symmetry; apply Hys; set_solver).
    fold (LogIdList_extend (LogIdList_append l y) ys).
    rewrite IH by (intros; apply Hys; set_solver). rewrite last_cons.
    by destruct (last ys). }
  unfold LogIdList_extend in Hext. rewrite Hext by (intros; apply Hc; set_solver).
  destruct (last xs) as [y|] eqn:Hy; cbn; [|done]. case_decide as Hne.
  - apply LogIdList_append_same_leader. rewrite !Hc; [done| |set_solver].
    apply last_Some_elem_of in Hy. set_solver.
  - by subst.
Qed.

(** [truncate] keeps the ids below [at]. *)
Lemma truncate_keys_spec start ks at' i k :
  keys_wf start ks → ks !! i = Some k →
  (start ≤ at')%N → (keys_end start (take i ks) ≤ at')%N → (at' ≤ LogId_index k)%N →
  let ks' := if (at' >? keys_end start (take i ks))
             then take i ks ++ [mkLogId (LogId_leader_id k) (u64_sub at' 1)] else take i ks in
  expand_keys start ks' = take (N.to_nat (at' - start)) (expand_keys start ks) ∧ keys_wf start ks'.
Proof.
  intros Hw Hk Hst Hend Hat.
  destruct (keys_wf_lookup _ _ _ _ Hw Hk) as (_ & Hb & _).
  rewrite <- (take_drop_middle ks i k Hk) in Hw.
  assert (expand_keys start ks = expand_keys start (take i ks) ++
    ids_upto (keys_end start (take i ks)) k ++ expand_keys (LogId_index k + 1)%N (drop (S i) ks))
    as ->.
  { rewrite <- (take_drop_middle ks i k Hk) at 1. by rewrite expand_keys_app. }
  apply keys_wf_app in Hw as [Hw (Hle&?&_)]. pose proof (keys_wf_end _ _ Hw).
  pose proof (expand_keys_length _ _ Hw) as Hlen. cbn zeta.
  destruct (ltb_spec (keys_end start (take i ks)) at') as [Hlt|Hge];
    rewrite ?N_ord_lt, ?N_ord_le in *.
  - rewrite u64_sub_small by (unfold in_u64; lia). split.
    + rewrite expand_keys_app. cbn. rewrite app_nil_r.
      rewrite take_app_ge by lia. f_equal.
      rewrite take_app_le by (rewrite ids_upto_length; lia). rewrite Hlen.
      destruct (ids_upto_take (keys_end start (take i ks)) k (at' - keys_end start (take i ks)))
        as [Ht|]; [lia| |lia].
      replace (N.to_nat (at' - start) - N.to_nat (keys_end start (take i ks) - start))
        with (N.to_nat (at' - keys_end start (take i ks))) by lia.
      rewrite Ht. do 2 f_equal. lia.
    + apply keys_wf_app. cbn. split_and!; try done; lia.
  - split; [|done]. rewrite take_app_le by lia. symmetry. apply take_ge. lia.
Qed.

Lemma StronglySorted_take_snoc (ks : list LogId) i k x :
  StronglySorted leader_lt ks → ks !! i = Some k → LogId_leader_id x = LogId_leader_id k →
  StronglySorted leader_lt (take i ks ++ [x]).
Proof.
  intros Hs Hk Hx. rewrite <- (take_drop_middle ks i k Hk) in Hs.
  apply StronglySorted_app in Hs as (Hlt & ? & _). apply StronglySorted_app.
  split_and!; [|done|repeat constructor].
  intros a b Ha ->%list_elem_of_singleton. unfold leader_lt. rewrite Hx. apply Hlt; set_solver.
Qed.

Lemma StronglySorted_take_leader (ks : list LogId) i :
  StronglySorted leader_lt ks → StronglySorted leader_lt (take i ks).
Proof. rewrite <- (take_drop i ks) at 1. rewrite StronglySorted_app. tauto. Qed.

Lemma StronglySorted_drop_leader (ks : list LogId) i :
  StronglySorted leader_lt ks → StronglySorted leader_lt (drop i ks).
Proof. rewrite <- (take_drop i ks) at 1. rewrite StronglySorted_app. tauto. Qed.

Lemma keys_wf_take start ks i : keys_wf start ks → keys_wf start (take i ks).
Proof. rewrite <- (take_drop i ks) at 1. rewrite keys_wf_app. tauto. Qed.

(** Replacing the keys by a prefix, possibly cut inside its last entry, keeps
    the invariant. *)
Lemma LogIdList_wf_prefix l ks' :
  LogIdList_wf l → keys_wf (LogIdList_first_index l) ks' → StronglySorted leader_lt ks' →
  (∀ k', k' ∈ ks' → ∃ k, k ∈ LogIdList_key_log_ids l ∧ LogId_leader_id k' = LogId_leader_id k) →
  LogIdList_wf (mkLogIdList (LogIdList_purged l) ks').
Proof.
  intros (Hp & _ & _) Hw Hs Hk. split_and!; [|done|done]. cbn.
  destruct (LogIdList_purged l); [|done]. destruct Hp as [? Hp]. split; [done|].
  intros k' Hk'. destruct (Hk k' Hk') as (k & ? & ->). auto.
Qed.

Lemma LogIdList_truncate_keys_spec l at' i k :
  LogIdList_wf l → LogIdList_key_log_ids l !! i = Some k →
  (LogIdList_first_index l ≤ at')%N →
  (keys_end (LogIdList_first_index l) (take i (LogIdList_key_log_ids l)) ≤ at')%N →
  (at' ≤ LogId_index k)%N →
  LogIdList_ids (LogIdList_truncate_keys l at' i) =
    take (N.to_nat (at' - LogIdList_first_index l)) (LogIdList_ids l) ∧
  LogIdList_wf (LogIdList_truncate_keys l at' i).
Proof.
  intros Hl Hk Hst Hend Hat. pose proof Hl as (_ & Hw & Hs).
  assert (i < length (LogIdList_key_log_ids l)) by (by eapply lookup_lt_Some).
  destruct (truncate_keys_spec _ _ _ _ _ Hw Hk Hst Hend Hat) as [He Hw'].
  unfold LogIdList_truncate_keys. rewrite range_start_keys_end, Hk by (done || lia). cbn zeta in *.
  destruct (at' >? keys_end _ _).
  - split; [done|]. apply LogIdList_wf_prefix; try done.
    + by apply (StronglySorted_take_snoc _ _ k).
    + intros k' [Hin%elem_of_take| ->%list_elem_of_singleton]%elem_of_app.
      * destruct Hin as (j & Hj & _). exists k'. split; [|done]. by eapply list_elem_of_lookup_2.
      * exists k. split; [|done]. by eapply list_elem_of_lookup_2.
  - split; [done|]. apply LogIdList_wf_prefix; try done.
    + by apply StronglySorted_take_leader.
    + intros k' (j & Hj & _)%elem_of_take. exists k'. split; [|done].
      by eapply list_elem_of_lookup_2.
Qed.

Lemma LogIdList_clear_wf l : LogIdList_wf l → LogIdList_wf (mkLogIdList (LogIdList_purged l) []).
Proof. intros Hl. apply LogIdList_wf_prefix; try done; [constructor|set_solver]. Qed.

Lemma LogIdList_truncate_spec l at' :
  LogIdList_wf l → (LogIdList_first_index l ≤ at')%N →
  LogIdList_ids (LogIdList_truncate l at') =
    take (N.to_nat (at' - LogIdList_first_index l)) (LogIdList_ids l) ∧
  LogIdList_wf (LogIdList_truncate l at').
Proof.
  intros Hl Hat. pose proof Hl as (_ & Hw & Hs). unfold LogIdList_truncate.
  case_decide as H0.
  { split; [|by apply LogIdList_clear_wf].
    by replace (N.to_nat (at' - LogIdList_first_index l)) with 0 by lia. }
  destruct (search_pos _ _ at' Hw) as (Hlen & _ & Hhi & Hok).
  pose proof (search_keys_end _ _ at' Hw Hat) as Hend.
  destruct (binary_search_by (search_index at') (LogIdList_key_log_ids l)) as [i|i]; cbn in *.
  - destruct (Hok i eq_refl) as (k & Hk & Heq).
    apply (LogIdList_truncate_keys_spec l at' i k); try done. lia.
  - case_decide as Hi.
    + split; [|done]. symmetry. apply take_ge. unfold LogIdList_ids.
      rewrite expand_keys_length by done. rewrite take_ge in Hend by lia. lia.
    + destruct (lookup_lt_is_Some_2 (LogIdList_key_log_ids l) i) as [k Hk]; [lia|].
      apply (LogIdList_truncate_keys_spec l at' i k); try done. by eapply Hhi.
Qed.

(** [purge] drops the ids up to [upto]. *)

(** The number of keys [purge] removes. *)
Definition purge_count (ks : list LogId) (idx : u64) : nat :=
  match binary_search_by (search_index idx) ks with Ok i => i + 1 | Err i => i end.

Lemma purge_count_spec start ks idx :
  keys_wf start ks →
  purge_count ks idx ≤ length ks ∧
  (∀ j k, ks !! j = Some k → j < purge_count ks idx → (LogId_index k ≤ idx)%N) ∧
  (∀ j k, ks !! j = Some k → purge_count ks idx ≤ j → (idx < LogId_index k)%N).
Proof.
  intros Hw. pose proof (keys_wf_sorted _ _ Hw) as Hs.
  destruct (search_pos _ _ idx Hw) as (Hlen & Hlo & Hhi & Hok). unfold purge_count.
  pose proof (binary_search_by_spec (search_index idx) ks) as Hspec.
  destruct (binary_search_by (search_index idx) ks) as [i|i]; cbn in *.
  - destruct (Hok i eq_refl) as (k & Hk & Heq). split_and!.
    + apply lookup_lt_Some in Hk. lia.
    + intros j k' Hj Hji. destruct (decide (j = i)) as [->|]; [simplify_eq; lia|].
      apply Hlo in Hj; lia.
    + intros j k' Hj Hji. rewrite <- Heq. eapply (StronglySorted_lookup _ _ i j) in Hs; eauto; lia.
  - split_and!; [done|..].
    + intros j k Hj Hji. apply Hlo in Hj; lia.
    + intros j k Hj Hji. pose proof (Hhi j k Hj Hji).
      destruct (decide (LogId_index k = idx)) as [Heq|]; [|lia]. exfalso.
      destruct Hspec as [_ Hspec].
      { intros i1 i2 a b H1 H2 H12. unfold search_index, cmp, N_ord.
        rewrite !N.compare_gt_iff, !N.compare_lt_iff.
        destruct (decide (i1 = i2)) as [->|]; [naive_solver|].
        assert (LogId_index a < LogId_index b)%N; [|lia].
        eapply (StronglySorted_lookup _ _ i1 i2) in Hs; eauto; lia. }
      apply Hspec in Hj as [_ Hj]. specialize (Hj Hji). unfold search_index, cmp, N_ord in Hj.
      rewrite N.compare_gt_iff in Hj. lia.
Qed.

Lemma ids_upto_drop start idx k :
  (start ≤ idx)%N → (idx < LogId_index k)%N →
  ids_upto (idx + 1)%N k = drop (N.to_nat (idx + 1 - start)) (ids_upto start k).
Proof.
  intros. apply list_eq. intros i. rewrite lookup_drop.
  destruct (decide (idx + 1 + N.of_nat i ≤ LogId_index k)%N).
  - rewrite !ids_upto_lookup by lia. do 2 f_equal. lia.
  - rewrite !lookup_ge_None_2; [done|rewrite ids_upto_length; lia..].
Qed.

Lemma purge_keys_spec start ks idx :
  keys_wf start ks → (start ≤ idx)%N → (idx < keys_end start ks)%N →
  let ks' := drop (purge_count ks idx) ks in
  expand_keys (idx + 1)%N ks' = drop (N.to_nat (idx + 1 - start)) (expand_keys start ks) ∧
  keys_wf (idx + 1)%N ks'.
Proof.
  intros Hw Hst Hend. destruct (purge_count_spec _ _ idx Hw) as (Hlen & Hlo & Hhi). cbn zeta.
  set (i := purge_count ks idx) in *.
  assert (keys_end start (take i ks) ≤ idx + 1)%N as Hpre.
  { unfold keys_end. destruct (last (take i ks)) as [k|] eqn:Hl; [|lia].
    rewrite last_lookup in Hl. apply lookup_take_Some in Hl as [Hl ?].
    apply Hlo in Hl; lia. }
  rewrite <- (take_drop i ks) in Hw. apply keys_wf_app in Hw as [Hw1 Hw2].
  pose proof (keys_wf_end _ _ Hw1). pose proof (expand_keys_length _ _ Hw1).
  assert (expand_keys start ks = expand_keys start (take i ks) ++
    expand_keys (keys_end start (take i ks)) (drop i ks)) as ->.
  { by rewrite <- expand_keys_app, take_drop. }
  destruct (drop i ks) as [|k rest] eqn:Hd.
  - cbn. rewrite app_nil_r. split; [|done]. symmetry. apply drop_ge. lia.
  - assert (idx < LogId_index k)%N as Hk.
    { apply (Hhi i); [|done]. rewrite <- (Nat.add_0_r i), <- lookup_drop, Hd. done. }
    destruct Hw2 as (?&?&?). split; [|cbn; split_and!; try done; lia].
    rewrite drop_app_ge by lia. cbn.
    replace (N.to_nat (idx + 1 - start) - length (expand_keys start (take i ks)))
      with (N.to_nat (idx + 1 - keys_end start (take i ks))) by lia.
    rewrite drop_app_le by (rewrite ids_upto_length; lia). f_equal.
    destruct (decide (keys_end start (take i ks) = idx + 1)%N) as [->|].
    + by replace (N.to_nat (idx + 1 - (idx + 1))) with 0 by lia.
    + apply ids_upto_drop; lia.
Qed.

Lemma LogIdList_purge_eq l upto :
  LogIdList_purge l upto =
    if (LogId_index upto >=? next_index (LogIdList_last l)) then mkLogIdList (Some upto) []
    else if (LogId_index upto <? LogIdList_first_index l) then l
    else mkLogIdList (Some upto)
      (drop (purge_count (LogIdList_key_log_ids l) (LogId_index upto)) (LogIdList_key_log_ids l)).
Proof.
  unfold LogIdList_purge, purge_count. repeat case_match; try done; congruence.
Qed.

Lemma LogIdList_get_leader_le l idx x k j :
  LogIdList_wf l → (LogIdList_first_index l ≤ idx)%N → LogIdList_get l idx = Some x →
  LogIdList_key_log_ids l !! j = Some k → (idx < LogId_index k)%N →
  LogId_leader_id x ≼ LogId_leader_id k.
Proof.
  intros Hl Hst Hget Hk Hidx. pose proof Hl as (_ & Hw & Hs).
  rewrite LogIdList_get_spec in Hget by done.
  destruct (ltb_spec idx (LogIdList_first_index l)) as [Hc|_]; [rewrite N_ord_lt in Hc; lia|].
  destruct (search_pos _ _ idx Hw) as (Hlen & Hlo & Hhi & _).
  pose proof (search_keys_end _ _ idx Hw Hst) as Hend.
  set (i := found _) in *.
  assert (i ≤ j) as Hij.
  { destruct (decide (i ≤ j)); [done|]. apply Hlo in Hk; lia. }
  destruct (lookup_lt_is_Some_2 (LogIdList_key_log_ids l) i) as [k' Hk'].
  { apply lookup_lt_Some in Hk. lia. }
  unfold LogIdList_ids in Hget. rewrite (expand_keys_lookup _ _ i k') in Hget; try done.
  2:{ split; [done|]. by eapply Hhi. }
  simplify_eq; cbn. destruct (decide (i = j)) as [->|]; [simplify_eq; apply ord_le_refl|].
  apply ord_lt_le. eapply (StronglySorted_lookup _ _ i j) in Hs; eauto. lia.
Qed.

Lemma LogIdList_purge_spec l upto :
  LogIdList_wf l → (LogId_index upto + 1 < u64_modulus)%N →
  ((LogIdList_first_index l ≤ LogId_index upto < next_index (LogIdList_last l))%N →
    LogIdList_get l (LogId_index upto) = Some upto) →
  LogIdList_wf (LogIdList_purge l upto) ∧
  LogIdList_ids (LogIdList_purge l upto) =
    drop (N.to_nat (LogId_index upto + 1 - LogIdList_first_index l)) (LogIdList_ids l) ∧
  LogIdList_first_index (LogIdList_purge l upto) =
    N.max (LogIdList_first_index l) (LogId_index upto + 1).
Proof.
  intros Hl Hb Hget. pose proof (LogIdList_first_le_last l Hl) as Hfl.
  rewrite LogIdList_purge_eq.
  destruct (leb_spec (next_index (LogIdList_last l)) (LogId_index upto)) as [Hge|Hlt];
    rewrite ?N_ord_le, ?N_ord_lt in *.
  { split_and!.
    - split_and!; cbn; [split; [done|set_solver]|done|constructor].
    - symmetry. apply drop_ge. rewrite LogIdList_ids_length by done. lia.
    - unfold LogIdList_first_index at 1; cbn. rewrite u64_add_small by done. lia. }
  destruct (ltb_spec (LogId_index upto) (LogIdList_first_index l)) as [Hlt'|Hge];
    rewrite ?N_ord_le, ?N_ord_lt in *.
  { split_and!; [done| |lia].
    by replace (N.to_nat (LogId_index upto + 1 - LogIdList_first_index l)) with 0 by lia. }
  specialize (Hget ltac:(lia)). rewrite LogIdList_last_next_index in Hlt by done.
  pose proof Hl as (_ & Hw & Hs).
  destruct (purge_keys_spec _ _ _ Hw Hge Hlt) as [He Hw'].
  destruct (purge_count_spec _ _ (LogId_index upto) Hw) as (_ & _ & Hhi).
  unfold LogIdList_wf, LogIdList_ids at 1, LogIdList_first_index at 1 2 4. cbn [LogIdList_purged
    LogIdList_key_log_ids]. rewrite next_index_some by done. split_and!; try done.
  - intros k Hk. apply list_elem_of_lookup in Hk as [j Hj]. rewrite lookup_drop in Hj.
    eapply (LogIdList_get_leader_le l); eauto. apply (Hhi _ _ Hj). lia.
  - by apply StronglySorted_drop_leader.
  - lia.
Qed.

(** ** The last and the first id *)

Lemma ids_upto_last start k : (start ≤ LogId_index k)%N → last (ids_upto start k) = Some k.
Proof.
  intros. rewrite last_lookup, ids_upto_length, ids_upto_lookup by lia.
  destruct k; cbn in *. do 2 f_equal. lia.
Qed.

Lemma LogIdList_last_spec l :
  LogIdList_wf l →
  LogIdList_last l =
    match last (LogIdList_ids l) with Some x => Some x | None => LogIdList_purged l end.
Proof.
  intros (_ & Hw & _). unfold LogIdList_last, LogIdList_ids.
  destruct (LogIdList_key_log_ids l) as [|k ks _] using rev_ind; [done|].
  apply keys_wf_app in Hw as [_ (?&_)].
  rewrite expand_keys_app. cbn. rewrite app_nil_r, last_snoc.
  rewrite last_app, ids_upto_last by done. done.
Qed.

Lemma LogIdList_first_spec l : LogIdList_wf l → LogIdList_first l = head (LogIdList_ids l).
Proof.
  intros (_ & Hw & _). unfold LogIdList_first, LogIdList_ids.
  destruct (LogIdList_key_log_ids l) as [|k ks]; [done|]. destruct Hw as (?&?&_). cbn.
  rewrite head_lookup, lookup_app_l by (rewrite ids_upto_length; lia).
  rewrite ids_upto_lookup by lia. do 2 f_equal. lia.
Qed.

Lemma ids_upto_sorted start k : StronglySorted ord_lt (ids_upto start k).
Proof.
  apply StronglySorted_lookup_2. unfold ids_upto, LeaderLogIds_ids; cbn.
  intros i j x y Hi Hj Hij. rewrite list_lookup_fmap_Some in Hi, Hj.
  destruct Hi as (a & -> & Ha%lookup_seq), Hj as (b & -> & Hb%lookup_seq).
  apply LogId_lt_alt; cbn. right. split; [done|lia].
Qed.

Lemma elem_of_expand_keys start ks x :
  x ∈ expand_keys start ks → ∃ k, k ∈ ks ∧ LogId_leader_id x = LogId_leader_id k.
Proof.
  revert start. induction ks as [|k ks IH]; intros start; cbn; [set_solver|].
  intros [[Hx _]%elem_of_ids_upto|Hx]%elem_of_app; [set_solver|].
  destruct (IH _ Hx) as (k' & ? & ?). set_solver.
Qed.

(** The expanded ids are strictly increasing. *)
Lemma LogIdList_ids_sorted l : LogIdList_wf l → StronglySorted ord_lt (LogIdList_ids l).
Proof.
  intros (_ & _ & Hs). unfold LogIdList_ids. generalize (LogIdList_first_index l).
  induction Hs as [|k ks Hs IH Hall]; intros start; cbn; [constructor|].
  apply StronglySorted_app. split_and!; [|apply ids_upto_sorted|apply IH].
  intros a b [Ha _]%elem_of_ids_upto (k' & Hk' & Hb)%elem_of_expand_keys.
  apply LogId_lt_leader. rewrite Ha, Hb. rewrite Forall_forall in Hall. by apply Hall.
Qed.

Lemma expand_keys_index start ks i x :
  keys_wf start ks → expand_keys start ks !! i = Some x → LogId_index x = (start + N.of_nat i)%N.
Proof.
  revert start i. induction ks as [|k ks IH]; intros start i; cbn; [done|].
  intros (Hk & _ & Hw) Hi. destruct (decide (i < length (ids_upto start k))) as [Hlt|Hge].
  - rewrite lookup_app_l in Hi by done.
    rewrite ids_upto_length in Hlt. rewrite ids_upto_lookup in Hi by lia. by injection Hi as <-.
  - rewrite lookup_app_r in Hi by lia. rewrite ids_upto_length in *.
    rewrite (IH _ _ Hw Hi). lia.
Qed.

(** [get] at an index returns the id with that index, and ids grow with it. *)
Lemma LogIdList_get_index l i x : LogIdList_wf l → LogIdList_get l i = Some x → LogId_index x = i.
Proof.
  intros Hl. rewrite (LogIdList_get_spec l i Hl).
  destruct (ltb_spec i (LogIdList_first_index l)) as [|Hge].
  - destruct (LogIdList_purged l) as [p|]; cbn; [|done]. case_decide; [|done]. naive_solver.
  - destruct Hl as (_ & Hw & _). intros Hx. apply expand_keys_index in Hx; [|done].
    rewrite N_ord_le in Hge. lia.
Qed.

Lemma LogIdList_get_is_Some l i :
  LogIdList_wf l → (LogIdList_first_index l ≤ i + 1)%N →
  (LogIdList_purged l = None → LogIdList_first_index l ≤ i)%N →
  (i < next_index (LogIdList_last l))%N → is_Some (LogIdList_get l i).
Proof.
  intros Hl Hlo Hp Hhi. rewrite (LogIdList_get_spec l i Hl).
  pose proof (first_index_purged l Hl) as Hf.
  destruct (ltb_spec i (LogIdList_first_index l)) as [Hlt|Hge]; rewrite ?N_ord_lt, ?N_ord_le in *.
  - destruct (LogIdList_purged l) as [p|]; cbn; [|by specialize (Hp eq_refl); lia].
    rewrite decide_True by lia. eauto.
  - apply lookup_lt_is_Some. rewrite LogIdList_ids_length by done. lia.
Qed.

Lemma LogIdList_get_purged l p :
  LogIdList_wf l → LogIdList_purged l = Some p → LogIdList_get l (LogId_index p) = Some p.
Proof.
  intros Hl Hp. pose proof (first_index_purged l Hl) as Hf. rewrite Hp in Hf.
  rewrite LogIdList_get_spec by done. destruct (ltb_spec (LogId_index p) (LogIdList_first_index l)) as [|Hc].
  - rewrite Hp. cbn. by rewrite decide_True.
  - rewrite N_ord_le in Hc. lia.
Qed.

Lemma LogIdList_get_bounds l i x :
  LogIdList_wf l → LogIdList_get l i = Some x →
  (LogIdList_first_index l ≤ i + 1)%N ∧ (i < next_index (LogIdList_last l))%N.
Proof.
  intros Hl Hx. pose proof (LogIdList_get_spec l i Hl) as Hs. rewrite Hx in Hs.
  pose proof (first_index_purged l Hl) as Hf. pose proof (LogIdList_first_le_last l Hl).
  destruct (ltb_spec i (LogIdList_first_index l)) as [Hlt|Hge]; rewrite ?N_ord_lt, ?N_ord_le in *.
  - destruct (LogIdList_purged l) as [p|]; [|done]. cbn in Hs.
    destruct (decide (i = LogId_index p)); [lia|done].
  - symmetry in Hs. apply lookup_lt_Some in Hs. rewrite LogIdList_ids_length in Hs by done. lia.
Qed.

Lemma LogIdList_get_lt l i j x y :
  LogIdList_wf l → LogIdList_get l i = Some x → LogIdList_get l j = Some y → (i < j)%N → x ≺ y.
Proof.
  intros Hl Hx Hy Hij. pose proof (LogIdList_ids_sorted l Hl) as Hs.
  pose proof (LogIdList_get_index l i x Hl Hx) as Hxi.
  pose proof (LogIdList_get_index l j y Hl Hy) as Hyj.
  rewrite LogIdList_get_spec in Hx, Hy by done.
  destruct (ltb_spec i (LogIdList_first_index l)) as [Hi|Hi],
    (ltb_spec j (LogIdList_first_index l)) as [Hj|Hj]; rewrite ?N_ord_lt, ?N_ord_le in *.
  - destruct (LogIdList_purged l) as [p|]; [|done]. cbn in *. repeat case_decide; naive_solver lia.
  - destruct Hl as (Hp & _). destruct (LogIdList_purged l) as [p|]; [|done]. cbn in Hx.
    case_decide; [|done]. injection Hx as <-. destruct Hp as [_ Hp].
    apply list_elem_of_lookup_2, elem_of_expand_keys in Hy as (k & Hk & Hlead).
    apply LogId_lt_alt. specialize (Hp k Hk). rewrite <- Hlead in Hp.
    apply ord_le_alt in Hp as [?|?]; [auto|]. right. split; [done|lia].
  - lia.
  - eapply StronglySorted_lookup; [exact Hs|exact Hx|exact Hy|lia].
Qed.

Lemma LogIdList_get_le l i j x y :
  LogIdList_wf l → LogIdList_get l i = Some x → LogIdList_get l j = Some y → (i ≤ j)%N → x ≼ y.
Proof.
  intros Hl Hx Hy Hij. destruct (decide (i = j)) as [->|].
  - rewrite Hx in Hy. injection Hy as ->. apply ord_le_refl.
  - apply ord_lt_le, (LogIdList_get_lt l i j); try done. lia.
Qed.

(** [by_last_leader] is the range of the entries the last leader proposed. *)
Lemma LogIdList_by_last_leader_spec l x :
  LogIdList_wf l → last (LogIdList_ids l) = Some x →
  ∃ r, LogIdList_by_last_leader l = Some r ∧
    LeaderLogIds_ids r =
      filter (λ y, LogId_leader_id y = LogId_leader_id x) (LogIdList_ids l) ∧
    LeaderLogIds_last_ref r = x.
Proof.
  intros Hl Hx. pose proof (LogIdList_last_spec l Hl) as Hlast. rewrite Hx in Hlast.
  pose proof Hl as (_ & Hw & Hs). unfold LogIdList_by_last_leader. rewrite Hlast. cbn.
  eexists; split; [done|]. split; [|by destruct x].
  unfold LogIdList_ids in *. destruct (LogIdList_key_log_ids l) as [|k ks _] eqn:Hks using rev_ind.
  { done. }
  unfold LogIdList_last in Hlast. rewrite Hks, last_snoc in Hlast. injection Hlast as ->.
  apply keys_wf_app in Hw as [Hw (?&?&_)].
  rewrite expand_keys_app, filter_app. cbn. rewrite app_nil_r.
  rewrite (filter_all _ (ids_upto _ _)) by (by intros ? [-> _]%elem_of_ids_upto).
  rewrite filter_none; cbn.
  2:{ intros y (k' & Hk' & Hy)%elem_of_expand_keys Heq.
    apply StronglySorted_app in Hs as [Hlt _]. specialize (Hlt k' x Hk' ltac:(set_solver)).
    unfold leader_lt in Hlt. rewrite <- Hy, Heq in Hlt. by apply ord_lt_irrefl in Hlt. }
  unfold ids_upto. do 2 f_equal. rewrite length_app; cbn.
  rewrite decide_False by lia. destruct (decide (length ks + 1 = 1)) as [Hlen|Hlen].
  - by assert (ks = []) as -> by (apply nil_length_inv; lia).
  - destruct ks as [|k ks _] using rev_ind; [done|]. rewrite keys_end_snoc.
    apply keys_wf_app in Hw as [Hw (?&?&_)]. rewrite length_app; cbn.
    rewrite lookup_app_l by (rewrite length_app; cbn; lia).
    replace (length ks + 1 + 1 - 2) with (length ks) by lia.
    rewrite list_lookup_middle by done. by apply u64_add_small.
Qed.

(** ** Rebuilding the key log ids from the storage *)

Section key_search.
Context {E : Type} (sto : u64 → result LogId E) (leader : u64 → CommittedLeaderId).
Context (lo hi : u64).

Definition id_at (i : u64) : LogId := mkLogId (leader i) i.

(** The ids stored at [lo .. g]. *)
Definition stored_ids (g : u64) : list LogId :=
  (λ i : nat, id_at (lo + N.of_nat i)%N) <$> seq 0 (N.to_nat (g + 1 - lo)).

(** The storage holds every entry of the range, leaders do not decrease, and
    the sum of two indexes does not overflow. *)
Hypothesis sto_ok : ∀ i, (lo ≤ i ≤ hi)%N → sto i = Ok (id_at i).
Hypothesis leader_mono : ∀ i j, (lo ≤ i)%N → (i ≤ j)%N → (j ≤ hi)%N → leader i ≼ leader j.
Hypothesis lo_hi : (lo ≤ hi)%N.
Hypothesis no_overflow : (2 * hi + 1 < u64_modulus)%N.

Lemma leader_squeeze i j k :
  (lo ≤ i)%N → (i ≤ j)%N → (j ≤ k)%N → (k ≤ hi)%N → leader i = leader k → leader j = leader k.
Proof.
  intros ???? Heq. apply ord_le_antisym; [by apply leader_mono; lia|].
  rewrite <- Heq. apply leader_mono; lia.
Qed.

(** The keys found so far cover [lo .. f]. *)
Definition keys_cover (f : u64) (ks : list LogId) : Prop :=
  last ks = Some (id_at f) ∧ keys_wf lo ks ∧ StronglySorted leader_lt ks ∧
  expand_keys lo ks = stored_ids f.

Lemma stored_ids_snoc f g :
  (lo ≤ f)%N → (f < g)%N → (∀ i, (f < i ≤ g)%N → leader i = leader g) →
  stored_ids g = stored_ids f ++ ids_upto (f + 1)%N (id_at g).
Proof.
  intros Hf Hg Hl. unfold stored_ids.
  replace (N.to_nat (g + 1 - lo)) with (N.to_nat (f + 1 - lo) + N.to_nat (g - f)) by lia.
  rewrite seq_app, fmap_app. f_equal. unfold ids_upto, LeaderLogIds_ids; cbn.
  replace (N.to_nat (g + 1 - (f + 1))) with (N.to_nat (g - f)) by lia.
  rewrite <- (Nat.add_0_r (N.to_nat (f + 1 - lo))), <- fmap_add_seq, <- list_fmap_compose.
  apply list_fmap_ext. intros i x [-> Hi]%lookup_seq. cbn. unfold id_at.
  replace (lo + N.of_nat (N.to_nat (f + 1 - lo) + i))%N with (f + 1 + N.of_nat i)%N by lia.
  f_equal. apply Hl. lia.
Qed.

Lemma keys_cover_push f g ks :
  keys_cover f ks → (lo ≤ f)%N → (f < g)%N → (g ≤ hi)%N →
  (∀ i, (f < i ≤ g)%N → leader i = leader g) → keys_cover g (push_key_log_id ks (id_at g)).
Proof.
  intros (Hlast & Hw & Hs & He) Hf Hg Hhi Hl.
  assert (keys_end lo ks = (f + 1)%N) as Hend by (unfold keys_end; by rewrite Hlast).
  split_and!.
  - apply last_snoc_inv in Hlast as [ks' ->]. rewrite push_key_log_id_snoc.
    case_decide; by rewrite last_snoc.
  - apply push_key_wf; [done|rewrite Hend; cbn; lia|cbn; lia].
  - apply push_key_sorted; [done|]. intros k Hk. rewrite Hlast in Hk. simplify_eq. cbn.
    apply leader_mono; lia.
  - rewrite push_key_expand, He, Hend; [|done|rewrite Hend; cbn; lia].
    symmetry. by apply stored_ids_snoc.
Qed.

(** The keys end before [f], in a run of the leader of [f]; pushing [f]
    makes them cover it. *)
Definition keys_before (f : u64) (ks : list LogId) : Prop :=
  ∃ f0, (lo ≤ f0 ≤ f)%N ∧ leader f0 = leader f ∧ (ks = [] ∧ f0 = lo ∨ keys_cover f0 ks).

Lemma keys_cover_start f ks :
  ks = [] ∧ f = lo ∨ keys_cover f ks → (f ≤ hi)%N → keys_cover f (push_key_log_id ks (id_at f)).
Proof.
  intros [[-> ->]|Hc] Hf.
  - split_and!; [done|cbn; split_and!; [lia|lia|done]|repeat constructor|].
    transitivity [id_at lo]; [cbn; rewrite app_nil_r; exact (ids_upto_self (id_at lo))|].
    unfold stored_ids.
    replace (N.to_nat (lo + 1 - lo)) with 1 by lia. cbn. by rewrite N.add_0_r.
  - pose proof Hc as (Hlast & _). apply last_snoc_inv in Hlast as [ks' ->].
    rewrite push_key_log_id_snoc. by rewrite decide_True.
Qed.

Lemma keys_before_push f g ks :
  keys_before f ks → (f ≤ g ≤ hi)%N → leader f = leader g →
  keys_cover g (push_key_log_id ks (id_at g)).
Proof.
  intros (f0 & Hf0 & Heq & Hc) Hfg Hg.
  destruct (decide (f0 = g)) as [->|]; [by apply keys_cover_start; [|lia]|].
  rewrite <- (push_key_same_leader ks (id_at f0)) by (cbn; congruence).
  apply (keys_cover_push f0); [apply keys_cover_start; [done|lia]|lia..|].
  intros i Hi. apply (leader_squeeze f0); [lia..|congruence].
Qed.

Lemma keys_cover_before f ks : (lo ≤ f)%N → keys_cover f ks → keys_before f ks.
Proof. intros. exists f. split_and!; [lia|lia|done|auto]. Qed.

Fixpoint stack_chain (f : u64) (stack : list (LogId * LogId)) : Prop :=
  match stack with
  | [] => f = hi
  | (a, b) :: rest => a = id_at f ∧ ∃ g, b = id_at g ∧ (f ≤ g ≤ hi)%N ∧ stack_chain g rest
  end.

Definition range_cost (p : LogId * LogId) : nat :=
  Nat.max 1 (2 * N.to_nat (LogId_index p.2 - LogId_index p.1) - 1).

Definition stack_cost (stack : list (LogId * LogId)) : nat := sum_list (range_cost <$> stack).

Lemma get_key_log_ids_loop_spec fuel stack ks f :
  stack_cost stack < fuel → stack_chain f stack → (lo ≤ f ≤ hi)%N →
  keys_before f ks → (stack = [] → keys_cover f ks) →
  ∃ ks', get_key_log_ids_loop fuel sto stack ks = Some (Ok ks') ∧ keys_cover hi ks'.
Proof.
  revert stack ks f. induction fuel as [|fuel IH]; intros stack ks f Hcost Hch Hf Hb Hnil; [lia|].
  destruct stack as [|[a b] rest]; cbn [get_key_log_ids_loop get_key_log_ids_step].
  { cbn in Hch; subst. eauto. }
  destruct Hch as (-> & g & -> & Hfg & Hch).
  unfold stack_cost in *; cbn in Hcost. unfold range_cost at 1 in Hcost; cbn in Hcost.
  case_decide as Heq; cbn in Heq.
  { pose proof (keys_before_push f g ks Hb ltac:(lia) Heq) as Hc.
    apply (IH rest _ g); [lia|done|lia|apply keys_cover_before; [lia|done]|done]. }
  pose proof (keys_before_push f f ks Hb ltac:(lia) eq_refl) as Hpush.
  assert (f ≠ g) as Hfg' by congruence.
  cbn [LogId_index id_at]. rewrite (u64_add_small f 1) by lia. case_decide as Hadj.
  { subst g. assert (keys_cover (f + 1)%N (push_key_log_id (push_key_log_id ks (id_at f))
      (id_at (f + 1)%N))) as Hc.
    { apply (keys_cover_push f); [done|lia..|intros i Hi; f_equal; lia]. }
    apply (IH rest _ (f + 1)%N); [lia|done|lia|apply keys_cover_before; [lia|done]|done]. }
  rewrite u64_add_small by lia. set (m := ((f + g) / 2)%N).
  assert (f < m < g)%N as Hm.
  { subst m. split; [|apply N.Div0.div_lt_upper_bound; lia].
    apply N.lt_le_trans with (f + 1)%N; [lia|]. apply N.div_le_lower_bound; lia. }
  rewrite sto_ok by lia. case_decide as Hmid; cbn in Hmid.
  - apply (IH _ _ m); [|cbn; eauto 6 with lia|lia| |done].
    + cbn. unfold range_cost at 1; cbn. lia.
    + destruct Hb as (f0 & ? & ? & ?). exists f0. split_and!; [lia|lia|congruence|done].
  - apply (IH _ _ f); [|cbn; eauto 10 with lia|lia|done|done].
    cbn. unfold range_cost at 1 2; cbn. lia.
Qed.

(** The loop ends within [2 * (hi - lo) + 2] iterations, reads only present
    entries, and returns the last id of each leader: keys that expand to the
    stored ids. *)
Lemma get_key_log_ids_spec fuel :
  2 * N.to_nat (hi - lo) + 1 < fuel →
  ∃ ks, get_key_log_ids fuel sto (id_at lo) (id_at hi) = Some (Ok ks) ∧
    keys_wf lo ks ∧ StronglySorted leader_lt ks ∧ expand_keys lo ks = stored_ids hi ∧
    last ks = Some (id_at hi).
Proof.
  intros Hfuel. unfold get_key_log_ids.
  destruct (get_key_log_ids_loop_spec fuel [(id_at lo, id_at hi)] [] lo) as (ks & ? & Hc).
  - unfold stack_cost; cbn. unfold range_cost; cbn. lia.
  - cbn; eauto 10 with lia.
  - lia.
  - exists lo. split_and!; [lia|lia|done|auto].
  - done.
  - exists ks. destruct Hc as (?&?&?&?). eauto 10.
Qed.
End key_search.

Lemma StorageHelper_get_key_log_ids_lemma {E} (sto : u64 → result LogId E) leader
    (purged : option LogId) (hi : u64) fuel :
  let lo := next_index purged in
  (lo ≤ hi)%N → (2 * hi + 1 < u64_modulus)%N →
  (∀ p, purged = Some p → LogId_index p + 1 < u64_modulus)%N →
  (∀ i, (lo ≤ i ≤ hi)%N → sto i = Ok (id_at leader i)) →
  (∀ i j, (lo ≤ i)%N → (i ≤ j)%N → (j ≤ hi)%N → leader i ≼ leader j) →
  (∀ p, purged = Some p → LogId_leader_id p ≼ leader lo) →
  2 * N.to_nat (hi - lo) + 1 < fuel →
  ∃ l, StorageHelper_get_key_log_ids fuel sto purged (Some (id_at leader hi)) = Some (Ok l) ∧
    LogIdList_wf l ∧ LogIdList_purged l = purged ∧ LogIdList_ids l = stored_ids leader lo hi.
Proof.
  cbn zeta. intros Hle Hov Hpb Hsto Hmono Hpl Hfuel.
  destruct (get_key_log_ids_spec sto leader _ _ Hsto Hmono Hle Hov fuel Hfuel)
    as (ks & Hks & Hw & Hs & He & _).
  unfold StorageHelper_get_key_log_ids. rewrite decide_False.
  2:{ destruct purged as [p|]; [|done]. cbn in *. intros [= Heq].
    rewrite u64_add_small in Hle by auto. lia. }
  rewrite Hsto by lia. rewrite Hks. eexists; split; [done|]. split_and!; [|done|done].
  split_and!; [|done|done]. cbn. destruct purged as [p|] eqn:Hp; [|done]. split; [by apply Hpb|].
  intros k Hk. apply list_elem_of_lookup in Hk as [j Hj].
  destruct (keys_wf_lookup _ _ _ _ Hw Hj) as (Hlo & _ & _).
  assert (id_at leader (LogId_index k) = k ∧ (LogId_index k ≤ hi)%N) as [Hk Hhi].
  { pose proof (expand_keys_lookup _ _ j k (LogId_index k) Hw Hj) as Hx.
    destruct (keys_wf_lookup _ _ _ _ Hw Hj) as (_ & _ & Hend). specialize (Hx ltac:(lia)).
    rewrite He in Hx. unfold stored_ids in Hx. rewrite list_lookup_fmap_Some in Hx.
    destruct Hx as (i & Heq & [-> Hi]%lookup_seq). destruct k as [c x]; cbn in *.
    injection Heq as -> Hx. split; [|lia]. unfold id_at. do 2 f_equal. lia. }
  rewrite <- Hk. cbn. eapply ord_le_trans; [by apply Hpl|]. by apply Hmono.
Qed.

(** ** The specification of the log id index

    The ids of all entries after the purged one, and the operations the
    engine expects of them. *)
Record LogSpec := mkLogSpec { spec_purged : option LogId; spec_ids : list LogId }.

Definition spec_first (a : LogSpec) : u64 := next_index (spec_purged a).
Definition spec_get (a : LogSpec) (idx : u64) : option LogId :=
  if (idx <? spec_first a) then
    p ← spec_purged a; if decide (idx = LogId_index p) then Some p else None
  else spec_ids a !! N.to_nat (idx - spec_first a).
Definition spec_last (a : LogSpec) : option LogId :=
  match last (spec_ids a) with Some x => Some x | None => spec_purged a end.
Definition spec_extend (a : LogSpec) (xs : list LogId) : LogSpec :=
  mkLogSpec (spec_purged a) (spec_ids a ++ xs).
Definition spec_truncate (a : LogSpec) (at' : u64) : LogSpec :=
  mkLogSpec (spec_purged a) (take (N.to_nat (at' - spec_first a)) (spec_ids a)).
Definition spec_purge (a : LogSpec) (upto : LogId) : LogSpec :=
  if (LogId_index upto <? spec_first a) then a
  else mkLogSpec (Some upto)
    (drop (N.to_nat (LogId_index upto + 1 - spec_first a)) (spec_ids a)).

Definition LogIdList_abs (l : LogIdList) : LogSpec :=
  mkLogSpec (LogIdList_purged l) (LogIdList_ids l).

Lemma LogIdList_extend_purged l xs : LogIdList_purged (LogIdList_extend l xs) = LogIdList_purged l.
Proof. revert l; induction xs as [|x xs IH]; intros l; [done|]. apply (IH (LogIdList_append l x)). Qed.

Lemma LogIdList_truncate_purged l at' :
  LogIdList_purged (LogIdList_truncate l at') = LogIdList_purged l.
Proof. unfold LogIdList_truncate, LogIdList_truncate_keys. by repeat case_match. Qed.

Lemma LogIdList_purge_purged l upto :
  LogIdList_wf l →
  LogIdList_purged (LogIdList_purge l upto) =
    if (LogId_index upto <? LogIdList_first_index l) then LogIdList_purged l else Some upto.
Proof.
  intros Hl. rewrite LogIdList_purge_eq. pose proof (LogIdList_first_le_last l Hl).
  destruct (leb_spec (next_index (LogIdList_last l)) (LogId_index upto)) as [Hge|_];
    [|by destruct (_ <? _)].
  destruct (ltb_spec (LogId_index upto) (LogIdList_first_index l)) as [Hlt|]; [|done].
  rewrite ?N_ord_le, ?N_ord_lt in *. lia.
Qed.

(** [upto] may be purged: it is not in the log (already purged, or beyond its
    end) or it is the id the log has at its index. *)
Definition purgeable (l : LogIdList) (upto : LogId) : Prop :=
  (LogId_index upto + 1 < u64_modulus)%N ∧
  ((LogIdList_first_index l ≤ LogId_index upto < next_index (LogIdList_last l))%N →
    LogIdList_get l (LogId_index upto) = Some upto).

Lemma LogIdList_purge_abs l upto :
  LogIdList_wf l → purgeable l upto →
  LogIdList_wf (LogIdList_purge l upto) ∧
  LogIdList_abs (LogIdList_purge l upto) = spec_purge (LogIdList_abs l) upto.
Proof.
  intros Hl [Hb Hget]. destruct (LogIdList_purge_spec l upto Hl Hb Hget) as (? & Hids & _).
  split; [done|]. unfold LogIdList_abs, spec_purge. rewrite Hids, LogIdList_purge_purged by done.
  unfold spec_first; cbn. fold (LogIdList_first_index l).
  destruct (ltb_spec (LogId_index upto) (LogIdList_first_index l)) as [Hlt|]; [|done].
  rewrite N_ord_lt in Hlt.
  by replace (N.to_nat (LogId_index upto + 1 - LogIdList_first_index l)) with 0 by lia.
Qed.

(** ** Properties *)

(** C19: the compressed log id list refines the plain list of log ids: on a
    well-formed list, [get] and [last] read the expansion, and [extend] with
    consecutive ids, [truncate] and [purge] keep the list well-formed and act
    on its expansion as appending, taking a prefix and dropping a prefix. *)
Theorem log_id_list_refinement (l : LogIdList) :
  LogIdList_wf l →
  (∀ idx, LogIdList_get l idx = spec_get (LogIdList_abs l) idx) ∧
  LogIdList_last l = spec_last (LogIdList_abs l) ∧
  (∀ xs, follows (LogIdList_last l) xs →
    LogIdList_wf (LogIdList_extend l xs) ∧
    LogIdList_abs (LogIdList_extend l xs) = spec_extend (LogIdList_abs l) xs) ∧
  (∀ at', (LogIdList_first_index l ≤ at')%N →
    LogIdList_wf (LogIdList_truncate l at') ∧
    LogIdList_abs (LogIdList_truncate l at') = spec_truncate (LogIdList_abs l) at') ∧
  (∀ upto, purgeable l upto →
    LogIdList_wf (LogIdList_purge l upto) ∧
    LogIdList_abs (LogIdList_purge l upto) = spec_purge (LogIdList_abs l) upto).
Proof.
  intros Hl. split_and!.
  - intros idx. by apply LogIdList_get_spec.
  - by apply LogIdList_last_spec.
  - intros xs Hf. destruct (LogIdList_extend_spec l xs Hl Hf) as [? He]. split; [done|].
    unfold LogIdList_abs, spec_extend. by rewrite He, LogIdList_extend_purged.
  - intros at' Hat. destruct (LogIdList_truncate_spec l at' Hl Hat) as [He ?]. split; [done|].
    unfold LogIdList_abs, spec_truncate. by rewrite He, LogIdList_truncate_purged.
  - intros upto. by apply LogIdList_purge_abs.
Qed.

(** [extend_from_same_leader], which appends only the first and the last
    id, gives the same list as appending every id, for ids of one leader. *)
Theorem extend_from_same_leader_equiv (l : LogIdList) (xs : list LogId) (c : CommittedLeaderId) :
  (∀ x, x ∈ xs → LogId_leader_id x = c) →
  LogIdList_extend_from_same_leader l xs = LogIdList_extend l xs.
Proof. apply LogIdList_extend_from_same_leader_eq. Qed.

(** [by_last_leader] is the range of exactly the entries that the leader
    of the last entry proposed, and ends with the last entry. *)
Theorem by_last_leader_exact (l : LogIdList) (x : LogId) :
  LogIdList_wf l → last (LogIdList_ids l) = Some x →
  ∃ r, LogIdList_by_last_leader l = Some r ∧
    LeaderLogIds_ids r =
      filter (λ y, LogId_leader_id y = LogId_leader_id x) (LogIdList_ids l) ∧
    LeaderLogIds_last_ref r = x.
Proof. apply LogIdList_by_last_leader_spec. Qed.

(** Rebuilding the list from the storage ends within
    [2 * (hi - next_index purged) + 2] iterations, and when the storage holds
    every entry after the purged one up to [hi], with non-decreasing leaders,
    the result is a well-formed list that expands to exactly the stored ids. *)
Theorem get_key_log_ids_total {E} (sto : u64 → result LogId E) (leader : u64 → CommittedLeaderId)
    (purged : option LogId) (hi : u64) (fuel : nat) :
  let lo := next_index purged in
  (lo ≤ hi)%N → (2 * hi + 1 < u64_modulus)%N →
  (∀ p, purged = Some p → LogId_index p + 1 < u64_modulus)%N →
  (∀ i, (lo ≤ i ≤ hi)%N → sto i = Ok (id_at leader i)) →
  (∀ i j, (lo ≤ i)%N → (i ≤ j)%N → (j ≤ hi)%N → leader i ≼ leader j) →
  (∀ p, purged = Some p → LogId_leader_id p ≼ leader lo) →
  2 * N.to_nat (hi - lo) + 1 < fuel →
  ∃ l, StorageHelper_get_key_log_ids fuel sto purged (Some (id_at leader hi)) = Some (Ok l) ∧
    LogIdList_wf l ∧ LogIdList_purged l = purged ∧ LogIdList_ids l = stored_ids leader lo hi.
Proof. apply StorageHelper_get_key_log_ids_lemma. Qed.

End log_id_list.

Arguments Continue {A B} a.
Arguments Break {A B} b.

(** ** Witnesses *)

Module LogIdListWitness.
#[local] Existing Instance adv_config.

Definition lid (t n i : u64) : LogId := mkLogId (LeaderIdAdv.mk t n) i.

(** Entries 3 and 4 of leader 1-1, 5 to 7 of leader 2-3; 0 to 2 are purged. *)
Definition sample : LogIdList := mkLogIdList (Some (lid 1 1 2)) [lid 1 1 4; lid 2 3 7].

Lemma sample_wf : LogIdList_wf sample.
Proof.
  split_and!; [split; [done|]|cbn; split_and!; done|].
  - intros k Hk. unfold sample in Hk; cbn in Hk.
    apply elem_of_cons in Hk as [->|Hk]; [done|].
    apply elem_of_cons in Hk as [->|Hk]; [done|]. set_solver.
  - repeat constructor.
Defined.

Lemma log_id_list_refinement_witness :
  LogIdList_get sample 6 = Some (lid 2 3 6) ∧
  LogIdList_ids (LogIdList_truncate sample 6) = [lid 1 1 3; lid 1 1 4; lid 2 3 5].
Proof.
  destruct (log_id_list_refinement sample sample_wf) as (Hget & _ & _ & Htr & _).
  split; [rewrite Hget; reflexivity|].
  destruct (Htr 6%N) as [_ Heq]; [vm_compute; done|].
  exact (f_equal spec_ids Heq).
Defined.

Lemma extend_from_same_leader_witness :
  LogIdList_extend_from_same_leader sample [lid 3 1 8; lid 3 1 9; lid 3 1 10] =
    LogIdList_extend sample [lid 3 1 8; lid 3 1 9; lid 3 1 10].
Proof.
  apply (extend_from_same_leader_equiv (C:=adv_config) _ _ (LeaderIdAdv.mk 3 1)).
  intros x Hx. repeat (apply elem_of_cons in Hx as [->|Hx]; [done|]). set_solver.
Defined.

Lemma by_last_leader_witness :
  ∃ r, LogIdList_by_last_leader sample = Some r ∧
    LeaderLogIds_ids r = [lid 2 3 5; lid 2 3 6; lid 2 3 7].
Proof.
  destruct (by_last_leader_exact sample (lid 2 3 7) sample_wf eq_refl) as (r & ? & Hr & _).
  exists r. split; [done|]. rewrite Hr. vm_compute. done.
Defined.

(** A store of leader 1-1 below index 5, of leader 2-3 from there. *)
Definition sample_leader (i : u64) : CommittedLeaderId :=
  if (i <? 5%N) then LeaderIdAdv.mk 1 1 else LeaderIdAdv.mk 2 3.
Definition sample_sto (i : u64) : result LogId unit := Ok (id_at sample_leader i).

Lemma sample_leader_mono i j : (i ≤ j)%N → sample_leader i ≼ sample_leader j.
Proof.
  intros Hij. unfold sample_leader.
  destruct (ltb_spec i 5%N) as [|Hi], (ltb_spec j 5%N) as [Hj|]; try done.
  rewrite N_ord_lt, ?N_ord_le in *. lia.
Defined.

Lemma get_key_log_ids_witness :
  ∃ l, StorageHelper_get_key_log_ids 12 sample_sto (Some (lid 1 1 2))
         (Some (id_at sample_leader 7)) = Some (Ok l) ∧ LogIdList_wf l ∧
    LogIdList_ids l = [lid 1 1 3; lid 1 1 4; lid 2 3 5; lid 2 3 6; lid 2 3 7].
Proof.
  destruct (get_key_log_ids_total sample_sto sample_leader (Some (lid 1 1 2)) 7 12)
    as (l & ? & ? & _ & ?).
  - vm_compute; done.
  - vm_compute; done.
  - intros p [= <-]. vm_compute; done.
  - done.
  - intros i j _ Hij _. by apply sample_leader_mono.
  - intros p [= <-]. vm_compute; done.
  - vm_compute; lia.
  - eauto.
Defined.
End LogIdListWitness.
