(* ===== verification/Quorum.v ===== *)
(** * Quorum sets

    [quorum/quorum_set.rs], [quorum/quorum_set_impl.rs], [quorum/coherent.rs]
    and [quorum/coherent_impl.rs].  The trait [QuorumSet] is a class; its
    documented law, that adding ids to a quorum gives a quorum, is
    [QuorumSetLaws], proved of every implementation. *)

From S2P Require Import Prelude.

(** ** The interface *)

Class QuorumSet (QS : Type) := {
  is_quorum : QS → list N → bool;
  qs_ids : QS → list N;
}.
#[global] Hint Mode QuorumSet ! : typeclass_instances.

(** Implementations must be upward-closed, and [ids] yields each id once. *)
Class QuorumSetLaws (QS : Type) `{!QuorumSet QS} := {
  is_quorum_mono : ∀ (qs : QS) (a b : list N),
    NoDup a → (∀ x, x ∈ qs_ids qs → x ∈ a → x ∈ b) →
    is_quorum qs a = true → is_quorum qs b = true;
  NoDup_qs_ids : ∀ qs : QS, NoDup (qs_ids qs);
}.
#[global] Hint Mode QuorumSetLaws ! - : typeclass_instances.

(** ** A majority of one config *)

(** The loop of [BTreeSet::is_quorum]: [count] grows by two for each member. *)
Fixpoint majority_loop (s : gset N) (limit count : nat) (ids : list N) : bool :=
  match ids with
  | [] => false
  | id :: ids =>
      if decide (id ∈ s) then
        let count := count + 2 in
        if decide (limit < count) then true else majority_loop s limit count ids
      else majority_loop s limit count ids
  end.

Definition set_is_quorum (s : gset N) (ids : list N) : bool :=
  majority_loop s (size s) 0 ids.

#[export] Instance set_quorum_set : QuorumSet (gset N) :=
  {| is_quorum := set_is_quorum; qs_ids := bset_iter |}.

(** ** Joint configs *)

(** [Vec<BTreeSet>::is_quorum]: a majority in every config. *)
Fixpoint joint_is_quorum (configs : list (gset N)) (ids : list N) : bool :=
  match configs with
  | [] => true
  | config :: configs =>
      if negb (set_is_quorum config ids) then false else joint_is_quorum configs ids
  end.

Definition joint_voters (configs : list (gset N)) : gset N :=
  foldl (λ ids config, ids ∪ config) ∅ configs.

Definition joint_ids (configs : list (gset N)) : list N := bset_iter (joint_voters configs).

#[export] Instance joint_quorum_set : QuorumSet (list (gset N)) :=
  {| is_quorum := joint_is_quorum; qs_ids := joint_ids |}.

(** ** Coherent configs *)

(** [is_coherent_with]: some config is in both. *)
Fixpoint shares_config (a : gset N) (other : list (gset N)) : bool :=
  match other with
  | [] => false
  | b :: other => if decide (a = b) then true else shares_config a other
  end.

Fixpoint is_coherent_with (self other : list (gset N)) : bool :=
  match self with
  | [] => false
  | a :: self => if shares_config a other then true else is_coherent_with self other
  end.

Definition find_coherent (self : list (gset N)) (other : gset N) : list (gset N) :=
  if is_coherent_with self [other] then [other]
  else
    match last self with
    | Some last => [last; other]
    | None => [other]
    end.

(** ** Lemmas *)

(** The members of [s] among [ids]. *)
Definition members (s : gset N) (ids : list N) : list N := filter (.∈ s) ids.
#[global] Arguments members : simpl never.

Lemma members_cons_in s x ids : x ∈ s → members s (x :: ids) = x :: members s ids.
Proof. intros. unfold members. by rewrite filter_cons_True. Qed.

Lemma members_cons_out s x ids : x ∉ s → members s (x :: ids) = members s ids.
Proof. intros. unfold members. by rewrite filter_cons_False. Qed.

Lemma majority_loop_spec s limit count ids :
  count ≤ limit →
  majority_loop s limit count ids = bool_decide (limit < count + 2 * length (members s ids)).
Proof.
  revert count. induction ids as [|x ids IH]; intros count Hc; cbn.
  - symmetry. apply bool_decide_eq_false. unfold members; cbn. lia.
  - case_decide as Hx.
    + rewrite members_cons_in by done. cbn. case_decide.
      * symmetry. apply bool_decide_eq_true. lia.
      * rewrite IH by lia. apply bool_decide_ext. lia.
    + rewrite members_cons_out by done. by apply IH.
Qed.

Lemma set_is_quorum_spec s ids :
  set_is_quorum s ids = bool_decide (size s < 2 * length (members s ids)).
Proof. unfold set_is_quorum. rewrite majority_loop_spec by lia. done. Qed.

Lemma set_is_quorum_true s ids :
  set_is_quorum s ids = true ↔ size s < 2 * length (members s ids).
Proof. rewrite set_is_quorum_spec. apply bool_decide_eq_true. Qed.

Lemma NoDup_members s ids : NoDup ids → NoDup (members s ids).
Proof. apply NoDup_filter. Qed.

Lemma elem_of_members s ids x : x ∈ members s ids ↔ x ∈ s ∧ x ∈ ids.
Proof. unfold members. by rewrite list_elem_of_filter. Qed.

Lemma members_mono s a b :
  NoDup a → (∀ x, x ∈ s → x ∈ a → x ∈ b) → length (members s a) ≤ length (members s b).
Proof.
  intros Ha Hab. apply submseteq_length, NoDup_submseteq; [by apply NoDup_members|].
  intros x. rewrite !elem_of_members. naive_solver.
Qed.

#[export] Instance set_quorum_set_laws : QuorumSetLaws (gset N).
Proof.
  split; [|apply NoDup_bset_iter].
  intros s a b Ha Hab. unfold is_quorum; cbn. rewrite !set_is_quorum_true.
  intros Hlt. pose proof (members_mono s a b Ha) as Hle.
  assert (length (members s a) ≤ length (members s b)); [|lia].
  apply Hle. intros x Hx. apply Hab. by apply elem_of_bset_iter.
Qed.

Lemma joint_is_quorum_true configs ids :
  joint_is_quorum configs ids = true ↔ ∀ c, c ∈ configs → set_is_quorum c ids = true.
Proof.
  induction configs as [|c configs IH]; cbn; [set_solver|].
  destruct (set_is_quorum c ids) eqn:Hc; cbn; set_solver.
Qed.

Lemma foldl_union_elem_of (configs : list (gset N)) acc x :
  x ∈ foldl (λ ids config : gset N, ids ∪ config) acc configs ↔
  x ∈ acc ∨ ∃ c, c ∈ configs ∧ x ∈ c.
Proof.
  revert acc. induction configs as [|c configs IH]; intros acc; cbn; [set_solver|].
  rewrite IH. set_solver.
Qed.

Lemma elem_of_joint_voters configs x :
  x ∈ joint_voters configs ↔ ∃ c, c ∈ configs ∧ x ∈ c.
Proof. unfold joint_voters. rewrite foldl_union_elem_of. set_solver. Qed.

Lemma elem_of_joint_ids configs x : x ∈ joint_ids configs ↔ ∃ c, c ∈ configs ∧ x ∈ c.
Proof. unfold joint_ids. by rewrite elem_of_bset_iter, elem_of_joint_voters. Qed.

#[export] Instance joint_quorum_set_laws : QuorumSetLaws (list (gset N)).
Proof.
  split; [|intros; apply NoDup_bset_iter].
  intros configs a b Ha Hab. unfold is_quorum; cbn. rewrite !joint_is_quorum_true.
  intros Hq c Hc. refine (is_quorum_mono (QS:=gset N) c a b Ha _ (Hq c Hc)).
  cbn. intros x Hx. apply Hab. cbn. apply elem_of_joint_ids. exists c. split; [done|].
  by apply elem_of_bset_iter.
Qed.

Lemma shares_config_true a other : shares_config a other = true ↔ a ∈ other.
Proof.
  induction other as [|b other IH]; cbn; [set_solver|]. case_decide; set_solver.
Qed.

Lemma is_coherent_with_true self other :
  is_coherent_with self other = true ↔ ∃ c, c ∈ self ∧ c ∈ other.
Proof.
  induction self as [|a self IH]; cbn; [set_solver|].
  destruct (shares_config a other) eqn:Ha.
  - apply shares_config_true in Ha. set_solver.
  - assert (a ∉ other) by (rewrite <- shares_config_true; congruence). set_solver.
Qed.

Lemma is_coherent_with_sym self other :
  is_coherent_with self other = is_coherent_with other self.
Proof. apply Bool.eq_iff_eq_true. rewrite !is_coherent_with_true. naive_solver. Qed.

(** *** Intersection *)

(** Two families of members that outnumber the ids they are drawn from share
    one. *)
Lemma members_intersect s t (a b : list N) :
  NoDup a → NoDup b → size (s ∪ t) < length (members s a) + length (members t b) →
  ∃ x, x ∈ a ∧ x ∈ b ∧ x ∈ s ∧ x ∈ t.
Proof.
  intros Ha Hb Hlen.
  pose proof (NoDup_members s a Ha) as Ha'. pose proof (NoDup_members t b Hb) as Hb'.
  destruct (decide (Exists (.∈ members t b) (members s a))) as [Hex|Hno].
  - apply Exists_exists in Hex as (x & [??]%elem_of_members & [??]%elem_of_members). eauto 10.
  - exfalso. rewrite <- Forall_Exists_neg, Forall_forall in Hno.
    assert (length (members s a ++ members t b) ≤ size (s ∪ t)) as Hle; [|rewrite length_app in Hle; lia].
    rewrite <- (length_bset_iter (s ∪ t)). apply submseteq_length, NoDup_submseteq.
    + apply NoDup_app. split_and!; auto.
    + intros x. rewrite elem_of_app, !elem_of_members, elem_of_bset_iter. set_solver.
Qed.

Lemma majority_intersect s (a b : list N) :
  NoDup a → NoDup b → set_is_quorum s a = true → set_is_quorum s b = true →
  ∃ x, x ∈ a ∧ x ∈ b ∧ x ∈ s.
Proof.
  rewrite !set_is_quorum_true. intros Ha Hb Hqa Hqb.
  destruct (members_intersect s s a b Ha Hb) as (x & ? & ? & ? & _); [|eauto].
  replace (s ∪ s) with s by set_solver. lia.
Qed.

(** Majorities of two configs that differ by at most one id intersect. *)
Lemma adjacent_majority_intersect s t (a b : list N) :
  NoDup a → NoDup b → size ((s ∖ t) ∪ (t ∖ s)) ≤ 1 →
  set_is_quorum s a = true → set_is_quorum t b = true →
  ∃ x, x ∈ a ∧ x ∈ b ∧ x ∈ s ∧ x ∈ t.
Proof.
  rewrite !set_is_quorum_true. intros Ha Hb Hd Hqa Hqb.
  apply members_intersect; [done..|].
  assert (size ((s ∖ t) ∪ (t ∖ s)) = size (s ∖ t) + size (t ∖ s)) as Hd'
    by (apply size_union; set_solver).
  assert (size (s ∪ t) = size s + size (t ∖ s)) as H1.
  { rewrite <- size_union by set_solver. f_equal. apply set_eq. intros x.
    destruct (decide (x ∈ s)); set_solver. }
  assert (size (s ∪ t) = size t + size (s ∖ t)) as H2.
  { rewrite <- size_union by set_solver. f_equal. apply set_eq. intros x.
    destruct (decide (x ∈ t)); set_solver. }
  lia.
Qed.

Lemma coherent_intersect self other (a b : list N) :
  NoDup a → NoDup b → is_coherent_with self other = true →
  joint_is_quorum self a = true → joint_is_quorum other b = true →
  ∃ x, x ∈ a ∧ x ∈ b ∧ x ∈ joint_voters self ∧ x ∈ joint_voters other.
Proof.
  intros Ha Hb (c & Hc1 & Hc2)%is_coherent_with_true.
  rewrite !joint_is_quorum_true. intros Hqa Hqb.
  destruct (majority_intersect c a b Ha Hb (Hqa c Hc1) (Hqb c Hc2)) as (x & ? & ? & ?).
  exists x. rewrite !elem_of_joint_voters. eauto 10.
Qed.

Lemma find_coherent_between self goal :
  self ≠ [] →
  is_coherent_with self (find_coherent self goal) = true ∧
  is_coherent_with (find_coherent self goal) [goal] = true.
Proof.
  intros Hne. unfold find_coherent. destruct (is_coherent_with self [goal]) eqn:Hc.
  - split; [done|]. apply is_coherent_with_true. exists goal. set_solver.
  - destruct (last self) as [c|] eqn:Hl; [|by apply last_None in Hl].
    split; apply is_coherent_with_true; [exists c|exists goal]; [|set_solver].
    apply last_Some_elem_of in Hl. set_solver.
Qed.

Lemma find_coherent_twice self goal : find_coherent (find_coherent self goal) goal = [goal].
Proof.
  unfold find_coherent at 1. replace (is_coherent_with (find_coherent self goal) [goal]) with true; [done|].
  symmetry. apply is_coherent_with_true. exists goal. unfold find_coherent.
  destruct (is_coherent_with self [goal]); [set_solver|]. destruct (last self); set_solver.
Qed.
