(* ===== verification/Membership.v ===== *)
(** * Membership

    [membership/membership_impl.rs], [membership/membership_impl_quorum_set.rs],
    [membership/stored_membership.rs], [change_members.rs] and the errors of
    [errors/membership_error.rs]: joint memberships, their validation, and the
    change of a membership through coherent intermediate ones. *)

From S2P Require Import Prelude Vote LogId Quorum.

(** [errors/operation.rs] *)
Inductive Operation :=
| Operation_None
| Operation_AllowNextRevert
| Operation_TransferLeader
| Operation_SendHeartbeat
| Operation_ReceiveSnapshot
| Operation_InstallSnapshot
| Operation_ClientWrite
| Operation_Initialize
| Operation_Elect.

Inductive MembershipError :=
| MembershipError_EmptyMembership
| MembershipError_NodeNotFound (node_id : u64) (operation : Operation).

Section membership.
Context {C : RaftTypeConfig}.

Record Membership := mkMembership {
  Membership_configs : list (gset N);
  Membership_nodes : gmap N Node;
}.

#[global] Instance Membership_eq_dec : EqDecision Membership.
Proof. solve_decision. Defined.

Definition Membership_default : Membership := mkMembership [] ∅.

(** [From<BTreeMap<NID, N>>] *)
Definition Membership_from (b : gmap N Node) : Membership := mkMembership [dom b] b.

Definition Membership_new_unchecked (configs : list (gset N)) (nodes : gmap N Node) : Membership :=
  mkMembership configs nodes.

Definition Membership_is_joint (m : Membership) : bool :=
  bool_decide (1 < length (Membership_configs m)).

Definition Membership_get_node (m : Membership) (node_id : u64) : option Node :=
  Membership_nodes m !! node_id.

Definition Membership_voter_ids (m : Membership) : list N :=
  bset_iter (joint_voters (Membership_configs m)).

Fixpoint configs_contain (configs : list (gset N)) (node_id : u64) : bool :=
  match configs with
  | [] => false
  | c :: configs => if decide (node_id ∈ c) then true else configs_contain configs node_id
  end.

Definition Membership_is_voter (m : Membership) (node_id : u64) : bool :=
  configs_contain (Membership_configs m) node_id.

Definition Membership_learner_ids (m : Membership) : list N :=
  filter (λ x, Membership_is_voter m x = false) (bset_iter (dom (Membership_nodes m))).

Definition Membership_contains (m : Membership) (node_id : u64) : bool :=
  bool_decide (is_Some (Membership_nodes m !! node_id)).

(** [extend_nodes]: a node already present is not replaced. *)
Definition extend_nodes (old new : gmap N Node) : gmap N Node :=
  foldl (λ res '(k, v),
    match res !! k with Some _ => res | None => <[k := v]> res end) old (bmap_iter new).

Fixpoint ensure_non_empty_configs (configs : list (gset N)) : result unit MembershipError :=
  match configs with
  | [] => Ok tt
  | c :: configs =>
      if decide (c = ∅) then Err MembershipError_EmptyMembership
      else ensure_non_empty_configs configs
  end.

Definition ensure_non_empty_config (m : Membership) : result unit MembershipError :=
  ensure_non_empty_configs (Membership_configs m).

Definition ensure_quorum_defined (m : Membership) : result unit MembershipError :=
  match Membership_configs m with
  | [] => Err MembershipError_EmptyMembership
  | _ => ensure_non_empty_config m
  end.

Fixpoint first_without_node (nodes : gmap N Node) (voters : list N) : option N :=
  match voters with
  | [] => None
  | v :: voters =>
      match nodes !! v with Some _ => first_without_node nodes voters | None => Some v end
  end.

(** [ensure_voter_nodes]: [Err] with the first voter that has no node. *)
Definition ensure_voter_nodes (m : Membership) : result unit N :=
  match first_without_node (Membership_nodes m) (Membership_voter_ids m) with
  | Some v => Err v
  | None => Ok tt
  end.

Definition Membership_ensure_valid (m : Membership) : result unit MembershipError :=
  match ensure_non_empty_config m with
  | Err e => Err e
  | Ok _ =>
      match ensure_voter_nodes m with
      | Err nid => Err (MembershipError_NodeNotFound nid Operation_None)
      | Ok _ => Ok tt
      end
  end.

(** [Membership::new] *)
Definition Membership_new (config : list (gset N)) (nodes : gmap N Node) :
    result Membership MembershipError :=
  let m := mkMembership config nodes in
  match Membership_ensure_valid m with Err e => Err e | Ok _ => Ok m end.

Fixpoint find_changed (entries : list (N * Node)) (other : gmap N Node) : option N :=
  match entries with
  | [] => None
  | (node_id, node) :: entries =>
      match other !! node_id with
      | None => find_changed entries other
      | Some other_node =>
          if decide (other_node ≠ node) then Some node_id else find_changed entries other
      end
  end.

Definition find_changed_node_metadata (m other : Membership) : option N :=
  find_changed (bmap_iter (Membership_nodes m)) (Membership_nodes other).

(** The length of [symmetric_difference]. *)
Definition sym_diff_count (a b : gset N) : nat := size ((a ∖ b) ∪ (b ∖ a)).

Definition is_direct_append_compatible_with (m other : Membership) : bool :=
  match ensure_quorum_defined m with
  | Err _ => false
  | Ok _ =>
      match ensure_quorum_defined other with
      | Err _ => false
      | Ok _ =>
          match Membership_configs m, Membership_configs other with
          | [c], [d] => bool_decide (sym_diff_count c d ≤ 1)
          | cs, ds => is_coherent_with cs ds
          end
      end
  end.

Definition next_coherent (m : Membership) (goal : gset N) (retain : bool) : Membership :=
  let config := find_coherent (Membership_configs m) goal in
  let nodes :=
    if retain then Membership_nodes m
    else
      let old_voter_ids := joint_voters (Membership_configs m) in
      let new_voter_ids := joint_voters config in
      foldl (λ nodes node_id, delete node_id nodes) (Membership_nodes m)
        (bset_iter (old_voter_ids ∖ new_voter_ids)) in
  Membership_new_unchecked config nodes.

(** [change_members.rs] *)
Inductive ChangeMembers :=
| AddVoterIds (ids : gset N)
| AddVoters (nodes : gmap N Node)
| RemoveVoters (ids : gset N)
| ReplaceAllVoters (ids : gset N)
| AddNodes (nodes : gmap N Node)
| SetNodes (nodes : gmap N Node)
| RemoveNodes (ids : gset N)
| ReplaceAllNodes (nodes : gmap N Node)
| Batch (changes : list ChangeMembers).

Definition set_configs (m : Membership) (voter_ids : gset N) : Membership :=
  mkMembership [voter_ids] (Membership_nodes m).

Definition set_nodes (m : Membership) (nodes : gmap N Node) : Membership :=
  mkMembership (Membership_configs m) nodes.

Fixpoint compute_target_membership (change : ChangeMembers) (m : Membership) : Membership :=
  let last := default ∅ (last (Membership_configs m)) in
  match change with
  | AddVoterIds add_voter_ids => set_configs m (last ∪ add_voter_ids)
  | AddVoters add_voters =>
      set_configs (set_nodes m (extend_nodes (Membership_nodes m) add_voters))
        (last ∪ dom add_voters)
  | RemoveVoters remove_voter_ids => set_configs m (last ∖ remove_voter_ids)
  | ReplaceAllVoters all_voter_ids => set_configs m all_voter_ids
  | AddNodes add_nodes =>
      set_nodes m (foldl (λ nodes '(k, v),
        match nodes !! k with Some _ => nodes | None => <[k := v]> nodes end)
        (Membership_nodes m) (bmap_iter add_nodes))
  | SetNodes nodes =>
      set_nodes m (foldl (λ nodes '(k, v), <[k := v]> nodes) (Membership_nodes m) (bmap_iter nodes))
  | RemoveNodes remove_node_ids =>
      set_nodes m (foldl (λ nodes k, delete k nodes) (Membership_nodes m)
        (bset_iter remove_node_ids))
  | ReplaceAllNodes all_nodes => set_nodes m all_nodes
  | Batch batch =>
      (fix go (batch : list ChangeMembers) (m : Membership) : Membership :=
        match batch with
        | [] => m
        | change :: batch => go batch (compute_target_membership change m)
        end) batch m
  end.

(** [change]: the [unwrap] of [configs.pop()] panics on a membership without
    config. *)
Definition Membership_change (m : Membership) (change : ChangeMembers) (retain : bool) :
    outcome (result Membership MembershipError) :=
  let target := compute_target_membership change m in
  target_voter_ids ← unwrap (last (Membership_configs target));
  let m' := set_nodes m (Membership_nodes target) in
  let new_membership := next_coherent m' target_voter_ids retain in
  Ret (match Membership_ensure_valid new_membership with
       | Err e => Err e
       | Ok _ => Ok new_membership
       end).

(** [membership_impl_quorum_set.rs] *)
#[global] Instance Membership_quorum_set : QuorumSet Membership := {|
  is_quorum m ids := joint_is_quorum (Membership_configs m) ids;
  qs_ids m := joint_ids (Membership_configs m);
|}.

#[global] Instance Membership_quorum_set_laws : QuorumSetLaws Membership.
Proof.
  split.
  - intros m a b. exact (is_quorum_mono (QS:=list (gset N)) (Membership_configs m) a b).
  - intros m. exact (NoDup_qs_ids (QS:=list (gset N)) (Membership_configs m)).
Qed.

(** ** [StoredMembership] *)

Record StoredMembership := mkStoredMembership {
  StoredMembership_log_id : option LogId;
  StoredMembership_membership : Membership;
}.

#[global] Instance StoredMembership_eq_dec : EqDecision StoredMembership.
Proof. solve_decision. Defined.

Definition StoredMembership_default : StoredMembership :=
  mkStoredMembership None Membership_default.

Definition StoredMembership_is_voter (m : StoredMembership) (nid : u64) : bool :=
  Membership_is_voter (StoredMembership_membership m) nid.
Definition StoredMembership_voter_ids (m : StoredMembership) : list N :=
  Membership_voter_ids (StoredMembership_membership m).
Definition StoredMembership_learner_ids (m : StoredMembership) : list N :=
  Membership_learner_ids (StoredMembership_membership m).
Definition StoredMembership_get_node (m : StoredMembership) (nid : u64) : option Node :=
  Membership_get_node (StoredMembership_membership m) nid.

#[global] Instance StoredMembership_quorum_set : QuorumSet StoredMembership := {|
  is_quorum m ids := is_quorum (StoredMembership_membership m) ids;
  qs_ids m := qs_ids (StoredMembership_membership m);
|}.

#[global] Instance StoredMembership_quorum_set_laws : QuorumSetLaws StoredMembership.
Proof.
  split.
  - intros m a b. exact (is_quorum_mono (StoredMembership_membership m) a b).
  - intros m. exact (NoDup_qs_ids (StoredMembership_membership m)).
Qed.

(** ** Lemmas *)

Lemma configs_contain_true configs x :
  configs_contain configs x = true ↔ ∃ c, c ∈ configs ∧ x ∈ c.
Proof.
  induction configs as [|c configs IH]; cbn; [set_solver|]. case_decide; set_solver.
Qed.

Lemma Membership_is_voter_true m x :
  Membership_is_voter m x = true ↔ x ∈ joint_voters (Membership_configs m).
Proof. unfold Membership_is_voter. by rewrite configs_contain_true, elem_of_joint_voters. Qed.

Lemma elem_of_voter_ids m x : x ∈ Membership_voter_ids m ↔ Membership_is_voter m x = true.
Proof. unfold Membership_voter_ids. by rewrite elem_of_bset_iter, Membership_is_voter_true. Qed.

Lemma elem_of_learner_ids m x :
  x ∈ Membership_learner_ids m ↔ is_Some (Membership_nodes m !! x) ∧ Membership_is_voter m x = false.
Proof.
  unfold Membership_learner_ids. rewrite list_elem_of_filter, elem_of_bset_iter, elem_of_dom.
  naive_solver.
Qed.

Lemma ensure_non_empty_configs_ok configs :
  ensure_non_empty_configs configs = Ok tt ↔ ∀ c, c ∈ configs → c ≠ ∅.
Proof.
  induction configs as [|c configs IH]; cbn; [set_solver|].
  case_decide as Hc.
  - split; [done|]. intros Hn. destruct (Hn c); set_solver.
  - rewrite IH. set_solver.
Qed.

Lemma ensure_non_empty_configs_err configs e :
  ensure_non_empty_configs configs = Err e →
  e = MembershipError_EmptyMembership ∧ ∅ ∈ configs.
Proof.
  induction configs as [|c configs IH]; cbn; [done|].
  case_decide as Hc; [|intros [-> ?]%IH; set_solver].
  intros [= <-]. split; [done|]. rewrite Hc. by left.
Qed.

Lemma first_without_node_Some nodes voters v :
  first_without_node nodes voters = Some v → v ∈ voters ∧ nodes !! v = None.
Proof.
  induction voters as [|w voters IH]; cbn; [done|].
  destruct (nodes !! w) eqn:Hw; rewrite elem_of_cons; [tauto|]. intros [= ->]. auto.
Qed.

Lemma first_without_node_None nodes voters :
  first_without_node nodes voters = None ↔ ∀ v, v ∈ voters → is_Some (nodes !! v).
Proof.
  induction voters as [|v voters IH]; cbn; [set_solver|].
  destruct (nodes !! v) eqn:Hv.
  - rewrite IH. set_solver.
  - split; [done|]. intros Hn. destruct (Hn v) as [? ?]; [set_solver|congruence].
Qed.

(** A membership is valid when no config is empty and every voter has a
    node. *)
Definition Membership_valid (m : Membership) : Prop :=
  (∀ c, c ∈ Membership_configs m → c ≠ ∅) ∧
  (∀ v, Membership_is_voter m v = true → is_Some (Membership_nodes m !! v)).

Lemma Membership_ensure_valid_ok m :
  Membership_ensure_valid m = Ok tt ↔ Membership_valid m.
Proof.
  unfold Membership_ensure_valid, ensure_non_empty_config, ensure_voter_nodes, Membership_valid.
  rewrite <- ensure_non_empty_configs_ok. setoid_rewrite <- elem_of_voter_ids.
  rewrite <- first_without_node_None.
  destruct (ensure_non_empty_configs _) as [[]|]; [|naive_solver].
  destruct (first_without_node _ _); naive_solver.
Qed.

Lemma find_changed_node_metadata_None (m m' : Membership) :
  find_changed_node_metadata m m' = None →
  ∀ id n, Membership_nodes m !! id = Some n →
    Membership_nodes m' !! id = None ∨ Membership_nodes m' !! id = Some n.
Proof.
  intros Hch id n Hn. apply elem_of_bmap_iter in Hn. unfold find_changed_node_metadata in Hch.
  induction (bmap_iter _) as [|[k v] l IH]; [set_solver|]. cbn in Hch.
  apply elem_of_cons in Hn as [[= -> ->]|Hn].
  - destruct (Membership_nodes m' !! k) as [n'|]; [|auto].
    case_decide; [done|]. subst; auto.
  - apply IH; [|done]. destruct (Membership_nodes m' !! k); [|done].
    by case_decide.
Qed.

Lemma ensure_quorum_defined_ok m :
  ensure_quorum_defined m = Ok tt ↔
  Membership_configs m ≠ [] ∧ ∀ c, c ∈ Membership_configs m → c ≠ ∅.
Proof.
  unfold ensure_quorum_defined, ensure_non_empty_config. rewrite <- ensure_non_empty_configs_ok.
  destruct (Membership_configs m); naive_solver.
Qed.

Lemma next_coherent_configs m goal retain :
  Membership_configs (next_coherent m goal retain) = find_coherent (Membership_configs m) goal.
Proof. done. Qed.

Lemma foldl_delete_lookup (ids : list N) (nodes : gmap N Node) x :
  foldl (λ nodes node_id, delete node_id nodes) nodes ids !! x =
    if decide (x ∈ ids) then None else nodes !! x.
Proof.
  revert nodes. induction ids as [|i ids IH]; intros nodes; cbn; [by rewrite decide_False by set_solver|].
  rewrite IH. destruct (decide (x = i)) as [->|].
  - rewrite lookup_delete_eq. rewrite (decide_True (P := i ∈ i :: ids)) by set_solver. by case_decide.
  - rewrite lookup_delete_ne by done. apply decide_ext. set_solver.
Qed.

(** Nodes of the next membership: only a voter that is removed, and not
    retained, loses its node. *)
Lemma next_coherent_nodes m goal retain x :
  Membership_nodes (next_coherent m goal retain) !! x =
    if decide (retain = false ∧ Membership_is_voter m x = true ∧
               Membership_is_voter (next_coherent m goal retain) x = false)
    then None else Membership_nodes m !! x.
Proof.
  unfold next_coherent at 1. cbn. destruct retain; cbn.
  - rewrite decide_False by naive_solver. done.
  - rewrite foldl_delete_lookup. apply decide_ext.
    rewrite elem_of_bset_iter, elem_of_difference, <- (Membership_is_voter_true m).
    rewrite <- (Membership_is_voter_true (next_coherent m goal false)), not_true_iff_false.
    tauto.
Qed.

Lemma extend_nodes_list_lookup (entries : list (N * Node)) (old : gmap N Node) k :
  (∀ k v w, (k, v) ∈ entries → (k, w) ∈ entries → v = w) →
  foldl (λ res '(k, v), match res !! k with Some _ => res | None => <[k := v]> res end)
    old entries !! k =
  match old !! k with
  | Some v => Some v
  | None => (list_to_map entries : gmap N Node) !! k
  end.
Proof.
  revert old. induction entries as [|[k' v'] entries IH]; intros old Hf; cbn.
  { by destruct (old !! k). }
  rewrite IH by (intros; eapply Hf; by apply list_elem_of_further).
  destruct (decide (k = k')) as [->|Hne].
  - rewrite lookup_insert_eq. destruct (old !! k') as [v|] eqn:Hk'; [by rewrite Hk'|].
    by rewrite lookup_insert_eq.
  - rewrite lookup_insert_ne by done.
    destruct (old !! k') eqn:Hk'; [done|]. by rewrite lookup_insert_ne by done.
Qed.

(** [extend_nodes] is the left-biased union. *)
Lemma extend_nodes_lookup old new k :
  extend_nodes old new !! k = match old !! k with Some v => Some v | None => new !! k end.
Proof.
  unfold extend_nodes. rewrite extend_nodes_list_lookup.
  2:{ intros k' v w. rewrite !elem_of_bmap_iter. congruence. }
  destruct (old !! k); [done|].
  destruct (new !! k) as [v|] eqn:Hk.
  - apply elem_of_list_to_map_1'.
    + intros w. rewrite elem_of_bmap_iter. congruence.
    + by apply elem_of_bmap_iter.
  - apply not_elem_of_list_to_map_1. intros ([k' v] & Heq & Hp)%list_elem_of_fmap.
    cbn in Heq; subst k'. apply elem_of_bmap_iter in Hp. congruence.
Qed.

Lemma compute_target_nonempty change m :
  Membership_configs m ≠ [] → Membership_configs (compute_target_membership change m) ≠ [].
Proof.
  revert change m. fix IH 1.
  intros [ | | | | | | | |batch] m Hm; try done.
  revert m Hm. induction batch as [|c batch IHb]; intros m Hm; [done|].
  apply IHb. by apply IH.
Qed.

Lemma compute_target_empty_ids m :
  Membership_configs m ≠ [] →
  last (Membership_configs (compute_target_membership (AddVoterIds ∅) m)) =
    last (Membership_configs m).
Proof.
  intros Hm. cbn. destruct (last (Membership_configs m)) as [c|] eqn:Hl; cbn.
  - f_equal. set_solver.
  - by apply last_None in Hl.
Qed.

(** The voters a change aims at. *)
Definition target_voters (change : ChangeMembers) (m : Membership) : gset N :=
  default ∅ (last (Membership_configs (compute_target_membership change m))).

Definition change_next (m : Membership) (change : ChangeMembers) (retain : bool) : Membership :=
  next_coherent (set_nodes m (Membership_nodes (compute_target_membership change m)))
    (target_voters change m) retain.

Lemma Membership_change_eq m change retain :
  Membership_configs m ≠ [] →
  Membership_change m change retain =
    Ret (match Membership_ensure_valid (change_next m change retain) with
         | Err e => Err e
         | Ok _ => Ok (change_next m change retain)
         end).
Proof.
  intros Hm%(compute_target_nonempty change). unfold Membership_change, change_next, target_voters.
  destruct (last (Membership_configs (compute_target_membership change m))) eqn:Hl; [done|].
  by apply last_None in Hl.
Qed.

Lemma Membership_change_ok m change retain m' :
  Membership_configs m ≠ [] →
  Membership_change m change retain = Ret (Ok m') ↔
  m' = change_next m change retain ∧ Membership_valid m'.
Proof.
  intros Hm. rewrite Membership_change_eq by done.
  rewrite <- Membership_ensure_valid_ok. destruct (Membership_ensure_valid _) as [[]|] eqn:He.
  - split; [|naive_solver]. intros [= <-]. done.
  - split; [done|]. intros [-> ?]. congruence.
Qed.

Lemma find_coherent_last self goal : last (find_coherent self goal) = Some goal.
Proof. unfold find_coherent. destruct (is_coherent_with _ _); [done|]. by destruct (last self). Qed.

Lemma find_coherent_length self goal : length (find_coherent self goal) ≤ 2.
Proof. unfold find_coherent. destruct (is_coherent_with _ _); [cbn; lia|]. destruct (last self); cbn; lia. Qed.

Lemma coherent_quorum_intersect (m m' : Membership) (a b : list N) :
  is_coherent_with (Membership_configs m) (Membership_configs m') = true →
  NoDup a → NoDup b → is_quorum m a = true → is_quorum m' b = true →
  ∃ x, x ∈ a ∧ x ∈ b ∧ Membership_is_voter m x = true ∧ Membership_is_voter m' x = true.
Proof.
  intros Hc Ha Hb Hqa Hqb.
  destruct (coherent_intersect _ _ a b Ha Hb Hc Hqa Hqb) as (x & ? & ? & ? & ?).
  exists x. rewrite !Membership_is_voter_true. done.
Qed.

Lemma coherent_self m : Membership_configs m ≠ [] →
  is_coherent_with (Membership_configs m) (Membership_configs m) = true.
Proof.
  destruct (Membership_configs m) as [|c configs] eqn:E; [done|]. intros _.
  apply is_coherent_with_true. exists c. set_solver.
Qed.

Lemma direct_append_coherent m m' a b :
  is_direct_append_compatible_with m m' = true →
  NoDup a → NoDup b → is_quorum m a = true → is_quorum m' b = true →
  ∃ x, x ∈ a ∧ x ∈ b ∧ Membership_is_voter m x = true ∧ Membership_is_voter m' x = true.
Proof.
  unfold is_direct_append_compatible_with. intros Hd Ha Hb Hqa Hqb.
  destruct (ensure_quorum_defined m), (ensure_quorum_defined m'); try done.
  assert (is_coherent_with (Membership_configs m) (Membership_configs m') = true ∨
    ∃ c d, Membership_configs m = [c] ∧ Membership_configs m' = [d] ∧ sym_diff_count c d ≤ 1)
    as [Hc|(c & d & Hm & Hm' & Hs)].
  { destruct (Membership_configs m) as [|c [|??]], (Membership_configs m') as [|d [|??]]; auto.
    apply bool_decide_eq_true in Hd. eauto 10. }
  - by apply coherent_quorum_intersect.
  - unfold is_quorum in Hqa, Hqb; cbn in Hqa, Hqb. rewrite joint_is_quorum_true in Hqa, Hqb.
    rewrite Hm in Hqa. rewrite Hm' in Hqb.
    destruct (adjacent_majority_intersect c d a b Ha Hb Hs) as (x & ? & ? & ? & ?);
      [apply Hqa; set_solver|apply Hqb; set_solver|].
    exists x. rewrite !Membership_is_voter_true, !elem_of_joint_voters, Hm, Hm'. set_solver.
Qed.

Lemma direct_append_sym m m' :
  is_direct_append_compatible_with m m' = is_direct_append_compatible_with m' m.
Proof.
  unfold is_direct_append_compatible_with.
  destruct (ensure_quorum_defined m), (ensure_quorum_defined m'); try done.
  destruct (Membership_configs m) as [|c [|??]], (Membership_configs m') as [|d [|??]];
    try (apply is_coherent_with_sym).
  apply bool_decide_ext. unfold sym_diff_count. by rewrite (comm_L (∪)).
Qed.

(** ** Properties *)

(** [is_quorum] of a membership holds exactly for the sets that contain a
    strict majority of every config: the early-exit counting loop counts each
    config's members. *)
Theorem is_quorum_majority (m : Membership) (ids : list N) :
  is_quorum m ids = true ↔
  ∀ c, c ∈ Membership_configs m → size c < 2 * length (filter (.∈ c) ids).
Proof.
  unfold is_quorum; cbn. rewrite joint_is_quorum_true.
  split; intros Hq c Hc; apply set_is_quorum_true; auto.
Qed.

Lemma compatible_quorums_intersect (m m' : Membership) (a b : list N) :
  (m = m' ∧ Membership_configs m ≠ []) ∨ is_direct_append_compatible_with m m' = true →
  NoDup a → NoDup b → is_quorum m a = true → is_quorum m' b = true →
  ∃ x, x ∈ a ∧ x ∈ b ∧ Membership_is_voter m x = true ∧ Membership_is_voter m' x = true.
Proof.
  intros [[<- Hm]|Hd].
  - apply coherent_quorum_intersect. by apply coherent_self.
  - by apply direct_append_coherent.
Qed.

(** C16: quorums intersect: any two quorums of one membership, or of two
    memberships where one may be appended directly on top of the other, share
    a node that votes in both. *)
Theorem quorums_intersect (m m' : Membership) (a b : list N) :
  (m = m' ∧ Membership_configs m ≠ []) ∨ is_direct_append_compatible_with m m' = true →
  NoDup a → NoDup b → is_quorum m a = true → is_quorum m' b = true →
  ∃ x, x ∈ a ∧ x ∈ b ∧ Membership_is_voter m x = true ∧ Membership_is_voter m' x = true.
Proof. apply compatible_quorums_intersect. Qed.

(** C17: a membership change is safe: when [change] succeeds on a membership
    with at least one config, the result is valid, has one or two configs,
    and every quorum of it intersects every quorum of the membership it
    replaces. *)
Theorem membership_change_safe (m : Membership) (change : ChangeMembers) (retain : bool)
    (m' : Membership) :
  Membership_configs m ≠ [] → Membership_change m change retain = Ret (Ok m') →
  Membership_ensure_valid m' = Ok tt ∧
  1 ≤ length (Membership_configs m') ≤ 2 ∧
  ∀ a b, NoDup a → NoDup b → is_quorum m a = true → is_quorum m' b = true →
    ∃ x, x ∈ a ∧ x ∈ b ∧ Membership_is_voter m x = true ∧ Membership_is_voter m' x = true.
Proof.
  intros Hm (-> & Hv)%Membership_change_ok; [|done]. split_and!.
  - by apply Membership_ensure_valid_ok.
  - pose proof (find_coherent_last (Membership_configs m) (target_voters change m)) as Hl.
    unfold change_next; cbn. destruct (find_coherent _ _); cbn; [done|lia].
  - apply find_coherent_length.
  - intros a b. apply coherent_quorum_intersect. unfold change_next.
    apply (find_coherent_between (Membership_configs m) _ Hm).
Qed.

(** C25: a membership change finishes in at most two steps: after a successful
    [change], the empty change succeeds and gives the uniform config of the
    target voters, valid again. *)
Theorem membership_change_two_steps (m : Membership) (change : ChangeMembers) (retain : bool)
    (m' : Membership) :
  Membership_configs m ≠ [] → Membership_change m change retain = Ret (Ok m') →
  ∃ m'', Membership_change m' (AddVoterIds ∅) retain = Ret (Ok m'') ∧
    Membership_configs m'' = [target_voters change m] ∧
    Membership_ensure_valid m'' = Ok tt.
Proof.
  intros Hm (Hm' & Hv)%Membership_change_ok; [|done].
  assert (last (Membership_configs m') = Some (target_voters change m)) as Hl.
  { rewrite Hm'. apply find_coherent_last. }
  assert (Membership_configs m' ≠ []) as Hne by (by destruct (Membership_configs m')).
  assert (target_voters (AddVoterIds ∅) m' = target_voters change m) as Ht.
  { unfold target_voters at 1. by rewrite compute_target_empty_ids, Hl. }
  assert (Membership_configs (change_next m' (AddVoterIds ∅) retain) = [target_voters change m]) as Hc.
  { unfold change_next. rewrite Ht, next_coherent_configs, Hm'. apply find_coherent_twice. }
  assert (Membership_valid (change_next m' (AddVoterIds ∅) retain)) as Hv'.
  { destruct Hv as [He Hn]. split.
    - rewrite Hc. intros c ->%list_elem_of_singleton. apply He. by apply last_Some_elem_of.
    - intros v Hvoter. unfold change_next. rewrite next_coherent_nodes.
      rewrite decide_False; [|unfold change_next in Hvoter; intros (_ & _ & ?); congruence].
      apply Hn.
      rewrite Membership_is_voter_true, Hc, elem_of_joint_voters in Hvoter.
      rewrite Membership_is_voter_true, elem_of_joint_voters.
      destruct Hvoter as (c & ->%list_elem_of_singleton & ?). eexists. split; [|done].
      by apply last_Some_elem_of. }
  exists (change_next m' (AddVoterIds ∅) retain). split_and!; [|done|].
  - by apply Membership_change_ok.
  - by apply Membership_ensure_valid_ok.
Qed.

(** [change] does not panic on a membership with a config; it fails with
    [EmptyMembership] exactly when the next membership has an empty config,
    and otherwise with [NodeNotFound] exactly for a voter of it without a
    node. *)
Theorem membership_change_errors (m : Membership) (change : ChangeMembers) (retain : bool) :
  Membership_configs m ≠ [] →
  ∃ r, Membership_change m change retain = Ret r ∧
  let next := change_next m change retain in
  match r with
  | Ok m' => m' = next
  | Err MembershipError_EmptyMembership => ∅ ∈ Membership_configs next
  | Err (MembershipError_NodeNotFound v op) =>
      op = Operation_None ∧ ∅ ∉ Membership_configs next ∧
      Membership_is_voter next v = true ∧ Membership_nodes next !! v = None
  end.
Proof.
  intros Hm. rewrite Membership_change_eq by done. eexists; split; [done|]. cbn zeta.
  set (next := change_next m change retain).
  unfold Membership_ensure_valid, ensure_voter_nodes, ensure_non_empty_config.
  destruct (ensure_non_empty_configs _) as [[]|e] eqn:He.
  2:{ by apply ensure_non_empty_configs_err in He as [-> ?]. }
  destruct (first_without_node _ _) as [v|] eqn:Hf; [|done].
  apply first_without_node_Some in Hf as [Hv Hn]. split_and!; try done.
  - intros Hin. by apply ensure_non_empty_configs_ok with (c := ∅) in He.
  - by apply elem_of_voter_ids.
Qed.
End membership.

(** ** Witnesses *)

Module MembershipWitness.
#[local] Existing Instance adv_config.

Definition nodes5 : gmap N Node := list_to_map [(1, tt); (2, tt); (3, tt); (4, tt); (5, tt)]%N.
Definition m123 : Membership := mkMembership [{[1; 2; 3]}%N] nodes5.
Definition m1234 : Membership := mkMembership [{[1; 2; 3; 4]}%N] nodes5.
Definition m123_345 : Membership := mkMembership [{[1; 2; 3]}%N; {[3; 4; 5]}%N] nodes5.

Lemma quorums_intersect_witness :
  ∃ x, x ∈ [1; 2]%N ∧ x ∈ [4; 2; 3]%N ∧
    Membership_is_voter m123 x = true ∧ Membership_is_voter m1234 x = true.
Proof.
  apply (quorums_intersect m123 m1234).
  - right. vm_compute. reflexivity.
  - refine (bool_decide_eq_true_1 _ _). vm_compute. reflexivity.
  - refine (bool_decide_eq_true_1 _ _). vm_compute. reflexivity.
  - vm_compute. reflexivity.
  - vm_compute. reflexivity.
Defined.

Lemma membership_change_safe_witness :
  1 ≤ length (Membership_configs m123_345) ≤ 2.
Proof.
  destruct (membership_change_safe m123 (ReplaceAllVoters {[3; 4; 5]}%N) true m123_345)
    as (_ & ? & _); [done|vm_compute; reflexivity|done].
Defined.

Lemma membership_change_two_steps_witness :
  ∃ m'', Membership_change m123_345 (AddVoterIds ∅) true = Ret (Ok m'') ∧
    Membership_configs m'' = [{[3; 4; 5]}%N].
Proof.
  destruct (membership_change_two_steps m123 (ReplaceAllVoters {[3; 4; 5]}%N) true m123_345)
    as (m'' & ? & ? & _); [done|vm_compute; reflexivity|eauto].
Defined.

Lemma membership_change_errors_witness :
  ∃ r, Membership_change m123 (AddVoterIds {[7]}%N) true = Ret r ∧
    r = Err (MembershipError_NodeNotFound 7 Operation_None).
Proof.
  destruct (membership_change_errors m123 (AddVoterIds {[7]}%N) true) as (r & Hr & _); [done|].
  exists r. split; [done|]. vm_compute in Hr. by injection Hr as <-.
Defined.
End MembershipWitness.
