(* ===== verification/VecProgress.v ===== *)
(** * [VecProgress]: the greatest value accepted by a quorum

    [progress/vec_progress.rs], [progress/vec_progress_entry.rs],
    [progress/id_val.rs] and [progress/progress_stats.rs].  The tracker keeps
    the voters with a progress above the accepted value sorted in descending
    order and re-examines only the prefixes an update can have turned into a
    quorum. *)

From S2P Require Import Prelude Quorum.

(** [Default], with the law the tracker relies on: the default progress is the
    least one. *)
Class Default (P : Type) := default_val : P.
#[global] Hint Mode Default ! : typeclass_instances.
Class DefaultLaws (P : Type) `{!Ord P, !Default P} := default_le : ∀ x : P, default_val ≼ x.
#[global] Hint Mode DefaultLaws ! - - : typeclass_instances.

#[export] Instance option_default A : Default (option A) := None.
#[export] Instance option_default_laws A `{OrdLaws A} : DefaultLaws (option A).
Proof. intros o. apply None_le. Qed.
#[export] Instance N_default : Default N := 0%N.
#[export] Instance N_default_laws : DefaultLaws N.
Proof. intros n. apply N_ord_le. unfold default_val, N_default. lia. Qed.
#[export] Instance bool_default : Default bool := false.
#[export] Instance bool_default_laws : DefaultLaws bool.
Proof. by intros []. Qed.

(** The trait [VecProgressEntry]. *)
Class VecProgressEntry (E P : Type) := {
  entry_id : E → N;
  progress : E → P;
  set_progress : P → E → E;
}.
#[global] Hint Mode VecProgressEntry ! - : typeclass_instances.

Class VecProgressEntryLaws (E P : Type) `{!VecProgressEntry E P} := {
  progress_set : ∀ (v : P) (e : E), progress (set_progress v e) = v;
  entry_id_set : ∀ (v : P) (e : E), entry_id (set_progress v e) = entry_id e;
}.

(** [IdVal] and the pair are the same entry: an id and its value. *)
#[export] Instance pair_entry P : VecProgressEntry (N * P) P :=
  {| entry_id := fst; progress := snd; set_progress := λ v e, (e.1, v) |}.
#[export] Instance pair_entry_laws P : VecProgressEntryLaws (N * P) P.
Proof. by split. Qed.

Record ProgressStats := mkProgressStats {
  update_count : u64;
  move_count : u64;
  is_quorum_count : u64;
}.

Definition ProgressStats_default : ProgressStats := mkProgressStats 0 0 0.

Definition stat_update (s : ProgressStats) : ProgressStats :=
  mkProgressStats (u64_add (update_count s) 1) (move_count s) (is_quorum_count s).
Definition stat_move (s : ProgressStats) : ProgressStats :=
  mkProgressStats (update_count s) (u64_add (move_count s) 1) (is_quorum_count s).
Definition stat_is_quorum (s : ProgressStats) : ProgressStats :=
  mkProgressStats (update_count s) (move_count s) (u64_add (is_quorum_count s) 1).

Section vec_progress.
Context {E P QS : Type} `{!VecProgressEntry E P, !QuorumSet QS, !Ord P, !Default P}.

Record VecProgress := mkVecProgress {
  VecProgress_quorum_set : QS;
  VecProgress_quorum_accepted : P;
  VecProgress_voter_count : nat;
  VecProgress_entries : list E;
  VecProgress_stat : ProgressStats;
}.

Definition set_entries (p : VecProgress) (es : list E) : VecProgress :=
  mkVecProgress (VecProgress_quorum_set p) (VecProgress_quorum_accepted p)
    (VecProgress_voter_count p) es (VecProgress_stat p).
Definition set_quorum_accepted (p : VecProgress) (v : P) : VecProgress :=
  mkVecProgress (VecProgress_quorum_set p) v
    (VecProgress_voter_count p) (VecProgress_entries p) (VecProgress_stat p).
Definition set_stat (p : VecProgress) (s : ProgressStats) : VecProgress :=
  mkVecProgress (VecProgress_quorum_set p) (VecProgress_quorum_accepted p)
    (VecProgress_voter_count p) (VecProgress_entries p) s.

Definition VecProgress_new (quorum_set : QS) (learner_ids : list N) (default_entry : N → E) :
    VecProgress :=
  let entries := default_entry <$> qs_ids quorum_set in
  let voter_count := length entries in
  mkVecProgress quorum_set default_val voter_count
    (entries ++ (default_entry <$> learner_ids)) ProgressStats_default.

(** [Iterator::position] of the entry with id [target]. *)
Fixpoint position (es : list E) (target : N) : option nat :=
  match es with
  | [] => None
  | e :: es => if decide (entry_id e = target) then Some 0 else S <$> position es target
  end.

Definition VecProgress_index (p : VecProgress) (target : N) : option nat :=
  position (VecProgress_entries p) target.

(** [slice::swap(i, i + 1)] *)
Definition swap_next (es : list E) (i : nat) : list E :=
  match es !! i, es !! S i with
  | Some a, Some b => <[i := b]> (<[S i := a]> es)
  | _, _ => es
  end.

Definition progress_lt_at (es : list E) (i : nat) : bool :=
  match es !! i, es !! S i with
  | Some a, Some b => progress a <? progress b
  | _, _ => false
  end.

(** The loops of [move_up] and [move_down], with the index they return. *)
Fixpoint move_up_loop (es : list E) (index : nat) : list E * nat :=
  match index with
  | O => (es, 0)
  | S i => if progress_lt_at es i then move_up_loop (swap_next es i) i else (es, S i)
  end.

Fixpoint move_down_loop (fuel : nat) (voter_count : nat) (es : list E) (i : nat) : list E * nat :=
  match fuel with
  | O => (es, i)
  | S fuel =>
      if decide (i + 1 < voter_count) then
        if progress_lt_at es i
        then move_down_loop fuel voter_count (swap_next es i) (S i)
        else (es, i)
      else (es, i)
  end.

Definition move_up (p : VecProgress) (index : nat) : VecProgress * nat :=
  let '(es, i) := move_up_loop (VecProgress_entries p) index in
  (set_entries (set_stat p (stat_move (VecProgress_stat p))) es, i).

Definition move_down (p : VecProgress) (index : nat) : VecProgress * nat :=
  let '(es, i) := move_down_loop (VecProgress_voter_count p) (VecProgress_voter_count p)
                    (VecProgress_entries p) index in
  (set_entries (set_stat p (stat_move (VecProgress_stat p))) es, i).

(** The loop of [update_at] over [i .. i + n]: finds the first prefix that is
    a quorum, from high progress to low. *)
Fixpoint find_quorum (p : VecProgress) (n i : nat) : VecProgress :=
  match n with
  | O => p
  | S n =>
      match VecProgress_entries p !! i with
      | None => p
      | Some item =>
          let prog := progress item in
          if (prog <=? VecProgress_quorum_accepted p) then p
          else
            let it := entry_id <$> take (S i) (VecProgress_entries p) in
            let p := set_stat p (stat_is_quorum (VecProgress_stat p)) in
            if is_quorum (VecProgress_quorum_set p) it then set_quorum_accepted p prog
            else find_quorum p n (S i)
      end
  end.

Definition update_at (p : VecProgress) (index : nat) (entry : E) (prev_progress : P) :
    VecProgress :=
  match cmp prev_progress (progress entry) with
  | Eq => p
  | _ =>
      if decide (VecProgress_voter_count p ≤ index) then p
      else
        let prev_le_qa := prev_progress <=? VecProgress_quorum_accepted p in
        let new_gt_qa := progress entry >? VecProgress_quorum_accepted p in
        if new_gt_qa then
          let '(p, new_index) := move_up p index in
          if prev_le_qa then find_quorum p (VecProgress_voter_count p - new_index) new_index
          else p
        else p
  end.

(** [update_entry_with]: [Err] when the id is unknown; the quorum-accepted
    value of the result is what the source returns. *)
Definition update_entry_with (p : VecProgress) (id : N) (f : E → E) :
    result VecProgress VecProgress :=
  let p := set_stat p (stat_update (VecProgress_stat p)) in
  match VecProgress_index p id with
  | None => Err p
  | Some index =>
      match VecProgress_entries p !! index with
      | None => Err p
      | Some old =>
          let prev_progress := progress old in
          let entry := f old in
          let p := set_entries p (<[index := entry]> (VecProgress_entries p)) in
          Ok (update_at p index entry prev_progress)
      end
  end.

Definition update_with (p : VecProgress) (id : N) (f : P → P) : result VecProgress VecProgress :=
  update_entry_with p id (λ e, set_progress (f (progress e)) e).

Definition update (p : VecProgress) (id : N) (value : P) : result VecProgress VecProgress :=
  update_with p id (λ _, value).

Definition increase_to (p : VecProgress) (id : N) (value : P) : result VecProgress VecProgress :=
  update_with p id (λ x, if (value >? x) then value else x).

(** [update_data_with]: [f] changes only the data of the entry. *)
Definition update_data_with (p : VecProgress) (id : N) (f : E → E) : option VecProgress :=
  index ← VecProgress_index p id;
  old ← VecProgress_entries p !! index;
  Some (set_entries p (<[index := f old]> (VecProgress_entries p))).

Definition reset_entry_with (p : VecProgress) (id : N) (f : E → E) :
    option (VecProgress * nat) :=
  index ← VecProgress_index p id;
  old ← VecProgress_entries p !! index;
  let entry := f old in
  let p := set_entries p (<[index := entry]> (VecProgress_entries p)) in
  if decide (index < VecProgress_voter_count p) then
    if (progress entry <? progress old) then Some (move_down p index) else Some (p, index)
  else Some (p, index).

Definition try_get (p : VecProgress) (id : N) : option E :=
  index ← VecProgress_index p id; VecProgress_entries p !! index.

Definition is_voter (p : VecProgress) (id : N) : option bool :=
  index ← VecProgress_index p id; Some (bool_decide (index < VecProgress_voter_count p)).

(** [replace]: [update_entry_with] by a given entry. *)
Definition replace (p : VecProgress) (entry : E) : result VecProgress VecProgress :=
  let p := set_stat p (stat_update (VecProgress_stat p)) in
  match VecProgress_index p (entry_id entry) with
  | None => Err p
  | Some index =>
      match VecProgress_entries p !! index with
      | None => Err p
      | Some old =>
          let prev_progress := progress old in
          let p := set_entries p (<[index := entry]> (VecProgress_entries p)) in
          Ok (update_at p index entry prev_progress)
      end
  end.

Definition result_state {A} (r : result A A) : A := match r with Ok a | Err a => a end.

Definition upgrade_quorum_set (p : VecProgress) (quorum_set : QS) (learner_ids : list N)
    (default_entry : N → E) : VecProgress :=
  let new_prog := VecProgress_new quorum_set learner_ids default_entry in
  let new_prog := set_stat new_prog (VecProgress_stat p) in
  foldl (λ np item, result_state (replace np item)) new_prog (VecProgress_entries p).

(** ** The specification *)

Definition voters (p : VecProgress) : list E :=
  take (VecProgress_voter_count p) (VecProgress_entries p).

(** The voters whose progress has reached [v]. *)
Definition granters (p : VecProgress) (v : P) : list N :=
  entry_id <$> filter (λ e, (v <=? progress e) = true) (voters p).

Definition granted (p : VecProgress) (v : P) : bool :=
  is_quorum (VecProgress_quorum_set p) (granters p v).

(** The greatest progress of a voter that a quorum has reached, by checking
    every voter. *)
Definition quorum_accepted_ref (p : VecProgress) : P :=
  foldr (λ e acc, if granted p (progress e) then omax (progress e) acc else acc)
    default_val (voters p).

Definition desc_above (qa : P) (vs : list E) : Prop :=
  StronglySorted (λ x y, qa ≺ progress y → progress y ≼ progress x) vs.

(** The invariant: ids are unique and the voters are those of the quorum set;
    voters above the accepted value are sorted; no greater value has a
    quorum. *)
Record VecProgress_wf (p : VecProgress) : Prop := {
  wf_count : VecProgress_voter_count p ≤ length (VecProgress_entries p);
  wf_ids : NoDup (entry_id <$> VecProgress_entries p);
  wf_voters : entry_id <$> voters p ≡ₚ qs_ids (VecProgress_quorum_set p);
  wf_sorted : desc_above (VecProgress_quorum_accepted p) (voters p);
  wf_accepted : ∀ v, VecProgress_quorum_accepted p ≺ v → granted p v = false;
}.

(** The accepted value has been reached by a quorum. *)
Definition accepted_by_quorum (p : VecProgress) : Prop :=
  VecProgress_quorum_accepted p = default_val ∨
  granted p (VecProgress_quorum_accepted p) = true.

(** ** Lemmas on the list of entries *)

#[local] Arguments voters : simpl never.
#[local] Arguments granters : simpl never.
#[local] Arguments granted : simpl never.

Context `{!OrdLaws P, !DefaultLaws P, !VecProgressEntryLaws E P, !QuorumSetLaws QS}.
Implicit Types (p : VecProgress) (es vs a b c : list E) (e x y : E) (v qa : P).

Lemma position_Some es target i :
  position es target = Some i →
  ∃ a e c, es = a ++ e :: c ∧ length a = i ∧ entry_id e = target.
Proof.
  revert i. induction es as [|e es IH]; intros i; cbn; [done|]. case_decide.
  - intros [= <-]. by exists [], e, es.
  - intros (j & Hj & ->)%fmap_Some. destruct (IH j Hj) as (a & x & c & -> & <- & ?).
    by exists (e :: a), x, c.
Qed.

Lemma position_None es target : position es target = None ↔ target ∉ entry_id <$> es.
Proof.
  induction es as [|e es IH]; cbn; [set_solver|]. case_decide.
  - split; [done|]. set_solver.
  - rewrite not_elem_of_cons, <- IH. destruct (position es target); cbn; naive_solver.
Qed.

Lemma swap_next_app a x y c : swap_next (a ++ x :: y :: c) (length a) = a ++ y :: x :: c.
Proof.
  unfold swap_next. rewrite list_lookup_middle by done.
  replace (S (length a)) with (length a + 1) by lia.
  rewrite lookup_app_r by lia. replace (length a + 1 - length a) with 1 by lia. cbn.
  rewrite insert_app_r. cbn. replace (length a) with (length a + 0) by lia.
  by rewrite insert_app_r.
Qed.

Lemma progress_lt_at_app a x y c :
  progress_lt_at (a ++ x :: y :: c) (length a) = (progress x <? progress y).
Proof.
  unfold progress_lt_at. rewrite list_lookup_middle by done.
  replace (S (length a)) with (length a + 1) by lia.
  rewrite lookup_app_r by lia. by replace (length a + 1 - length a) with 1 by lia.
Qed.

(** [move_up] moves the element over the smaller ones before it. *)
Lemma move_up_loop_spec pre e c :
  ∃ a b, pre = a ++ b ∧ move_up_loop (pre ++ e :: c) (length pre) = (a ++ e :: b ++ c, length a) ∧
    (∀ x, x ∈ b → progress x ≺ progress e) ∧
    (∀ x, last a = Some x → progress e ≼ progress x).
Proof.
  revert c. induction pre as [|x pre IH] using rev_ind; intros c; cbn.
  { exists [], []. split_and!; try done. set_solver. }
  rewrite length_app. cbn [length]. rewrite Nat.add_1_r. cbn [move_up_loop].
  rewrite <- app_assoc. cbn [app]. rewrite progress_lt_at_app. destruct (ltb_spec (progress x) (progress e)) as [Hlt|Hle].
  - rewrite swap_next_app. destruct (IH (x :: c)) as (a & b & -> & Heq & Hb & Ha).
    exists a, (b ++ [x]). rewrite Heq. split_and!; try done.
    + by rewrite app_assoc.
    + by rewrite <- app_assoc.
    + set_solver.
  - exists (pre ++ [x]), []. split_and!.
    + by rewrite app_nil_r.
    + rewrite <- app_assoc, length_app. cbn. by rewrite Nat.add_1_r.
    + set_solver.
    + intros y. rewrite last_snoc. by intros [= <-].
Qed.

(** [move_down] moves the element over the greater voters after it. *)
Lemma move_down_loop_spec pre e b c fuel :
  length b ≤ fuel →
  ∃ b1 b2, b = b1 ++ b2 ∧
    move_down_loop fuel (length pre + S (length b)) (pre ++ e :: b ++ c) (length pre) =
      (pre ++ b1 ++ e :: b2 ++ c, length pre + length b1) ∧
    (∀ x, x ∈ b1 → progress e ≺ progress x) ∧
    (∀ x, head b2 = Some x → progress x ≼ progress e).
Proof.
  revert pre fuel. induction b as [|x b IH]; intros pre fuel Hf.
  { exists [], []. split_and!; try done; [|set_solver]. cbn.
    destruct fuel; cbn; rewrite ?Nat.add_0_r; [done|].
    case_decide; [lia|done]. }
  destruct fuel as [|fuel]; [cbn in Hf; lia|]. cbn. rewrite decide_True by lia.
  rewrite progress_lt_at_app. destruct (ltb_spec (progress e) (progress x)) as [Hlt|Hle].
  - rewrite swap_next_app.
    destruct (IH (pre ++ [x]) fuel ltac:(cbn in Hf; lia)) as (b1 & b2 & -> & Heq & Hb & Ha).
    exists (x :: b1), b2. rewrite length_app in Heq. cbn in Heq.
    rewrite <- !app_assoc in Heq. cbn in Heq.
    replace (length pre + S (S (length (b1 ++ b2)))) with (length pre + 1 + S (length (b1 ++ b2))) by lia.
    replace (S (length pre)) with (length pre + 1) by lia. rewrite <- (app_assoc b1 b2 c), Heq.
    split_and!; try done; [cbn; f_equal; lia|set_solver].
  - exists [], (x :: b). split_and!; try done; [cbn; f_equal; lia|set_solver|].
    by intros y [= <-].
Qed.

Lemma granters_elem p v i : i ∈ granters p v ↔ ∃ e, entry_id e = i ∧ e ∈ voters p ∧ v ≼ progress e.
Proof.
  unfold granters. rewrite list_elem_of_fmap. setoid_rewrite list_elem_of_filter.
  setoid_rewrite leb_true. naive_solver.
Qed.

Lemma NoDup_voters p : NoDup (entry_id <$> VecProgress_entries p) → NoDup (entry_id <$> voters p).
Proof.
  intros Hn. unfold voters. eapply sublist_NoDup; [done|]. apply fmap_sublist, sublist_take.
Qed.

Lemma NoDup_granters p v : NoDup (entry_id <$> VecProgress_entries p) → NoDup (granters p v).
Proof.
  intros Hn%NoDup_voters. eapply sublist_NoDup; [done|].
  apply fmap_sublist, sublist_filter.
Qed.

(** A set of voters within one that is not a quorum is not a quorum. *)
Lemma not_quorum_mono (qs : QS) (l k : list N) :
  is_quorum qs k = false → NoDup l → (∀ i, i ∈ l → i ∈ k) → is_quorum qs l = false.
Proof.
  intros Hk Hl Hlk. apply not_true_iff_false. intros Hq.
  rewrite (is_quorum_mono qs l k) in Hk; [done|done| |done]. auto.
Qed.

Lemma granted_false_mono p p' v w :
  VecProgress_quorum_set p' = VecProgress_quorum_set p →
  granted p w = false → NoDup (entry_id <$> VecProgress_entries p') →
  (∀ i, i ∈ granters p' v → i ∈ granters p w) → granted p' v = false.
Proof.
  intros Hqs Hf Hn Hsub. unfold granted in *. rewrite Hqs.
  eapply not_quorum_mono; [done|by apply NoDup_granters|done].
Qed.

(** ** Updating an entry *)

(** What an update may change: quorum set, voter count and ids stay. *)
Definition same_shape p p' : Prop :=
  VecProgress_quorum_set p' = VecProgress_quorum_set p ∧
  VecProgress_voter_count p' = VecProgress_voter_count p ∧
  entry_id <$> VecProgress_entries p' ≡ₚ entry_id <$> VecProgress_entries p ∧
  entry_id <$> voters p' ≡ₚ entry_id <$> voters p.

Lemma same_shape_wf_ids p p' :
  same_shape p p' → NoDup (entry_id <$> VecProgress_entries p) →
  NoDup (entry_id <$> VecProgress_entries p').
Proof. intros (_ & _ & Hp & _). by rewrite Hp. Qed.

Lemma voters_app p vs ls :
  VecProgress_entries p = vs ++ ls → VecProgress_voter_count p = length vs → voters p = vs.
Proof. intros He Hc. unfold voters. by rewrite He, Hc, take_app_length. Qed.

(** The scan of [find_quorum], on the voters [vs] in descending order above
    the accepted value. *)
Lemma find_quorum_spec n p i :
  i + n = VecProgress_voter_count p → VecProgress_voter_count p ≤ length (VecProgress_entries p) →
  NoDup (entry_id <$> VecProgress_entries p) →
  desc_above (VecProgress_quorum_accepted p) (voters p) →
  (∀ v, VecProgress_quorum_accepted p ≺ v →
    (∀ j e, voters p !! j = Some e → v ≼ progress e → j < i) → granted p v = false) →
  let p' := find_quorum p n i in
  VecProgress_quorum_set p' = VecProgress_quorum_set p ∧
  VecProgress_voter_count p' = VecProgress_voter_count p ∧
  VecProgress_entries p' = VecProgress_entries p ∧
  VecProgress_quorum_accepted p ≼ VecProgress_quorum_accepted p' ∧
  (∀ v, VecProgress_quorum_accepted p' ≺ v → granted p v = false) ∧
  (VecProgress_quorum_accepted p' = VecProgress_quorum_accepted p ∨
    granted p (VecProgress_quorum_accepted p') = true).
Proof.
  revert p i. induction n as [|n IH]; intros p i Hin Hlen Hnd Hs Hnot; cbn.
  { split_and!; auto using ord_le_refl. intros v Hv. apply Hnot; [done|].
    intros j e Hj _. unfold voters in Hj. apply lookup_take_Some in Hj as [_ ?]. lia. }
  destruct (lookup_lt_is_Some_2 (VecProgress_entries p) i) as [e He]; [lia|]. rewrite He.
  assert (voters p !! i = Some e) as Hv.
  { unfold voters. rewrite lookup_take_lt by lia. done. }
  assert (∀ j x, voters p !! j = Some x → i ≤ j → VecProgress_quorum_accepted p ≺ progress x →
    progress x ≼ progress e) as Hafter.
  { intros j x Hj Hij Hx. destruct (decide (i = j)) as [->|]; [simplify_eq; apply ord_le_refl|].
    unfold desc_above in Hs. eapply (StronglySorted_lookup _ _ i j) in Hs; eauto. lia. }
  destruct (leb_spec (progress e) (VecProgress_quorum_accepted p)) as [Hle|Hgt].
  { split_and!; auto using ord_le_refl. intros v Hqv. apply Hnot; [done|].
    intros j x Hj Hx. destruct (decide (j < i)); [done|].
    assert (progress x ≼ progress e) by (apply (Hafter j); [done|lia|ord]). exfalso; ord. }
  assert (∀ k x, take (S i) (VecProgress_entries p) !! k = Some x →
    voters p !! k = Some x ∧ progress e ≼ progress x) as Hpre.
  { intros k x [Hk Hlt]%lookup_take_Some. assert (voters p !! k = Some x) as Hk'.
    { unfold voters. rewrite lookup_take_lt by lia. done. }
    split; [done|]. destruct (decide (k = i)) as [->|]; [simplify_eq; apply ord_le_refl|].
    unfold desc_above in Hs. eapply (StronglySorted_lookup _ _ k i) in Hs; eauto. lia. }
  assert (NoDup (entry_id <$> take (S i) (VecProgress_entries p))) as Hnd'.
  { eapply sublist_NoDup; [done|]. apply fmap_sublist, sublist_take. }
  destruct (is_quorum _ _) eqn:Hq; cbn.
  - split_and!; auto using ord_lt_le.
    + intros v Hev. apply Hnot; [ord|]. intros j x Hj Hx. destruct (decide (j < i)); [done|].
      assert (progress x ≼ progress e) by (apply (Hafter j); [done|lia|ord]). exfalso; ord.
    + right. unfold granted. eapply is_quorum_mono; [exact Hnd'| |exact Hq].
      intros id _ (x & -> & [k Hk]%list_elem_of_lookup)%list_elem_of_fmap.
      destruct (Hpre k x Hk) as [Hx ?]. apply granters_elem. exists x. split_and!; try done.
      by eapply list_elem_of_lookup_2.
  - apply (IH (set_stat p (stat_is_quorum (VecProgress_stat p))) (S i)); cbn; [lia|done..|].
    intros v Hqv Hall. change (granted p v = false). unfold granted.
    eapply not_quorum_mono; [exact Hq|by apply NoDup_granters|].
    intros id (x & <- & Hx & Hvx)%granters_elem. apply list_elem_of_lookup in Hx as [k Hk].
    apply list_elem_of_fmap. exists x. split; [done|].
    apply list_elem_of_lookup. exists k. pose proof (Hall k x Hk Hvx).
    rewrite lookup_take_lt by lia. unfold voters in Hk. by apply lookup_take_Some in Hk as [? _].
Qed.

Lemma desc_above_mono qa qa' vs : qa ≼ qa' → desc_above qa vs → desc_above qa' vs.
Proof.
  intros Hle. unfold desc_above. induction 1 as [|x vs Hs IH Hall]; constructor; [done|].
  eapply Forall_impl; [done|]. cbn. intros y Hy ?. apply Hy. ord.
Qed.

(** Raising one element and moving it up keeps the order. *)
Lemma desc_above_move_up qa a b c e e' :
  desc_above qa (a ++ b ++ e :: c) → qa ≺ progress e' → progress e ≼ progress e' →
  (∀ x, x ∈ b → progress x ≺ progress e') →
  (∀ x, last a = Some x → progress e' ≼ progress x) →
  desc_above qa (a ++ e' :: b ++ c).
Proof.
  unfold desc_above. intros Hs Hqa Hee Hb Ha.
  apply StronglySorted_app in Hs as (Hac & Hsa & Hs).
  apply StronglySorted_app in Hs as (Hbc & Hsb & Hsc).
  inversion Hsc as [|?? Hsc' Hec]; subst. rewrite Forall_forall in Hec.
  apply StronglySorted_app. split_and!; [|done|].
  - intros x y Hx [->|[Hy|Hy]%elem_of_app]%elem_of_cons Hqy; [|set_solver..].
    destruct (last a) as [z|] eqn:Hl; [|apply last_None in Hl; set_solver].
    specialize (Ha z eq_refl). apply last_snoc_inv in Hl as [a' ->].
    apply elem_of_app in Hx as [Hx| ->%list_elem_of_singleton]; [|done].
    apply StronglySorted_app in Hsa as (Hz & _ & _).
    assert (progress z ≼ progress x); [|ord]. apply Hz; [done|set_solver|ord].
  - constructor.
    + apply StronglySorted_app. split_and!; try done. set_solver.
    + apply Forall_forall. intros y [Hy|Hy]%elem_of_app Hqy; [apply ord_lt_le; auto|].
      specialize (Hec y Hy Hqy). ord.
Qed.

(** An element at or below the accepted value may change below it. *)
Lemma desc_above_replace qa a c e e' :
  desc_above qa (a ++ e :: c) → progress e ≼ progress e' → progress e' ≼ qa →
  desc_above qa (a ++ e' :: c).
Proof.
  unfold desc_above. intros Hs Hee Hqa.
  apply StronglySorted_app in Hs as (Hac & Hsa & Hs).
  inversion Hs as [|?? Hsc Hec]; subst. rewrite Forall_forall in Hec.
  apply StronglySorted_app. split_and!; [|done|constructor; [done|]].
  - intros x y Hx [->|Hy]%elem_of_cons Hqy; [exfalso; ord|set_solver].
  - apply Forall_forall. intros y Hy Hqy. specialize (Hec y Hy Hqy). ord.
Qed.

(** What a monotone update of the entry [e] to [e'] establishes. *)
Record update_post p p' (l1 l2 : list E) (e e' : E) : Prop := {
  post_wf : VecProgress_wf p';
  post_shape : same_shape p p';
  post_entries : VecProgress_entries p' ≡ₚ l1 ++ e' :: l2;
  post_le : VecProgress_quorum_accepted p ≼ VecProgress_quorum_accepted p';
  post_new : VecProgress_quorum_accepted p' = VecProgress_quorum_accepted p ∨
    granted p' (VecProgress_quorum_accepted p') = true;
  post_granters : ∀ v i, i ∈ granters p v → i ∈ granters p' v;
}.

(** A learner never grants a value. *)
Lemma update_learner p l1 l2 e e' :
  VecProgress_wf p → VecProgress_entries p = l1 ++ e :: l2 →
  VecProgress_voter_count p ≤ length l1 → entry_id e' = entry_id e →
  update_post p (set_entries p (l1 ++ e' :: l2)) l1 l2 e e'.
Proof.
  intros [Hc Hn Hv Hs Ha] He Hlen Hid.
  assert (voters (set_entries p (l1 ++ e' :: l2)) = voters p) as Hvs.
  { unfold voters; cbn. rewrite He. by rewrite !take_app_le by done. }
  assert (∀ v, granted (set_entries p (l1 ++ e' :: l2)) v = granted p v) as Hg.
  { intros v. unfold granted, granters. by rewrite Hvs. }
  split; [split| | | | |]; rewrite ?Hvs; try done; cbn.
  - rewrite He in Hc. rewrite !length_app in *. cbn in *. lia.
  - rewrite He in Hn. rewrite !fmap_app in *. cbn in *. by rewrite Hid.
  - intros v. rewrite Hg. apply Ha.
  - split_and!; rewrite ?Hvs; try done. cbn. rewrite He, !fmap_app. cbn. by rewrite Hid.
  - apply ord_le_refl.
  - auto.
  - intros v i. unfold granters. by rewrite Hvs.
Qed.

(** A voter whose progress stays at or below the accepted value, or does not
    change. *)
Lemma granters_split p l1 c ls e v i :
  VecProgress_entries p = (l1 ++ e :: c) ++ ls →
  VecProgress_voter_count p = length (l1 ++ e :: c) →
  i ∈ granters p v ↔ (∃ x, entry_id x = i ∧ x ∈ l1 ++ c ∧ v ≼ progress x) ∨
    (i = entry_id e ∧ v ≼ progress e).
Proof.
  intros He Hc. rewrite granters_elem, (voters_app p _ _ He Hc). set_solver.
Qed.

Lemma update_voter_shape p l1 c ls e e' b1 b2 :
  VecProgress_wf p → VecProgress_entries p = (l1 ++ e :: c) ++ ls →
  VecProgress_voter_count p = length (l1 ++ e :: c) → entry_id e' = entry_id e →
  b1 ++ b2 ≡ₚ l1 ++ c →
  let p' := set_entries p ((b1 ++ e' :: b2) ++ ls) in
  voters p' = b1 ++ e' :: b2 ∧ same_shape p p' ∧ NoDup (entry_id <$> VecProgress_entries p') ∧
  VecProgress_voter_count p' ≤ length (VecProgress_entries p') ∧
  VecProgress_entries p' ≡ₚ l1 ++ e' :: c ++ ls ∧
  entry_id <$> voters p' ≡ₚ qs_ids (VecProgress_quorum_set p').
Proof.
  intros [Hc Hn Hv Hs Ha] He Hlen Hid Hperm. cbn zeta. set (p' := set_entries _ _).
  assert (length (b1 ++ b2) = length (l1 ++ c)) as Hl by (by rewrite Hperm).
  assert (voters p' = b1 ++ e' :: b2) as Hvs.
  { apply (voters_app p' _ ls); [done|]. cbn. rewrite Hlen.
    rewrite !length_app in *. cbn. lia. }
  pose proof (voters_app p _ _ He Hlen) as Hvs0.
  assert (entry_id <$> b1 ++ e' :: b2 ≡ₚ entry_id <$> l1 ++ e :: c) as Hids.
  { rewrite <- !Permutation_middle, !fmap_cons, Hid, Hperm. done. }
  assert (same_shape p p') as Hshape.
  { split_and!; [done|done| |].
    - cbn. rewrite He, !(fmap_app _ _ ls), Hids. done.
    - by rewrite Hvs, Hvs0. }
  split_and!; try done.
  - by apply (same_shape_wf_ids p).
  - cbn. rewrite Hlen, !length_app in *. cbn. lia.
  - cbn. rewrite <- app_assoc, <- !Permutation_middle. cbn.
    rewrite <- Permutation_middle. f_equiv. rewrite !app_assoc. by rewrite Hperm.
  - destruct Hshape as (-> & _ & _ & ->). done.
Qed.

Lemma update_voter_low p l1 c ls e e' :
  VecProgress_wf p → VecProgress_entries p = (l1 ++ e :: c) ++ ls →
  VecProgress_voter_count p = length (l1 ++ e :: c) → entry_id e' = entry_id e →
  progress e ≼ progress e' →
  progress e' ≼ VecProgress_quorum_accepted p ∨ progress e' = progress e →
  update_post p (set_entries p ((l1 ++ e' :: c) ++ ls)) l1 (c ++ ls) e e'.
Proof.
  intros Hwf He Hlen Hid Hle Hlow.
  destruct (update_voter_shape p l1 c ls e e' l1 c Hwf He Hlen Hid) as (Hvs & Hsh & Hnd & Hct & Hpe & Hqs);
    [done|].
  destruct Hwf as [_ Hn _ Hs Ha]. pose proof (voters_app p _ _ He Hlen) as Hvs0.
  assert (∀ v i, i ∈ granters p v → i ∈ granters (set_entries p ((l1 ++ e' :: c) ++ ls)) v) as Hgr.
  { intros v i. rewrite (granters_split p l1 c ls e v i He Hlen).
    rewrite (granters_split (set_entries p ((l1 ++ e' :: c) ++ ls)) l1 c ls e' v i);
      [|done|cbn; rewrite Hlen, !length_app; done].
    rewrite Hid. intros [?|[? ?]]; [auto|right]. split; [done|ord]. }
  split; [split; try done| | | | |]; try done; cbn.
  - rewrite Hvs. destruct Hlow as [?|Heq].
    + rewrite Hvs0 in Hs. by eapply desc_above_replace.
    + rewrite Hvs0 in Hs. unfold desc_above in *.
      apply StronglySorted_app in Hs as (Hac & Hsa & Hsc).
      inversion Hsc as [|?? Hsc' Hec]; subst. rewrite Forall_forall in Hec.
      apply StronglySorted_app. split_and!; [|done|constructor; [done|]].
      * intros x y Hx [->|Hy]%elem_of_cons; [rewrite Heq|]; apply Hac; set_solver.
      * apply Forall_forall. intros y Hy. rewrite Heq. by apply Hec.
  - intros v Hv. eapply (granted_false_mono p); [done|by apply Ha|done|].
    intros i. rewrite (granters_split p l1 c ls e v i He Hlen).
    rewrite (granters_split (set_entries p ((l1 ++ e' :: c) ++ ls)) l1 c ls e' v i);
      [|done|cbn; rewrite Hlen, !length_app; done].
    rewrite Hid. intros [?|[? Hve]]; [auto|right]. split; [done|].
    destruct Hlow as [?|<-]; [exfalso; ord|done].
  - apply ord_le_refl.
  - auto.
Qed.

(** The entries after [move_up]. *)
Lemma move_up_entries p l1 c ls e' :
  ∃ a b, l1 = a ++ b ∧
    move_up (set_entries p ((l1 ++ e' :: c) ++ ls)) (length l1) =
      (set_stat (set_entries p ((a ++ e' :: b ++ c) ++ ls)) (stat_move (VecProgress_stat p)), length a) ∧
    (∀ x, x ∈ b → progress x ≺ progress e') ∧
    (∀ x, last a = Some x → progress e' ≼ progress x).
Proof.
  unfold move_up. cbn. rewrite <- app_assoc. cbn.
  destruct (move_up_loop_spec l1 e' (c ++ ls)) as (a & b & -> & Heq & Hb & Ha).
  exists a, b. rewrite Heq. split_and!; try done.
  unfold set_entries, set_stat; cbn. do 2 f_equal. by rewrite <- !app_assoc, <- app_comm_cons, <- app_assoc.
Qed.

Section update_voter_high.
Context p a b c ls e e'
  (Hwf : VecProgress_wf p) (He : VecProgress_entries p = ((a ++ b) ++ e :: c) ++ ls)
  (Hlen : VecProgress_voter_count p = length ((a ++ b) ++ e :: c))
  (Hid : entry_id e' = entry_id e) (Hle : progress e ≼ progress e')
  (Hqa : VecProgress_quorum_accepted p ≺ progress e')
  (Hb : ∀ x, x ∈ b → progress x ≺ progress e')
  (Ha : ∀ x, last a = Some x → progress e' ≼ progress x).

Let p1 := set_entries p ((a ++ e' :: b ++ c) ++ ls).

Lemma high_shape :
  voters p1 = a ++ e' :: b ++ c ∧ same_shape p p1 ∧ NoDup (entry_id <$> VecProgress_entries p1) ∧
  VecProgress_voter_count p1 ≤ length (VecProgress_entries p1) ∧
  VecProgress_entries p1 ≡ₚ (a ++ b) ++ e' :: c ++ ls ∧
  entry_id <$> voters p1 ≡ₚ qs_ids (VecProgress_quorum_set p1).
Proof.
  apply (update_voter_shape p (a ++ b) c ls e e' a (b ++ c)); try done. by rewrite app_assoc.
Qed.

Lemma high_sorted : desc_above (VecProgress_quorum_accepted p) (voters p1).
Proof.
  destruct high_shape as (-> & _). destruct Hwf as [_ _ _ Hs _].
  rewrite (voters_app p _ _ He Hlen), <- app_assoc in Hs. by eapply desc_above_move_up.
Qed.

Lemma high_granters v i :
  i ∈ granters p1 v ↔ i ∈ granters p v ∨ (i = entry_id e ∧ v ≼ progress e').
Proof.
  rewrite (granters_split p (a ++ b) c ls e v i He Hlen), granters_elem.
  destruct high_shape as (-> & _). split.
  - intros (x & <- & Hx & Hv). rewrite elem_of_app, elem_of_cons, elem_of_app in Hx.
    destruct Hx as [?|[->|[?|?]]]; [left; left; set_solver|by right|left; left; set_solver..].
  - intros [[(x & <- & Hx & Hv)|[-> ?]]|[-> ?]].
    + exists x. set_solver.
    + exists e'. split_and!; [done|set_solver|ord].
    + exists e'. split_and!; [done|set_solver|done].
Qed.

(** When the old value was above the accepted one, no new value is accepted. *)
Lemma high_prev_above v :
  VecProgress_quorum_accepted p ≺ progress e → VecProgress_quorum_accepted p ≺ v →
  granted p1 v = false.
Proof.
  intros Hprev Hv. destruct high_shape as (_ & _ & Hnd & _). destruct Hwf as [_ _ _ _ Hacc].
  eapply (granted_false_mono p p1 v (omin v (progress e))); [done| |done|].
  - apply Hacc. destruct (omin_cases v (progress e)) as [->| ->]; done.
  - intros i [Hi|[-> _]]%high_granters.
    + apply granters_elem in Hi as (x & <- & ? & ?). apply granters_elem. exists x.
      split_and!; try done. pose proof (omin_l v (progress e)). ord.
    + apply (granters_split p (a ++ b) c ls e _ _ He Hlen). right. split; [done|].
      pose proof (omin_r v (progress e)). ord.
Qed.

(** A value that only voters before the moved one have reached is above the
    new value: nothing changed for it. *)
Lemma high_before v :
  VecProgress_quorum_accepted p ≺ v →
  (∀ j x, voters p1 !! j = Some x → v ≼ progress x → j < length a) → granted p1 v = false.
Proof.
  intros Hv Hbefore. destruct high_shape as (Hvs & _ & Hnd & _).
  destruct Hwf as [_ _ _ _ Hacc].
  assert (progress e' ≺ v) as Hnew.
  { apply ord_not_le. intros Hve. specialize (Hbefore (length a) e').
    rewrite Hvs, list_lookup_middle in Hbefore by done. specialize (Hbefore eq_refl Hve). lia. }
  eapply (granted_false_mono p p1 v v); [done|by apply Hacc|done|].
  intros i [Hi|[-> ?]]%high_granters; [done|exfalso; ord].
Qed.

Lemma update_voter_high :
  update_post p (let p2 := set_stat p1 (stat_move (VecProgress_stat p)) in
    if (progress e <=? VecProgress_quorum_accepted p)
    then find_quorum p2 (VecProgress_voter_count p2 - length a) (length a) else p2)
    (a ++ b) (c ++ ls) e e'.
Proof.
  destruct high_shape as (Hvs & Hsh & Hnd & Hct & Hpe & Hqs). cbn zeta.
  destruct (leb_spec (progress e) (VecProgress_quorum_accepted p)) as [Hprev|Hprev].
  - set (p2 := set_stat p1 (stat_move (VecProgress_stat p))).
    destruct (find_quorum_spec (VecProgress_voter_count p2 - length a) p2 (length a))
      as (Eqs & Evc & Ees & Hle' & Hacc & Hnew).
    + cbn. rewrite Hlen, !length_app. lia.
    + done.
    + done.
    + apply high_sorted.
    + intros v Hv Hbefore. by apply high_before.
    + set (p3 := find_quorum p2 _ _) in *.
      assert (voters p3 = voters p1) as Hvs3.
      { unfold voters. rewrite Evc, Ees. done. }
      assert (∀ v, granters p3 v = granters p1 v) as Hgr3 by (intros; unfold granters; by rewrite Hvs3).
      assert (∀ v, granted p3 v = granted p1 v) as Hg3.
      { intros. unfold granted. by rewrite Hgr3, Eqs. }
      destruct Hsh as (H1 & H2 & H3 & H4).
      split; [split| | | | |]; rewrite ?Hvs3, ?Ees, ?Evc, ?Eqs; try done.
      * eapply desc_above_mono; [exact Hle'|apply high_sorted].
      * intros v Hv. rewrite Hg3. by apply Hacc.
      * split_and!; rewrite ?Hvs3, ?Ees, ?Evc, ?Eqs; done.
      * rewrite Hg3. exact Hnew.
      * intros v i Hi. rewrite Hgr3. apply high_granters. auto.
  - split; [split| | | | |]; try done; cbn.
    + apply high_sorted.
    + intros v Hv. by apply high_prev_above.
    + apply ord_le_refl.
    + auto.
    + intros v i Hi. apply high_granters. auto.
Qed.
End update_voter_high.

Lemma update_at_spec p l1 l2 e e' :
  VecProgress_wf p → VecProgress_entries p = l1 ++ e :: l2 →
  entry_id e' = entry_id e → progress e ≼ progress e' →
  update_post p (update_at (set_entries p (l1 ++ e' :: l2)) (length l1) e' (progress e)) l1 l2 e e'.
Proof.
  intros Hwf He Hid Hle.
  destruct (decide (VecProgress_voter_count p ≤ length l1)) as [Hlearner|Hvoter].
  { pose proof (update_learner p l1 l2 e e' Hwf He Hlearner Hid). unfold update_at. cbn.
    rewrite decide_True by done. by destruct (cmp _ _). }
  assert (∃ c ls, l2 = c ++ ls ∧ VecProgress_voter_count p = length (l1 ++ e :: c))
    as (c & ls & -> & Hlen).
  { exists (take (VecProgress_voter_count p - length l1 - 1) l2),
      (drop (VecProgress_voter_count p - length l1 - 1) l2).
    rewrite take_drop. split; [done|]. pose proof (wf_count p Hwf) as Hc.
    rewrite He in Hc. rewrite !length_app in *. cbn in *. rewrite length_take. lia. }
  assert (l1 ++ e :: c ++ ls = (l1 ++ e :: c) ++ ls) as Hassoc by (by rewrite <- app_assoc).
  rewrite Hassoc in He.
  replace (l1 ++ e' :: c ++ ls) with ((l1 ++ e' :: c) ++ ls) by (by rewrite <- app_assoc).
  unfold update_at. cbn [VecProgress_voter_count set_entries VecProgress_quorum_accepted].
  rewrite decide_False by done.
  destruct (cmp (progress e) (progress e')) eqn:Hcmp.
  { apply cmp_eq in Hcmp. apply update_voter_low; auto. }
  all: destruct (ltb_spec (VecProgress_quorum_accepted p) (progress e')) as [Hqa|Hqa];
    [|apply update_voter_low; auto].
  all: destruct (move_up_entries p l1 c ls e') as (a & b & -> & -> & Hb & Ha);
    by apply (update_voter_high p a b c ls e e').
Qed.

Lemma wf_set_stat p st : VecProgress_wf (set_stat p st) ↔ VecProgress_wf p.
Proof. split; intros [????]; by split. Qed.

Lemma update_post_set_stat p st p' l1 l2 e e' :
  update_post (set_stat p st) p' l1 l2 e e' → update_post p p' l1 l2 e e'.
Proof. intros [??????]; by split. Qed.

(** [f] updates an entry monotonically. *)
Definition monotone_update (f : E → E) : Prop :=
  ∀ e, entry_id (f e) = entry_id e ∧ progress e ≼ progress (f e).

Lemma update_entry_with_Ok p id f :
  VecProgress_wf p → monotone_update f → id ∈ entry_id <$> VecProgress_entries p →
  ∃ p' l1 e l2, update_entry_with p id f = Ok p' ∧ VecProgress_entries p = l1 ++ e :: l2 ∧
    entry_id e = id ∧ update_post p p' l1 l2 e (f e).
Proof.
  intros Hwf Hf Hin. unfold update_entry_with, VecProgress_index. cbn.
  destruct (position (VecProgress_entries p) id) as [i|] eqn:Hi; [|by apply position_None in Hi].
  apply position_Some in Hi as (l1 & e & l2 & He & <- & Hid).
  rewrite He, list_lookup_middle by done. destruct (Hf e) as [Hfid Hfle].
  rewrite list_insert_middle'.
  eexists _, l1, e, l2. split_and!; try done.
  eapply update_post_set_stat. apply (update_at_spec (set_stat p _)); try done.
  by apply wf_set_stat.
Qed.

Lemma update_entry_with_Err p id f :
  id ∉ entry_id <$> VecProgress_entries p →
  update_entry_with p id f = Err (set_stat p (stat_update (VecProgress_stat p))).
Proof.
  intros Hin. unfold update_entry_with, VecProgress_index. cbn.
  by apply position_None in Hin as ->.
Qed.

Lemma replace_update p entry :
  replace p entry = update_entry_with p (entry_id entry) (λ _, entry).
Proof. done. Qed.

(** [update_entry_with] runs its closure on the entry of the id. *)
Lemma update_entry_with_at p id f e :
  try_get p id = Some e → entry_id (f e) = id → update_entry_with p id f = replace p (f e).
Proof.
  intros (i & Hi & He)%bind_Some Hid. unfold update_entry_with, replace. rewrite Hid.
  unfold VecProgress_index in *. cbn. by rewrite Hi, He.
Qed.

Lemma replace_Ok p entry :
  VecProgress_wf p →
  (∀ e, e ∈ VecProgress_entries p → entry_id e = entry_id entry → progress e ≼ progress entry) →
  entry_id entry ∈ entry_id <$> VecProgress_entries p →
  ∃ p' l1 e l2, replace p entry = Ok p' ∧ VecProgress_entries p = l1 ++ e :: l2 ∧
    entry_id e = entry_id entry ∧ update_post p p' l1 l2 e entry.
Proof.
  intros Hwf Hle Hin. unfold replace, VecProgress_index. cbn.
  destruct (position (VecProgress_entries p) (entry_id entry)) as [i|] eqn:Hi;
    [|by apply position_None in Hi].
  apply position_Some in Hi as (l1 & e & l2 & He & <- & Hid).
  rewrite He, list_lookup_middle by done.
  rewrite list_insert_middle'.
  eexists _, l1, e, l2. split_and!; try done.
  eapply update_post_set_stat. apply (update_at_spec (set_stat p _)); try done.
  - by apply wf_set_stat.
  - apply Hle; [|done]. rewrite He. set_solver.
Qed.

Lemma update_post_accepted p p' l1 l2 e e' :
  VecProgress_wf p → update_post p p' l1 l2 e e' → accepted_by_quorum p → accepted_by_quorum p'.
Proof.
  intros Hwf [_ (Hqs & _) _ Hle Hnew Hgr] [Hd|Hg]; destruct Hnew as [Heq|?]; unfold accepted_by_quorum; auto.
  - left. by rewrite Heq.
  - right. rewrite Heq. unfold granted in *. rewrite Hqs.
    eapply is_quorum_mono; [| |exact Hg]; [by apply NoDup_granters, wf_ids|auto].
Qed.

(** ** Lowering an entry *)

Lemma desc_above_move_down qa a b1 b2 e e' :
  desc_above qa (a ++ e :: b1 ++ b2) → progress e' ≼ progress e →
  (∀ x, x ∈ b1 → progress e' ≺ progress x) →
  (∀ x, head b2 = Some x → progress x ≼ progress e') →
  desc_above qa (a ++ b1 ++ e' :: b2).
Proof.
  unfold desc_above. intros Hs Hee Hb1 Hb2.
  apply StronglySorted_app in Hs as (Hac & Hsa & Hs).
  inversion Hs as [|?? Hs' Hec]; subst. rewrite Forall_forall in Hec.
  apply StronglySorted_app in Hs' as (H12 & Hs1 & Hs2).
  apply StronglySorted_app. split_and!; [|done|].
  - intros x y Hx. rewrite elem_of_app, elem_of_cons. intros [Hy|[->|Hy]] Hqy;
      [apply Hac; set_solver| |apply Hac; set_solver].
    assert (progress e ≼ progress x); [|ord]. apply Hac; [done|set_solver|ord].
  - apply StronglySorted_app. split_and!; [|done|constructor; [done|]].
    + intros x y Hx [->|Hy]%elem_of_cons Hqy; [apply ord_lt_le; auto|auto].
    + apply Forall_forall. intros y Hy Hqy. destruct b2 as [|z b2]; [set_solver|].
      specialize (Hb2 z eq_refl). apply elem_of_cons in Hy as [->|Hy]; [done|].
      inversion Hs2 as [|?? _ Hz]; subst. rewrite Forall_forall in Hz.
      specialize (Hz y Hy Hqy). ord.
Qed.

(** What a reset establishes: the accepted value is not withdrawn. *)
Record reset_post p p' (l1 l2 : list E) (e' : E) : Prop := {
  reset_wf : VecProgress_wf p';
  reset_shape : same_shape p p';
  reset_entries : VecProgress_entries p' ≡ₚ l1 ++ e' :: l2;
  reset_accepted : VecProgress_quorum_accepted p' = VecProgress_quorum_accepted p;
}.

Lemma reset_voter p l1 b1 b2 ls e e' :
  VecProgress_wf p → VecProgress_entries p = (l1 ++ e :: b1 ++ b2) ++ ls →
  VecProgress_voter_count p = length (l1 ++ e :: b1 ++ b2) → entry_id e' = entry_id e →
  progress e' ≼ progress e → (∀ x, x ∈ b1 → progress e' ≺ progress x) →
  (∀ x, head b2 = Some x → progress x ≼ progress e') →
  reset_post p (set_entries p ((l1 ++ b1 ++ e' :: b2) ++ ls)) l1 ((b1 ++ b2) ++ ls) e'.
Proof.
  intros Hwf He Hlen Hid Hle Hb1 Hb2.
  destruct (update_voter_shape p l1 (b1 ++ b2) ls e e' (l1 ++ b1) b2 Hwf He Hlen Hid)
    as (Hvs & Hsh & Hnd & Hct & Hpe & Hqs); [by rewrite app_assoc|].
  rewrite <- app_assoc in Hvs, Hsh, Hnd, Hct, Hpe, Hqs. cbn in Hvs, Hsh, Hnd, Hct, Hpe, Hqs.
  pose proof Hwf as [_ Hn _ Hs Ha]. rewrite (voters_app p _ _ He Hlen) in Hs.
  rewrite <- !app_assoc in *. cbn in *.
  split; [split; try done| | |]; try done; cbn.
  - rewrite Hvs. by eapply desc_above_move_down.
  - intros v Hv. eapply (granted_false_mono p _ v v); [done|by apply Ha|done|].
    intros i. rewrite !granters_elem, Hvs, (voters_app p (l1 ++ e :: b1 ++ b2) ls);
      [|rewrite He; by rewrite <- !app_assoc, <- app_comm_cons, <- app_assoc|done].
    intros (x & <- & Hx & Hvx). rewrite !elem_of_app, elem_of_cons in Hx.
    destruct Hx as [?|[?|[->|?]]]; [exists x; set_solver..| |exists x; set_solver].
    exists e. split_and!; [done|set_solver|ord].
Qed.

Lemma reset_entry_with_spec p id f :
  VecProgress_wf p →
  (∀ e, entry_id (f e) = entry_id e ∧ progress (f e) ≼ progress e) →
  id ∈ entry_id <$> VecProgress_entries p →
  ∃ p' i l1 e l2, reset_entry_with p id f = Some (p', i) ∧
    VecProgress_entries p = l1 ++ e :: l2 ∧ entry_id e = id ∧
    VecProgress_entries p' !! i = Some (f e) ∧ reset_post p p' l1 l2 (f e).
Proof.
  intros Hwf Hf Hin. unfold reset_entry_with, VecProgress_index. cbn.
  destruct (position (VecProgress_entries p) id) as [i|] eqn:Hi; [|by apply position_None in Hi].
  apply position_Some in Hi as (l1 & e & l2 & He & <- & Hid). cbn.
  rewrite He, list_lookup_middle by done. cbn. rewrite list_insert_middle'.
  destruct (Hf e) as [Hfid Hfle]. pose proof (wf_count p Hwf) as Hc. case_decide as Hv.
  2:{ eexists _, _, l1, e, l2. split_and!; try done; [cbn; by rewrite list_lookup_middle|].
    destruct (update_learner p l1 l2 e (f e) Hwf He ltac:(lia) Hfid) as [? ? ? _ _ _]. by split. }
  assert (∃ c ls, l2 = c ++ ls ∧ VecProgress_voter_count p = length (l1 ++ e :: c))
    as (c & ls & -> & Hlen).
  { exists (take (VecProgress_voter_count p - length l1 - 1) l2),
      (drop (VecProgress_voter_count p - length l1 - 1) l2).
    rewrite take_drop. split; [done|].
    rewrite He in Hc. rewrite !length_app in *. cbn in *. rewrite length_take. lia. }
  rewrite (app_comm_cons _ _ e), app_assoc in He.
  destruct (ltb_spec (progress (f e)) (progress e)) as [Hlt|Hge].
  - unfold move_down. cbn. rewrite Hlen. rewrite length_app. cbn.
    destruct (move_down_loop_spec l1 (f e) c ls (length l1 + S (length c)))
      as (b1 & b2 & -> & Heq & Hb1 & Hb2); [lia|].
    rewrite Heq. eexists _, _, l1, e, _. split_and!; try done; cbn.
    + rewrite app_assoc, list_lookup_middle; [done|]. by rewrite length_app.
    + destruct (reset_voter p l1 b1 b2 ls e (f e) Hwf He Hlen Hfid Hfle Hb1 Hb2) as [Hw Hs Hp _].
      rewrite <- !app_assoc in Hw, Hs, Hp. cbn in Hw, Hs, Hp. rewrite <- !app_assoc in Hp.
      rewrite <- (app_assoc b1 b2 ls). by split; [destruct Hw; split|..].
  - assert (progress (f e) = progress e) as Heq by ord.
    eexists _, _, l1, e, _. split_and!; try done; cbn.
    + by rewrite list_lookup_middle.
    + destruct (update_voter_low p l1 c ls e (f e) Hwf He Hlen Hfid) as [Hw Hs Hp _ _ _];
        [rewrite Heq; apply ord_le_refl|by right|].
      rewrite <- !app_assoc in Hw, Hs, Hp. by split.
Qed.

(** ** The reference value *)

Lemma quorum_accepted_ref_spec p :
  (∀ e, e ∈ voters p → granted p (progress e) = true → progress e ≼ quorum_accepted_ref p) ∧
  (quorum_accepted_ref p = default_val ∨
   ∃ e, e ∈ voters p ∧ granted p (progress e) = true ∧ quorum_accepted_ref p = progress e).
Proof.
  unfold quorum_accepted_ref. induction (voters p) as [|x vs [IHle IHin]]; cbn.
  { split; [set_solver|by left]. }
  set (acc := foldr _ _ _) in *. destruct (granted p (progress x)) eqn:Hx.
  - split.
    + intros e [->|He]%elem_of_cons Hg; [apply omax_l|].
      specialize (IHle e He Hg). pose proof (omax_r (progress x) acc). ord.
    + destruct (omax_cases (progress x) acc) as [->| ->]; [right; exists x; set_solver|].
      destruct IHin as [?|(e & ? & ? & ?)]; [by left|right; exists e; set_solver].
  - split.
    + intros e [->|He]%elem_of_cons Hg; [congruence|auto].
    + destruct IHin as [?|(e & ? & ? & ?)]; [by left|right; exists e; set_solver].
Qed.

(** The least progress of a non-empty list of voters. *)
Lemma list_min_progress (l : list E) :
  l ≠ [] → ∃ e, e ∈ l ∧ ∀ x, x ∈ l → progress e ≼ progress x.
Proof.
  induction l as [|x l IH]; [done|]. intros _. destruct l as [|y l].
  { exists x. split; [set_solver|]. intros z ->%list_elem_of_singleton. apply ord_le_refl. }
  destruct IH as (e & He & Hmin); [done|]. destruct (ord_total (progress x) (progress e)).
  - exists x. split; [set_solver|]. intros z [->|Hz]%elem_of_cons; [apply ord_le_refl|].
    specialize (Hmin z Hz). ord.
  - exists e. split; [set_solver|]. intros z [->|Hz]%elem_of_cons; auto.
Qed.

(** A granted value is at most some granted progress of a voter that the same
    voters have reached. *)
Lemma granted_attained p v :
  NoDup (entry_id <$> VecProgress_entries p) → is_quorum (VecProgress_quorum_set p) [] = false →
  granted p v = true → ∃ e, e ∈ voters p ∧ v ≼ progress e ∧ granted p (progress e) = true.
Proof.
  intros Hnd Hnil Hg.
  destruct (list_min_progress (filter (λ e, (v <=? progress e) = true) (voters p))) as (e & He & Hmin).
  { intros Hempty. unfold granted, granters in Hg. rewrite Hempty in Hg. cbn in Hg. congruence. }
  apply list_elem_of_filter in He as [Hve He]. apply leb_true in Hve.
  exists e. split_and!; try done. unfold granted in *.
  eapply is_quorum_mono; [| |exact Hg]; [by apply NoDup_granters|].
  intros i _ (x & <- & Hx & Hvx)%granters_elem. apply granters_elem. exists x. split_and!; try done.
  apply Hmin. apply list_elem_of_filter. split; [by apply leb_true|done].
Qed.

Lemma quorum_accepted_eq_ref p :
  VecProgress_wf p → accepted_by_quorum p → is_quorum (VecProgress_quorum_set p) [] = false →
  VecProgress_quorum_accepted p = quorum_accepted_ref p.
Proof.
  intros Hwf Hacc Hnil. destruct (quorum_accepted_ref_spec p) as [Hle Hin].
  pose proof (wf_accepted p Hwf) as Hmax. apply ord_le_antisym.
  - destruct Hacc as [->|Hg]; [apply default_le|].
    destruct (granted_attained p _ (wf_ids p Hwf) Hnil Hg) as (e & He & Hv & Hge).
    specialize (Hle e He Hge). ord.
  - destruct Hin as [->|(e & He & Hg & ->)]; [apply default_le|].
    apply ord_not_lt. intros Hlt. rewrite Hmax in Hg; done.
Qed.

(** ** Building a tracker *)

Lemma new_wf (qs : QS) learner_ids default_entry :
  is_quorum qs [] = false → NoDup (qs_ids qs ++ learner_ids) →
  (∀ i, entry_id (default_entry i) = i ∧ progress (default_entry i) = default_val) →
  let p := VecProgress_new qs learner_ids default_entry in
  VecProgress_wf p ∧ accepted_by_quorum p ∧
  entry_id <$> VecProgress_entries p = qs_ids qs ++ learner_ids ∧
  (∀ e, e ∈ VecProgress_entries p → e = default_entry (entry_id e)).
Proof.
  intros Hnil Hnd Hde. cbn zeta. set (p := VecProgress_new _ _ _).
  assert (∀ l : list N, entry_id <$> (default_entry <$> l) = l) as Hids.
  { intros l. rewrite <- list_fmap_compose. rewrite <- (list_fmap_id l) at 2.
    apply list_fmap_ext. intros i x _. apply Hde. }
  assert (voters p = default_entry <$> qs_ids qs) as Hvs by (by apply (voters_app p _ (default_entry <$> learner_ids))).
  assert (∀ e, e ∈ VecProgress_entries p → e = default_entry (entry_id e)) as Hent.
  { intros e. cbn. rewrite <- fmap_app. intros (i & -> & _)%list_elem_of_fmap.
    by rewrite (proj1 (Hde i)). }
  split_and!; [split| | |]; try done.
  - cbn. rewrite length_app. lia.
  - cbn. by rewrite fmap_app, !Hids.
  - by rewrite Hvs, Hids.
  - rewrite Hvs. cbn. apply StronglySorted_lookup_2. intros i j x y _ Hj _ Hlt.
    apply list_lookup_fmap_Some in Hj as (k & -> & _). rewrite (proj2 (Hde k)) in *.
    by apply ord_lt_irrefl in Hlt.
  - intros v Hv. unfold granted. eapply not_quorum_mono; [exact Hnil| |].
    + apply NoDup_granters. cbn. by rewrite fmap_app, !Hids.
    + intros i (x & <- & Hx & Hvx)%granters_elem. rewrite Hvs in Hx.
      apply list_elem_of_fmap in Hx as (k & -> & _). rewrite (proj2 (Hde k)) in Hvx.
      cbn in Hv. exfalso. ord.
  - by left.
  - cbn. by rewrite fmap_app, !Hids.
Qed.

(** The fold of [upgrade_quorum_set]: entries not yet replaced have the
    default progress. *)
Lemma upgrade_fold_spec items np :
  NoDup (entry_id <$> items) → VecProgress_wf np → accepted_by_quorum np →
  (∀ e, e ∈ VecProgress_entries np → entry_id e ∈ entry_id <$> items → progress e = default_val) →
  let np' := foldl (λ np item, result_state (replace np item)) np items in
  VecProgress_wf np' ∧ accepted_by_quorum np' ∧ same_shape np np' ∧
  (∀ e, e ∈ VecProgress_entries np' →
    e ∈ items ∨ e ∈ VecProgress_entries np ∧ entry_id e ∉ entry_id <$> items).
Proof.
  revert np. induction items as [|it items IH]; intros np Hnd Hwf Hacc Hdef; cbn.
  { split_and!; try done. intros e He. right. split; [done|set_solver]. }
  apply NoDup_cons in Hnd as [Hnew Hnd].
  destruct (decide (entry_id it ∈ entry_id <$> VecProgress_entries np)) as [Hin|Hout].
  - destruct (replace_Ok np it Hwf) as (np1 & l1 & e & l2 & Hr & He & Hid & Hpost); [|done|].
    { intros e He Heq. rewrite (Hdef e He); [apply default_le|]. rewrite Heq. set_solver. }
    rewrite Hr. cbn. pose proof Hpost as [Hwf1 Hsh1 Hent1 _ _ _].
    assert (∀ x, x ∈ VecProgress_entries np1 → x = it ∨ x ∈ VecProgress_entries np ∧ entry_id x ≠ entry_id it)
      as Hx.
    { intros x. rewrite Hent1, He, elem_of_app, elem_of_cons. intros Hx.
      pose proof (wf_ids np Hwf) as Hn. rewrite He, fmap_app in Hn. cbn in Hn.
      apply NoDup_app in Hn as (_ & Hn1 & [Hn2 _]%NoDup_cons).
      destruct Hx as [Hx|[->|Hx]]; [right|by left|right]; (split; [set_solver|]); intros Heq.
      - apply (Hn1 (entry_id x)); [by apply list_elem_of_fmap_2|]. rewrite Heq, <- Hid. set_solver.
      - apply Hn2. rewrite Hid, <- Heq. by apply list_elem_of_fmap_2. }
    destruct (IH np1 Hnd Hwf1) as (Hwf' & Hacc' & Hsh' & Hent').
    + by apply (update_post_accepted np np1 l1 l2 e it).
    + intros x Hx' Hin'. destruct (Hx x Hx') as [->|[? ?]]; [done|]. apply Hdef; set_solver.
    + split_and!; try done.
      * destruct Hsh1 as (?&?&H3&H4), Hsh' as (?&?&H3'&H4'). split_and!; [congruence..| |].
        -- by rewrite H3', H3.
        -- by rewrite H4', H4.
      * intros x Hx'. destruct (Hent' x Hx') as [?|[Hx1 Hx2]]; [set_solver|].
        destruct (Hx x Hx1) as [->|[? ?]]; [set_solver|]. right. set_solver.
  - rewrite replace_update, update_entry_with_Err by done. cbn.
    destruct (IH (set_stat np (stat_update (VecProgress_stat np)))) as (Hwf' & Hacc' & Hsh' & Hent');
      try done.
    + by apply wf_set_stat.
    + cbn. intros x Hx Hin. apply Hdef; set_solver.
    + split_and!; try done. intros x Hx. destruct (Hent' x Hx) as [?|[Hx1 Hx2]]; [set_solver|].
      right. split; [done|]. cbn in Hx1. intros [Heq|?]%elem_of_cons; [|done].
      apply Hout. rewrite <- Heq. by apply list_elem_of_fmap_2.
Qed.

Lemma position_NoDup es e :
  NoDup (entry_id <$> es) → e ∈ es → ∃ i, position es (entry_id e) = Some i ∧ es !! i = Some e.
Proof.
  induction es as [|x es IH]; cbn; [set_solver|].
  intros [Hx Hn]%NoDup_cons [->|He]%elem_of_cons.
  { exists 0. by rewrite decide_True. }
  destruct (IH Hn He) as (i & Hi & ?). exists (S i). rewrite Hi. case_decide as Heq; [|done].
  exfalso. apply Hx. rewrite Heq. by apply list_elem_of_fmap_2.
Qed.

Lemma try_get_Some p e :
  VecProgress_wf p → e ∈ VecProgress_entries p → try_get p (entry_id e) = Some e.
Proof.
  intros Hwf He. destruct (position_NoDup _ _ (wf_ids p Hwf) He) as (i & Hi & ?).
  unfold try_get, VecProgress_index. by rewrite Hi.
Qed.

Lemma try_get_elem p id e :
  try_get p id = Some e → e ∈ VecProgress_entries p ∧ entry_id e = id.
Proof.
  intros (i & Hi & Ho)%bind_Some. apply position_Some in Hi as (a & x & c & He & <- & Hx).
  rewrite He, list_lookup_middle in Ho by done. injection Ho as <-. rewrite He. split; [set_solver|done].
Qed.

Lemma replace_quorum_accepted p entry old :
  VecProgress_wf p → accepted_by_quorum p →
  try_get p (entry_id entry) = Some old → progress old ≼ progress entry →
  ∃ p', replace p entry = Ok p' ∧ VecProgress_wf p' ∧ accepted_by_quorum p' ∧
    VecProgress_quorum_set p' = VecProgress_quorum_set p ∧
    VecProgress_quorum_accepted p ≼ VecProgress_quorum_accepted p'.
Proof.
  intros Hwf Hacc Hold Hle. destruct (try_get_elem _ _ _ Hold) as [Hin Hid].
  destruct (replace_Ok p entry Hwf) as (p' & l1 & x & l2 & -> & He & Hx & Hpost).
  - intros y Hy Hyid. rewrite <- Hyid, (try_get_Some p y) in Hold by done. by injection Hold as ->.
  - rewrite <- Hid. by apply list_elem_of_fmap_2.
  - exists p'. split; [done|]. pose proof Hpost as [? (? & _) _ ? _ _]. split_and!; try done.
    by apply (update_post_accepted p p' l1 l2 x entry).
Qed.

Lemma upgrade_quorum_set_spec p qs learner_ids default_entry :
  VecProgress_wf p → is_quorum qs [] = false → NoDup (qs_ids qs ++ learner_ids) →
  (∀ i, entry_id (default_entry i) = i ∧ progress (default_entry i) = default_val) →
  let p' := upgrade_quorum_set p qs learner_ids default_entry in
  VecProgress_wf p' ∧ accepted_by_quorum p' ∧ VecProgress_quorum_set p' = qs ∧
  entry_id <$> VecProgress_entries p' ≡ₚ qs_ids qs ++ learner_ids ∧
  (∀ i, i ∈ qs_ids qs ++ learner_ids → try_get p' i = Some (default (default_entry i) (try_get p i))).
Proof.
  intros Hwf Hnil Hnd Hde. cbn zeta. unfold upgrade_quorum_set.
  destruct (new_wf qs learner_ids default_entry Hnil Hnd Hde) as (Hwf0 & Hacc0 & Hids0 & Hent0).
  set (np := set_stat (VecProgress_new qs learner_ids default_entry) (VecProgress_stat p)).
  destruct (upgrade_fold_spec (VecProgress_entries p) np) as (Hwf' & Hacc' & (Hqs & _ & Hids & _) & Hent).
  - by apply wf_ids.
  - by apply wf_set_stat.
  - done.
  - intros e He _. cbn in He. rewrite (Hent0 e He). apply Hde.
  - set (p' := foldl _ np _) in *. split_and!; try done.
    + rewrite Hids. cbn [VecProgress_entries np set_stat]. by rewrite Hids0.
    + intros i Hi. assert (i ∈ entry_id <$> VecProgress_entries p') as Hi'.
      { rewrite Hids. cbn [VecProgress_entries np set_stat]. by rewrite Hids0. }
      apply list_elem_of_fmap in Hi' as (e & -> & He). rewrite (try_get_Some p' e Hwf' He).
      destruct (Hent e He) as [Hold|[Hnew Hnot]].
      * by rewrite (try_get_Some p e Hwf Hold).
      * rewrite <- position_None in Hnot. unfold try_get, VecProgress_index. rewrite Hnot. cbn.
        by rewrite <- (Hent0 e Hnew).
Qed.

(** ** Properties *)

Definition default_entries (default_entry : N → E) : Prop :=
  ∀ i, entry_id (default_entry i) = i ∧ progress (default_entry i) = default_val.

(** Trackers built by [new], monotone updates and [upgrade_quorum_set]. *)
Inductive reachable : VecProgress → Prop :=
| reachable_new qs learner_ids default_entry :
    is_quorum qs [] = false → NoDup (qs_ids qs ++ learner_ids) → default_entries default_entry →
    reachable (VecProgress_new qs learner_ids default_entry)
| reachable_update p id f :
    reachable p → monotone_update f → reachable (result_state (update_entry_with p id f))
| reachable_upgrade p qs learner_ids default_entry :
    reachable p → is_quorum qs [] = false → NoDup (qs_ids qs ++ learner_ids) →
    default_entries default_entry →
    reachable (upgrade_quorum_set p qs learner_ids default_entry).

Lemma reachable_inv p :
  reachable p →
  VecProgress_wf p ∧ accepted_by_quorum p ∧ is_quorum (VecProgress_quorum_set p) [] = false.
Proof.
  induction 1 as [qs ls de Hq Hn Hd|p id f _ (Hwf & Hacc & Hq) Hf|p qs ls de _ (Hwf & Hacc & Hq) Hq' Hn Hd].
  - destruct (new_wf qs ls de Hq Hn Hd) as (? & ? & _). done.
  - destruct (decide (id ∈ entry_id <$> VecProgress_entries p)) as [Hin|Hout].
    + destruct (update_entry_with_Ok p id f Hwf Hf Hin) as (p' & l1 & e & l2 & -> & He & _ & Hpost).
      cbn. pose proof Hpost as [Hwf' (-> & _) _ _ _ _]. split_and!; try done.
      by apply (update_post_accepted p p' l1 l2 e (f e)).
    + rewrite update_entry_with_Err by done. cbn. split_and!; try done. by apply wf_set_stat.
  - destruct (upgrade_quorum_set_spec p qs ls de Hwf Hq' Hn Hd) as (? & ? & -> & _). done.
Qed.

(** C18: the incrementally maintained [quorum_accepted] is the greatest
    progress of a voter that a quorum has reached, as computed by checking
    every voter, in every tracker built by [new], monotone updates and changes
    of the quorum set. *)
Theorem quorum_accepted_correct p :
  reachable p → VecProgress_quorum_accepted p = quorum_accepted_ref p.
Proof. intros (? & ? & ?)%reachable_inv. by apply quorum_accepted_eq_ref. Qed.

(** A monotone update keeps the invariant of the tracker (unique ids,
    voters above the accepted value sorted, no greater value accepted by a
    quorum), replaces exactly one entry, and never lowers [quorum_accepted];
    an unknown id is an error that changes nothing but the statistics. *)
Theorem progress_update_invariant p id f :
  VecProgress_wf p → monotone_update f →
  match update_entry_with p id f with
  | Ok p' =>
      ∃ l1 e l2, VecProgress_entries p = l1 ++ e :: l2 ∧ entry_id e = id ∧
        VecProgress_entries p' ≡ₚ l1 ++ f e :: l2 ∧ VecProgress_wf p' ∧
        VecProgress_quorum_accepted p ≼ VecProgress_quorum_accepted p'
  | Err p' =>
      id ∉ entry_id <$> VecProgress_entries p ∧
      p' = set_stat p (stat_update (VecProgress_stat p))
  end.
Proof.
  intros Hwf Hf. destruct (decide (id ∈ entry_id <$> VecProgress_entries p)) as [Hin|Hout].
  - destruct (update_entry_with_Ok p id f Hwf Hf Hin) as (p' & l1 & e & l2 & -> & He & Hid & [????]).
    by exists l1, e, l2.
  - by rewrite update_entry_with_Err.
Qed.

(** Lowering an entry, as on a log reversion, does not withdraw the
    accepted value, keeps the invariant, and returns the changed entry. *)
Theorem progress_reset_keeps_accepted p id f :
  VecProgress_wf p → (∀ e, entry_id (f e) = entry_id e ∧ progress (f e) ≼ progress e) →
  id ∈ entry_id <$> VecProgress_entries p →
  ∃ p' i e, reset_entry_with p id f = Some (p', i) ∧
    e ∈ VecProgress_entries p ∧ entry_id e = id ∧
    VecProgress_entries p' !! i = Some (f e) ∧ VecProgress_wf p' ∧
    VecProgress_quorum_accepted p' = VecProgress_quorum_accepted p.
Proof.
  intros Hwf Hf Hin.
  destruct (reset_entry_with_spec p id f Hwf Hf Hin) as (p' & i & l1 & e & l2 & ? & He & ? & ? & [????]).
  exists p', i, e. split_and!; try done. rewrite He. set_solver.
Qed.

(** [upgrade_quorum_set] tracks exactly the voters and learners of the new
    quorum set, inherits the entry of every node that was tracked before, and
    its accepted value is the one its own quorums have reached. *)
Theorem upgrade_inherits_progress p qs learner_ids default_entry :
  VecProgress_wf p → is_quorum qs [] = false → NoDup (qs_ids qs ++ learner_ids) →
  default_entries default_entry →
  let p' := upgrade_quorum_set p qs learner_ids default_entry in
  VecProgress_wf p' ∧ VecProgress_quorum_set p' = qs ∧
  entry_id <$> VecProgress_entries p' ≡ₚ qs_ids qs ++ learner_ids ∧
  (∀ i, i ∈ qs_ids qs ++ learner_ids →
    try_get p' i = Some (default (default_entry i) (try_get p i))) ∧
  VecProgress_quorum_accepted p' = quorum_accepted_ref p'.
Proof.
  intros Hwf Hq Hn Hd.
  destruct (upgrade_quorum_set_spec p qs learner_ids default_entry Hwf Hq Hn Hd)
    as (? & ? & Hqs & ? & ?). cbn zeta. split_and!; try done.
  apply quorum_accepted_eq_ref; try done. by rewrite Hqs.
Qed.
End vec_progress.

Arguments VecProgress : clear implicits.

(** ** Witnesses *)

Module VecProgressWitness.
Definition qs3 : gset N := {[1; 2; 3]}%N.
Definition zero_entry (i : N) : N * N := (i, 0%N).
Definition p0 : VecProgress (N * N) N (gset N) := VecProgress_new qs3 [4%N] zero_entry.
(** Voter 2 reaches 5, then voter 3 reaches 3. *)
Definition raise (v : N) (e : N * N) : N * N := (e.1, omax v e.2).
Definition p1 : VecProgress (N * N) N (gset N) := result_state (update_entry_with p0 2%N (raise 5)).
Definition p2 : VecProgress (N * N) N (gset N) := result_state (update_entry_with p1 3%N (raise 3)).

Lemma raise_monotone v : monotone_update (raise v).
Proof. intros [i w]. split; [done|]. apply omax_r. Defined.

Lemma p0_reachable : reachable p0.
Proof.
  apply reachable_new.
  - vm_compute; reflexivity.
  - refine (bool_decide_eq_true_1 _ _). vm_compute. reflexivity.
  - by intros i.
Defined.

Lemma p2_reachable : reachable p2.
Proof. apply reachable_update, raise_monotone. apply reachable_update, raise_monotone. apply p0_reachable. Defined.

Lemma quorum_accepted_correct_witness :
  VecProgress_quorum_accepted p2 = quorum_accepted_ref p2 ∧ VecProgress_quorum_accepted p2 = 3%N.
Proof. split; [apply quorum_accepted_correct, p2_reachable|vm_compute; reflexivity]. Defined.

Lemma progress_update_invariant_witness :
  ∃ p', update_entry_with p2 1%N (raise 4) = Ok p' ∧ VecProgress_wf p' ∧
    VecProgress_quorum_accepted p' = 4%N.
Proof.
  pose proof (progress_update_invariant p2 1%N (raise 4) (proj1 (reachable_inv _ p2_reachable))
    (raise_monotone 4)) as H.
  destruct (update_entry_with p2 1%N (raise 4)) as [p'|p'] eqn:E; [|vm_compute in E; done].
  exists p'. destruct H as (_ & _ & _ & _ & _ & _ & ? & _). split_and!; [done|done|].
  vm_compute in E. by injection E as <-.
Defined.

Lemma progress_reset_witness :
  ∃ p' i e, reset_entry_with p2 2%N (λ e, (e.1, 0%N)) = Some (p', i) ∧
    e ∈ VecProgress_entries p2 ∧ VecProgress_quorum_accepted p' = 3%N.
Proof.
  destruct (progress_reset_keeps_accepted p2 2%N (λ e, (e.1, 0%N))) as (p' & i & e & H & He & _ & _ & _ & Hq).
  - apply (proj1 (reachable_inv _ p2_reachable)).
  - intros [j w]. split; [done|]. apply default_le.
  - refine (bool_decide_eq_true_1 _ _). vm_compute. reflexivity.
  - exists p', i, e. split_and!; [done|done|]. rewrite Hq. vm_compute. reflexivity.
Defined.

Lemma upgrade_inherits_witness :
  try_get (upgrade_quorum_set p2 ({[2; 3; 4; 5]}%N : gset N) [] zero_entry) 3%N = Some (3%N, 3%N).
Proof.
  destruct (upgrade_inherits_progress p2 ({[2; 3; 4; 5]}%N : gset N) [] zero_entry)
    as (_ & _ & _ & H & _).
  - apply (proj1 (reachable_inv _ p2_reachable)).
  - vm_compute; reflexivity.
  - refine (bool_decide_eq_true_1 _ _). vm_compute. reflexivity.
  - by intros i.
  - rewrite H; [vm_compute; reflexivity|]. refine (bool_decide_eq_true_1 _ _). vm_compute. reflexivity.
Defined.
End VecProgressWitness.
