(* ===== verification/IOState.v ===== *)
(** * I/O state and leases

    [utime.rs], [raft_state/io_state.rs] and its submodules: leased values,
    the identity of a log I/O, the three cursors of an I/O progress, the
    monotonic cluster-committed position and the local committed position
    derived from it. *)

From S2P Require Import Prelude Vote LogId.

(** Points in time and durations, in the unit of the runtime's clock. *)
Abbreviation Instant := N.
Abbreviation Duration := N.

(** ** [Leased] *)

Record Leased (T : Type) := mkLeased {
  Leased_data : T;
  Leased_last_update : option Instant;
  Leased_lease : Duration;
  Leased_lease_enabled : bool;
}.
Arguments mkLeased {T}.
Arguments Leased_data {T}.
Arguments Leased_last_update {T}.
Arguments Leased_lease {T}.
Arguments Leased_lease_enabled {T}.

Section leased.
Context {T : Type}.

Definition Leased_new (now : Instant) (lease : Duration) (data : T) : Leased T :=
  mkLeased data (Some now) lease true.

Definition Leased_without_last_update (data : T) : Leased T := mkLeased data None 0 true.

(** [update] replaces every field. *)
Definition Leased_update (l : Leased T) (now : Instant) (lease : Duration) (data : T) : Leased T :=
  mkLeased data (Some now) lease true.

Definition Leased_disable_lease (l : Leased T) : Leased T :=
  mkLeased (Leased_data l) (Leased_last_update l) 0 false.

Definition Leased_is_expired (l : Leased T) (now : Instant) (timeout : Duration) : bool :=
  match Leased_last_update l with
  | Some utime => now >? (utime + Leased_lease l + timeout)%N
  | None => true
  end.

Definition Leased_touch (l : Leased T) (now : Instant) (lease : Duration) : Leased T :=
  mkLeased (Leased_data l) (Some now)
    (if Leased_lease_enabled l then lease else Leased_lease l) (Leased_lease_enabled l).

(** After [touch] or [update] the value does not expire before the lease has
    passed, and is expired once the lease and the timeout have. *)
Lemma Leased_touch_expiry l now lease now' timeout :
  Leased_lease_enabled l = true →
  Leased_is_expired (Leased_touch l now lease) now' timeout = true ↔
    (now + lease + timeout < now')%N.
Proof.
  intros He. unfold Leased_is_expired, Leased_touch; cbn. rewrite He.
  by rewrite ltb_true, N_ord_lt.
Qed.
End leased.

Section io_state.
Context {C : RaftTypeConfig}.

(** [LogId] is totally ordered; its [PartialOrd] is the derived one. *)
#[global] Instance LogId_partial_ord : PartialOrd LogId := λ a b, Some (cmp a b).

(** ** [LogIOId] and [IOId] *)

Record LogIOId := mkLogIOId {
  LogIOId_committed_vote : CommittedVote;
  LogIOId_log_id : option LogId;
}.

#[global] Instance LogIOId_eq_dec : EqDecision LogIOId.
Proof. solve_decision. Defined.

(** The derived [PartialOrd] goes through [CommittedVote::cmp], which panics
    on incomparable leader ids. *)
Definition LogIOId_partial_cmp (a b : LogIOId) : outcome comparison :=
  c ← CommittedVote_cmp (LogIOId_committed_vote a) (LogIOId_committed_vote b);
  Ret (lex c (cmp (LogIOId_log_id a) (LogIOId_log_id b))).

Inductive IOId :=
| IOId_Vote (v : UncommittedVote)
| IOId_Log (l : LogIOId).

#[global] Instance IOId_eq_dec : EqDecision IOId.
Proof. solve_decision. Defined.

(** [as_ref_vote]; also [to_app_vote]. *)
Definition IOId_to_app_vote (i : IOId) : Vote :=
  match i with
  | IOId_Vote v => UncommittedVote_into_vote v
  | IOId_Log l => CommittedVote_into_vote (LogIOId_committed_vote l)
  end.

Definition IOId_last_log_id (i : IOId) : option LogId :=
  match i with
  | IOId_Vote _ => None
  | IOId_Log l => LogIOId_log_id l
  end.

Definition IOId_leader_id (i : IOId) : LeaderId :=
  match i with
  | IOId_Vote v => UncommittedVote_leader_id v
  | IOId_Log l => CommittedVote_leader_id (LogIOId_committed_vote l)
  end.

Definition IOId_to_committed_vote (i : IOId) : option CommittedVote :=
  match i with
  | IOId_Vote _ => None
  | IOId_Log l => Some (LogIOId_committed_vote l)
  end.

#[global] Instance IOId_partial_ord : PartialOrd IOId := λ a b,
  res ← partial_cmp (IOId_to_app_vote a) (IOId_to_app_vote b);
  match res with
  | Lt => Some Lt
  | Gt => Some Gt
  | Eq => partial_cmp (IOId_last_log_id a) (IOId_last_log_id b)
  end.

Definition IOId_new_vote_io (v : UncommittedVote) : IOId := IOId_Vote v.
Definition IOId_new_log_io (v : CommittedVote) (last_log_id : option LogId) : IOId :=
  IOId_Log (mkLogIOId v last_log_id).
Definition IOId_new (v : Vote) : IOId :=
  if Vote_is_committed v then IOId_new_log_io (Vote_to_committed v) None
  else IOId_new_vote_io (Vote_to_non_committed v).

Definition LogIOId_to_io_id (l : LogIOId) : IOId := IOId_Log l.

(** ** [IOProgress]

    The labels [id] and [name], only used in log messages, are left out. *)
Record IOProgress (T : Type) := mkIOProgress {
  IOProgress_accepted : option T;
  IOProgress_submitted : option T;
  IOProgress_flushed : option T;
}.
Arguments mkIOProgress {T}.
Arguments IOProgress_accepted {T}.
Arguments IOProgress_submitted {T}.
Arguments IOProgress_flushed {T}.

Section io_progress.
Context {T : Type} `{!PartialOrd T}.

Definition IOProgress_validate (p : IOProgress T) : bool :=
  pleb (IOProgress_flushed p) (IOProgress_submitted p) &&
  pleb (IOProgress_submitted p) (IOProgress_accepted p).

Definition IOProgress_new_synchronized (v : option T) : IOProgress T := mkIOProgress v v v.

(** [accept], [submit] and [flush]: the assertion on the order is compiled
    only with [debug_assertions]. *)
Definition IOProgress_accept (p : IOProgress T) (v : T) : IOProgress T :=
  mkIOProgress (Some v) (IOProgress_submitted p) (IOProgress_flushed p).
Definition IOProgress_submit (p : IOProgress T) (v : T) : IOProgress T :=
  mkIOProgress (IOProgress_accepted p) (Some v) (IOProgress_flushed p).
Definition IOProgress_flush (p : IOProgress T) (v : T) : IOProgress T :=
  mkIOProgress (IOProgress_accepted p) (IOProgress_submitted p) (Some v).

Definition IOProgress_try_flush (p : IOProgress T) (v : T) : IOProgress T :=
  if pltb (IOProgress_flushed p) (Some v) then IOProgress_flush p v else p.

Definition IOProgress_try_update_all (p : IOProgress T) (value : T) : IOProgress T :=
  let p := if pltb (IOProgress_accepted p) (Some value) then IOProgress_accept p value else p in
  let p := if pltb (IOProgress_submitted p) (Some value) then IOProgress_submit p value else p in
  if pltb (IOProgress_flushed p) (Some value) then IOProgress_flush p value else p.
End io_progress.

(** ** [MonotonicIncrease], at its only type *)

(** [new_value > self.value], on options of [LogIOId]. *)
Definition opt_LogIOId_gt (new cur : option LogIOId) : outcome bool :=
  match new, cur with
  | None, _ => Ret false
  | Some _, None => Ret true
  | Some a, Some b =>
      c ← LogIOId_partial_cmp a b;
      Ret (match c with Gt => true | _ => false end)
  end.

Definition MonotonicIncrease_try_update_option (value new_value : option LogIOId) :
    outcome (result (option LogIOId) (option LogIOId)) :=
  greater ← opt_LogIOId_gt new_value value;
  Ret (if (greater : bool) then Ok new_value else Err value).

Definition MonotonicIncrease_try_update (value : option LogIOId) (new_value : LogIOId) :
    outcome (result (option LogIOId) (option LogIOId)) :=
  MonotonicIncrease_try_update_option value (Some new_value).

(** ** [IOState] *)

Record IOState := mkIOState {
  IOState_building_snapshot : bool;
  IOState_log_progress : IOProgress IOId;
  IOState_apply_progress : IOProgress LogId;
  IOState_snapshot : IOProgress LogId;
  IOState_cluster_committed : option LogIOId;
  IOState_purged : option LogId;
}.

Definition IOState_default : IOState :=
  mkIOState false (IOProgress_new_synchronized None) (IOProgress_new_synchronized None)
    (IOProgress_new_synchronized None) None None.

Definition IOState_new (vote : Vote) (applied snapshot purged : option LogId) : IOState :=
  mkIOState false (IOProgress_new_synchronized (Some (IOId_new vote)))
    (IOProgress_new_synchronized applied) (IOProgress_new_synchronized snapshot) None purged.

Definition IOState_validate (s : IOState) : bool :=
  IOProgress_validate (IOState_log_progress s) &&
  IOProgress_validate (IOState_apply_progress s) &&
  IOProgress_validate (IOState_snapshot s) &&
  (IOProgress_submitted (IOState_snapshot s) <=? IOProgress_submitted (IOState_apply_progress s)) &&
  (IOState_purged s <=? IOProgress_flushed (IOState_snapshot s)).

Definition set_log_progress (s : IOState) (p : IOProgress IOId) : IOState :=
  mkIOState (IOState_building_snapshot s) p (IOState_apply_progress s) (IOState_snapshot s)
    (IOState_cluster_committed s) (IOState_purged s).
Definition set_apply_progress (s : IOState) (p : IOProgress LogId) : IOState :=
  mkIOState (IOState_building_snapshot s) (IOState_log_progress s) p (IOState_snapshot s)
    (IOState_cluster_committed s) (IOState_purged s).
Definition set_snapshot_progress (s : IOState) (p : IOProgress LogId) : IOState :=
  mkIOState (IOState_building_snapshot s) (IOState_log_progress s) (IOState_apply_progress s) p
    (IOState_cluster_committed s) (IOState_purged s).
Definition set_cluster_committed (s : IOState) (v : option LogIOId) : IOState :=
  mkIOState (IOState_building_snapshot s) (IOState_log_progress s) (IOState_apply_progress s)
    (IOState_snapshot s) v (IOState_purged s).
Definition IOState_set_building_snapshot (s : IOState) (b : bool) : IOState :=
  mkIOState b (IOState_log_progress s) (IOState_apply_progress s)
    (IOState_snapshot s) (IOState_cluster_committed s) (IOState_purged s).
Definition IOState_update_purged (s : IOState) (log_id : option LogId) : IOState :=
  mkIOState (IOState_building_snapshot s) (IOState_log_progress s) (IOState_apply_progress s)
    (IOState_snapshot s) (IOState_cluster_committed s) log_id.

Definition IOState_applied (s : IOState) : option LogId :=
  IOProgress_flushed (IOState_apply_progress s).

(** [do_calculate_local_committed] *)
Definition calculate_local_committed (s : IOState) : outcome (option LogId) :=
  match IOState_cluster_committed s, IOProgress_accepted (IOState_log_progress s) with
  | Some cluster_committed, Some accepted =>
      match IOId_to_committed_vote accepted with
      | Some accepted_vote =>
          c ← CommittedVote_cmp accepted_vote (LogIOId_committed_vote cluster_committed);
          Ret (match c with
               | Lt => None
               | _ => omin (IOId_last_log_id accepted) (LogIOId_log_id cluster_committed)
               end)
      | None => Ret None
      end
  | _, _ => Ret None
  end.

(** ** Lemmas *)

Context `{!RaftLeaderIdLaws C}.

#[global] Instance LogId_partial_ord_laws : PartialOrdLaws LogId.
Proof.
  split; unfold partial_cmp, LogId_partial_ord.
  - intros x y. rewrite <- cmp_eq. split; [by intros [=]|by intros ->].
  - intros x y. cbn. by rewrite cmp_flip.
  - intros x y z [= H1] [= H2]. f_equal. by eapply cmp_lt_trans.
Qed.

Lemma opt_LogId_pltb (a b : option LogId) : pltb a b = (a <? b).
Proof. unfold pltb, ltb. by destruct a, b. Qed.

Lemma opt_LogId_pleb (a b : option LogId) : pleb a b = (a <=? b).
Proof.
  unfold pleb, leb. by destruct a as [a|], b as [b|]; cbn; try destruct (cmp a b).
Qed.

#[global] Instance IOId_partial_ord_laws : PartialOrdLaws IOId.
Proof.
  split; unfold partial_cmp, IOId_partial_ord.
  - intros x y. cbn. destruct (partial_cmp (IOId_to_app_vote x) (IOId_to_app_vote y)) as [[]|] eqn:E; cbn.
    + apply pcmp_eq in E. rewrite pcmp_eq.
      destruct x as [[l]|[[l] g]], y as [[l']|[[l'] g']]; cbn in *; naive_solver.
    + split; [done|]. intros ->. by rewrite pcmp_refl in E.
    + split; [done|]. intros ->. by rewrite pcmp_refl in E.
    + split; [done|]. intros ->. by rewrite pcmp_refl in E.
  - intros x y. cbn. rewrite (pcmp_flip (IOId_to_app_vote x) (IOId_to_app_vote y)).
    destruct (partial_cmp (IOId_to_app_vote x) (IOId_to_app_vote y)) as [[]|]; cbn; try done.
    apply pcmp_flip.
  - intros x y z. cbn.
    destruct (partial_cmp (IOId_to_app_vote x) (IOId_to_app_vote y)) as [[]|] eqn:E1; cbn; try done;
    destruct (partial_cmp (IOId_to_app_vote y) (IOId_to_app_vote z)) as [[]|] eqn:E2; cbn; try done.
    + apply pcmp_eq in E1. rewrite E1, E2. apply pcmp_lt_trans.
    + apply pcmp_eq in E1. by rewrite E1, E2.
    + apply pcmp_eq in E2. by rewrite <- E2, E1.
    + by rewrite (pcmp_lt_trans _ _ _ E1 E2).
Qed.

Section io_progress_lemmas.
Context {T : Type} `{PartialOrdLaws T}.
Implicit Types (p : IOProgress T) (v : T).

Lemma IOProgress_validate_true p :
  IOProgress_validate p = true ↔
  pleb (IOProgress_flushed p) (IOProgress_submitted p) = true ∧
  pleb (IOProgress_submitted p) (IOProgress_accepted p) = true.
Proof. apply andb_true_iff. Qed.

Lemma accept_validate p v :
  IOProgress_validate p = true → pleb (IOProgress_accepted p) (Some v) = true →
  IOProgress_validate (IOProgress_accept p v) = true.
Proof. rewrite !IOProgress_validate_true. cbn. intros [??] ?. split; [done|]. by eapply pleb_trans. Qed.

Lemma submit_validate p v :
  IOProgress_validate p = true → pleb (IOProgress_submitted p) (Some v) = true →
  pleb (Some v) (IOProgress_accepted p) = true →
  IOProgress_validate (IOProgress_submit p v) = true.
Proof. rewrite !IOProgress_validate_true. cbn. intros [??] ??. split; [by eapply pleb_trans|done]. Qed.

Lemma try_flush_validate p v :
  IOProgress_validate p = true → pleb (Some v) (IOProgress_submitted p) = true →
  IOProgress_validate (IOProgress_try_flush p v) = true.
Proof.
  unfold IOProgress_try_flush. destruct (pltb _ _); [|done].
  rewrite !IOProgress_validate_true. cbn. naive_solver.
Qed.
End io_progress_lemmas.

Lemma try_update_all_spec (p : IOProgress LogId) v :
  IOProgress_validate p = true →
  let p' := IOProgress_try_update_all p v in
  IOProgress_validate p' = true ∧
  IOProgress_accepted p' = omax (IOProgress_accepted p) (Some v) ∧
  IOProgress_submitted p' = omax (IOProgress_submitted p) (Some v) ∧
  IOProgress_flushed p' = omax (IOProgress_flushed p) (Some v).
Proof.
  intros Hv. cbn zeta.
  assert (IOProgress_accepted (IOProgress_try_update_all p v) = omax (IOProgress_accepted p) (Some v) ∧
    IOProgress_submitted (IOProgress_try_update_all p v) = omax (IOProgress_submitted p) (Some v) ∧
    IOProgress_flushed (IOProgress_try_update_all p v) = omax (IOProgress_flushed p) (Some v))
    as (Ha & Hs & Hf).
  { unfold IOProgress_try_update_all, omax. rewrite !opt_LogId_pltb.
    assert (∀ a : option LogId, (a <=? Some v) = true → (a <? Some v) = false → a = Some v) as Heq
      by (intros; ord).
    assert (∀ a : option LogId, (a <=? Some v) = false → (a <? Some v) = false) as Hnlt.
    { intros a Ha. ord_norm. apply ltb_false. ord. }
    destruct p as [a s f]; cbn.
    destruct (a <? Some v) eqn:E1; cbn; destruct (s <? Some v) eqn:E2; cbn;
      destruct (f <? Some v) eqn:E3; cbn;
      destruct (a <=? Some v) eqn:F1, (s <=? Some v) eqn:F2, (f <=? Some v) eqn:F3;
      rewrite ?(Heq _ F1 E1), ?(Heq _ F2 E2), ?(Heq _ F3 E3); try done;
      exfalso; repeat match goal with
        | H : (?x <=? Some v) = false, H' : (?x <? Some v) = true |- _ => rewrite (Hnlt _ H) in H'; done
        end. }
  split_and!; try done. rewrite IOProgress_validate_true, Ha, Hs, Hf, !opt_LogId_pleb.
  rewrite IOProgress_validate_true, !opt_LogId_pleb in Hv. destruct Hv as [H1 H2].
  ord_norm. rewrite !leb_true.
  assert (∀ a b : option LogId, a ≼ b → omax a (Some v) ≼ omax b (Some v)) as Hmono.
  { intros a b Hab. destruct (omax_cases a (Some v)) as [->| ->].
    - pose proof (omax_l b (Some v)). ord.
    - apply omax_r. }
  auto.
Qed.

Lemma calculate_local_committed_spec (s : IOState) c :
  calculate_local_committed s = Ret (Some c) →
  ∃ cluster accepted, IOState_cluster_committed s = Some cluster ∧
    IOProgress_accepted (IOState_log_progress s) = Some accepted ∧
    Some c ≼ LogIOId_log_id cluster ∧ Some c ≼ IOId_last_log_id accepted ∧
    (Some c = LogIOId_log_id cluster ∨ Some c = IOId_last_log_id accepted) ∧
    pleb (CommittedVote_into_vote (LogIOId_committed_vote cluster)) (IOId_to_app_vote accepted) = true.
Proof.
  unfold calculate_local_committed.
  destruct (IOState_cluster_committed s) as [cluster|]; [|done].
  destruct (IOProgress_accepted (IOState_log_progress s)) as [[v|[vote g]]|]; cbn; try done.
  intros (o & Ho & Hc)%outcome_bind_Ret. unfold CommittedVote_cmp in Ho. apply unwrap_Ret in Ho.
  exists cluster, (IOId_Log (mkLogIOId vote g)).
  assert (omin g (LogIOId_log_id cluster) = Some c ∧ o ≠ Lt) as [Hmin Hlt]
    by (destruct o; naive_solver). cbn.
  split_and!; try done.
  - rewrite <- Hmin. apply omin_r.
  - rewrite <- Hmin. apply omin_l.
  - rewrite <- Hmin. destruct (omin_cases g (LogIOId_log_id cluster)) as [->| ->]; auto.
  - rewrite <- pgeb_flip. unfold pgeb, partial_cmp, Vote_partial_ord; cbn. rewrite Ho. by destruct o.
Qed.
End io_state.

Arguments IOProgress : clear implicits.
Arguments mkIOProgress {T}.
Arguments IOProgress_accepted {T}.
Arguments IOProgress_submitted {T}.
Arguments IOProgress_flushed {T}.
