(* ===== verification/MembershipState.v ===== *)
(** * The membership state of a node

    [raft_state/membership_state/mod.rs], with [ChangeMembershipError] of
    [errors/mod.rs] and [SnapshotMeta] of [storage/snapshot_meta.rs]: the last
    committed membership and the effective one, at most one of which is not
    committed. *)

From S2P Require Import Prelude Vote LogId Quorum Membership.

Section membership_state.
Context {C : RaftTypeConfig}.

Inductive ChangeMembershipError :=
| ChangeMembershipError_InProgress (committed membership_log_id : option LogId)
| ChangeMembershipError_EmptyMembership
| ChangeMembershipError_LearnerNotFound (node_id : u64)
| ChangeMembershipError_UnsupportedMembershipTransition (previous proposed : list (gset N))
| ChangeMembershipError_UncommittedLeaderLog (leader_log_id : LogId) (committed : option LogId)
| ChangeMembershipError_NodeMetadataChanged (node_id : u64).

(** [From<MembershipError>] *)
Definition ChangeMembershipError_from (me : MembershipError) : ChangeMembershipError :=
  match me with
  | MembershipError_EmptyMembership => ChangeMembershipError_EmptyMembership
  | MembershipError_NodeNotFound node_id _ => ChangeMembershipError_LearnerNotFound node_id
  end.

(** [storage/snapshot_meta.rs] *)
Record SnapshotMeta := mkSnapshotMeta {
  SnapshotMeta_last_log_id : option LogId;
  SnapshotMeta_last_membership : StoredMembership;
}.

Definition SnapshotMeta_default : SnapshotMeta := mkSnapshotMeta None StoredMembership_default.

Record MembershipState := mkMembershipState {
  MembershipState_committed : StoredMembership;
  MembershipState_effective : StoredMembership;
}.

Definition MembershipState_default : MembershipState :=
  mkMembershipState StoredMembership_default StoredMembership_default.

Definition MembershipState_contains (s : MembershipState) (id : u64) : bool :=
  Membership_contains (StoredMembership_membership (MembershipState_effective s)) id.

Definition MembershipState_is_voter (s : MembershipState) (id : u64) : bool :=
  Membership_is_voter (StoredMembership_membership (MembershipState_effective s)) id.

Definition committed_log_id (s : MembershipState) : option LogId :=
  StoredMembership_log_id (MembershipState_committed s).
Definition effective_log_id (s : MembershipState) : option LogId :=
  StoredMembership_log_id (MembershipState_effective s).

(** [ensure_committed] *)
Definition ensure_committed (s : MembershipState) : result unit ChangeMembershipError :=
  if decide (effective_log_id s = committed_log_id s) then Ok tt
  else Err (ChangeMembershipError_InProgress (committed_log_id s) (effective_log_id s)).

Definition next_membership (s : MembershipState) (change : ChangeMembers) (retain : bool) :
    outcome (result Membership ChangeMembershipError) :=
  match ensure_committed s with
  | Err e => Ret (Err e)
  | Ok _ =>
      r ← Membership_change (StoredMembership_membership (MembershipState_effective s)) change retain;
      Ret (match r with
           | Ok new_membership => Ok new_membership
           | Err e => Err (ChangeMembershipError_from e)
           end)
  end.

Definition validate_append_membership (s : MembershipState) (proposed : Membership) :
    result unit ChangeMembershipError :=
  match ensure_committed s with
  | Err e => Err e
  | Ok _ =>
  match Membership_ensure_valid proposed with
  | Err e => Err (ChangeMembershipError_from e)
  | Ok _ =>
  match ensure_quorum_defined proposed with
  | Err e => Err (ChangeMembershipError_from e)
  | Ok _ =>
      let effective := StoredMembership_membership (MembershipState_effective s) in
      match find_changed_node_metadata effective proposed with
      | Some node_id => Err (ChangeMembershipError_NodeMetadataChanged node_id)
      | None =>
          if is_direct_append_compatible_with effective proposed then Ok tt
          else Err (ChangeMembershipError_UnsupportedMembershipTransition
                 (Membership_configs effective) (Membership_configs proposed))
      end
  end
  end
  end.

Definition MembershipState_commit (s : MembershipState) (committed : option LogId) :
    MembershipState :=
  let current := committed_log_id s in
  let last := effective_log_id s in
  if (committed >=? last) && (current <? last)
  then mkMembershipState (MembershipState_effective s) (MembershipState_effective s)
  else s.

Definition install_membership_snapshot (s : MembershipState) (m : StoredMembership)
    (snapshot_last_log_index : u64) : MembershipState :=
  if (opt_index (effective_log_id s) <=? Some snapshot_last_log_index)
  then mkMembershipState m m
  else
    let effective :=
      if (opt_index (StoredMembership_log_id m) >=? opt_index (effective_log_id s))
      then m else MembershipState_effective s in
    let committed :=
      if (StoredMembership_log_id m >? committed_log_id s)
      then m else MembershipState_committed s in
    mkMembershipState committed effective.

Definition MembershipState_append (s : MembershipState) (m : StoredMembership) : MembershipState :=
  mkMembershipState (MembershipState_effective s) m.

(** [truncate]: with the effective membership when it is changed. *)
Definition MembershipState_truncate (s : MembershipState) (since : u64) :
    MembershipState * option StoredMembership :=
  if (Some since <=? opt_index (effective_log_id s)) then
    (mkMembershipState (MembershipState_committed s) (MembershipState_committed s),
     Some (MembershipState_committed s))
  else (s, None).

(** [Validate] *)
Definition MembershipState_validate (s : MembershipState) : bool :=
  (committed_log_id s <=? effective_log_id s) &&
  (opt_index (committed_log_id s) <=? opt_index (effective_log_id s)).

(** ** Lemmas *)

Context `{!RaftLeaderIdLaws C}.
Implicit Types (s : MembershipState) (m : StoredMembership) (ms : list StoredMembership) (k : option LogId).

Lemma MembershipState_validate_true s :
  MembershipState_validate s = true ↔
  committed_log_id s ≼ effective_log_id s ∧
  opt_index (committed_log_id s) ≼ opt_index (effective_log_id s).
Proof. unfold MembershipState_validate. by rewrite andb_true_iff, !leb_true. Qed.

Lemma MembershipState_validate_same m : MembershipState_validate (mkMembershipState m m) = true.
Proof. apply MembershipState_validate_true. split; apply ord_le_refl. Qed.

(** ** The memberships of a log

    What the state stands for: all memberships of the log, from the oldest one,
    and the last log id [k] that is known to be committed.  Only the last
    membership may be after [k]. *)

Abbreviation mid := StoredMembership_log_id.
Abbreviation mix m := (opt_index (StoredMembership_log_id m)).

Definition before m m' : Prop := mid m ≺ mid m' ∧ mix m ≺ mix m'.

Record tracks (ms : list StoredMembership) (k : option LogId) s : Prop := {
  tr_sorted : StronglySorted before ms;
  tr_effective : last ms = Some (MembershipState_effective s);
  tr_committed : last (filter (λ m, (mid m <=? k) = true) ms) = Some (MembershipState_committed s);
  tr_one : ∀ pre m, ms = pre ++ [m] → Forall (λ x, mid x ≼ k) pre;
}.

(** The snapshot has the last membership [m] at or before the index [i], and the
    log agrees with it. *)
Definition installable ms k m (i : u64) : Prop :=
  mix m ≼ Some i ∧
  (∀ x, x ∈ ms → mid x ≼ k → mix x ≼ Some i → mid x ≼ mid m ∧ (mid x = mid m → x = m)) ∧
  (∀ x, x ∈ ms → Some i ≺ mix x → mid m ≺ mid x).

Lemma known_all k ms : Forall (λ x, mid x ≼ k) ms → filter (λ m, (mid m <=? k) = true) ms = ms.
Proof. rewrite Forall_forall. intros Hf. apply filter_all. intros x Hx. by apply leb_true, Hf. Qed.

Lemma known_mono k k' ms : k ≼ k' → Forall (λ x, mid x ≼ k) ms → Forall (λ x, mid x ≼ k') ms.
Proof. intros Hk Hf. eapply Forall_impl; [exact Hf|]. intros x Hx. exact (ord_le_trans _ _ _ Hx Hk). Qed.

Lemma known_sorted (P : StoredMembership → Prop) `{∀ x, Decision (P x)} ms :
  StronglySorted before ms → StronglySorted before (filter P ms).
Proof.
  induction 1 as [|x l _ IH Hx]; [constructor|]. rewrite filter_cons. case_decide; [|done].
  constructor; [done|]. rewrite Forall_forall in *. intros y [_ Hy]%list_elem_of_filter. by apply Hx.
Qed.

Lemma tracks_inv ms k s : tracks ms k s →
  ∃ pre, ms = pre ++ [MembershipState_effective s] ∧ Forall (λ x, mid x ≼ k) pre ∧
    ((mid (MembershipState_effective s) ≼ k ∧ MembershipState_committed s = MembershipState_effective s) ∨
     (k ≺ mid (MembershipState_effective s) ∧ last pre = Some (MembershipState_committed s))).
Proof.
  intros [_ He Hc Hone]. apply last_Some in He as [pre ->]. exists pre. specialize (Hone pre _ eq_refl).
  split; [done|]. split; [done|]. rewrite filter_app, (known_all k pre Hone), filter_cons, filter_nil in Hc.
  destruct (leb_spec (mid (MembershipState_effective s)) k) as [Hle|Hlt].
  - rewrite decide_True, last_snoc in Hc by done. left. split; [done|]. by injection Hc.
  - rewrite decide_False, app_nil_r in Hc by done. by right.
Qed.

Lemma tracks_intro pre k s :
  StronglySorted before (pre ++ [MembershipState_effective s]) → Forall (λ x, mid x ≼ k) pre →
  ((mid (MembershipState_effective s) ≼ k ∧ MembershipState_committed s = MembershipState_effective s) ∨
   (k ≺ mid (MembershipState_effective s) ∧ last pre = Some (MembershipState_committed s))) →
  tracks (pre ++ [MembershipState_effective s]) k s.
Proof.
  intros Hs Hf Hc. split; [done|by rewrite last_snoc| |].
  - rewrite filter_app, (known_all k pre Hf), filter_cons, filter_nil. destruct Hc as [[Hle ->]|[Hlt Hl]].
    + by rewrite decide_True, last_snoc by by apply leb_true.
    + rewrite decide_False, app_nil_r; [done|]. rewrite leb_true. by apply ord_not_le.
  - by intros pre' m [-> _]%app_inj_tail.
Qed.

(** The effective membership is the last one. *)
Lemma tracks_last pre s x : StronglySorted before (pre ++ [MembershipState_effective s]) → x ∈ pre →
  before x (MembershipState_effective s).
Proof. intros (Hx & _)%StronglySorted_app Hin. apply (Hx x); [done|by left]. Qed.

Lemma tracks_validate ms k s : tracks ms k s →
  MembershipState_validate s = true ∧ (ensure_committed s = Ok tt ↔ mid (MembershipState_effective s) ≼ k).
Proof.
  intros Ht. pose proof (tr_sorted _ _ _ Ht) as Hs. destruct (tracks_inv _ _ _ Ht) as (pre & -> & _ & [[Hle Hc]|[Hlt Hc]]).
  - unfold ensure_committed, committed_log_id, effective_log_id. rewrite Hc. split; [|by rewrite decide_True].
    apply MembershipState_validate_true. unfold committed_log_id. rewrite Hc. split; apply ord_le_refl.
  - apply last_Some in Hc as [pre' ->].
    destruct (tracks_last _ s (MembershipState_committed s) Hs) as [H1 H2]; [set_solver|].
    split. { apply MembershipState_validate_true. split; by apply ord_lt_le. }
    unfold ensure_committed, committed_log_id, effective_log_id. rewrite decide_False; [|intros E; rewrite E in H1; ord].
    split; [done|]. intros Hle. exfalso. ord.
Qed.

Lemma tracks_commit ms k s c : tracks ms k s → tracks ms (omax k c) (MembershipState_commit s c).
Proof.
  intros Ht. pose proof (tr_sorted _ _ _ Ht) as Hs. destruct (tracks_inv _ _ _ Ht) as (pre & -> & Hf & Hc).
  assert (Forall (λ x, mid x ≼ omax k c) pre) as Hf'.
  { by apply (known_mono k); [apply omax_l|]. }
  unfold MembershipState_commit, committed_log_id, effective_log_id. destruct Hc as [[Hle Hc]|[Hlt Hc]].
  - rewrite Hc. replace (_ <? _) with false by (symmetry; apply ltb_false, ord_le_refl). rewrite andb_false_r.
    apply tracks_intro; [done|done|left]. pose proof (omax_l k c). split; [ord|done].
  - pose proof Hc as Hc'. apply last_Some in Hc' as [pre' ->].
    destruct (tracks_last _ s (MembershipState_committed s) Hs) as [H1 _]; [set_solver|].
    replace (mid (MembershipState_committed s) <? _) with true by (symmetry; by apply ltb_true). rewrite andb_true_r.
    destruct (leb_spec (mid (MembershipState_effective s)) c) as [Hle|Hgt].
    + refine (tracks_intro _ _ (mkMembershipState _ _) Hs Hf' (or_introl (conj _ eq_refl))). cbn.
      pose proof (omax_r k c). ord.
    + apply tracks_intro; [done|done|right]. split; [|done]. destruct (omax_cases k c) as [->| ->]; done.
Qed.

Lemma tracks_append ms k s m :
  tracks ms k s → before (MembershipState_effective s) m → k ≺ mid m →
  tracks (ms ++ [m]) (omax k (effective_log_id s)) (MembershipState_append s m).
Proof.
  intros Ht Hm Hk. pose proof (tr_sorted _ _ _ Ht) as Hs. destruct (tracks_inv _ _ _ Ht) as (pre & -> & Hf & _).
  apply (tracks_intro _ _ (MembershipState_append s m)); cbn.
  - apply StronglySorted_app. split_and!; [|done|by repeat constructor].
    intros x y Hx ->%list_elem_of_singleton. apply elem_of_app in Hx as [Hx| ->%list_elem_of_singleton]; [|done].
    destruct (tracks_last _ _ _ Hs Hx), Hm. split; ord.
  - apply Forall_app. split; [|repeat constructor; apply omax_r].
    by apply (known_mono k); [apply omax_l|].
  - right. rewrite last_snoc. split; [|done].
    destruct (omax_cases k (effective_log_id s)) as [->| ->]; [done|]. by destruct Hm.
Qed.

Lemma tracks_truncate ms k s since :
  tracks ms k s → (∀ m, m ∈ ms → mid m ≼ k → mix m ≺ Some since) →
  let kept := filter (λ m, (mix m <? Some since) = true) ms in
  let '(s', reverted) := MembershipState_truncate s since in
  tracks kept k s' ∧ reverted = if decide (kept = ms) then None else Some (MembershipState_effective s').
Proof.
  intros Ht Hk. pose proof (tr_sorted _ _ _ Ht) as Hs. destruct (tracks_inv _ _ _ Ht) as (pre & -> & Hf & Hc).
  assert (filter (λ m, (mix m <? Some since) = true) pre = pre) as Hpre.
  { apply filter_all. intros x Hx. apply ltb_true, Hk; [set_solver|]. rewrite Forall_forall in Hf. by apply Hf. }
  cbn zeta. rewrite filter_app, Hpre, filter_cons, filter_nil. unfold MembershipState_truncate, effective_log_id.
  destruct (leb_spec (Some since) (mix (MembershipState_effective s))) as [Hle|Hlt].
  - rewrite decide_False, app_nil_r by (rewrite ltb_true; intros ?; ord).
    rewrite decide_False by (intros E; apply (f_equal length) in E; rewrite length_app in E; cbn in E; lia).
    split; [|done]. destruct Hc as [[Hek _]|[_ Hc]]; [exfalso; specialize (Hk (MembershipState_effective s)); cbn in Hk;
      assert (mix (MembershipState_effective s) ≺ Some since) by (apply Hk; [set_solver|done]); ord|].
    apply last_Some in Hc as [pre' ->]. apply Forall_app in Hf as [Hf Hf']. apply (Forall_singleton (λ x, mid x ≼ k)) in Hf'.
    apply (tracks_intro pre' k (mkMembershipState _ _)); cbn; [|done|by left; split; [exact Hf'|]].
    by apply StronglySorted_app in Hs as (_ & Hs & _).
  - rewrite decide_True by by apply ltb_true. by rewrite decide_True.
Qed.

Lemma tracks_install ms k s m i :
  tracks ms k s → installable ms k m i →
  tracks (m :: filter (λ x, (Some i <? mix x) = true) ms) (omax k (mid m)) (install_membership_snapshot s m i).
Proof.
  intros Ht (Hi & Hlow & Hhigh). pose proof (tr_sorted _ _ _ Ht) as Hs.
  destruct (tracks_inv _ _ _ Ht) as (pre & -> & Hf & Hc). set (e := MembershipState_effective s) in *.
  assert (∀ x, x ∈ pre → before x e) as Hb by (intros x; by apply tracks_last).
  pose proof (omax_l k (mid m)) as Hk1. pose proof (omax_r k (mid m)) as Hk2.
  unfold install_membership_snapshot, effective_log_id. fold e.
  destruct (leb_spec (mix e) (Some i)) as [Hle|Hgt].
  { rewrite filter_none.
    - apply (tracks_intro [] _ (mkMembershipState m m)); cbn; [by repeat constructor|done|by left].
    - intros x Hx. rewrite ltb_true. intros Hlt. apply elem_of_app in Hx as [Hx| ->%list_elem_of_singleton]; [|ord].
      destruct (Hb x Hx). ord. }
  replace (mix e <=? mix m) with false by (symmetry; apply leb_false; ord).
  assert (mid m ≺ mid e) as Hme by (apply Hhigh; [set_solver|done]).
  rewrite filter_app, (filter_cons_True _ e) by by apply ltb_true. rewrite filter_nil, app_comm_cons.
  set (pre' := filter _ pre). assert (∀ x, x ∈ pre' ↔ x ∈ pre ∧ Some i ≺ mix x) as Hin.
  { intros x. unfold pre'. rewrite list_elem_of_filter, ltb_true. tauto. }
  apply (tracks_intro (m :: pre') _ (mkMembershipState _ _)); cbn.
  - constructor.
    + apply StronglySorted_app in Hs as (H1 & H2 & H3). apply StronglySorted_app. split_and!; [|by apply known_sorted|done].
      intros x y [Hx _]%Hin. by apply H1.
    + apply Forall_forall. intros x [Hx| ->%list_elem_of_singleton]%elem_of_app; [apply Hin in Hx as [Hx Hxi]|split; [done|ord]].
      split; [apply Hhigh; [set_solver|done]|ord].
  - constructor; [done|]. apply Forall_forall. intros x [Hx _]%Hin. apply (known_mono k _ _ Hk1) in Hf.
    rewrite Forall_forall in Hf. by apply Hf.
  - unfold committed_log_id. destruct Hc as [[Hek Hc]|[Hke Hc]].
    + left. split; [ord|]. rewrite Hc. fold e. by replace (mid e <? mid m) with false by (symmetry; apply ltb_false; ord).
    + right. split; [destruct (omax_cases k (mid m)) as [->| ->]; done|]. apply last_Some in Hc as [pre1 ->].
      set (c := MembershipState_committed s) in *. assert (mid c ≼ k) as Hck.
      { rewrite Forall_forall in Hf. apply Hf. set_solver. }
      destruct (leb_spec (mix c) (Some i)) as [Hci|Hci].
      * destruct (Hlow c) as [Hcm Heq]; [set_solver|done|done|].
        assert (pre' = []) as ->.
        { apply filter_none. intros x Hx. rewrite ltb_true. intros Hlt. apply elem_of_app in Hx as [Hx| ->%list_elem_of_singleton]; [|ord].
          apply StronglySorted_app in Hs as (_ & Hs & _). apply StronglySorted_app in Hs as (Hs & _ & _).
          destruct (Hs x c Hx) as [_ ?]; [by left|]. ord. }
        cbn. destruct (ltb_spec (mid c) (mid m)) as [|Hge]; [done|]. rewrite Heq; [done|]. ord.
      * assert (mid m ≺ mid c) by (apply Hhigh; [set_solver|done]).
        replace (mid c <? mid m) with false by (symmetry; apply ltb_false; ord).
        unfold pre'. rewrite filter_app, (filter_cons_True _ c) by by apply ltb_true. by rewrite filter_nil, app_comm_cons, last_snoc.
Qed.

(** ** Properties *)

(** C28: the membership state stands for all memberships of the log and for what
    is known to be committed of them: the effective one is the last membership
    of the log and the committed one the last that is known to be committed,
    before and after [commit] with any log id; [append] of a membership that is
    after the last one and not known to be committed, which makes the last one
    known to be; [truncate] above what is committed, which reports a new
    effective membership exactly when one is removed; and the installation of a
    snapshot that the log agrees with (what is known to be committed up to its
    last index is not after its membership, what is behind that index is), whose
    membership then stands for all up to that index.  A membership can be
    proposed exactly when the last one is known to be committed. *)
Theorem membership_state_refines ms k s :
  tracks ms k s →
  (MembershipState_validate s = true ∧ (ensure_committed s = Ok tt ↔ mid (MembershipState_effective s) ≼ k)) ∧
  (∀ c, tracks ms (omax k c) (MembershipState_commit s c)) ∧
  (∀ m, before (MembershipState_effective s) m → k ≺ mid m →
    tracks (ms ++ [m]) (omax k (effective_log_id s)) (MembershipState_append s m)) ∧
  (∀ since, (∀ m, m ∈ ms → mid m ≼ k → mix m ≺ Some since) →
    let kept := filter (λ m, (mix m <? Some since) = true) ms in
    let '(s', reverted) := MembershipState_truncate s since in
    tracks kept k s' ∧ reverted = if decide (kept = ms) then None else Some (MembershipState_effective s')) ∧
  (∀ m i, installable ms k m i →
    tracks (m :: filter (λ x, (Some i <? mix x) = true) ms) (omax k (mid m)) (install_membership_snapshot s m i)).
Proof.
  intros Ht. split_and!.
  - by eapply tracks_validate.
  - by eapply tracks_validate.
  - intros c. by apply tracks_commit.
  - intros m. by apply tracks_append.
  - intros since. by apply tracks_truncate.
  - intros m i. by apply tracks_install.
Qed.

(** Truncating the log from [since] on never loses the committed
    membership when [since] is above it, leaves an effective membership whose
    log is below [since], and reports the new effective membership exactly
    when it changed. *)
Theorem membership_truncate_reverts s since :
  MembershipState_validate s = true →
  opt_index (committed_log_id s) ≺ Some since →
  let '(s', reverted) := MembershipState_truncate s since in
  MembershipState_committed s' = MembershipState_committed s ∧
  opt_index (effective_log_id s') ≺ Some since ∧
  match reverted with
  | Some m => m = MembershipState_effective s' ∧ m = MembershipState_committed s ∧
      Some since ≼ opt_index (effective_log_id s)
  | None => s' = s
  end.
Proof.
  intros Hv Hc. unfold MembershipState_truncate.
  destruct (leb_spec (Some since) (opt_index (effective_log_id s))); done.
Qed.

(** A membership that passes [validate_append_membership] may follow the
    effective one directly: the effective membership is committed, the
    proposed one is valid and defines a quorum, no known node changes its
    description, and quorums of the two intersect in a common voter. *)
Theorem append_membership_safe s (proposed : Membership) :
  validate_append_membership s proposed = Ok tt →
  let effective := StoredMembership_membership (MembershipState_effective s) in
  effective_log_id s = committed_log_id s ∧
  Membership_valid proposed ∧ Membership_configs proposed ≠ [] ∧
  (∀ id n, Membership_nodes effective !! id = Some n →
    Membership_nodes proposed !! id = None ∨ Membership_nodes proposed !! id = Some n) ∧
  (∀ a b, NoDup a → NoDup b → is_quorum effective a = true → is_quorum proposed b = true →
    ∃ x, x ∈ a ∧ x ∈ b ∧ Membership_is_voter effective x = true ∧
      Membership_is_voter proposed x = true).
Proof.
  unfold validate_append_membership, ensure_committed. case_decide as Hcom; [|done].
  destruct (Membership_ensure_valid proposed) as [[]|] eqn:Hv; [|done].
  destruct (ensure_quorum_defined proposed) as [[]|] eqn:Hq; [|done].
  destruct (find_changed_node_metadata _ _) eqn:Hch; [done|].
  destruct (is_direct_append_compatible_with _ _) eqn:Hd; [|done]. intros _. cbn zeta.
  apply Membership_ensure_valid_ok in Hv. apply ensure_quorum_defined_ok in Hq as [Hq _].
  split_and!; try done.
  - by apply find_changed_node_metadata_None.
  - intros a b. by apply direct_append_coherent.
Qed.

(** [next_membership] refuses a change while one is in progress, never
    panics on an initialized membership, reports a missing node as
    [LearnerNotFound], and otherwise returns a valid membership. *)
Theorem next_membership_errors s change retain :
  Membership_configs (StoredMembership_membership (MembershipState_effective s)) ≠ [] →
  ∃ r, next_membership s change retain = Ret r ∧
  match r with
  | Ok m => effective_log_id s = committed_log_id s ∧ Membership_valid m
  | Err (ChangeMembershipError_InProgress c e) =>
      effective_log_id s ≠ committed_log_id s ∧ c = committed_log_id s ∧ e = effective_log_id s
  | Err ChangeMembershipError_EmptyMembership => effective_log_id s = committed_log_id s
  | Err (ChangeMembershipError_LearnerNotFound v) =>
      effective_log_id s = committed_log_id s ∧
      Membership_is_voter
        (change_next (StoredMembership_membership (MembershipState_effective s)) change retain) v = true
  | Err _ => False
  end.
Proof.
  intros Hm. unfold next_membership, ensure_committed. case_decide as Hcom.
  2:{ eexists; split; [done|]. cbn. done. }
  set (em := StoredMembership_membership (MembershipState_effective s)) in *.
  rewrite Membership_change_eq by done. cbn. eexists; split; [done|].
  destruct (Membership_ensure_valid (change_next em change retain)) as [[]|e] eqn:Hv.
  - split; [done|]. by apply Membership_ensure_valid_ok.
  - unfold Membership_ensure_valid in Hv.
    destruct (ensure_non_empty_config _) eqn:Hne.
    + destruct (ensure_voter_nodes _) as [|nid] eqn:Hvn; [done|]. injection Hv as <-. cbn [ChangeMembershipError_from].
      split; [done|]. unfold ensure_voter_nodes in Hvn.
      destruct (first_without_node _ _) as [v|] eqn:Hf; [|done]. injection Hvn as <-.
      apply first_without_node_Some in Hf as [Hin _]. exact (proj1 (elem_of_voter_ids _ _) Hin).
    + injection Hv as <-. unfold ensure_non_empty_config in Hne.
      apply ensure_non_empty_configs_err in Hne as [-> _]. done.
Qed.
End membership_state.

(** ** Witnesses *)

Module MembershipStateWitness.
#[local] Existing Instance adv_config.
Import MembershipWitness.

Definition lid (t i : u64) : LogId := mkLogId (C := adv_config) (LeaderIdAdv.mk t 1) i.
Definition stored (t i : u64) (m : Membership) : StoredMembership :=
  mkStoredMembership (Some (lid t i)) m.
Definition settled : MembershipState := mkMembershipState (stored 1 2 m123) (stored 1 2 m123).
Definition changing : MembershipState := mkMembershipState (stored 1 2 m123) (stored 2 5 m123_345).

Definition log_memberships : list StoredMembership := [StoredMembership_default; stored 1 2 m123; stored 2 5 m123_345].

Lemma changing_tracks : tracks log_memberships (Some (lid 1 4)) changing.
Proof.
  apply (tracks_intro [StoredMembership_default; stored 1 2 m123] (Some (lid 1 4)) changing).
  - repeat constructor.
  - by repeat constructor.
  - by right.
Defined.

(** The membership at index 5 is committed and another one appended, and is
    removed; a snapshot up to index 3 is installed. *)
Lemma membership_state_refines_witness :
  tracks (log_memberships ++ [stored 2 7 m1234]) (Some (lid 2 5)) (MembershipState_append changing (stored 2 7 m1234)) ∧
  tracks [StoredMembership_default; stored 1 2 m123] (Some (lid 1 4)) (MembershipState_truncate changing 5).1 ∧
  tracks [stored 1 2 m123; stored 2 5 m123_345] (Some (lid 1 4)) (install_membership_snapshot changing (stored 1 2 m123) 3).
Proof.
  destruct (membership_state_refines _ _ _ changing_tracks) as (_ & _ & Ha & Ht & Hi). split_and!.
  - apply (Ha (stored 2 7 m1234)); [by split|done].
  - destruct (Ht 5%N) as [H _]; [|exact H]. intros m. unfold log_memberships. rewrite !elem_of_cons.
    intros [-> | [-> | [-> | []%elem_of_nil]]] Hk%leb_true; apply ltb_true; vm_compute in Hk |- *; done.
  - apply (Hi (stored 1 2 m123) 3%N). split; [done|]. unfold log_memberships.
    split; intros x; rewrite !elem_of_cons; intros [-> | [-> | [-> | []%elem_of_nil]]].
    1-3: intros Hk%leb_true _; vm_compute in Hk; try done; (split; [by apply leb_true|done]).
    all: intros Hk%ltb_true; vm_compute in Hk; try done; by apply ltb_true.
Defined.

Lemma membership_truncate_reverts_witness :
  effective_log_id (MembershipState_truncate changing 4).1 = Some (lid 1 2).
Proof.
  pose proof (membership_truncate_reverts changing 4) as H. cbn in H.
  destruct H as (_ & _ & H & _ & _); [done|done|]. vm_compute. reflexivity.
Defined.

Lemma append_membership_safe_witness : effective_log_id settled = committed_log_id settled.
Proof.
  destruct (append_membership_safe settled m1234) as [H _]; [vm_compute; reflexivity|exact H].
Defined.

Lemma next_membership_errors_witness :
  ∃ r, next_membership changing (AddVoterIds {[4]}%N) true = Ret r ∧
    r = Err (ChangeMembershipError_InProgress (Some (lid 1 2)) (Some (lid 2 5))).
Proof.
  destruct (next_membership_errors changing (AddVoterIds {[4]}%N) true) as (r & Hr & _); [done|].
  exists r. split; [done|]. vm_compute in Hr. by injection Hr as <-.
Defined.
End MembershipStateWitness.
