(* ===== verification/Entry.v ===== *)
(** * Log entries

    [entry/payload.rs], [entry/entry_impl.rs], [entry/raft_entry.rs] and the
    errors of [errors/mod.rs] that several components return. *)

From S2P Require Import Prelude Vote LogId Membership.

Section entry.
Context {C : RaftTypeConfig}.

Inductive EntryPayload :=
| EntryPayload_Blank
| EntryPayload_Normal (data : AppData)
| EntryPayload_Membership (membership : Membership).

Definition EntryPayload_get_membership (p : EntryPayload) : option Membership :=
  match p with
  | EntryPayload_Membership m => Some m
  | _ => None
  end.

Record Entry := mkEntry {
  Entry_log_id : LogId;
  Entry_payload : EntryPayload;
}.

Definition Entry_new_blank (log_id : LogId) : Entry := mkEntry log_id EntryPayload_Blank.
Definition Entry_new_membership (log_id : LogId) (m : Membership) : Entry :=
  mkEntry log_id (EntryPayload_Membership m).

(** [set_log_id] *)
Definition Entry_set_log_id (e : Entry) (new : LogId) : Entry := mkEntry new (Entry_payload e).

Definition Entry_get_membership (e : Entry) : option Membership :=
  EntryPayload_get_membership (Entry_payload e).

Definition Entry_index (e : Entry) : u64 := LogId_index (Entry_log_id e).

(** ** Errors *)

Record ForwardToLeader := mkForwardToLeader {
  ForwardToLeader_leader_id : option u64;
  ForwardToLeader_leader_node : option Node;
}.

Definition ForwardToLeader_empty : ForwardToLeader := mkForwardToLeader None None.
Definition ForwardToLeader_new (leader_id : u64) (node : Node) : ForwardToLeader :=
  mkForwardToLeader (Some leader_id) (Some node).
End entry.
