(* ===== verification/RaftState.v ===== *)
(** * The state of a node

    [raft_state/mod.rs], [raft_state/log_state_reader.rs] and
    [core/server_state.rs]: the record [RaftState], the readers of its log
    positions, and the operations that update the accepted I/O, the committed
    position and the log ids. *)

From S2P Require Import Prelude Vote LogId LogIdList Quorum Membership IOState MembershipState.
From S2P Require Import Entry.

Inductive ServerState :=
| ServerState_Learner
| ServerState_Follower
| ServerState_Candidate
| ServerState_Leader
| ServerState_Shutdown.

#[global] Instance ServerState_eq_dec : EqDecision ServerState.
Proof. solve_decision. Defined.

Section raft_state.
Context {C : RaftTypeConfig}.

(** [progress_id_gen], an atomic counter shared by its clones, is the value
    of the counter. *)
Record RaftState := mkRaftState {
  RaftState_vote : Leased Vote;
  RaftState_log_ids : LogIdList;
  RaftState_membership_state : MembershipState;
  RaftState_snapshot_meta : SnapshotMeta;
  RaftState_last_inflight_id : u64;
  RaftState_server_state : ServerState;
  RaftState_io_state : IOState;
  RaftState_purge_upto : option LogId;
  RaftState_progress_id_gen : u64;
}.

Definition RaftState_new (node_id : u64) : RaftState :=
  mkRaftState (Leased_without_last_update (Vote_new_with_default_term node_id))
    LogIdList_default MembershipState_default SnapshotMeta_default 0 ServerState_Learner
    IOState_default None 1.

(** *** Assignments to one field *)

Definition set_vote (s : RaftState) (x : Leased Vote) : RaftState :=
  mkRaftState x (RaftState_log_ids s) (RaftState_membership_state s) (RaftState_snapshot_meta s)
    (RaftState_last_inflight_id s) (RaftState_server_state s) (RaftState_io_state s)
    (RaftState_purge_upto s) (RaftState_progress_id_gen s).
Definition set_log_ids (s : RaftState) (x : LogIdList) : RaftState :=
  mkRaftState (RaftState_vote s) x (RaftState_membership_state s) (RaftState_snapshot_meta s)
    (RaftState_last_inflight_id s) (RaftState_server_state s) (RaftState_io_state s)
    (RaftState_purge_upto s) (RaftState_progress_id_gen s).
Definition set_membership_state (s : RaftState) (x : MembershipState) : RaftState :=
  mkRaftState (RaftState_vote s) (RaftState_log_ids s) x (RaftState_snapshot_meta s)
    (RaftState_last_inflight_id s) (RaftState_server_state s) (RaftState_io_state s)
    (RaftState_purge_upto s) (RaftState_progress_id_gen s).
Definition set_snapshot_meta (s : RaftState) (x : SnapshotMeta) : RaftState :=
  mkRaftState (RaftState_vote s) (RaftState_log_ids s) (RaftState_membership_state s) x
    (RaftState_last_inflight_id s) (RaftState_server_state s) (RaftState_io_state s)
    (RaftState_purge_upto s) (RaftState_progress_id_gen s).
Definition set_last_inflight_id (s : RaftState) (x : u64) : RaftState :=
  mkRaftState (RaftState_vote s) (RaftState_log_ids s) (RaftState_membership_state s)
    (RaftState_snapshot_meta s) x (RaftState_server_state s) (RaftState_io_state s)
    (RaftState_purge_upto s) (RaftState_progress_id_gen s).
Definition set_server_state (s : RaftState) (x : ServerState) : RaftState :=
  mkRaftState (RaftState_vote s) (RaftState_log_ids s) (RaftState_membership_state s)
    (RaftState_snapshot_meta s) (RaftState_last_inflight_id s) x (RaftState_io_state s)
    (RaftState_purge_upto s) (RaftState_progress_id_gen s).
Definition set_io_state (s : RaftState) (x : IOState) : RaftState :=
  mkRaftState (RaftState_vote s) (RaftState_log_ids s) (RaftState_membership_state s)
    (RaftState_snapshot_meta s) (RaftState_last_inflight_id s) (RaftState_server_state s) x
    (RaftState_purge_upto s) (RaftState_progress_id_gen s).
Definition set_purge_upto (s : RaftState) (x : option LogId) : RaftState :=
  mkRaftState (RaftState_vote s) (RaftState_log_ids s) (RaftState_membership_state s)
    (RaftState_snapshot_meta s) (RaftState_last_inflight_id s) (RaftState_server_state s)
    (RaftState_io_state s) x (RaftState_progress_id_gen s).
Definition set_progress_id_gen (s : RaftState) (x : u64) : RaftState :=
  mkRaftState (RaftState_vote s) (RaftState_log_ids s) (RaftState_membership_state s)
    (RaftState_snapshot_meta s) (RaftState_last_inflight_id s) (RaftState_server_state s)
    (RaftState_io_state s) (RaftState_purge_upto s) x.

(** *** [LogStateReader] *)

Definition vote_ref (s : RaftState) : Vote := Leased_data (RaftState_vote s).
Definition log_progress (s : RaftState) : IOProgress IOId :=
  IOState_log_progress (RaftState_io_state s).
Definition apply_progress (s : RaftState) : IOProgress LogId :=
  IOState_apply_progress (RaftState_io_state s).
Definition snapshot_progress (s : RaftState) : IOProgress LogId :=
  IOState_snapshot (RaftState_io_state s).

Definition ref_log_id (s : RaftState) (index : u64) : option LogId :=
  LogIdList_get (RaftState_log_ids s) index.
Definition get_log_id (s : RaftState) (index : u64) : option LogId := ref_log_id s index.
Definition prev_log_id (s : RaftState) (index : u64) : option LogId :=
  if decide (index = 0%N) then None else get_log_id s (u64_sub index 1).
Definition last_log_id (s : RaftState) : option LogId := LogIdList_last (RaftState_log_ids s).
Definition local_committed (s : RaftState) : option LogId :=
  IOProgress_accepted (apply_progress s).
(** [committed] *)
Definition RaftState_committed (s : RaftState) : option LogId :=
  IOProgress_accepted (apply_progress s).
Definition io_applied (s : RaftState) : option LogId := IOState_applied (RaftState_io_state s).
Definition io_snapshot_last_log_id (s : RaftState) : option LogId :=
  IOProgress_flushed (snapshot_progress s).
Definition io_purged (s : RaftState) : option LogId := IOState_purged (RaftState_io_state s).
Definition snapshot_last_log_id (s : RaftState) : option LogId :=
  SnapshotMeta_last_log_id (RaftState_snapshot_meta s).
Definition purge_upto (s : RaftState) : option LogId := RaftState_purge_upto s.
Definition last_purged_log_id (s : RaftState) : option LogId :=
  LogIdList_purged (RaftState_log_ids s).

(** [has_log_id]: a log id at or below the committed index is taken to be
    present. *)
Definition has_log_id (s : RaftState) (log_id : LogId) : bool :=
  if (LogId_index log_id <? next_index (RaftState_committed s)) then true
  else
    match ref_log_id s (LogId_index log_id) with
    | Some local => bool_decide (log_id = local)
    | None => false
    end.

Definition cluster_committed (s : RaftState) : option LogId :=
  io_id ← IOState_cluster_committed (RaftState_io_state s); LogIOId_log_id io_id.

(** [Validate] *)
Definition RaftState_validate (s : RaftState) : bool :=
  (match LogIdList_purged (RaftState_log_ids s) with
   | None => (opt_index (LogIdList_first (RaftState_log_ids s)) <=? Some 0%N)
   | Some _ => true
   end) &&
  (last_purged_log_id s <=? purge_upto s) &&
  (match snapshot_last_log_id s with
   | None => (purge_upto s <=? local_committed s)
   | Some _ => (purge_upto s <=? snapshot_last_log_id s)
   end) &&
  (snapshot_last_log_id s <=? local_committed s) &&
  (local_committed s <=? last_log_id s) &&
  MembershipState_validate (RaftState_membership_state s) &&
  IOState_validate (RaftState_io_state s).

(** *** Operations *)

Definition is_initialized (s : RaftState) : bool :=
  match last_log_id s with
  | Some _ => true
  | None => bool_decide (Vote_term (vote_ref s) ≠ 0%N)
  end.

Definition accepted_log_io (s : RaftState) : option IOId := IOProgress_accepted (log_progress s).

(** [accept_log_io]: with the previously accepted value. *)
Definition accept_log_io (s : RaftState) (accepted : IOId) : RaftState * option IOId :=
  let curr_accepted := IOProgress_accepted (log_progress s) in
  (if pgtb (Some accepted) curr_accepted
   then set_io_state s (set_log_progress (RaftState_io_state s)
          (IOProgress_accept (log_progress s) accepted))
   else s,
   curr_accepted).

Definition extend_log_ids_from_same_leader (s : RaftState) (new_log_ids : list LogId) : RaftState :=
  set_log_ids s (LogIdList_extend_from_same_leader (RaftState_log_ids s) new_log_ids).

Definition extend_log_ids (s : RaftState) (new_log_ids : list LogId) : RaftState :=
  set_log_ids s (LogIdList_extend (RaftState_log_ids s) new_log_ids).

Definition update_local_committed (s : RaftState) (committed : option LogId) : RaftState :=
  match committed with
  | Some c =>
      if (Some c >? local_committed s) then
        let s := set_io_state s (set_apply_progress (RaftState_io_state s)
                   (IOProgress_accept (apply_progress s) c)) in
        set_membership_state s (MembershipState_commit (RaftState_membership_state s) (Some c))
      else s
  | None => s
  end.

(** [update_committed]: the result of [try_update] is ignored. *)
Definition update_committed (s : RaftState) (cluster : LogIOId) : outcome RaftState :=
  r ← MonotonicIncrease_try_update (IOState_cluster_committed (RaftState_io_state s)) cluster;
  let s := match r with
           | Ok v => set_io_state s (set_cluster_committed (RaftState_io_state s) v)
           | Err _ => s
           end in
  local ← calculate_local_committed (RaftState_io_state s);
  Ret (update_local_committed s local).

Fixpoint first_conflicting_index (s : RaftState) (entries : list Entry) : nat :=
  match entries with
  | [] => 0
  | ent :: entries =>
      if negb (has_log_id s (Entry_log_id ent)) then 0
      else S (first_conflicting_index s entries)
  end.

(** [purge_log] *)
Definition RaftState_purge_log (s : RaftState) (upto : LogId) : RaftState :=
  set_log_ids s (LogIdList_purge (RaftState_log_ids s) upto).

Definition RaftState_is_voter (s : RaftState) (id : u64) : bool :=
  MembershipState_is_voter (RaftState_membership_state s) id.
Definition is_leading (s : RaftState) (id : u64) : bool :=
  MembershipState_contains (RaftState_membership_state s) id &&
  bool_decide (Vote_leader_node_id (vote_ref s) = id).
Definition RaftState_is_leader (s : RaftState) (id : u64) : bool :=
  is_leading s id && Vote_is_committed (vote_ref s).

Definition calc_server_state (s : RaftState) (id : u64) : ServerState :=
  if RaftState_is_leader s id then ServerState_Leader
  else if is_leading s id then ServerState_Candidate
  else if RaftState_is_voter s id then ServerState_Follower
  else ServerState_Learner.

Definition new_forward_to_leader (s : RaftState) (to : u64) : ForwardToLeader :=
  match Membership_nodes (StoredMembership_membership
          (MembershipState_effective (RaftState_membership_state s))) !! to with
  | Some n => ForwardToLeader_new to n
  | None => ForwardToLeader_empty
  end.

Definition RaftState_forward_to_leader (s : RaftState) : ForwardToLeader :=
  if Vote_is_committed (vote_ref s) then new_forward_to_leader s (Vote_leader_node_id (vote_ref s))
  else ForwardToLeader_empty.

Definition new_inflight_id (s : RaftState) : RaftState * u64 :=
  let id := u64_add (RaftState_last_inflight_id s) 1 in
  (set_last_inflight_id s id, id).

(** ** Lemmas *)

Context `{!RaftLeaderIdLaws C}.
Implicit Types (s : RaftState).

Lemma first_conflicting_index_spec s entries :
  first_conflicting_index s entries ≤ length entries ∧
  (∀ i e, i < first_conflicting_index s entries → entries !! i = Some e →
    has_log_id s (Entry_log_id e) = true) ∧
  (∀ e, entries !! first_conflicting_index s entries = Some e →
    has_log_id s (Entry_log_id e) = false).
Proof.
  induction entries as [|e entries (IH1 & IH2 & IH3)]; cbn.
  { split_and!; [lia|by intros; lia|done]. }
  destruct (has_log_id s (Entry_log_id e)) eqn:He; cbn.
  - split_and!; [lia| |done].
    intros [|i] e' Hi; cbn; [by intros [= <-]|]. apply IH2. lia.
  - split_and!; [lia|by intros; lia|by intros e' [= <-]].
Qed.

(** Two committed votes that [CommittedVote::cmp] can compare. *)
Definition votes_comparable (a b : CommittedVote) : Prop := partial_cmp a b ≠ None.

Lemma CommittedVote_cmp_comparable a b :
  votes_comparable a b → ∃ c, CommittedVote_cmp a b = Ret c ∧ partial_cmp a b = Some c.
Proof.
  unfold votes_comparable, CommittedVote_cmp. change (RefVote_partial_cmp _ _ _ _) with (partial_cmp a b).
  destruct (partial_cmp a b) as [c|]; [|done]. eauto.
Qed.

Lemma try_update_total (cur : option LogIOId) new :
  (∀ c, cur = Some c → votes_comparable (LogIOId_committed_vote new) (LogIOId_committed_vote c)) →
  ∃ r, MonotonicIncrease_try_update cur new = Ret r ∧
    (r = Err cur ∨ r = Ok (Some new)).
Proof.
  intros Hc. unfold MonotonicIncrease_try_update, MonotonicIncrease_try_update_option.
  destruct cur as [c|]; cbn; [|eauto].
  destruct (CommittedVote_cmp_comparable _ _ (Hc c eq_refl)) as (o & Ho & _).
  unfold LogIOId_partial_cmp. rewrite Ho. cbn.
  destruct (lex _ _); eauto.
Qed.

Lemma calculate_local_committed_total (io : IOState) :
  (∀ cl ac v, IOState_cluster_committed io = Some cl →
    IOProgress_accepted (IOState_log_progress io) = Some ac → IOId_to_committed_vote ac = Some v →
    votes_comparable v (LogIOId_committed_vote cl)) →
  ∃ r, calculate_local_committed io = Ret r.
Proof.
  intros Hc. unfold calculate_local_committed.
  destruct (IOState_cluster_committed io) as [cl|]; [|eauto].
  destruct (IOProgress_accepted _) as [ac|]; [|eauto].
  destruct (IOId_to_committed_vote ac) as [v|] eqn:Hv; [|eauto].
  destruct (CommittedVote_cmp_comparable _ _ (Hc cl ac v eq_refl eq_refl Hv)) as (o & -> & _).
  cbn. eauto.
Qed.

Lemma update_local_committed_spec s c :
  let s' := update_local_committed s c in
  local_committed s' = omax (local_committed s) c ∧
  RaftState_membership_state s' =
    (if (c >? local_committed s) then MembershipState_commit (RaftState_membership_state s) c
     else RaftState_membership_state s) ∧
  IOState_cluster_committed (RaftState_io_state s') =
    IOState_cluster_committed (RaftState_io_state s) ∧
  accepted_log_io s' = accepted_log_io s.
Proof.
  cbn zeta. unfold update_local_committed, omax.
  destruct c as [c|].
  - destruct (ltb_spec (local_committed s) (Some c)) as [Hlt|Hge].
    + cbn. destruct (leb_spec (local_committed s) (Some c)); [done|ord].
    + split_and!; try done. destruct (leb_spec (local_committed s) (Some c)); [|done]. ord.
  - split_and!; try done.
    + destruct (leb_spec (local_committed s) None) as [Hle|]; [|done].
      destruct (local_committed s); [by apply Some_le_None in Hle|done].
    + destruct (ltb_spec (local_committed s) None) as [Hlt|]; [|done].
      by apply lt_is_Some in Hlt as [? ?].
Qed.

(** Under votes in order, two I/O ids are comparable. *)
Lemma IOId_not_gt_le (a io : IOId) :
  pleb (Some (IOId_to_app_vote a)) (Some (IOId_to_app_vote io)) = true →
  pgtb (Some io) (Some a) = false → pleb (Some io) (Some a) = true.
Proof.
  change (pleb (Some (IOId_to_app_vote a)) (Some (IOId_to_app_vote io)))
    with (pleb (IOId_to_app_vote a) (IOId_to_app_vote io)).
  change (pgtb (Some io) (Some a)) with (pgtb io a). change (pleb (Some io) (Some a)) with (pleb io a).
  rewrite <- pgeb_flip. unfold pleb, pgtb, pgeb.
  unfold partial_cmp at 2 3, IOId_partial_ord; cbn.
  destruct (partial_cmp (IOId_to_app_vote io) (IOId_to_app_vote a)) as [[]|]; cbn; try done.
  intros _. destruct (IOId_last_log_id io) as [x|], (IOId_last_log_id a) as [y|]; cbn; try done.
  unfold partial_cmp, LogId_partial_ord. by destruct (cmp x y).
Qed.

(** ** Properties *)

(** [update_committed] returns whenever the votes it compares are
    comparable; the local committed log id never moves back, and it moves only
    up to a log id that both the cluster committed position and the accepted
    log reach, accepted under a vote at least that of the leader that reported
    the commit; the committed membership follows it. *)
Theorem update_committed_safe s (cluster : LogIOId) :
  (∀ c, IOState_cluster_committed (RaftState_io_state s) = Some c →
    votes_comparable (LogIOId_committed_vote cluster) (LogIOId_committed_vote c)) →
  (∀ ac v cl, accepted_log_io s = Some ac → IOId_to_committed_vote ac = Some v →
    cl = cluster ∨ IOState_cluster_committed (RaftState_io_state s) = Some cl →
    votes_comparable v (LogIOId_committed_vote cl)) →
  ∃ s', update_committed s cluster = Ret s' ∧
    local_committed s ≼ local_committed s' ∧
    (∀ c, local_committed s' = Some c → local_committed s' ≠ local_committed s →
      ∃ cl ac, IOState_cluster_committed (RaftState_io_state s') = Some cl ∧
        accepted_log_io s = Some ac ∧
        Some c ≼ LogIOId_log_id cl ∧ Some c ≼ IOId_last_log_id ac ∧
        pleb (CommittedVote_into_vote (LogIOId_committed_vote cl)) (IOId_to_app_vote ac) = true ∧
        RaftState_membership_state s' =
          MembershipState_commit (RaftState_membership_state s) (Some c)) ∧
    (local_committed s' = local_committed s →
      RaftState_membership_state s' = RaftState_membership_state s).
Proof.
  intros H1 H2. unfold update_committed.
  destruct (try_update_total _ _ H1) as (r & -> & Hr). cbn.
  set (s1 := match r with Ok v => _ | Err _ => s end).
  assert (local_committed s1 = local_committed s ∧ accepted_log_io s1 = accepted_log_io s ∧
    RaftState_membership_state s1 = RaftState_membership_state s ∧
    (IOState_cluster_committed (RaftState_io_state s1) = Some cluster ∨
     IOState_cluster_committed (RaftState_io_state s1) =
       IOState_cluster_committed (RaftState_io_state s))) as (Hl & Ha & Hm & Hcl)
    by (destruct Hr as [-> | ->]; subst s1; cbn; auto).
  destruct (calculate_local_committed_total (RaftState_io_state s1)) as [local Hlocal].
  { intros cl ac v Hc Hac Hv. apply (H2 ac v cl); [by rewrite <- Ha|done|].
    destruct Hcl as [Hcl|Hcl]; rewrite Hcl in Hc; naive_solver. }
  rewrite Hlocal. cbn. eexists; split; [done|].
  destruct (update_local_committed_spec s1 local) as (Hl' & Hm' & Hc' & _).
  rewrite Hl', Hm', Hc', Hl, Hm. split_and!.
  - apply omax_l.
  - intros c Hc Hne. unfold omax in Hc, Hne.
    destruct (leb_spec (local_committed s) local); [|done]. subst local.
    apply calculate_local_committed_spec in Hlocal as (cl & ac & Hcl' & Hac & ? & ? & _ & ?).
    exists cl, ac. rewrite <- Ha. split_and!; try done.
    destruct (ltb_spec (local_committed s) (Some c)); [done|]. destruct Hne. ord.
  - intros Heq. destruct (ltb_spec (local_committed s) local) as [Hlt|]; [|done].
    unfold omax in Heq. exfalso. destruct (leb_spec (local_committed s) local); ord.
Qed.

(** An accepted log I/O whose vote is at least that of the accepted one
    (what every caller establishes) makes the accepted position the larger of
    the two, never a smaller one, and keeps [flushed <= submitted <= accepted];
    the previous position is returned. *)
Theorem accept_log_io_monotone s (io : IOId) :
  pleb (IOId_to_app_vote <$> accepted_log_io s) (Some (IOId_to_app_vote io)) = true →
  let '(s', prev) := accept_log_io s io in
  prev = accepted_log_io s ∧
  pleb (accepted_log_io s) (accepted_log_io s') = true ∧
  pleb (Some io) (accepted_log_io s') = true ∧
  (accepted_log_io s' = accepted_log_io s ∨ accepted_log_io s' = Some io) ∧
  (IOProgress_validate (log_progress s) = true → IOProgress_validate (log_progress s') = true).
Proof.
  intros Hv. unfold accept_log_io. fold (accepted_log_io s).
  destruct (pgtb (Some io) (accepted_log_io s)) eqn:Hgt.
  - rewrite pgtb_flip in Hgt. apply pltb_pleb in Hgt. cbn. split_and!; auto.
    + apply pleb_refl.
    + intros Hval. by apply accept_validate.
  - split_and!; auto.
    + apply pleb_refl.
    + destruct (accepted_log_io s) as [a|]; [|done]. cbn in Hv.
      by apply IOId_not_gt_le.
Qed.

End raft_state.

(** ** Witnesses *)

Module RaftStateWitness.
#[local] Existing Instance adv_config.
Import LogIdListWitness MembershipWitness.

Definition leader23 : CommittedVote := CommittedVote_new (C := adv_config) (LeaderIdAdv.mk 2 3).
Definition accepted7 : IOId := IOId_new_log_io leader23 (Some (lid 2 3 7)).

(** A follower of node 3 in term 2 with the log [sample] (entries 3 to 7). *)
Definition follower : RaftState :=
  mkRaftState (mkLeased (mkVote (C := adv_config) (LeaderIdAdv.mk 2 3) true) (Some 100%N) 300 true)
    sample
    (mkMembershipState (mkStoredMembership (Some (lid 1 1 1)) m123)
       (mkStoredMembership (Some (lid 1 1 4)) m1234))
    (mkSnapshotMeta (Some (lid 1 1 3)) (mkStoredMembership (Some (lid 1 1 1)) m123))
    7 ServerState_Follower
    (mkIOState false
       (mkIOProgress (Some accepted7) (Some accepted7) (Some accepted7))
       (IOProgress_new_synchronized (Some (lid 1 1 3)))
       (IOProgress_new_synchronized (Some (lid 1 1 3))) None (Some (lid 1 1 2)))
    (Some (lid 1 1 2)) 5.

Lemma follower_validate : RaftState_validate follower = true.
Proof. vm_compute. reflexivity. Qed.

Lemma update_committed_safe_witness :
  ∃ s', update_committed follower (mkLogIOId leader23 (Some (lid 2 3 9))) = Ret s' ∧
    local_committed follower ≼ local_committed s'.
Proof.
  destruct (update_committed_safe follower (mkLogIOId leader23 (Some (lid 2 3 9))))
    as (s' & ? & ? & _); [done| |eauto].
  intros ac v cl [= <-] [= <-] [-> |[=]]. done.
Defined.

Lemma accept_log_io_monotone_witness :
  pleb (Some (IOId_new_log_io leader23 (Some (lid 2 3 9))))
    (accepted_log_io (accept_log_io follower (IOId_new_log_io leader23 (Some (lid 2 3 9)))).1) = true.
Proof.
  pose proof (accept_log_io_monotone follower (IOId_new_log_io leader23 (Some (lid 2 3 9)))) as H.
  destruct H as (_ & _ & H & _); [vm_compute; reflexivity|]. exact H.
Defined.
End RaftStateWitness.
