(* ===== verification/Config.v ===== *)
(** * Configuration

    [config/config_impl.rs], [config/error.rs], [config/step_down_policy.rs],
    [config/runtime_config.rs], [engine/engine_config.rs] and
    [engine/time_state.rs].  Parsing the backoff policy string is a parameter:
    it is the [backoff_series] crate. *)

From stdpp Require Import strings.
From S2P Require Import Prelude Vote LogId IOState RaftState.

Inductive SnapshotPolicy :=
| SnapshotPolicy_LogsSinceLast (threshold : u64)
| SnapshotPolicy_Never.

Inductive StepDownPolicy :=
| StepDownPolicy_Never
| StepDownPolicy_After (ms : u64).

Record Config := mkConfig {
  cluster_name : string;
  election_timeout_min : u64;
  election_timeout_max : u64;
  heartbeat_interval : u64;
  heartbeat_min_interval : option u64;
  install_snapshot_timeout : u64;
  max_payload_entries : u64;
  max_append_entries : option u64;
  replication_lag_threshold : u64;
  snapshot_policy : SnapshotPolicy;
  snapshot_max_chunk_size : u64;
  max_in_snapshot_log_to_keep : u64;
  purge_batch_size : u64;
  api_channel_size : option u64;
  api_batch_capacity : u64;
  api_batch_linger_ms : u64;
  notification_channel_size : option u64;
  state_machine_channel_size : option u64;
  enable_tick : bool;
  enable_heartbeat : bool;
  enable_elect : bool;
  removed_leader_step_down : StepDownPolicy;
  enable_pre_vote : option bool;
  backoff : string;
  allow_log_reversion : option bool;
  enable_leader_restore : option bool;
}.

(** [DEFAULTS] and [Default for Config] *)
Definition Config_default : Config := {|
  cluster_name := "foo";
  election_timeout_min := 150;
  election_timeout_max := 300;
  heartbeat_interval := 50;
  heartbeat_min_interval := Some 0%N;
  install_snapshot_timeout := 200;
  max_payload_entries := 300;
  max_append_entries := Some 4096%N;
  replication_lag_threshold := 5000;
  snapshot_policy := SnapshotPolicy_LogsSinceLast 5000;
  snapshot_max_chunk_size := 3 * 1024 * 1024;
  max_in_snapshot_log_to_keep := 1000;
  purge_batch_size := 1;
  api_channel_size := Some 65536%N;
  api_batch_capacity := 4096;
  api_batch_linger_ms := 0;
  notification_channel_size := Some 65536%N;
  state_machine_channel_size := Some 1024%N;
  enable_tick := true;
  enable_heartbeat := true;
  enable_elect := true;
  removed_leader_step_down := StepDownPolicy_After 150;
  enable_pre_vote := None;
  backoff := "200ms";
  allow_log_reversion := None;
  enable_leader_restore := None;
|}.

Definition get_allow_log_reversion (c : Config) : bool := default false (allow_log_reversion c).
Definition get_enable_leader_restore (c : Config) : bool := default true (enable_leader_restore c).
Definition get_enable_pre_vote (c : Config) : bool := default false (enable_pre_vote c).
Definition get_max_append_entries (c : Config) : u64 := default 4096%N (max_append_entries c).
Definition get_heartbeat_min_interval (c : Config) : u64 :=
  default 0%N (heartbeat_min_interval c).

Definition u64_mul (a b : u64) : u64 := ((a * b) mod u64_modulus)%N.

Definition tick_interval (c : Config) : u64 :=
  omax (u64_mul (heartbeat_interval c) 13 / 64)%N 1%N.

(** [ConfigError]: the variants that [validate] returns. *)
Inductive ConfigError (BackoffParseError : Type) :=
| ConfigError_ElectionTimeout (min max : u64)
| ConfigError_MaxPayloadIs0
| ConfigError_ElectionTimeoutLTHeartBeat (election_timeout_min heartbeat_interval : u64)
| ConfigError_HeartbeatMinIntervalTooLarge
    (election_timeout_min heartbeat_interval heartbeat_min_interval : u64)
| ConfigError_InvalidBackoff (e : BackoffParseError).
Arguments ConfigError_ElectionTimeout {BackoffParseError}.
Arguments ConfigError_MaxPayloadIs0 {BackoffParseError}.
Arguments ConfigError_ElectionTimeoutLTHeartBeat {BackoffParseError}.
Arguments ConfigError_HeartbeatMinIntervalTooLarge {BackoffParseError}.
Arguments ConfigError_InvalidBackoff {BackoffParseError}.

Definition max_heartbeat_gap (c : Config) : u64 :=
  u64_add (u64_add (get_heartbeat_min_interval c) (heartbeat_interval c)) (tick_interval c).

Section validate.
Context {BackoffSeries BackoffParseError : Type}.
Context (parse_backoff : string → result BackoffSeries BackoffParseError).

Definition Config_validate (c : Config) : result Config (ConfigError BackoffParseError) :=
  if (election_timeout_min c >=? election_timeout_max c) then
    Err (ConfigError_ElectionTimeout (election_timeout_min c) (election_timeout_max c))
  else if (election_timeout_min c <=? heartbeat_interval c) then
    Err (ConfigError_ElectionTimeoutLTHeartBeat (election_timeout_min c) (heartbeat_interval c))
  else if (get_heartbeat_min_interval c >? 0%N) &&
          (election_timeout_min c <=? max_heartbeat_gap c) then
    Err (ConfigError_HeartbeatMinIntervalTooLarge (election_timeout_min c)
           (heartbeat_interval c) (get_heartbeat_min_interval c))
  else if decide (max_payload_entries c = 0%N) then Err ConfigError_MaxPayloadIs0
  else
    match parse_backoff (backoff c) with
    | Err e => Err (ConfigError_InvalidBackoff e)
    | Ok _ => Ok c
    end.

(** A configuration is accepted exactly when the election timeout range is
    not empty, elections wait longer than the heartbeats of a leader are
    apart, suppression included, a payload carries an entry, and the backoff
    policy parses; it is then returned unchanged. *)
Theorem config_validate_ok (c : Config) :
  (get_heartbeat_min_interval c + heartbeat_interval c + tick_interval c < u64_modulus)%N →
  (∀ c', Config_validate c = Ok c' → c' = c) ∧
  (Config_validate c = Ok c ↔
    (election_timeout_min c < election_timeout_max c)%N ∧
    (heartbeat_interval c < election_timeout_min c)%N ∧
    ((0 < get_heartbeat_min_interval c)%N →
      (get_heartbeat_min_interval c + heartbeat_interval c + tick_interval c
        < election_timeout_min c)%N) ∧
    max_payload_entries c ≠ 0%N ∧ ∃ b, parse_backoff (backoff c) = Ok b).
Proof.
  intros Hgap.
  assert (max_heartbeat_gap c =
    (get_heartbeat_min_interval c + heartbeat_interval c + tick_interval c)%N) as Hg.
  { unfold max_heartbeat_gap. by rewrite !u64_add_small by (rewrite ?u64_add_small; lia). }
  unfold Config_validate. rewrite Hg. clear Hg.
  destruct (leb_spec (election_timeout_max c) (election_timeout_min c)) as [H1|H1];
    rewrite ?N_ord_lt, ?N_ord_le in *; [split; [done|split; [done|lia]]|].
  destruct (leb_spec (election_timeout_min c) (heartbeat_interval c)) as [H2|H2];
    rewrite ?N_ord_lt, ?N_ord_le in *; [split; [done|split; [done|lia]]|].
  destruct (ltb_spec 0%N (get_heartbeat_min_interval c)) as [H3|H3];
    [destruct (leb_spec (election_timeout_min c)
       (get_heartbeat_min_interval c + heartbeat_interval c + tick_interval c)%N) as [H4|H4]|];
    cbn; rewrite ?N_ord_lt, ?N_ord_le in *; [split; [done|split; [done|lia]]|..];
    (case_decide; [split; [done|split; [done|naive_solver]]|]);
    destruct (parse_backoff (backoff c)) as [b|] eqn:Hb;
    (split; [by intros c' [= ->]|split; [|naive_solver]]); try done;
    intros _; (split_and!; [lia|lia|intros; lia|done|by exists b]).
Qed.

(** Near the largest [u64] the sum of the intervals wraps, and a heartbeat
    interval longer than any election timeout is accepted. *)
Lemma config_validate_gap_wraps (b : BackoffSeries) :
  parse_backoff "200ms" = Ok b →
  ∃ c, Config_validate c = Ok c ∧
    (election_timeout_min c < get_heartbeat_min_interval c)%N.
Proof.
  intros Hb.
  exists (mkConfig "foo" 150 300 50 (Some 18446744073709551600%N) 200 300 (Some 4096%N) 5000
    SnapshotPolicy_Never 1 1000 1 None 4096 0 None None true true true StepDownPolicy_Never None
    "200ms" None None).
  split; [|done]. unfold Config_validate; cbn [backoff]. rewrite Hb. vm_compute. reflexivity.
Qed.
End validate.

(** [SnapshotPolicy::should_snapshot] *)
Section snapshot_policy.
Context {C : RaftTypeConfig}.

Definition should_snapshot (p : SnapshotPolicy) (state : RaftState)
    (last_tried_at : option LogId) : option LogId :=
  match p with
  | SnapshotPolicy_LogsSinceLast threshold =>
      let committed_next := next_index (RaftState_committed state) in
      let base_log_id := omax last_tried_at (snapshot_last_log_id state) in
      if (committed_next >=? u64_add (next_index base_log_id) threshold)
      then RaftState_committed state else None
  | SnapshotPolicy_Never => None
  end.
End snapshot_policy.

(** [RuntimeConfig], initially *)
Record RuntimeConfig := mkRuntimeConfig {
  RuntimeConfig_enable_heartbeat : bool;
  RuntimeConfig_enable_elect : bool;
  RuntimeConfig_enable_pre_vote : bool;
}.

Definition RuntimeConfig_new (c : Config) : RuntimeConfig :=
  mkRuntimeConfig (enable_heartbeat c) (enable_elect c) (get_enable_pre_vote c).

(** [time_state::Config]; durations are in milliseconds. *)
Record TimeConfig := mkTimeConfig {
  election_timeout : Duration;
  smaller_log_timeout : Duration;
  leader_lease : Duration;
}.

Record EngineConfig := mkEngineConfig {
  EngineConfig_id : u64;
  EngineConfig_max_in_snapshot_log_to_keep : u64;
  EngineConfig_purge_batch_size : u64;
  EngineConfig_max_payload_entries : u64;
  EngineConfig_allow_log_reversion : bool;
  EngineConfig_election_timeout_min : u64;
  EngineConfig_election_timeout_max : u64;
  EngineConfig_timer_config : TimeConfig;
  EngineConfig_enable_leader_restore : bool;
}.

(** [resample_election_timeout]: [sample] is the draw of the random number
    generator from [election_timeout_min .. election_timeout_max]. *)
Definition resample_election_timeout (c : EngineConfig) (sample : u64) : EngineConfig :=
  mkEngineConfig (EngineConfig_id c) (EngineConfig_max_in_snapshot_log_to_keep c)
    (EngineConfig_purge_batch_size c) (EngineConfig_max_payload_entries c)
    (EngineConfig_allow_log_reversion c) (EngineConfig_election_timeout_min c)
    (EngineConfig_election_timeout_max c)
    (mkTimeConfig sample (smaller_log_timeout (EngineConfig_timer_config c))
       (leader_lease (EngineConfig_timer_config c)))
    (EngineConfig_enable_leader_restore c).

Definition EngineConfig_new (id : u64) (c : Config) (sample : u64) : EngineConfig :=
  resample_election_timeout
    (mkEngineConfig id (max_in_snapshot_log_to_keep c) (purge_batch_size c)
       (max_payload_entries c) (get_allow_log_reversion c) (election_timeout_min c)
       (election_timeout_max c)
       (mkTimeConfig 0 (u64_mul (election_timeout_max c) 2) (election_timeout_max c))
       (get_enable_leader_restore c))
    sample.

(** ** Witnesses *)

Module ConfigWitness.
Definition parse (s : string) : result unit unit := Ok tt.

Lemma config_validate_ok_witness : Config_validate parse Config_default = Ok Config_default.
Proof.
  apply (config_validate_ok parse Config_default); [vm_compute; reflexivity|].
  split_and!; try done. by exists tt.
Defined.
End ConfigWitness.
