(* ===== verification/ProgressEntry.v ===== *)
(** * Replication progress of one target

    [progress/inflight/mod.rs], [progress/entry/mod.rs] and
    [progress/entry/update.rs]: what is being sent to a follower, the binary
    search for the last matching log, and how responses update both. *)

From S2P Require Import Prelude Vote LogId LogIdList Quorum VecProgress IOState RaftState Config.

Section progress_entry.
Context {C : RaftTypeConfig}.

(** ** [Inflight] *)

Inductive Inflight :=
| Inflight_None
| Inflight_Logs (log_id_range : LogIdRange) (inflight_id : u64)
| Inflight_LogsSince (prev : option LogId) (inflight_id : u64)
| Inflight_Snapshot (inflight_id : u64).

Definition Inflight_validate (i : Inflight) : bool :=
  match i with
  | Inflight_Logs r _ => LogIdRange_validate r
  | _ => true
  end.

Definition Inflight_logs (prev last : option LogId) (inflight_id : u64) : Inflight :=
  if (prev >=? last) then Inflight_None
  else Inflight_Logs (mkLogIdRange prev last) inflight_id.

Definition Inflight_snapshot (inflight_id : u64) : Inflight := Inflight_Snapshot inflight_id.

Definition Inflight_is_none (i : Inflight) : bool :=
  match i with Inflight_None => true | _ => false end.
Definition Inflight_is_logs_since (i : Inflight) : bool :=
  match i with Inflight_LogsSince _ _ => true | _ => false end.

(** [ack]: with whether the ack was applied. *)
Definition Inflight_ack (i : Inflight) (upto : option LogId) (from_inflight_id : u64) :
    Inflight * bool :=
  match i with
  | Inflight_None => (i, false)
  | Inflight_Logs r inflight_id =>
      if decide (inflight_id ≠ from_inflight_id) then (i, false)
      else (Inflight_logs upto (LogIdRange_last r) inflight_id, true)
  | Inflight_Snapshot inflight_id =>
      if decide (inflight_id ≠ from_inflight_id) then (i, false)
      else (Inflight_None, true)
  | Inflight_LogsSince prev inflight_id =>
      if decide (inflight_id ≠ from_inflight_id) then (i, false)
      else (Inflight_LogsSince upto inflight_id, true)
  end.

(** [conflict]: a conflict for the snapshot being sent is [unreachable!]. *)
Definition Inflight_conflict (i : Inflight) (conflict from_inflight_id : u64) :
    outcome (Inflight * bool) :=
  match i with
  | Inflight_None => Ret (i, false)
  | Inflight_Logs _ inflight_id =>
      if decide (inflight_id ≠ from_inflight_id) then Ret (i, false)
      else Ret (Inflight_None, true)
  | Inflight_Snapshot inflight_id =>
      if decide (inflight_id ≠ from_inflight_id) then Ret (i, false)
      else Panic
  | Inflight_LogsSince _ inflight_id =>
      if decide (inflight_id ≠ from_inflight_id) then Ret (i, false)
      else Ret (Inflight_None, true)
  end.

(** ** [ProgressEntry] *)

Record ProgressData := mkProgressData {
  ProgressData_stream_id : u64;
  ProgressData_inflight : Inflight;
  ProgressData_searching_end : u64;
  ProgressData_allow_log_reversion : bool;
}.

Record ProgressEntry := mkProgressEntry {
  ProgressEntry_id : u64;
  ProgressEntry_matching : option LogId;
  ProgressEntry_data : ProgressData;
}.

Definition ProgressData_new (stream_id searching_end : u64) : ProgressData :=
  mkProgressData stream_id Inflight_None searching_end false.

Definition ProgressEntry_empty (id stream_id end' : u64) : ProgressEntry :=
  mkProgressEntry id None (ProgressData_new stream_id end').

#[global] Instance ProgressEntry_entry : VecProgressEntry ProgressEntry (option LogId) := {|
  entry_id := ProgressEntry_id;
  progress := ProgressEntry_matching;
  set_progress := λ v e, mkProgressEntry (ProgressEntry_id e) v (ProgressEntry_data e);
|}.
#[global] Instance ProgressEntry_entry_laws : VecProgressEntryLaws ProgressEntry (option LogId).
Proof. by split. Qed.

Definition inflight (e : ProgressEntry) : Inflight := ProgressData_inflight (ProgressEntry_data e).
Definition searching_end (e : ProgressEntry) : u64 :=
  ProgressData_searching_end (ProgressEntry_data e).
Definition stream_id (e : ProgressEntry) : u64 := ProgressData_stream_id (ProgressEntry_data e).

Definition set_data (e : ProgressEntry) (d : ProgressData) : ProgressEntry :=
  mkProgressEntry (ProgressEntry_id e) (ProgressEntry_matching e) d.
Definition set_inflight (e : ProgressEntry) (i : Inflight) : ProgressEntry :=
  set_data e (mkProgressData (stream_id e) i (searching_end e)
    (ProgressData_allow_log_reversion (ProgressEntry_data e))).
Definition set_searching_end (e : ProgressEntry) (end' : u64) : ProgressEntry :=
  set_data e (mkProgressData (stream_id e) (inflight e) end'
    (ProgressData_allow_log_reversion (ProgressEntry_data e))).
Definition set_allow_log_reversion (e : ProgressEntry) (b : bool) : ProgressEntry :=
  set_data e (mkProgressData (stream_id e) (inflight e) (searching_end e) b).
Definition set_matching (e : ProgressEntry) (m : option LogId) : ProgressEntry :=
  mkProgressEntry (ProgressEntry_id e) m (ProgressEntry_data e).

Definition is_log_range_inflight (e : ProgressEntry) (upto : LogId) : bool :=
  match inflight e with
  | Inflight_None => false
  | Inflight_Logs r _ => Some upto >? LogIdRange_prev r
  | Inflight_Snapshot _ => false
  | Inflight_LogsSince prev _ => Some upto >? prev
  end.

Definition calc_mid (matching_next end' : u64) : u64 :=
  let d := u64_sub end' matching_next in
  let offset := (d / 16 * 8)%N in
  u64_add matching_next offset.

(** [next_send]: the entry, the node state and whether the inflight of the
    entry was set ([Ok]) or already there ([Err]). *)
Definition next_send (e : ProgressEntry) (log_state : RaftState) (max_entries : u64) :
    ProgressEntry * RaftState * result Inflight Inflight :=
  if negb (Inflight_is_none (inflight e)) then (e, log_state, Err (inflight e))
  else
    let last_next := next_index (last_log_id log_state) in
    let purge_upto_next := next_index (purge_upto log_state) in
    let '(log_state, inflight_id) := new_inflight_id log_state in
    let ret i := (set_inflight e i, log_state, Ok i) in
    if (searching_end e <? purge_upto_next) then ret (Inflight_snapshot inflight_id)
    else
      let matching_next := next_index (ProgressEntry_matching e) in
      if (matching_next <? searching_end e) then
        let mid := calc_mid matching_next (searching_end e) in
        let start := omax mid purge_upto_next in
        let end' := omin (u64_add start max_entries) last_next in
        if decide (start = end') then ret (Inflight_snapshot inflight_id)
        else
          let prev := prev_log_id log_state start in
          let last := prev_log_id log_state end' in
          ret (Inflight_logs prev last inflight_id)
      else ret (Inflight_LogsSince (ProgressEntry_matching e) inflight_id).

(** [Validate] *)
Definition ProgressEntry_validate (e : ProgressEntry) : bool :=
  (next_index (ProgressEntry_matching e) <=? searching_end e) &&
  Inflight_validate (inflight e) &&
  match inflight e with
  | Inflight_Logs r _ =>
      (ProgressEntry_matching e <=? LogIdRange_prev r) &&
      (next_index (LogIdRange_prev r) <=? searching_end e)
  | _ => true
  end.

(** ** [Updater] *)

Definition update_conflicting (c : EngineConfig) (e : ProgressEntry) (conflict : u64)
    (inflight_id : option u64) : outcome ProgressEntry :=
  r ← match inflight_id with
      | Some inflight_id =>
          p ← Inflight_conflict (inflight e) conflict inflight_id;
          let '(i, applied) := (p : Inflight * bool) in
          Ret (set_inflight e i, applied)
      | None => Ret (e, true)
      end;
  let '(e, applied) := (r : ProgressEntry * bool) in
  Ret (
    if negb applied then e
    else if (conflict >=? searching_end e) then e
    else
      let e := set_searching_end e conflict in
      let allow_reset :=
        ProgressData_allow_log_reversion (ProgressEntry_data e) ||
        EngineConfig_allow_log_reversion c in
      if allow_reset then
        if (conflict <? next_index (ProgressEntry_matching e)) then
          let e := set_allow_log_reversion (set_matching e None) false in
          if Inflight_is_logs_since (inflight e) then set_inflight e Inflight_None else e
        else e
      else e).

Definition update_matching (e : ProgressEntry) (matching : option LogId)
    (inflight_id : option u64) : ProgressEntry :=
  let '(e, applied) :=
    match inflight_id with
    | Some inflight_id =>
        let '(i, applied) := Inflight_ack (inflight e) matching inflight_id in
        (set_inflight e i, applied)
    | None => (e, true)
    end in
  if negb applied then e
  else
    let is_none := match inflight_id with None => true | Some _ => false end in
    if is_none && (matching <=? ProgressEntry_matching e) then e
    else
      let e := set_matching e matching in
      let matching_next := next_index (ProgressEntry_matching e) in
      set_searching_end e (omax (searching_end e) matching_next).

(** ** Lemmas *)

Context `{!RaftLeaderIdLaws C}.
Implicit Types (e : ProgressEntry) (st : RaftState).

Lemma set_inflight_id e : set_inflight e (inflight e) = e.
Proof. by destruct e as [? ? []]. Qed.

(** The matching log id of a target is one of the leader's log, or was purged
    from it. *)
Definition matching_in_log st (m : option LogId) : Prop :=
  match m with
  | None => True
  | Some x =>
      get_log_id st (LogId_index x) = Some x ∨
      ∃ p, last_purged_log_id st = Some p ∧ x ≼ p ∧ (LogId_index x ≤ LogId_index p)%N
  end.

Lemma calc_mid_spec (m e : u64) :
  (m ≤ e)%N → in_u64 e →
  calc_mid m e = (m + (e - m) / 16 * 8)%N ∧ (calc_mid m e ≤ e)%N ∧
  (m < e → calc_mid m e < e)%N.
Proof.
  intros Hme He. unfold calc_mid. rewrite u64_sub_small by done.
  pose proof (N.Div0.mul_div_le (e - m) 16).
  unfold in_u64 in He. rewrite u64_add_small by lia. lia.
Qed.

(** [prev_log_id] within the log: the id just before the index. *)
Lemma prev_log_id_spec st (start : u64) :
  LogIdList_wf (RaftState_log_ids st) →
  (LogIdList_first_index (RaftState_log_ids st) ≤ start ≤ next_index (last_log_id st))%N → in_u64 start →
  next_index (prev_log_id st start) = start ∧
  match prev_log_id st start with
  | Some x => (0 < start)%N ∧ get_log_id st (start - 1) = Some x
  | None => start = 0%N
  end.
Proof.
  intros Hl Hs Hu. unfold prev_log_id. case_decide as H0; [by subst|].
  rewrite u64_sub_small by (done || lia).
  destruct (LogIdList_get_is_Some (RaftState_log_ids st) (start - 1)%N) as [x Hx]; [done|lia| |unfold last_log_id in Hs; lia|].
  { intros Hp. pose proof (first_index_purged (RaftState_log_ids st) Hl) as Hf. rewrite Hp in Hf. lia. }
  unfold get_log_id, ref_log_id. rewrite Hx. split_and!; [|lia|done].
  cbn. rewrite (LogIdList_get_index (RaftState_log_ids st) _ x Hl Hx). unfold in_u64 in Hu.
  rewrite u64_add_small; lia.
Qed.

Lemma prev_log_id_lt st (a b : u64) :
  LogIdList_wf (RaftState_log_ids st) → (LogIdList_first_index (RaftState_log_ids st) ≤ a)%N → (a < b)%N →
  (b ≤ next_index (last_log_id st))%N → in_u64 b →
  prev_log_id st a ≺ prev_log_id st b.
Proof.
  intros Hl Ha Hab Hb Hu. unfold in_u64 in *.
  destruct (prev_log_id_spec st a Hl) as [_ Hpa]; [lia|unfold in_u64; lia|].
  destruct (prev_log_id_spec st b Hl) as [_ Hpb]; [lia|done|].
  destruct (prev_log_id st b) as [y|]; [|lia]. destruct (prev_log_id st a) as [x|]; [|done].
  apply Some_lt. destruct Hpa as [? Hx], Hpb as [? Hy].
  eapply (LogIdList_get_lt (RaftState_log_ids st)); [done|exact Hx|exact Hy|lia].
Qed.

Lemma matching_le_prev st m (start : u64) :
  LogIdList_wf (RaftState_log_ids st) →
  (LogIdList_first_index (RaftState_log_ids st) ≤ start ≤ next_index (last_log_id st))%N → in_u64 start →
  in_u64 (next_index (last_log_id st) + 1) →
  matching_in_log st m → (next_index m ≤ start)%N → m ≼ prev_log_id st start.
Proof.
  intros Hl Hs Hu Hlast Hm Hle. destruct m as [m|]; [|apply None_le].
  destruct (prev_log_id_spec st start Hl Hs Hu) as [_ Hp].
  pose proof (first_index_purged (RaftState_log_ids st) Hl) as Hf. unfold in_u64 in *.
  destruct Hm as [Hm|(p & Hpp & Hmp & Hi)].
  - assert (LogId_index m < next_index (last_log_id st))%N as Hb
      by (by apply (LogIdList_get_bounds (RaftState_log_ids st)) in Hm as [_ ?]).
    rewrite next_index_some in Hle by lia.
    destruct (prev_log_id st start) as [x|]; [|lia]. destruct Hp as [? Hx].
    apply Some_le. eapply (LogIdList_get_le (RaftState_log_ids st)); [done|exact Hm|exact Hx|lia].
  - unfold last_purged_log_id in Hpp. rewrite Hpp in Hf.
    destruct (prev_log_id st start) as [x|]; [|lia]. destruct Hp as [? Hx].
    pose proof (LogIdList_get_purged _ _ Hl Hpp) as Hg.
    apply Some_le. apply (ord_le_trans _ p); [done|]. eapply (LogIdList_get_le (RaftState_log_ids st)); [done|exact Hg|exact Hx|lia].
Qed.

(** The range a probe sends: it starts at the midpoint or at the purge
    boundary, holds at least one entry and only entries the leader has. *)
Record probe_range e st (max_entries : u64) (r : LogIdRange) : Prop := {
  probe_start : next_index (LogIdRange_prev r) =
    omax (next_index (ProgressEntry_matching e) +
            (searching_end e - next_index (ProgressEntry_matching e)) / 16 * 8)%N
      (next_index (purge_upto st));
  probe_end : next_index (LogIdRange_last r) =
    omin (next_index (LogIdRange_prev r) + max_entries)%N (next_index (last_log_id st));
  probe_prev_id : LogIdRange_prev r = prev_log_id st (next_index (LogIdRange_prev r));
  probe_last_id : LogIdRange_last r = prev_log_id st (next_index (LogIdRange_last r));
  probe_nonempty : (next_index (LogIdRange_prev r) < next_index (LogIdRange_last r))%N;
  probe_order : LogIdRange_prev r ≺ LogIdRange_last r;
  probe_entries : ∀ i, (next_index (LogIdRange_prev r) ≤ i < next_index (LogIdRange_last r))%N →
    is_Some (get_log_id st i) ∧ (next_index (purge_upto st) ≤ i)%N;
}.

(** What [next_send] assumes of the leader's log and of the target. *)
Record sendable e st (max_entries : u64) : Prop := {
  send_idle : inflight e = Inflight_None;
  send_wf : LogIdList_wf (RaftState_log_ids st);
  send_purge : (LogIdList_first_index (RaftState_log_ids st) ≤ next_index (purge_upto st)
    ≤ next_index (last_log_id st))%N;
  send_max : (0 < max_entries)%N ∧ (next_index (last_log_id st) + max_entries < u64_modulus)%N;
  send_matching : matching_in_log st (ProgressEntry_matching e);
  send_search : (next_index (ProgressEntry_matching e) ≤ searching_end e
    ≤ next_index (last_log_id st))%N;
}.

Lemma prev_log_id_set_inflight st i start :
  prev_log_id (set_last_inflight_id st i) start = prev_log_id st start.
Proof. done. Qed.

Lemma probe_range_ok e st max_entries start end' :
  sendable e st max_entries →
  start = omax (calc_mid (next_index (ProgressEntry_matching e)) (searching_end e))
            (next_index (purge_upto st)) →
  end' = omin (u64_add start max_entries) (next_index (last_log_id st)) →
  (next_index (ProgressEntry_matching e) < searching_end e)%N →
  (next_index (purge_upto st) ≤ searching_end e)%N → start ≠ end' →
  let r := mkLogIdRange (prev_log_id st start) (prev_log_id st end') in
  probe_range e st max_entries r ∧
  (next_index (ProgressEntry_matching e) ≤ start ≤ searching_end e)%N ∧
  next_index (LogIdRange_prev r) = start ∧ ProgressEntry_matching e ≼ LogIdRange_prev r.
Proof.
  intros [Hidle Hl [Hp1 Hp2] [Hm0 Hm] Hmatch [Hs1 Hs2]] Hstart Hend Hprobing Hpurge Hne r.
  destruct (calc_mid_spec (next_index (ProgressEntry_matching e)) (searching_end e))
    as (Hmid & Hmid2 & _); [lia|unfold in_u64; lia|].
  pose proof (N.le_0_l ((searching_end e - next_index (ProgressEntry_matching e)) / 16 * 8)).
  assert (next_index (ProgressEntry_matching e) ≤ start ∧ next_index (purge_upto st) ≤ start
    ≤ searching_end e)%N as [Hb1 Hb2].
  { subst start. unfold omax. destruct (leb_spec (calc_mid (next_index (ProgressEntry_matching e))
      (searching_end e)) (next_index (purge_upto st))) as [Hc|Hc]; rewrite ?N_ord_le, ?N_ord_lt in Hc; lia. }
  rewrite u64_add_small in Hend by lia.
  assert (start < end' ≤ next_index (last_log_id st))%N as [Hlt Hle].
  { revert Hend Hne. unfold omin. destruct (leb_spec (start + max_entries)%N (next_index (last_log_id st)))
      as [Hc|Hc]; rewrite ?N_ord_le, ?N_ord_lt in Hc; lia. }
  destruct (prev_log_id_spec st start Hl) as [Hps _]; [lia|unfold in_u64; lia|].
  destruct (prev_log_id_spec st end' Hl) as [Hpe _]; [lia|unfold in_u64; lia|].
  split_and!; [|lia|lia|done|].
  - split; subst r; cbn; rewrite ?Hps, ?Hpe; try done.
    + by rewrite <- Hmid.
    + apply prev_log_id_lt; [done|lia|done|done|unfold in_u64; lia].
    + intros i Hi. split; [|lia]. apply LogIdList_get_is_Some; [done|lia|lia|].
      unfold last_log_id in *. lia.
  - subst r; cbn. apply matching_le_prev; try done; unfold in_u64; lia.
Qed.

Lemma validate_idle_inflight e i :
  (next_index (ProgressEntry_matching e) ≤ searching_end e)%N →
  match i with
  | Inflight_Logs r _ =>
      LogIdRange_prev r ≼ LogIdRange_last r ∧ ProgressEntry_matching e ≼ LogIdRange_prev r ∧
      (next_index (LogIdRange_prev r) ≤ searching_end e)%N
  | _ => True
  end → ProgressEntry_validate (set_inflight e i) = true.
Proof.
  intros Hs Hi. unfold ProgressEntry_validate. rewrite !andb_true_iff, leb_true, N_ord_le.
  split_and!; [done|by destruct i; cbn; [|unfold LogIdRange_validate; apply leb_true; tauto|..]|].
  destruct i; cbn in *; try done. rewrite andb_true_iff, !leb_true, N_ord_le. tauto.
Qed.

Lemma validate_logs e r id :
  inflight e = Inflight_Logs r id → ProgressEntry_validate e = true →
  LogIdRange_prev r ≼ LogIdRange_last r ∧ ProgressEntry_matching e ≼ LogIdRange_prev r ∧
  (next_index (LogIdRange_prev r) ≤ searching_end e)%N.
Proof.
  intros Hi. unfold ProgressEntry_validate. rewrite Hi. cbn [Inflight_validate].
  unfold LogIdRange_validate. rewrite !andb_true_iff, !leb_true, !N_ord_le. tauto.
Qed.

(** What [next_send] does on an idle target. *)
Definition next_send_post e st (max_entries : u64)
    (res : ProgressEntry * RaftState * result Inflight Inflight) : Prop :=
  let '(e', st', r) := res in
  let id := u64_add (RaftState_last_inflight_id st) 1 in
  st' = set_last_inflight_id st id ∧
  ∃ i, r = Ok i ∧ e' = set_inflight e i ∧ ProgressEntry_validate e' = true ∧
  match i with
  | Inflight_None => False
  | Inflight_Snapshot i => i = id ∧
      ((searching_end e < next_index (purge_upto st))%N ∨
       (next_index (ProgressEntry_matching e) < searching_end e)%N ∧
       next_index (purge_upto st) = next_index (last_log_id st))
  | Inflight_Logs r i => i = id ∧ probe_range e st max_entries r ∧
      (next_index (ProgressEntry_matching e) < searching_end e)%N
  | Inflight_LogsSince prev i => i = id ∧ prev = ProgressEntry_matching e ∧
      next_index prev = searching_end e ∧ (next_index (purge_upto st) ≤ next_index prev)%N
  end.

Lemma next_send_ok e st (max_entries : u64) :
  sendable e st max_entries → next_send_post e st max_entries (next_send e st max_entries).
Proof.
  intros Hs. pose proof Hs as [Hidle Hl [Hp1 Hp2] [Hm0 Hm] Hmatch [Hs1 Hs2]].
  unfold next_send_post, next_send, Inflight_snapshot. rewrite Hidle. cbn.
  destruct (ltb_spec (searching_end e) (next_index (purge_upto st))) as [Hsnap|Hlog];
    rewrite ?N_ord_lt, ?N_ord_le in *.
  { split; [done|]. eexists. split_and!; [done|done|by apply validate_idle_inflight|]. split; [done|by left]. }
  destruct (ltb_spec (next_index (ProgressEntry_matching e)) (searching_end e)) as [Hprobe|Hpipe];
    rewrite ?N_ord_lt, ?N_ord_le in *.
  2:{ split; [done|]. eexists.
      split_and!; [done|done|by apply validate_idle_inflight|]. cbn. split_and!; [done|done|lia|lia]. }
  set (start := omax (calc_mid (next_index (ProgressEntry_matching e)) (searching_end e)) _).
  set (end' := omin _ _). case_decide as Hse.
  - split; [done|]. eexists. split_and!; [done|done|by apply validate_idle_inflight|].
    split; [done|]. right. split; [done|].
    destruct (calc_mid_spec (next_index (ProgressEntry_matching e)) (searching_end e))
      as (_ & _ & Hmid); [done|unfold in_u64; lia|]. specialize (Hmid Hprobe).
    revert Hse. subst end' start. unfold omax, omin. repeat case_match; ord_norm;
      rewrite ?N_ord_lt, ?N_ord_le in *; rewrite ?u64_add_small in * by lia; lia.
  - destruct (probe_range_ok e st max_entries start end' Hs eq_refl eq_refl Hprobe Hlog Hse)
      as (Hr & Hb & Hstart & Hmp).
    pose proof (probe_order _ _ _ _ Hr) as Hlt. cbn in Hlt.
    split; [done|]. rewrite !prev_log_id_set_inflight. unfold Inflight_logs.
    destruct (leb_spec (prev_log_id st end') (prev_log_id st start)); [ord|].
    eexists. split_and!; [done|done| |done].
    apply validate_idle_inflight; [done|]. split_and!; [by apply ord_lt_le|done|].
    rewrite Hstart. lia.
Qed.

(** *** Responses *)

Definition gap e : N := (searching_end e - next_index (ProgressEntry_matching e))%N.

Lemma update_conflicting_probe c e r id (conflict : u64) :
  inflight e = Inflight_Logs r id →
  (next_index (ProgressEntry_matching e) ≤ conflict < searching_end e)%N →
  update_conflicting c e conflict (Some id) =
    Ret (set_searching_end (set_inflight e Inflight_None) conflict).
Proof.
  intros Hi Hc. unfold update_conflicting. rewrite Hi. cbn. rewrite decide_False by auto. cbn.
  change (searching_end (set_inflight e Inflight_None)) with (searching_end e).
  destruct (leb_spec (searching_end e) conflict) as [H|_]; [rewrite N_ord_le in H; lia|].
  change (ProgressEntry_matching (set_searching_end _ _)) with (ProgressEntry_matching e).
  destruct (ltb_spec conflict (next_index (ProgressEntry_matching e))) as [H|_];
    [rewrite N_ord_lt in H; lia|].
  by destruct (_ || _).
Qed.

Lemma update_matching_probe e r id :
  inflight e = Inflight_Logs r id →
  update_matching e (LogIdRange_last r) (Some id) =
    set_searching_end (set_matching (set_inflight e Inflight_None) (LogIdRange_last r))
      (omax (searching_end e) (next_index (LogIdRange_last r))).
Proof.
  intros Hi. unfold update_matching. rewrite Hi. cbn. rewrite decide_False by auto. cbn.
  unfold Inflight_logs. by destruct (leb_spec (LogIdRange_last r) (LogIdRange_last r)); [|exfalso; ord].
Qed.

(** The search for the matching log against a follower whose log agrees with
    the leader's below [match_end]: each probe is answered by a conflict at its
    [prev] or by an ack of everything sent, until the leader stops probing. *)
Fixpoint probe_search (fuel : nat) (c : EngineConfig) e st (max_entries match_end : u64) :
    option (outcome (ProgressEntry * Inflight)) :=
  match fuel with
  | O => None
  | S fuel =>
      match next_send e st max_entries with
      | (_, _, Err _) => None
      | (e, st, Ok (Inflight_Logs r id)) =>
          if (next_index (LogIdRange_prev r) <=? match_end) then
            probe_search fuel c (update_matching e (LogIdRange_last r) (Some id)) st max_entries
              (omax match_end (next_index (LogIdRange_last r)))
          else
            match update_conflicting c e (next_index (LogIdRange_prev r) - 1)%N (Some id) with
            | Panic => Some Panic
            | Ret e => probe_search fuel c e st max_entries match_end
            end
      | (e, _, Ok i) => Some (Ret (e, i))
      end
  end.

Lemma probe_conflict_step c e st max_entries e1 st1 r id :
  sendable e st max_entries → next_send e st max_entries = (e1, st1, Ok (Inflight_Logs r id)) →
  ∀ match_end : u64, (next_index (ProgressEntry_matching e) ≤ match_end)%N →
  (match_end < next_index (LogIdRange_prev r))%N →
  ∃ e2, update_conflicting c e1 (next_index (LogIdRange_prev r) - 1)%N (Some id) = Ret e2 ∧
    sendable e2 st1 max_entries ∧ ProgressEntry_matching e2 = ProgressEntry_matching e ∧
    (gap e2 < gap e)%N.
Proof.
  intros Hs Hns match_end Hm Hlt. pose proof (next_send_ok e st max_entries Hs) as Hp.
  rewrite Hns in Hp. destruct Hp as (-> & i & [= <-] & -> & Hv & _ & Hr & Hprobe).
  apply (validate_logs _ r id) in Hv as (_ & _ & Hle); [|done].
  change (searching_end (set_inflight _ _)) with (searching_end e) in Hle.
  rewrite (update_conflicting_probe _ _ r) by (done || (cbn; unfold searching_end in *; cbn; lia)).
  eexists. split_and!; [done| |done|].
  - destruct Hs as [? ? ? ? ? ?]. split; try done.
    change (next_index (ProgressEntry_matching e) ≤ next_index (LogIdRange_prev r) - 1
      ≤ next_index (last_log_id st))%N. lia.
  - change (next_index (LogIdRange_prev r) - 1 - next_index (ProgressEntry_matching e) < gap e)%N.
    unfold gap. lia.
Qed.

Lemma probe_ack_step e st max_entries e1 st1 r id :
  sendable e st max_entries → next_send e st max_entries = (e1, st1, Ok (Inflight_Logs r id)) →
  let e2 := update_matching e1 (LogIdRange_last r) (Some id) in
  sendable e2 st1 max_entries ∧ ProgressEntry_matching e2 = LogIdRange_last r ∧
  (gap e2 < gap e)%N.
Proof.
  intros Hs Hns. pose proof (next_send_ok e st max_entries Hs) as Hp.
  rewrite Hns in Hp. destruct Hp as (-> & i & [= <-] & -> & Hv & _ & Hr & Hprobe).
  cbn zeta. rewrite (update_matching_probe _ r) by done.
  destruct Hs as [? Hl Hpurge [Hmax0 Hmax] ? [Hs1 Hs2]]. destruct Hr as [Hstart Hend Hpid Hlid Hne Hord Hent].
  change (searching_end (set_inflight _ _)) with (searching_end e).
  pose proof (N.le_0_l (gap e / 16 * 8)) as H0. unfold gap in H0.
  assert (next_index (ProgressEntry_matching e) ≤ next_index (LogIdRange_prev r))%N as Hge.
  { pose proof (omax_l (next_index (ProgressEntry_matching e) +
      (searching_end e - next_index (ProgressEntry_matching e)) / 16 * 8)%N (next_index (purge_upto st))) as Hx.
    rewrite <- Hstart, N_ord_le in Hx. lia. }
  assert (next_index (purge_upto st) ≤ next_index (LogIdRange_prev r))%N as Hge2
    by (rewrite Hstart, <- N_ord_le; apply omax_r).
  assert (next_index (LogIdRange_last r) ≤ next_index (last_log_id st))%N as Hlast.
  { rewrite Hend, <- N_ord_le. apply omin_r. }
  set (se := omax (searching_end e) (next_index (LogIdRange_last r))).
  assert (searching_end e ≤ se ∧ next_index (LogIdRange_last r) ≤ se ≤ next_index (last_log_id st) ∧
    (se = searching_end e ∨ se = next_index (LogIdRange_last r)))%N as (Hse1 & Hse2 & Hse3).
  { unfold se, omax. destruct (leb_spec (searching_end e) (next_index (LogIdRange_last r))) as [Hc|Hc];
      rewrite ?N_ord_le, ?N_ord_lt in Hc; lia. }
  split_and!; [|done|].
  - split; try done.
    unfold matching_in_log. destruct (LogIdRange_last r) as [x|] eqn:Hx; [|done]. left.
    rewrite <- Hx in *. destruct (prev_log_id_spec st (next_index (LogIdRange_last r)) Hl) as [_ Hpl];
      [lia|unfold in_u64; lia|]. rewrite <- Hlid, Hx in Hpl. destruct Hpl as [_ Hpl].
    pose proof (LogIdList_get_index (RaftState_log_ids st) _ x Hl Hpl) as Hix.
    transitivity (get_log_id st (next_index (Some x) - 1)%N); [by f_equal|by rewrite Hx].
  - change (se - next_index (LogIdRange_last r) < gap e)%N. unfold gap.
    destruct Hse3 as [-> | ->]; lia.
Qed.

(** ** Properties *)

(** [next_send] on an idle target always starts a transmission, keeps the
    entry valid, uses a fresh inflight id, and chooses as documented: a
    snapshot exactly when every candidate position is purged or the whole log
    is; otherwise logs from the binary-search midpoint, none of them purged
    and at least one, while the matching point is unknown, and the open-ended
    stream after the matching log once it is known. *)
Theorem next_send_spec e st (max_entries : u64) :
  sendable e st max_entries → next_send_post e st max_entries (next_send e st max_entries).
Proof. apply next_send_ok. Qed.

(** C24: the search for the last matching log terminates: against a follower
    whose log agrees with the leader's below [match_end], every probe shrinks
    the range [[matching, searching_end)], and within as many rounds as its
    length the leader streams from the matching log or sends a snapshot,
    without a panic and with a valid entry. *)
Theorem probe_search_terminates fuel c e st (max_entries match_end : u64) :
  sendable e st max_entries → (next_index (ProgressEntry_matching e) ≤ match_end)%N →
  N.to_nat (gap e) < fuel →
  ∃ e' i, probe_search fuel c e st max_entries match_end = Some (Ret (e', i)) ∧
    ProgressEntry_validate e' = true ∧ inflight e' = i ∧
    match i with
    | Inflight_LogsSince prev _ => prev = ProgressEntry_matching e' ∧ next_index prev = searching_end e'
    | Inflight_Snapshot _ => True
    | _ => False
    end.
Proof.
  revert e st match_end. induction fuel as [|fuel IH]; intros e st match_end Hs Hm Hf; [lia|].
  cbn [probe_search].
  pose proof (next_send_ok e st max_entries Hs) as Hp.
  destruct (next_send e st max_entries) as [[e1 st1] r1] eqn:Hns.
  pose proof Hp as (-> & i & -> & -> & Hv & Hi).
  destruct i as [|r id|prev id|id]; [done| |..].
  - destruct (leb_spec (next_index (LogIdRange_prev r)) match_end) as [Hack|Hconf];
      rewrite ?N_ord_le, ?N_ord_lt in *.
    + destruct (probe_ack_step _ _ _ _ _ _ _ Hs Hns) as (Hs2 & Hm2 & Hg). apply IH; [done| |lia].
      rewrite Hm2, <- N_ord_le. apply omax_r.
    + destruct (probe_conflict_step c _ _ _ _ _ _ _ Hs Hns match_end Hm Hconf)
        as (e2 & -> & Hs2 & Hm2 & Hg).
      apply IH; [done|by rewrite Hm2|lia].
  - destruct Hi as (_ & -> & ? & _). eauto 10.
  - eauto 10.
Qed.

(** A response of a superseded request changes nothing: neither an ack nor
    a conflict whose inflight id is not the one in flight. *)
Theorem stale_response_ignored c e (upto : option LogId) (conflict id : u64) :
  (∀ r i, inflight e = Inflight_Logs r i → i ≠ id) →
  (∀ p i, inflight e = Inflight_LogsSince p i → i ≠ id) →
  (∀ i, inflight e = Inflight_Snapshot i → i ≠ id) →
  update_matching e upto (Some id) = e ∧ update_conflicting c e conflict (Some id) = Ret e.
Proof.
  intros H1 H2 H3. unfold update_matching, update_conflicting.
  destruct (inflight e) as [|r i|p i|i] eqn:Hi; cbn; rewrite ?decide_True by naive_solver; cbn;
    rewrite <- Hi, set_inflight_id; done.
Qed.

End progress_entry.

(** ** Witnesses *)

Module ProgressEntryWitness.
#[local] Existing Instance adv_config.
Import LogIdListWitness RaftStateWitness.

(** A new target of a leader with the entries 3 to 7. *)
Definition target : ProgressEntry := ProgressEntry_empty 2 1 8.
Definition engine_config : EngineConfig := EngineConfig_new 3 Config_default 200.

Lemma target_sendable : sendable target follower 2.
Proof.
  split; [done|apply sample_wf|vm_compute; done|vm_compute; done|done|vm_compute; done].
Defined.

Lemma next_send_spec_witness :
  (next_send target follower 2).2 =
    Ok (Inflight_Logs (mkLogIdRange (Some (lid 1 1 2)) (Some (lid 1 1 4))) 8) ∧
  ProgressEntry_validate (next_send target follower 2).1.1 = true.
Proof.
  pose proof (next_send_spec target follower 2 target_sendable) as H.
  split; [vm_compute; reflexivity|].
  destruct (next_send target follower 2) as [[e' st'] r]. destruct H as (_ & i & _ & -> & H & _).
  exact H.
Defined.

Lemma probe_search_terminates_witness :
  ∃ e' i, probe_search 9 engine_config target follower 2 5 = Some (Ret (e', i)) ∧
    ProgressEntry_validate e' = true.
Proof.
  destruct (probe_search_terminates 9 engine_config target follower 2 5)
    as (e' & i & ? & ? & _); [apply target_sendable|vm_compute; done|vm_compute; lia|eauto].
Defined.

Lemma stale_response_ignored_witness :
  update_matching (set_inflight target (Inflight_Snapshot 8)) (Some (lid 2 3 7)) (Some 7%N) =
    set_inflight target (Inflight_Snapshot 8).
Proof.
  apply (stale_response_ignored engine_config (set_inflight target (Inflight_Snapshot 8))
    (Some (lid 2 3 7)) 3 7); cbn; naive_solver.
Defined.
End ProgressEntryWitness.
