(* ===== verification/Proposer.v ===== *)
(** * Candidates and leaders

    [proposer/candidate.rs], [proposer/leader.rs] and [RaftState::new_leader]
    of [raft_state/mod.rs].  The current time and the shared id generator are
    arguments; operations that draw ids return the next value of the
    generator. *)

From S2P Require Import Prelude Vote LogId LogIdList Quorum Membership VecProgress IOState.
From S2P Require Import MembershipState RaftState Config ProgressEntry.

Section proposer.
Context {C : RaftTypeConfig}.

(** ** [Leader] *)

Record Leader := mkLeader {
  Leader_transfer_to : option u64;
  Leader_committed_vote : CommittedVote;
  Leader_next_heartbeat : Instant;
  Leader_last_log_id : option LogId;
  Leader_noop_log_id : LogId;
  Leader_progress : VecProgress ProgressEntry (option LogId) Membership;
  Leader_clock_progress : VecProgress (N * option Instant) (option Instant) Membership;
}.

Definition Leader_set_transfer_to (l : Leader) (x : option u64) : Leader :=
  mkLeader x (Leader_committed_vote l) (Leader_next_heartbeat l) (Leader_last_log_id l)
    (Leader_noop_log_id l) (Leader_progress l) (Leader_clock_progress l).
Definition Leader_set_committed_vote (l : Leader) (x : CommittedVote) : Leader :=
  mkLeader (Leader_transfer_to l) x (Leader_next_heartbeat l) (Leader_last_log_id l)
    (Leader_noop_log_id l) (Leader_progress l) (Leader_clock_progress l).
Definition Leader_set_last_log_id (l : Leader) (x : option LogId) : Leader :=
  mkLeader (Leader_transfer_to l) (Leader_committed_vote l) (Leader_next_heartbeat l) x
    (Leader_noop_log_id l) (Leader_progress l) (Leader_clock_progress l).
Definition Leader_set_progress (l : Leader)
    (x : VecProgress ProgressEntry (option LogId) Membership) : Leader :=
  mkLeader (Leader_transfer_to l) (Leader_committed_vote l) (Leader_next_heartbeat l)
    (Leader_last_log_id l) (Leader_noop_log_id l) x (Leader_clock_progress l).
Definition Leader_set_clock_progress (l : Leader)
    (x : VecProgress (N * option Instant) (option Instant) Membership) : Leader :=
  mkLeader (Leader_transfer_to l) (Leader_committed_vote l) (Leader_next_heartbeat l)
    (Leader_last_log_id l) (Leader_noop_log_id l) (Leader_progress l) x.

(** [IdVal::new_default] *)
Definition IdVal_new_default {V} `{!Default V} (id : N) : N * V := (id, default_val).

(** The entry that the closure passed to [VecProgress::new] builds: the ids of
    the generator are drawn in the order of the entries. *)
Definition nth_id (ids : list N) (id : N) : nat :=
  default 0 (fst <$> list_find (λ x, x = id) ids).
Definition new_progress_entry (ids : list N) (id_gen end' : u64) (id : N) : ProgressEntry :=
  ProgressEntry_empty id (u64_add id_gen (N.of_nat (nth_id ids id))) end'.

(** The generator after drawing an id for each of [ids]. *)
Definition advance_id_gen (id_gen : u64) (ids : list N) : u64 :=
  u64_add id_gen (N.of_nat (length ids)).

Definition Leader_new (vote : CommittedVote) (quorum_set : Membership) (learner_ids : list N)
    (last_leader_log_ids : option LeaderLogIds) (id_gen : u64) (now : Instant) : Leader * u64 :=
  let cl_id := CommittedVote_committed_leader_id vote in
  let first_ref := LeaderLogIds_first_ref <$> last_leader_log_ids in
  let last_ref := LeaderLogIds_last_ref <$> last_leader_log_ids in
  let noop_log_id :=
    match first_ref with
    | Some first =>
        if decide (LogId_leader_id first = cl_id) then first
        else mkLogId cl_id (next_index last_ref)
    | None => mkLogId cl_id (next_index last_ref)
    end in
  let last_log_id := last_ref in
  let ids := qs_ids quorum_set ++ learner_ids in
  let progress := VecProgress_new quorum_set learner_ids
                    (new_progress_entry ids id_gen (next_index last_log_id)) in
  let clock_progress := VecProgress_new quorum_set learner_ids IdVal_new_default in
  let leader_node_id := LeaderId_node_id (CommittedVote_leader_id vote) in
  let clock_progress := result_state (increase_to clock_progress leader_node_id (Some now)) in
  (mkLeader None vote now last_log_id noop_log_id progress clock_progress,
   advance_id_gen id_gen ids).

Definition Leader_node_id (l : Leader) : u64 :=
  LeaderId_node_id (CommittedVote_leader_id (Leader_committed_vote l)).

Definition mark_transfer (l : Leader) (to : u64) : Leader := Leader_set_transfer_to l (Some to).

Definition assign_log_ids (l : Leader) (count : N) : Leader * option LeaderLogIds :=
  if decide (count = 0%N) then (l, None)
  else
    let committed_leader_id := CommittedVote_committed_leader_id (Leader_committed_vote l) in
    let first := next_index (Leader_last_log_id l) in
    let last := u64_sub (u64_add first count) 1 in
    (Leader_set_last_log_id l (Some (mkLogId committed_leader_id last)),
     Some (mkLeaderLogIds committed_leader_id first last)).

(** [update_clock]: [expect]s the target to be tracked. *)
Definition update_clock (l : Leader) (target : N) (sending_time : Instant) :
    outcome (Leader * option Instant) :=
  let clock := result_state (increase_to (Leader_clock_progress l) (Leader_node_id l)
                 (Some sending_time)) in
  match increase_to clock target (Some sending_time) with
  | Ok clock => Ret (Leader_set_clock_progress l clock, VecProgress_quorum_accepted clock)
  | Err _ => Panic
  end.

Definition last_quorum_acked_time (l : Leader) : option Instant :=
  VecProgress_quorum_accepted (Leader_clock_progress l).

(** The ids in [got] of [clock_quorum_not_enough]; [cluster] is its display
    string. *)
Definition clock_quorum_not_enough_got (l : Leader) (min_acked_at : Instant) : gset N :=
  let voter_count := VecProgress_voter_count (Leader_clock_progress l) in
  let got : gset N := list_to_set (fst <$>
    filter (λ e : N * option Instant,
        match e.2 with Some acked_at => acked_at >? min_acked_at | None => false end = true)
      (take voter_count (VecProgress_entries (Leader_clock_progress l)))) in
  if decide (is_voter (Leader_clock_progress l) (Leader_node_id l) = Some true)
  then {[ Leader_node_id l ]} ∪ got else got.

Definition is_self_quorum (l : Leader) : outcome bool :=
  if decide (VecProgress_voter_count (Leader_clock_progress l) ≠ 1) then Ret false
  else
    e ← unwrap (head (VecProgress_entries (Leader_clock_progress l)));
    Ret (bool_decide ((e : N * option Instant).1 = Leader_node_id l)).

Definition is_lease_valid (l : Leader) (leader_lease : Duration) (now : Instant) : outcome bool :=
  b ← is_self_quorum l;
  Ret (if (b : bool) then true
       else match last_quorum_acked_time l with
            | Some acked => now <? (acked + leader_lease)%N
            | None => false
            end).

Definition need_heartbeat (l : Leader) (target : N) (now : Instant) (min_interval : Duration) :
    bool :=
  let acked := (entry ← try_get (Leader_clock_progress l) target; (entry : N * option Instant).2) in
  match acked with
  | Some sending_time => now >=? (sending_time + min_interval)%N
  | None => true
  end.

Definition is_replication_stream_valid (l : Leader) (target : N) (sid : u64) : bool :=
  match try_get (Leader_progress l) target with
  | Some entry => bool_decide (stream_id entry = sid)
  | None => false
  end.

(** ** [Candidate] *)

(** [progress_id_gen] is the shared generator, kept in [RaftState]. *)
Record Candidate := mkCandidate {
  Candidate_starting_time : Instant;
  Candidate_vote : Vote;
  Candidate_last_log_id : option LogId;
  Candidate_progress : VecProgress (N * bool) bool Membership;
  Candidate_quorum_set : Membership;
  Candidate_learner_ids : list N;
}.

Definition Candidate_new (starting_time : Instant) (vote : Vote) (last_log_id : option LogId)
    (quorum_set : Membership) (learner_ids : list N) : Candidate :=
  mkCandidate starting_time vote last_log_id
    (VecProgress_new quorum_set [] IdVal_new_default) quorum_set learner_ids.

Definition grant_by (c : Candidate) (target : N) : Candidate * bool :=
  let set p := mkCandidate (Candidate_starting_time c) (Candidate_vote c)
                 (Candidate_last_log_id c) p (Candidate_quorum_set c) (Candidate_learner_ids c) in
  match update (Candidate_progress c) target true with
  | Ok p => (set p, VecProgress_quorum_accepted p)
  | Err p => (set p, false)
  end.

Definition into_leader (c : Candidate) (id_gen : u64) (now : Instant) : Leader * u64 :=
  Leader_new (Vote_to_committed (Candidate_vote c)) (Candidate_quorum_set c)
    (Candidate_learner_ids c) (LeaderLogIds_new_single <$> Candidate_last_log_id c) id_gen now.

(** [RaftState::new_leader] *)
Definition new_leader (s : RaftState) (now : Instant) : Leader * RaftState :=
  let em := StoredMembership_membership (MembershipState_effective (RaftState_membership_state s)) in
  let last_leader_log_ids := LogIdList_by_last_leader (RaftState_log_ids s) in
  let '(l, g) := Leader_new (Vote_to_committed (vote_ref s)) em (Membership_learner_ids em)
                   last_leader_log_ids (RaftState_progress_id_gen s) now in
  (l, set_progress_id_gen s g).

(** ** Lemmas *)

Context `{!RaftLeaderIdLaws C}.

Lemma Membership_quorum_nil (m : Membership) :
  Membership_configs m ≠ [] → is_quorum m [] = false.
Proof. destruct m as [[|c cs] nodes]; done. Qed.

Lemma Membership_ids_NoDup (m : Membership) : NoDup (qs_ids m ++ Membership_learner_ids m).
Proof.
  apply NoDup_app. split_and!; [apply NoDup_qs_ids| |].
  - intros x Hx [_ Hl]%elem_of_learner_ids.
    apply elem_of_bset_iter, Membership_is_voter_true in Hx. congruence.
  - unfold Membership_learner_ids. apply NoDup_filter, NoDup_bset_iter.
Qed.

(** *** Elections *)

Fixpoint grant_all (c : Candidate) (targets : list N) : Candidate :=
  match targets with
  | [] => c
  | t :: targets => grant_all (grant_by c t).1 targets
  end.

(** The tally of a candidate of membership [m] granted by [S]. *)
Record tally_ok (m : Membership) (S : list N) (p : VecProgress (N * bool) bool Membership) : Prop := {
  tally_wf : VecProgress_wf p;
  tally_accepted : accepted_by_quorum p;
  tally_qs : VecProgress_quorum_set p = m;
  tally_ids : fst <$> VecProgress_entries p ≡ₚ qs_ids m;
  tally_voters : VecProgress_voter_count p = length (VecProgress_entries p);
  tally_granted : ∀ e, e ∈ VecProgress_entries p → e.2 = true ↔ e.1 ∈ S;
}.

Lemma tally_new (m : Membership) :
  Membership_configs m ≠ [] → tally_ok m [] (VecProgress_new m [] IdVal_new_default).
Proof.
  intros Hm.
  destruct (new_wf m [] (IdVal_new_default (V := bool))) as (Hwf & Hacc & Hids & Hent).
  - by apply Membership_quorum_nil.
  - rewrite app_nil_r. apply NoDup_qs_ids.
  - done.
  - rewrite app_nil_r in Hids. split; try done.
    + by rewrite <- Hids.
    + cbn. by rewrite app_nil_r.
    + intros e He. rewrite (Hent e He). cbn. split; [done|]. set_solver.
Qed.

Lemma tally_accepted_iff m S p :
  tally_ok m S p → VecProgress_quorum_accepted p = is_quorum m (filter (λ x, x ∈ S) (qs_ids m)).
Proof.
  intros [Hwf Hacc Hqs Hids Hv Hg].
  assert (voters p = VecProgress_entries p) as Hvs by (unfold voters; rewrite Hv; apply firstn_all).
  assert (∀ x, x ∈ granters p true ↔ x ∈ filter (λ x, x ∈ S) (qs_ids m)) as Hgr.
  { intros x. rewrite granters_elem, Hvs, list_elem_of_filter, <- Hids, list_elem_of_fmap. split.
    - intros (e & <- & He & Hle). split; [|by exists e]. apply Hg; [done|]. cbn in Hle. by destruct (e.2).
    - intros [Hx (e & -> & He)]. exists e. split_and!; [done|done|]. cbn.
      by rewrite (proj2 (Hg e He) Hx). }
  assert (granted p true = is_quorum m (filter (λ x, x ∈ S) (qs_ids m))) as Heq.
  { unfold granted. rewrite Hqs.
    assert (NoDup (granters p true)) by (apply NoDup_granters, wf_ids; done).
    assert (NoDup (filter (λ x, x ∈ S) (qs_ids m))) by apply NoDup_filter, NoDup_qs_ids.
    apply eq_true_iff_eq. split; apply is_quorum_mono; try done; intros; by apply Hgr. }
  rewrite <- Heq. destruct (VecProgress_quorum_accepted p) eqn:Hqa.
  - destruct Hacc as [Hc|Hc]; rewrite Hqa in Hc; done.
  - symmetry. apply (wf_accepted p Hwf). by rewrite Hqa.
Qed.

Lemma tally_update m S p t :
  tally_ok m S p →
  match update p t true with
  | Ok p' => tally_ok m (t :: S) p' ∧ t ∈ qs_ids m
  | Err p' => tally_ok m (t :: S) p' ∧ t ∉ qs_ids m
  end.
Proof.
  intros [Hwf Hacc Hqs Hids Hv Hg]. unfold update, update_with.
  set (f := λ e : N * bool, set_progress true e).
  assert (monotone_update f) as Hf by (intros [i []]; done).
  destruct (decide (t ∈ entry_id <$> VecProgress_entries p)) as [Hin|Hout].
  - destruct (update_entry_with_Ok p t f Hwf Hf Hin) as (p' & l1 & e & l2 & -> & He & Hid & Hpost).
    pose proof Hpost as [Hwf' (Hqs' & Hvc' & Hids' & _) Hperm _ _ _].
    split; [|by rewrite <- Hids]. split.
    + done.
    + by apply (update_post_accepted p p' l1 l2 e (f e)).
    + by rewrite Hqs'.
    + by rewrite <- Hids.
    + rewrite Hvc', Hv, Hperm, He, !length_app. done.
    + intros x Hx. rewrite Hperm, elem_of_app, elem_of_cons in Hx.
      pose proof (wf_ids p Hwf) as Hn. rewrite He, fmap_app in Hn. cbn in Hn.
      apply NoDup_app in Hn as (_ & Hn1 & Hn2). apply NoDup_cons in Hn2 as [Hn2 _].
      assert (x = f e ∨ x ∈ VecProgress_entries p ∧ x.1 ≠ t) as [->|[Hxe Hxt]].
      { rewrite He, elem_of_app, elem_of_cons. destruct Hx as [Hx|[->|Hx]]; [right|by left|right].
        - split; [auto|]. intros Heq. apply (Hn1 (entry_id x)); [by apply list_elem_of_fmap_2|].
          rewrite <- Hid in Heq. cbn in Heq |- *. rewrite Heq. set_solver.
        - split; [auto|]. intros Heq. apply Hn2. rewrite <- Hid in Heq. cbn in Heq |- *.
          rewrite <- Heq. by apply (list_elem_of_fmap_2 fst). }
      * cbn. split; [|done]. intros _. cbn in Hid. rewrite Hid. by left.
      * rewrite (Hg x Hxe), elem_of_cons. naive_solver.
  - rewrite update_entry_with_Err by done. split; [|by rewrite <- Hids].
    split; try done; [by apply wf_set_stat|].
    intros x Hx. cbn in Hx. rewrite (Hg x Hx), elem_of_cons. split; [auto|].
    intros [<-|?]; [|done]. destruct Hout. exact (list_elem_of_fmap_2 entry_id _ x Hx).
Qed.

Lemma tally_grant_all m S c targets :
  tally_ok m S (Candidate_progress c) →
  ∃ S', tally_ok m S' (Candidate_progress (grant_all c targets)) ∧ (∀ x, x ∈ S' ↔ x ∈ S ∨ x ∈ targets).
Proof.
  revert S c. induction targets as [|t targets IH]; intros S c Hc; cbn.
  { exists S. split; [done|]. set_solver. }
  pose proof (tally_update m S _ t Hc) as Hu.
  destruct (IH (t :: S) (grant_by c t).1) as (S' & ? & HS').
  { unfold grant_by. destruct (update _ _ _); cbn; tauto. }
  exists S'. split; [done|]. intros x. rewrite HS', !elem_of_cons. tauto.
Qed.

Lemma tally_ok_proper m S S' p : (∀ x, x ∈ S ↔ x ∈ S') → tally_ok m S p → tally_ok m S' p.
Proof. intros HS [????? Hg]. split; try done. intros e He. by rewrite (Hg e He), HS. Qed.

(** *** Leaders *)

(** The trackers of a leader: valid, and accepted values backed by quorums. *)
Record Leader_inv (l : Leader) : Prop := {
  inv_progress : VecProgress_wf (Leader_progress l);
  inv_accepted : accepted_by_quorum (Leader_progress l);
  inv_clock : VecProgress_wf (Leader_clock_progress l);
  inv_clock_accepted : accepted_by_quorum (Leader_clock_progress l);
  inv_same_qs : VecProgress_quorum_set (Leader_clock_progress l) =
    VecProgress_quorum_set (Leader_progress l);
  inv_qs : is_quorum (VecProgress_quorum_set (Leader_progress l)) [] = false;
}.

Lemma increase_to_inv (p : VecProgress (N * option Instant) (option Instant) Membership) id v :
  VecProgress_wf p → accepted_by_quorum p →
  is_quorum (VecProgress_quorum_set p) [] = false →
  let p' := result_state (increase_to p id v) in
  VecProgress_wf p' ∧ accepted_by_quorum p' ∧
  VecProgress_quorum_set p' = VecProgress_quorum_set p ∧
  entry_id <$> VecProgress_entries p' ≡ₚ entry_id <$> VecProgress_entries p ∧
  VecProgress_quorum_accepted p ≼ VecProgress_quorum_accepted p' ∧
  (id ∈ entry_id <$> VecProgress_entries p → increase_to p id v = Ok p').
Proof.
  intros Hwf Hacc Hq. cbn zeta. unfold increase_to, update_with.
  set (f := λ e : N * option Instant, set_progress (if (progress e <? v) then v else progress e) e).
  assert (monotone_update f) as Hf.
  { intros e. split; [done|]. unfold f. cbn. destruct (ltb_spec e.2 v); [by apply ord_lt_le|apply ord_le_refl]. }
  destruct (decide (id ∈ entry_id <$> VecProgress_entries p)) as [Hin|Hout].
  - destruct (update_entry_with_Ok p id f Hwf Hf Hin) as (p' & l1 & e & l2 & -> & He & _ & Hpost).
    cbn. pose proof Hpost as [Hwf' (Hqs & _ & Hids & _) _ Hle _ _]. split_and!; try done.
    by apply (update_post_accepted p p' l1 l2 e (f e)).
  - rewrite update_entry_with_Err by done. cbn. split_and!; try done; [by apply wf_set_stat|].
    apply ord_le_refl.
Qed.

Lemma list_find_nth (ids : list N) i x :
  NoDup ids → ids !! i = Some x → nth_id ids x = i.
Proof.
  intros Hn Hi. unfold nth_id. destruct (list_find (λ y, y = x) ids) as [[j y]|] eqn:Hf.
  - apply list_find_Some in Hf as (Hj & -> & _). cbn. by eapply NoDup_lookup.
  - apply list_find_None in Hf. rewrite Forall_forall in Hf. destruct (Hf x); [|done].
    by eapply list_elem_of_lookup_2.
Qed.

Lemma new_progress_stream_ids (qs : Membership) learner_ids id_gen end' :
  let ids := qs_ids qs ++ learner_ids in
  NoDup ids → (id_gen + N.of_nat (length ids) < u64_modulus)%N →
  stream_id <$> VecProgress_entries
    (VecProgress_new (P := option LogId) qs learner_ids (new_progress_entry ids id_gen end')) =
  (λ i : nat, id_gen + N.of_nat i)%N <$> seq 0 (length ids).
Proof.
  intros ids Hn Hb. cbn [VecProgress_new VecProgress_entries].
  rewrite <- fmap_app. fold ids. apply list_eq. intros i.
  rewrite !list_lookup_fmap. destruct (ids !! i) as [x|] eqn:Hx.
  - pose proof (lookup_lt_Some _ _ _ Hx). rewrite lookup_seq_lt by done.
    change (Some (u64_add id_gen (N.of_nat (nth_id ids x))) = Some (id_gen + N.of_nat i)%N).
    rewrite (list_find_nth ids i x Hn Hx). f_equal. apply u64_add_small. lia.
  - rewrite lookup_seq_ge; [done|]. by apply lookup_ge_None.
Qed.

Lemma Leader_new_inv vote (m : Membership) last id_gen now :
  Membership_configs m ≠ [] →
  Leader_inv (Leader_new vote m (Membership_learner_ids m) last id_gen now).1.
Proof.
  intros Hm. unfold Leader_new. cbn zeta. cbn [fst].
  pose proof (Membership_quorum_nil m Hm) as Hq. pose proof (Membership_ids_NoDup m) as Hn.
  destruct (new_wf m (Membership_learner_ids m) (new_progress_entry
    (qs_ids m ++ Membership_learner_ids m) id_gen (next_index (LeaderLogIds_last_ref <$> last))))
    as (Hwf & Hacc & Hids & Hent); [done..|].
  destruct (new_wf m (Membership_learner_ids m) (IdVal_new_default (V := option Instant)))
    as (Hwfc & Haccc & _ & _); [done..|].
  destruct (increase_to_inv _ (LeaderId_node_id (CommittedVote_leader_id vote)) (Some now) Hwfc Haccc Hq)
    as (? & ? & ? & _).
  split; done.
Qed.

(** *** The clock of a leader

    The history of a leader of membership [m]: [acks] has every node that
    acknowledged a message of it, with the time the message was sent.  The
    membership changes with [upgrade_quorum_set], as [rebuild_progresses]
    does, and all other operations leave the clock alone. *)
Inductive clocked : Membership → list (N * Instant) → Leader → Prop :=
| clocked_new vote (m : Membership) last id_gen now :
    Membership_configs m ≠ [] →
    clocked m [] (Leader_new vote m (Membership_learner_ids m) last id_gen now).1
| clocked_ack m acks l (target : N) sent l' t :
    clocked m acks l → update_clock l target sent = Ret (l', t) →
    clocked m ((target, sent) :: acks) l'
| clocked_upgrade m acks l (m' : Membership) :
    clocked m acks l → Membership_configs m' ≠ [] →
    clocked m' acks (Leader_set_clock_progress l
      (upgrade_quorum_set (Leader_clock_progress l) m' (Membership_learner_ids m') IdVal_new_default))
| clocked_other m acks l l' :
    clocked m acks l → Leader_clock_progress l' = Leader_clock_progress l → Leader_node_id l' = Leader_node_id l →
    clocked m acks l'.

(** Every time in the clock is of the leader itself or was acknowledged. *)
Record clock_ok (m : Membership) (acks : list (N * Instant)) (self : N)
    (p : VecProgress (N * option Instant) (option Instant) Membership) : Prop := {
  clock_wf : VecProgress_wf p;
  clock_accepted : accepted_by_quorum p;
  clock_qs : VecProgress_quorum_set p = m;
  clock_configs : is_quorum m [] = false;
  clock_backed : ∀ x t, (x, Some t) ∈ VecProgress_entries p → x = self ∨ (x, t) ∈ acks;
}.

Lemma increase_to_entries (p : VecProgress (N * option Instant) (option Instant) Membership) id v e :
  VecProgress_wf p → e ∈ VecProgress_entries (result_state (increase_to p id v)) →
  e ∈ VecProgress_entries p ∨ e = (id, v).
Proof.
  intros Hwf. unfold increase_to, update_with.
  set (f := λ e : N * option Instant, set_progress (if (progress e <? v) then v else progress e) e).
  assert (monotone_update f) as Hf.
  { intros x. split; [done|]. unfold f. cbn. destruct (ltb_spec x.2 v); [by apply ord_lt_le|apply ord_le_refl]. }
  destruct (decide (id ∈ entry_id <$> VecProgress_entries p)) as [Hin|Hout].
  2:{ rewrite update_entry_with_Err by done. by left. }
  destruct (update_entry_with_Ok p id f Hwf Hf Hin) as (p' & l1 & [i w] & l2 & -> & He & Hid & Hpost).
  cbn. rewrite (post_entries _ _ _ _ _ _ Hpost), He, !elem_of_app, !elem_of_cons.
  cbn in Hid. subst i. intros [?|[->|?]]; [by auto| |by auto].
  unfold f. cbn. case_match; auto.
Qed.

Lemma clock_increase m acks self p id t :
  clock_ok m acks self p → id = self ∨ (id, t) ∈ acks →
  clock_ok m acks self (result_state (increase_to p id (Some t))).
Proof.
  intros [Hwf Hacc Hqs Hq Hb] Hid.
  destruct (increase_to_inv p id (Some t) Hwf Hacc) as (? & ? & Hqs' & _); [by rewrite Hqs|].
  split; [done..|by rewrite Hqs'|done|].
  intros x u [?|[= -> ->]]%increase_to_entries; [by apply Hb|done|done].
Qed.

Lemma clock_more m acks acks' self p : acks ⊆ acks' → clock_ok m acks self p → clock_ok m acks' self p.
Proof. intros Hs [???? Hb]. split; try done. intros x t [?|?]%Hb; [by left|right; by apply Hs]. Qed.

Lemma clock_upgrade m acks self p (m' : Membership) :
  clock_ok m acks self p → Membership_configs m' ≠ [] →
  clock_ok m' acks self (upgrade_quorum_set p m' (Membership_learner_ids m') IdVal_new_default).
Proof.
  intros [Hwf _ _ _ Hb] Hm.
  destruct (upgrade_quorum_set_spec p m' (Membership_learner_ids m') IdVal_new_default Hwf)
    as (Hwf' & ? & ? & Hids & Hget); [by apply Membership_quorum_nil|apply Membership_ids_NoDup|done|].
  split; [done..|by apply Membership_quorum_nil|]. intros x t Hin.
  pose proof (try_get_Some _ _ Hwf' Hin) as Ht. cbn in Ht. rewrite Hget in Ht.
  - destruct (try_get p x) as [e|] eqn:Hp; [|done]. injection Ht as Ht. cbn in Ht. subst e.
    apply try_get_elem in Hp as [Hp _]. by apply Hb.
  - rewrite <- Hids. exact (list_elem_of_fmap_2 entry_id _ _ Hin).
Qed.

Lemma clocked_ok m acks l : clocked m acks l → clock_ok m acks (Leader_node_id l) (Leader_clock_progress l).
Proof.
  induction 1 as [vote m last id_gen now Hm|m acks l target sent l' t _ IH Hu|m acks l m' _ IH Hm|m acks l l' _ IH Hc Hn].
  - unfold Leader_new. cbn zeta. cbn [fst Leader_clock_progress]. apply clock_increase; [|by left].
    destruct (new_wf m (Membership_learner_ids m) (IdVal_new_default (V := option Instant)))
      as (? & ? & _ & Hent); [by apply Membership_quorum_nil|apply Membership_ids_NoDup|done|].
    split; [done..|by apply Membership_quorum_nil|]. by intros x t ?%Hent.
  - unfold update_clock in Hu. destruct (increase_to _ target _) as [c|] eqn:Hi; [|done].
    injection Hu as <- _. change c with (result_state (Ok (E := VecProgress (N * option Instant) _ _) c)).
    cbn [Leader_clock_progress Leader_set_clock_progress]. rewrite <- Hi.
    apply clock_increase; [|by right; left]. apply clock_increase; [|by left].
    by apply (clock_more m acks); [set_solver|].
  - by apply (clock_upgrade m).
  - by rewrite Hc, Hn.
Qed.

Lemma clock_self_quorum m acks l :
  clock_ok m acks (Leader_node_id l) (Leader_clock_progress l) → is_self_quorum l = Ret true →
  ∀ x, Membership_is_voter m x = true ↔ x = Leader_node_id l.
Proof.
  intros [Hwf _ Hqs _ _]. unfold is_self_quorum. case_decide as Hv; [done|].
  pose proof (wf_voters _ Hwf) as Hp. unfold voters in Hp. rewrite Hv, Hqs in Hp.
  destruct (VecProgress_entries _) as [|e es]; [done|]. cbn in Hp |- *.
  intros [= He%bool_decide_eq_true_1] x. rewrite <- elem_of_voter_ids. unfold Membership_voter_ids.
  change (bset_iter (joint_voters (Membership_configs m))) with (qs_ids m). rewrite <- Hp, He. set_solver.
Qed.

(** Consecutive ids of one leader follow any log id that is not above it. *)
Lemma follows_range cl n (first : u64) prev :
  next_index prev = first → (first + N.of_nat n < u64_modulus)%N →
  (∀ x, prev = Some x → LogId_leader_id x ≼ cl) →
  follows prev ((λ i : nat, mkLogId cl (first + N.of_nat i)%N) <$> seq 0 n).
Proof.
  revert first prev. induction n as [|n IH]; intros first prev Hf Hb Hp; [done|].
  cbn. rewrite N.add_0_r. split_and!; [done|lia|done|].
  rewrite <- fmap_S_seq, <- list_fmap_compose.
  rewrite (list_fmap_ext _ (λ i : nat, mkLogId cl ((first + 1) + N.of_nat i)%N)).
  - apply IH; [apply next_index_some; cbn; lia|lia|]. intros x [= <-]. apply ord_le_refl.
  - intros i x Hx. cbn. f_equal. lia.
Qed.

(** ** Properties *)

(** A candidate is told that a quorum granted its vote exactly when the
    last grant is of a voter and the voters that have granted, in any order
    and with any repetition, are a quorum of its membership. *)
Theorem candidate_elected_by_quorum now vote last_log_id (m : Membership) learner_ids
    (targets : list N) (t : N) :
  Membership_configs m ≠ [] →
  (grant_by (grant_all (Candidate_new now vote last_log_id m learner_ids) targets) t).2 =
    bool_decide (t ∈ qs_ids m) &&
    is_quorum m (filter (λ x, x ∈ t :: targets) (qs_ids m)).
Proof.
  intros Hm. destruct (tally_grant_all m [] (Candidate_new now vote last_log_id m learner_ids) targets)
    as (S & Htally & HS); [by apply tally_new|].
  pose proof (tally_update m S _ t Htally) as Hu. unfold grant_by.
  destruct (update _ t true) as [p'|p']; destruct Hu as [Hu Hin]; cbn.
  - rewrite bool_decide_eq_true_2 by done. cbn. apply tally_accepted_iff.
    eapply tally_ok_proper; [|exact Hu]. intros x. rewrite !elem_of_cons, HS. set_solver.
  - by rewrite bool_decide_eq_false_2.
Qed.

(** A new leader starts with valid trackers of exactly the voters and
    learners, gives every replication stream an id of its own and advances the
    generator past them, and its no-op log is the first log it proposes: the
    one after the last log, or its first log when it leads again after a
    restart. *)
Theorem leader_new_established vote (m : Membership) (last : option LeaderLogIds) id_gen now :
  Membership_configs m ≠ [] →
  (id_gen + N.of_nat (length (qs_ids m ++ Membership_learner_ids m)) < u64_modulus)%N →
  let '(l, id_gen') := Leader_new vote m (Membership_learner_ids m) last id_gen now in
  Leader_inv l ∧ VecProgress_quorum_set (Leader_progress l) = m ∧
  entry_id <$> VecProgress_entries (Leader_progress l) = qs_ids m ++ Membership_learner_ids m ∧
  NoDup (stream_id <$> VecProgress_entries (Leader_progress l)) ∧
  (∀ e, e ∈ VecProgress_entries (Leader_progress l) →
    (id_gen ≤ stream_id e < id_gen')%N ∧ inflight e = Inflight_None ∧
    searching_end e = next_index (Leader_last_log_id l)) ∧
  LogId_leader_id (Leader_noop_log_id l) = CommittedVote_committed_leader_id vote ∧
  (Leader_noop_log_id l = mkLogId (CommittedVote_committed_leader_id vote)
     (next_index (Leader_last_log_id l)) ∨
   Some (Leader_noop_log_id l) = LeaderLogIds_first_ref <$> last).
Proof.
  intros Hm Hb. pose proof (Leader_new_inv vote m last id_gen now Hm) as Hinv. revert Hinv.
  unfold Leader_new. set (ids := qs_ids m ++ Membership_learner_ids m) in *.
  set (end' := next_index _). cbn zeta. intros Hinv.
  pose proof (Membership_quorum_nil m Hm) as Hq. pose proof (Membership_ids_NoDup m) as Hn.
  destruct (new_wf m (Membership_learner_ids m) (new_progress_entry ids id_gen end'))
    as (Hwf & Hacc & Hids & Hent); [done..|].
  pose proof (new_progress_stream_ids m (Membership_learner_ids m) id_gen end' Hn Hb) as Hsid.
  split_and!; cbn [Leader_progress Leader_clock_progress Leader_noop_log_id Leader_last_log_id].
  - exact Hinv.
  - done.
  - done.
  - fold ids in Hsid. rewrite Hsid. apply NoDup_fmap_2; [|apply NoDup_seq]. intros i j. lia.
  - intros e He. split; [|by rewrite (Hent e He)].
    pose proof (list_elem_of_fmap_2 stream_id _ e He) as Hse. fold ids in Hsid. rewrite Hsid in Hse.
    apply list_elem_of_fmap in Hse as (i & -> & Hi%elem_of_seq).
    unfold advance_id_gen. rewrite u64_add_small by done. lia.
  - destruct last as [r|]; cbn; [case_decide|]; done.
  - destruct last as [r|]; cbn; [case_decide|]; auto.
Qed.

(** The log ids a leader assigns are consecutive, start right after its last
    log id, belong to it and number as requested; the last of them becomes its
    last log id, so two assignments never overlap. *)
Lemma assign_log_ids_consecutive l (count : N) :
  (0 < count)%N → (next_index (Leader_last_log_id l) + count < u64_modulus)%N →
  (∀ x, Leader_last_log_id l = Some x →
    LogId_leader_id x ≼ CommittedVote_committed_leader_id (Leader_committed_vote l)) →
  ∃ r, (assign_log_ids l count).2 = Some r ∧
    length (LeaderLogIds_ids r) = N.to_nat count ∧
    follows (Leader_last_log_id l) (LeaderLogIds_ids r) ∧
    (assign_log_ids l count).1 = Leader_set_last_log_id l (last (LeaderLogIds_ids r)) ∧
    (∀ x, x ∈ LeaderLogIds_ids r →
      LogId_leader_id x = CommittedVote_committed_leader_id (Leader_committed_vote l)).
Proof.
  intros Hc Hb Hlead. unfold assign_log_ids. rewrite decide_False by lia.
  set (first := next_index (Leader_last_log_id l)) in *.
  rewrite u64_add_small, u64_sub_small by (unfold in_u64; lia). eexists. split; [done|].
  unfold LeaderLogIds_ids; cbn.
  replace (N.to_nat (first + count - 1 + 1 - first)) with (N.to_nat count) by lia.
  split_and!; [by rewrite length_fmap, length_seq|apply follows_range; [done|lia|done]| |].
  - replace (N.to_nat count) with (S (N.to_nat (count - 1))) by lia.
    rewrite seq_S, fmap_app. cbn [fmap list_fmap]. rewrite last_snoc. do 3 f_equal. lia.
  - by intros x (i & -> & _)%list_elem_of_fmap.
Qed.

(** C26: while the lease of a leader is valid, either it is the only voter, or
    a quorum of its membership stands behind it: each member is the leader
    itself or has acknowledged a message that the leader sent less than
    [leader_lease] ago.  The leader may have gone through any acknowledgements,
    of voters, of learners, late or out of order, and any changes of the
    membership since it was elected. *)
Theorem lease_backed_by_quorum m acks l leader_lease now :
  clocked m acks l → is_lease_valid l leader_lease now = Ret true →
  (∀ x, Membership_is_voter m x = true ↔ x = Leader_node_id l) ∨
  ∃ backers, NoDup backers ∧ is_quorum m backers = true ∧
    ∀ x, x ∈ backers → Membership_is_voter m x = true ∧
      (x = Leader_node_id l ∨ ∃ sent, (x, sent) ∈ acks ∧ (now < sent + leader_lease)%N).
Proof.
  intros Hc%clocked_ok. unfold is_lease_valid. intros (b & Hb & Hv)%outcome_bind_Ret.
  destruct b; [left; by eapply clock_self_quorum|]. right. injection Hv as Hv. unfold last_quorum_acked_time in Hv.
  destruct Hc as [Hwf Hacc Hqs _ Hback]. destruct (VecProgress_quorum_accepted _) as [acked|] eqn:Hqa; [|done].
  rewrite ltb_true, N_ord_lt in Hv. destruct Hacc as [Hd|Hg]; rewrite Hqa in *; [done|].
  exists (granters (Leader_clock_progress l) (Some acked)). unfold granted in Hg. rewrite Hqs in Hg.
  split_and!; [by apply NoDup_granters, wf_ids|done|].
  intros x ([i o] & <- & Hin & Hle)%granters_elem. cbn in *. split.
  - apply elem_of_voter_ids. change (i ∈ qs_ids m). rewrite <- Hqs, <- (wf_voters _ Hwf).
    exact (list_elem_of_fmap_2 entry_id _ _ Hin).
  - destruct o as [sent|]; [|done]. destruct (Hback i sent) as [?|?]; [|by left|].
    + unfold voters in Hin. by apply elem_of_take in Hin as (j & Hj & _); eapply list_elem_of_lookup_2.
    + right. exists sent. split; [done|]. apply (N_ord_le acked sent) in Hle.
      eapply N.lt_le_trans; [exact Hv|]. by apply N.add_le_mono_r.
Qed.

(** A heartbeat or replication ack from a tracked node never panics,
    keeps the leader's trackers valid and never moves the time acknowledged
    by a quorum back. *)
Theorem update_clock_monotone l (target : N) (sent : Instant) :
  Leader_inv l → target ∈ entry_id <$> VecProgress_entries (Leader_clock_progress l) →
  ∃ l' t, update_clock l target sent = Ret (l', t) ∧ Leader_inv l' ∧
    t = last_quorum_acked_time l' ∧ last_quorum_acked_time l ≼ last_quorum_acked_time l'.
Proof.
  intros [Hp Ha Hc Hca Hqs Hq] Hin. unfold update_clock.
  rewrite <- Hqs in Hq.
  destruct (increase_to_inv _ (Leader_node_id l) (Some sent) Hc Hca Hq)
    as (Hc1 & Hca1 & Hqs1 & Hids1 & Hle1 & _).
  set (c1 := result_state _) in *. rewrite <- Hqs1 in Hq.
  destruct (increase_to_inv c1 target (Some sent) Hc1 Hca1 Hq) as (Hc2 & Hca2 & Hqs2 & _ & Hle2 & Hok).
  rewrite Hok by (by rewrite Hids1). eexists _, _. split; [done|]. split_and!; [|done|].
  - split; try done; cbn; [congruence|by rewrite <- Hqs, <- Hqs1].
  - unfold last_quorum_acked_time in *. cbn. ord.
Qed.
End proposer.

(** ** Witnesses *)

Module ProposerWitness.
#[local] Existing Instance adv_config.
Import LogIdListWitness MembershipWitness RaftStateWitness.

Definition vote51 : Vote := Vote_new (C := adv_config) 5 1.

Lemma candidate_elected_by_quorum_witness :
  (grant_by (grant_all (Candidate_new 0 vote51 None m123 []) [1; 7]%N) 3%N).2 = true.
Proof.
  rewrite (candidate_elected_by_quorum 0 vote51 None m123 [] [1; 7]%N 3%N) by done.
  vm_compute. reflexivity.
Defined.

Definition leader51 : Leader * u64 :=
  Leader_new (Vote_to_committed vote51) m123 (Membership_learner_ids m123)
    (LogIdList_by_last_leader sample) 9 1000.

Lemma leader_new_established_witness :
  Leader_noop_log_id leader51.1 = lid 5 1 8 ∧ leader51.2 = 14%N ∧ Leader_inv leader51.1.
Proof.
  pose proof (leader_new_established (Vote_to_committed vote51) m123
    (LogIdList_by_last_leader sample) 9 1000) as H.
  destruct (Leader_new _ _ _ _ _ _) as [l g] eqn:E.
  destruct H as (Hinv & _); [done|vm_compute; done|].
  unfold leader51. rewrite E. split_and!; [..|exact Hinv];
    [change l with (l, g).1|change g with (l, g).2]; rewrite <- E; vm_compute; reflexivity.
Defined.

Lemma assign_log_ids_consecutive_witness :
  ∃ r, (assign_log_ids leader51.1 3).2 = Some r ∧
    LeaderLogIds_ids r = [lid 5 1 8; lid 5 1 9; lid 5 1 10].
Proof.
  destruct (assign_log_ids_consecutive leader51.1 3) as (r & Hr & _).
  - lia.
  - vm_compute. reflexivity.
  - intros x Hx. vm_compute in Hx. injection Hx as <-. done.
  - exists r. split; [done|]. vm_compute in Hr. by injection Hr as <-.
Defined.

(** The clock of node 2 is acknowledged. *)
Definition leader51_acked : Leader := match update_clock leader51.1 2%N 1100%N with
  | Ret (l, _) => l | Panic => leader51.1 end.

Lemma leader51_inv : Leader_inv leader51.1.
Proof. by apply Leader_new_inv. Qed.

Lemma update_clock_monotone_witness :
  ∃ l' t, update_clock leader51.1 2%N 1100%N = Ret (l', t) ∧ Leader_inv l'.
Proof.
  destruct (update_clock_monotone leader51.1 2%N 1100%N) as (l' & t & ? & ? & _).
  - apply leader51_inv.
  - refine (bool_decide_eq_true_1 _ _). vm_compute. reflexivity.
  - eauto.
Defined.

Lemma lease_backed_by_quorum_witness :
  is_lease_valid leader51_acked 300 1300 = Ret true ∧
  ∃ backers, is_quorum m123 backers = true ∧
    ∀ x, x ∈ backers → x = 1%N ∨ ∃ sent, (x, sent) ∈ [(2, 1100)]%N ∧ (1300 < sent + 300)%N.
Proof.
  assert (clocked m123 [(2, 1100)%N] leader51_acked) as Hc.
  { apply (clocked_ack m123 [] leader51.1 2 1100 _ (Some 1100%N)); [by apply clocked_new|].
    vm_compute. reflexivity. }
  split; [vm_compute; reflexivity|].
  destruct (lease_backed_by_quorum _ _ _ 300 1300 Hc) as [H|(Q & _ & Hq & H)].
  - vm_compute. reflexivity.
  - specialize (proj1 (H 3%N) eq_refl). intros H3. vm_compute in H3. done.
  - exists Q. split; [done|]. intros x Hx. exact (proj2 (H x Hx)).
Defined.
End ProposerWitness.
