(* ===== verification/Command.v ===== *)
(** * Messages, commands and the output of the engine

    [engine/command.rs], [core/sm/command.rs], [engine/engine_output.rs],
    [engine/command_scheduler.rs], [engine/pending_responds.rs],
    [engine/respond_command.rs], [engine/replication_progress.rs], the RPC
    messages of [raft/message/] and the requests of [replication/].

    A oneshot sender is the identity of its channel. *)

From S2P Require Import Prelude Vote LogId Quorum Membership IOState MembershipState Entry.
From S2P Require Import RaftState Config ProgressEntry.

Section command.
Context {C : RaftTypeConfig}.

(** ** Messages *)

Record VoteRequest := mkVoteRequest {
  VoteRequest_vote : Vote;
  VoteRequest_last_log_id : option LogId;
  VoteRequest_leadership_transfer : bool;
  VoteRequest_is_pre_vote : bool;
}.

Definition VoteRequest_new_pre_vote (vote : Vote) (last_log_id : option LogId) : VoteRequest :=
  mkVoteRequest vote last_log_id false true.

Record VoteResponse := mkVoteResponse {
  VoteResponse_vote : Vote;
  VoteResponse_vote_granted : bool;
  VoteResponse_last_log_id : option LogId;
}.

Definition VoteResponse_new (vote : Vote) (last_log_id : option LogId) (granted : bool) :
    VoteResponse := mkVoteResponse vote granted last_log_id.

Definition is_granted_to (r : VoteResponse) (candidate_vote : Vote) : bool :=
  bool_decide (VoteResponse_vote r = candidate_vote).

Record LogSegment := mkLogSegment {
  LogSegment_prev_log_id : option LogId;
  LogSegment_entries : list Entry;
}.

Definition LogSegment_last (s : LogSegment) : option LogId :=
  match last (LogSegment_entries s) with
  | Some e => Some (Entry_log_id e)
  | None => LogSegment_prev_log_id s
  end.

Record TransferLeaderRequest := mkTransferLeaderRequest {
  TransferLeaderRequest_from_leader : Vote;
  TransferLeaderRequest_to_node_id : u64;
  TransferLeaderRequest_last_log_id : option LogId;
}.

Record SnapshotResponse := mkSnapshotResponse { SnapshotResponse_vote : Vote }.

Record Snapshot := mkSnapshot {
  Snapshot_meta : SnapshotMeta;
  Snapshot_snapshot : SnapshotData;
}.

Record ReplicationSessionId := mkReplicationSessionId {
  ReplicationSessionId_leader_vote : CommittedVote;
  ReplicationSessionId_membership_log_id : option LogId;
}.

(** [replication/payload.rs], [replication/replicate.rs] *)
Inductive Payload :=
| Payload_LogIdRange (log_id_range : LogIdRange)
| Payload_LogsSince (prev : option LogId).

Record Replicate := mkReplicate {
  Replicate_inflight_id : u64;
  Replicate_payload : Payload;
}.

Definition Replicate_new_logs (r : LogIdRange) (inflight_id : u64) : Replicate :=
  mkReplicate inflight_id (Payload_LogIdRange r).
Definition Replicate_new_logs_since (prev : option LogId) (inflight_id : u64) : Replicate :=
  mkReplicate inflight_id (Payload_LogsSince prev).

Record TargetProgress := mkTargetProgress {
  TargetProgress_target : u64;
  TargetProgress_target_node : Node;
  TargetProgress_progress : ProgressEntry;
}.

(** ** Errors *)

(** [RejectVote] *)
Record RejectVote := mkRejectVote { RejectVote_higher : Vote }.

Record ConflictingLogId := mkConflictingLogId {
  ConflictingLogId_expect : LogId;
  ConflictingLogId_local : option LogId;
}.

Inductive RejectAppendEntries :=
| RejectAppendEntries_RejectVote (r : RejectVote)
| RejectAppendEntries_ConflictingLogId (c : ConflictingLogId).

Inductive StreamAppendError :=
| StreamAppendError_Conflict (expect : LogId)
| StreamAppendError_HigherVote (higher : Vote).

(** [From<RejectAppendEntries> for StreamAppendError] *)
Definition StreamAppendError_from (e : RejectAppendEntries) : StreamAppendError :=
  match e with
  | RejectAppendEntries_RejectVote r => StreamAppendError_HigherVote (RejectVote_higher r)
  | RejectAppendEntries_ConflictingLogId c => StreamAppendError_Conflict (ConflictingLogId_expect c)
  end.

Definition StreamAppendResult : Type := result (option LogId) StreamAppendError.

Inductive InitializeError :=
| InitializeError_NotAllowed (last_log_id : option LogId) (vote : Vote)
| InitializeError_NotInMembers (node_id : u64) (membership : Membership).

(** ** Commands *)

Definition Sender : Type := N.

(** [ValueSender] and [Respond] *)
Inductive Respond :=
| Respond_Vote (value : VoteResponse) (tx : Sender)
| Respond_AppendEntries (value : StreamAppendResult) (tx : Sender)
| Respond_InstallFullSnapshot (value : SnapshotResponse) (tx : Sender)
| Respond_Initialize (value : result unit InitializeError) (tx : Sender).

Inductive Condition :=
| Condition_IOFlushed (io_id : IOId)
| Condition_Snapshot (log_id : LogId).

(** [core/sm/command.rs] *)
Inductive SmCommand :=
| SmCommand_BuildSnapshot
| SmCommand_GetSnapshot (tx : Sender)
| SmCommand_InstallFullSnapshot (log_io_id : LogIOId) (snapshot : Snapshot)
| SmCommand_Apply (first last : LogId) (client_resp_channels : list (u64 * Sender))
| SmCommand_ExternalFunc.

Inductive Command :=
| Command_UpdateIOProgress (when : option Condition) (io_id : IOId)
| Command_AppendEntries (committed_vote : CommittedVote) (entries : list Entry)
| Command_ReplicateCommitted (committed : option LogId)
| Command_BroadcastHeartbeat (session_id : ReplicationSessionId) (bypass_min_interval : bool)
| Command_SaveCommittedAndApply (already_applied : option LogId) (upto : LogId)
| Command_Replicate (target : u64) (req : Replicate)
| Command_ReplicateSnapshot (leader_vote : CommittedVote) (target inflight_id : u64)
| Command_BroadcastTransferLeader (req : TransferLeaderRequest)
| Command_CloseReplicationStreams
| Command_FailPendingReads
| Command_RebuildReplicationStreams (leader_vote : CommittedVote) (targets : list TargetProgress)
    (close_old_streams : bool)
| Command_SaveVote (vote : Vote)
| Command_SendVote (vote_req : VoteRequest)
| Command_SendPreVote (vote_req : VoteRequest)
| Command_PurgeLog (upto : LogId)
| Command_TruncateLog (after : option LogId)
| Command_StateMachine (command : SmCommand)
| Command_Respond (when : option Condition) (resp : Respond).

(** [sm::Command]: the progress a command advances when it is submitted. *)
Definition get_log_progress (c : SmCommand) : option IOId :=
  match c with
  | SmCommand_InstallFullSnapshot log_io_id _ => Some (IOId_Log log_io_id)
  | _ => None
  end.
Definition get_apply_progress (c : SmCommand) : option LogId :=
  match c with
  | SmCommand_InstallFullSnapshot log_io_id _ => LogIOId_log_id log_io_id
  | SmCommand_Apply _ last _ => Some last
  | _ => None
  end.
Definition get_snapshot_progress (c : SmCommand) : option LogId :=
  match c with
  | SmCommand_InstallFullSnapshot _ snapshot => SnapshotMeta_last_log_id (Snapshot_meta snapshot)
  | _ => None
  end.

(** [Command::condition] *)
Definition Command_condition (c : Command) : option Condition :=
  match c with
  | Command_Respond when _ => when
  | Command_UpdateIOProgress when _ => when
  | Command_PurgeLog upto => Some (Condition_Snapshot upto)
  | _ => None
  end.

(** [Condition::is_satisfied_by] and [is_met] *)
Definition is_satisfied_by {T} `{!PartialOrd T} (expected : T) (actual : option T) : bool :=
  match actual with
  | Some actual => pgeb actual expected
  | None => false
  end.

Definition Condition_is_met (c : Condition) (io_state : IOState) : bool :=
  match c with
  | Condition_IOFlushed io_id =>
      is_satisfied_by io_id (IOProgress_flushed (IOState_log_progress io_state))
  | Condition_Snapshot log_id =>
      is_satisfied_by log_id (IOProgress_flushed (IOState_snapshot io_state))
  end.

(** ** [EngineOutput] *)

(** Queues, with the front first; a pending respond is the progress it waits
    for and the respond. *)
Record PendingResponds := mkPendingResponds {
  on_log_io : list (IOId * Respond);
  on_snapshot : list (LogId * Respond);
}.

Record EngineOutput := mkEngineOutput {
  EngineOutput_commands : list Command;
  EngineOutput_pending_responds : PendingResponds;
}.

Definition EngineOutput_new : EngineOutput := mkEngineOutput [] (mkPendingResponds [] []).

Definition push_command (o : EngineOutput) (cmd : Command) : EngineOutput :=
  mkEngineOutput (EngineOutput_commands o ++ [cmd]) (EngineOutput_pending_responds o).
Definition prepend_command (o : EngineOutput) (cmd : Command) : EngineOutput :=
  mkEngineOutput (cmd :: EngineOutput_commands o) (EngineOutput_pending_responds o).
Definition pop_command (o : EngineOutput) : EngineOutput * option Command :=
  match EngineOutput_commands o with
  | [] => (o, None)
  | cmd :: cmds => (mkEngineOutput cmds (EngineOutput_pending_responds o), Some cmd)
  end.

(** [postpone_command]: [true] for [Ok], when the command is moved to a
    pending queue. *)
Definition postpone_command (o : EngineOutput) (cmd : Command) : outcome (EngineOutput * bool) :=
  match cmd with
  | Command_Respond when resp =>
      let p := EngineOutput_pending_responds o in
      match when with
      | None => Panic
      | Some (Condition_IOFlushed io_id) =>
          Ret (mkEngineOutput (EngineOutput_commands o)
                 (mkPendingResponds (on_log_io p ++ [(io_id, resp)]) (on_snapshot p)), true)
      | Some (Condition_Snapshot log_id) =>
          Ret (mkEngineOutput (EngineOutput_commands o)
                 (mkPendingResponds (on_log_io p) (on_snapshot p ++ [(log_id, resp)])), true)
      end
  | _ => Ret (prepend_command o cmd, false)
  end.

(** *** [PendingResponds::drain_satisfied] *)

Definition pop_if_satisfied {V} `{!PartialOrd V} (queue : list (V * Respond)) (actual : V) :
    option (Respond * list (V * Respond)) :=
  match queue with
  | [] => None
  | (wait_for, resp) :: queue => if pgeb actual wait_for then Some (resp, queue) else None
  end.

Inductive DrainPhase :=
| DrainPhase_LogIO
| DrainPhase_Snapshot
| DrainPhase_Done.

(** The arms of the loop of [DrainSatisfied::next], from the last phase to the
    first: each falls through to the next phase. *)
Definition DrainSatisfied_next_snapshot (p : PendingResponds) (io_state : IOState) :
    PendingResponds * DrainPhase * option (DrainPhase * Respond) :=
  match (snapshot ← IOProgress_flushed (IOState_snapshot io_state);
         pop_if_satisfied (on_snapshot p) snapshot) with
  | Some (resp, q) =>
      (mkPendingResponds (on_log_io p) q, DrainPhase_Snapshot, Some (DrainPhase_Snapshot, resp))
  | None => (p, DrainPhase_Done, None)
  end.

Definition DrainSatisfied_next (p : PendingResponds) (io_state : IOState) (phase : DrainPhase) :
    PendingResponds * DrainPhase * option (DrainPhase * Respond) :=
  match phase with
  | DrainPhase_LogIO =>
      match (flushed ← IOProgress_flushed (IOState_log_progress io_state);
             pop_if_satisfied (on_log_io p) flushed) with
      | Some (resp, q) =>
          (mkPendingResponds q (on_snapshot p), DrainPhase_LogIO, Some (DrainPhase_LogIO, resp))
      | None => DrainSatisfied_next_snapshot p io_state
      end
  | DrainPhase_Snapshot => DrainSatisfied_next_snapshot p io_state
  | DrainPhase_Done => (p, DrainPhase_Done, None)
  end.

(** Running the iterator to its end: each step removes a respond, so the
    number of queued responds is enough fuel. *)
Fixpoint DrainSatisfied_collect (fuel : nat) (p : PendingResponds) (io_state : IOState)
    (phase : DrainPhase) : PendingResponds * list (DrainPhase * Respond) :=
  match fuel with
  | O => (p, [])
  | S fuel =>
      match DrainSatisfied_next p io_state phase with
      | (p, _, None) => (p, [])
      | (p, phase, Some x) =>
          let '(p, xs) := DrainSatisfied_collect fuel p io_state phase in (p, x :: xs)
      end
  end.

Definition drain_satisfied (p : PendingResponds) (io_state : IOState) :
    PendingResponds * list (DrainPhase * Respond) :=
  DrainSatisfied_collect (S (length (on_log_io p) + length (on_snapshot p))) p io_state
    DrainPhase_LogIO.

(** *** [CommandScheduler] *)

(** The loop of [merge_front_append_entries]. *)
Fixpoint merge_loop (max_entries : u64) (vote : CommittedVote) (entries : list Entry)
    (commands : list Command) : list Entry * list Command :=
  match commands with
  | [] => (entries, [])
  | next :: rest =>
      match next with
      | Command_AppendEntries next_vote next_entries =>
          if bool_decide (next_vote = vote) &&
             (u64_add (N.of_nat (length entries)) (N.of_nat (length next_entries)) <=? max_entries)
          then merge_loop max_entries vote (entries ++ next_entries) rest
          else (entries, next :: rest)
      | _ => (entries, next :: rest)
      end
  end.

Definition merge_front_append_entries (max_entries : u64) (commands : list Command) :
    list Command :=
  match commands with
  | Command_AppendEntries vote entries :: rest =>
      let '(entries, rest) := merge_loop max_entries vote entries rest in
      Command_AppendEntries vote entries :: rest
  | _ => commands
  end.

Definition sched_commands (c : Config) (o : EngineOutput) : EngineOutput :=
  mkEngineOutput (merge_front_append_entries (get_max_append_entries c) (EngineOutput_commands o))
    (EngineOutput_pending_responds o).

(** ** Lemmas *)

(** What a queue of commands does, with the writes of single entries made
    explicit. *)
Inductive Effect :=
| Effect_Append (vote : CommittedVote) (entry : Entry)
| Effect_Other (c : Command).

Definition effects_of (c : Command) : list Effect :=
  match c with
  | Command_AppendEntries vote entries => Effect_Append vote <$> entries
  | c => [Effect_Other c]
  end.

Definition effects (cs : list Command) : list Effect := cs ≫= effects_of.

Lemma merge_loop_effects max_entries vote entries commands :
  (N.of_nat (length entries + length (effects commands)) < u64_modulus)%N →
  let '(entries', rest) := merge_loop max_entries vote entries commands in
  (Effect_Append vote <$> entries) ++ effects commands =
    (Effect_Append vote <$> entries') ++ effects rest ∧
  length rest ≤ length commands ∧
  (entries' = entries ∨ (N.of_nat (length entries') ≤ max_entries)%N).
Proof.
  revert entries. induction commands as [|next rest IH]; intros entries Hb; cbn; [auto|].
  destruct next as [|next_vote next_entries| | | | | | | | | | | | | | | |];
    try by (split_and!; [done|cbn; lia|by left]).
  destruct (bool_decide (next_vote = vote)) eqn:Hv; cbn; [|by split_and!; [done|cbn; lia|by left]].
  apply bool_decide_eq_true in Hv as ->.
  unfold effects in Hb. cbn in Hb. fold (effects rest) in Hb. rewrite length_app, length_fmap in Hb.
  rewrite u64_add_small by lia.
  destruct (leb_spec (N.of_nat (length entries) + N.of_nat (length next_entries))%N max_entries)
    as [Hle|_]; [|by split_and!; [done|cbn; lia|by left]].
  rewrite N_ord_le in Hle.
  specialize (IH (entries ++ next_entries)). rewrite length_app in IH.
  destruct (merge_loop max_entries vote (entries ++ next_entries) rest) as [entries' rest'].
  destruct IH as (He & Hl & Hm); [lia|]. split_and!; [|cbn; lia|].
  - unfold effects at 1; cbn. fold (effects rest). by rewrite app_assoc, <- fmap_app, He.
  - right. destruct Hm as [->|?]; [|done]. rewrite length_app. lia.
Qed.

#[local] Arguments pgeb : simpl never.

Lemma pop_if_satisfied_spec {V} `{!PartialOrd V} (queue : list (V * Respond)) actual :
  match pop_if_satisfied queue actual with
  | Some (resp, q) => ∃ w, queue = (w, resp) :: q ∧ pgeb actual w = true
  | None => ∀ w resp q, queue = (w, resp) :: q → pgeb actual w = false
  end.
Proof.
  destruct queue as [|[w resp] q]; cbn; [done|]. destruct (pgeb actual w) eqn:E; [eauto|].
  by intros w' resp' q' [= <- <- <-].
Qed.

(** The longest prefix of a queue that the flushed position satisfies, and the
    rest. *)
Fixpoint satisfied_prefix {V} `{!PartialOrd V} (actual : option V) (queue : list (V * Respond)) :
    list Respond * list (V * Respond) :=
  match queue with
  | [] => ([], [])
  | (w, resp) :: q =>
      if is_satisfied_by w actual
      then let '(rs, rest) := satisfied_prefix actual q in (resp :: rs, rest)
      else ([], queue)
  end.

Lemma drain_snapshot_phase fuel p io_state :
  length (on_snapshot p) < fuel →
  DrainSatisfied_collect fuel p io_state DrainPhase_Snapshot =
    let '(rs, q) := satisfied_prefix (IOProgress_flushed (IOState_snapshot io_state)) (on_snapshot p) in
    (mkPendingResponds (on_log_io p) q, (λ r, (DrainPhase_Snapshot, r)) <$> rs).
Proof.
  revert p. induction fuel as [|fuel IH]; intros p Hf; [lia|]. cbn.
  unfold DrainSatisfied_next_snapshot. destruct p as [ql qs]; cbn in *.
  destruct qs as [|[w resp] qs]; cbn; [by destruct (IOProgress_flushed _)|].
  destruct (IOProgress_flushed (IOState_snapshot io_state)) as [v|] eqn:Hfl; cbn; [|done].
  destruct (pgeb v w) eqn:E; cbn; [|done].
  cbn in Hf. rewrite IH by (cbn; lia). cbn.
  by destruct (satisfied_prefix (Some v) qs) as [rs q].
Qed.

Lemma drain_log_phase fuel p io_state :
  length (on_log_io p) + length (on_snapshot p) < fuel →
  DrainSatisfied_collect fuel p io_state DrainPhase_LogIO =
    let '(rs, q) := satisfied_prefix (IOProgress_flushed (IOState_log_progress io_state)) (on_log_io p) in
    let '(rs', q') := satisfied_prefix (IOProgress_flushed (IOState_snapshot io_state)) (on_snapshot p) in
    (mkPendingResponds q q', ((λ r, (DrainPhase_LogIO, r)) <$> rs) ++
       ((λ r, (DrainPhase_Snapshot, r)) <$> rs')).
Proof.
  revert p. induction fuel as [|fuel IH]; intros p Hf; [lia|].
  destruct p as [ql qs]; cbn in Hf.
  destruct (flushed ← IOProgress_flushed (IOState_log_progress io_state);
            pop_if_satisfied ql flushed) as [[resp q]|] eqn:Hpop.
  - cbn. rewrite Hpop. apply bind_Some in Hpop as (v & Hv & Hpop).
    pose proof (pop_if_satisfied_spec ql v) as Hs. rewrite Hpop in Hs. destruct Hs as (w & -> & Hw).
    cbn in Hf. rewrite IH by (cbn; lia). cbn. rewrite Hv. cbn. rewrite Hw.
    destruct (satisfied_prefix (Some v) q) as [rs q1].
    by destruct (satisfied_prefix (IOProgress_flushed (IOState_snapshot io_state)) qs) as [rs' q'].
  - pose proof (drain_snapshot_phase (S fuel) (mkPendingResponds ql qs) io_state) as Hsn.
    cbn in Hsn. cbn. rewrite Hpop, Hsn by lia. clear Hsn.
    assert (satisfied_prefix (IOProgress_flushed (IOState_log_progress io_state)) ql = ([], ql)) as ->.
    { destruct ql as [|[w resp] ql]; [done|]. cbn.
      destruct (IOProgress_flushed (IOState_log_progress io_state)) as [v|]; [|done].
      cbn in Hpop. unfold is_satisfied_by.
      by destruct (pgeb v w). }
    by destruct (satisfied_prefix _ qs) as [rs' q'].
Qed.

(** ** Properties *)

(** Merging the [AppendEntries] commands at the front of the queue changes
    nothing of what the queue does: the same entries are written under the
    same votes, in the same order relative to every other command, in batches
    within the limit unless a single command already exceeded it. *)
Theorem merge_preserves_effects (max_entries : u64) (q : list Command) :
  (N.of_nat (length (effects q)) < u64_modulus)%N →
  effects (merge_front_append_entries max_entries q) = effects q ∧
  length (merge_front_append_entries max_entries q) ≤ length q ∧
  (∀ v es, head (merge_front_append_entries max_entries q) = Some (Command_AppendEntries v es) →
    (N.of_nat (length es) ≤ max_entries)%N ∨ head q = Some (Command_AppendEntries v es)).
Proof.
  intros Hb. destruct q as [|c q]; [done|].
  destruct c as [|vote entries| | | | | | | | | | | | | | | |]; try by (split_and!; [done|cbn; lia|auto]).
  cbn. unfold effects in Hb; cbn in Hb. fold (effects q) in Hb. rewrite length_app, length_fmap in Hb.
  pose proof (merge_loop_effects max_entries vote entries q Hb) as H.
  destruct (merge_loop max_entries vote entries q) as [entries' rest].
  destruct H as (He & Hl & Hm). split_and!; [|cbn; lia|].
  - unfold effects; cbn. by fold (effects rest) (effects q).
  - cbn. intros v es [= <- <-]. destruct Hm as [->|?]; auto.
Qed.

(** With a limit of 0 no two non-empty writes are merged. *)
Lemma merge_limit_zero vote e es vote' e' es' (q : list Command) :
  (N.of_nat (length (e :: es) + length (e' :: es')) < u64_modulus)%N →
  merge_front_append_entries 0
    (Command_AppendEntries vote (e :: es) :: Command_AppendEntries vote' (e' :: es') :: q) =
  Command_AppendEntries vote (e :: es) :: Command_AppendEntries vote' (e' :: es') :: q.
Proof.
  intros Hb. cbn [merge_front_append_entries merge_loop]. rewrite u64_add_small by (cbn in *; lia).
  destruct (leb_spec (N.of_nat (length (e :: es)) + N.of_nat (length (e' :: es')))%N 0%N) as [H|_];
    [rewrite N_ord_le in H; cbn in H; lia|].
  by rewrite andb_false_r.
Qed.

(** Draining sends exactly the responds at the front of each queue whose
    awaited progress is flushed, in queue order, first those waiting for log
    I/O and then those waiting for a snapshot; the others stay queued in
    order, and the iterator ends. *)
Theorem drain_satisfied_exact (p : PendingResponds) (io_state : IOState) :
  let '(sent_io, rest_io) :=
    satisfied_prefix (IOProgress_flushed (IOState_log_progress io_state)) (on_log_io p) in
  let '(sent_sn, rest_sn) :=
    satisfied_prefix (IOProgress_flushed (IOState_snapshot io_state)) (on_snapshot p) in
  drain_satisfied p io_state =
    (mkPendingResponds rest_io rest_sn,
     ((λ r, (DrainPhase_LogIO, r)) <$> sent_io) ++ ((λ r, (DrainPhase_Snapshot, r)) <$> sent_sn)).
Proof.
  pose proof (drain_log_phase (S (length (on_log_io p) + length (on_snapshot p))) p io_state) as H.
  unfold drain_satisfied. rewrite H by lia.
  destruct (satisfied_prefix _ (on_log_io p)), (satisfied_prefix _ (on_snapshot p)). done.
Qed.
End command.

(** ** Witnesses *)

Module CommandWitness.
#[local] Existing Instance adv_config.

Definition lid (t i : u64) : LogId := mkLogId (C := adv_config) (LeaderIdAdv.mk t 1) i.
Definition blank (t i : u64) : Entry := Entry_new_blank (lid t i).
Definition cv (t : u64) : CommittedVote := CommittedVote_new (C := adv_config) (LeaderIdAdv.mk t 1).

Lemma merge_preserves_effects_witness :
  effects (merge_front_append_entries 3
    [Command_AppendEntries (cv 1) [blank 1 1]; Command_AppendEntries (cv 1) [blank 1 2];
     Command_SaveVote (Vote_new 2 3)]) =
  effects [Command_AppendEntries (cv 1) [blank 1 1]; Command_AppendEntries (cv 1) [blank 1 2];
     Command_SaveVote (Vote_new 2 3)].
Proof.
  apply (merge_preserves_effects 3
    [Command_AppendEntries (cv 1) [blank 1 1]; Command_AppendEntries (cv 1) [blank 1 2];
     Command_SaveVote (Vote_new 2 3)]). vm_compute. reflexivity.
Defined.
End CommandWitness.
