(* ===== verification/Engine.v ===== *)
(** * The engine: its record, its monad and the small handlers

    [engine/engine_impl.rs] (the record [Engine]),
    [engine/handler/log_handler], [engine/handler/snapshot_handler] and
    [engine/handler/server_state_handler].

    A handler of the source borrows some fields of the engine; here it is a
    function of the whole [Engine].  Handlers that read the clock, draw a
    random number or may panic run in the monad [M]; the clock and the random
    number generator are the environment [Env]. *)

From S2P Require Import Prelude Vote LogId LogIdList Quorum Membership VecProgress IOState.
From S2P Require Import MembershipState Entry RaftState Config ProgressEntry Proposer Command.

(** [C::now()] and [DeterministicRng::thread_rng().random_range(lo..hi)]: the
    values of the successive calls. *)
Class Env := {
  clock : nat → Instant;
  random_range : nat → u64 → u64 → u64;
}.

Section engine.
Context {C : RaftTypeConfig}.

Record Engine := mkEngine {
  Engine_config : EngineConfig;
  Engine_state : RaftState;
  Engine_seen_greater_log : bool;
  Engine_leader : option Leader;
  Engine_candidate : option Candidate;
  Engine_pre_candidate : option Candidate;
  Engine_output : EngineOutput;
}.

Definition Engine_new (init_state : RaftState) (config : EngineConfig) : Engine :=
  mkEngine config init_state false None None None EngineOutput_new.

(** *** Assignments to one field *)

Definition set_config (e : Engine) (x : EngineConfig) : Engine :=
  mkEngine x (Engine_state e) (Engine_seen_greater_log e) (Engine_leader e) (Engine_candidate e)
    (Engine_pre_candidate e) (Engine_output e).
Definition set_state (e : Engine) (x : RaftState) : Engine :=
  mkEngine (Engine_config e) x (Engine_seen_greater_log e) (Engine_leader e) (Engine_candidate e)
    (Engine_pre_candidate e) (Engine_output e).
Definition set_seen_greater_log (e : Engine) (x : bool) : Engine :=
  mkEngine (Engine_config e) (Engine_state e) x (Engine_leader e) (Engine_candidate e)
    (Engine_pre_candidate e) (Engine_output e).
Definition set_leader (e : Engine) (x : option Leader) : Engine :=
  mkEngine (Engine_config e) (Engine_state e) (Engine_seen_greater_log e) x (Engine_candidate e)
    (Engine_pre_candidate e) (Engine_output e).
Definition set_candidate (e : Engine) (x : option Candidate) : Engine :=
  mkEngine (Engine_config e) (Engine_state e) (Engine_seen_greater_log e) (Engine_leader e) x
    (Engine_pre_candidate e) (Engine_output e).
Definition set_pre_candidate (e : Engine) (x : option Candidate) : Engine :=
  mkEngine (Engine_config e) (Engine_state e) (Engine_seen_greater_log e) (Engine_leader e)
    (Engine_candidate e) x (Engine_output e).
Definition set_output (e : Engine) (x : EngineOutput) : Engine :=
  mkEngine (Engine_config e) (Engine_state e) (Engine_seen_greater_log e) (Engine_leader e)
    (Engine_candidate e) (Engine_pre_candidate e) x.

Definition Engine_id (e : Engine) : u64 := EngineConfig_id (Engine_config e).
Definition commands (e : Engine) : list Command := EngineOutput_commands (Engine_output e).

(** [self.output.push_command(cmd)] and [prepend_command] *)
Definition push (cmd : Command) (e : Engine) : Engine :=
  set_output e (push_command (Engine_output e) cmd).
Definition prepend (cmd : Command) (e : Engine) : Engine :=
  set_output e (prepend_command (Engine_output e) cmd).

(** ** The monad: engine state, environment reads and panics *)

Record World := mkWorld {
  w_engine : Engine;
  w_clock_reads : nat;
  w_random_draws : nat;
}.

Definition M (A : Type) : Type := World → outcome (A * World).

#[global] Instance M_ret : MRet M := λ A a w, Ret (a, w).
#[global] Instance M_bind : MBind M := λ A B f m w, m w ≫= λ '(a, w'), f a w'.

Definition get : M Engine := λ w, Ret (w_engine w, w).
Definition gets {A} (f : Engine → A) : M A := λ w, Ret (f (w_engine w), w).
Definition modify (f : Engine → Engine) : M unit := λ w,
  Ret (tt, mkWorld (f (w_engine w)) (w_clock_reads w) (w_random_draws w)).
Definition lift {A} (o : outcome A) : M A := λ w, a ← o; Ret (a, w).
Definition panic {A} : M A := λ _, Panic.

Section env.
Context `{!Env}.

Definition now : M Instant := λ w,
  Ret (clock (w_clock_reads w), mkWorld (w_engine w) (S (w_clock_reads w)) (w_random_draws w)).
Definition draw (lo hi : u64) : M u64 := λ w,
  Ret (random_range (w_random_draws w) lo hi,
       mkWorld (w_engine w) (w_clock_reads w) (S (w_random_draws w))).
End env.

(** Runs a handler on an engine. *)
Definition run {A} (m : M A) (e : Engine) : outcome (A * Engine) :=
  '(a, w) ← m (mkWorld e 0 0); Ret (a, w_engine w).

(** The leader, which handlers of a leader own. *)
Definition the_leader : M Leader := λ w,
  match Engine_leader (w_engine w) with Some l => Ret (l, w) | None => Panic end.
Definition put_leader (l : Leader) : M unit := modify (λ e, set_leader e (Some l)).

Lemma M_bind_eq {A B} (m : M A) (f : A → M B) w :
  (m ≫= f) w = match m w with Ret (a, w') => f a w' | Panic => Panic end.
Proof. unfold mbind, M_bind, mbind, outcome_bind. destruct (m w) as [[a w']|]; done. Qed.

Lemma M_ret_eq {A} (a : A) w : mret (M := M) a w = Ret (a, w).
Proof. done. Qed.

Lemma get_eq w : get w = Ret (w_engine w, w).
Proof. done. Qed.

Lemma gets_eq {A} (f : Engine → A) w : gets f w = Ret (f (w_engine w), w).
Proof. done. Qed.

Lemma modify_eq f w :
  modify f w = Ret (tt, mkWorld (f (w_engine w)) (w_clock_reads w) (w_random_draws w)).
Proof. done. Qed.

Lemma lift_Ret {A} (a : A) w : lift (Ret a) w = Ret (a, w).
Proof. done. Qed.

Lemma the_leader_eq w l : Engine_leader (w_engine w) = Some l → the_leader w = Ret (l, w).
Proof. intros Hl. unfold the_leader. by rewrite Hl. Qed.

(** ** [ServerStateHandler] *)

Definition update_server_state_if_changed (e : Engine) : Engine :=
  let server_state := calc_server_state (Engine_state e) (Engine_id e) in
  if decide (RaftState_server_state (Engine_state e) = server_state) then e
  else set_state e (set_server_state (Engine_state e) server_state).

(** ** [SnapshotHandler] *)

Definition trigger_snapshot (e : Engine) : Engine * bool :=
  let io := RaftState_io_state (Engine_state e) in
  if IOState_building_snapshot io then (e, false)
  else
    let e := set_state e (set_io_state (Engine_state e) (IOState_set_building_snapshot io true)) in
    (push (Command_StateMachine SmCommand_BuildSnapshot) e, true).

Definition update_snapshot (e : Engine) (meta : SnapshotMeta) : Engine * bool :=
  if (SnapshotMeta_last_log_id meta <=? snapshot_last_log_id (Engine_state e)) then (e, false)
  else (set_state e (set_snapshot_meta (Engine_state e) meta), true).

(** ** [LogHandler] *)

(** [purge_log]: [purge_upto] is present when it is above the purged log. *)
Definition LogHandler_purge_log (e : Engine) : Engine :=
  let st := Engine_state e in
  if (purge_upto st <=? last_purged_log_id st) then e
  else
    match purge_upto st with
    | Some upto => push (Command_PurgeLog upto) (set_state e (RaftState_purge_log st upto))
    | None => e
    end.

Definition update_purge_upto (e : Engine) (upto : LogId) : Engine :=
  set_state e (set_purge_upto (Engine_state e) (Some upto)).

Definition calc_purge_upto (e : Engine) : option LogId :=
  let st := Engine_state e in
  let max_keep := EngineConfig_max_in_snapshot_log_to_keep (Engine_config e) in
  let batch_size := EngineConfig_purge_batch_size (Engine_config e) in
  let purge_end := u64_saturating_sub (next_index (snapshot_last_log_id st)) max_keep in
  if (u64_add (next_index (last_purged_log_id st)) batch_size >? purge_end) then None
  else ref_log_id st (u64_sub purge_end 1).

Definition schedule_policy_based_purge (e : Engine) : Engine :=
  match calc_purge_upto e with
  | Some upto => update_purge_upto e upto
  | None => e
  end.

(** ** Lemmas *)

Context `{!RaftLeaderIdLaws C}.

Lemma update_server_state_eq e :
  update_server_state_if_changed e =
    set_state e (set_server_state (Engine_state e) (calc_server_state (Engine_state e) (Engine_id e))).
Proof.
  unfold update_server_state_if_changed. case_decide as Hs; [|done]. rewrite <- Hs.
  by destruct e as [? [] ? ? ? ? ?].
Qed.

(** The policy-based purge stays within what may be deleted: the log id it
    chooses is the local log at its index, is covered by the snapshot, leaves
    at least [max_in_snapshot_log_to_keep] entries of the snapshot, is above
    the purged logs by a full batch, and is a greater log id than theirs. *)
Theorem calc_purge_upto_safe (e : Engine) (upto : LogId) :
  let st := Engine_state e in
  LogIdList_wf (RaftState_log_ids st) →
  (0 < EngineConfig_purge_batch_size (Engine_config e))%N →
  (next_index (last_purged_log_id st) + EngineConfig_purge_batch_size (Engine_config e)
    < u64_modulus)%N →
  in_u64 (next_index (snapshot_last_log_id st)) →
  calc_purge_upto e = Some upto →
  get_log_id st (LogId_index upto) = Some upto ∧
  (LogId_index upto + 1 + EngineConfig_max_in_snapshot_log_to_keep (Engine_config e)
    ≤ next_index (snapshot_last_log_id st))%N ∧
  (next_index (last_purged_log_id st) + EngineConfig_purge_batch_size (Engine_config e)
    ≤ LogId_index upto + 1)%N ∧
  (∀ p, last_purged_log_id st = Some p → p ≺ upto).
Proof.
  intros st Hl Hb Hov Hsn. unfold calc_purge_upto. fold st. rewrite u64_add_small by done.
  unfold u64_saturating_sub.
  set (keep := EngineConfig_max_in_snapshot_log_to_keep (Engine_config e)) in *.
  set (pend := (next_index (snapshot_last_log_id st) - keep)%N).
  destruct (ltb_spec pend (next_index (last_purged_log_id st) +
    EngineConfig_purge_batch_size (Engine_config e))%N) as [|Hge]; [done|].
  rewrite N_ord_le in Hge. unfold in_u64 in Hsn.
  rewrite u64_sub_small by (unfold in_u64; lia). intros Hg.
  pose proof (LogIdList_get_index _ _ _ Hl Hg) as Hi.
  split_and!; [by rewrite Hi|lia|lia|].
  intros p Hp. unfold last_purged_log_id in Hp.
  pose proof (first_index_purged _ Hl) as Hf. rewrite Hp in Hf.
  pose proof (LogIdList_get_purged _ _ Hl Hp) as Hgp.
  eapply (LogIdList_get_lt (RaftState_log_ids st)); [done|exact Hgp|exact Hg|].
  unfold LogIdList_first_index in Hf. unfold last_purged_log_id in Hge. rewrite Hp in *. lia.
Qed.
End engine.

(** Runs the first operation of a handler. *)
Ltac m_step :=
  rewrite M_bind_eq || idtac;
  rewrite ?get_eq, ?gets_eq, ?modify_eq, ?lift_Ret, ?M_ret_eq;
  cbn [w_engine].
Ltac m_steps := repeat (progress m_step).

Arguments now {C _}.
Arguments draw {C _}.

(** ** Witnesses *)

Module EngineWitness.
#[local] Existing Instance adv_config.
Import LogIdListWitness RaftStateWitness ProgressEntryWitness.

(** A follower that keeps no log of its snapshot. *)
Definition keep_none : EngineConfig :=
  mkEngineConfig 3 0 1 300 false 150 300 (EngineConfig_timer_config engine_config) false.

Lemma calc_purge_upto_safe_witness :
  get_log_id follower 3 = Some (lid 1 1 3) ∧
  calc_purge_upto (Engine_new follower keep_none) = Some (lid 1 1 3).
Proof.
  assert (calc_purge_upto (Engine_new follower keep_none) = Some (lid 1 1 3)) as H
    by (vm_compute; reflexivity).
  split; [|exact H].
  destruct (calc_purge_upto_safe (Engine_new follower keep_none) (lid 1 1 3)) as (Hg & _).
  - apply sample_wf.
  - vm_compute. reflexivity.
  - vm_compute. reflexivity.
  - vm_compute. reflexivity.
  - exact H.
  - exact Hg.
Defined.
End EngineWitness.
