(* ===== verification/Replication.v ===== *)
(** * The replication handler of a leader

    [engine/handler/replication_handler/mod.rs]: replication progress of the
    targets, what is sent to them, the commit of logs a quorum has, and
    purging. *)

From S2P Require Import Prelude Vote LogId LogIdList Quorum Membership VecProgress IOState.
From S2P Require Import MembershipState Entry RaftState Config ProgressEntry Proposer Command.
From S2P Require Import Engine.

Section replication.
Context {C : RaftTypeConfig}.

(** [rebuild_progresses] *)
Definition rebuild_progresses : M unit :=
  e ← get;
  l ← the_leader;
  let st := Engine_state e in
  let em := StoredMembership_membership (MembershipState_effective (RaftState_membership_state st)) in
  let learner_ids := Membership_learner_ids em in
  let ids := qs_ids em ++ learner_ids in
  let end' := next_index (last_log_id st) in
  let id_gen := RaftState_progress_id_gen st in
  let l := Leader_set_progress l
             (upgrade_quorum_set (Leader_progress l) em learner_ids
                (new_progress_entry ids id_gen end')) in
  let l := Leader_set_clock_progress l
             (upgrade_quorum_set (Leader_clock_progress l) em learner_ids IdVal_new_default) in
  modify (λ e, set_state (set_leader e (Some l))
                 (set_progress_id_gen (Engine_state e) (advance_id_gen id_gen ids))).

(** [try_update_leader_clock] *)
Definition try_update_leader_clock (sid : u64) (target : u64) (sending_time : Instant) : M unit :=
  l ← the_leader;
  if negb (is_replication_stream_valid l target sid) then mret tt
  else
    r ← lift (update_clock l target sending_time);
    put_leader r.1.

(** [try_commit_quorum_accepted] *)
Definition try_commit_quorum_accepted (granted : option LogId) : M unit :=
  st ← gets Engine_state;
  if (match granted with
      | Some c => negb (Vote_is_same_leader (vote_ref st) (LogId_leader_id c))
      | None => false
      end)
  then mret tt
  else
    let prev_cluster_committed := cluster_committed st in
    let committed := mkLogIOId (Vote_to_committed (vote_ref st)) granted in
    r ← lift (MonotonicIncrease_try_update
                (IOState_cluster_committed (RaftState_io_state st)) committed);
    let st := match r with
              | Ok v => set_io_state st (set_cluster_committed (RaftState_io_state st) v)
              | Err _ => st
              end in
    let st := update_local_committed st granted in
    modify (λ e,
      let e := set_state e st in
      if (cluster_committed st >? prev_cluster_committed)
      then push (Command_ReplicateCommitted (cluster_committed st)) e
      else e).

(** [update_matching] *)
Definition ReplicationHandler_update_matching (node_id : u64) (log_id : option LogId)
    (inflight_id : option u64) : M unit :=
  l ← the_leader;
  match update_entry_with (Leader_progress l) node_id
          (λ entry, update_matching entry log_id inflight_id) with
  | Err p => put_leader (Leader_set_progress l p)
  | Ok p =>
      put_leader (Leader_set_progress l p);;
      try_commit_quorum_accepted (VecProgress_quorum_accepted p)
  end.

(** [update_conflicting]: the closure runs on the entry of the target, if
    there is one. *)
Definition ReplicationHandler_update_conflicting (target : u64) (conflict : LogId)
    (inflight_id : option u64) : M unit :=
  e ← get;
  l ← the_leader;
  match try_get (Leader_progress l) target with
  | None => mret tt
  | Some entry =>
      entry' ← lift (update_conflicting (Engine_config e) entry (LogId_index conflict) inflight_id);
      match reset_entry_with (Leader_progress l) target (λ _, entry') with
      | Some (p, _) => put_leader (Leader_set_progress l p)
      | None => mret tt
      end
  end.

(** [allow_next_revert]: [Err] with [NodeNotFound] of the target. *)
Definition allow_next_revert (target : u64) (allow : bool) : M (result unit u64) :=
  l ← the_leader;
  match update_data_with (Leader_progress l) target (λ e, set_allow_log_reversion e allow) with
  | Some p => put_leader (Leader_set_progress l p);; mret (Ok tt)
  | None => mret (Err target)
  end.

(** [try_purge_log] *)
Definition ReplicationHandler_try_purge_log : M unit :=
  e ← get;
  l ← the_leader;
  let st := Engine_state e in
  if (purge_upto st <=? last_purged_log_id st) then mret tt
  else
    match purge_upto st with
    | None => mret tt
    | Some upto =>
        let in_use := existsb (λ item, is_log_range_inflight item upto)
                        (VecProgress_entries (Leader_progress l)) in
        if in_use then mret tt else modify LogHandler_purge_log
    end.

(** [ReplicationResult]: the matching log id, or the conflicting one. *)
Definition ReplicationResult : Type := result (option LogId) LogId.

(** [update_progress]; [None] is the error string of a failed RPC. *)
Definition update_progress (target sid : u64) (repl_res : option ReplicationResult)
    (inflight_id : option u64) : M unit :=
  l ← the_leader;
  if negb (is_replication_stream_valid l target sid) then mret tt
  else
    match repl_res with
    | Some (Ok matching) => ReplicationHandler_update_matching target matching inflight_id
    | Some (Err conflict) => ReplicationHandler_update_conflicting target conflict inflight_id
    | None =>
        match update_data_with (Leader_progress l) target (λ e, set_inflight e Inflight_None) with
        | Some p => put_leader (Leader_set_progress l p)
        | None => mret tt
        end
    end;;
    ReplicationHandler_try_purge_log.

(** The loop of [rebuild_replication_streams]. *)
Fixpoint rebuild_targets (id : u64) (m : StoredMembership) (close_old : bool)
    (items : list ProgressEntry) : outcome (list ProgressEntry * list TargetProgress) :=
  match items with
  | [] => Ret ([], [])
  | item :: items =>
      if decide (ProgressEntry_id item ≠ id) then
        let item := if close_old then set_inflight item Inflight_None else item in
        target_node ← unwrap (StoredMembership_get_node m (ProgressEntry_id item));
        '(items, targets) ← rebuild_targets id m close_old items;
        Ret (item :: items, mkTargetProgress (ProgressEntry_id item) target_node item :: targets)
      else
        '(items, targets) ← rebuild_targets id m close_old items;
        Ret (item :: items, targets)
  end.

Definition rebuild_replication_streams (close_old : bool) : M unit :=
  e ← get;
  l ← the_leader;
  r ← lift (rebuild_targets (Engine_id e)
              (MembershipState_effective (RaftState_membership_state (Engine_state e)))
              close_old (VecProgress_entries (Leader_progress l)));
  let '(items, targets) := r in
  put_leader (Leader_set_progress l (set_entries (Leader_progress l) items));;
  modify (push (Command_RebuildReplicationStreams (Leader_committed_vote l) targets close_old)).

(** [send_to_target]: the command that is pushed. *)
Definition send_to_target (leader_vote : CommittedVote) (target : u64) (i : Inflight) :
    outcome Command :=
  match i with
  | Inflight_None => Panic
  | Inflight_Logs r id => Ret (Command_Replicate target (Replicate_new_logs r id))
  | Inflight_Snapshot id => Ret (Command_ReplicateSnapshot leader_vote target id)
  | Inflight_LogsSince prev id => Ret (Command_Replicate target (Replicate_new_logs_since prev id))
  end.

(** The loop of [initiate_replication]: the items, the node state and the
    commands pushed. *)
Fixpoint initiate_loop (id max_entries : u64) (leader_vote : CommittedVote)
    (items : list ProgressEntry) (st : RaftState) :
    outcome (list ProgressEntry * RaftState * list Command) :=
  match items with
  | [] => Ret ([], st, [])
  | item :: items =>
      if decide (ProgressEntry_id item = id) then
        '(items, st, cmds) ← initiate_loop id max_entries leader_vote items st;
        Ret (item :: items, st, cmds)
      else
        let '(item, st, t) := next_send item st max_entries in
        match t with
        | Ok i =>
            cmd ← send_to_target leader_vote (ProgressEntry_id item) i;
            '(items, st, cmds) ← initiate_loop id max_entries leader_vote items st;
            Ret (item :: items, st, cmd :: cmds)
        | Err _ =>
            '(items, st, cmds) ← initiate_loop id max_entries leader_vote items st;
            Ret (item :: items, st, cmds)
        end
  end.

Definition initiate_replication : M unit :=
  e ← get;
  l ← the_leader;
  r ← lift (initiate_loop (Engine_id e) (EngineConfig_max_payload_entries (Engine_config e))
              (Leader_committed_vote l) (VecProgress_entries (Leader_progress l)) (Engine_state e));
  let '(items, st, cmds) := r in
  put_leader (Leader_set_progress l (set_entries (Leader_progress l) items));;
  modify (λ e, foldl (λ e cmd, push cmd e) (set_state e st) cmds).

(** [append_membership] *)
Definition ReplicationHandler_append_membership (log_id : LogId) (m : Membership) : M unit :=
  modify (λ e, set_state e (set_membership_state (Engine_state e)
    (MembershipState_append (RaftState_membership_state (Engine_state e))
       (mkStoredMembership (Some log_id) m))));;
  rebuild_progresses;;
  rebuild_replication_streams false;;
  initiate_replication.

(** [update_local_progress] *)
Definition update_local_progress (upto : option LogId) : M unit :=
  match upto with
  | None => mret tt
  | Some _ =>
      id ← gets Engine_id;
      l ← the_leader;
      if (match try_get (Leader_progress l) id with
          | Some entry => ProgressEntry_matching entry >=? upto
          | None => false
          end)
      then mret tt
      else
        match update_data_with (Leader_progress l) id
                (λ e, set_inflight e (Inflight_logs None upto 0)) with
        | Some p =>
            put_leader (Leader_set_progress l p);;
            ReplicationHandler_update_matching id upto (Some 0%N)
        | None => mret tt
        end
  end.

(** ** Lemmas *)

Context `{!RaftLeaderIdLaws C}.
Implicit Types (e : Engine) (st : RaftState).

(** The commit: the state after it and the command pushed. *)
Lemma try_commit_spec granted w :
  let st := Engine_state (w_engine w) in
  (∀ c, IOState_cluster_committed (RaftState_io_state st) = Some c →
    votes_comparable (Vote_to_committed (vote_ref st)) (LogIOId_committed_vote c)) →
  ∃ w', try_commit_quorum_accepted granted w = Ret (tt, w') ∧
    Engine_leader (w_engine w') = Engine_leader (w_engine w) ∧
    (let st' := Engine_state (w_engine w') in
     local_committed st' =
       (if match granted with
           | Some c => Vote_is_same_leader (vote_ref st) (LogId_leader_id c)
           | None => true
           end
        then omax (local_committed st) granted else local_committed st) ∧
     vote_ref st' = vote_ref st ∧ RaftState_log_ids st' = RaftState_log_ids st).
Proof.
  intros st Hcmp. unfold try_commit_quorum_accepted. m_steps. fold st.
  destruct (match granted with
    | Some c => negb (Vote_is_same_leader (vote_ref st) (LogId_leader_id c))
    | None => false end) eqn:Hsame.
  { exists w. split_and!; try done. destruct granted as [c|]; [|done].
    by destruct (Vote_is_same_leader (vote_ref st) (LogId_leader_id c)). }
  destruct (try_update_total (IOState_cluster_committed (RaftState_io_state st))
    (mkLogIOId (Vote_to_committed (vote_ref st)) granted) Hcmp) as (r & Hr & Hcase).
  m_steps. rewrite Hr. m_steps.
  set (st1 := match r with Ok v => _ | Err _ => st end).
  assert (local_committed st1 = local_committed st ∧ vote_ref st1 = vote_ref st ∧
    RaftState_log_ids st1 = RaftState_log_ids st) as (Hl & Hv & Hids)
    by (destruct Hcase as [-> | ->]; done).
  destruct (update_local_committed_spec st1 granted) as (Hl' & _).
  assert (vote_ref (update_local_committed st1 granted) = vote_ref st1 ∧
    RaftState_log_ids (update_local_committed st1 granted) = RaftState_log_ids st1) as [Hv' Hids'].
  { unfold update_local_committed. destruct granted; [|done]. by destruct (_ <? _). }
  eexists. split; [done|]. cbn [w_engine].
  rewrite Hl in Hl'. destruct (_ <? _); cbn; split_and!; try congruence.
  - rewrite Hl'. destruct granted as [c|]; [|done].
    by destruct (Vote_is_same_leader (vote_ref st) (LogId_leader_id c)).
  - rewrite Hl'. destruct granted as [c|]; [|done].
    by destruct (Vote_is_same_leader (vote_ref st) (LogId_leader_id c)).
Qed.

Lemma update_matching_id entry log_id inflight_id :
  entry_id (update_matching entry log_id inflight_id) = entry_id entry.
Proof.
  unfold update_matching. destruct inflight_id as [i|]; [destruct (Inflight_ack _ _ _) as [j []]|];
    cbn; try done. by destruct (_ <=? _).
Qed.

(** The state after a commit on behalf of a leader: only a log of its own
    term, and only one that a quorum of its voters stores, is committed. *)
Definition commit_backed st st' (l' : Leader) : Prop :=
  local_committed st ≼ local_committed st' ∧
  (local_committed st' ≠ local_committed st →
    ∃ c, local_committed st' = Some c ∧ Vote_is_same_leader (vote_ref st) (LogId_leader_id c) = true ∧
      is_quorum (VecProgress_quorum_set (Leader_progress l'))
        (granters (Leader_progress l') (Some c)) = true).

Lemma commit_backed_quorum st st' l' :
  accepted_by_quorum (Leader_progress l') →
  (let granted := VecProgress_quorum_accepted (Leader_progress l') in
   local_committed st' =
     if match granted with
        | Some c => Vote_is_same_leader (vote_ref st) (LogId_leader_id c)
        | None => true
        end
     then omax (local_committed st) granted else local_committed st) →
  commit_backed st st' l'.
Proof.
  intros Hacc. cbn zeta.
  destruct (VecProgress_quorum_accepted (Leader_progress l')) as [c|] eqn:Hqa.
  - destruct (Vote_is_same_leader (vote_ref st) (LogId_leader_id c)) eqn:Hs.
    + intros Hl. split; [rewrite Hl; apply omax_l|]. intros Hne.
      destruct (omax_cases (local_committed st) (Some c)) as [Ho|Ho]; rewrite Ho in Hl; [done|].
      exists c. split_and!; [done|done|]. destruct Hacc as [Hc|Hc]; rewrite Hqa in Hc; done.
    + intros Heq. split; [rewrite Heq; apply ord_le_refl|done].
  - intros Hl. assert (local_committed st' = local_committed st) as Heq.
    { rewrite Hl. unfold omax. destruct (leb_spec (local_committed st) None) as [Hle|]; [|done].
      destruct (local_committed st); [by apply Some_le_None in Hle|done]. }
    split; [rewrite Heq; apply ord_le_refl|done].
Qed.

Lemma update_matching_commit w l node log_id inflight_id old :
  let st := Engine_state (w_engine w) in
  Engine_leader (w_engine w) = Some l →
  VecProgress_wf (Leader_progress l) → accepted_by_quorum (Leader_progress l) →
  try_get (Leader_progress l) node = Some old →
  ProgressEntry_matching old ≼ ProgressEntry_matching (update_matching old log_id inflight_id) →
  (∀ c, IOState_cluster_committed (RaftState_io_state st) = Some c →
    votes_comparable (Vote_to_committed (vote_ref st)) (LogIOId_committed_vote c)) →
  ∃ w' l', ReplicationHandler_update_matching node log_id inflight_id w = Ret (tt, w') ∧
    Engine_leader (w_engine w') = Some l' ∧
    VecProgress_wf (Leader_progress l') ∧ accepted_by_quorum (Leader_progress l') ∧
    VecProgress_quorum_set (Leader_progress l') = VecProgress_quorum_set (Leader_progress l) ∧
    commit_backed st (Engine_state (w_engine w')) l'.
Proof.
  intros st Hl Hwf Hacc Hold Hle Hcmp. unfold ReplicationHandler_update_matching.
  rewrite M_bind_eq, (the_leader_eq _ _ Hl).
  destruct (try_get_elem _ _ _ Hold) as [_ Hid].
  rewrite (update_entry_with_at _ _ _ old Hold) by (by rewrite update_matching_id).
  destruct (replace_quorum_accepted (Leader_progress l) (update_matching old log_id inflight_id) old)
    as (p' & -> & Hwf' & Hacc' & Hqs & _); [done|done|by rewrite update_matching_id, Hid|done|].
  unfold put_leader. m_steps.
  match goal with |- context [try_commit_quorum_accepted _ ?w1] =>
    destruct (try_commit_spec (VecProgress_quorum_accepted p') w1) as (w' & Hw' & Hl' & Hcom & _) end;
    [exact Hcmp|].
  exists w', (Leader_set_progress l p'). rewrite Hw', Hl'. split_and!; try done.
  by apply commit_backed_quorum.
Qed.

(** ** Properties *)

(** C9: a leader commits only what Raft allows: when an ack in order arrives
    from a tracked node, the handler does not panic, the committed log never
    moves back, and it moves only to a log that the leader itself proposed in
    its term and that a quorum of its voters has acknowledged. *)
Theorem leader_commit_safe w l node log_id inflight_id old :
  let st := Engine_state (w_engine w) in
  Engine_leader (w_engine w) = Some l → Leader_inv l →
  try_get (Leader_progress l) node = Some old →
  ProgressEntry_matching old ≼ ProgressEntry_matching (update_matching old log_id inflight_id) →
  (∀ c, IOState_cluster_committed (RaftState_io_state st) = Some c →
    votes_comparable (Vote_to_committed (vote_ref st)) (LogIOId_committed_vote c)) →
  ∃ w' l', ReplicationHandler_update_matching node log_id inflight_id w = Ret (tt, w') ∧
    Engine_leader (w_engine w') = Some l' ∧
    commit_backed st (Engine_state (w_engine w')) l'.
Proof.
  intros st Hl [Hwf Hacc _ _ _ _] Hold Hle Hcmp.
  destruct (update_matching_commit w l node log_id inflight_id old) as (w' & l' & ? & ? & _ & _ & _ & ?);
    eauto.
Qed.

(** A leader purges no log that a replication stream may still read: when
    [try_purge_log] purges, the purge point is at or below the start of every
    range in flight. *)
Theorem leader_purge_not_in_use w w' l :
  Engine_leader (w_engine w) = Some l →
  ReplicationHandler_try_purge_log w = Ret (tt, w') →
  RaftState_log_ids (Engine_state (w_engine w')) ≠ RaftState_log_ids (Engine_state (w_engine w)) →
  ∃ upto, purge_upto (Engine_state (w_engine w)) = Some upto ∧
    commands (w_engine w') = commands (w_engine w) ++ [Command_PurgeLog upto] ∧
    ∀ item, item ∈ VecProgress_entries (Leader_progress l) →
      match inflight item with
      | Inflight_Logs r _ => Some upto ≼ LogIdRange_prev r
      | Inflight_LogsSince prev _ => Some upto ≼ prev
      | _ => True
      end.
Proof.
  intros Hl. unfold ReplicationHandler_try_purge_log. rewrite M_bind_eq, get_eq, M_bind_eq.
  rewrite (the_leader_eq _ _ Hl).
  destruct (purge_upto _ <=? _) eqn:Hp; [by intros [= <-]|].
  destruct (purge_upto (Engine_state (w_engine w))) as [upto|] eqn:Hu; [|by intros [= <-]].
  destruct (existsb _ _) eqn:Hex; [by intros [= <-]|].
  rewrite modify_eq. intros [= <-] _. exists upto. cbn [w_engine]. split_and!; [done| |].
  - unfold LogHandler_purge_log. by rewrite Hu, Hp.
  - intros item Hitem. assert (is_log_range_inflight item upto = false) as Hin.
    { destruct (is_log_range_inflight item upto) eqn:E; [|done].
      assert (existsb (λ item, is_log_range_inflight item upto)
        (VecProgress_entries (Leader_progress l)) = true) as Ht; [|congruence].
      apply existsb_exists. exists item. split; [by apply list_elem_of_In|done]. }
    unfold is_log_range_inflight in Hin. destruct (inflight item); try done; by apply ltb_false in Hin.
Qed.

Lemma sendable_set_inflight item st id max_entries :
  sendable item st max_entries → sendable item (set_last_inflight_id st id) max_entries.
Proof. intros [????? ?]. by split. Qed.

(** A target that is served: the leader itself and targets with a request in
    flight are left alone, every other one gets a valid request. *)
Definition served (id : u64) (item item' : ProgressEntry) : Prop :=
  if decide (ProgressEntry_id item = id) then item' = item
  else if Inflight_is_none (inflight item) then
    ∃ i, i ≠ Inflight_None ∧ item' = set_inflight item i ∧ ProgressEntry_validate item' = true
  else item' = item.

(** A request that is sent to a replication stream. *)
Definition is_replicate (c : Command) : bool :=
  match c with
  | Command_Replicate _ _ | Command_ReplicateSnapshot _ _ _ => true
  | _ => false
  end.

Lemma initiate_loop_serves id max_entries leader_vote items st :
  (∀ item, item ∈ items → ProgressEntry_id item ≠ id →
    inflight item ≠ Inflight_None ∨ sendable item st max_entries) →
  ∃ items' st' cmds, initiate_loop id max_entries leader_vote items st = Ret (items', st', cmds) ∧
    Forall2 (served id) items items' ∧
    length cmds = length (filter (λ item, ProgressEntry_id item ≠ id ∧
      Inflight_is_none (inflight item) = true) items) ∧
    Forall (λ c, is_replicate c = true) cmds ∧ ∃ n, st' = set_last_inflight_id st n.
Proof.
  revert st. induction items as [|item items IH]; intros st Hs; cbn [initiate_loop].
  { eexists _, _, _. split_and!; [done|constructor|done|done|].
    exists (RaftState_last_inflight_id st). by destruct st. }
  assert (∀ st', st' = st ∨ (∃ i, st' = set_last_inflight_id st i) →
    ∀ x, x ∈ items → ProgressEntry_id x ≠ id → inflight x ≠ Inflight_None ∨ sendable x st' max_entries)
    as Hrest.
  { intros st' Hst x Hx Hid. destruct (Hs x) as [?|Hx']; [by right|done|by left|right].
    destruct Hst as [->|[i ->]]; [done|by apply sendable_set_inflight]. }
  case_decide as Hid.
  - destruct (IH st (Hrest st (or_introl eq_refl))) as (items' & st' & cmds & -> & Hf & Hc & Hr & Hn).
    eexists _, _, _. split_and!; [done|constructor; [|done]|by rewrite filter_cons_False by tauto|done|done].
    unfold served. by rewrite decide_True.
  - destruct (Inflight_is_none (inflight item)) eqn:Hn.
    + destruct (Hs item) as [Hc|Hsend]; [by left|done|by destruct (inflight item)|].
      pose proof (next_send_ok item st max_entries Hsend) as Hp.
      destruct (next_send item st max_entries) as [[item1 st1] t].
      destruct Hp as (-> & i & -> & -> & Hv & Hi).
      destruct (IH (set_last_inflight_id st (u64_add (RaftState_last_inflight_id st) 1)))
        as (items' & st' & cmds & Heq & Hf & Hc & Hr & n & Hn'); [apply Hrest; eauto|].
      assert (∃ cmd, send_to_target leader_vote (ProgressEntry_id item) i = Ret cmd ∧
        i ≠ Inflight_None ∧ is_replicate cmd = true) as (cmd & Hcmd & Hne & Hrep)
        by (destruct i; [done|eauto..]).
      change (ProgressEntry_id (set_inflight item i)) with (ProgressEntry_id item).
      rewrite Hcmd. cbn [mbind outcome_bind]. rewrite Heq. cbn [mbind outcome_bind].
      eexists _, _, _. split_and!; [done|constructor; [|done]| |by constructor|exists n; by subst].
      * unfold served. rewrite decide_False, Hn by done. eauto.
      * rewrite filter_cons_True by done. cbn. by rewrite Hc.
    + assert (next_send item st max_entries = (item, st, Err (inflight item))) as ->
        by (unfold next_send; by rewrite Hn).
      destruct (IH st (Hrest st (or_introl eq_refl))) as (items' & st' & cmds & -> & Hf & Hc & Hr & Hn').
      eexists _, _, _. split_and!; [done|constructor; [|done]|
        rewrite filter_cons_False; [done|intros [_ Ht]; congruence]|done|done].
      unfold served. by rewrite decide_False, Hn.
Qed.

Lemma push_all e cmds :
  foldl (λ e cmd, push cmd e) e cmds =
    set_output e (mkEngineOutput (EngineOutput_commands (Engine_output e) ++ cmds)
      (EngineOutput_pending_responds (Engine_output e))).
Proof.
  revert e. induction cmds as [|c cmds IH]; intros e; cbn.
  - rewrite app_nil_r. by destruct e as [? ? ? ? ? ? []].
  - rewrite IH. cbn. by rewrite <- (assoc_L (++)).
Qed.

Lemma initiate_replication_ok w l :
  let e := w_engine w in
  let max_entries := EngineConfig_max_payload_entries (Engine_config e) in
  Engine_leader e = Some l →
  (∀ item, item ∈ VecProgress_entries (Leader_progress l) → ProgressEntry_id item ≠ Engine_id e →
    inflight item ≠ Inflight_None ∨ sendable item (Engine_state e) max_entries) →
  ∃ w' l' cmds, initiate_replication w = Ret (tt, w') ∧
    Engine_leader (w_engine w') = Some l' ∧
    l' = Leader_set_progress l
           (set_entries (Leader_progress l) (VecProgress_entries (Leader_progress l'))) ∧
    Forall2 (served (Engine_id e)) (VecProgress_entries (Leader_progress l))
      (VecProgress_entries (Leader_progress l')) ∧
    commands (w_engine w') = commands e ++ cmds ∧ Forall (λ c, is_replicate c = true) cmds ∧
    length cmds = length (filter (λ item, ProgressEntry_id item ≠ Engine_id e ∧
      Inflight_is_none (inflight item) = true) (VecProgress_entries (Leader_progress l))) ∧
    ∃ n, Engine_state (w_engine w') = set_last_inflight_id (Engine_state e) n.
Proof.
  intros e max_entries Hl Hs. unfold initiate_replication.
  rewrite M_bind_eq, get_eq, M_bind_eq, (the_leader_eq _ _ Hl), M_bind_eq. fold e.
  destruct (initiate_loop_serves (Engine_id e) max_entries (Leader_committed_vote l)
    (VecProgress_entries (Leader_progress l)) (Engine_state e) Hs)
    as (items' & st' & cmds & Heq & Hf & Hc & Hr & n & Hn).
  unfold max_entries in Heq. rewrite Heq. unfold put_leader. m_steps. rewrite push_all.
  eexists _, _, cmds. split_and!; try done. by exists n.
Qed.

(** Starting replication never panics when the log and the targets are
    consistent: the leader itself and busy targets are left alone, every other
    target gets a valid request in flight, and exactly one request is sent for
    each of them. *)
Theorem initiate_replication_serves_all w l :
  let e := w_engine w in
  let max_entries := EngineConfig_max_payload_entries (Engine_config e) in
  Engine_leader e = Some l →
  (∀ item, item ∈ VecProgress_entries (Leader_progress l) → ProgressEntry_id item ≠ Engine_id e →
    inflight item ≠ Inflight_None ∨ sendable item (Engine_state e) max_entries) →
  ∃ w' l' cmds, initiate_replication w = Ret (tt, w') ∧
    Engine_leader (w_engine w') = Some l' ∧
    Forall2 (served (Engine_id e)) (VecProgress_entries (Leader_progress l))
      (VecProgress_entries (Leader_progress l')) ∧
    commands (w_engine w') = commands e ++ cmds ∧ Forall (λ c, is_replicate c = true) cmds ∧
    length cmds = length (filter (λ item, ProgressEntry_id item ≠ Engine_id e ∧
      Inflight_is_none (inflight item) = true) (VecProgress_entries (Leader_progress l))).
Proof.
  intros e max_entries Hl Hs.
  destruct (initiate_replication_ok w l Hl Hs) as (w' & l' & cmds & ? & ? & _ & ? & ? & ? & ? & _).
  by exists w', l', cmds.
Qed.
End replication.

(** ** Witnesses *)

Module ReplicationWitness.
#[local] Existing Instance adv_config.
Import LogIdListWitness RaftStateWitness ProgressEntryWitness ProposerWitness.

(** Node 1, leader of term 5, which may purge the entry at index 3. *)
Definition leading : Engine :=
  set_leader (Engine_new
    (set_purge_upto (set_vote follower (Leased_new 1000 300 (mkVote (C := adv_config) (LeaderIdAdv.mk 5 1) true)))
       (Some (lid 1 1 3)))
    (EngineConfig_new 1 Config_default 200)) (Some leader51.1).
Definition world : World := mkWorld leading 0 0.

Lemma leader_commit_safe_witness :
  ∃ w' l', ReplicationHandler_update_matching 2 (Some (lid 5 1 8)) None world = Ret (tt, w') ∧
    commit_backed (Engine_state leading) (Engine_state (w_engine w')) l'.
Proof.
  destruct (leader_commit_safe world leader51.1 2 (Some (lid 5 1 8)) None
    (ProgressEntry_empty 2 10 8)) as (w' & l' & H & _ & Hc).
  - done.
  - apply leader51_inv.
  - vm_compute. reflexivity.
  - vm_compute. done.
  - intros c Hc. vm_compute in Hc. discriminate Hc.
  - exists w', l'. by split.
Defined.

Definition purged_world : World :=
  match ReplicationHandler_try_purge_log world with Ret (_, w) => w | Panic => world end.

Lemma leader_purge_not_in_use_witness :
  ∃ upto, purge_upto (Engine_state leading) = Some upto ∧
    commands (w_engine purged_world) = [Command_PurgeLog upto].
Proof.
  destruct (leader_purge_not_in_use world purged_world leader51.1) as (upto & H1 & H2 & _).
  - done.
  - vm_compute. reflexivity.
  - intros Heq. apply (f_equal LogIdList_purged) in Heq. vm_compute in Heq. discriminate Heq.
  - by exists upto.
Defined.

(** A leader with the node itself and one idle target. *)
Definition two_nodes : World :=
  mkWorld (set_leader (Engine_new follower (EngineConfig_new 1 Config_default 200))
    (Some (Leader_set_progress leader51.1
       (set_entries (Leader_progress leader51.1) [ProgressEntry_empty 1 0 8; target])))) 0 0.

Lemma initiate_replication_serves_all_witness :
  ∃ w' cmds, initiate_replication two_nodes = Ret (tt, w') ∧ commands (w_engine w') = cmds ∧
    length cmds = 1.
Proof.
  destruct (initiate_replication_serves_all two_nodes (Leader_set_progress leader51.1
       (set_entries (Leader_progress leader51.1) [ProgressEntry_empty 1 0 8; target])))
    as (w' & l' & cmds & H & _ & _ & Hcmd & _ & Hc).
  - done.
  - intros item [-> | [-> | []%elem_of_nil]%elem_of_cons]%elem_of_cons Hid; [done|right].
    destruct target_sendable. split; try done.
  - exists w', cmds. split; [exact H|]. split; [exact Hcmd|exact Hc].
Defined.
End ReplicationWitness.
