(* ===== verification/Following.v ===== *)
(** * The following handler

    [engine/handler/following_handler/mod.rs]: what a follower or learner does
    with the entries and the snapshots of its leader.  [leader_vote] is the
    field of the handler, the committed vote it follows. *)

From S2P Require Import Prelude Vote LogId LogIdList Quorum Membership VecProgress IOState.
From S2P Require Import MembershipState Entry RaftState Config ProgressEntry Proposer Command.
From S2P Require Import Engine.

Section following.
Context {C : RaftTypeConfig}.

(** [truncate_logs] *)
Definition truncate_logs (since : u64) (e : Engine) : Engine :=
  let st := Engine_state e in
  match get_log_id st since with
  | None => e
  | Some _ =>
      let after := prev_log_id st since in
      let e := set_state e (set_log_ids st (LogIdList_truncate (RaftState_log_ids st) since)) in
      let e := push (Command_TruncateLog after) e in
      let st := Engine_state e in
      let '(ms, changed) := MembershipState_truncate (RaftState_membership_state st) since in
      let e := set_state e (set_membership_state st ms) in
      match changed with
      | Some _ => update_server_state_if_changed e
      | None => e
      end
  end.

(** [last_two_memberships]: the entries are visited from the last one on. *)
Fixpoint last_two_loop (rev_entries : list Entry) (memberships : list StoredMembership) :
    list StoredMembership :=
  match rev_entries with
  | [] => memberships
  | ent :: rev_entries =>
      match Entry_get_membership ent with
      | Some m =>
          let memberships := mkStoredMembership (Some (Entry_log_id ent)) m :: memberships in
          if decide (length memberships = 2) then memberships
          else last_two_loop rev_entries memberships
      | None => last_two_loop rev_entries memberships
      end
  end.

Definition last_two_memberships (entries : list Entry) : list StoredMembership :=
  last_two_loop (rev entries) [].

(** [append_membership] *)
Definition FollowingHandler_append_membership (entries : list Entry) (e : Engine) : Engine :=
  match last_two_memberships entries with
  | [] => e
  | memberships =>
      let st := Engine_state e in
      let ms := foldl MembershipState_append (RaftState_membership_state st) memberships in
      update_server_state_if_changed (set_state e (set_membership_state st ms))
  end.

(** [do_append_entries] *)
Definition do_append_entries (leader_vote : CommittedVote) (entries : list Entry) (e : Engine) :
    Engine :=
  let e := set_state e (extend_log_ids (Engine_state e) (Entry_log_id <$> entries)) in
  let e := FollowingHandler_append_membership entries e in
  push (Command_AppendEntries leader_vote entries) e.

(** [append_entries] *)
Definition FollowingHandler_append_entries (leader_vote : CommittedVote)
    (prev_log_id : option LogId) (entries : list Entry) (e : Engine) : Engine :=
  let last_log_id := omax prev_log_id (Entry_log_id <$> last entries) in
  let '(st, prev_accepted) :=
    accept_log_io (Engine_state e) (IOId_new_log_io leader_vote last_log_id) in
  let e := set_state e st in
  let since := first_conflicting_index st entries in
  match entries !! since with
  | Some first =>
      do_append_entries leader_vote (drop since entries) (truncate_logs (Entry_index first) e)
  | None =>
      let to_submit := IOId_new_log_io leader_vote last_log_id in
      if pleb (Some to_submit) prev_accepted then e
      else push (Command_UpdateIOProgress (Condition_IOFlushed <$> prev_accepted) to_submit) e
  end.

(** [ensure_log_consecutive] *)
Definition ensure_log_consecutive (prev_log_id : option LogId) (e : Engine) :
    Engine * result unit RejectAppendEntries :=
  match prev_log_id with
  | Some prev =>
      if negb (has_log_id (Engine_state e) prev) then
        let local := get_log_id (Engine_state e) (LogId_index prev) in
        (truncate_logs (LogId_index prev) e,
         Err (RejectAppendEntries_ConflictingLogId (mkConflictingLogId prev local)))
      else (e, Ok tt)
  | None => (e, Ok tt)
  end.

(** [membership_install_snapshot] *)
Definition membership_install_snapshot (membership : StoredMembership)
    (snapshot_last_log_index : u64) (e : Engine) : Engine :=
  let st := Engine_state e in
  let ms := install_membership_snapshot (RaftState_membership_state st) membership
              snapshot_last_log_index in
  update_server_state_if_changed (set_state e (set_membership_state st ms)).

(** The positions that an accepted snapshot advances. *)
Definition accept_snapshot_io (log_io_id : LogIOId) (snap_last_log_id : LogId) (st : RaftState) :
    RaftState :=
  let st := (accept_log_io st (LogIOId_to_io_id log_io_id)).1 in
  let st := set_io_state st (set_apply_progress (RaftState_io_state st)
              (IOProgress_accept (apply_progress st) snap_last_log_id)) in
  set_io_state st (set_snapshot_progress (RaftState_io_state st)
    (IOProgress_accept (snapshot_progress st) snap_last_log_id)).

(** [install_full_snapshot] *)
Definition install_full_snapshot (leader_vote : CommittedVote) (snapshot : Snapshot) (e : Engine) :
    outcome (option Condition * Engine) :=
  let meta := Snapshot_meta snapshot in
  let snap_last_log_id := SnapshotMeta_last_log_id meta in
  if (snap_last_log_id <=? local_committed (Engine_state e)) then Ret (None, e)
  else
    snap_last_log_id ← unwrap snap_last_log_id;
    assert (LogId_leader_id snap_last_log_id <=? CommittedVote_committed_leader_id leader_vote);;
    assert (match local_committed (Engine_state e) with
            | Some committed => (LogId_index snap_last_log_id >? LogId_index committed)
            | None => true
            end);;
    let '(e, updated) := update_snapshot e meta in
    if negb updated then Ret (None, e)
    else
      let st := Engine_state e in
      let local := get_log_id st (LogId_index snap_last_log_id) in
      let e := match local with
               | Some local =>
                   if decide (local ≠ snap_last_log_id)
                   then truncate_logs (next_index (local_committed st)) e else e
               | None => e
               end in
      let log_io_id := mkLogIOId leader_vote (Some snap_last_log_id) in
      let e := set_state e (accept_snapshot_io log_io_id snap_last_log_id (Engine_state e)) in
      let e := membership_install_snapshot (SnapshotMeta_last_membership meta)
                 (LogId_index snap_last_log_id) e in
      let e := push (Command_StateMachine
                 (SmCommand_InstallFullSnapshot log_io_id snapshot)) e in
      let e := update_purge_upto e snap_last_log_id in
      let e := LogHandler_purge_log e in
      Ret (Some (Condition_Snapshot snap_last_log_id), e).

(** ** Lemmas *)

Context `{!RaftLeaderIdLaws C}.
Implicit Types (e : Engine) (st : RaftState) (entries : list Entry).

(** The local log is well formed, the committed log is one of its entries (or
    the last purged one), and only committed logs are purged. *)
Record log_inv st : Prop := {
  log_inv_wf : LogIdList_wf (RaftState_log_ids st);
  log_inv_committed : ∀ c, local_committed st = Some c → get_log_id st (LogId_index c) = Some c;
  log_inv_purged : last_purged_log_id st ≼ local_committed st;
}.

Lemma last_two_loop_spec entries (ms acc : list StoredMembership) :
  (acc = [] ∨ ∃ m, acc = [m]) →
  ms = omap (λ ent, mkStoredMembership (Some (Entry_log_id ent)) <$> Entry_get_membership ent)
         entries →
  last_two_loop (rev entries) acc = drop (length ms - (2 - length acc)) ms ++ acc.
Proof.
  revert ms acc. induction entries as [|ent entries IH] using rev_ind; intros ms acc Hacc ->; cbn.
  { done. }
  rewrite rev_app_distr, omap_app. cbn. destruct (Entry_get_membership ent) as [m|]; cbn.
  - destruct Hacc as [-> |[m' ->]].
    + rewrite decide_False by done. rewrite (IH _ _ (or_intror (ex_intro _ _ eq_refl)) eq_refl).
      rewrite length_app. cbn. set (l := omap _ entries).
      rewrite drop_app_le by lia. rewrite <- (assoc_L (++)). by replace (length l + 1 - 2) with (length l - 1) by lia.
    + rewrite decide_True by done. rewrite length_app. cbn.
      rewrite Nat.add_sub, drop_app_length. done.
  - rewrite app_nil_r. by apply IH.
Qed.

(** Two logs with the same purged id and the same entries at [i]. *)
Lemma LogIdList_get_same (l l' : LogIdList) i :
  LogIdList_wf l → LogIdList_wf l' → LogIdList_purged l' = LogIdList_purged l →
  ((LogIdList_first_index l ≤ i)%N →
    LogIdList_ids l' !! N.to_nat (i - LogIdList_first_index l) =
    LogIdList_ids l !! N.to_nat (i - LogIdList_first_index l)) →
  LogIdList_get l' i = LogIdList_get l i.
Proof.
  intros Hl Hl' Hp Hi. rewrite !LogIdList_get_spec by done.
  assert (LogIdList_first_index l' = LogIdList_first_index l) as ->
    by (unfold LogIdList_first_index; by rewrite Hp).
  rewrite Hp. destruct (ltb_spec i (LogIdList_first_index l)) as [|Hge]; [done|]. by apply Hi.
Qed.

Lemma truncate_logs_spec since e :
  let st := Engine_state e in
  let st' := Engine_state (truncate_logs since e) in
  let first := LogIdList_first_index (RaftState_log_ids st) in
  LogIdList_wf (RaftState_log_ids st) → (first ≤ since)%N →
  LogIdList_wf (RaftState_log_ids st') ∧
  LogIdList_ids (RaftState_log_ids st') =
    take (N.to_nat (since - first)) (LogIdList_ids (RaftState_log_ids st)) ∧
  LogIdList_purged (RaftState_log_ids st') = LogIdList_purged (RaftState_log_ids st) ∧
  RaftState_io_state st' = RaftState_io_state st ∧
  commands (truncate_logs since e) = commands e ++
    (if get_log_id st since is Some _ then [Command_TruncateLog (prev_log_id st since)] else []).
Proof.
  intros st st' first Hl Hs. subst st'. unfold truncate_logs. fold st.
  destruct (get_log_id st since) as [x|] eqn:Hg.
  - destruct (LogIdList_truncate_spec _ _ Hl Hs) as [Hids Hwf].
    destruct (MembershipState_truncate _ since) as [ms [c|]]; rewrite ?update_server_state_eq; cbn;
      split_and!; try done; apply LogIdList_truncate_purged.
  - fold st. rewrite app_nil_r. split_and!; try done.
    symmetry. apply take_ge. rewrite LogIdList_ids_length by done.
    destruct (decide (since < next_index (LogIdList_last (RaftState_log_ids st)))%N) as [Hlt|]; [|lia].
    destruct (LogIdList_get_is_Some (RaftState_log_ids st) since) as [y Hy]; try done; [lia|].
    unfold get_log_id, ref_log_id in Hg. congruence.
Qed.

Lemma append_membership_frame entries e :
  let st := Engine_state e in
  let st' := Engine_state (FollowingHandler_append_membership entries e) in
  RaftState_log_ids st' = RaftState_log_ids st ∧ RaftState_io_state st' = RaftState_io_state st ∧
  commands (FollowingHandler_append_membership entries e) = commands e.
Proof.
  unfold FollowingHandler_append_membership. destruct (last_two_memberships entries); [done|].
  by rewrite update_server_state_eq.
Qed.

Lemma do_append_entries_frame leader_vote entries e :
  let st := Engine_state e in
  let st' := Engine_state (do_append_entries leader_vote entries e) in
  RaftState_log_ids st' = LogIdList_extend (RaftState_log_ids st) (Entry_log_id <$> entries) ∧
  RaftState_io_state st' = RaftState_io_state st ∧
  commands (do_append_entries leader_vote entries e) =
    commands e ++ [Command_AppendEntries leader_vote entries].
Proof.
  unfold do_append_entries.
  destruct (append_membership_frame entries
    (set_state e (extend_log_ids (Engine_state e) (Entry_log_id <$> entries)))) as (H1 & H2 & H3).
  cbn in *. unfold commands in *. cbn in *. rewrite H1, H2, H3. done.
Qed.

Lemma next_index_in (o : option LogId) : (next_index o < u64_modulus)%N.
Proof. destruct o; [apply u64_add_in|done]. Qed.

Lemma LogIdList_last_bound l y :
  LogIdList_wf l → LogIdList_last l = Some y → (LogId_index y + 1 < u64_modulus)%N.
Proof.
  intros (Hp & Hw & _). unfold LogIdList_last.
  destruct (last (LogIdList_key_log_ids l)) as [k|] eqn:Hk.
  - intros [= <-]. rewrite last_lookup in Hk. by apply (keys_wf_lookup _ _ _ _ Hw Hk).
  - intros Hy. rewrite Hy in Hp. apply Hp.
Qed.

Lemma LogIdList_get_last l y :
  LogIdList_wf l → LogIdList_last l = Some y → LogIdList_get l (LogId_index y) = Some y.
Proof.
  intros Hl Hy. pose proof (LogIdList_last_spec l Hl) as Hs. rewrite Hy in Hs.
  destruct (last (LogIdList_ids l)) as [z|] eqn:Hz; [|by apply LogIdList_get_purged].
  injection Hs as <-. rewrite last_lookup in Hz. pose proof Hl as (_ & Hw & _).
  pose proof (expand_keys_index _ _ _ _ Hw Hz) as Hi. rewrite LogIdList_get_spec by done.
  rewrite Hi. destruct (ltb_spec (LogIdList_first_index l + N.of_nat (pred (length (LogIdList_ids l))))%N
    (LogIdList_first_index l)) as [Hc|_]; [rewrite N_ord_lt in Hc; lia|].
  by replace (N.to_nat _) with (pred (length (LogIdList_ids l))) by lia.
Qed.

(** What a request of the leader of a cluster satisfies: its ids are
    consecutive after [prev], which is a local log, and those at committed
    indexes are the committed logs. *)
Record request_ok st (prev : option LogId) (ids : list LogId) : Prop := {
  request_follows : follows prev ids;
  request_prev : ∀ p, prev = Some p → has_log_id st p = true;
  request_committed : ∀ x y, prev = Some x ∨ x ∈ ids →
    (LogId_index x < next_index (local_committed st))%N →
    get_log_id st (LogId_index x) = Some y → y = x;
}.

Lemma committed_bounds st :
  log_inv st →
  (LogIdList_first_index (RaftState_log_ids st) ≤ next_index (local_committed st))%N ∧
  (next_index (local_committed st) ≤ next_index (last_log_id st))%N.
Proof.
  intros [Hl Hc Hp]. destruct (local_committed st) as [c|].
  - specialize (Hc c eq_refl). destruct (LogIdList_get_bounds _ _ _ Hl Hc) as [? Hlt].
    pose proof (next_index_in (last_log_id st)). unfold last_log_id in *.
    rewrite next_index_some by lia. lia.
  - unfold last_purged_log_id, LogIdList_first_index in *.
    destruct (LogIdList_purged _); [by apply Some_le_None in Hp|]. cbn. lia.
Qed.

Lemma has_log_id_lt st x :
  log_inv st → has_log_id st x = true → (LogId_index x < next_index (last_log_id st))%N.
Proof.
  intros Hinv. pose proof (committed_bounds st Hinv) as [_ Hle]. unfold has_log_id.
  change (RaftState_committed st) with (local_committed st).
  destruct (ltb_spec (LogId_index x) (next_index (local_committed st))) as [Hlt|_];
    [rewrite N_ord_lt in Hlt; lia|].
  destruct (ref_log_id st (LogId_index x)) as [z|] eqn:Hz; [|done]. intros _.
  by apply (LogIdList_get_bounds _ _ _ (log_inv_wf _ Hinv) Hz).
Qed.

(** A log id that is taken to be present is the local one. *)
Lemma has_log_id_get st prev ids x y :
  request_ok st prev ids → prev = Some x ∨ x ∈ ids → has_log_id st x = true →
  get_log_id st (LogId_index x) = Some y → y = x.
Proof.
  intros [_ _ Hc] Hx Hh Hy. unfold has_log_id in Hh.
  change (RaftState_committed st) with (local_committed st) in Hh.
  destruct (ltb_spec (LogId_index x) (next_index (local_committed st))) as [Hlt|_].
  - rewrite N_ord_lt in Hlt. by eapply Hc.
  - unfold get_log_id in Hy. rewrite Hy in Hh. by apply bool_decide_eq_true in Hh.
Qed.

(** The id before the first entry that is not local. *)
Definition before_conflict (prev : option LogId) (ids : list LogId) (since : nat) : option LogId :=
  match since with O => prev | S j => ids !! j end.

Lemma before_conflict_local st prev entries x :
  let ids := Entry_log_id <$> entries in
  request_ok st prev ids →
  before_conflict prev ids (first_conflicting_index st entries) = Some x →
  (prev = Some x ∨ x ∈ ids) ∧ has_log_id st x = true.
Proof.
  intros ids Hr. unfold before_conflict.
  destruct (first_conflicting_index_spec st entries) as (_ & Hlo & _).
  destruct (first_conflicting_index st entries) as [|j].
  - intros Hx. split; [by left|by apply (request_prev _ _ _ Hr)].
  - intros Hx. split; [right; by eapply list_elem_of_lookup_2|].
    unfold ids in Hx. rewrite list_lookup_fmap_Some in Hx. destruct Hx as (ent & -> & He).
    apply (Hlo j); [lia|done].
Qed.

Lemma conflict_bounds st prev entries ent :
  let since := first_conflicting_index st entries in
  let ids := Entry_log_id <$> entries in
  log_inv st → request_ok st prev ids → entries !! since = Some ent →
  (next_index (local_committed st) ≤ Entry_index ent)%N ∧
  (Entry_index ent ≤ next_index (last_log_id st))%N ∧
  Entry_index ent = next_index (before_conflict prev ids since) ∧
  follows (before_conflict prev ids since) (drop since ids).
Proof.
  intros since ids Hinv Hr He.
  destruct (first_conflicting_index_spec st entries) as (Hlen & _ & Hat).
  assert (has_log_id st (Entry_log_id ent) = false) as Hno by by apply Hat.
  assert (follows (before_conflict prev ids since) (drop since ids)) as Hf.
  { apply follows_drop; [apply Hr|]. unfold ids. by rewrite length_fmap. }
  assert (Entry_index ent = next_index (before_conflict prev ids since)) as Hk.
  { assert (drop since ids !! 0 = Some (Entry_log_id ent)) as H0
      by (rewrite lookup_drop, Nat.add_0_r; unfold ids; by rewrite list_lookup_fmap, He).
    destruct (follows_lookup _ _ _ _ Hf H0) as [Hi _]. unfold Entry_index. lia. }
  split_and!; try done.
  - unfold has_log_id in Hno. change (RaftState_committed st) with (local_committed st) in Hno.
    destruct (ltb_spec (LogId_index (Entry_log_id ent)) (next_index (local_committed st))) as [|Hge];
      [done|]. exact Hge.
  - rewrite Hk. destruct (before_conflict prev ids since) as [x|] eqn:Hx; [|cbn; lia].
    destruct (before_conflict_local _ _ _ _ Hr Hx) as [_ Hh].
    pose proof (has_log_id_lt _ _ Hinv Hh). pose proof (next_index_in (last_log_id st)).
    rewrite next_index_some by lia. lia.
Qed.

(** After the truncation the log ends right before the first entry that is
    not local. *)
Lemma truncated_last e prev entries ent :
  let st := Engine_state e in
  let since := first_conflicting_index st entries in
  let ids := Entry_log_id <$> entries in
  log_inv st → request_ok st prev ids → entries !! since = Some ent →
  LogIdList_last (RaftState_log_ids (Engine_state (truncate_logs (Entry_index ent) e))) =
    before_conflict prev ids since.
Proof.
  intros st since ids Hinv Hr He.
  destruct (conflict_bounds _ _ _ _ Hinv Hr He) as (Hlo & Hhi & Hk & _).
  pose proof (committed_bounds st Hinv) as [Hfc _]. pose proof (log_inv_wf _ Hinv) as Hl.
  destruct (truncate_logs_spec (Entry_index ent) e Hl ltac:(fold st; lia)) as (Hwf & Hids & Hp & _).
  fold st in Hwf, Hids, Hp |- *. set (l' := RaftState_log_ids (Engine_state (truncate_logs _ e))) in *.
  assert (LogIdList_first_index l' = LogIdList_first_index (RaftState_log_ids st)) as Hfi
    by (unfold LogIdList_first_index; by rewrite Hp).
  assert (next_index (LogIdList_last l') = Entry_index ent) as Hn.
  { pose proof (LogIdList_ids_length l' Hwf) as Hlen. pose proof (LogIdList_first_le_last l' Hwf).
    rewrite Hids, length_take, LogIdList_ids_length, Hfi in Hlen by done.
    unfold last_log_id in Hhi. rewrite Hfi in *. lia. }
  rewrite Hk in Hn. fold since ids in Hn.
  destruct (LogIdList_last l') as [y|] eqn:Hy.
  - pose proof (LogIdList_last_bound _ _ Hwf Hy). rewrite next_index_some in Hn by done.
    destruct (before_conflict prev ids since) as [x|] eqn:Hx; [|cbn in Hn; lia].
    destruct (before_conflict_local _ _ _ _ Hr Hx) as [Hin Hh].
    pose proof (has_log_id_lt _ _ Hinv Hh). pose proof (next_index_in (last_log_id st)).
    rewrite next_index_some in Hn by lia. f_equal.
    assert (LogId_index y = LogId_index x) as Hyx by lia.
    eapply (has_log_id_get st); [done|done|done|]. rewrite <- Hyx.
    rewrite <- (LogIdList_get_last _ _ Hwf Hy). symmetry. apply LogIdList_get_same; try done.
    intros Hge. rewrite Hids. apply lookup_take_lt. rewrite Hk. fold since ids. rewrite Hx.
    rewrite next_index_some by lia. lia.
  - destruct (before_conflict prev ids since) as [x|] eqn:Hx; [|done].
    destruct (before_conflict_local _ _ _ _ Hr Hx) as [_ Hh].
    pose proof (has_log_id_lt _ _ Hinv Hh). pose proof (next_index_in (last_log_id st)).
    rewrite next_index_some in Hn by lia. cbn in Hn. lia.
Qed.

(** *** Accepting an I/O leaves the log and the committed position alone *)

Definition same_log st st' : Prop :=
  RaftState_log_ids st' = RaftState_log_ids st ∧ apply_progress st' = apply_progress st.

Lemma accept_log_io_same st io : same_log st (accept_log_io st io).1.
Proof. unfold accept_log_io. cbn. by destruct (pgtb _ _). Qed.

Lemma same_log_has st st' x : same_log st st' → has_log_id st' x = has_log_id st x.
Proof.
  intros [Hl Ha]. unfold has_log_id, RaftState_committed, ref_log_id. by rewrite Hl, Ha.
Qed.

Lemma same_log_conflict st st' entries :
  same_log st st' → first_conflicting_index st' entries = first_conflicting_index st entries.
Proof.
  intros Hs. induction entries as [|ent entries IH]; [done|]. cbn.
  by rewrite (same_log_has _ _ _ Hs), IH.
Qed.

Lemma same_log_inv st st' : same_log st st' → log_inv st → log_inv st'.
Proof.
  intros [Hl Ha] [H1 H2 H3]. split; unfold local_committed, get_log_id, ref_log_id,
    last_purged_log_id in *; rewrite ?Hl, ?Ha; done.
Qed.

Lemma same_log_request st st' prev ids :
  same_log st st' → request_ok st prev ids → request_ok st' prev ids.
Proof.
  intros Hs [H1 H2 H3]. split; [done|..].
  - intros p Hp. rewrite (same_log_has _ _ _ Hs). by apply H2.
  - destruct Hs as [Hl Ha]. unfold local_committed, get_log_id, ref_log_id in *.
    by rewrite Hl, Ha.
Qed.

Lemma truncate_logs_io since e :
  RaftState_io_state (Engine_state (truncate_logs since e)) = RaftState_io_state (Engine_state e).
Proof.
  unfold truncate_logs. destruct (get_log_id _ _); [|done].
  destruct (MembershipState_truncate _ since) as [ms [c|]]; rewrite ?update_server_state_eq; done.
Qed.

Lemma append_entries_io leader_vote prev entries e :
  RaftState_io_state (Engine_state (FollowingHandler_append_entries leader_vote prev entries e)) =
  RaftState_io_state (accept_log_io (Engine_state e)
    (IOId_new_log_io leader_vote (omax prev (Entry_log_id <$> last entries)))).1.
Proof.
  unfold FollowingHandler_append_entries. destruct (accept_log_io _ _) as [st prev_accepted]. cbn [fst].
  destruct (entries !! _) as [ent|]; [|by destruct (pleb _ _)].
  destruct (do_append_entries_frame leader_vote (drop (first_conflicting_index st entries) entries)
    (truncate_logs (Entry_index ent) (set_state e st))) as (_ & -> & _).
  by rewrite truncate_logs_io.
Qed.

(** The accepted I/O reaches the one that is accepted. *)
Lemma accept_log_io_reaches st io :
  (∀ a, accepted_log_io st = Some a → pleb (IOId_to_app_vote a) (IOId_to_app_vote io) = true) →
  ∃ a, accepted_log_io (accept_log_io st io).1 = Some a ∧ pleb io a = true.
Proof.
  intros Ha. unfold accept_log_io. fold (accepted_log_io st).
  destruct (pgtb (Some io) (accepted_log_io st)) eqn:Hgt; cbn [fst].
  - exists io. split; [done|apply pleb_refl].
  - destruct (accepted_log_io st) as [a|] eqn:Hacc; [|done]. exists a. split; [done|].
    apply (IOId_not_gt_le a io); [exact (Ha a eq_refl)|done].
Qed.

(** *** Appending after the first conflict *)

Lemma append_after_conflict leader_vote prev entries ent e :
  let st := Engine_state e in
  let since := first_conflicting_index st entries in
  let ids := Entry_log_id <$> entries in
  let e' := do_append_entries leader_vote (drop since entries) (truncate_logs (Entry_index ent) e) in
  let l := RaftState_log_ids st in
  let l' := RaftState_log_ids (Engine_state e') in
  log_inv st → request_ok st prev ids → entries !! since = Some ent →
  LogIdList_wf l' ∧ LogIdList_purged l' = LogIdList_purged l ∧
  LogIdList_ids l' = take (N.to_nat (Entry_index ent - LogIdList_first_index l)) (LogIdList_ids l) ++
    drop since ids ∧
  apply_progress (Engine_state e') = apply_progress st ∧
  commands e' = commands e ++
    (if get_log_id st (Entry_index ent) is Some _
     then [Command_TruncateLog (prev_log_id st (Entry_index ent))] else []) ++
    [Command_AppendEntries leader_vote (drop since entries)].
Proof.
  intros st since ids e' l l' Hinv Hr He.
  destruct (conflict_bounds _ _ _ _ Hinv Hr He) as (Hlo & Hhi & Hk & Hf).
  pose proof (committed_bounds st Hinv) as [Hfc _]. pose proof (log_inv_wf _ Hinv) as Hl.
  destruct (truncate_logs_spec (Entry_index ent) e Hl ltac:(fold st; lia)) as (Hwf & Hids & Hp & Hio & Hcmd).
  pose proof (truncated_last e prev entries ent Hinv Hr He) as Hlast.
  destruct (do_append_entries_frame leader_vote (drop since entries) (truncate_logs (Entry_index ent) e))
    as (Hl' & Hio' & Hcmd').
  fold e' in Hl', Hio', Hcmd'. unfold l'. rewrite Hl', fmap_drop. fold ids.
  destruct (LogIdList_extend_spec (RaftState_log_ids (Engine_state (truncate_logs (Entry_index ent) e)))
    (drop since ids)) as [Hwf' Hids']; [done|rewrite Hlast; exact Hf|].
  rewrite LogIdList_extend_purged, Hids', Hids, Hp. split_and!; try done.
  - unfold apply_progress. by rewrite Hio', Hio.
  - by rewrite Hcmd', Hcmd, <- (assoc_L (++)).
Qed.

(** The ids of the request are in the new log. *)
Lemma appended_lookup st prev entries ent j x (l' : LogIdList) :
  let since := first_conflicting_index st entries in
  let ids := Entry_log_id <$> entries in
  let l := RaftState_log_ids st in
  log_inv st → request_ok st prev ids → entries !! since = Some ent →
  LogIdList_wf l' → LogIdList_purged l' = LogIdList_purged l →
  LogIdList_ids l' = take (N.to_nat (Entry_index ent - LogIdList_first_index l)) (LogIdList_ids l) ++
    drop since ids →
  ids !! j = Some x → since ≤ j → LogIdList_get l' (LogId_index x) = Some x.
Proof.
  intros since ids l Hinv Hr He Hwf Hp Hids Hj Hs.
  destruct (conflict_bounds _ _ _ _ Hinv Hr He) as (Hlo & Hhi & Hk & Hf).
  fold since ids in Hk, Hf. pose proof (committed_bounds st Hinv) as [Hfc _].
  assert (drop since ids !! (j - since) = Some x) as Hx
    by (rewrite lookup_drop; by replace (since + (j - since)) with j by lia).
  destruct (follows_lookup _ _ _ _ Hf Hx) as [Hi _]. rewrite <- Hk in Hi.
  rewrite LogIdList_get_spec by done.
  assert (LogIdList_first_index l' = LogIdList_first_index l) as ->
    by (unfold LogIdList_first_index; by rewrite Hp).
  fold l in Hfc. destruct (ltb_spec (LogId_index x) (LogIdList_first_index l)) as [Hc|_];
    [rewrite N_ord_lt in Hc; lia|].
  rewrite Hids, lookup_app_r; rewrite length_take, LogIdList_ids_length by apply Hinv;
    fold l; unfold last_log_id in Hhi; fold l in Hhi; [|lia].
  rewrite <- Hx. f_equal. lia.
Qed.

(** Before the first conflict nothing changes. *)
Lemma appended_before st entries ent i (l' : LogIdList) :
  let since := first_conflicting_index st entries in
  let l := RaftState_log_ids st in
  LogIdList_wf l → LogIdList_wf l' → LogIdList_purged l' = LogIdList_purged l →
  LogIdList_ids l' = take (N.to_nat (Entry_index ent - LogIdList_first_index l)) (LogIdList_ids l) ++
    drop since (Entry_log_id <$> entries) →
  (Entry_index ent ≤ next_index (last_log_id st))%N → (i < Entry_index ent)%N →
  LogIdList_get l' i = LogIdList_get l i.
Proof.
  intros since l Hl Hl' Hp Hids Hhi Hi. apply LogIdList_get_same; try done. intros Hge.
  rewrite Hids, lookup_app_l; [apply lookup_take_lt; lia|].
  rewrite length_take, LogIdList_ids_length by done. unfold last_log_id in Hhi. fold l in Hhi. lia.
Qed.

(** [append_entries] in terms of the two cases. *)
Lemma append_entries_cases leader_vote prev entries e :
  let st := Engine_state e in
  let since := first_conflicting_index st entries in
  let e' := FollowingHandler_append_entries leader_vote prev entries e in
  ∃ e1, same_log st (Engine_state e1) ∧ commands e1 = commands e ∧
    match entries !! since with
    | Some ent =>
        e' = do_append_entries leader_vote (drop since entries) (truncate_logs (Entry_index ent) e1)
    | None => Engine_state e' = Engine_state e1 ∧
        ∃ cmds, commands e' = commands e1 ++ cmds ∧
          ∀ c, c ∈ cmds → ∃ cond io, c = Command_UpdateIOProgress cond io
    end.
Proof.
  intros st since e'.
  set (io := IOId_new_log_io leader_vote (omax prev (Entry_log_id <$> last entries))).
  pose proof (accept_log_io_same st io) as Hs.
  exists (set_state e (accept_log_io st io).1). split_and!; [exact Hs|done|].
  unfold e', FollowingHandler_append_entries. fold st io.
  destruct (accept_log_io st io) as [st1 prev_accepted]. cbn in Hs |- *.
  rewrite (same_log_conflict _ _ entries Hs). fold since.
  destruct (entries !! since) as [ent|] eqn:He; [done|].
  destruct (pleb _ _).
  - split; [done|]. exists []. rewrite app_nil_r. set_solver.
  - split; [done|]. eexists. split; [done|]. set_solver.
Qed.

(** The state after a request that brings a new entry [ent]. *)
Lemma conflict_matching st st' prev entries ent :
  let since := first_conflicting_index st entries in
  let l := RaftState_log_ids st in
  log_inv st → request_ok st prev (Entry_log_id <$> entries) → entries !! since = Some ent →
  apply_progress st' = apply_progress st →
  LogIdList_wf (RaftState_log_ids st') →
  LogIdList_purged (RaftState_log_ids st') = LogIdList_purged l →
  LogIdList_ids (RaftState_log_ids st') =
    take (N.to_nat (Entry_index ent - LogIdList_first_index l)) (LogIdList_ids l) ++
    drop since (Entry_log_id <$> entries) →
  log_inv st' ∧ (∀ i, (i < Entry_index ent)%N → get_log_id st' i = get_log_id st i) ∧
  (∀ j x, entries !! j = Some x → since ≤ j → get_log_id st' (Entry_index x) = Some (Entry_log_id x)) ∧
  last_log_id st' = Entry_log_id <$> last entries.
Proof.
  intros since l Hinv Hr He Ha Hwf Hp Hids.
  destruct (conflict_bounds _ _ _ _ Hinv Hr He) as (Hge & Hhi & _).
  assert (∀ i, (i < Entry_index ent)%N → get_log_id st' i = get_log_id st i) as Hbefore.
  { intros i Hi. apply (appended_before st entries ent); try done. apply Hinv. }
  assert (local_committed st' = local_committed st) as Hcom
    by (unfold local_committed; by rewrite Ha).
  split_and!; [|done|..].
  - split; [done|..].
    + intros c Hcc. rewrite Hcom in Hcc. rewrite Hbefore; [by apply Hinv|].
      rewrite Hcc in Hge. pose proof (next_index_in (last_log_id st)).
      destruct (LogIdList_get_bounds _ _ _ (log_inv_wf _ Hinv) (log_inv_committed _ Hinv _ Hcc)).
      unfold last_log_id in *. rewrite next_index_some in Hge by lia. lia.
    + unfold last_purged_log_id. rewrite Hp, Hcom. apply Hinv.
  - intros j x Hx Hj. apply (appended_lookup st prev entries ent j); try done.
    by rewrite list_lookup_fmap, Hx.
  - unfold last_log_id. rewrite LogIdList_last_spec, Hids by done.
    apply lookup_lt_Some in He. assert (last (drop since entries) = last entries) as Hd
      by (rewrite !last_lookup, length_drop, lookup_drop; f_equal; lia).
    rewrite last_app, <- fmap_drop, fmap_last, Hd.
    destruct (last entries) eqn:Hla; [done|]. apply last_None in Hla. subst entries. cbn in He. lia.
Qed.

(** An entry that is taken to be present above the committed position is. *)
Lemma has_log_id_above st ent :
  has_log_id st (Entry_log_id ent) = true → (next_index (local_committed st) ≤ Entry_index ent)%N →
  get_log_id st (Entry_index ent) = Some (Entry_log_id ent).
Proof.
  intros Hh Hge. unfold has_log_id in Hh.
  change (RaftState_committed st) with (local_committed st) in Hh.
  destruct (ltb_spec (LogId_index (Entry_log_id ent)) (next_index (local_committed st))) as [Hlt|_];
    [rewrite N_ord_lt in Hlt; unfold Entry_index in Hge; lia|].
  unfold get_log_id, Entry_index. destruct (ref_log_id _ _); [|done].
  by apply bool_decide_eq_true in Hh as ->.
Qed.

Lemma entries_index prev entries i j x y :
  follows prev (Entry_log_id <$> entries) → entries !! i = Some x → entries !! j = Some y → i < j →
  (Entry_index x < Entry_index y)%N.
Proof.
  intros Hf Hi Hj Hij.
  assert ((Entry_log_id <$> entries) !! i = Some (Entry_log_id x)) as Hi'
    by (by rewrite list_lookup_fmap, Hi).
  assert ((Entry_log_id <$> entries) !! j = Some (Entry_log_id y)) as Hj'
    by (by rewrite list_lookup_fmap, Hj).
  destruct (follows_lookup _ _ _ _ Hf Hi') as [? _], (follows_lookup _ _ _ _ Hf Hj') as [? _].
  unfold Entry_index. lia.
Qed.

(** *** The log in the store

    What the log storage holds after a command: [TruncateLog] keeps the logs
    up to [after], [PurgeLog] deletes them up to [upto]. *)
Definition store_step (a : LogSpec) (c : Command) : LogSpec :=
  match c with
  | Command_TruncateLog after => spec_truncate a (next_index after)
  | Command_AppendEntries _ entries => spec_extend a (Entry_log_id <$> entries)
  | Command_PurgeLog upto => spec_purge a upto
  | _ => a
  end.

(** The commands pushed between two states of the engine take the stored log
    from the one to the other. *)
Definition store_follows e e' : Prop :=
  ∃ cmds, commands e' = commands e ++ cmds ∧
    foldl store_step (LogIdList_abs (RaftState_log_ids (Engine_state e))) cmds =
      LogIdList_abs (RaftState_log_ids (Engine_state e')).

Lemma store_follows_refl e e' :
  commands e' = commands e →
  RaftState_log_ids (Engine_state e') = RaftState_log_ids (Engine_state e) → store_follows e e'.
Proof. intros Hc Hl. exists []. by rewrite app_nil_r, Hl. Qed.

Lemma store_follows_trans e1 e2 e3 : store_follows e1 e2 → store_follows e2 e3 → store_follows e1 e3.
Proof.
  intros (c1 & H1 & F1) (c2 & H2 & F2). exists (c1 ++ c2).
  by rewrite H2, H1, (assoc_L (++)), foldl_app, F1.
Qed.

Lemma prev_log_id_next st since x :
  LogIdList_wf (RaftState_log_ids st) →
  (LogIdList_first_index (RaftState_log_ids st) ≤ since)%N → get_log_id st since = Some x →
  next_index (prev_log_id st since) = since.
Proof.
  intros Hl Hs Hx. destruct (LogIdList_get_bounds _ _ _ Hl Hx) as [_ Hlt].
  pose proof (next_index_in (LogIdList_last (RaftState_log_ids st))).
  unfold prev_log_id. case_decide as H0; [by subst|].
  rewrite u64_sub_small by (unfold in_u64; lia).
  destruct (LogIdList_get_is_Some (RaftState_log_ids st) (since - 1)) as [y Hy]; [done|lia| |lia|].
  - intros Hp. pose proof (first_index_purged _ Hl) as Hf. rewrite Hp in Hf. lia.
  - unfold get_log_id, ref_log_id. rewrite Hy. apply LogIdList_get_index in Hy; [|done].
    rewrite next_index_some by lia. lia.
Qed.

Lemma truncate_logs_store since e :
  LogIdList_wf (RaftState_log_ids (Engine_state e)) →
  (LogIdList_first_index (RaftState_log_ids (Engine_state e)) ≤ since)%N →
  store_follows e (truncate_logs since e).
Proof.
  intros Hl Hs. destruct (truncate_logs_spec since e Hl Hs) as (_ & Hids & Hp & _ & Hcmd).
  destruct (get_log_id (Engine_state e) since) as [x|] eqn:Hg.
  - eexists. split; [exact Hcmd|]. cbn. rewrite (prev_log_id_next _ _ _ Hl Hs Hg).
    unfold spec_truncate, LogIdList_abs. by rewrite Hids, Hp.
  - unfold truncate_logs. rewrite Hg. by apply store_follows_refl.
Qed.

Lemma append_entries_store leader_vote prev entries e :
  log_inv (Engine_state e) → request_ok (Engine_state e) prev (Entry_log_id <$> entries) →
  store_follows e (FollowingHandler_append_entries leader_vote prev entries e).
Proof.
  intros Hinv Hr.
  destruct (append_entries_cases leader_vote prev entries e) as (e1 & Hs & Hc & Hcase).
  pose proof (same_log_inv _ _ Hs Hinv) as Hinv1. pose proof (same_log_request _ _ _ _ Hs Hr) as Hr1.
  pose proof (same_log_conflict _ _ entries Hs) as Hsc.
  apply (store_follows_trans _ e1); [apply store_follows_refl; [done|apply Hs]|].
  destruct (entries !! first_conflicting_index (Engine_state e) entries) as [ent|] eqn:He.
  - rewrite Hcase. rewrite <- Hsc in He |- *.
    destruct (conflict_bounds _ _ _ _ Hinv1 Hr1 He) as (Hge & _).
    pose proof (committed_bounds _ Hinv1) as [? _].
    apply (store_follows_trans _ (truncate_logs (Entry_index ent) e1));
      [apply truncate_logs_store; [apply Hinv1|lia]|].
    destruct (append_after_conflict leader_vote prev entries ent e1 Hinv1 Hr1 He) as (_ & Hp & Hids & _).
    destruct (truncate_logs_spec (Entry_index ent) e1 (log_inv_wf _ Hinv1) ltac:(lia)) as (_ & Hids' & Hp' & _).
    destruct (do_append_entries_frame leader_vote (drop (first_conflicting_index (Engine_state e1) entries)
      entries) (truncate_logs (Entry_index ent) e1)) as (_ & _ & Hcmd).
    eexists. split; [exact Hcmd|]. unfold foldl, store_step, spec_extend, LogIdList_abs.
    cbn [spec_purged spec_ids]. by rewrite Hp, Hp', Hids, Hids', fmap_drop.
  - destruct Hcase as (Hst & cmds & Hcmd & Hall). exists cmds. split; [done|]. rewrite Hst.
    clear Hcmd. generalize (LogIdList_abs (RaftState_log_ids (Engine_state e1))).
    induction cmds as [|c cmds IH]; intros a; [done|]. cbn.
    destruct (Hall c) as (cond & io & ->); [by left|]. cbn. apply IH. intros c Hc'. apply Hall. by right.
Qed.

(** *** Installing a snapshot *)

(** The log after the conflicting suffix is removed: empty above the
    committed logs, or it has the last log of the snapshot. *)
Lemma snapshot_truncate e id :
  let st := Engine_state e in
  let e1 := match get_log_id st (LogId_index id) with
            | Some local =>
                if decide (local ≠ id) then truncate_logs (next_index (local_committed st)) e else e
            | None => e
            end in
  let l := RaftState_log_ids st in
  let l1 := RaftState_log_ids (Engine_state e1) in
  log_inv st → (LogId_index id + 1 < u64_modulus)%N →
  (next_index (local_committed st) ≤ LogId_index id)%N →
  LogIdList_wf l1 ∧ LogIdList_purged l1 = LogIdList_purged l ∧ purgeable l1 id ∧
  drop (N.to_nat (LogId_index id + 1 - LogIdList_first_index l)) (LogIdList_ids l1) =
    (if decide (get_log_id st (LogId_index id) = Some id)
     then drop (N.to_nat (LogId_index id + 1 - LogIdList_first_index l)) (LogIdList_ids l) else []) ∧
  RaftState_io_state (Engine_state e1) = RaftState_io_state st ∧ store_follows e e1.
Proof.
  intros st e1 l l1 Hinv Hb Hge. pose proof (log_inv_wf _ Hinv) as Hl.
  pose proof (committed_bounds _ Hinv) as [Hfc Hcl]. fold l in Hl, Hfc. unfold last_log_id in Hcl. fold l in Hcl.
  destruct (get_log_id st (LogId_index id)) as [local|] eqn:Hg.
  - destruct (decide (local ≠ id)) as [Hne|Heq].
    + destruct (truncate_logs_spec (next_index (local_committed st)) e Hl Hfc)
        as (Hwf & Hids & Hp & Hio & _). fold st e1 l1 l in Hwf, Hids, Hp, Hio.
      rewrite decide_False by congruence. split_and!; try done.
      * split; [done|]. intros [_ Hlt]. exfalso. pose proof (LogIdList_ids_length l1 Hwf) as Hlen.
        pose proof (LogIdList_first_le_last l1 Hwf).
        assert (LogIdList_first_index l1 = LogIdList_first_index l) as Hfi
          by (unfold LogIdList_first_index; by rewrite Hp).
        rewrite Hids, length_take, Hfi in *. lia.
      * apply drop_ge. rewrite Hids, length_take. lia.
      * by apply truncate_logs_store.
    + apply dec_stable in Heq as ->. rewrite decide_True by done.
      split_and!; try done. by apply store_follows_refl.
  - assert (next_index (LogIdList_last l) ≤ LogId_index id)%N as Hout.
    { destruct (decide (LogId_index id < next_index (LogIdList_last l))%N) as [Hlt|]; [|lia].
      destruct (LogIdList_get_is_Some l (LogId_index id)) as [y Hy]; [done|lia|lia|done|].
      unfold get_log_id, ref_log_id in Hg. fold l in Hg. congruence. }
    rewrite decide_False by done. split_and!; try done.
    + split; [done|]. unfold l1, e1. fold st l. lia.
    + apply drop_ge. unfold l1, e1. fold st l. rewrite LogIdList_ids_length by done. lia.
    + by apply store_follows_refl.
Qed.

Lemma membership_install_snapshot_frame m i e :
  membership_install_snapshot m i e = set_state e (set_server_state (set_membership_state (Engine_state e)
    (install_membership_snapshot (RaftState_membership_state (Engine_state e)) m i))
    (calc_server_state (set_membership_state (Engine_state e)
      (install_membership_snapshot (RaftState_membership_state (Engine_state e)) m i)) (Engine_id e))).
Proof. unfold membership_install_snapshot. by rewrite update_server_state_eq. Qed.

Lemma truncate_logs_snapshot since e :
  RaftState_snapshot_meta (Engine_state (truncate_logs since e)) =
    RaftState_snapshot_meta (Engine_state e).
Proof.
  unfold truncate_logs. destruct (get_log_id _ _); [|done].
  destruct (MembershipState_truncate _ since) as [ms [c|]]; rewrite ?update_server_state_eq; done.
Qed.

Lemma accept_snapshot_io_frame io id st :
  let st' := accept_snapshot_io io id st in
  RaftState_log_ids st' = RaftState_log_ids st ∧ local_committed st' = Some id ∧
  RaftState_snapshot_meta st' = RaftState_snapshot_meta st.
Proof. unfold accept_snapshot_io, accept_log_io. cbn. by destruct (pgtb _ _). Qed.

(** The last steps of the installation, on the log that is left. *)
Lemma snapshot_finish e e1 e2 id :
  let l1 := RaftState_log_ids (Engine_state e1) in
  let e' := LogHandler_purge_log (update_purge_upto e2 id) in
  let st' := Engine_state e' in
  RaftState_log_ids (Engine_state e2) = l1 →
  (∃ m, commands e2 = commands e1 ++ [Command_StateMachine m]) →
  local_committed (Engine_state e2) = Some id →
  LogIdList_wf l1 → purgeable l1 id → LogIdList_purged l1 ≺ Some id →
  (LogIdList_first_index l1 ≤ LogId_index id)%N → store_follows e e1 →
  log_inv st' ∧ local_committed st' = Some id ∧ last_purged_log_id st' = Some id ∧
  purge_upto st' = Some id ∧ snapshot_last_log_id st' = snapshot_last_log_id (Engine_state e2) ∧
  LogIdList_ids (RaftState_log_ids st') =
    drop (N.to_nat (LogId_index id + 1 - LogIdList_first_index l1)) (LogIdList_ids l1) ∧
  store_follows e e'.
Proof.
  intros l1 e' st' Hl2 [m Hm] Hcom Hwf Hpur Hlt Hge Hstore.
  assert (e' = push (Command_PurgeLog id)
    (set_state (update_purge_upto e2 id)
      (RaftState_purge_log (Engine_state (update_purge_upto e2 id)) id))) as He'.
  { unfold e', LogHandler_purge_log.
    change (purge_upto (Engine_state (update_purge_upto e2 id))) with (Some id).
    destruct (leb_spec (Some id) (last_purged_log_id (Engine_state (update_purge_upto e2 id)))) as [Hc|];
      [|done]. exfalso. unfold last_purged_log_id in Hc. cbn in Hc. rewrite Hl2 in Hc.
    apply (ord_lt_irrefl (Some id)). by eapply ord_le_lt_trans. }
  destruct (LogIdList_purge_abs l1 id Hwf Hpur) as [Hwf' Habs].
  assert (RaftState_log_ids st' = LogIdList_purge l1 id) as Hl'
    by (unfold st'; rewrite He'; cbn; by rewrite Hl2).
  assert (spec_purge (LogIdList_abs l1) id = mkLogSpec (Some id)
    (drop (N.to_nat (LogId_index id + 1 - LogIdList_first_index l1)) (LogIdList_ids l1))) as Hsp.
  { unfold spec_purge. change (spec_first (LogIdList_abs l1)) with (LogIdList_first_index l1).
    destruct (ltb_spec (LogId_index id) (LogIdList_first_index l1)) as [Hc|]; [|done].
    rewrite N_ord_lt in Hc. lia. }
  rewrite Hsp in Habs. injection Habs as Hpurged Hids.
  assert (local_committed st' = Some id) as Hcom' by (unfold st'; by rewrite He').
  assert (last_purged_log_id st' = Some id) as Hp' by (unfold last_purged_log_id; by rewrite Hl').
  split_and!; try done.
  - split; [by rewrite Hl'| |rewrite Hp', Hcom'; apply ord_le_refl].
    intros c Hc. rewrite Hcom' in Hc. injection Hc as <-. unfold get_log_id, ref_log_id. rewrite Hl'.
    by apply LogIdList_get_purged.
  - unfold st'. by rewrite He'.
  - unfold st'. by rewrite He'.
  - by rewrite Hl'.
  - apply (store_follows_trans _ e1); [done|].
    exists [Command_StateMachine m; Command_PurgeLog id]. split.
    + rewrite He'. unfold commands in *. cbn. unfold push_command. cbn. rewrite Hm.
      by rewrite <- (assoc_L (++)).
    + unfold foldl, store_step. fold l1. rewrite Hsp. unfold LogIdList_abs. fold st'. by rewrite Hl', Hpurged, Hids.
Qed.

(** ** Properties *)

(** C8: log matching: a follower that appends the entries of a consistent
    request then holds every one of them that is above its committed
    position, at its index.  When the request brings an entry the follower did
    not have, that entry is above the committed position, everything before it
    is untouched and the log ends with the request; otherwise the log does not
    change.  The committed position does not move, and the log invariant is
    preserved. *)
Theorem append_entries_log_matching leader_vote prev entries e :
  let st := Engine_state e in
  let st' := Engine_state (FollowingHandler_append_entries leader_vote prev entries e) in
  log_inv st → request_ok st prev (Entry_log_id <$> entries) →
  log_inv st' ∧ local_committed st' = local_committed st ∧
  (∀ ent, ent ∈ entries → (next_index (local_committed st) ≤ Entry_index ent)%N →
    get_log_id st' (Entry_index ent) = Some (Entry_log_id ent)) ∧
  match entries !! first_conflicting_index st entries with
  | Some ent => (next_index (local_committed st) ≤ Entry_index ent)%N ∧
      (∀ i, (i < Entry_index ent)%N → get_log_id st' i = get_log_id st i) ∧
      last_log_id st' = Entry_log_id <$> last entries
  | None => RaftState_log_ids st' = RaftState_log_ids st
  end.
Proof.
  intros st st' Hinv Hr.
  destruct (append_entries_cases leader_vote prev entries e) as (e1 & Hs & Hc & Hcase). fold st in Hs, Hcase.
  destruct (first_conflicting_index_spec st entries) as (Hlen & Hlo & _).
  destruct (entries !! first_conflicting_index st entries) as [ent|] eqn:He.
  - pose proof (same_log_inv _ _ Hs Hinv) as Hinv1. pose proof (same_log_request _ _ _ _ Hs Hr) as Hr1.
    destruct (append_after_conflict leader_vote prev entries ent e1 Hinv1 Hr1)
      as (Hwf & Hp & Hids & Ha & _); [by rewrite (same_log_conflict _ _ _ Hs)|].
    rewrite (same_log_conflict _ _ _ Hs), <- Hcase in *. fold st' in Hwf, Hp, Hids, Ha.
    destruct Hs as [Hl1 Ha1]. rewrite Hl1 in *. rewrite Ha1 in Ha.
    destruct (conflict_bounds _ _ _ _ Hinv Hr He) as (Hge & _).
    destruct (conflict_matching st st' prev entries ent) as (Hinv' & Hbefore & Hafter & Hlast);
      try done.
    split_and!; try done.
    + unfold local_committed. by rewrite Ha.
    + intros x Hx Hxge. apply list_elem_of_lookup in Hx as [j Hj].
      destruct (decide (j < first_conflicting_index st entries)) as [Hlt|Hnlt].
      * rewrite Hbefore; [apply has_log_id_above; [by eapply Hlo|done]|].
        by eapply entries_index; [apply Hr|..].
      * apply (Hafter j); [done|lia].
  - destruct Hcase as (Hst & _). unfold st'. rewrite Hst.
    pose proof (same_log_inv _ _ Hs Hinv) as Hinv1. destruct Hs as [Hl Ha].
    unfold local_committed, get_log_id, ref_log_id. rewrite Hl, Ha. split_and!; try done.
    intros x Hx Hge. apply has_log_id_above; [|done]. apply list_elem_of_lookup in Hx as [j Hj].
    apply (Hlo j); [|done]. apply lookup_lt_Some in Hj. apply lookup_ge_None in He. lia.
Qed.

(** C22: the log index of the engine is what the log storage will hold: the
    commands that [append_entries] and [ensure_log_consecutive] push,
    executed in order on the stored log, give exactly the log ids the engine
    keeps in memory. *)
Theorem follower_store_refinement leader_vote prev entries e :
  log_inv (Engine_state e) →
  (request_ok (Engine_state e) prev (Entry_log_id <$> entries) →
    store_follows e (FollowingHandler_append_entries leader_vote prev entries e)) ∧
  store_follows e (ensure_log_consecutive prev e).1.
Proof.
  intros Hinv. split; [by apply append_entries_store|].
  unfold ensure_log_consecutive. destruct prev as [p|]; [|by apply store_follows_refl].
  destruct (has_log_id (Engine_state e) p) eqn:Hh; [by apply store_follows_refl|].
  apply truncate_logs_store; [apply Hinv|]. pose proof (committed_bounds _ Hinv) as [? _].
  unfold has_log_id in Hh. change (RaftState_committed _) with (local_committed (Engine_state e)) in Hh.
  destruct (ltb_spec (LogId_index p) (next_index (local_committed (Engine_state e)))) as [|Hge]; [done|].
  rewrite N_ord_le in Hge. lia.
Qed.

(** A request whose previous log is missing or different is refused with
    that log id as the conflict, and the log from that index on is removed
    without touching a committed log; any other request is let through and
    changes nothing. *)
Theorem ensure_log_consecutive_spec prev e :
  let st := Engine_state e in
  let '(e', r) := ensure_log_consecutive prev e in
  let st' := Engine_state e' in
  log_inv st →
  match r with
  | Ok _ => e' = e ∧ ∀ p, prev = Some p → has_log_id st p = true
  | Err err => ∃ p, prev = Some p ∧ has_log_id st p = false ∧
      err = RejectAppendEntries_ConflictingLogId
              (mkConflictingLogId p (get_log_id st (LogId_index p))) ∧
      get_log_id st' (LogId_index p) = None ∧
      (∀ i, (i < LogId_index p)%N → get_log_id st' i = get_log_id st i) ∧
      (next_index (local_committed st) ≤ LogId_index p)%N ∧ log_inv st'
  end.
Proof.
  intros st. unfold ensure_log_consecutive. destruct prev as [p|]; [|done]. fold st.
  destruct (has_log_id st p) eqn:Hh; [naive_solver|]. cbn [negb]. intros Hinv. exists p.
  pose proof (committed_bounds _ Hinv) as [Hfc Hcl].
  assert (next_index (local_committed st) ≤ LogId_index p)%N as Hge.
  { unfold has_log_id in Hh. change (RaftState_committed _) with (local_committed st) in Hh.
    destruct (ltb_spec (LogId_index p) (next_index (local_committed st))) as [|Hge]; [done|].
    exact Hge. }
  destruct (truncate_logs_spec (LogId_index p) e (log_inv_wf _ Hinv) ltac:(fold st; lia))
    as (Hwf & Hids & Hp & Hio & _). fold st in Hwf, Hids, Hp, Hio.
  set (st' := Engine_state (truncate_logs _ e)) in *.
  assert (∀ i, (i < LogId_index p)%N → get_log_id st' i = get_log_id st i) as Hbefore.
  { intros i Hi. apply LogIdList_get_same; [apply Hinv|done|done|]. intros ?.
    rewrite Hids. apply lookup_take_lt. lia. }
  assert (local_committed st' = local_committed st) as Hcom
    by (unfold local_committed, apply_progress; by rewrite Hio).
  split_and!; try done.
  - unfold get_log_id, ref_log_id. rewrite LogIdList_get_spec by done.
    assert (LogIdList_first_index (RaftState_log_ids st') =
      LogIdList_first_index (RaftState_log_ids st)) as -> by (unfold LogIdList_first_index; by rewrite Hp).
    destruct (ltb_spec (LogId_index p) (LogIdList_first_index (RaftState_log_ids st))) as [Hc|_];
      [rewrite N_ord_lt in Hc; lia|].
    rewrite Hids. apply lookup_take_ge. lia.
  - split; [done| |].
    + intros c Hc. rewrite Hcom in Hc. rewrite Hbefore; [by apply Hinv|].
      destruct (LogIdList_get_bounds _ _ _ (log_inv_wf _ Hinv) (log_inv_committed _ Hinv _ Hc)).
      pose proof (next_index_in (LogIdList_last (RaftState_log_ids st))).
      rewrite Hc, next_index_some in Hge by lia. lia.
    + unfold last_purged_log_id. rewrite Hp, Hcom. apply Hinv.
Qed.

(** A follower takes over exactly the last two membership configurations
    among the entries it appends, in log order. *)
Theorem last_two_memberships_spec entries :
  let ms := omap (λ ent, mkStoredMembership (Some (Entry_log_id ent)) <$> Entry_get_membership ent)
              entries in
  last_two_memberships entries = drop (length ms - 2) ms.
Proof.
  intros ms. unfold last_two_memberships.
  rewrite (last_two_loop_spec entries ms []) by auto. by rewrite app_nil_r.
Qed.

(** Installing a snapshot that is ahead of the committed logs, of a leader
    that may own it: the snapshot becomes the committed, purged and snapshot
    position, local logs above it survive exactly when the local log agrees
    with it at its last index, and the log storage follows. *)
Theorem install_full_snapshot_installs leader_vote snapshot id e :
  let st := Engine_state e in
  SnapshotMeta_last_log_id (Snapshot_meta snapshot) = Some id →
  (LogId_index id + 1 < u64_modulus)%N →
  log_inv st → snapshot_last_log_id st ≼ local_committed st → local_committed st ≺ Some id →
  LogId_leader_id id ≼ CommittedVote_committed_leader_id leader_vote →
  (∀ c, local_committed st = Some c → (LogId_index c < LogId_index id)%N) →
  ∃ e', install_full_snapshot leader_vote snapshot e = Ret (Some (Condition_Snapshot id), e') ∧
    (let st' := Engine_state e' in
     log_inv st' ∧ local_committed st' = Some id ∧ last_purged_log_id st' = Some id ∧
     purge_upto st' = Some id ∧ snapshot_last_log_id st' = Some id ∧
     LogIdList_ids (RaftState_log_ids st') =
       (if decide (get_log_id st (LogId_index id) = Some id)
        then drop (N.to_nat (LogId_index id + 1 - LogIdList_first_index (RaftState_log_ids st)))
               (LogIdList_ids (RaftState_log_ids st))
        else []) ∧
     store_follows e e').
Proof.
  intros st Hid Hb Hinv Hsn Hcl Hlead Hidx. unfold install_full_snapshot. rewrite Hid. fold st.
  destruct (leb_spec (Some id) (local_committed st)) as [Hc|_].
  { exfalso. apply (ord_lt_irrefl (Some id)). by eapply ord_le_lt_trans. }
  cbn [unwrap mbind outcome_bind]. rewrite (proj2 (leb_true _ _) Hlead). cbn [assert mbind outcome_bind].
  assert ((match local_committed st with
    | Some committed => LogId_index id >? LogId_index committed | None => true end) = true) as ->.
  { destruct (local_committed st) as [c|]; [|done]. apply ltb_true, N_ord_lt. by apply Hidx. }
  cbn [assert mbind outcome_bind]. unfold update_snapshot. fold st. rewrite Hid.
  destruct (leb_spec (Some id) (snapshot_last_log_id st)) as [Hc|_].
  { exfalso. apply (ord_lt_irrefl (Some id)). eapply ord_le_lt_trans; [|done]. by eapply ord_le_trans. }
  cbn [negb].
  assert (next_index (local_committed st) ≤ LogId_index id)%N as Hge.
  { destruct (local_committed st) as [c|]; [|cbn; lia]. specialize (Hidx c eq_refl).
    rewrite next_index_some by lia. lia. }
  set (e0 := set_state e (set_snapshot_meta st (Snapshot_meta snapshot))).
  destruct (snapshot_truncate e0 id) as (Hwf & Hp & Hpur & Hids & Hio & Hstore);
    [by destruct Hinv; split|done|done|].
  set (e1 := match get_log_id (Engine_state e0) (LogId_index id) with Some _ => _ | None => e0 end) in *.
  assert (SnapshotMeta_last_log_id (RaftState_snapshot_meta (Engine_state e1)) = Some id) as Hsnap.
  { unfold e1. destruct (get_log_id (Engine_state e0) _) as [loc|]; [|done].
    destruct (decide (loc ≠ id)); [|done]. by rewrite truncate_logs_snapshot. }
  eexists. split; [done|]. cbn zeta.
  destruct (accept_snapshot_io_frame (mkLogIOId leader_vote (Some id)) id (Engine_state e1))
    as (Ha1 & Ha2 & Ha3).
  set (e2 := push _ _). destruct (snapshot_finish e e1 e2 id) as (H1 & H2 & H3 & H4 & H5 & H6 & H7).
  - unfold e2. by rewrite membership_install_snapshot_frame.
  - eexists. unfold e2. by rewrite membership_install_snapshot_frame.
  - unfold e2. by rewrite membership_install_snapshot_frame.
  - done.
  - done.
  - rewrite Hp. by eapply ord_le_lt_trans; [apply Hinv|].
  - unfold LogIdList_first_index. rewrite Hp. pose proof (committed_bounds _ Hinv) as [? _].
    unfold LogIdList_first_index in *. cbn. fold st. lia.
  - apply (store_follows_trans _ e0); [by apply store_follows_refl|done].
  - split_and!; try done.
    + rewrite H5. unfold e2. rewrite membership_install_snapshot_frame. unfold snapshot_last_log_id.
      etransitivity; [|exact Hsnap]. by rewrite <- Ha3.
    + etransitivity; [exact H6|]. etransitivity; [|exact Hids].
      unfold LogIdList_first_index. by rewrite Hp.
Qed.

(** A snapshot that is not ahead of the committed logs is ignored, and the
    handler panics exactly on a snapshot that no cluster following the
    protocol produces: one that its leader cannot own, or one that is ahead of
    the committed logs without having a greater index. *)
Theorem install_full_snapshot_refuses leader_vote snapshot e :
  let st := Engine_state e in
  let snap := SnapshotMeta_last_log_id (Snapshot_meta snapshot) in
  (snap ≼ local_committed st → install_full_snapshot leader_vote snapshot e = Ret (None, e)) ∧
  (install_full_snapshot leader_vote snapshot e = Panic ↔
    ∃ id, snap = Some id ∧ local_committed st ≺ Some id ∧
      (CommittedVote_committed_leader_id leader_vote ≺ LogId_leader_id id ∨
       ∃ c, local_committed st = Some c ∧ (LogId_index id ≤ LogId_index c)%N)).
Proof.
  intros st snap. unfold install_full_snapshot. fold st snap.
  destruct (leb_spec snap (local_committed st)) as [Hle|Hlt].
  { split; [done|]. split; [done|]. intros (id & Hid & Hlt & _). exfalso. rewrite Hid in Hle.
    apply (ord_lt_irrefl (Some id)). by eapply ord_le_lt_trans. }
  split. { intros Hle. exfalso. apply (ord_lt_irrefl snap). by eapply ord_le_lt_trans. }
  destruct snap as [id|]; [|by apply lt_is_Some in Hlt as [? [=]]]. cbn [unwrap mbind outcome_bind].
  destruct (leb_spec (LogId_leader_id id) (CommittedVote_committed_leader_id leader_vote)) as [Hld|Hld];
    cbn [assert mbind outcome_bind]; [|naive_solver].
  assert (∀ b : bool, (match local_committed st with
    | Some c => LogId_index id >? LogId_index c | None => true end) = b →
    b = false ↔ ∃ c, local_committed st = Some c ∧ (LogId_index id ≤ LogId_index c)%N) as Hb.
  { intros b <-. destruct (local_committed st) as [c|]; [|naive_solver]. rewrite ltb_false, N_ord_le.
    naive_solver. }
  destruct (match local_committed st with Some c => _ | None => true end) eqn:E;
    specialize (Hb _ eq_refl); cbn [assert mbind outcome_bind].
  - split; [by destruct (update_snapshot e (Snapshot_meta snapshot)) as [e1 []]|].
    intros (id' & [= <-] & _ & [Hc|Hc]); [|by apply Hb in Hc].
    exfalso. apply (ord_lt_irrefl (LogId_leader_id id)). by eapply ord_le_lt_trans.
  - split; [|done]. intros _. exists id. split_and!; [done|done|right]. by apply Hb.
Qed.
End following.

(** ** Witnesses *)

Module FollowingWitness.
#[local] Existing Instance adv_config.
Import LogIdListWitness MembershipWitness RaftStateWitness ProgressEntryWitness.

Definition node : Engine := Engine_new follower engine_config.
Definition leader31 : CommittedVote := CommittedVote_new (C := adv_config) (LeaderIdAdv.mk 3 1).

(** A leader of term 3 that replaces the entries from index 5 on. *)
Definition new_entries : list Entry :=
  [Entry_new_blank (lid 1 1 4); Entry_new_blank (lid 3 1 5); Entry_new_blank (lid 3 1 6)].

Lemma follower_log_inv : log_inv follower.
Proof.
  split; [apply sample_wf| |vm_compute; done].
  intros c Hc. vm_compute in Hc. injection Hc as <-. vm_compute. reflexivity.
Defined.

Lemma new_request_ok : request_ok follower (Some (lid 1 1 3)) (Entry_log_id <$> new_entries).
Proof.
  split.
  - cbn. split_and!; try (vm_compute; done); intros p [= <-]; vm_compute; done.
  - intros p [= <-]. vm_compute. reflexivity.
  - intros x y [[= <-]|Hx] Hlt Hy; [vm_compute in Hy; by injection Hy as <-|].
    exfalso. cbn in Hx. repeat setoid_rewrite elem_of_cons in Hx. vm_compute in Hlt.
    destruct Hx as [-> |[-> |[-> |Hx]]]; [done..|by apply elem_of_nil in Hx].
Defined.

Lemma append_entries_log_matching_witness :
  let st' := Engine_state (FollowingHandler_append_entries leader31 (Some (lid 1 1 3)) new_entries node) in
  last_log_id st' = Some (lid 3 1 6) ∧ get_log_id st' 3 = get_log_id follower 3.
Proof.
  destruct (append_entries_log_matching leader31 (Some (lid 1 1 3)) new_entries node
    follower_log_inv new_request_ok) as (_ & _ & _ & _ & Hc & Hl).
  split; [exact Hl|by apply Hc].
Defined.

Lemma follower_store_refinement_witness :
  store_follows node (FollowingHandler_append_entries leader31 (Some (lid 1 1 3)) new_entries node).
Proof.
  apply (follower_store_refinement leader31 (Some (lid 1 1 3)) new_entries node follower_log_inv).
  apply new_request_ok.
Defined.

Lemma ensure_log_consecutive_spec_witness :
  log_inv (Engine_state (ensure_log_consecutive (Some (lid 3 1 5)) node).1).
Proof.
  pose proof (ensure_log_consecutive_spec (Some (lid 3 1 5)) node) as H.
  destruct (ensure_log_consecutive (Some (lid 3 1 5)) node) as [e' r] eqn:E. cbn [fst].
  specialize (H follower_log_inv). destruct r as [u|err].
  - vm_compute in E. discriminate E.
  - destruct H as (_ & _ & _ & _ & _ & _ & _ & H). exact H.
Defined.

Definition snapshot9 : Snapshot :=
  mkSnapshot (mkSnapshotMeta (Some (lid 2 3 9)) (mkStoredMembership (Some (lid 1 1 4)) m1234))
    tt.

Lemma install_full_snapshot_installs_witness :
  ∃ e', install_full_snapshot leader31 snapshot9 node = Ret (Some (Condition_Snapshot (lid 2 3 9)), e') ∧
    local_committed (Engine_state e') = Some (lid 2 3 9).
Proof.
  destruct (install_full_snapshot_installs leader31 snapshot9 (lid 2 3 9) node) as (e' & H & _ & Hc & _).
  - done.
  - vm_compute. reflexivity.
  - apply follower_log_inv.
  - vm_compute. done.
  - vm_compute. done.
  - vm_compute. done.
  - intros c Hc. vm_compute in Hc. injection Hc as <-. vm_compute. reflexivity.
  - exists e'. by split.
Defined.

Lemma install_full_snapshot_refuses_witness :
  install_full_snapshot leader31 (mkSnapshot (RaftState_snapshot_meta follower) tt) node =
    Ret (None, node).
Proof.
  apply (install_full_snapshot_refuses leader31 (mkSnapshot (RaftState_snapshot_meta follower) tt) node).
  vm_compute. done.
Defined.
End FollowingWitness.
