(* ===== verification/LeaderHandler.v ===== *)
(** * The leader handler

    [engine/handler/leader_handler/mod.rs] and
    [raft/linearizable_read/read_log_id.rs]: appending entries as a leader,
    heartbeats, the log id of a linearizable read and the transfer of
    leadership. *)

From S2P Require Import Prelude Vote LogId LogIdList Quorum Membership VecProgress IOState.
From S2P Require Import MembershipState Entry RaftState Config ProgressEntry Proposer Command.
From S2P Require Import Engine Replication Following.

Section leader_handler.
Context {C : RaftTypeConfig}.

(** [is_lease_valid]; the source reads the clock only when the leader alone
    is not a quorum. *)
Definition LeaderHandler_is_lease_valid `{!Env} : M bool :=
  c ← gets Engine_config;
  l ← the_leader;
  t ← now;
  lift (is_lease_valid l (leader_lease (EngineConfig_timer_config c)) t).

(** The entries of a batch: payloads with the ids assigned to them. *)
Definition batch_entries (payloads : list EntryPayload) (log_ids : list LogId) : list Entry :=
  zip_with (λ payload log_id, mkEntry log_id payload) payloads log_ids.

(** The membership entry of a batch: a later one replaces an earlier one. *)
Definition membership_entry (entries : list Entry) : option (LogId * Membership) :=
  last (omap (λ ent, pair (Entry_log_id ent) <$> Entry_get_membership ent) entries).

(** [leader_append_entries] *)
Definition leader_append_entries (payloads : list EntryPayload) : M (option LeaderLogIds) :=
  l ← the_leader;
  let '(l, assigned) := assign_log_ids l (N.of_nat (length payloads)) in
  put_leader l;;
  match assigned with
  | None => mret None
  | Some log_ids =>
      let ids := LeaderLogIds_ids log_ids in
      let entries := batch_entries payloads ids in
      let io := IOId_new_log_io (Leader_committed_vote l) (Leader_last_log_id l) in
      modify (λ e, set_state e (extend_log_ids_from_same_leader (Engine_state e) ids));;
      modify (λ e, set_state e (accept_log_io (Engine_state e) io).1);;
      modify (push (Command_AppendEntries (Leader_committed_vote l) entries));;
      match membership_entry entries with
      | Some (log_id, m) => ReplicationHandler_append_membership log_id m
      | None => mret tt
      end;;
      initiate_replication;;
      mret (Some log_ids)
  end.

(** [send_heartbeat] *)
Definition send_heartbeat (bypass_min_interval : bool) : M unit :=
  e ← get;
  l ← the_leader;
  let membership_log_id := effective_log_id (RaftState_membership_state (Engine_state e)) in
  let session_id := mkReplicationSessionId (Leader_committed_vote l) membership_log_id in
  modify (push (Command_BroadcastHeartbeat session_id bypass_min_interval)).

(** [ReadLogId::new] *)
Definition ReadLogId_new (noop_log_id : LogId) (committed : option LogId) : LogId :=
  match committed with
  | Some committed => omax noop_log_id committed
  | None => noop_log_id
  end.

(** [get_read_log_id] *)
Definition get_read_log_id : M LogId :=
  e ← get;
  l ← the_leader;
  mret (ReadLogId_new (Leader_noop_log_id l) (local_committed (Engine_state e))).

(** [transfer_leader] *)
Definition transfer_leader (to : u64) : M unit :=
  l ← the_leader;
  let l := mark_transfer l to in
  put_leader l;;
  modify (λ e, set_state e (set_vote (Engine_state e)
                 (Leased_disable_lease (RaftState_vote (Engine_state e)))));;
  modify (push (Command_BroadcastTransferLeader
    (mkTransferLeaderRequest (CommittedVote_into_vote (Leader_committed_vote l)) to
       (Leader_last_log_id l)))).

(** ** Lemmas *)

Context `{!RaftLeaderIdLaws C}.
Implicit Types (w : World) (l : Leader) (st : RaftState).

(** The log of a leader that appends. *)
Lemma extend_last st ids :
  let st' := set_log_ids st (LogIdList_extend (RaftState_log_ids st) ids) in
  LogIdList_wf (RaftState_log_ids st) → follows (last_log_id st) ids →
  next_index (last_log_id st') = (next_index (last_log_id st) + N.of_nat (length ids))%N ∧
  (ids ≠ [] → last_log_id st' = last ids).
Proof.
  intros st' Hwf Hf. set (l := RaftState_log_ids st) in *.
  destruct (LogIdList_extend_spec l ids Hwf Hf) as [Hwf' Hids].
  assert (LogIdList_first_index (LogIdList_extend l ids) = LogIdList_first_index l) as Hfi
    by (unfold LogIdList_first_index; by rewrite LogIdList_extend_purged).
  change (last_log_id st') with (LogIdList_last (LogIdList_extend l ids)).
  change (last_log_id st) with (LogIdList_last l). split.
  - pose proof (LogIdList_ids_length _ Hwf') as Hlen. pose proof (LogIdList_first_le_last _ Hwf').
    pose proof (LogIdList_first_le_last _ Hwf). rewrite Hids, length_app, LogIdList_ids_length in Hlen by done.
    rewrite Hfi in *. lia.
  - intros Hne. rewrite LogIdList_last_spec, Hids, last_app by done.
    destruct (last ids) eqn:E; [done|]. by apply last_None in E.
Qed.

(** A target that can be served stays so when the leader appends. *)
Lemma sendable_extend item st st' max_entries ids :
  RaftState_log_ids st' = LogIdList_extend (RaftState_log_ids st) ids →
  RaftState_purge_upto st' = RaftState_purge_upto st →
  sendable item st max_entries → follows (last_log_id st) ids →
  (next_index (last_log_id st) + N.of_nat (length ids) + max_entries < u64_modulus)%N →
  sendable item st' max_entries.
Proof.
  intros Hl' Hpu [Hidle Hwf Hp [Hm _] Hmat Hse] Hf Hb. set (l := RaftState_log_ids st) in *.
  destruct (LogIdList_extend_spec l ids Hwf Hf) as [Hwf' Hids].
  pose proof (LogIdList_extend_purged l ids) as Hpur.
  assert (LogIdList_first_index (LogIdList_extend l ids) = LogIdList_first_index l) as Hfi
    by (unfold LogIdList_first_index; by rewrite Hpur).
  destruct (extend_last st ids Hwf Hf) as [Hn _].
  assert (last_log_id st' = last_log_id (set_log_ids st (LogIdList_extend l ids))) as Hlast
    by (unfold last_log_id; by rewrite Hl').
  fold l in Hn. rewrite <- Hlast in Hn.
  split; try done; [by rewrite Hl'|rewrite Hl', Hfi, Hn; unfold purge_upto in *; rewrite Hpu; lia
    |rewrite Hn; lia| |rewrite Hn; lia].
  destruct (ProgressEntry_matching item) as [x|]; [|done]. destruct Hmat as [Hx|(p & Hp' & Hle)].
  - left. rewrite <- Hx. unfold get_log_id, ref_log_id. rewrite Hl'. fold l.
    apply LogIdList_get_same; try done. intros Hge. rewrite Hids.
    apply lookup_app_l. rewrite LogIdList_ids_length by done.
    destruct (LogIdList_get_bounds _ _ _ Hwf Hx). lia.
  - right. exists p. unfold last_purged_log_id in *. rewrite Hl'. fold l. by rewrite Hpur.
Qed.

Lemma batch_entries_ids payloads ids :
  length ids = length payloads → Entry_log_id <$> batch_entries payloads ids = ids.
Proof.
  revert ids. induction payloads as [|p payloads IH]; intros [|x ids]; cbn; try done.
  intros [= Hlen]. f_equal. by apply IH.
Qed.

Lemma no_membership_entry payloads ids :
  Forall (λ p, EntryPayload_get_membership p = None) payloads →
  membership_entry (batch_entries payloads ids) = None.
Proof.
  intros Hp. unfold membership_entry. replace (omap _ _) with (@nil (LogId * Membership)); [done|].
  revert ids. induction Hp as [|p payloads Hp _ IH]; intros [|x ids]; cbn; try done.
  unfold Entry_get_membership. cbn. rewrite Hp. cbn. apply IH.
Qed.

(** ** Properties *)

(** A leader that appends a batch without membership change never panics:
    the entries get consecutive log ids of its term right after its last log,
    the log index is extended by them, the entries are sent to the store
    before any replication request, every idle target is served, and the last
    log id of the leader stays that of the log. *)
Theorem leader_append_entries_spec payloads w l :
  let e := w_engine w in
  let st := Engine_state e in
  let max_entries := EngineConfig_max_payload_entries (Engine_config e) in
  let cv := Leader_committed_vote l in
  Engine_leader e = Some l → Leader_last_log_id l = last_log_id st →
  payloads ≠ [] → Forall (λ p, EntryPayload_get_membership p = None) payloads →
  LogIdList_wf (RaftState_log_ids st) →
  (next_index (last_log_id st) + N.of_nat (length payloads) + max_entries < u64_modulus)%N →
  (∀ x, last_log_id st = Some x → LogId_leader_id x ≼ CommittedVote_committed_leader_id cv) →
  (∀ item, item ∈ VecProgress_entries (Leader_progress l) → ProgressEntry_id item ≠ Engine_id e →
    inflight item ≠ Inflight_None ∨ sendable item st max_entries) →
  ∃ r w' l' cmds, leader_append_entries payloads w = Ret (Some r, w') ∧
    let ids := LeaderLogIds_ids r in
    let st' := Engine_state (w_engine w') in
    length ids = length payloads ∧ follows (last_log_id st) ids ∧
    (∀ x, x ∈ ids → LogId_leader_id x = CommittedVote_committed_leader_id cv) ∧
    RaftState_log_ids st' = LogIdList_extend (RaftState_log_ids st) ids ∧
    commands (w_engine w') =
      commands e ++ [Command_AppendEntries cv (batch_entries payloads ids)] ++ cmds ∧
    Forall (λ c, is_replicate c = true) cmds ∧
    Engine_leader (w_engine w') = Some l' ∧ Leader_last_log_id l' = last_log_id st' ∧
    Forall2 (served (Engine_id e)) (VecProgress_entries (Leader_progress l))
      (VecProgress_entries (Leader_progress l')).
Proof.
  intros e st max_entries cv Hl Hlast Hne Hnm Hwf Hb Hlead Hsend. unfold leader_append_entries.
  rewrite M_bind_eq, (the_leader_eq _ _ Hl).
  assert (0 < N.of_nat (length payloads))%N by (destruct payloads; cbn; [done|lia]).
  destruct (assign_log_ids_consecutive l (N.of_nat (length payloads))) as (r & Hr & Hlen & Hf & Hl1 & Hcl);
    [done|rewrite Hlast; lia|by rewrite Hlast|].
  destruct (assign_log_ids l _) as [l1 assigned]. cbn in Hr, Hl1. subst l1 assigned.
  rewrite Nat2N.id in Hlen. rewrite Hlast in Hf. unfold put_leader. m_steps.
  rewrite (no_membership_entry _ _ Hnm). m_steps.
  set (ids := LeaderLogIds_ids r) in *.
  match goal with |- context [initiate_replication ?w1] => set (w1' := w1) end.
  assert (RaftState_log_ids (Engine_state (w_engine w1')) = LogIdList_extend (RaftState_log_ids st) ids) as Hlog.
  { unfold w1'. cbn [w_engine]. etransitivity; [apply accept_log_io_same|].
    by apply (LogIdList_extend_from_same_leader_eq _ _ (CommittedVote_committed_leader_id cv)). }
  destruct (initiate_replication_ok w1' (Leader_set_last_log_id l (last ids)))
    as (w' & l' & cmds & Hw' & Hl' & Hprog & Hserved & Hcmd & Hrep & _ & n & Hst); [done|..].
  { intros item Hitem Hid. destruct (Hsend item Hitem Hid) as [?|Hs]; [by left|right].
    eapply sendable_extend; [exact Hlog| |exact Hs|done|by rewrite Hlen].
    unfold w1', accept_log_io. cbn. by destruct (pgtb _ _). }
  rewrite Hw'. m_steps. eexists r, w', l', cmds. split; [done|]. cbn zeta.
  rewrite Hst. split_and!; try done.
  - rewrite Hcmd. unfold w1', commands. cbn. by rewrite <- (assoc_L (++)).
  - rewrite Hprog. unfold last_log_id. cbn [Leader_last_log_id Leader_set_progress Leader_set_last_log_id].
    change (RaftState_log_ids (set_last_inflight_id ?x n)) with (RaftState_log_ids x). rewrite Hlog.
    destruct (extend_last st ids Hwf Hf) as [_ Hla]. symmetry. apply Hla.
    intros Hnil. rewrite Hnil in Hlen. by destruct payloads.
Qed.
End leader_handler.

(** ** Witnesses *)

Module LeaderHandlerWitness.
#[local] Existing Instance adv_config.
Import LogIdListWitness RaftStateWitness ProgressEntryWitness ProposerWitness ReplicationWitness.

Lemma leader_append_entries_spec_witness :
  ∃ r w', leader_append_entries [EntryPayload_Blank; EntryPayload_Normal (C := adv_config) 7%N] two_nodes = Ret (Some r, w') ∧
    length (LeaderLogIds_ids r) = 2.
Proof.
  destruct (leader_append_entries_spec [EntryPayload_Blank; EntryPayload_Normal (C := adv_config) 7%N] two_nodes
    (Leader_set_progress leader51.1
       (set_entries (Leader_progress leader51.1) [ProgressEntry_empty 1 0 8; target])))
    as (r & w' & l' & cmds & H & Hlen & _).
  - done.
  - vm_compute. reflexivity.
  - done.
  - repeat constructor.
  - apply sample_wf.
  - vm_compute. reflexivity.
  - intros x Hx. vm_compute in Hx. injection Hx as <-. vm_compute. done.
  - intros item [-> | [-> | []%elem_of_nil]%elem_of_cons]%elem_of_cons Hid; [done|right].
    destruct target_sendable. split; try done.
  - exists r, w'. split; [exact H|exact Hlen].
Defined.
End LeaderHandlerWitness.
