(* ===== verification/VoteHandler.v ===== *)
(** * The vote handler and the establishment of a leader

    [engine/handler/vote_handler/mod.rs] and
    [engine/handler/establish_handler/mod.rs]: the vote of every incoming
    message, and how the node enters and leaves the leading state. *)

From S2P Require Import Prelude Vote LogId LogIdList Quorum Membership VecProgress IOState.
From S2P Require Import MembershipState Entry RaftState Config ProgressEntry Proposer Command.
From S2P Require Import Engine Replication Following LeaderHandler.

Section vote_handler.
Context {C : RaftTypeConfig} `{!Env}.

(** [become_leader] *)
Definition become_leader : M unit :=
  e ← get;
  match Engine_leader e with
  | Some l =>
      if decide (CommittedVote_leader_id (Leader_committed_vote l) =
                 Vote_leader_id (vote_ref (Engine_state e)))
      then
        put_leader (Leader_set_committed_vote l (Vote_to_committed (vote_ref (Engine_state e))));;
        modify update_server_state_if_changed;;
        mret true
      else mret false
  | None => mret false
  end ≫= λ same_leader : bool,
  if same_leader then mret tt
  else
    t ← now;
    e ← get;
    let '(leader, st) := new_leader (Engine_state e) t in
    modify (λ e, set_leader (set_state e st) (Some leader));;
    let leader_vote := Leader_committed_vote leader in
    let last_log_id := Leader_last_log_id leader in
    let noop_log_id := Leader_noop_log_id leader in
    modify (λ e, set_state e
      (accept_log_io (Engine_state e) (IOId_new_log_io leader_vote last_log_id)).1);;
    modify (push (Command_UpdateIOProgress None (IOId_new_log_io leader_vote last_log_id)));;
    modify update_server_state_if_changed;;
    rebuild_replication_streams true;;
    if (last_log_id <? Some noop_log_id) then
      leader_append_entries [EntryPayload_Blank];;
      mret tt
    else initiate_replication.

(** [become_following] *)
Definition become_following (e : Engine) : Engine :=
  let had_leading_state :=
    match Engine_leader e, Engine_candidate e, Engine_pre_candidate e with
    | None, None, None => false
    | _, _, _ => true
    end in
  let e := set_pre_candidate (set_candidate (set_leader e None) None) None in
  let e := prepend Command_FailPendingReads e in
  let e := if had_leading_state then push Command_CloseReplicationStreams e else e in
  update_server_state_if_changed e.

(** [update_internal_server_state] *)
Definition update_internal_server_state : M unit :=
  e ← get;
  if RaftState_is_leader (Engine_state e) (Engine_id e) then become_leader
  else if is_leading (Engine_state e) (Engine_id e) then mret tt
  else modify become_following.

(** [update_vote] *)
Definition update_vote (vote : Vote) : M (result unit RejectVote) :=
  e ← get;
  if pgeb vote (vote_ref (Engine_state e)) then
    let lease := if Vote_is_committed vote
                 then leader_lease (EngineConfig_timer_config (Engine_config e)) else 0%N in
    t ← now;
    (if pgtb vote (vote_ref (Engine_state e)) then
       modify (λ e,
         let st := Engine_state e in
         let st := set_vote st (Leased_update (RaftState_vote st) t lease vote) in
         let st := (accept_log_io st (IOId_new vote)).1 in
         push (Command_SaveVote vote) (set_state e st))
     else
       modify (λ e,
         let st := Engine_state e in
         set_state e (set_vote st (Leased_touch (RaftState_vote st) t lease))));;
    update_internal_server_state;;
    mret (Ok tt)
  else mret (Err (mkRejectVote (vote_ref (Engine_state e)))).

(** [accept_vote]: [f] builds the response to a rejected vote; the result says
    whether the vote is accepted. *)
Definition accept_vote (vote : Vote) (f : RaftState → RejectVote → Respond) : M bool :=
  r ← update_vote vote;
  match r with
  | Err err =>
      modify (λ e,
        let st := Engine_state e in
        push (Command_Respond (Some (Condition_IOFlushed (IOId_new (vote_ref st)))) (f st err)) e);;
      mret false
  | Ok _ => mret true
  end.

(** [EstablishHandler::establish] *)
Definition establish (candidate : Candidate) : M (option Leader) :=
  e ← get;
  if (match Engine_leader e with
      | Some l => negb (pgtb (Candidate_vote candidate)
                          (CommittedVote_into_vote (Leader_committed_vote l)))
      | None => false
      end)
  then mret None
  else
    t ← now;
    let '(leader, g) := into_leader candidate (RaftState_progress_id_gen (Engine_state e)) t in
    modify (λ e, set_state (set_leader e (Some leader)) (set_progress_id_gen (Engine_state e) g));;
    mret (Some leader).

(** ** Lemmas *)

Context `{!RaftLeaderIdLaws C}.
Implicit Types (vote : Vote) (e : Engine) (w : World).

Definition had_leading_state e : bool :=
  match Engine_leader e, Engine_candidate e, Engine_pre_candidate e with
  | None, None, None => false
  | _, _, _ => true
  end.

Lemma become_following_eq e :
  let e' := become_following e in
  commands e' = Command_FailPendingReads :: commands e ++
    (if had_leading_state e then [Command_CloseReplicationStreams] else []) ∧
  Engine_leader e' = None ∧ Engine_candidate e' = None ∧ Engine_pre_candidate e' = None ∧
  Engine_config e' = Engine_config e ∧
  Engine_state e' = set_server_state (Engine_state e)
    (calc_server_state (Engine_state e) (Engine_id e)).
Proof.
  unfold become_following. fold (had_leading_state e). rewrite update_server_state_eq.
  destruct (had_leading_state e); unfold commands; cbn; rewrite ?app_nil_r; done.
Qed.

(** The node after the vote is stored: the vote, the lease and the I/O. *)
Definition stored_vote vote (t : Instant) e : Engine :=
  let st := Engine_state e in
  let lease := if Vote_is_committed vote
               then leader_lease (EngineConfig_timer_config (Engine_config e)) else 0%N in
  if pgtb vote (vote_ref st) then
    push (Command_SaveVote vote)
      (set_state e (accept_log_io (set_vote st (Leased_update (RaftState_vote st) t lease vote))
        (IOId_new vote)).1)
  else set_state e (set_vote st (Leased_touch (RaftState_vote st) t lease)).

Lemma stored_vote_spec vote t e :
  let e1 := stored_vote vote t e in
  let st1 := Engine_state e1 in
  pgeb vote (vote_ref (Engine_state e)) = true →
  vote_ref st1 = vote ∧
  commands e1 = commands e ++
    (if pgtb vote (vote_ref (Engine_state e)) then [Command_SaveVote vote] else []) ∧
  RaftState_log_ids st1 = RaftState_log_ids (Engine_state e) ∧
  apply_progress st1 = apply_progress (Engine_state e) ∧
  RaftState_membership_state st1 = RaftState_membership_state (Engine_state e) ∧
  Engine_config e1 = Engine_config e ∧ Engine_leader e1 = Engine_leader e ∧
  Engine_candidate e1 = Engine_candidate e ∧ Engine_pre_candidate e1 = Engine_pre_candidate e ∧
  (∀ a, accepted_log_io st1 = Some a → accepted_log_io (Engine_state e) = Some a ∨ a = IOId_new vote).
Proof.
  cbn zeta. intros Hge. unfold stored_vote.
  destruct (pgtb vote (vote_ref (Engine_state e))) eqn:Hgt.
  - unfold accept_log_io. cbn. destruct (pgtb (Some (IOId_new vote)) _); split_and!; try done.
    + intros a [= <-]. by right.
    + by left.
  - rewrite pgeb_flip, pleb_true in Hge. rewrite pgtb_flip in Hgt.
    destruct Hge as [Hge|Heq]; [congruence|]. cbn. rewrite app_nil_r. split_and!; try done. by left.
Qed.

Lemma update_vote_eq vote w :
  update_vote vote w =
    if pgeb vote (vote_ref (Engine_state (w_engine w))) then
      match update_internal_server_state
              (mkWorld (stored_vote vote (clock (w_clock_reads w)) (w_engine w))
                 (S (w_clock_reads w)) (w_random_draws w)) with
      | Ret (_, w') => Ret (Ok tt, w')
      | Panic => Panic
      end
    else Ret (Err (mkRejectVote (vote_ref (Engine_state (w_engine w)))), w).
Proof.
  unfold update_vote, stored_vote. m_steps. destruct (pgeb _ _); [|done]. rewrite M_bind_eq.
  unfold now at 1. cbn [w_engine]. destruct (pgtb _ _); m_steps;
    (destruct (update_internal_server_state _) as [[[] w']|]; done).
Qed.

(** The node does not follow any other node: it belongs to the cluster and the
    vote is its own. *)
Definition own_vote e vote : bool :=
  MembershipState_contains (RaftState_membership_state (Engine_state e)) (Engine_id e) &&
  bool_decide (Vote_leader_node_id vote = Engine_id e).

(** The effect of an accepted vote on a node that does not become leader. *)
Definition vote_accepted vote e e' : Prop :=
  let st := Engine_state e in
  let st' := Engine_state e' in
  let save := if pgtb vote (vote_ref st) then [Command_SaveVote vote] else [] in
  vote_ref st' = vote ∧ RaftState_log_ids st' = RaftState_log_ids st ∧
  apply_progress st' = apply_progress st ∧
  RaftState_membership_state st' = RaftState_membership_state st ∧
  Engine_config e' = Engine_config e ∧
  (∀ a, accepted_log_io st' = Some a → accepted_log_io st = Some a ∨ a = IOId_new vote) ∧
  if own_vote e vote then
    commands e' = commands e ++ save ∧ Engine_leader e' = Engine_leader e ∧
    Engine_candidate e' = Engine_candidate e ∧ Engine_pre_candidate e' = Engine_pre_candidate e
  else
    commands e' = Command_FailPendingReads :: commands e ++ save ++
      (if had_leading_state e then [Command_CloseReplicationStreams] else []) ∧
    Engine_leader e' = None ∧ Engine_candidate e' = None ∧ Engine_pre_candidate e' = None.

Lemma update_vote_accepted vote w :
  let e := w_engine w in
  pgeb vote (vote_ref (Engine_state e)) = true →
  own_vote e vote && Vote_is_committed vote = false →
  ∃ w', update_vote vote w = Ret (Ok tt, w') ∧ vote_accepted vote e (w_engine w').
Proof.
  intros e Hge Hnl. rewrite update_vote_eq. fold e. rewrite Hge.
  destruct (stored_vote_spec vote (clock (w_clock_reads w)) e Hge)
    as (Hv & Hc & Hl & Ha & Hm & Hcfg & Hle & Hca & Hpc & Hio).
  set (e1 := stored_vote vote _ e) in *.
  unfold update_internal_server_state. m_steps.
  assert (is_leading (Engine_state e1) (Engine_id e1) = own_vote e vote) as Hlead.
  { unfold is_leading, own_vote, Engine_id. by rewrite Hm, Hv, Hcfg. }
  unfold RaftState_is_leader. rewrite Hlead, Hv, Hnl. unfold vote_accepted.
  destruct (own_vote e vote).
  - eexists. split; [done|]. cbn [w_engine]. split_and!; done.
  - rewrite modify_eq. eexists. split; [done|]. cbn [w_engine].
    destruct (become_following_eq e1) as (H1 & H2 & H3 & H4 & H5 & H6).
    assert (had_leading_state e1 = had_leading_state e) as Hh
      by (unfold had_leading_state; by rewrite Hle, Hca, Hpc).
    rewrite H6, H5. split_and!; try done.
    by rewrite H1, Hc, Hh, <- (assoc_L (++)).
Qed.

(** ** Properties *)

(** The vote check of every message: a vote that is not at least the local
    one is rejected with the local vote and without any effect; otherwise,
    when the node is not thereby a leader, the vote becomes the local vote,
    it is written to the store exactly when it is greater, the log and the
    committed position are untouched, and a node whose vote is now another
    node's gives up the leader and candidate states and closes its streams. *)
Theorem update_vote_spec vote w :
  let e := w_engine w in
  own_vote e vote && Vote_is_committed vote = false →
  if pgeb vote (vote_ref (Engine_state e)) then
    ∃ w', update_vote vote w = Ret (Ok tt, w') ∧ vote_accepted vote e (w_engine w')
  else update_vote vote w = Ret (Err (mkRejectVote (vote_ref (Engine_state e))), w).
Proof.
  intros e Hnl. destruct (pgeb vote (vote_ref (Engine_state e))) eqn:Hge.
  - by apply update_vote_accepted.
  - rewrite update_vote_eq. fold e. by rewrite Hge.
Qed.
End vote_handler.

(** ** Witnesses *)

Module VoteHandlerWitness.
#[local] Existing Instance adv_config.
Import LogIdListWitness RaftStateWitness ProgressEntryWitness FollowingWitness.

Definition env : Env := {| clock := λ n, (5000 + N.of_nat n)%N; random_range := λ _ lo _, lo |}.
#[local] Existing Instance env.

(** Node 3 hears of a candidate of term 6. *)
Lemma update_vote_spec_witness :
  ∃ w', update_vote (Vote_new (C := adv_config) 6 1) (mkWorld node 0 0) = Ret (Ok tt, w') ∧
    vote_ref (Engine_state (w_engine w')) = Vote_new (C := adv_config) 6 1.
Proof.
  pose proof (update_vote_spec (Vote_new (C := adv_config) 6 1) (mkWorld node 0 0) eq_refl) as H.
  destruct H as (w' & H & Hv & _). exists w'. split; [exact H|exact Hv].
Defined.
End VoteHandlerWitness.
