(* ===== verification/EngineImpl.v ===== *)
(** * The operations of the engine

    [engine/engine_impl.rs]: start-up, initialization, elections, the handling
    of votes, entries and snapshots, purging and the commands driven by I/O
    progress. *)

From S2P Require Import Prelude Vote LogId LogIdList Quorum Membership VecProgress IOState.
From S2P Require Import MembershipState Entry RaftState Config ProgressEntry Proposer Command.
From S2P Require Import Engine Replication Following LeaderHandler VoteHandler.

Section engine_impl.
Context {C : RaftTypeConfig} `{!Env}.

(** [RaftTerm::next] of [u64] *)
Definition Term_next (term : u64) : u64 := u64_add term 1.

(** ** Candidates *)

Definition create_candidate (vote : Vote) : M Candidate :=
  t ← now;
  st ← gets Engine_state;
  let membership :=
    StoredMembership_membership (MembershipState_effective (RaftState_membership_state st)) in
  mret (Candidate_new t vote (last_log_id st) membership (Membership_learner_ids membership)).

Definition new_candidate (vote : Vote) : M Candidate :=
  c ← create_candidate vote;
  modify (λ e, set_candidate e (Some c));;
  mret c.

Definition new_pre_candidate (vote : Vote) : M Candidate :=
  c ← create_candidate vote;
  modify (λ e, set_pre_candidate e (Some c));;
  mret c.

(** [EngineConfig::resample_election_timeout]: drawing from an empty range
    panics. *)
Definition Engine_resample_election_timeout : M unit :=
  c ← gets Engine_config;
  if (EngineConfig_election_timeout_min c <? EngineConfig_election_timeout_max c) then
    sample ← draw (EngineConfig_election_timeout_min c) (EngineConfig_election_timeout_max c);
    modify (λ e, set_config e (resample_election_timeout (Engine_config e) sample))
  else panic.

(** ** Start-up *)

Definition startup : M unit :=
  e ← get;
  let st := Engine_state e in
  let id := Engine_id e in
  if RaftState_is_leader st id && EngineConfig_enable_leader_restore (Engine_config e)
  then update_internal_server_state
  else
    (if RaftState_is_leader st id then
       t ← now;
       let uncommitted := UncommittedVote_into_vote (Vote_to_non_committed (vote_ref st)) in
       modify (λ e, set_state e (set_vote (Engine_state e)
                      (Leased_update (RaftState_vote (Engine_state e)) t 0 uncommitted)))
     else mret tt);;
    modify (λ e, set_state e (set_server_state (Engine_state e)
      (if MembershipState_is_voter (RaftState_membership_state (Engine_state e)) id
       then ServerState_Follower else ServerState_Learner))).

Definition check_initialize (st : RaftState) : result unit InitializeError :=
  if negb (is_initialized st) then Ok tt
  else Err (InitializeError_NotAllowed (last_log_id st) (vote_ref st)).

Definition check_members_contain_me (e : Engine) (m : Membership) : result unit InitializeError :=
  if negb (Membership_is_voter m (Engine_id e)) then
    Err (InitializeError_NotInMembers (Engine_id e) m)
  else Ok tt.

(** [initialize] *)
Definition Engine_initialize (membership : Membership) : M (result unit InitializeError) :=
  e ← get;
  match check_initialize (Engine_state e) with
  | Err err => mret (Err err)
  | Ok _ =>
      match check_members_contain_me e membership with
      | Err err => mret (Err err)
      | Ok _ =>
          let leader_id := LeaderId_new 0 (Engine_id e) in
          let vote := mkVote leader_id true in
          t ← now;
          modify (λ e, set_state e (set_vote (Engine_state e)
                         (Leased_update (RaftState_vote (Engine_state e)) t 0 vote)));;
          let entry := Entry_new_membership (mkLogId (LeaderId_to_committed leader_id) 0) membership in
          modify (do_append_entries (Vote_to_committed vote) [entry]);;
          mret (Ok tt)
      end
  end.

(** ** Elections *)

Definition do_elect (leadership_transfer : bool) : M unit :=
  modify (λ e, set_pre_candidate e None);;
  e ← get;
  match Engine_leader e with
  | Some _ => mret tt
  | None =>
      Engine_resample_election_timeout;;
      let new_term := Term_next (Vote_term (vote_ref (Engine_state e))) in
      let new_vote := mkVote (LeaderId_new new_term (Engine_id e)) false in
      candidate ← new_candidate new_vote;
      r ← update_vote new_vote;
      match r with
      | Err _ => panic
      | Ok _ =>
          modify (push (Command_SendVote
            (mkVoteRequest new_vote (Candidate_last_log_id candidate) leadership_transfer false)));;
          modify update_server_state_if_changed
      end
  end.

Definition elect : M unit := do_elect false.
Definition elect_by_leadership_transfer : M unit := do_elect true.

(** [pre_elect] *)
Definition pre_elect : M unit :=
  t ← now;
  e ← get;
  let leased_vote := RaftState_vote (Engine_state e) in
  if Vote_is_committed (Leased_data leased_vote) && negb (Leased_is_expired leased_vote t 0)
  then mret tt
  else
    Engine_resample_election_timeout;;
    let new_term := Term_next (Vote_term (vote_ref (Engine_state e))) in
    let pre_vote := mkVote (LeaderId_new new_term (Engine_id e)) false in
    pre_candidate ← new_pre_candidate pre_vote;
    let '(granted, quorum_granted) := grant_by pre_candidate (Engine_id e) in
    modify (λ e, set_pre_candidate e (Some granted));;
    if (quorum_granted : bool) then elect
    else modify (push (Command_SendPreVote
           (VoteRequest_new_pre_vote pre_vote (Candidate_last_log_id pre_candidate)))).

(** ** Vote requests *)

(** [is_leader_lease_valid]; the clock is read again for the lease of a
    leader. *)
Definition is_leader_lease_valid (t : Instant) (leadership_transfer : bool) : M bool :=
  if leadership_transfer then mret false
  else
    e ← get;
    let leased_vote := RaftState_vote (Engine_state e) in
    if Vote_is_committed (Leased_data leased_vote) && negb (Leased_is_expired leased_vote t 0)
    then mret true
    else
      match Engine_leader e with
      | Some l =>
          t' ← now;
          lift (is_lease_valid l (leader_lease (EngineConfig_timer_config (Engine_config e))) t')
      | None => mret false
      end.

Definition is_candidate_log_behind (st : RaftState) (candidate_last_log_id : option LogId) : bool :=
  candidate_last_log_id <? last_log_id st.

(** The response with the local vote and last log id. *)
Definition vote_response (granted : bool) : M VoteResponse :=
  st ← gets Engine_state;
  mret (VoteResponse_new (vote_ref st) (last_log_id st) granted).

Definition is_ok {A E : Type} (r : result A E) : bool :=
  match r with Ok _ => true | Err _ => false end.

Definition handle_vote_req (req : VoteRequest) : M VoteResponse :=
  t ← now;
  lease_valid ← is_leader_lease_valid t (VoteRequest_leadership_transfer req);
  if (lease_valid : bool) then vote_response false
  else
    st ← gets Engine_state;
    if is_candidate_log_behind st (VoteRequest_last_log_id req) then vote_response false
    else
      res ← update_vote (VoteRequest_vote req);
      vote_response (is_ok res).

Definition handle_pre_vote_req (req : VoteRequest) : M VoteResponse :=
  t ← now;
  lease_valid ← is_leader_lease_valid t (VoteRequest_leadership_transfer req);
  if (lease_valid : bool) then vote_response false
  else
    st ← gets Engine_state;
    if is_candidate_log_behind st (VoteRequest_last_log_id req) then vote_response false
    else vote_response (pgeb (VoteRequest_vote req) (vote_ref st)).

(** ** Vote responses *)

(** [establish_leader]; the result of [update_vote] is only debug-asserted. *)
Definition establish_leader : M unit :=
  e ← get;
  candidate ← lift (unwrap (Engine_candidate e));
  modify (λ e, set_candidate e None);;
  established ← establish candidate;
  match established with
  | None => mret tt
  | Some leader =>
      let vote := Leader_committed_vote leader in
      let last_log_id := Leader_last_log_id leader in
      modify (λ e, set_pre_candidate e None);;
      rebuild_replication_streams true;;
      update_vote (CommittedVote_into_vote vote);;
      modify (λ e, set_state e (accept_log_io (Engine_state e) (IOId_new_log_io vote last_log_id)).1);;
      leader_append_entries [EntryPayload_Blank];;
      mret tt
  end.

Definition set_greater_log (e : Engine) : Engine := set_seen_greater_log e true.
Definition reset_greater_log (e : Engine) : Engine := set_seen_greater_log e false.

Definition handle_rejected_vote_resp (resp : VoteResponse) (is_pre_vote : bool) : M unit :=
  modify (λ e, if (VoteResponse_last_log_id resp >? last_log_id (Engine_state e))
               then set_greater_log e else e);;
  st ← gets Engine_state;
  let should_update := if is_pre_vote then pgtb (VoteResponse_vote resp) (vote_ref st) else true in
  if should_update then
    update_vote (UncommittedVote_into_vote (Vote_to_non_committed (VoteResponse_vote resp)));;
    mret tt
  else mret tt.

Definition handle_vote_resp (target : u64) (resp : VoteResponse) : M unit :=
  e ← get;
  match Engine_candidate e with
  | None => mret tt
  | Some candidate =>
      if VoteResponse_vote_granted resp &&
         bool_decide (VoteResponse_vote resp = Candidate_vote candidate)
      then
        let '(candidate, quorum_granted) := grant_by candidate target in
        modify (λ e, set_candidate e (Some candidate));;
        if (quorum_granted : bool) then establish_leader else mret tt
      else handle_rejected_vote_resp resp false
  end.

Definition handle_pre_vote_resp (target : u64) (resp : VoteResponse) : M unit :=
  e ← get;
  match Engine_pre_candidate e with
  | None => mret tt
  | Some pre_candidate =>
      if VoteResponse_vote_granted resp then
        let '(pre_candidate, quorum_granted) := grant_by pre_candidate target in
        modify (λ e, set_pre_candidate e (Some pre_candidate));;
        if (quorum_granted : bool) then elect else mret tt
      else handle_rejected_vote_resp resp true
  end.

(** ** Entries and snapshots *)

Definition append_entries (vote : Vote) (segment : LogSegment) :
    M (result (option LogId) RejectAppendEntries) :=
  r ← update_vote vote;
  match r with
  | Err err => mret (Err (RejectAppendEntries_RejectVote err))
  | Ok _ =>
      e ← get;
      let leader_vote := Vote_to_committed (vote_ref (Engine_state e)) in
      let '(e, r) := ensure_log_consecutive (LogSegment_prev_log_id segment) e in
      modify (λ _, e);;
      match r with
      | Err err => mret (Err err)
      | Ok _ =>
          modify (FollowingHandler_append_entries leader_vote (LogSegment_prev_log_id segment)
                    (LogSegment_entries segment));;
          mret (Ok (LogSegment_last segment))
      end
  end.

Definition handle_append_entries (vote : Vote) (segment : LogSegment) (tx : Sender) : M unit :=
  r ← append_entries vote segment;
  let stream_result : StreamAppendResult :=
    match r with Ok last => Ok last | Err err => Err (StreamAppendError_from err) end in
  st ← gets Engine_state;
  condition ← lift (if is_ok stream_result
                    then io_id ← unwrap (accepted_log_io st); Ret (Some (Condition_IOFlushed io_id))
                    else Ret None);
  modify (push (Command_Respond condition (Respond_AppendEntries stream_result tx))).

Definition handle_install_full_snapshot (vote : Vote) (snapshot : Snapshot) (tx : Sender) : M unit :=
  accepted ← accept_vote vote
    (λ st _, Respond_InstallFullSnapshot (mkSnapshotResponse (vote_ref st)) tx);
  if negb accepted then mret tt
  else
    e ← get;
    let leader_vote := Vote_to_committed (vote_ref (Engine_state e)) in
    r ← lift (install_full_snapshot leader_vote snapshot e);
    let '(cond, e) := r in
    modify (λ _, e);;
    let res := mkSnapshotResponse (vote_ref (Engine_state e)) in
    modify (push (Command_Respond cond (Respond_InstallFullSnapshot res tx))).

Definition refresh_server_state : M unit := update_internal_server_state.

(** ** Snapshots and purging *)

Definition Engine_try_purge_log : M unit :=
  e ← get;
  match Engine_leader e with
  | Some _ => ReplicationHandler_try_purge_log
  | None => modify LogHandler_purge_log
  end.

Definition on_building_snapshot_done (meta : option SnapshotMeta) : M unit :=
  modify (λ e, set_state e (set_io_state (Engine_state e)
    (IOState_set_building_snapshot (RaftState_io_state (Engine_state e)) false)));;
  match meta with
  | None => mret tt
  | Some meta =>
      modify (λ e,
        match SnapshotMeta_last_log_id meta with
        | Some last_log_id =>
            let io := RaftState_io_state (Engine_state e) in
            set_state e (set_io_state (Engine_state e)
              (set_snapshot_progress io (IOProgress_try_update_all (IOState_snapshot io) last_log_id)))
        | None => e
        end);;
      e ← get;
      let '(e, updated) := update_snapshot e meta in
      modify (λ _, e);;
      if negb updated then mret tt
      else
        modify schedule_policy_based_purge;;
        Engine_try_purge_log
  end.

Definition trigger_purge_log (index : u64) : M unit :=
  e ← get;
  let st := Engine_state e in
  match snapshot_last_log_id st with
  | None => mret tt
  | Some snapshot_last_log_id =>
      let scheduled := purge_upto st in
      if (index <? next_index scheduled) then mret tt
      else
        let index := if (index >? LogId_index snapshot_last_log_id)
                     then LogId_index snapshot_last_log_id else index in
        log_id ← lift (unwrap (get_log_id st index));
        modify (λ e, update_purge_upto e log_id);;
        Engine_try_purge_log
  end.

Definition trigger_transfer_leader (to : u64) : M unit :=
  e ← get;
  match Engine_leader e with
  | Some _ => transfer_leader to
  | None => mret tt
  end.

(** [try_leader_handler]: the error of a node that is not a leader. *)
Definition try_leader_handler (e : Engine) : result Leader ForwardToLeader :=
  match Engine_leader e with
  | Some l => Ok l
  | None => Err (RaftState_forward_to_leader (Engine_state e))
  end.

(** [next_progress_driven_command]: votes are compared as [RefVote]s. *)
Definition next_progress_driven_command (e : Engine) : outcome (option Command) :=
  let ap := apply_progress (Engine_state e) in
  let lp := log_progress (Engine_state e) in
  if decide (IOId_to_app_vote <$> IOProgress_submitted lp = IOId_to_app_vote <$> IOProgress_accepted lp)
  then
    let apply_submitted := IOProgress_submitted ap in
    let apply_accepted := IOProgress_accepted ap in
    let log_submitted := (io_id ← IOProgress_submitted lp; IOId_last_log_id io_id) in
    let applicable_upto := omin log_submitted apply_accepted in
    if (next_index apply_submitted <? next_index applicable_upto) then
      upto ← unwrap applicable_upto;
      Ret (Some (Command_SaveCommittedAndApply apply_submitted upto))
    else Ret None
  else Ret None.

(** ** Lemmas *)

Context `{!RaftLeaderIdLaws C}.
Implicit Types (e : Engine) (st : RaftState) (w : World) (vote : Vote) (req : VoteRequest).

Lemma is_lease_valid_total l lease t : Leader_inv l → ∃ b, is_lease_valid l lease t = Ret b.
Proof.
  intros Hl. unfold is_lease_valid, is_self_quorum.
  case_decide as Hv; cbn; [eauto|]. pose proof (wf_count _ (inv_clock _ Hl)) as Hle.
  destruct (VecProgress_entries (Leader_clock_progress l)) as [|x xs]; cbn in *; [lia|eauto].
Qed.

(** Whether a node refuses every vote because it knows a live leader; [t] and
    [t'] are the two readings of the clock. *)
Definition lease_refuses e (t t' : Instant) (leadership_transfer b : bool) : Prop :=
  if leadership_transfer then b = false
  else if Vote_is_committed (vote_ref (Engine_state e)) &&
          negb (Leased_is_expired (RaftState_vote (Engine_state e)) t 0)
  then b = true
  else match Engine_leader e with
       | Some l =>
           is_lease_valid l (leader_lease (EngineConfig_timer_config (Engine_config e))) t' = Ret b
       | None => b = false
       end.

Lemma is_leader_lease_valid_spec w t transfer :
  let e := w_engine w in
  (∀ l, Engine_leader e = Some l → Leader_inv l) →
  ∃ b n, is_leader_lease_valid t transfer w = Ret (b, mkWorld e n (w_random_draws w)) ∧
    lease_refuses e t (clock (w_clock_reads w)) transfer b.
Proof.
  intros e Hl. unfold is_leader_lease_valid, lease_refuses. destruct transfer.
  { exists false, (w_clock_reads w). by destruct w. }
  m_steps. change (Leased_data (RaftState_vote (Engine_state (w_engine w)))) with
    (vote_ref (Engine_state e)). fold e.
  destruct (Vote_is_committed _ && _).
  { exists true, (w_clock_reads w). by destruct w. }
  destruct (Engine_leader e) as [l|]; [|exists false, (w_clock_reads w); by destruct w].
  rewrite M_bind_eq. unfold now. cbn [w_engine].
  destruct (is_lease_valid_total l (leader_lease (EngineConfig_timer_config (Engine_config e)))
    (clock (w_clock_reads w)) (Hl l eq_refl)) as [b Hb].
  rewrite Hb. exists b, (S (w_clock_reads w)). done.
Qed.

(** The local checks of a vote request: the answer they give, [None] when the
    vote itself decides. *)
Lemma handle_vote_req_checks req w :
  let e := w_engine w in
  (∀ l, Engine_leader e = Some l → Leader_inv l) →
  ∃ b n,
    lease_refuses e (clock (w_clock_reads w)) (clock (S (w_clock_reads w)))
      (VoteRequest_leadership_transfer req) b ∧
    (let w1 := mkWorld e n (w_random_draws w) in
     let refuse := b || is_candidate_log_behind (Engine_state e) (VoteRequest_last_log_id req) in
     handle_vote_req req w =
       (if refuse then vote_response false w1
        else (res ← update_vote (VoteRequest_vote req); vote_response (is_ok res)) w1) ∧
     handle_pre_vote_req req w =
       (if refuse then vote_response false w1
        else vote_response (pgeb (VoteRequest_vote req) (vote_ref (Engine_state e))) w1)).
Proof.
  intros e Hl. unfold handle_vote_req, handle_pre_vote_req. rewrite !M_bind_eq. unfold now.
  set (w0 := mkWorld (w_engine w) (S (w_clock_reads w)) (w_random_draws w)).
  destruct (is_leader_lease_valid_spec w0 (clock (w_clock_reads w))
    (VoteRequest_leadership_transfer req) Hl) as (b & n & Hb & Href).
  exists b, n. split; [exact Href|]. rewrite !M_bind_eq, Hb. cbn zeta.
  destruct b; [done|]. cbn [orb]. rewrite !(M_bind_eq (gets _)), !gets_eq. cbn [w_engine].
  subst w0. cbn [w_engine w_random_draws]. fold e.
  destruct (is_candidate_log_behind (Engine_state e) (VoteRequest_last_log_id req)); [done|].
  by rewrite ?M_bind_eq.
Qed.

(** A vote of a greater term is greater. *)
Lemma Vote_term_gt vote (t id : u64) :
  (Vote_term vote < t)%N → pgtb (mkVote (LeaderId_new t id) false) vote = true.
Proof.
  intros Ht. rewrite pgtb_flip. apply Vote_term_lt. unfold Vote_term at 2. cbn.
  by rewrite LeaderId_term_new.
Qed.

Lemma Engine_resample_spec w :
  let c := Engine_config (w_engine w) in
  (EngineConfig_election_timeout_min c < EngineConfig_election_timeout_max c)%N →
  ∃ c' n, Engine_resample_election_timeout w =
    Ret (tt, mkWorld (set_config (w_engine w) c') (w_clock_reads w) n) ∧
    EngineConfig_id c' = EngineConfig_id c.
Proof.
  intros c Hc. unfold Engine_resample_election_timeout. m_steps.
  rewrite (proj2 (ltb_true _ _)) by (by apply N_ord_lt). rewrite M_bind_eq. unfold draw. m_steps.
  by eexists _, _.
Qed.

(** The previous log of a request, when it is not a local log. *)
Definition missing_prev st (prev : option LogId) : option LogId :=
  p ← prev; if has_log_id st p then None else Some p.

Lemma ensure_log_consecutive_missing prev e :
  ensure_log_consecutive prev e =
    match missing_prev (Engine_state e) prev with
    | Some p => (truncate_logs (LogId_index p) e,
        Err (RejectAppendEntries_ConflictingLogId
          (mkConflictingLogId p (get_log_id (Engine_state e) (LogId_index p)))))
    | None => (e, Ok tt)
    end.
Proof. destruct prev as [p|]; [|done]. cbn. by destruct (has_log_id (Engine_state e) p). Qed.

Lemma same_log_missing st st' prev : same_log st st' → missing_prev st' prev = missing_prev st prev.
Proof. intros Hs. destruct prev as [p|]; [|done]. cbn. by rewrite (same_log_has _ _ _ Hs). Qed.

(** The accepted I/O after the follower took the entries. *)
Lemma append_entries_accepted vote prev entries e :
  Vote_is_committed vote = true →
  (∀ a, accepted_log_io (Engine_state e) = Some a → pleb (IOId_to_app_vote a) vote = true) →
  ∃ io, accepted_log_io (Engine_state
      (FollowingHandler_append_entries (Vote_to_committed vote) prev entries e)) = Some io ∧
    pleb (IOId_new_log_io (Vote_to_committed vote) (omax prev (Entry_log_id <$> last entries))) io = true.
Proof.
  intros Hc Ha. unfold accepted_log_io at 1, log_progress. rewrite append_entries_io.
  apply accept_log_io_reaches. intros a Hacc. cbn.
  replace (CommittedVote_into_vote (Vote_to_committed vote)) with vote; [by apply Ha|].
  destruct vote as [l []]; done.
Qed.

Lemma IOId_new_vote vote : IOId_to_app_vote (IOId_new vote) = vote.
Proof. by destruct vote as [l []]. Qed.

Lemma purge_log_upto e x :
  purge_upto (Engine_state e) = Some x → purge_upto (Engine_state (LogHandler_purge_log e)) = Some x.
Proof. intros Hp. unfold LogHandler_purge_log. destruct (_ <=? _); [done|]. by rewrite Hp. Qed.

Lemma try_purge_log_upto w x :
  purge_upto (Engine_state (w_engine w)) = Some x →
  ∃ w', Engine_try_purge_log w = Ret (tt, w') ∧ purge_upto (Engine_state (w_engine w')) = Some x.
Proof.
  intros Hp. unfold Engine_try_purge_log. m_steps. destruct (Engine_leader (w_engine w)) as [l|] eqn:El.
  - unfold ReplicationHandler_try_purge_log. m_steps. rewrite (the_leader_eq _ l) by done.
    rewrite Hp. destruct (_ <=? _); [by eexists|]. destruct (existsb _ _); [by eexists|].
    rewrite modify_eq. eexists. split; [done|]. by apply purge_log_upto.
  - rewrite modify_eq. eexists. split; [done|]. by apply purge_log_upto.
Qed.

(** ** Properties *)

(** C20: a vote is granted only if the leader lease does not forbid it (unless
    the leader itself asked for the transfer), the log of the candidate is not
    behind the local log and its vote is at least the local one; it is then
    the local vote, saved before the response.  A refused request changes
    nothing.  The response carries the vote and the last log of the node. *)
Theorem handle_vote_req_spec req w :
  let e := w_engine w in
  let st := Engine_state e in
  let vote := VoteRequest_vote req in
  own_vote e vote && Vote_is_committed vote = false →
  (∀ l, Engine_leader e = Some l → Leader_inv l) →
  ∃ resp w', handle_vote_req req w = Ret (resp, w') ∧
    VoteResponse_vote resp = vote_ref (Engine_state (w_engine w')) ∧
    VoteResponse_last_log_id resp = last_log_id st ∧
    if VoteResponse_vote_granted resp then
      lease_refuses e (clock (w_clock_reads w)) (clock (S (w_clock_reads w)))
        (VoteRequest_leadership_transfer req) false ∧
      last_log_id st ≼ VoteRequest_last_log_id req ∧ pgeb vote (vote_ref st) = true ∧
      vote_accepted vote e (w_engine w')
    else w_engine w' = e.
Proof.
  intros e st vote Hnl Hl.
  destruct (handle_vote_req_checks req w Hl) as (b & n & Href & -> & _). fold e st vote in Href |- *.
  set (w1 := mkWorld e n (w_random_draws w)). unfold is_candidate_log_behind.
  destruct b; cbn [orb]; [by eexists _, _|].
  destruct (ltb_spec (VoteRequest_last_log_id req) (last_log_id st)) as [Hlt|Hge]; [by eexists _, _|].
  rewrite M_bind_eq. destruct (pgeb vote (vote_ref st)) eqn:Hv.
  - destruct (update_vote_accepted vote w1 Hv Hnl) as (w' & -> & Hacc).
    unfold vote_response. m_steps. eexists _, _. split_and!; try done.
    unfold last_log_id. cbn. by rewrite (proj1 (proj2 Hacc)).
  - rewrite update_vote_eq. change (Engine_state (w_engine w1)) with st. rewrite Hv.
    unfold vote_response. m_steps. by eexists _, _.
Qed.

(** C27: a pre-vote changes nothing on the node that answers it, and predicts
    the real vote: it is granted exactly when a vote request with the same
    content would be granted. *)
Theorem pre_vote_predicts_vote req w :
  let e := w_engine w in
  let vote := VoteRequest_vote req in
  own_vote e vote && Vote_is_committed vote = false →
  (∀ l, Engine_leader e = Some l → Leader_inv l) →
  ∃ pre w1 resp w2, handle_pre_vote_req req w = Ret (pre, w1) ∧ w_engine w1 = e ∧
    handle_vote_req req w = Ret (resp, w2) ∧
    VoteResponse_vote_granted pre = VoteResponse_vote_granted resp.
Proof.
  intros e vote Hnl Hl.
  destruct (handle_vote_req_checks req w Hl) as (b & n & _ & -> & ->). fold e vote.
  set (w1 := mkWorld e n (w_random_draws w)).
  destruct (b || _); [by eexists _, _, _, _|].
  rewrite M_bind_eq. destruct (pgeb vote (vote_ref (Engine_state e))) eqn:Hv.
  - destruct (update_vote_accepted vote w1 Hv Hnl) as (w' & -> & _). by eexists _, _, _, _.
  - rewrite update_vote_eq. change (Engine_state (w_engine w1)) with (Engine_state e). rewrite Hv.
    by eexists _, _, _, _.
Qed.

(** Starting an election never panics and opens a campaign for the next
    term: the new vote is strictly greater than the old one and becomes the
    local vote, it is saved before the vote request is sent, the request
    carries the last log id, and the node is a candidate. *)
Theorem elect_starts_campaign leadership_transfer w :
  let e := w_engine w in
  let st := Engine_state e in
  let new_vote := mkVote (LeaderId_new (Vote_term (vote_ref st) + 1)%N (Engine_id e)) false in
  let c := Engine_config e in
  Engine_leader e = None →
  MembershipState_contains (RaftState_membership_state st) (Engine_id e) = true →
  (EngineConfig_election_timeout_min c < EngineConfig_election_timeout_max c)%N →
  (Vote_term (vote_ref st) + 1 < u64_modulus)%N →
  ∃ w' cand, do_elect leadership_transfer w = Ret (tt, w') ∧
    pltb (vote_ref st) new_vote = true ∧
    (let e' := w_engine w' in
     vote_ref (Engine_state e') = new_vote ∧
     RaftState_server_state (Engine_state e') = ServerState_Candidate ∧
     Engine_candidate e' = Some cand ∧ Candidate_vote cand = new_vote ∧
     commands e' = commands e ++ [Command_SaveVote new_vote;
       Command_SendVote (mkVoteRequest new_vote (last_log_id st) leadership_transfer false)]).
Proof.
  intros e st new_vote c Hl Hin Hto Ht. unfold do_elect. rewrite M_bind_eq, modify_eq, M_bind_eq, get_eq.
  cbn [w_engine]. change (Engine_leader (set_pre_candidate (w_engine w) None)) with (Engine_leader e).
  rewrite Hl, M_bind_eq.
  set (w0 := mkWorld (set_pre_candidate (w_engine w) None) (w_clock_reads w) (w_random_draws w)).
  destruct (Engine_resample_spec w0 Hto) as (c' & n & -> & Hid).
  unfold Term_next. rewrite u64_add_small by done. fold new_vote.
  change (mkVote (LeaderId_new _ _) false) with new_vote.
  unfold new_candidate, create_candidate. rewrite !M_bind_eq. unfold now. rewrite M_bind_eq, gets_eq, M_ret_eq.
  cbn [w_engine w_clock_reads]. rewrite M_bind_eq, modify_eq, M_ret_eq, M_bind_eq.
  set (cand := Candidate_new _ _ _ _ _). cbn [w_engine w_random_draws].
  assert (pgtb new_vote (vote_ref st) = true) as Hgt by (apply Vote_term_gt; lia).
  match goal with |- context [update_vote new_vote ?w1] =>
    destruct (update_vote_accepted new_vote w1) as (w2 & -> & Hacc) end.
  { rewrite pgeb_flip. apply pltb_pleb. by rewrite <- pgtb_flip. }
  { by rewrite andb_false_r. }
  unfold vote_accepted in Hacc. cbn [w_engine] in Hacc.
  set (e1 := set_candidate _ _) in Hacc.
  assert (own_vote e1 new_vote = true) as Hown.
  { unfold own_vote. change (Engine_state e1) with st. unfold Engine_id at 1. cbn [Engine_config e1 set_candidate set_config].
    rewrite Hid. change (EngineConfig_id _) with (Engine_id e). rewrite Hin. cbn.
    apply bool_decide_eq_true. unfold Vote_leader_node_id. cbn. rewrite LeaderId_node_id_new.
    unfold Engine_id. cbn. by rewrite Hid. }
  rewrite Hown in Hacc. change (Engine_state e1) with st in Hacc. rewrite Hgt in Hacc.
  destruct Hacc as (Hv & _ & _ & Hm & Hcfg & _ & Hcmd & _ & Hca & _).
  rewrite M_bind_eq, !modify_eq. cbn [w_engine]. eexists _, cand. split; [done|].
  split; [by rewrite <- pgtb_flip|]. cbn [w_engine]. rewrite update_server_state_eq.
  split_and!; try done.
  - cbn. unfold calc_server_state, RaftState_is_leader, is_leading. cbn. rewrite Hm, Hv.
    unfold own_vote in Hown. change (Engine_state e1) with st in Hown. unfold Engine_id in Hown |- *. cbn.
    rewrite Hcfg. by rewrite Hown.
  - unfold commands in *. cbn. unfold push_command. cbn. rewrite Hcmd. cbn.
    by rewrite <- (assoc_L (++)).
Qed.

(** C23: the answer to an append-entries request: a smaller vote is refused with
    the local vote and no other effect, a missing or different previous log is
    reported as the conflict, and otherwise success, with the last log of the
    request, is reported only once an I/O that covers the whole request has
    been flushed.  The accepted I/O must be of a vote up to the local one. *)
Theorem handle_append_entries_spec vote segment tx w :
  let e := w_engine w in
  let st := Engine_state e in
  let prev := LogSegment_prev_log_id segment in
  Vote_is_committed vote = true → own_vote e vote = false →
  (∀ a, accepted_log_io st = Some a → pleb (IOId_to_app_vote a) (vote_ref st) = true) →
  ∃ w', handle_append_entries vote segment tx w = Ret (tt, w') ∧
    let e' := w_engine w' in
    if negb (pgeb vote (vote_ref st)) then
      e' = push (Command_Respond None
             (Respond_AppendEntries (Err (StreamAppendError_HigherVote (vote_ref st))) tx)) e
    else
      match missing_prev st prev with
      | Some p => last (commands e') = Some (Command_Respond None
          (Respond_AppendEntries (Err (StreamAppendError_Conflict p)) tx))
      | None => ∃ io, accepted_log_io (Engine_state e') = Some io ∧
          pleb (IOId_new_log_io (Vote_to_committed vote)
                  (omax prev (Entry_log_id <$> last (LogSegment_entries segment)))) io = true ∧
          last (commands e') = Some (Command_Respond (Some (Condition_IOFlushed io))
            (Respond_AppendEntries (Ok (LogSegment_last segment)) tx))
      end.
Proof.
  intros e st prev Hc Hown Hacc. unfold handle_append_entries, append_entries. rewrite !M_bind_eq.
  destruct (pgeb vote (vote_ref st)) eqn:Hge; cbn [negb].
  - destruct (update_vote_accepted vote w Hge) as (w1 & -> & Hv); [by fold e; rewrite Hown|].
    destruct Hv as (Hv & Hl & Ha & _ & _ & Hio & _). fold e st in Hl, Ha, Hio.
    set (st1 := Engine_state (w_engine w1)) in *.
    rewrite M_bind_eq, get_eq, ensure_log_consecutive_missing. fold st1 prev.
    rewrite (same_log_missing st st1) by done. destruct (missing_prev st prev) as [p|].
    + m_steps. eexists. split; [done|]. cbn. unfold commands. cbn. apply last_snoc.
    + m_steps. fold st1. rewrite Hv.
      destruct (append_entries_accepted vote prev (LogSegment_entries segment) (w_engine w1) Hc)
        as (io & Hio1 & Hio2).
      { intros a Haa. apply Hio in Haa as [Haa| ->]; [|rewrite IOId_new_vote; apply pleb_refl].
        eapply pleb_trans; [by apply Hacc|]. by rewrite <- pgeb_flip. }
      cbn [is_ok]. rewrite Hio1. m_steps. eexists. split; [done|]. exists io. cbn [w_engine].
      split_and!; [done|done|]. unfold commands. cbn. apply last_snoc.
  - rewrite update_vote_eq. fold e st. rewrite Hge. m_steps. by eexists.
Qed.

(** C29: commands driven by I/O progress never panic, and apply only logs that
    are committed, that are already submitted to the log store under the vote
    the node has accepted, and that were not handed out before. *)
Theorem next_apply_bounds e :
  ∃ r, next_progress_driven_command e = Ret r ∧
    ∀ cmd, r = Some cmd →
      let ap := apply_progress (Engine_state e) in
      let lp := log_progress (Engine_state e) in
      ∃ upto io ac, cmd = Command_SaveCommittedAndApply (IOProgress_submitted ap) upto ∧
        Some upto ≼ local_committed (Engine_state e) ∧
        IOProgress_submitted lp = Some io ∧ Some upto ≼ IOId_last_log_id io ∧
        IOProgress_accepted lp = Some ac ∧ IOId_to_app_vote io = IOId_to_app_vote ac ∧
        (next_index (IOProgress_submitted ap) < next_index (Some upto))%N.
Proof.
  unfold next_progress_driven_command. set (lp := log_progress (Engine_state e)).
  set (ap := apply_progress (Engine_state e)). case_decide as Hvote; [|by eexists].
  set (sub := IOProgress_submitted lp ≫= IOId_last_log_id).
  destruct (ltb_spec (next_index (IOProgress_submitted ap))
    (next_index (omin sub (IOProgress_accepted ap)))) as [Hlt|]; [|by eexists].
  rewrite N_ord_lt in Hlt. pose proof (omin_l sub (IOProgress_accepted ap)) as Hm1.
  pose proof (omin_r sub (IOProgress_accepted ap)) as Hm2.
  destruct (omin sub (IOProgress_accepted ap)) as [upto|]; [|by apply N.nlt_0_r in Hlt]. cbn.
  eexists. split; [done|]. intros cmd [= <-].
  destruct (IOProgress_submitted lp) as [io|] eqn:Hs; [|by apply Some_le_None in Hm1].
  destruct (IOProgress_accepted lp) as [ac|]; [|done]. cbn in Hvote. injection Hvote as Hvote.
  by exists upto, io, ac.
Qed.

(** Purging on request never panics: the purge point it schedules is a
    local log at the requested index, or at the end of the snapshot when the
    request goes beyond it, and it does not move back while the scheduled purge
    point is covered by the snapshot. *)
Theorem trigger_purge_log_safe index w :
  let e := w_engine w in
  let st := Engine_state e in
  LogIdList_wf (RaftState_log_ids st) →
  (LogIdList_first_index (RaftState_log_ids st) ≤ next_index (purge_upto st))%N →
  (∀ s, snapshot_last_log_id st = Some s → get_log_id st (LogId_index s) = Some s) →
  ∃ w', trigger_purge_log index w = Ret (tt, w') ∧
    (let st' := Engine_state (w_engine w') in
     purge_upto st' = purge_upto st ∨
     ∃ s x, snapshot_last_log_id st = Some s ∧ purge_upto st' = Some x ∧
       get_log_id st (LogId_index x) = Some x ∧
       LogId_index x = N.min index (LogId_index s) ∧
       ∀ p, purge_upto st = Some p → (LogId_index p ≤ LogId_index s)%N →
         (LogId_index p ≤ LogId_index x)%N).
Proof.
  intros e st Hl Hf Hs. unfold trigger_purge_log. m_steps. fold e st.
  destruct (snapshot_last_log_id st) as [s|] eqn:Hsn; [|by eexists; split; [done|left]].
  specialize (Hs s eq_refl).
  destruct (ltb_spec index (next_index (purge_upto st))) as [|Hge]; [by eexists; split; [done|left]|].
  rewrite N_ord_le in Hge. destruct (LogIdList_get_bounds _ _ _ Hl Hs) as [Hlo Hhi].
  set (i := if (index >? LogId_index s) then LogId_index s else index).
  assert (i = N.min index (LogId_index s)) as Hi.
  { unfold i. destruct (ltb_spec (LogId_index s) index) as [Hc|Hc]; rewrite ?N_ord_lt, ?N_ord_le in Hc; lia. }
  assert (is_Some (get_log_id st i)) as [x Hx].
  { destruct (decide (i = LogId_index s)) as [->|]; [by eexists|].
    apply LogIdList_get_is_Some; [done|lia|lia|lia]. }
  rewrite Hx. pose proof (LogIdList_get_index _ _ _ Hl Hx) as Hxi. cbn [unwrap]. m_steps.
  match goal with |- context [Engine_try_purge_log ?w1] =>
    destruct (try_purge_log_upto w1 x eq_refl) as (w' & Hw' & Hp) end. exists w'. split; [exact Hw'|]. right.
  exists s, x. rewrite Hxi. split_and!; [done..|]. intros p Hp' Hps.
  pose proof (next_index_in (LogIdList_last (RaftState_log_ids st))).
  rewrite Hp', next_index_some in Hge by lia. lia.
Qed.

(** Initialization happens only on a pristine node that votes in the given
    membership: otherwise the error says why and nothing changes; on success
    the log is exactly the membership entry at index 0, which is the effective
    membership and is sent to the store, under a committed vote of term 0. *)
Theorem initialize_spec m w :
  let e := w_engine w in
  let st := Engine_state e in
  let leader_id := LeaderId_new 0 (Engine_id e) in
  let log_id := mkLogId (LeaderId_to_committed leader_id) 0 in
  ∃ r w', Engine_initialize m w = Ret (r, w') ∧
    if is_initialized st then
      r = Err (InitializeError_NotAllowed (last_log_id st) (vote_ref st)) ∧ w_engine w' = e
    else if negb (Membership_is_voter m (Engine_id e)) then
      r = Err (InitializeError_NotInMembers (Engine_id e) m) ∧ w_engine w' = e
    else
      let st' := Engine_state (w_engine w') in
      r = Ok tt ∧ vote_ref st' = mkVote leader_id true ∧
      LogIdList_abs (RaftState_log_ids st') = mkLogSpec None [log_id] ∧
      MembershipState_effective (RaftState_membership_state st') = mkStoredMembership (Some log_id) m ∧
      commands (w_engine w') = commands e ++
        [Command_AppendEntries (CommittedVote_new leader_id) [Entry_new_membership log_id m]].
Proof.
  intros e st leader_id log_id. unfold Engine_initialize. m_steps. unfold check_initialize. fold e st.
  destruct (is_initialized st) eqn:Hi; cbn [negb]; [by eexists _, _|].
  unfold check_members_contain_me.
  destruct (Membership_is_voter m (Engine_id e)) eqn:Hm; cbn [negb]; [|by eexists _, _].
  rewrite M_bind_eq. unfold now. m_steps. eexists _, _. split; [done|]. cbn [w_engine].
  unfold is_initialized, last_log_id in Hi.
  assert (RaftState_log_ids st = mkLogIdList None []) as Hl.
  { destruct (RaftState_log_ids st) as [p ks]. unfold LogIdList_last in Hi. cbn in Hi.
    destruct (last ks) eqn:Hk; [done|]. apply last_None in Hk as ->. by destruct p. }
  unfold do_append_entries, FollowingHandler_append_membership.
  change (last_two_memberships _) with [mkStoredMembership (Some log_id) m]. cbv beta iota zeta.
  rewrite update_server_state_eq. split_and!; try done.
  cbn. fold e st. rewrite Hl. done.
Qed.
End engine_impl.

(** ** Witnesses *)

Module EngineImplWitness.
#[local] Existing Instance adv_config.
Import LogIdListWitness MembershipWitness RaftStateWitness ProgressEntryWitness FollowingWitness
  VoteHandlerWitness.
#[local] Existing Instance env.

Definition world0 : World := mkWorld node 0 0.

(** A candidate of term 6 with a longer log. *)
Definition req61 : VoteRequest :=
  mkVoteRequest (Vote_new (C := adv_config) 6 1) (Some (lid 5 1 8)) false false.

Lemma handle_vote_req_spec_witness :
  ∃ resp w', handle_vote_req req61 world0 = Ret (resp, w') ∧ VoteResponse_vote_granted resp = true ∧
    VoteResponse_vote resp = vote_ref (Engine_state (w_engine w')).
Proof.
  destruct (handle_vote_req_spec req61 world0) as (resp & w' & H & Hv & _).
  - vm_compute. reflexivity.
  - intros l Hl. discriminate Hl.
  - exists resp, w'. split; [exact H|]. split; [|exact Hv].
    vm_compute in H. by injection H as <- <-.
Defined.

Lemma pre_vote_predicts_vote_witness :
  ∃ pre w', handle_pre_vote_req req61 world0 = Ret (pre, w') ∧ w_engine w' = node.
Proof.
  destruct (pre_vote_predicts_vote req61 world0) as (pre & w' & _ & _ & H & He & _).
  - vm_compute. reflexivity.
  - intros l Hl. discriminate Hl.
  - exists pre, w'. split; [exact H|exact He].
Defined.

Lemma elect_starts_campaign_witness :
  ∃ w' c, do_elect false world0 = Ret (tt, w') ∧ Engine_candidate (w_engine w') = Some c ∧
    Candidate_vote c = Vote_new (C := adv_config) 3 3.
Proof.
  destruct (elect_starts_campaign false world0) as (w' & c & H & _ & _ & _ & Hc & Hv & _).
  - done.
  - vm_compute. reflexivity.
  - vm_compute. reflexivity.
  - vm_compute. reflexivity.
  - exists w', c. split; [exact H|]. split; [exact Hc|exact Hv].
Defined.

Definition segment : LogSegment := mkLogSegment (Some (lid 1 1 3)) new_entries.

Lemma handle_append_entries_spec_witness :
  ∃ w', handle_append_entries (Vote_new_committed (C := adv_config) 3 1) segment 9%N world0 = Ret (tt, w').
Proof.
  destruct (handle_append_entries_spec (Vote_new_committed (C := adv_config) 3 1) segment 9%N world0)
    as (w' & H & _).
  - done.
  - vm_compute. reflexivity.
  - intros a Ha. vm_compute in Ha. injection Ha as <-. vm_compute. reflexivity.
  - exists w'. exact H.
Defined.

(** The node after it has learned that the cluster committed its log. *)
Definition committed_node : Engine :=
  match update_committed follower (mkLogIOId leader23 (Some (lid 2 3 9))) with
  | Ret s => set_state node s
  | Panic => node
  end.

Lemma next_apply_bounds_witness :
  ∃ from upto, next_progress_driven_command committed_node =
      Ret (Some (Command_SaveCommittedAndApply from upto)) ∧
    Some upto ≼ local_committed (Engine_state committed_node).
Proof.
  destruct (next_apply_bounds committed_node) as (r & H & Hr). vm_compute in H. injection H as <-.
  destruct (Hr _ eq_refl) as (upto & _ & _ & Hu & Hc & _). injection Hu as <-.
  eexists _, _. split; [vm_compute; reflexivity|exact Hc].
Defined.

Lemma trigger_purge_log_safe_witness :
  ∃ w', trigger_purge_log 9 world0 = Ret (tt, w') ∧
    purge_upto (Engine_state (w_engine w')) = Some (lid 1 1 3).
Proof.
  destruct (trigger_purge_log_safe 9 world0) as (w' & H & _).
  - apply sample_wf.
  - vm_compute. done.
  - intros s Hs. vm_compute in Hs. injection Hs as <-. vm_compute. reflexivity.
  - exists w'. split; [exact H|]. vm_compute in H. by injection H as <-.
Defined.
End EngineImplWitness.
