(* ===== verification/VoteSafety.v ===== *)
(** * Votes never move back

    Every handler of the engine but one only raises the local vote, and every
    vote it asks the store to save lies between the vote before and the vote
    after.  The relation is shown for each handler through the class
    [VoteMono], whose instances follow the structure of the handlers.  The
    exception is [initialize] of [engine_impl.rs], which gives the node its own
    committed vote of term 0 without comparing it to the vote it holds.
    [Event] has the events of a node that takes part in a cluster; [Input] has
    everything else too that the runtime makes the engine do. *)

From S2P Require Import Prelude Vote LogId LogIdList Quorum Membership VecProgress IOState.
From S2P Require Import MembershipState Entry RaftState Config ProgressEntry Proposer Command.
From S2P Require Import Engine Replication Following LeaderHandler VoteHandler EngineImpl.

Section vote_safety.
Context {C : RaftTypeConfig} `{!Env} `{!RaftLeaderIdLaws C}.
Implicit Types (e : Engine) (w : World) (vs : list Vote).

(** The votes that the commands of an engine save. *)
Definition saved_votes e : list Vote :=
  omap (λ c, match c with Command_SaveVote v => Some v | _ => None end) (commands e).

Definition local_vote e : Vote := vote_ref (Engine_state e).

(** [vs] rises from [a] to [b]. *)
Fixpoint rising (a : Vote) vs (b : Vote) : Prop :=
  match vs with
  | [] => pleb a b = true
  | v :: vs => pleb a v = true ∧ rising v vs b
  end.

Definition votes_rise e e' : Prop :=
  ∃ vs, saved_votes e' = saved_votes e ++ vs ∧ rising (local_vote e) vs (local_vote e').

Lemma rising_app a vs b vs' c : rising a vs b → rising b vs' c → rising a (vs ++ vs') c.
Proof.
  revert a. induction vs as [|v vs IH]; intros a; cbn.
  - intros Hab. destruct vs' as [|v' vs']; cbn; [by apply pleb_trans|].
    intros [? ?]. split; [by eapply pleb_trans|done].
  - intros [? ?] ?. split; [done|]. by eapply IH.
Qed.

Lemma rising_end a vs b : rising a vs b → pleb a b = true.
Proof.
  revert a. induction vs as [|v vs IH]; intros a; cbn; [done|].
  intros [Ha Hr]. eapply pleb_trans; [exact Ha|by apply IH].
Qed.

Lemma votes_rise_refl e e' :
  saved_votes e' = saved_votes e → local_vote e' = local_vote e → votes_rise e e'.
Proof. intros Hs Hl. exists []. rewrite app_nil_r, Hl. split; [done|apply pleb_refl]. Qed.

Lemma votes_rise_trans e1 e2 e3 : votes_rise e1 e2 → votes_rise e2 e3 → votes_rise e1 e3.
Proof.
  intros (v1 & H1 & R1) (v2 & H2 & R2). exists (v1 ++ v2). split.
  - by rewrite H2, H1, (assoc_L (++)).
  - by eapply rising_app.
Qed.

(** ** The class *)

Class VoteMono {A} (m : M A) : Prop :=
  vote_mono : ∀ w a w', m w = Ret (a, w') → votes_rise (w_engine w) (w_engine w').

(** A function on engines that leaves the vote and the saved votes alone. *)
Class VoteFrame (f : Engine → Engine) : Prop :=
  vote_frame : ∀ e, saved_votes (f e) = saved_votes e ∧ local_vote (f e) = local_vote e.

#[global] Instance mono_ret {A} (a : A) : VoteMono (mret a).
Proof. intros w a' w' [= <- <-]. by apply votes_rise_refl. Qed.

#[global] Instance mono_bind {A B} (m : M A) (f : A → M B) :
  VoteMono m → (∀ a, VoteMono (f a)) → VoteMono (m ≫= f).
Proof.
  intros Hm Hf w b w'. rewrite M_bind_eq. destruct (m w) as [[a w1]|] eqn:E; [|done].
  intros Hb. eapply votes_rise_trans; [by eapply Hm|by eapply Hf].
Qed.

#[global] Instance mono_get : VoteMono get.
Proof. intros w a w' [= <- <-]. by apply votes_rise_refl. Qed.
#[global] Instance mono_gets {A} (f : Engine → A) : VoteMono (gets f).
Proof. intros w a w' [= <- <-]. by apply votes_rise_refl. Qed.
#[global] Instance mono_lift {A} (o : outcome A) : VoteMono (lift o).
Proof. intros w a w'. unfold lift. destruct o; [|done]. intros [= <- <-]. by apply votes_rise_refl. Qed.
#[global] Instance mono_panic {A} : VoteMono (panic (A := A)).
Proof. intros w a w' [=]. Qed.
#[global] Instance mono_now : VoteMono now.
Proof. intros w a w' [= <- <-]. by apply votes_rise_refl. Qed.
#[global] Instance mono_draw lo hi : VoteMono (draw lo hi).
Proof. intros w a w' [= <- <-]. by apply votes_rise_refl. Qed.
#[global] Instance mono_the_leader : VoteMono the_leader.
Proof.
  intros w a w'. unfold the_leader. destruct (Engine_leader _); [|done]. intros [= <- <-].
  by apply votes_rise_refl.
Qed.
#[global] Instance mono_modify f : VoteFrame f → VoteMono (modify f).
Proof. intros Hf w a w' [= <- <-]. destruct (Hf (w_engine w)). by apply votes_rise_refl. Qed.

(** ** Functions that do not touch votes *)

#[global] Instance frame_id : VoteFrame (λ e, e).
Proof. done. Qed.
#[global] Instance frame_compose f g : VoteFrame f → VoteFrame g → VoteFrame (λ e, f (g e)).
Proof. intros Hf Hg e. destruct (Hf (g e)) as [-> ->]. apply Hg. Qed.

(** Splits the matches of a handler, on the engine and then in the monad. *)
Ltac frame_step :=
  match goal with
  | |- context [match ?x with _ => _ end] => destruct x eqn:?
  end.
Ltac vote_frame :=
  intros ?; unfold saved_votes, local_vote, commands;
  cbn; rewrite ?omap_app; cbn; rewrite ?app_nil_r;
  first [done | repeat (frame_step; cbn; rewrite ?omap_app; cbn; rewrite ?app_nil_r); done].
Ltac mono_step :=
  match goal with
  | |- VoteMono (_ ≫= _) => apply mono_bind
  | |- ∀ _, _ => intros ?
  | |- VoteMono (match ?x with _ => _ end) => destruct x
  | |- VoteMono (let '_ := _ in _) => idtac
  | |- VoteMono _ => apply _
  | |- VoteMono (modify _) => apply mono_modify; vote_frame
  | |- VoteMono (put_leader _) => apply mono_modify; vote_frame
  end.
Ltac vote_mono := repeat mono_step.
(** What remains of a handler after its first steps. *)
Ltac mono_rest :=
  match goal with |- ?m ?w1 = _ → _ =>
    let Hm := fresh in assert (VoteMono m) as Hm; [|apply (Hm w1)] end.

#[global] Instance frame_update_server_state : VoteFrame update_server_state_if_changed.
Proof. intros e. rewrite update_server_state_eq. done. Qed.

#[global] Instance frame_purge_log : VoteFrame LogHandler_purge_log.
Proof. unfold LogHandler_purge_log. vote_frame. Qed.

#[global] Instance frame_schedule : VoteFrame schedule_policy_based_purge.
Proof. unfold schedule_policy_based_purge. vote_frame. Qed.

Lemma accept_log_io_vote st io : vote_ref (accept_log_io st io).1 = vote_ref st.
Proof. unfold accept_log_io. cbn. by destruct (pgtb _ _). Qed.

(** ** Replication *)

#[global] Instance mono_rebuild_progresses : VoteMono rebuild_progresses.
Proof. unfold rebuild_progresses. vote_mono. Qed.
#[global] Instance mono_try_update_leader_clock sid target t :
  VoteMono (try_update_leader_clock sid target t).
Proof. unfold try_update_leader_clock. vote_mono. Qed.
#[global] Instance mono_try_commit granted : VoteMono (try_commit_quorum_accepted granted).
Proof.
  intros w a w'. unfold try_commit_quorum_accepted. m_steps.
  destruct (match granted with Some _ => _ | None => false end); [by intros [= <- <-]; apply votes_rise_refl|].
  m_steps. destruct (MonotonicIncrease_try_update _ _) as [r|]; [|done]. m_steps.
  intros [= <- <-]. cbn [w_engine].
  set (st1 := match r with Ok v => _ | Err _ => _ end).
  assert (vote_ref (update_local_committed st1 granted) = local_vote (w_engine w)) as Hv.
  { transitivity (vote_ref st1); [|by destruct r].
    unfold update_local_committed. destruct granted; [|done]. by destruct (_ <? _). }
  destruct (_ <? _); apply votes_rise_refl; try exact Hv; [|done].
  unfold saved_votes, commands. cbn. by rewrite omap_app, app_nil_r.
Qed.
#[global] Instance mono_update_matching node log_id inflight_id :
  VoteMono (ReplicationHandler_update_matching node log_id inflight_id).
Proof. unfold ReplicationHandler_update_matching. vote_mono. Qed.
#[global] Instance mono_update_conflicting target conflict inflight_id :
  VoteMono (ReplicationHandler_update_conflicting target conflict inflight_id).
Proof. unfold ReplicationHandler_update_conflicting. vote_mono. Qed.
#[global] Instance mono_allow_next_revert target allow : VoteMono (allow_next_revert target allow).
Proof. unfold allow_next_revert. vote_mono. Qed.
#[global] Instance mono_r_try_purge_log : VoteMono ReplicationHandler_try_purge_log.
Proof. unfold ReplicationHandler_try_purge_log. vote_mono. Qed.
#[global] Instance mono_update_progress target sid res inflight_id :
  VoteMono (update_progress target sid res inflight_id).
Proof. unfold update_progress. vote_mono. Qed.
#[global] Instance mono_rebuild_replication_streams close_old :
  VoteMono (rebuild_replication_streams close_old).
Proof. unfold rebuild_replication_streams. vote_mono. Qed.

Lemma initiate_loop_frame id max_entries leader_vote items st items' st' cmds :
  initiate_loop id max_entries leader_vote items st = Ret (items', st', cmds) →
  vote_ref st' = vote_ref st ∧ Forall (λ c, is_replicate c = true) cmds.
Proof.
  revert st items' st' cmds. induction items as [|item items IH]; intros st items' st' cmds; cbn.
  { by intros [= <- <- <-]. }
  case_decide.
  - destruct (initiate_loop _ _ _ _ st) as [[[i1 s1] c1]|] eqn:E; [|done]. intros [= <- <- <-]. by eapply IH.
  - destruct (next_send item st max_entries) as [[item1 st1] t] eqn:Hn.
    assert (vote_ref st1 = vote_ref st) as Hv.
    { change st1 with (item1, st1, t).1.2. rewrite <- Hn. unfold next_send, new_inflight_id.
      by repeat (case_match; cbn). }
    destruct t as [i|i].
    + destruct (send_to_target _ _ i) as [cmd|] eqn:Hc; [|done]. cbn.
      destruct (initiate_loop _ _ _ _ st1) as [[[i1 s1] c1]|] eqn:E; [|done]. intros [= <- <- <-].
      destruct (IH _ _ _ _ E) as [-> ?]. split; [done|]. constructor; [|done].
      by destruct i; try done; injection Hc as <-.
    + destruct (initiate_loop _ _ _ _ st1) as [[[i1 s1] c1]|] eqn:E; [|done]. intros [= <- <- <-].
      destruct (IH _ _ _ _ E) as [-> ?]. done.
Qed.

#[global] Instance mono_initiate_replication : VoteMono initiate_replication.
Proof.
  intros w a w'. unfold initiate_replication. m_steps. unfold the_leader.
  destruct (Engine_leader (w_engine w)) as [l|]; [|done]. m_steps.
  destruct (initiate_loop _ _ _ _ _) as [[[items st] cmds]|] eqn:E; [|done].
  apply initiate_loop_frame in E as [Hv Hc]. unfold put_leader. m_steps. rewrite push_all.
  intros [= <- <-]. apply votes_rise_refl; [|exact Hv].
  unfold saved_votes, commands. cbn. rewrite omap_app.
  replace (omap _ cmds) with (@nil Vote); [by rewrite app_nil_r|].
  induction Hc as [|c cmds Hc _ IH]; [done|]. by destruct c.
Qed.

#[global] Instance mono_r_append_membership log_id m :
  VoteMono (ReplicationHandler_append_membership log_id m).
Proof. unfold ReplicationHandler_append_membership. vote_mono. Qed.
#[global] Instance mono_update_local_progress upto : VoteMono (update_local_progress upto).
Proof. unfold update_local_progress. vote_mono. Qed.

(** ** The leader and the vote *)

#[global] Instance frame_accept_log_io io :
  VoteFrame (λ e, set_state e (accept_log_io (Engine_state e) io).1).
Proof. intros e. split; [done|]. apply accept_log_io_vote. Qed.

#[global] Instance mono_leader_append_entries payloads : VoteMono (leader_append_entries payloads).
Proof. unfold leader_append_entries. vote_mono. Qed.
#[global] Instance mono_send_heartbeat b : VoteMono (send_heartbeat b).
Proof. unfold send_heartbeat. vote_mono. Qed.
#[global] Instance mono_transfer_leader to : VoteMono (transfer_leader to).
Proof. unfold transfer_leader. vote_mono. Qed.

#[global] Instance frame_become_following : VoteFrame become_following.
Proof.
  intros e. destruct (become_following_eq e) as (Hc & _ & _ & _ & _ & Hs). split.
  - unfold saved_votes. rewrite Hc. cbn. rewrite omap_app.
    destruct (had_leading_state e); cbn; by rewrite app_nil_r.
  - unfold local_vote. by rewrite Hs.
Qed.

Lemma new_leader_vote st t : vote_ref (new_leader st t).2 = vote_ref st.
Proof. unfold new_leader. by destruct (Leader_new _ _ _ _ _ _). Qed.

#[global] Instance mono_become_leader : VoteMono become_leader.
Proof.
  unfold become_leader. apply mono_bind; [vote_mono|]. intros e. apply mono_bind; [vote_mono|].
  intros []; [vote_mono|]. apply mono_bind; [vote_mono|]. intros t w a w'.
  rewrite M_bind_eq, get_eq. pose proof (new_leader_vote (Engine_state (w_engine w)) t) as Hv.
  destruct (new_leader _ t) as [leader st]. cbn in Hv. rewrite M_bind_eq, modify_eq. intros Hrun.
  apply (votes_rise_trans _ (set_leader (set_state (w_engine w) st) (Some leader)));
    [by apply votes_rise_refl|].
  revert Hrun. mono_rest. vote_mono.
Qed.

#[global] Instance mono_update_internal_server_state : VoteMono update_internal_server_state.
Proof. unfold update_internal_server_state. vote_mono. Qed.

#[global] Instance mono_update_vote vote : VoteMono (update_vote vote).
Proof.
  intros w a w'. rewrite update_vote_eq. destruct (pgeb _ _) eqn:Hge.
  - destruct (update_internal_server_state _) as [[u w1]|] eqn:E; [|done]. intros [= <- <-].
    apply mono_update_internal_server_state in E. eapply votes_rise_trans; [|exact E]. cbn [w_engine].
    destruct (stored_vote_spec vote (clock (w_clock_reads w)) (w_engine w) Hge) as (Hv & Hc & _).
    exists (if pgtb vote (vote_ref (Engine_state (w_engine w))) then [vote] else []). split.
    + unfold saved_votes. rewrite Hc, omap_app. by destruct (pgtb _ _).
    + unfold local_vote. rewrite Hv. rewrite pgeb_flip in Hge.
      destruct (pgtb _ _); cbn; [|done]. split; [done|apply pleb_refl].
  - intros [= <- <-]. by apply votes_rise_refl.
Qed.

#[global] Instance mono_accept_vote vote f : VoteMono (accept_vote vote f).
Proof. unfold accept_vote. vote_mono. Qed.
#[global] Instance mono_establish candidate : VoteMono (establish candidate).
Proof. unfold establish. vote_mono. Qed.

(** ** The operations of the engine *)

#[global] Instance frame_truncate_logs since : VoteFrame (truncate_logs since).
Proof.
  intros e. unfold truncate_logs. destruct (get_log_id _ _); [|done].
  destruct (MembershipState_truncate _ since) as [ms [c|]];
    [rewrite update_server_state_eq|]; split; try done;
    unfold saved_votes, commands; cbn; by rewrite omap_app, app_nil_r.
Qed.

#[global] Instance frame_do_append_entries v entries : VoteFrame (do_append_entries v entries).
Proof.
  intros e. unfold do_append_entries, FollowingHandler_append_membership.
  destruct (last_two_memberships entries); [|rewrite update_server_state_eq]; split; try done;
    unfold saved_votes, commands; cbn; by rewrite omap_app, app_nil_r.
Qed.

#[global] Instance frame_append_entries v prev entries :
  VoteFrame (FollowingHandler_append_entries v prev entries).
Proof.
  intros e. unfold FollowingHandler_append_entries.
  pose proof (accept_log_io_vote (Engine_state e)
    (IOId_new_log_io v (omax prev (Entry_log_id <$> last entries)))) as Hv.
  destruct (accept_log_io _ _) as [st pa]. cbn in Hv.
  destruct (entries !! _) as [ent|].
  - match goal with |- context [do_append_entries _ _ (truncate_logs _ ?e1)] =>
      destruct (frame_do_append_entries v (drop (first_conflicting_index (Engine_state e1) entries) entries)
        (truncate_logs (Entry_index ent) e1)) as [Hs1 Hl1];
      destruct (frame_truncate_logs (Entry_index ent) e1) as [Hs2 Hl2] end.
    split; [etransitivity; [exact Hs1|exact Hs2]|].
    etransitivity; [exact Hl1|]. etransitivity; [exact Hl2|]. exact Hv.
  - destruct (pleb _ _); split; try done; try exact Hv.
    unfold saved_votes, commands. cbn. by rewrite omap_app, app_nil_r.
Qed.

Lemma ensure_log_consecutive_frame prev e :
  let e' := (ensure_log_consecutive prev e).1 in
  saved_votes e' = saved_votes e ∧ local_vote e' = local_vote e.
Proof.
  unfold ensure_log_consecutive. destruct prev as [p|]; [|done].
  destruct (has_log_id _ p); [done|]. apply frame_truncate_logs.
Qed.

Lemma install_full_snapshot_frame v snapshot e cond e' :
  install_full_snapshot v snapshot e = Ret (cond, e') →
  saved_votes e' = saved_votes e ∧ local_vote e' = local_vote e.
Proof.
  unfold install_full_snapshot. destruct (_ <=? _); [by intros [= <- <-]|].
  destruct (SnapshotMeta_last_log_id (Snapshot_meta snapshot)) as [id|]; [|done].
  cbn [unwrap mbind outcome_bind].
  destruct (LogId_leader_id id <=? _); cbn [assert mbind outcome_bind]; [|done].
  destruct (match local_committed (Engine_state e) with Some c => _ | None => true end);
    cbn [assert mbind outcome_bind]; [|done].
  assert (saved_votes (update_snapshot e (Snapshot_meta snapshot)).1 = saved_votes e ∧
    local_vote (update_snapshot e (Snapshot_meta snapshot)).1 = local_vote e) as [H1 H2]
    by (unfold update_snapshot; by destruct (_ <=? _)).
  destruct (update_snapshot _ _) as [e0 []]; cbn in H1, H2; cbn [negb]; [|by intros [= <- <-]].
  set (e1 := match get_log_id _ _ with Some _ => _ | None => e0 end).
  assert (saved_votes e1 = saved_votes e ∧ local_vote e1 = local_vote e) as [H3 H4].
  { unfold e1. destruct (get_log_id _ _) as [x|]; [|done]. destruct (decide _); [|done].
    destruct (frame_truncate_logs (next_index (local_committed (Engine_state e0))) e0) as [-> ->]. done. }
  intros [= <- <-]. rewrite membership_install_snapshot_frame.
  match goal with |- context [LogHandler_purge_log ?e2] => destruct (frame_purge_log e2) as [-> ->] end.
  unfold saved_votes, local_vote, commands, accept_snapshot_io in *. cbn.
  rewrite omap_app, app_nil_r. split; [done|]. rewrite <- H4. apply accept_log_io_vote.
Qed.

#[global] Instance mono_append_entries vote segment : VoteMono (append_entries vote segment).
Proof.
  unfold append_entries. apply mono_bind; [vote_mono|]. intros [u|err]; [|vote_mono].
  intros w a w'. rewrite M_bind_eq, get_eq.
  pose proof (ensure_log_consecutive_frame (LogSegment_prev_log_id segment) (w_engine w)) as [H1 H2].
  destruct (ensure_log_consecutive _ _) as [e1 r]. cbn in H1, H2. rewrite M_bind_eq, modify_eq.
  intros Hrun. apply (votes_rise_trans _ e1); [by apply votes_rise_refl|]. revert Hrun. mono_rest. vote_mono.
Qed.

#[global] Instance mono_handle_append_entries vote segment tx :
  VoteMono (handle_append_entries vote segment tx).
Proof. unfold handle_append_entries. vote_mono. Qed.

#[global] Instance mono_handle_install_full_snapshot vote snapshot tx :
  VoteMono (handle_install_full_snapshot vote snapshot tx).
Proof.
  unfold handle_install_full_snapshot. apply mono_bind; [vote_mono|]. intros []; cbn [negb]; [|vote_mono].
  intros w a w'. rewrite M_bind_eq, get_eq, M_bind_eq.
  destruct (install_full_snapshot _ _ _) as [[cond e1]|] eqn:E; [|done].
  apply install_full_snapshot_frame in E as [H1 H2]. rewrite lift_Ret, M_bind_eq, modify_eq.
  intros Hrun. apply (votes_rise_trans _ e1); [by apply votes_rise_refl|]. revert Hrun. mono_rest. vote_mono.
Qed.

#[global] Instance mono_resample : VoteMono Engine_resample_election_timeout.
Proof. unfold Engine_resample_election_timeout. vote_mono. Qed.
#[global] Instance mono_new_candidate vote : VoteMono (new_candidate vote).
Proof. unfold new_candidate, create_candidate. vote_mono. Qed.
#[global] Instance mono_new_pre_candidate vote : VoteMono (new_pre_candidate vote).
Proof. unfold new_pre_candidate, create_candidate. vote_mono. Qed.
#[global] Instance mono_do_elect b : VoteMono (do_elect b).
Proof. unfold do_elect. vote_mono. Qed.
#[global] Instance mono_pre_elect : VoteMono pre_elect.
Proof. unfold pre_elect, elect. vote_mono. Qed.
#[global] Instance mono_is_leader_lease_valid t b : VoteMono (is_leader_lease_valid t b).
Proof. unfold is_leader_lease_valid. vote_mono. Qed.
#[global] Instance mono_vote_response b : VoteMono (vote_response b).
Proof. unfold vote_response. vote_mono. Qed.
#[global] Instance mono_handle_vote_req req : VoteMono (handle_vote_req req).
Proof. unfold handle_vote_req. vote_mono. Qed.
#[global] Instance mono_handle_pre_vote_req req : VoteMono (handle_pre_vote_req req).
Proof. unfold handle_pre_vote_req. vote_mono. Qed.
#[global] Instance mono_establish_leader : VoteMono establish_leader.
Proof. unfold establish_leader. vote_mono. Qed.
#[global] Instance mono_handle_rejected resp b : VoteMono (handle_rejected_vote_resp resp b).
Proof. unfold handle_rejected_vote_resp, set_greater_log. vote_mono. Qed.
#[global] Instance mono_handle_vote_resp target resp : VoteMono (handle_vote_resp target resp).
Proof. unfold handle_vote_resp. vote_mono. Qed.
#[global] Instance mono_handle_pre_vote_resp target resp : VoteMono (handle_pre_vote_resp target resp).
Proof. unfold handle_pre_vote_resp, elect. vote_mono. Qed.
#[global] Instance mono_try_purge_log : VoteMono Engine_try_purge_log.
Proof. unfold Engine_try_purge_log. vote_mono. Qed.

#[global] Instance mono_on_building_snapshot_done meta : VoteMono (on_building_snapshot_done meta).
Proof.
  unfold on_building_snapshot_done. apply mono_bind; [vote_mono|]. intros _.
  destruct meta as [meta|]; [|vote_mono]. apply mono_bind; [vote_mono|]. intros _ w a w'.
  rewrite M_bind_eq, get_eq. unfold update_snapshot. destruct (_ <=? _).
  - rewrite M_bind_eq, modify_eq. intros [= <- <-]. by apply votes_rise_refl.
  - rewrite M_bind_eq, modify_eq. cbn [negb]. intros Hrun.
    eapply votes_rise_trans; [|revert Hrun; mono_rest; vote_mono]. by apply votes_rise_refl.
Qed.

#[global] Instance mono_trigger_purge_log index : VoteMono (trigger_purge_log index).
Proof. unfold trigger_purge_log. vote_mono. Qed.
#[global] Instance mono_trigger_transfer_leader to : VoteMono (trigger_transfer_leader to).
Proof. unfold trigger_transfer_leader. vote_mono. Qed.

(** ** Events

    What the runtime makes the engine do once the node has started. *)
Inductive Event :=
| Event_Elect
| Event_ElectByLeadershipTransfer
| Event_PreElect
| Event_VoteReq (req : VoteRequest)
| Event_PreVoteReq (req : VoteRequest)
| Event_VoteResp (target : u64) (resp : VoteResponse)
| Event_PreVoteResp (target : u64) (resp : VoteResponse)
| Event_AppendEntries (vote : Vote) (segment : LogSegment) (tx : Sender)
| Event_InstallFullSnapshot (vote : Vote) (snapshot : Snapshot) (tx : Sender)
| Event_RefreshServerState
| Event_SnapshotBuilt (meta : option SnapshotMeta)
| Event_PurgeLog (index : u64)
| Event_TransferLeader (to : u64)
| Event_Write (payloads : list EntryPayload)
| Event_Heartbeat (bypass_min_interval : bool)
| Event_ReplicationProgress (target sid : u64) (res : option ReplicationResult) (inflight_id : option u64)
| Event_LeaderClock (sid target : u64) (sending_time : Instant)
| Event_LocalProgress (upto : option LogId)
| Event_AllowNextRevert (target : u64) (allow : bool).

Definition handle (ev : Event) : M unit :=
  match ev with
  | Event_Elect => elect
  | Event_ElectByLeadershipTransfer => elect_by_leadership_transfer
  | Event_PreElect => pre_elect
  | Event_VoteReq req => handle_vote_req req;; mret tt
  | Event_PreVoteReq req => handle_pre_vote_req req;; mret tt
  | Event_VoteResp target resp => handle_vote_resp target resp
  | Event_PreVoteResp target resp => handle_pre_vote_resp target resp
  | Event_AppendEntries vote segment tx => handle_append_entries vote segment tx
  | Event_InstallFullSnapshot vote snapshot tx => handle_install_full_snapshot vote snapshot tx
  | Event_RefreshServerState => refresh_server_state
  | Event_SnapshotBuilt meta => on_building_snapshot_done meta
  | Event_PurgeLog index => trigger_purge_log index
  | Event_TransferLeader to => trigger_transfer_leader to
  | Event_Write payloads => leader_append_entries payloads;; mret tt
  | Event_Heartbeat b => send_heartbeat b
  | Event_ReplicationProgress target sid res inflight_id => update_progress target sid res inflight_id
  | Event_LeaderClock sid target t => try_update_leader_clock sid target t
  | Event_LocalProgress upto => update_local_progress upto
  | Event_AllowNextRevert target allow => allow_next_revert target allow;; mret tt
  end.

Lemma update_committed_vote st committed st' :
  update_committed st committed = Ret st' → vote_ref st' = vote_ref st.
Proof.
  unfold update_committed. destruct (MonotonicIncrease_try_update _ _) as [r|]; [|done].
  cbn [mbind outcome_bind]. set (st1 := match r with Ok v => _ | Err _ => _ end).
  assert (vote_ref st1 = vote_ref st) as <- by (by destruct r). clearbody st1.
  destruct (calculate_local_committed _) as [local|]; [|done]. cbn. intros [= <-].
  unfold update_local_committed. destruct local; [|done]. by destruct (_ <? _).
Qed.

Lemma mono_handle ev : VoteMono (handle ev).
Proof.
  destruct ev; cbn [handle];
    unfold elect, elect_by_leadership_transfer, refresh_server_state; vote_mono.
Qed.

(** ** Inputs

    Everything the runtime makes the engine do after its start: the events, and
    what it does to the engine between them ([core/raft_core.rs]).  The progress
    of I/O only touches [RaftState::io_state]. *)
Inductive Input :=
| Input_Event (ev : Event)
| Input_Initialize (membership : Membership)
| Input_HigherVote (higher : Vote)
| Input_LeaderCommit (committed : LogIOId)
| Input_TriggerSnapshot
| Input_InitiateReplication
| Input_DisableLease
| Input_NextHeartbeat (at' : Instant)
| Input_ResetGreaterLog
| Input_IOProgress (f : IOState → IOState)
| Input_Respond (condition : option Condition) (respond : Respond).

Definition take_input (i : Input) : M unit :=
  match i with
  | Input_Event ev => handle ev
  | Input_Initialize membership => Engine_initialize membership;; mret tt
  | Input_HigherVote higher => update_vote higher;; mret tt
  | Input_LeaderCommit committed =>
      e ← get;
      st ← lift (update_committed (Engine_state e) committed);
      modify (λ e, set_state e st)
  | Input_TriggerSnapshot => modify (λ e, (trigger_snapshot e).1)
  | Input_InitiateReplication => initiate_replication
  | Input_DisableLease =>
      modify (λ e, set_state e (set_vote (Engine_state e)
        (Leased_disable_lease (RaftState_vote (Engine_state e)))))
  | Input_NextHeartbeat at' =>
      l ← the_leader;
      put_leader (mkLeader (Leader_transfer_to l) (Leader_committed_vote l) at' (Leader_last_log_id l)
        (Leader_noop_log_id l) (Leader_progress l) (Leader_clock_progress l))
  | Input_ResetGreaterLog => modify reset_greater_log
  | Input_IOProgress f =>
      modify (λ e, set_state e (set_io_state (Engine_state e) (f (RaftState_io_state (Engine_state e)))))
  | Input_Respond condition respond => modify (push (Command_Respond condition respond))
  end.

(** The committed vote of term 0 of the node, which it has once initialized. *)
Definition initial_vote e : Vote := mkVote (LeaderId_new 0 (Engine_id e)) true.

Definition accepts_initialize e (membership : Membership) : bool :=
  negb (is_initialized (Engine_state e)) && Membership_is_voter membership (Engine_id e).

Lemma initialize_votes membership w r w' :
  Engine_initialize membership w = Ret (r, w') →
  saved_votes (w_engine w') = saved_votes (w_engine w) ∧
  local_vote (w_engine w') =
    (if accepts_initialize (w_engine w) membership then initial_vote (w_engine w) else local_vote (w_engine w)).
Proof.
  unfold Engine_initialize, accepts_initialize, check_initialize, check_members_contain_me. m_steps.
  destruct (is_initialized _); cbn [negb andb]; [by intros [= <- <-]|].
  destruct (Membership_is_voter _ _); cbn [negb]; [|by intros [= <- <-]].
  rewrite M_bind_eq. cbn [now]. m_steps. intros [= <- <-]. cbn [w_engine].
  match goal with |- context [do_append_entries ?v ?es ?e] =>
    destruct (frame_do_append_entries v es e) as [-> ->] end.
  done.
Qed.

Lemma mono_take_input i : (∀ m, i ≠ Input_Initialize m) → VoteMono (take_input i).
Proof.
  intros Hi. destruct i as [ev|m|v|committed| | | |at'| |f|condition respond]; cbn [take_input].
  - apply mono_handle.
  - by destruct (Hi m).
  - vote_mono.
  - intros w a w'. rewrite M_bind_eq, get_eq, M_bind_eq.
    destruct (update_committed _ _) as [st|] eqn:E; [|done]. apply update_committed_vote in E.
    rewrite lift_Ret, modify_eq. intros [= <- <-]. by apply votes_rise_refl.
  - apply mono_modify. intros e. unfold trigger_snapshot. destruct (IOState_building_snapshot _); [done|].
    unfold saved_votes, commands. cbn. by rewrite omap_app, app_nil_r.
  - apply _.
  - vote_mono.
  - vote_mono.
  - vote_mono.
  - vote_mono.
  - vote_mono.
Qed.

Lemma accepts_initialize_fresh e m :
  accepts_initialize e m = true → last_log_id (Engine_state e) = None ∧ Vote_term (local_vote e) = 0%N.
Proof.
  unfold accepts_initialize, is_initialized. intros [Hi _]%andb_true_iff. destruct (last_log_id _); [done|].
  split; [done|]. apply negb_true_iff, bool_decide_eq_false in Hi. by apply dec_stable in Hi.
Qed.

(** ** Properties *)

(** C21: whatever the runtime makes the engine of a node do after its start, short of
    an initialization that is accepted, the vote never moves back, and the votes it
    asks the store to save are in order: each lies between the vote before, or the
    one saved before it, and the vote after.  An initialization saves no vote; it
    is accepted only by a node without logs whose vote is of term 0, and gives the
    node its own committed vote of term 0, whatever vote of term 0 it held. *)
Theorem vote_never_moves_back i w w' :
  take_input i w = Ret (tt, w') →
  match i with
  | Input_Initialize membership =>
      saved_votes (w_engine w') = saved_votes (w_engine w) ∧
      if accepts_initialize (w_engine w) membership
      then last_log_id (Engine_state (w_engine w)) = None ∧ Vote_term (local_vote (w_engine w)) = 0%N ∧
        local_vote (w_engine w') = initial_vote (w_engine w)
      else local_vote (w_engine w') = local_vote (w_engine w)
  | _ =>
      pleb (local_vote (w_engine w)) (local_vote (w_engine w')) = true ∧
      ∃ vs, saved_votes (w_engine w') = saved_votes (w_engine w) ++ vs ∧
        rising (local_vote (w_engine w)) vs (local_vote (w_engine w'))
  end.
Proof.
  assert (VoteMono (take_input i) → take_input i w = Ret (tt, w') →
    pleb (local_vote (w_engine w)) (local_vote (w_engine w')) = true ∧ votes_rise (w_engine w) (w_engine w'))
    as Hmono.
  { intros Hm (vs & Hs & Hr)%Hm. split; [by eapply rising_end|by exists vs]. }
  destruct i as [|m| | | | | | | | |]; try (apply Hmono, mono_take_input; done).
  cbn [take_input]. rewrite M_bind_eq. destruct (Engine_initialize m w) as [[r w1]|] eqn:E; [|done].
  intros [= <-]. apply initialize_votes in E as [Hs Hl]. split; [done|].
  destruct (accepts_initialize _ m) eqn:Ha; [|done]. by destruct (accepts_initialize_fresh _ _ Ha).
Qed.
End vote_safety.

(** ** Witnesses *)

Module VoteSafetyWitness.
#[local] Existing Instance adv_config.
Import MembershipWitness FollowingWitness VoteHandlerWitness EngineImplWitness.
#[local] Existing Instance env.

Definition after_input (i : Input) (w : World) : World :=
  match take_input i w with Ret (_, w') => w' | Panic => w end.
Definition elected : World := after_input (Input_Event Event_Elect) world0.

(** A node without logs that holds a vote of term 0 of node 7. *)
Definition fresh : World :=
  mkWorld (Engine_new (set_vote (RaftState_new 3)
    (Leased_new 0 0 (Vote_new_committed (C := adv_config) 0 7))) (EngineConfig_new 3 Config_default 200)) 0 0.
Definition initialized : World := after_input (Input_Initialize m123) fresh.

(** An election, and an initialization that lowers the vote. *)
Lemma vote_never_moves_back_witness :
  (pleb (local_vote node) (local_vote (w_engine elected)) = true ∧
    saved_votes (w_engine elected) = [Vote_new (C := adv_config) 3 3]) ∧
  local_vote (w_engine initialized) = Vote_new_committed (C := adv_config) 0 3 ∧
  pltb (local_vote (w_engine initialized)) (local_vote (w_engine fresh)) = true.
Proof.
  split.
  - destruct (vote_never_moves_back (Input_Event Event_Elect) world0 elected) as [H _].
    + vm_compute. reflexivity.
    + split; [exact H|]. vm_compute. reflexivity.
  - destruct (vote_never_moves_back (Input_Initialize m123) fresh initialized) as [_ H].
    + vm_compute. reflexivity.
    + vm_compute in H |- *. destruct H as (_ & _ & H). by split.
Defined.
End VoteSafetyWitness.
