(* ===== verification/Cluster.v ===== *)
(** * Elections in a cluster

    A cluster of nodes, each an engine, as a step relation: a node handles an
    event, answers a vote request, or runs the next of its commands.  The
    responses a node has given to candidates are recorded; [run_save_vote] and
    [handle_vote_request] of [core/raft_core.rs] are the two places where the
    runtime produces them.  Rule induction shows that the votes one node has
    granted are totally ordered, and the intersection of quorums then orders
    the votes of any two elected leaders. *)

From S2P Require Import Prelude Vote LogId LogIdList Quorum Membership VecProgress IOState.
From S2P Require Import MembershipState Entry RaftState Config ProgressEntry Proposer Command.
From S2P Require Import Engine Replication Following LeaderHandler VoteHandler EngineImpl.
From S2P Require Import VoteSafety.

Section cluster.
Context {C : RaftTypeConfig} `{!Env}.

(** [RaftCore::handle_vote_request]: the response waits until the vote is
    flushed. *)
Definition handle_vote_request (req : VoteRequest) (tx : Sender) : M VoteResponse :=
  resp ← handle_vote_req req;
  st ← gets Engine_state;
  modify (push (Command_Respond (Some (Condition_IOFlushed (IOId_new (vote_ref st))))
    (Respond_Vote resp tx)));;
  mret resp.

(** [RaftCore::run_save_vote]: the response of the node to its own candidate,
    after the vote is saved. *)
Definition run_save_vote_response (vote : Vote) : option VoteResponse :=
  match Vote_into_vote_status vote with
  | VoteStatus_Pending _ => Some (VoteResponse_new vote None true)
  | VoteStatus_Committed _ => None
  end.

(** Takes the next command of a node out of its queue. *)
Definition take_command (e : Engine) (rest : list Command) : Engine :=
  set_output e (mkEngineOutput rest (EngineOutput_pending_responds (Engine_output e))).

Record Cluster := mkCluster {
  nodes : N → World;
  vote_responses : list (N * VoteResponse);
}.

Definition set_node (c : Cluster) (n : N) (w : World) : N → World :=
  λ x, if decide (x = n) then w else nodes c x.

(** Node [n] runs [cmd]; only [SaveVote] answers a candidate. *)
Definition run_command (c : Cluster) (n : N) (cmd : Command) (rest : list Command) : Cluster :=
  mkCluster
    (set_node c n (mkWorld (take_command (w_engine (nodes c n)) rest)
       (w_clock_reads (nodes c n)) (w_random_draws (nodes c n))))
    (match cmd with
     | Command_SaveVote v =>
         match run_save_vote_response v with
         | Some resp => (n, resp) :: vote_responses c
         | None => vote_responses c
         end
     | _ => vote_responses c
     end).

Inductive cluster_step (c : Cluster) : Cluster → Prop :=
| step_event n ev w :
    handle ev (nodes c n) = Ret (tt, w) →
    cluster_step c (mkCluster (set_node c n w) (vote_responses c))
| step_vote_request n req tx resp w :
    handle_vote_request req tx (nodes c n) = Ret (resp, w) →
    cluster_step c (mkCluster (set_node c n w) ((n, resp) :: vote_responses c))
| step_command n cmd rest :
    commands (w_engine (nodes c n)) = cmd :: rest →
    cluster_step c (run_command c n cmd rest).

(** A cluster that has just started: nothing is queued or answered. *)
Definition cluster_init (c : Cluster) : Prop :=
  vote_responses c = [] ∧ ∀ n, commands (w_engine (nodes c n)) = [].

Definition reachable (c : Cluster) : Prop := ∃ c0, cluster_init c0 ∧ rtc cluster_step c0 c.

(** [n] has granted [v] to the candidate that asked for it. *)
Definition has_granted (c : Cluster) (n : N) (v : Vote) : Prop :=
  ∃ resp, (n, resp) ∈ vote_responses c ∧ VoteResponse_vote_granted resp = true ∧
    VoteResponse_vote resp = v.

(** A candidate with vote [v] and voters [m] can be elected: the nodes of [S],
    a quorum of [m], have granted its vote. *)
Definition elected_by (c : Cluster) (m : Membership) (v : Vote) (S : list N) : Prop :=
  NoDup S ∧ is_quorum m S = true ∧ ∀ n, n ∈ S → has_granted c n v.

(** ** The invariant *)

Context `{!RaftLeaderIdLaws C}.
Implicit Types (c : Cluster) (n : N) (v : Vote).

Definition ordered_votes (a b : Vote) : Prop := pleb a b = true ∨ pleb b a = true.

(** A vote that [n] has answered with or is about to save. *)
Definition held c n v : Prop :=
  (∃ resp, (n, resp) ∈ vote_responses c ∧ VoteResponse_vote resp = v) ∨
  v ∈ saved_votes (w_engine (nodes c n)).

Record cluster_inv c : Prop := {
  inv_below : ∀ n v, held c n v → pleb v (local_vote (w_engine (nodes c n))) = true;
  inv_ordered : ∀ n v v', held c n v → held c n v' → ordered_votes v v';
}.

Lemma rising_bounds a vs b v : rising a vs b → v ∈ vs → pleb a v = true ∧ pleb v b = true.
Proof.
  revert a. induction vs as [|x vs IH]; intros a; cbn; [by intros _ []%elem_of_nil|].
  intros [Hax Hr] [->|Hv]%elem_of_cons.
  - split; [done|]. clear IH Hax. revert x Hr. induction vs as [|y vs IH]; intros x; cbn; [done|].
    intros [? ?]. eapply pleb_trans; [done|by apply IH].
  - destruct (IH x Hr Hv) as [? ?]. split; [by eapply pleb_trans|done].
Qed.

Lemma rising_ordered a vs b v v' : rising a vs b → v ∈ vs → v' ∈ vs → ordered_votes v v'.
Proof.
  revert a. induction vs as [|x vs IH]; intros a; cbn; [by intros _ []%elem_of_nil|].
  intros [_ Hr] [->|Hv]%elem_of_cons [->|Hv']%elem_of_cons.
  - left. apply pleb_refl.
  - left. by apply (rising_bounds _ _ _ _ Hr).
  - right. by apply (rising_bounds _ _ _ _ Hr).
  - by apply (IH x).
Qed.

Lemma ordered_votes_sym v v' : ordered_votes v v' → ordered_votes v' v.
Proof. unfold ordered_votes. tauto. Qed.

(** A step of one node, after which it may also have answered with its vote. *)
Lemma inv_node_step c n w answers :
  cluster_inv c → votes_rise (w_engine (nodes c n)) (w_engine w) →
  (∀ resp, resp ∈ answers → VoteResponse_vote resp = local_vote (w_engine w)) →
  cluster_inv (mkCluster (set_node c n w) ((pair n <$> answers) ++ vote_responses c)).
Proof.
  intros [Hb Ho] (vs & Hs & Hr) Ha. set (c' := mkCluster _ _).
  assert (nodes c' n = w) as Hn by (cbn; unfold set_node; by rewrite decide_True).
  assert (∀ x, x ≠ n → nodes c' x = nodes c x) as Hne
    by (intros x Hx; cbn; unfold set_node; by rewrite decide_False).
  assert (∀ v, held c' n v → held c n v ∨ v ∈ vs ∨ v = local_vote (w_engine w)) as Hheld.
  { intros v [(resp & [(r & [= <-] & Hin)%list_elem_of_fmap|Hin]%elem_of_app & <-)|Hin].
    - right. right. by apply Ha.
    - left. left. by exists resp.
    - rewrite Hn, Hs in Hin. apply elem_of_app in Hin as [Hin|Hin]; [left; by right|by right; left]. }
  assert (∀ x v, x ≠ n → held c' x v → held c x v) as Hother.
  { intros x v Hx [(resp & [(r & [= -> _] & _)%list_elem_of_fmap|Hin]%elem_of_app & <-)|Hin]; [done|..].
    - left. by exists resp.
    - right. by rewrite <- Hne. }
  assert (∀ v, held c n v → pleb v (local_vote (w_engine (nodes c n))) = true) as Hbn by apply Hb.
  pose proof (rising_end _ _ _ Hr) as Hend.
  assert (∀ v, held c' n v → pleb v (local_vote (w_engine w)) = true) as Hbelow.
  { intros v [Hv|[Hv| ->]]%Hheld; [|by eapply rising_bounds|apply pleb_refl].
    eapply pleb_trans; [by apply Hbn|exact Hend]. }
  split.
  - intros x v Hv. destruct (decide (x = n)) as [->|Hx]; [rewrite Hn; by apply Hbelow|].
    rewrite Hne by done. apply Hb. by apply Hother.
  - intros x v v' Hv Hv'. destruct (decide (x = n)) as [->|Hx]; [|by apply (Ho x); apply Hother].
    pose proof (Hbelow v Hv) as Hvw. pose proof (Hbelow v' Hv') as Hvw'.
    apply Hheld in Hv as [Hv|[Hv| ->]]; [| |by right].
    + apply Hheld in Hv' as [Hv'|[Hv'| ->]]; [by apply (Ho n)| |by left].
      left. eapply pleb_trans; [by apply Hbn|]. apply (rising_bounds _ _ _ _ Hr Hv').
    + apply Hheld in Hv' as [Hv'|[Hv'| ->]]; [|by eapply rising_ordered|by left].
      right. eapply pleb_trans; [by apply Hbn|]. apply (rising_bounds _ _ _ _ Hr Hv).
Qed.
Lemma vote_response_vote b w resp w' :
  vote_response b w = Ret (resp, w') → VoteResponse_vote resp = local_vote (w_engine w').
Proof. unfold vote_response. m_steps. by intros [= <- <-]. Qed.

(** The response to a vote request carries the vote of the node. *)
Lemma handle_vote_req_vote req w resp w' :
  handle_vote_req req w = Ret (resp, w') → VoteResponse_vote resp = local_vote (w_engine w').
Proof.
  unfold handle_vote_req. rewrite M_bind_eq. destruct (now w) as [[t w1]|]; [|done].
  rewrite M_bind_eq. destruct (is_leader_lease_valid _ _ _) as [[[] w2]|]; [apply vote_response_vote| |done].
  rewrite M_bind_eq, gets_eq. destruct (is_candidate_log_behind _ _); [apply vote_response_vote|].
  rewrite M_bind_eq. destruct (update_vote _ _) as [[r w3]|]; [|done]. apply vote_response_vote.
Qed.

Lemma handle_vote_request_spec req tx w resp w' :
  handle_vote_request req tx w = Ret (resp, w') →
  votes_rise (w_engine w) (w_engine w') ∧ VoteResponse_vote resp = local_vote (w_engine w').
Proof.
  intros Hrun. split.
  - revert Hrun. assert (VoteMono (handle_vote_request req tx)) as Hm; [|apply Hm].
    unfold handle_vote_request. apply mono_bind; [apply _|]. intros r. apply mono_bind; [apply _|].
    intros st. apply mono_bind; [|intros; apply _]. apply mono_modify. intros e. split; [|done].
    unfold saved_votes, commands. cbn. by rewrite omap_app, app_nil_r.
  - unfold handle_vote_request in Hrun. rewrite M_bind_eq in Hrun.
    destruct (handle_vote_req req w) as [[r w1]|] eqn:E; [|done].
    apply handle_vote_req_vote in E. rewrite M_bind_eq, gets_eq, M_bind_eq, modify_eq in Hrun.
    injection Hrun as <- <-. exact E.
Qed.

(** Running a command moves a vote from the queue to the responses. *)
Lemma inv_command_step c n cmd rest :
  cluster_inv c → commands (w_engine (nodes c n)) = cmd :: rest →
  let w := mkWorld (take_command (w_engine (nodes c n)) rest)
             (w_clock_reads (nodes c n)) (w_random_draws (nodes c n)) in
  ∀ responses, (∀ x resp, (x, resp) ∈ responses → (x, resp) ∈ vote_responses c ∨
      x = n ∧ cmd = Command_SaveVote (VoteResponse_vote resp)) →
  cluster_inv (mkCluster (set_node c n w) responses).
Proof.
  intros [Hb Ho] Hcmd w responses Hresp. set (c' := mkCluster _ _).
  assert (∀ x, local_vote (w_engine (nodes c' x)) = local_vote (w_engine (nodes c x))) as Hl.
  { intros x. cbn. unfold set_node. by case_decide; subst. }
  assert (∀ x v, held c' x v → held c x v) as Hheld.
  { intros x v [(resp & Hin & <-)|Hin].
    - destruct (Hresp x resp Hin) as [Hin'|[-> Hc]]; [left; by exists resp|right].
      unfold saved_votes. rewrite Hcmd, Hc. cbn. by left.
    - right. cbn in Hin. unfold set_node in Hin. case_decide as Hx; [|done]. subst x.
      unfold saved_votes in *. rewrite Hcmd. cbn in Hin. cbn. by destruct cmd; try right. }
  split.
  - intros x v Hv. rewrite Hl. by apply Hb, Hheld.
  - intros x v v' Hv Hv'. by apply (Ho x); apply Hheld.
Qed.

Lemma inv_step c c' : cluster_inv c → cluster_step c c' → cluster_inv c'.
Proof.
  intros Hinv Hstep. destruct Hstep as [n ev w Hrun|n req tx resp w Hrun|n cmd rest Hcmd].
  - apply (inv_node_step c n w []); [done| |by intros r []%elem_of_nil]. by eapply mono_handle.
  - apply handle_vote_request_spec in Hrun as [Hr Hv].
    apply (inv_node_step c n w [resp]); [done|done|]. by intros r ->%list_elem_of_singleton.
  - apply (inv_command_step c n cmd rest Hinv Hcmd). intros x resp Hin.
    destruct cmd; auto. unfold run_save_vote_response in Hin.
    destruct (Vote_into_vote_status vote); [by left|].
    apply elem_of_cons in Hin as [[= -> ->]|Hin]; [by right|by left].
Qed.

Lemma inv_init c : cluster_init c → cluster_inv c.
Proof.
  intros [Hr Hc]. assert (∀ n v, ¬ held c n v) as Hno.
  { intros n v [(resp & Hin & _)|Hin]; [rewrite Hr in Hin|unfold saved_votes in Hin; rewrite Hc in Hin];
      by apply elem_of_nil in Hin. }
  split; intros n v; [by intros []%Hno|by intros v' []%Hno].
Qed.

Lemma cluster_reachable_inv c : reachable c → cluster_inv c.
Proof.
  intros (c0 & Hi & Hs). apply inv_init in Hi. induction Hs as [|c0 c1 c Hs _ IH]; [done|].
  apply IH. by eapply inv_step.
Qed.

(** A node of both quorums has granted both votes. *)
Lemma elected_ordered c m m' v v' S S' :
  reachable c →
  (m = m' ∧ Membership_configs m ≠ []) ∨ is_direct_append_compatible_with m m' = true →
  elected_by c m v S → elected_by c m' v' S' → ordered_votes v v'.
Proof.
  intros Hc%cluster_reachable_inv Hm (Hn & Hq & Hg) (Hn' & Hq' & Hg').
  destruct (compatible_quorums_intersect m m' S S' Hm Hn Hn' Hq Hq') as (x & Hx & Hx' & _).
  destruct (Hg x Hx) as (r & Hr & _ & <-), (Hg' x Hx') as (r' & Hr' & _ & <-).
  apply (inv_ordered c Hc x); left; [by exists r|by exists r'].
Qed.

(** ** Properties *)

(** C7: election safety: in every reachable state of a cluster, the votes of
    two candidates that quorums have granted, of the same membership or of two
    memberships that may follow each other, are ordered: one leader outranks
    the other. *)
Theorem elected_votes_ordered c m m' v v' S S' :
  reachable c →
  (m = m' ∧ Membership_configs m ≠ []) ∨ is_direct_append_compatible_with m m' = true →
  elected_by c m v S → elected_by c m' v' S' → ordered_votes v v'.
Proof. apply elected_ordered. Qed.
End cluster.

(** ** One leader per term *)

Section std.
Context (Node0 AppData0 SnapshotData0 : Type) `{!EqDecision Node0}.
#[local] Instance std : RaftTypeConfig := LeaderIdStd.config Node0 AppData0 SnapshotData0 _.
#[local] Instance std_laws : RaftLeaderIdLaws std := LeaderIdStd.config_laws _ _ _ _.
Context `{!Env}.

Lemma ordered_same_term (v v' : Vote) :
  ordered_votes v v' → Vote_term v = Vote_term v' → Vote_committed v = Vote_committed v' → v = v'.
Proof.
  intros Ho Ht Hc. destruct v as [[t n] b], v' as [[t' n'] b']. cbn in Ht, Hc. subst t' b'.
  assert (n = n') as ->; [|done].
  unfold ordered_votes, pleb in Ho. unfold partial_cmp, Vote_partial_ord, RefVote_partial_cmp in Ho. cbn in Ho.
  unfold partial_cmp, LeaderIdStd.partial_ord, LeaderIdStd.LeaderIdCompare_std in Ho. cbn in Ho.
  rewrite cmp_refl in Ho. repeat case_decide; try done; destruct b; naive_solver.
Qed.

(** With the standard leader id, where a node votes for one candidate per
    term, a term has at most one elected candidate. *)
Theorem one_leader_per_term (c : Cluster) (m m' : Membership) (v v' : Vote) (S S' : list N) :
  reachable c →
  (m = m' ∧ Membership_configs m ≠ []) ∨ is_direct_append_compatible_with m m' = true →
  elected_by c m v S → elected_by c m' v' S' →
  Vote_committed v = Vote_committed v' → Vote_term v = Vote_term v' → v = v'.
Proof.
  intros Hc Hm He He' Hcom Ht. apply ordered_same_term; [|done|done].
  by apply (elected_ordered c m m' v v' S S').
Qed.
End std.

(** ** Witnesses *)

Module ClusterWitness.
#[local] Existing Instance std_config.
Import VoteHandlerWitness.
#[local] Existing Instance env.

Definition nodes3 : gmap N Node := list_to_map [(1, tt); (2, tt); (3, tt)]%N.
Definition m3 : Membership := mkMembership [{[1; 2; 3]}%N] nodes3.

(** Three new nodes, and the cluster after node [n] answered a request for
    the vote of [cand] in term [t]. *)
Definition start : Cluster :=
  mkCluster (λ n, mkWorld (Engine_new (RaftState_new n) (EngineConfig_new n Config_default 200)) 0 0) [].
Definition request (t cand : N) : VoteRequest := mkVoteRequest (Vote_new t cand) None false false.
Definition answer (c : Cluster) (n t cand : N) : Cluster :=
  match handle_vote_request (request t cand) 0%N (nodes c n) with
  | Ret (resp, w) => mkCluster (set_node c n w) ((n, resp) :: vote_responses c)
  | Panic => c
  end.

Lemma answer_step c n t cand :
  match handle_vote_request (request t cand) 0%N (nodes c n) with Ret _ => true | Panic => false end = true →
  cluster_step c (answer c n t cand).
Proof.
  unfold answer. destruct (handle_vote_request _ _ _) as [[resp w]|] eqn:E; [|done]. intros _.
  by eapply step_vote_request.
Defined.

(** Nodes 1 and 2 elect node 1 in term 1, then nodes 2 and 3 elect node 2 in
    term 2. *)
Definition c1 : Cluster := answer start 1 1 1.
Definition c2 : Cluster := answer c1 2 1 1.
Definition c3 : Cluster := answer c2 2 2 2.
Definition c4 : Cluster := answer c3 3 2 2.

Lemma c4_reachable : reachable c4.
Proof.
  exists start. split; [done|].
  eapply rtc_l; [apply (answer_step start 1 1 1); vm_compute; reflexivity|].
  eapply rtc_l; [apply (answer_step c1 2 1 1); vm_compute; reflexivity|].
  eapply rtc_l; [apply (answer_step c2 2 2 2); vm_compute; reflexivity|].
  eapply rtc_l; [apply (answer_step c3 3 2 2); vm_compute; reflexivity|]. apply rtc_refl.
Defined.

Lemma granted_in c n v i resp :
  vote_responses c !! i = Some (n, resp) → VoteResponse_vote_granted resp = true →
  VoteResponse_vote resp = v → has_granted c n v.
Proof. intros Hi Hg Hv. exists resp. split; [by eapply list_elem_of_lookup_2|done]. Defined.

Lemma c4_elected_1 : elected_by c4 m3 (Vote_new 1 1) [1; 2]%N.
Proof.
  split_and!; [refine (bool_decide_eq_true_1 _ _); vm_compute; reflexivity|vm_compute; reflexivity|].
  intros n [-> | [-> | []%elem_of_nil]%elem_of_cons]%elem_of_cons.
  - apply (granted_in c4 1 (Vote_new 1 1) 3 (mkVoteResponse (Vote_new 1 1) true None)); vm_compute; reflexivity.
  - apply (granted_in c4 2 (Vote_new 1 1) 2 (mkVoteResponse (Vote_new 1 1) true None)); vm_compute; reflexivity.
Defined.

Lemma c4_elected_2 : elected_by c4 m3 (Vote_new 2 2) [2; 3]%N.
Proof.
  split_and!; [refine (bool_decide_eq_true_1 _ _); vm_compute; reflexivity|vm_compute; reflexivity|].
  intros n [-> | [-> | []%elem_of_nil]%elem_of_cons]%elem_of_cons.
  - apply (granted_in c4 2 (Vote_new 2 2) 1 (mkVoteResponse (Vote_new 2 2) true None)); vm_compute; reflexivity.
  - apply (granted_in c4 3 (Vote_new 2 2) 0 (mkVoteResponse (Vote_new 2 2) true None)); vm_compute; reflexivity.
Defined.

Lemma elected_votes_ordered_witness : ordered_votes (Vote_new 1 1) (Vote_new 2 2).
Proof.
  apply (elected_votes_ordered c4 m3 m3 (Vote_new 1 1) (Vote_new 2 2) [1; 2]%N [2; 3]%N c4_reachable).
  - by left.
  - apply c4_elected_1.
  - apply c4_elected_2.
Defined.

(** Node 1 follows: another quorum has elected node 2. *)
Definition c5 : Cluster := answer c4 1 2 2.

Lemma c5_reachable : reachable c5.
Proof.
  destruct c4_reachable as (c0 & Hi & Hs). exists c0. split; [exact Hi|].
  eapply rtc_r; [exact Hs|]. apply (answer_step c4 1 2 2). vm_compute. reflexivity.
Defined.

Lemma c5_elected (a b : N) (i j : nat) :
  bool_decide (NoDup [a; b]) && is_quorum m3 [a; b] = true →
  vote_responses c5 !! i = Some (a, mkVoteResponse (Vote_new 2 2) true None) →
  vote_responses c5 !! j = Some (b, mkVoteResponse (Vote_new 2 2) true None) →
  elected_by c5 m3 (Vote_new 2 2) [a; b].
Proof.
  intros [Hn%bool_decide_eq_true Hq]%andb_prop Ha Hb. split_and!; [done|done|].
  intros n [-> | [-> | []%elem_of_nil]%elem_of_cons]%elem_of_cons; by eapply granted_in.
Defined.

Lemma one_leader_per_term_witness :
  elected_by c5 m3 (Vote_new 2 2) [2; 3]%N ∧ elected_by c5 m3 (Vote_new 2 2) [1; 3]%N ∧
  Vote_new (C := std_config) 2 2 = Vote_new 2 2.
Proof.
  assert (elected_by c5 m3 (Vote_new 2 2) [2; 3]%N) as H1
    by (apply (c5_elected 2 3 2 1); vm_compute; reflexivity).
  assert (elected_by c5 m3 (Vote_new 2 2) [1; 3]%N) as H2
    by (apply (c5_elected 1 3 0 1); vm_compute; reflexivity).
  split; [exact H1|]. split; [exact H2|].
  apply (one_leader_per_term unit N unit c5 m3 m3 (Vote_new 2 2) (Vote_new 2 2) [2; 3]%N [1; 3]%N c5_reachable).
  - by left.
  - exact H1.
  - exact H2.
  - reflexivity.
  - reflexivity.
Defined.
End ClusterWitness.
