(* ===== verification/Election.v ===== *)
(** * Leaders are elected

    The votes a cluster grants are ordered ([Cluster.v]); here the leaders of a
    cluster are tied to them.  A message with a committed vote comes from a
    leader and a response to a candidate from a node that gave it; then every
    leader holds a vote that a quorum granted, and a term has one leader.  The
    invariant of one node is kept by each handler, shown in the order in which
    the handlers call each other. *)

From S2P Require Import Prelude Vote LogId LogIdList Quorum Membership VecProgress IOState.
From S2P Require Import MembershipState Entry RaftState Config ProgressEntry Proposer Command.
From S2P Require Import Engine Replication Following LeaderHandler VoteHandler EngineImpl.
From S2P Require Import VoteSafety Cluster.

(** ** The invariant of one node *)

Section node.
Context {C : RaftTypeConfig} `{!Env} `{!RaftLeaderIdLaws C}.
(** [granted x v]: node [x] has granted [v]; [m] is the membership the nodes
    act under and [id] the node. *)
Context (granted : N → Vote → Prop) (m : Membership) (id : N).
Implicit Types (e : Engine) (w : World) (v : Vote).

(** The vote of a candidate whose committed vote is [cv]. *)
Definition candidate_vote (cv : CommittedVote) : Vote := mkVote (CommittedVote_leader_id cv) false.

(** A committed vote of an elected leader; term 0 is that of the node that
    initialized the cluster. *)
Definition established (cv : CommittedVote) : Prop :=
  Vote_term (candidate_vote cv) = 0%N ∨
  ∃ S, NoDup S ∧ is_quorum m S = true ∧ ∀ x, x ∈ S → granted x (candidate_vote cv).

Definition leader_ok (l : Leader) : Prop :=
  established (Leader_committed_vote l) ∧ Leader_node_id l = id.

Definition vote_ok v : Prop :=
  Vote_is_committed v = true → established (Vote_to_committed v).

(** The tally of a candidate counts granted votes only. *)
Definition candidate_ok (c : Candidate) : Prop :=
  Vote_is_committed (Candidate_vote c) = false ∧ Vote_leader_node_id (Candidate_vote c) = id ∧
  ∃ S, tally_ok m S (Candidate_progress c) ∧ ∀ x, x ∈ S → granted x (Candidate_vote c).

Record elect_inv e : Prop := {
  ei_id : Engine_id e = id;
  ei_leader : ∀ l, Engine_leader e = Some l → leader_ok l;
  ei_vote : vote_ok (local_vote e);
  ei_candidate : ∀ c, Engine_candidate e = Some c → candidate_ok c;
}.

(** ** Triples *)

Definition keeps {A} (x : M A) (Q : A → Prop) : Prop :=
  ∀ w a w', elect_inv (w_engine w) → x w = Ret (a, w') → elect_inv (w_engine w') ∧ Q a.

Class Keeps {A} (x : M A) : Prop := keeps_inv : keeps x (λ _, True).

(** A function on engines that leaves leader, candidate, vote and id alone. *)
Class ElectFrame (f : Engine → Engine) : Prop :=
  elect_frame : ∀ e, Engine_leader (f e) = Engine_leader e ∧
    Engine_candidate (f e) = Engine_candidate e ∧ local_vote (f e) = local_vote e ∧
    Engine_id (f e) = Engine_id e.

Lemma frame_inv f e : ElectFrame f → elect_inv e → elect_inv (f e).
Proof.
  intros Hf [Hi Hl Hv Hc]. destruct (Hf e) as (E1 & E2 & E3 & E4).
  split; by rewrite ?E1, ?E2, ?E3, ?E4.
Qed.

Lemma keeps_bind {A B} (x : M A) (f : A → M B) Q Q' :
  keeps x Q → (∀ a, Q a → keeps (f a) Q') → keeps (x ≫= f) Q'.
Proof.
  intros Hx Hf w b w' Hi. rewrite M_bind_eq. destruct (x w) as [[a w1]|] eqn:E; [|done].
  destruct (Hx w a w1 Hi E) as [Hi1 Ha]. by apply Hf.
Qed.

Lemma keeps_weaken {A} (x : M A) Q : Keeps x → (∀ a, Q a) → keeps x Q.
Proof. intros Hx HQ w a w' Hi Hr. split; [by eapply Hx|done]. Qed.

Lemma keeps_get : keeps get elect_inv.
Proof. by intros w a w' Hi [= <- <-]. Qed.
Lemma keeps_the_leader : keeps the_leader leader_ok.
Proof.
  intros w a w' Hi. unfold the_leader. destruct (Engine_leader _) as [l|] eqn:E; [|done].
  intros [= <- <-]. split; [done|]. by apply (ei_leader _ Hi).
Qed.
Lemma keeps_lift {A} (o : outcome A) : keeps (lift o) (λ a, o = Ret a).
Proof. intros w a w' Hi. unfold lift. destruct o; [|done]. by intros [= <- <-]. Qed.
Lemma keeps_put_leader l : leader_ok l → Keeps (put_leader l).
Proof. intros Hl w a w' [] [= <- <-]. split; [|done]. split; try done. by intros l' [= <-]. Qed.

#[global] Instance keeps_ret {A} (a : A) : Keeps (mret a).
Proof. by intros w a' w' Hi [= <- <-]. Qed.
#[global] Instance keeps_gets {A} (f : Engine → A) : Keeps (gets f).
Proof. by intros w a w' Hi [= <- <-]. Qed.
#[global] Instance keeps_panic {A} : Keeps (panic (A := A)).
Proof. intros w a w' Hi [=]. Qed.
#[global] Instance keeps_now : Keeps now.
Proof. by intros w a w' Hi [= <- <-]. Qed.
#[global] Instance keeps_draw lo hi : Keeps (draw lo hi).
Proof. by intros w a w' Hi [= <- <-]. Qed.
#[global] Instance keeps_modify f : ElectFrame f → Keeps (modify f).
Proof. intros Hf w a w' Hi [= <- <-]. split; [by apply frame_inv|done]. Qed.

(** Runs through a handler; what remains are the leaders it stores. *)
Ltac elect_frame :=
  intros ?; unfold local_vote; cbn;
  first [done | repeat (case_match; cbn); done].
Ltac keeps_step :=
  match goal with
  | |- Keeps _ => unfold Keeps
  | |- keeps (get ≫= _) _ => eapply keeps_bind; [apply keeps_get|intros ? ?]
  | |- keeps (the_leader ≫= _) _ => eapply keeps_bind; [apply keeps_the_leader|intros ? ?]
  | |- keeps (lift _ ≫= _) _ => eapply keeps_bind; [apply keeps_lift|intros ? ?]
  | |- keeps (_ ≫= _) _ => apply (keeps_bind _ _ (λ _, True)); [|intros ? _]
  | |- keeps (match ?x with _ => _ end) _ => destruct x eqn:?
  | H : leader_ok _ |- keeps (put_leader _) _ => apply keeps_put_leader; exact H
  | |- keeps (lift _) _ => intros ? ? ? ? ?%keeps_lift; naive_solver
  | |- keeps ?x (λ _, True) => change (Keeps x); apply _
  | |- keeps (modify _) (λ _, True) => apply keeps_modify; elect_frame
  end.
Ltac keeps := repeat keeps_step.

(** ** Frames *)

#[global] Instance eframe_update_server_state : ElectFrame update_server_state_if_changed.
Proof. intros e. rewrite update_server_state_eq. done. Qed.
#[global] Instance eframe_purge_log : ElectFrame LogHandler_purge_log.
Proof. unfold LogHandler_purge_log. elect_frame. Qed.
#[global] Instance eframe_schedule : ElectFrame schedule_policy_based_purge.
Proof. unfold schedule_policy_based_purge. elect_frame. Qed.
#[global] Instance eframe_accept_log_io io :
  ElectFrame (λ e, set_state e (accept_log_io (Engine_state e) io).1).
Proof. intros e. split_and!; try done. apply accept_log_io_vote. Qed.

(** ** Replication *)

#[global] Instance keeps_rebuild_progresses : Keeps rebuild_progresses.
Proof.
  unfold rebuild_progresses. keeps. intros w ? w' [? ? ? ?] [= <- <-]. split; [|done].
  split; try done. by intros l [= <-].
Qed.
#[global] Instance keeps_try_update_leader_clock sid target t :
  Keeps (try_update_leader_clock sid target t).
Proof.
  unfold try_update_leader_clock. keeps. apply keeps_put_leader.
  unfold update_clock in *. by destruct (increase_to _ target _); simplify_eq.
Qed.
#[global] Instance keeps_try_commit granted0 : Keeps (try_commit_quorum_accepted granted0).
Proof.
  intros w a w' Hi. unfold try_commit_quorum_accepted. m_steps.
  destruct (match granted0 with Some _ => _ | None => false end); [by intros [= <- <-]|].
  m_steps. destruct (MonotonicIncrease_try_update _ _) as [r|]; [|done]. m_steps.
  intros [= <- <-]. cbn [w_engine]. split; [|done].
  set (st1 := match r with Ok v => _ | Err _ => _ end).
  assert (vote_ref (update_local_committed st1 granted0) = local_vote (w_engine w)) as Hv.
  { transitivity (vote_ref st1); [|by destruct r].
    unfold update_local_committed. destruct granted0; [|done]. by destruct (_ <? _). }
  destruct Hi as [? ? Hvote ?]. rewrite <- Hv in Hvote. destruct (_ <? _); by split.
Qed.
#[global] Instance keeps_update_matching node log_id inflight_id :
  Keeps (ReplicationHandler_update_matching node log_id inflight_id).
Proof. unfold ReplicationHandler_update_matching. keeps. Qed.
#[global] Instance keeps_update_conflicting target conflict inflight_id :
  Keeps (ReplicationHandler_update_conflicting target conflict inflight_id).
Proof. unfold ReplicationHandler_update_conflicting. keeps. Qed.
#[global] Instance keeps_allow_next_revert target allow : Keeps (allow_next_revert target allow).
Proof. unfold allow_next_revert. keeps. Qed.
#[global] Instance keeps_r_try_purge_log : Keeps ReplicationHandler_try_purge_log.
Proof. unfold ReplicationHandler_try_purge_log. keeps. Qed.
#[global] Instance keeps_update_progress target sid res inflight_id :
  Keeps (update_progress target sid res inflight_id).
Proof. unfold update_progress. keeps. Qed.
#[global] Instance keeps_rebuild_replication_streams close_old :
  Keeps (rebuild_replication_streams close_old).
Proof. unfold rebuild_replication_streams. keeps. Qed.
#[global] Instance keeps_initiate_replication : Keeps initiate_replication.
Proof.
  intros w a w' Hi. unfold initiate_replication. m_steps. unfold the_leader.
  destruct (Engine_leader (w_engine w)) as [l|] eqn:El; [|done]. m_steps.
  destruct (initiate_loop _ _ _ _ _) as [[[items st] cmds]|] eqn:E; [|done].
  apply initiate_loop_frame in E as [Hv _]. unfold put_leader. m_steps. rewrite push_all.
  intros [= <- <-]. split; [|done]. destruct Hi as [? Hl Hvote ?]. split; try done.
  - intros l' [= <-]. exact (Hl l El).
  - unfold local_vote. cbn. by rewrite Hv.
Qed.
#[global] Instance keeps_r_append_membership log_id m0 :
  Keeps (ReplicationHandler_append_membership log_id m0).
Proof. unfold ReplicationHandler_append_membership. keeps. Qed.
#[global] Instance keeps_update_local_progress upto : Keeps (update_local_progress upto).
Proof. unfold update_local_progress. keeps. Qed.

(** ** The leader *)

#[global] Instance keeps_leader_append_entries payloads : Keeps (leader_append_entries payloads).
Proof.
  unfold leader_append_entries, assign_log_ids.
  eapply keeps_bind; [apply keeps_the_leader|]. intros l Hl. case_decide; keeps.
Qed.
#[global] Instance keeps_send_heartbeat b : Keeps (send_heartbeat b).
Proof. unfold send_heartbeat. keeps. Qed.
#[global] Instance keeps_transfer_leader to : Keeps (transfer_leader to).
Proof. unfold transfer_leader. keeps. Qed.

(** ** The vote *)

#[global] Instance keeps_become_following : Keeps (modify become_following).
Proof.
  intros w a w' [Hi _ Hv _] [= <- <-]. cbn [w_engine]. split; [|done].
  destruct (become_following_eq (w_engine w)) as (_ & Hl & Hc & _ & Hcfg & Hs). split.
  - unfold Engine_id. by rewrite Hcfg.
  - by rewrite Hl.
  - unfold local_vote. by rewrite Hs.
  - by rewrite Hc.
Qed.

(** The leader that the committed own vote of a node creates. *)
Lemma own_vote_leader_ok e l :
  elect_inv e → RaftState_is_leader (Engine_state e) (Engine_id e) = true →
  Leader_committed_vote l = Vote_to_committed (vote_ref (Engine_state e)) → leader_ok l.
Proof.
  intros [Hid _ Hv _] [[_ Hn]%andb_prop Hc]%andb_prop El. unfold leader_ok, Leader_node_id. rewrite El. split.
  - by apply Hv.
  - apply bool_decide_eq_true in Hn. by rewrite <- Hid, <- Hn.
Qed.

Lemma new_leader_cv st t : Leader_committed_vote (new_leader st t).1 = Vote_to_committed (vote_ref st).
Proof. unfold new_leader, Leader_new. done. Qed.

(** What follows the creation of a leader in [become_leader]. *)
Lemma keeps_start_leading leader_vote last_log_id (noop_log_id : LogId) :
  Keeps (
    modify (λ e, set_state e
      (accept_log_io (Engine_state e) (IOId_new_log_io leader_vote last_log_id)).1);;
    modify (push (Command_UpdateIOProgress None (IOId_new_log_io leader_vote last_log_id)));;
    modify update_server_state_if_changed;;
    rebuild_replication_streams true;;
    (if (last_log_id <? Some noop_log_id) then
      leader_append_entries [EntryPayload_Blank];;
      mret tt
    else initiate_replication)).
Proof. keeps. Qed.

Lemma become_leader_keeps w a w' :
  elect_inv (w_engine w) →
  RaftState_is_leader (Engine_state (w_engine w)) (Engine_id (w_engine w)) = true →
  become_leader w = Ret (a, w') → elect_inv (w_engine w').
Proof.
  intros Hi Hlead. unfold become_leader. rewrite M_bind_eq, get_eq, M_bind_eq.
  set (e := w_engine w) in *.
  assert (∀ w1 a1 w1', w_engine w1 = e →
    (t ← now;
     e ← get;
     let '(leader, st) := new_leader (Engine_state e) t in
     modify (λ e, set_leader (set_state e st) (Some leader));;
     let leader_vote := Leader_committed_vote leader in
     let last_log_id := Leader_last_log_id leader in
     let noop_log_id := Leader_noop_log_id leader in
     modify (λ e, set_state e
       (accept_log_io (Engine_state e) (IOId_new_log_io leader_vote last_log_id)).1);;
     modify (push (Command_UpdateIOProgress None (IOId_new_log_io leader_vote last_log_id)));;
     modify update_server_state_if_changed;;
     rebuild_replication_streams true;;
     if (last_log_id <? Some noop_log_id) then
       leader_append_entries [EntryPayload_Blank];;
       mret tt
     else initiate_replication) w1 = Ret (a1, w1') → elect_inv (w_engine w1')) as Hnew.
  { intros w1 a1 w1' Hw1. rewrite M_bind_eq. unfold now. rewrite M_bind_eq, get_eq. cbn [w_engine].
    rewrite Hw1. pose proof (new_leader_cv (Engine_state e) (clock (w_clock_reads w1))) as Hcv.
    pose proof (new_leader_vote (Engine_state e) (clock (w_clock_reads w1))) as Hv.
    destruct (new_leader _ _) as [leader st]. cbn in Hcv, Hv. rewrite M_bind_eq, modify_eq.
    intros Hrun. apply keeps_start_leading in Hrun as [Hrun _]; [done|]. cbn [w_engine].
    pose proof (own_vote_leader_ok _ _ Hi Hlead Hcv) as Hok.
    destruct Hi as [Hid _ Hvote Hc]. split; try done.
    - by intros l [= <-].
    - unfold local_vote. cbn. by rewrite Hv. }
  destruct (Engine_leader e) as [l|] eqn:El; [|by apply Hnew]. case_decide as Hsame; [|by apply Hnew].
  unfold put_leader. m_steps. intros [= <- <-]. cbn [w_engine]. apply frame_inv; [apply _|].
  pose proof (own_vote_leader_ok _ (Leader_set_committed_vote l
    (Vote_to_committed (vote_ref (Engine_state e)))) Hi Hlead eq_refl) as Hok.
  destruct Hi as [Hid _ Hvote Hc]. split; try done. by intros l' [= <-].
Qed.

#[global] Instance keeps_update_internal_server_state : Keeps update_internal_server_state.
Proof.
  intros w a w' Hi. unfold update_internal_server_state. rewrite M_bind_eq, get_eq.
  destruct (RaftState_is_leader _ _) eqn:Hl; [split; [by eapply become_leader_keeps|done]|].
  destruct (is_leading _ _); [by apply keeps_ret|by apply keeps_become_following].
Qed.

Lemma keeps_update_vote vote : vote_ok vote → Keeps (update_vote vote).
Proof.
  intros Hv w a w' [Hid Hl Hvote Hc]. rewrite update_vote_eq. destruct (pgeb _ _) eqn:Hge; [|by intros [= <- <-]].
  destruct (update_internal_server_state _) as [[u w1]|] eqn:E; [|done]. intros [= <- <-].
  apply keeps_update_internal_server_state in E; [done|]. cbn [w_engine].
  destruct (stored_vote_spec vote (clock (w_clock_reads w)) (w_engine w) Hge)
    as (Hv1 & _ & _ & _ & _ & Hcfg & Hl1 & Hc1 & _).
  split; unfold Engine_id, local_vote; by rewrite ?Hcfg, ?Hl1, ?Hv1, ?Hc1.
Qed.

Lemma uncommitted_vote_ok v : Vote_is_committed v = false → vote_ok v.
Proof. unfold vote_ok. by intros ->. Qed.

(** ** Following *)

#[global] Instance eframe_truncate_logs since : ElectFrame (truncate_logs since).
Proof.
  intros e. unfold truncate_logs. destruct (get_log_id _ _); [|done].
  destruct (MembershipState_truncate _ since) as [ms [c|]]; [rewrite update_server_state_eq|]; done.
Qed.
#[global] Instance eframe_do_append_entries cv entries : ElectFrame (do_append_entries cv entries).
Proof.
  intros e. unfold do_append_entries, FollowingHandler_append_membership.
  destruct (last_two_memberships entries); [|rewrite update_server_state_eq]; done.
Qed.
#[global] Instance eframe_append_entries cv prev entries :
  ElectFrame (FollowingHandler_append_entries cv prev entries).
Proof.
  intros e. unfold FollowingHandler_append_entries.
  pose proof (accept_log_io_vote (Engine_state e)
    (IOId_new_log_io cv (omax prev (Entry_log_id <$> last entries)))) as Hv.
  destruct (accept_log_io _ _) as [st pa]. cbn in Hv. destruct (entries !! _) as [ent|].
  - match goal with |- context [do_append_entries _ ?es (truncate_logs ?i ?e1)] =>
      destruct (eframe_do_append_entries cv es (truncate_logs i e1)) as (-> & -> & -> & ->);
      destruct (eframe_truncate_logs i e1) as (-> & -> & -> & ->) end. done.
  - by destruct (pleb _ _).
Qed.

Lemma install_full_snapshot_eframe cv snapshot e cond e' :
  install_full_snapshot cv snapshot e = Ret (cond, e') → elect_inv e → elect_inv e'.
Proof.
  intros Hrun Hi. pose proof (install_full_snapshot_frame _ _ _ _ _ Hrun) as [_ Hv]. revert Hrun.
  unfold install_full_snapshot. destruct (_ <=? _); [by intros [= <- <-]|].
  destruct (SnapshotMeta_last_log_id (Snapshot_meta snapshot)) as [sid|]; [|done].
  cbn [unwrap mbind outcome_bind].
  destruct (LogId_leader_id sid <=? _); cbn [assert mbind outcome_bind]; [|done].
  destruct (match local_committed (Engine_state e) with Some c => _ | None => true end);
    cbn [assert mbind outcome_bind]; [|done].
  assert (elect_inv (update_snapshot e (Snapshot_meta snapshot)).1) as H0.
  { apply (frame_inv (λ e, (update_snapshot e (Snapshot_meta snapshot)).1)); [|done]. intros e0.
    unfold update_snapshot. by destruct (_ <=? _). }
  destruct (update_snapshot _ _) as [e0 []]; cbn in H0; cbn [negb]; [|by intros [= <- <-]].
  set (e1 := match get_log_id _ _ with Some _ => _ | None => e0 end).
  assert (elect_inv e1) as H1.
  { unfold e1. destruct (get_log_id _ _) as [x|]; [|done]. destruct (decide _); [|done].
    apply frame_inv; [apply _|done]. }
  intros [= <- <-]. rewrite membership_install_snapshot_frame in Hv |- *.
  destruct H1 as [Hid Hl Hvote Hc]. destruct Hi as [_ _ Hvote0 _].
  match goal with |- context [LogHandler_purge_log ?e2] =>
    destruct (eframe_purge_log e2) as (E1 & E2 & _ & E4) end.
  split; [rewrite E4; exact Hid|rewrite E1; exact Hl|rewrite Hv; exact Hvote0|rewrite E2; exact Hc].
Qed.

Lemma keeps_append_entries vote segment : vote_ok vote → Keeps (append_entries vote segment).
Proof.
  intros Hv. unfold append_entries. eapply keeps_bind; [by apply keeps_update_vote|].
  intros [u|err] _; [|keeps]. intros w a w' Hi. rewrite M_bind_eq, get_eq.
  assert (elect_inv (ensure_log_consecutive (LogSegment_prev_log_id segment) (w_engine w)).1) as H1.
  { unfold ensure_log_consecutive. destruct (LogSegment_prev_log_id segment) as [p|]; [|done].
    destruct (has_log_id _ p); [done|]. apply frame_inv; [apply _|done]. }
  destruct (ensure_log_consecutive _ _) as [e1 r]. cbn in H1. rewrite M_bind_eq, modify_eq.
  set (w1 := mkWorld e1 _ _). intros Hrun. apply (λ K : keeps _ _, K w1 a w' H1 Hrun). keeps.
Qed.

Lemma keeps_handle_append_entries vote segment tx :
  vote_ok vote → Keeps (handle_append_entries vote segment tx).
Proof.
  intros Hv. unfold handle_append_entries. eapply keeps_bind; [by apply keeps_append_entries|].
  intros r _. keeps.
Qed.

Lemma keeps_handle_install_full_snapshot vote snapshot tx :
  vote_ok vote → Keeps (handle_install_full_snapshot vote snapshot tx).
Proof.
  intros Hv. unfold handle_install_full_snapshot, accept_vote.
  apply (keeps_bind _ _ (λ _, True));
    [eapply keeps_bind; [by apply keeps_update_vote|intros [] _; keeps]|].
  intros [] _; cbn [negb]; [|keeps]. intros w a w' Hi. rewrite M_bind_eq, get_eq, M_bind_eq.
  destruct (install_full_snapshot _ _ _) as [[cond e1]|] eqn:E; [|done].
  apply install_full_snapshot_eframe in E; [|done]. rewrite lift_Ret, M_bind_eq, modify_eq.
  set (w1 := mkWorld e1 _ _). intros Hrun. apply (λ K : keeps _ _, K w1 a w' E Hrun). keeps.
Qed.

(** ** Candidates *)

#[global] Instance keeps_resample : Keeps Engine_resample_election_timeout.
Proof. unfold Engine_resample_election_timeout. keeps. Qed.
#[global] Instance keeps_new_pre_candidate vote : Keeps (new_pre_candidate vote).
Proof. unfold new_pre_candidate, create_candidate. keeps. Qed.

(** The membership a node acts under. *)
Definition effective_membership e : Membership :=
  StoredMembership_membership (MembershipState_effective (RaftState_membership_state (Engine_state e))).

Context (Hm : Membership_configs m ≠ []).

(** A node that acts under [m]. *)
Definition acts_under_inv e : Prop := elect_inv e ∧ effective_membership e = m.

Lemma new_candidate_keeps vote w a w' :
  acts_under_inv (w_engine w) → Vote_is_committed vote = false → Vote_leader_node_id vote = id →
  new_candidate vote w = Ret (a, w') → elect_inv (w_engine w').
Proof.
  intros [[Hid Hl Hv _] Hmem] Hc Hn. unfold new_candidate, create_candidate. m_steps. unfold now. m_steps.
  intros [= <- <-]. split; try done. intros c [= <-]. split_and!; [done|done|]. exists []. split.
  - unfold effective_membership in Hmem. cbn [w_engine]. rewrite Hmem. by apply tally_new.
  - by intros x []%elem_of_nil.
Qed.

Lemma resample_state w a w' :
  Engine_resample_election_timeout w = Ret (a, w') →
  Engine_state (w_engine w') = Engine_state (w_engine w).
Proof.
  unfold Engine_resample_election_timeout. m_steps. destruct (_ <? _); [|done]. unfold draw. m_steps.
  by intros [= <- <-].
Qed.

Lemma do_elect_keeps b w a w' :
  acts_under_inv (w_engine w) → do_elect b w = Ret (a, w') → elect_inv (w_engine w').
Proof.
  intros [Hi Hmem]. unfold do_elect. rewrite M_bind_eq, modify_eq, M_bind_eq, get_eq.
  set (w1 := mkWorld (set_pre_candidate (w_engine w) None) _ _). cbn [w_engine] in w1.
  assert (elect_inv (w_engine w1)) as H1 by (by destruct Hi).
  destruct (Engine_leader (w_engine w1)) as [l|]; [by intros [= <- <-]|].
  rewrite M_bind_eq. destruct (Engine_resample_election_timeout w1) as [[u w2]|] eqn:E; [|done].
  pose proof (resample_state _ _ _ E) as Hst. apply keeps_resample in E as [H2 _]; [|done].
  rewrite M_bind_eq. set (vote := mkVote _ false).
  destruct (new_candidate vote w2) as [[c w3]|] eqn:E; [|done]. intros Hrun.
  apply new_candidate_keeps in E; [|split; [done|unfold effective_membership; by rewrite Hst]|done|].
  2:{ unfold vote, Vote_leader_node_id. cbn [Vote_leader_id]. rewrite LeaderId_node_id_new. apply Hi. }
  revert Hrun. intros Hrun. apply (λ K : keeps _ (λ _, True), K w3 a w' E Hrun).
  eapply keeps_bind; [by apply keeps_update_vote, uncommitted_vote_ok|]. intros r _. keeps.
Qed.

Lemma grant_by_ok c target :
  candidate_ok c → granted target (Candidate_vote c) → candidate_ok (grant_by c target).1 ∧
    ((grant_by c target).2 = true → established (Vote_to_committed (Candidate_vote c))).
Proof.
  intros (Hc & Hn & S & Ht & HS) Hg. pose proof (tally_update m S _ target Ht) as Hu.
  assert (∀ x, x ∈ target :: S → granted x (Candidate_vote c)) as HS'
    by (intros x [->|Hx]%elem_of_cons; [done|by apply HS]).
  unfold grant_by. destruct (update _ target true) as [p|p]; destruct Hu as [Hu Ht'];
    (split; [split_and!; [done|done|by exists (target :: S)]|]); [|done].
  cbn [snd]. rewrite (tally_accepted_iff _ _ _ Hu). intros Hq. right.
  exists (filter (λ x, x ∈ target :: S) (qs_ids m)). split_and!; [|done|].
  - apply NoDup_filter, NoDup_qs_ids.
  - intros x [Hx _]%list_elem_of_filter. unfold candidate_vote. cbn.
    replace (mkVote (Vote_leader_id (Candidate_vote c)) false) with (Candidate_vote c); [by apply HS'|].
    destruct (Candidate_vote c). cbn in Hc. by subst.
Qed.

Lemma establish_leader_keeps w a w' c :
  elect_inv (w_engine w) → Engine_candidate (w_engine w) = Some c →
  established (Vote_to_committed (Candidate_vote c)) →
  establish_leader w = Ret (a, w') → elect_inv (w_engine w').
Proof.
  intros Hi Hc Hest. unfold establish_leader. rewrite M_bind_eq, get_eq, Hc. cbn [unwrap].
  rewrite M_bind_eq, lift_Ret, M_bind_eq, modify_eq, M_bind_eq.
  pose proof (ei_candidate _ Hi _ Hc) as (_ & Hn & _).
  set (w1 := mkWorld (set_candidate (w_engine w) None) _ _).
  assert (elect_inv (w_engine w1)) as H1 by (by destruct Hi).
  destruct (establish c w1) as [[r w2]|] eqn:E; [|done].
  assert (elect_inv (w_engine w2) ∧ ∀ l, r = Some l → leader_ok l) as [H2 Hr].
  { revert E. unfold establish. rewrite M_bind_eq, get_eq.
    destruct (match Engine_leader (w_engine w1) with Some _ => _ | None => false end);
      [by intros [= <- <-]|].
    rewrite M_bind_eq. unfold now. cbn [w_engine].
    unfold into_leader. destruct (Leader_new _ _ _ _ _ _) as [l g] eqn:El. m_steps. intros [= <- <-].
    assert (leader_ok l) as Hok.
    { unfold Leader_new in El. injection El as <- _. split; [exact Hest|exact Hn]. }
    split; [|by intros ? [= <-]]. destruct H1. split; try done. by intros ? [= <-]. }
  intros Hrun. apply (λ K : keeps _ (λ _, True), K w2 a w' H2 Hrun).
  destruct r as [l|]; [|keeps]. specialize (Hr l eq_refl) as [Hl _].
  keeps_step; [keeps|]. keeps_step; [keeps|].
  eapply keeps_bind; [apply keeps_update_vote; intros _; exact Hl|]. intros ? _. keeps.
Qed.

(** ** Vote messages *)

#[global] Instance keeps_is_leader_lease_valid t b : Keeps (is_leader_lease_valid t b).
Proof. unfold is_leader_lease_valid. keeps. Qed.
#[global] Instance keeps_vote_response b : Keeps (vote_response b).
Proof. unfold vote_response. keeps. Qed.
#[global] Instance keeps_handle_pre_vote_req req : Keeps (handle_pre_vote_req req).
Proof. unfold handle_pre_vote_req. keeps. Qed.
#[global] Instance keeps_handle_rejected resp b : Keeps (handle_rejected_vote_resp resp b).
Proof.
  unfold handle_rejected_vote_resp, set_greater_log. keeps_step. keeps_step; [keeps|]. keeps_step; [keeps|].
  destruct (if b then _ else true); [|keeps].
  eapply keeps_bind; [by apply keeps_update_vote, uncommitted_vote_ok|]. intros ? _. keeps.
Qed.
Lemma keeps_handle_vote_req req :
  Vote_is_committed (VoteRequest_vote req) = false → Keeps (handle_vote_req req).
Proof.
  intros Hv. unfold handle_vote_req. keeps. by apply keeps_update_vote, uncommitted_vote_ok.
Qed.

Lemma handle_vote_resp_keeps target resp w a w' :
  (VoteResponse_vote_granted resp = true → granted target (VoteResponse_vote resp)) →
  elect_inv (w_engine w) → handle_vote_resp target resp w = Ret (a, w') → elect_inv (w_engine w').
Proof.
  intros Hg Hi. unfold handle_vote_resp. rewrite M_bind_eq, get_eq.
  destruct (Engine_candidate (w_engine w)) as [c|] eqn:Ec; [|by intros [= <- <-]].
  destruct (VoteResponse_vote_granted resp && _) eqn:Hgr;
    [|intros Hrun; by eapply (keeps_handle_rejected resp false w a w' Hi)].
  apply andb_prop in Hgr as [Hgr Hv]. apply bool_decide_eq_true in Hv. specialize (Hg Hgr).
  pose proof (ei_candidate _ Hi _ Ec) as Hc. rewrite Hv in Hg.
  destruct (grant_by_ok c target Hc Hg) as [Hc' Hest].
  assert (Candidate_vote (grant_by c target).1 = Candidate_vote c) as Hcv
    by (unfold grant_by; by destruct (update _ _ _)).
  destruct (grant_by c target) as [c' q]. cbn in Hc', Hest, Hcv. rewrite M_bind_eq, modify_eq.
  set (w1 := mkWorld (set_candidate (w_engine w) (Some c')) _ _).
  assert (elect_inv (w_engine w1)) as H1 by (destruct Hi; split; try done; by intros ? [= <-]).
  destruct q; [|by intros [= <- <-]]. apply (establish_leader_keeps _ _ _ c'); [done|done|].
  rewrite Hcv. by apply Hest.
Qed.

Lemma pre_elect_keeps w a w' :
  acts_under_inv (w_engine w) → pre_elect w = Ret (a, w') → elect_inv (w_engine w').
Proof.
  intros [Hi Hmem]. unfold pre_elect. rewrite M_bind_eq. unfold now. rewrite M_bind_eq, get_eq. cbn [w_engine].
  destruct (Vote_is_committed _ && _); [by intros [= <- <-]|]. rewrite M_bind_eq.
  destruct (Engine_resample_election_timeout _) as [[u w2]|] eqn:E; [|done].
  pose proof (resample_state _ _ _ E) as Hst. apply keeps_resample in E as [H2 _]; [|done].
  cbn [w_engine] in Hst. rewrite M_bind_eq. unfold new_pre_candidate, create_candidate.
  m_steps. unfold now. m_steps. destruct (grant_by _ _) as [c q]. m_steps.
  set (w3 := mkWorld _ _ _). assert (acts_under_inv (w_engine w3)) as H3.
  { split; [by destruct H2|]. unfold effective_membership. cbn. by rewrite Hst. }
  destruct q; [by apply do_elect_keeps|]. intros [= <- <-]. by destruct H2.
Qed.

Lemma handle_pre_vote_resp_keeps target resp w a w' :
  acts_under_inv (w_engine w) → handle_pre_vote_resp target resp w = Ret (a, w') →
  elect_inv (w_engine w').
Proof.
  intros [Hi Hmem]. unfold handle_pre_vote_resp. rewrite M_bind_eq, get_eq.
  destruct (Engine_pre_candidate (w_engine w)) as [c|]; [|by intros [= <- <-]].
  destruct (VoteResponse_vote_granted resp);
    [|intros Hrun; by eapply (keeps_handle_rejected resp true w a w' Hi)].
  destruct (grant_by c target) as [c' q]. rewrite M_bind_eq, modify_eq.
  destruct q; [|intros [= <- <-]; by destruct Hi]. apply do_elect_keeps. split; [by destruct Hi|done].
Qed.

(** ** Snapshots and purging *)

#[global] Instance keeps_try_purge_log : Keeps Engine_try_purge_log.
Proof. unfold Engine_try_purge_log. keeps. Qed.
#[global] Instance keeps_on_building_snapshot_done meta : Keeps (on_building_snapshot_done meta).
Proof.
  unfold on_building_snapshot_done. keeps_step. keeps_step; [keeps|].
  destruct meta as [meta|]; [|keeps]. keeps_step; [keeps|]. intros w a' w' Hi.
  rewrite M_bind_eq, get_eq. unfold update_snapshot.
  destruct (_ <=? _); rewrite M_bind_eq, modify_eq; cbn [negb]; [by intros [= <- <-]|].
  set (w1 := mkWorld _ _ _). assert (elect_inv (w_engine w1)) as H1 by (by destruct Hi).
  intros Hrun. apply (λ K : keeps _ (λ _, True), K w1 a' w' H1 Hrun). keeps.
Qed.
#[global] Instance keeps_trigger_purge_log index : Keeps (trigger_purge_log index).
Proof. unfold trigger_purge_log. keeps. Qed.
#[global] Instance keeps_trigger_transfer_leader to : Keeps (trigger_transfer_leader to).
Proof. unfold trigger_transfer_leader. keeps. Qed.

(** ** Events *)

(** The messages a node may receive: votes that are asked for are not
    committed, committed votes are those of leaders, and responses to a
    candidate were given. *)
Definition event_ok (ev : Event) : Prop :=
  match ev with
  | Event_VoteReq req => Vote_is_committed (VoteRequest_vote req) = false
  | Event_VoteResp target resp =>
      VoteResponse_vote_granted resp = true → granted target (VoteResponse_vote resp)
  | Event_AppendEntries vote _ _ | Event_InstallFullSnapshot vote _ _ => vote_ok vote
  | _ => True
  end.

Lemma handle_keeps ev w a w' :
  event_ok ev → acts_under_inv (w_engine w) → handle ev w = Ret (a, w') → elect_inv (w_engine w').
Proof.
  intros Hok Ha. pose proof Ha as [Hi _]. destruct ev; cbn [handle event_ok] in *;
    try (intros Hrun; apply (λ K : keeps _ (λ _, True), K w a w' Hi Hrun); unfold refresh_server_state; by keeps).
  - by apply do_elect_keeps.
  - by apply do_elect_keeps.
  - by apply pre_elect_keeps.
  - intros Hrun. apply (λ K : keeps _ (λ _, True), K w a w' Hi Hrun).
    eapply keeps_bind; [by apply keeps_handle_vote_req|]. intros ? _. keeps.
  - by apply handle_vote_resp_keeps.
  - by apply handle_pre_vote_resp_keeps.
  - intros Hrun. by eapply (keeps_handle_append_entries _ _ _ Hok w a w' Hi).
  - intros Hrun. by eapply (keeps_handle_install_full_snapshot _ _ _ Hok w a w' Hi).
Qed.

Lemma handle_vote_request_keeps req tx w a w' :
  Vote_is_committed (VoteRequest_vote req) = false → elect_inv (w_engine w) →
  handle_vote_request req tx w = Ret (a, w') → elect_inv (w_engine w').
Proof.
  intros Hv Hi Hrun. apply (λ K : keeps _ (λ _, True), K w a w' Hi Hrun). unfold handle_vote_request.
  eapply keeps_bind; [by apply keeps_handle_vote_req|]. intros ? _. keeps.
Qed.
End node.

(** ** The cluster *)

Section election.
Context {C : RaftTypeConfig} `{!Env} (m : Membership).

(** A cluster and the votes of the leaders it has had. *)
Record Election := mkElection {
  el_cluster : Cluster;
  el_leaders : list CommittedVote;
}.

Definition leader_votes (e : Engine) : list CommittedVote :=
  match Engine_leader e with Some l => [Leader_committed_vote l] | None => [] end.

(** The events the network can deliver: a leader sends its own vote with its
    logs and snapshots, and a response comes from the node that gave it. *)
Definition deliverable (s : Election) (ev : Event) : Prop :=
  match ev with
  | Event_VoteReq req => Vote_is_committed (VoteRequest_vote req) = false
  | Event_VoteResp target resp => (target, resp) ∈ vote_responses (el_cluster s)
  | Event_AppendEntries vote _ _ | Event_InstallFullSnapshot vote _ _ =>
      ∃ cv, cv ∈ el_leaders s ∧ vote = CommittedVote_into_vote cv
  | _ => True
  end.

(** A step of a node that acts under [m]. *)
Inductive election_step (s : Election) : Election → Prop :=
| election_event n ev w :
    effective_membership (w_engine (nodes (el_cluster s) n)) = m →
    deliverable s ev → handle ev (nodes (el_cluster s) n) = Ret (tt, w) →
    election_step s
      (mkElection (mkCluster (set_node (el_cluster s) n w) (vote_responses (el_cluster s)))
         (leader_votes (w_engine w) ++ el_leaders s))
| election_vote_request n req tx resp w :
    Vote_is_committed (VoteRequest_vote req) = false →
    handle_vote_request req tx (nodes (el_cluster s) n) = Ret (resp, w) →
    election_step s
      (mkElection (mkCluster (set_node (el_cluster s) n w) ((n, resp) :: vote_responses (el_cluster s)))
         (leader_votes (w_engine w) ++ el_leaders s))
| election_command n cmd rest :
    commands (w_engine (nodes (el_cluster s) n)) = cmd :: rest →
    election_step s (mkElection (run_command (el_cluster s) n cmd rest) (el_leaders s)).

(** A new cluster: no node leads or campaigns, and the only committed vote is
    the one of term 0, which initialization writes. *)
Definition election_init (s : Election) : Prop :=
  cluster_init (el_cluster s) ∧ el_leaders s = [] ∧
  ∀ n, let e := w_engine (nodes (el_cluster s) n) in
    Engine_id e = n ∧ Engine_leader e = None ∧ Engine_candidate e = None ∧
    (Vote_is_committed (local_vote e) = true → Vote_term (local_vote e) = 0%N).

Definition election_reachable (s : Election) : Prop :=
  ∃ s0, election_init s0 ∧ rtc election_step s0 s.

(** ** The invariant *)

Context `{!RaftLeaderIdLaws C} (Hm : Membership_configs m ≠ []).
Implicit Types (s : Election) (G : N → Vote → Prop).

Lemma established_mono G G' cv :
  (∀ x v, G x v → G' x v) → established G m cv → established G' m cv.
Proof. intros HG [Ht|(S & Hn & Hq & HS)]; [by left|right]. exists S. split_and!; auto. Qed.

Lemma elect_inv_mono G G' n e :
  (∀ x v, G x v → G' x v) → elect_inv G m n e → elect_inv G' m n e.
Proof.
  intros HG [Hid Hl Hv Hc]. split; [done|..].
  - intros l [He Hn]%Hl. split; [by eapply established_mono|done].
  - intros Hcom. by eapply established_mono, Hv.
  - intros c (Hcv & Hn & S & Ht & HS)%Hc. split_and!; [done|done|]. exists S. split; auto.
Qed.

Record election_inv s : Prop := {
  inv_nodes : ∀ n, elect_inv (has_granted (el_cluster s)) m n (w_engine (nodes (el_cluster s) n));
  inv_leaders : ∀ cv, cv ∈ el_leaders s → established (has_granted (el_cluster s)) m cv;
}.

(** A node moves to [w], and responses may be added. *)
Lemma inv_update s n w responses leaders :
  election_inv s → vote_responses (el_cluster s) ⊆ responses →
  elect_inv (has_granted (el_cluster s)) m n (w_engine w) →
  (∀ cv, cv ∈ leaders → cv ∈ leader_votes (w_engine w) ∨ cv ∈ el_leaders s) →
  election_inv (mkElection (mkCluster (set_node (el_cluster s) n w) responses) leaders).
Proof.
  intros [Hn Hl] Hr Hw Hlead. set (s' := mkElection _ _).
  assert (∀ x v, has_granted (el_cluster s) x v → has_granted (el_cluster s') x v) as HG.
  { intros x v (resp & Hin & Hg). exists resp. split; [by apply Hr|done]. }
  split.
  - intros x. apply (elect_inv_mono _ _ _ _ HG). cbn. unfold set_node. case_decide; by subst.
  - intros cv [Hcv|Hcv]%Hlead; apply (established_mono _ _ _ HG); [|by apply Hl].
    unfold leader_votes in Hcv. destruct (Engine_leader (w_engine w)) as [l|] eqn:El;
      [|by apply elem_of_nil in Hcv].
    apply list_elem_of_singleton in Hcv as ->. by apply (ei_leader _ _ _ _ Hw).
Qed.

Lemma deliverable_ok s ev :
  election_inv s → deliverable s ev → event_ok (has_granted (el_cluster s)) m ev.
Proof.
  intros Hi. destruct ev; cbn; try done.
  - intros Hin Hg. by exists resp.
  - intros (cv & Hcv & ->) _. exact (inv_leaders _ Hi cv Hcv).
  - intros (cv & Hcv & ->) _. exact (inv_leaders _ Hi cv Hcv).
Qed.

Lemma election_inv_step s s' : election_inv s → election_step s s' → election_inv s'.
Proof.
  intros Hi Hstep. destruct Hstep as [n ev w Ha Hd Hrun|n req tx resp w Hv Hrun|n cmd rest Hcmd].
  - apply inv_update; [done|done| |set_solver].
    eapply handle_keeps; [done|by eapply deliverable_ok|split; [apply Hi|done]|done].
  - apply inv_update; [done|set_solver| |set_solver].
    eapply handle_vote_request_keeps; [done|apply Hi|done].
  - apply inv_update; [done| |by destruct (inv_nodes _ Hi n)|set_solver].
    destruct cmd; try done. destruct (run_save_vote_response _); [set_solver|done].
Qed.

Lemma election_reachable_inv s : election_reachable s → election_inv s.
Proof.
  intros (s0 & ((_ & _) & Hl & Hn) & Hs).
  assert (election_inv s0) as H0.
  { split; [|rewrite Hl; by intros cv []%elem_of_nil]. intros n. destruct (Hn n) as (Hid & Hl0 & Hc0 & Hv).
    split; [done|by rewrite Hl0| |by rewrite Hc0]. intros Hcom. left. by apply Hv. }
  clear Hl Hn. induction Hs as [|s0 s1 s Hs _ IH]; [done|]. by eapply IH, election_inv_step.
Qed.

Lemma election_step_cluster s s' : election_step s s' → cluster_step (el_cluster s) (el_cluster s').
Proof.
  destruct 1; cbn; [by eapply step_event|by eapply step_vote_request|by eapply step_command].
Qed.

Lemma election_reachable_cluster s : election_reachable s → reachable (el_cluster s).
Proof.
  intros (s0 & (Hc & _) & Hs). exists (el_cluster s0). split; [done|].
  clear Hc. induction Hs; [apply rtc_refl|]. eapply rtc_l; [by apply election_step_cluster|done].
Qed.

(** The leaders of a term other than 0 have votes that a quorum granted. *)
Lemma leader_granted s n l :
  election_reachable s → Engine_leader (w_engine (nodes (el_cluster s) n)) = Some l →
  let v := candidate_vote (Leader_committed_vote l) in
  Vote_leader_node_id v = n ∧
  (Vote_term v = 0%N ∨ ∃ S, elected_by (el_cluster s) m v S).
Proof.
  intros Hs Hl. destruct (ei_leader _ _ _ _ (inv_nodes _ (election_reachable_inv _ Hs) n) _ Hl) as [He Hn].
  split; [exact Hn|]. destruct He as [He|(S & He)]; [by left|right]. by exists S.
Qed.

(** ** Properties *)

(** C6: every leader is elected: in a cluster whose nodes act under one
    membership, whatever messages are lost, delayed, repeated or reordered, a
    node leads only with its own vote, and, the vote of term 0 that initializes
    a cluster apart, a quorum of the voters has granted this vote. *)
Theorem leaders_are_elected s n l :
  election_reachable s → Engine_leader (w_engine (nodes (el_cluster s) n)) = Some l →
  let v := candidate_vote (Leader_committed_vote l) in
  Vote_leader_node_id v = n ∧
  (Vote_term v = 0%N ∨ ∃ S, elected_by (el_cluster s) m v S).
Proof. apply leader_granted. Qed.
End election.

Section std.
Context (Node0 AppData0 SnapshotData0 : Type) `{!EqDecision Node0}.
#[local] Instance std0 : RaftTypeConfig := LeaderIdStd.config Node0 AppData0 SnapshotData0 _.
#[local] Instance std0_laws : RaftLeaderIdLaws std0 := LeaderIdStd.config_laws _ _ _ _.
Context `{!Env}.

(** C5: at most one node leads a term: with the standard leader id, in a
    cluster whose nodes act under one membership, two leaders of the same term
    other than 0 are the same node, in every reachable state. *)
Theorem one_node_leads_a_term (m : Membership) (s : Election) (n n' : N) (l l' : Leader) :
  Membership_configs m ≠ [] → election_reachable m s →
  Engine_leader (w_engine (nodes (el_cluster s) n)) = Some l →
  Engine_leader (w_engine (nodes (el_cluster s) n')) = Some l' →
  Vote_term (candidate_vote (Leader_committed_vote l)) ≠ 0%N →
  Vote_term (candidate_vote (Leader_committed_vote l)) =
    Vote_term (candidate_vote (Leader_committed_vote l')) →
  n = n'.
Proof.
  intros Hm Hs Hl Hl' H0 Ht.
  destruct (leader_granted m Hm s n l Hs Hl) as [Hn [?|[S He]]]; [done|].
  destruct (leader_granted m Hm s n' l' Hs Hl') as [Hn' [?|[S' He']]]; [congruence|].
  assert (ordered_votes (candidate_vote (Leader_committed_vote l))
    (candidate_vote (Leader_committed_vote l'))) as Ho.
  { apply (elected_ordered (el_cluster s) m m _ _ S S');
      [by eapply election_reachable_cluster|by left|done|done]. }
  rewrite <- Hn, <- Hn'. f_equal. by eapply ordered_same_term.
Qed.
End std.

(** ** Witnesses *)

Module ElectionWitness.
#[local] Existing Instance std_config.
Import VoteHandlerWitness ClusterWitness.
#[local] Existing Instance env.

(** Three nodes that know the membership. *)
Definition member_state (n : N) : RaftState :=
  set_membership_state (RaftState_new n)
    (mkMembershipState (mkStoredMembership None m3) (mkStoredMembership None m3)).
Definition start3 : Election :=
  mkElection (mkCluster (λ n, mkWorld (Engine_new (member_state n) (EngineConfig_new n Config_default 200)) 0 0) [])
    [].

(** The steps as functions. *)
Definition do_event (s : Election) (n : N) (ev : Event) : Election :=
  match handle ev (nodes (el_cluster s) n) with
  | Ret (_, w) =>
      mkElection (mkCluster (set_node (el_cluster s) n w) (vote_responses (el_cluster s)))
        (leader_votes (w_engine w) ++ el_leaders s)
  | Panic => s
  end.
Definition do_request (s : Election) (n : N) (req : VoteRequest) : Election :=
  match handle_vote_request req 0%N (nodes (el_cluster s) n) with
  | Ret (resp, w) =>
      mkElection (mkCluster (set_node (el_cluster s) n w) ((n, resp) :: vote_responses (el_cluster s)))
        (leader_votes (w_engine w) ++ el_leaders s)
  | Panic => s
  end.
Definition do_command (s : Election) (n : N) : Election :=
  match commands (w_engine (nodes (el_cluster s) n)) with
  | cmd :: rest => mkElection (run_command (el_cluster s) n cmd rest) (el_leaders s)
  | [] => s
  end.

(** Node 1 campaigns, saves and grants its vote, node 2 grants it. *)
Definition s1 : Election := do_event start3 1 Event_Elect.
Definition s2 : Election := do_command s1 1.
Definition s3 : Election := do_request s2 2 (request 1 1).
Definition granted1 : VoteResponse := mkVoteResponse (Vote_new (C := std_config) 1 1) true None.
Definition s4 : Election := do_event s3 1 (Event_VoteResp 1 granted1).
Definition s5 : Election := do_event s4 1 (Event_VoteResp 2 granted1).


Definition returns {A} (o : outcome A) : bool := match o with Ret _ => true | Panic => false end.

Lemma do_event_step s n ev :
  effective_membership (w_engine (nodes (el_cluster s) n)) = m3 → deliverable s ev →
  returns (handle ev (nodes (el_cluster s) n)) = true → election_step m3 s (do_event s n ev).
Proof.
  intros Hm Hd Hr. unfold do_event. destruct (handle ev _) as [[[] w]|] eqn:E; [|done].
  by eapply election_event.
Defined.
Lemma do_request_step s n req :
  Vote_is_committed (VoteRequest_vote req) = false →
  returns (handle_vote_request req 0%N (nodes (el_cluster s) n)) = true →
  election_step m3 s (do_request s n req).
Proof.
  intros Hv Hr. unfold do_request. destruct (handle_vote_request _ _ _) as [[resp w]|] eqn:E; [|done].
  by eapply election_vote_request.
Defined.
Lemma do_command_step s n :
  negb (bool_decide (length (commands (w_engine (nodes (el_cluster s) n))) = 0)) = true →
  election_step m3 s (do_command s n).
Proof.
  unfold do_command. intros Hne. destruct (commands _) as [|cmd rest] eqn:E; [done|].
  by eapply election_command.
Defined.

Lemma responded s n resp i :
  vote_responses (el_cluster s) !! i = Some (n, resp) → deliverable s (Event_VoteResp n resp).
Proof. apply list_elem_of_lookup_2. Defined.

Lemma start3_init : election_init start3.
Proof. split; [done|]. split; [done|]. intros n. split_and!; reflexivity || discriminate. Defined.

Lemma step1 : election_step m3 start3 s1.
Proof. unfold s1. apply do_event_step; [reflexivity|exact I|vm_compute; reflexivity]. Defined.
Lemma step2 : election_step m3 s1 s2.
Proof. unfold s2. apply do_command_step. vm_compute. reflexivity. Defined.
Lemma step3 : election_step m3 s2 s3.
Proof. unfold s3. apply do_request_step; [reflexivity|vm_compute; reflexivity]. Defined.
Lemma step4 : election_step m3 s3 s4.
Proof.
  unfold s4. apply do_event_step;
    [vm_compute; reflexivity|apply (responded _ _ _ 1); vm_compute; reflexivity|vm_compute; reflexivity].
Defined.
Lemma step5 : election_step m3 s4 s5.
Proof.
  unfold s5. apply do_event_step;
    [vm_compute; reflexivity|apply (responded _ _ _ 0); vm_compute; reflexivity|vm_compute; reflexivity].
Defined.

Lemma s5_reachable : election_reachable m3 s5.
Proof.
  exists start3. split; [apply start3_init|].
  apply (rtc_l _ _ s1); [exact step1|]. apply (rtc_l _ _ s2); [exact step2|].
  apply (rtc_l _ _ s3); [exact step3|]. apply (rtc_l _ _ s4); [exact step4|].
  apply (rtc_l _ _ s5); [exact step5|]. apply rtc_refl.
Defined.

Lemma m3_configs : Membership_configs m3 ≠ [].
Proof. intros [=]. Defined.

Lemma leaders_are_elected_witness :
  ∃ S, elected_by (el_cluster s5) m3 (Vote_new (C := std_config) 1 1) S.
Proof.
  destruct (Engine_leader (w_engine (nodes (el_cluster s5) 1))) as [l|] eqn:El;
    [|vm_compute in El; discriminate El].
  pose proof (leaders_are_elected m3 m3_configs s5 1 l s5_reachable El) as [_ [H|[S H]]];
    vm_compute in El; injection El as <-.
  - discriminate H.
  - exists S. exact H.
Defined.

Lemma one_node_leads_a_term_witness :
  ∃ l, Engine_leader (w_engine (nodes (el_cluster s5) 1)) = Some l ∧ (1 = 1)%N.
Proof.
  destruct (Engine_leader (w_engine (nodes (el_cluster s5) 1))) as [l|] eqn:El;
    [|vm_compute in El; discriminate El].
  exists l. split; [reflexivity|].
  apply (one_node_leads_a_term unit N unit m3 s5 1 1 l l m3_configs s5_reachable El El); [|reflexivity].
  vm_compute in El. injection El as <-. vm_compute. discriminate.
Defined.
End ElectionWitness.
