(* ===== verification/RaftSpec.v ===== *)
(** * The protocol

    Raft as a protocol on logs of log ids: nodes grant votes to candidates,
    leaders add to the log of their leadership, and nodes adopt parts of it.
    The state records what has happened: the log of each leadership
    ([hist]), the votes that were granted and what nodes have accepted.  From
    it: a log that a quorum has accepted from the leader that proposed it is in
    the log of every later leader, and what two nodes take to be committed does
    not differ. *)

From S2P Require Import Prelude Vote LogId.

(** ** Lists *)

Lemma prefix_app_cases {A} (p a t : list A) :
  p `prefix_of` a ++ t → p `prefix_of` a ∨ ∃ x u, p = a ++ x :: u ∧ x ∈ t.
Proof.
  intros Hp. destruct (prefix_weak_total p a (a ++ t)) as [|[u ->]]; [done|by apply prefix_app_r|by left|].
  apply prefix_app_inv in Hp as [t' ->]. destruct u as [|x u]; [left; by rewrite app_nil_r|right].
  exists x, u. split; [done|set_solver].
Qed.

Lemma prefix_snoc_cases {A} (p a : list A) y : p `prefix_of` a ++ [y] → p `prefix_of` a ∨ p = a ++ [y].
Proof.
  intros Hp. pose proof (prefix_length _ _ Hp) as Hl. apply prefix_app_cases in Hp as [|(x & u & -> & Hx)]; [by left|].
  apply list_elem_of_singleton in Hx as ->. rewrite !length_app in Hl. cbn in Hl. right.
  destruct u; [done|cbn in Hl; lia].
Qed.

Lemma Forall_prefix {A} (P : A → Prop) l l' : l' `prefix_of` l → Forall P l → Forall P l'.
Proof. intros [t ->] [? _]%Forall_app. done. Qed.

Section spec.
Context {C : RaftTypeConfig}.
Context (quorum : list N → Prop).

(** A leadership is known by its id in log ids. *)
#[local] Abbreviation Bal := CommittedLeaderId.
Implicit Types (b : Bal) (n c : N) (l h p q : list LogId) (x : LogId).

(** A node has voted for the candidate [g_lid], whose last log is [g_last];
    [g_own] is the log of the node. *)
Record Grant := mkGrant {
  g_node : N;
  g_lid : LeaderId;
  g_last : option LogId;
  g_own : list LogId;
}.
(** The node has the first logs [a_log] of the leader. *)
Record Ack := mkAck { a_node : N; a_bal : Bal; a_log : list LogId }.

(** [bal] is the greatest leadership a node has seen and [acc] the greatest
    one it has followed; [owner] is the node that leads; [cmt] is what a node
    takes to be committed. *)
Record Spec := mkSpec {
  bal : N → Bal;
  acc : N → Bal;
  log : N → list LogId;
  hist : Bal → option (list LogId);
  owner : Bal → N;
  elected : list Bal;
  grants : list Grant;
  acks : list Ack;
  cmt : N → list LogId;
}.
Implicit Types (s : Spec).

Definition upd {A B : Type} `{!EqDecision A} (f : A → B) (a : A) (y : B) : A → B :=
  λ a', if decide (a' = a) then y else f a'.

(** What a node makes of the first logs [p] of a leader: a log that differs is
    replaced, one that has them is left. *)
Definition adopt p l : list LogId := if decide (p `prefix_of` l) then l else p.

(** The first logs [p] of the leadership [b] are chosen: a quorum has accepted
    them, and the last one was proposed in it. *)
Definition chosen s b p : Prop :=
  ∃ h x Q, hist s b = Some h ∧ p `prefix_of` h ∧ last p = Some x ∧ LogId_leader_id x = b ∧ quorum Q ∧
    ∀ n, n ∈ Q → ∃ p', p `prefix_of` p' ∧ mkAck n b p' ∈ acks s.

(** The next log of the leadership [b] after [h]. *)
Definition next_log b h : LogId := mkLogId b (N.of_nat (length h)).

(** The steps of a node. *)
Inductive spec_step s : N → Spec → Prop :=
| spec_raise n b : bal s n ≼ b →
    spec_step s n (mkSpec (upd (bal s) n b) (acc s) (log s) (hist s) (owner s) (elected s) (grants s) (acks s) (cmt s))
| spec_grant n lid last_log : let b := LeaderId_to_committed lid in
    bal s n ≼ b → acc s n ≺ b → last (log s n) ≼ last_log →
    (∀ lid' ll own, mkGrant n lid' ll own ∈ grants s → LeaderId_to_committed lid' = b → lid' = lid) →
    spec_step s n (mkSpec (upd (bal s) n b) (acc s) (log s) (hist s) (owner s) (elected s)
      (mkGrant n lid last_log (log s n) :: grants s) (acks s) (cmt s))
| spec_lead lid Q : let b := LeaderId_to_committed lid in let c := LeaderId_node_id lid in
    bal s c ≼ b → acc s c ≺ b → quorum Q →
    (∀ n, n ∈ Q → ∃ own, mkGrant n lid (last (log s c)) own ∈ grants s) →
    spec_step s c (mkSpec (upd (bal s) c b) (upd (acc s) c b) (log s) (upd (hist s) b (Some (log s c)))
      (upd (owner s) b c) (b :: elected s) (grants s) (mkAck c b (log s c) :: acks s) (cmt s))
| spec_append b : let c := owner s b in let h := log s c in let h' := h ++ [next_log b h] in
    hist s b = Some h → bal s c ≼ b →
    spec_step s c (mkSpec (upd (bal s) c b) (upd (acc s) c b) (upd (log s) c h') (upd (hist s) b (Some h')) (owner s)
      (elected s) (grants s) (mkAck c b h' :: acks s) (cmt s))
| spec_accept n b h p : bal s n ≼ b → hist s b = Some h → p `prefix_of` h →
    spec_step s n (mkSpec (upd (bal s) n b) (upd (acc s) n b) (upd (log s) n (adopt p (log s n))) (hist s) (owner s)
      (elected s) (grants s) (mkAck n b p :: acks s) (cmt s))
| spec_truncate n b h l : bal s n ≼ b → hist s b = Some h → l `prefix_of` log s n →
    (∀ r, r `prefix_of` log s n → r `prefix_of` h → r `prefix_of` l) →
    spec_step s n (mkSpec (upd (bal s) n b) (upd (acc s) n b) (upd (log s) n l) (hist s) (owner s) (elected s) (grants s)
      (acks s) (cmt s))
| spec_commit n b0 p0 b p q : chosen s b0 p0 → mkAck n b p ∈ acks s → b0 ≼ b → q `prefix_of` p0 → q `prefix_of` p →
    cmt s n `prefix_of` q →
    spec_step s n (mkSpec (bal s) (acc s) (log s) (hist s) (owner s) (elected s) (grants s) (acks s) (upd (cmt s) n q)).

(** At first there is the log of the initialization, which some nodes have. *)
Definition spec_init (bi : Bal) (li : list LogId) s : Prop :=
  (∀ i x, li !! i = Some x → x = mkLogId bi (N.of_nat i)) ∧
  (∀ n, acc s n = bi ∧ bal s n = bi) ∧ (∀ n, log s n = [] ∨ log s n = li) ∧
  (∀ b, hist s b = if decide (b = bi) then Some li else None) ∧
  elected s = [bi] ∧ grants s = [] ∧ acks s = [] ∧ (∀ n, cmt s n = []).

Definition spec_reachable bi li s : Prop := ∃ s0, spec_init bi li s0 ∧ rtc (λ s s', ∃ n, spec_step s n s') s0 s.

(** ** The invariant *)

(** Every log of [l] is at its place in the log of its leader, with the same
    logs before it. *)
Definition good s l : Prop :=
  ∀ q x, q ++ [x] `prefix_of` l → LogId_index x = N.of_nat (length q) ∧
    ∃ h, hist s (LogId_leader_id x) = Some h ∧ q ++ [x] `prefix_of` h.

(** The first logs [p] of the leadership [b] are still in [l], or a later
    leader did not have them. *)
Definition kept s p b (before : Bal → Prop) l : Prop :=
  p `prefix_of` l ∨ ∃ b' h', b ≺ b' ∧ before b' ∧ hist s b' = Some h' ∧ ¬ p `prefix_of` h'.

Record spec_inv (bi : Bal) s : Prop := {
  si_log : ∀ n, good s (log s n);
  si_hist : ∀ b h, hist s b = Some h → good s h ∧ Forall (λ x, LogId_leader_id x ≼ b) h ∧ bi ≼ b ∧ b ∈ elected s;
  si_acc : ∀ n, Forall (λ x, LogId_leader_id x ≼ acc s n) (log s n) ∧ bi ≼ acc s n ∧ acc s n ≼ bal s n;
  si_lead : ∀ b h, hist s b = Some h → b = bi ∨ ∃ lid l Q, b = LeaderId_to_committed lid ∧
    owner s b = LeaderId_node_id lid ∧ b ≼ acc s (owner s b) ∧ quorum Q ∧ l `prefix_of` h ∧
    Forall (λ x, LogId_leader_id x ≺ b) l ∧ ∀ n, n ∈ Q → ∃ own, mkGrant n lid (last l) own ∈ grants s;
  si_ack : ∀ n b p, mkAck n b p ∈ acks s → b ≼ acc s n ∧
    ∃ h, hist s b = Some h ∧ p `prefix_of` h ∧ ∀ q, q `prefix_of` p → kept s q b (λ b', b' ≼ acc s n) (log s n);
  si_grant : ∀ n lid ll own, mkGrant n lid ll own ∈ grants s → let b := LeaderId_to_committed lid in
    b ≼ bal s n ∧ last own ≼ ll ∧ good s own ∧
    ∀ b0 p q, mkAck n b0 p ∈ acks s → b0 ≺ b → q `prefix_of` p → kept s q b0 (λ b', b' ≺ b) own;
  si_once : ∀ n lid ll own lid' ll' own', mkGrant n lid ll own ∈ grants s → mkGrant n lid' ll' own' ∈ grants s →
    LeaderId_to_committed lid = LeaderId_to_committed lid' → lid = lid';
}.

Context `{!RaftLeaderIdLaws C}.

(** *** Histories grow *)

Definition hist_le s s' : Prop :=
  ∀ b h, hist s b = Some h → ∃ t, hist s' b = Some (h ++ t) ∧ Forall (λ x, LogId_leader_id x = b) t.

Lemma hist_le_same s s' : hist s' = hist s → hist_le s s'.
Proof. intros Hh b h Hb. exists []. rewrite app_nil_r, Hh. by split. Qed.

Lemma good_mono s s' l : hist_le s s' → good s l → good s' l.
Proof.
  intros Hle Hg q x Hx. destruct (Hg q x Hx) as (Hi & h & Hh & Hp). split; [done|].
  destruct (Hle _ _ Hh) as (t & Hh' & _). exists (h ++ t). split; [done|]. by apply prefix_app_r.
Qed.

Lemma good_prefix s l l' : l' `prefix_of` l → good s l → good s l'.
Proof. intros Hl Hg q x Hx. apply Hg. by trans l'. Qed.

Lemma kept_mono s s' p b (P P' : Bal → Prop) l :
  hist_le s s' → Forall (λ x, LogId_leader_id x ≼ b) p → (∀ b', P b' → P' b') →
  kept s p b P l → kept s' p b P' l.
Proof.
  intros Hle Hb HP [Hk|(b' & h' & Hlt & Hp & Hh' & Hne)]; [by left|right].
  destruct (Hle _ _ Hh') as (t & Hh1 & Ht). exists b', (h' ++ t). split_and!; auto.
  intros [|(x & u & -> & Hx)]%prefix_app_cases; [done|].
  rewrite Forall_app, Forall_cons in Hb. destruct Hb as (_ & Hx' & _). rewrite Forall_forall in Ht.
  rewrite (Ht x Hx) in Hx'. ord.
Qed.

(** The leaders of a good log do not decrease. *)
Lemma good_leaders bi s l q x :
  spec_inv bi s → good s l → q ++ [x] `prefix_of` l → Forall (λ y, LogId_leader_id y ≼ LogId_leader_id x) (q ++ [x]).
Proof.
  intros Hi Hg Hx. destruct (Hg q x Hx) as (_ & h & Hh & Hp). destruct (si_hist _ _ Hi _ _ Hh) as (_ & Hf & _).
  by eapply Forall_prefix.
Qed.

(** ** What is chosen stays *)

Context (Hquorum : ∀ Q Q', quorum Q → quorum Q' → ∃ n, n ∈ Q ∧ n ∈ Q').

(** The log of a candidate that a node with the logs [p] has voted for. *)
Lemma candidate_has bi s b h p x own l b' :
  spec_inv bi s → hist s b = Some h → p `prefix_of` h → last p = Some x → LogId_leader_id x = b →
  good s own → p `prefix_of` own → good s l → last own ≼ last l →
  Forall (λ y, LogId_leader_id y ≺ b') l →
  (∀ b1 h1, b ≺ b1 → b1 ≺ b' → hist s b1 = Some h1 → p `prefix_of` h1) →
  p `prefix_of` l.
Proof.
  intros Hi Hh Hp Hx Hb Hgo Hpo Hgl Hle Hl IH.
  assert (x ∈ p) as Hxp by by apply last_Some_elem_of.
  destruct (last own) as [z|] eqn:Hz.
  2:{ apply last_None in Hz as ->. apply prefix_nil_inv in Hpo as ->. done. }
  apply last_Some in Hz as [qo ->].
  destruct (last l) as [y|] eqn:Hy; [|by apply Some_le_None in Hle].
  apply last_Some in Hy as [r ->]. apply (Some_le (A := LogId)) in Hle.
  pose proof (good_leaders _ _ _ _ _ Hi Hgo ltac:(done)) as Hlo.
  assert (LogId_leader_id x ≼ LogId_leader_id z) as Hxz.
  { rewrite Forall_forall in Hlo. apply Hlo. destruct Hpo as [u ->]. set_solver. }
  pose proof (LogId_le_leader _ _ Hle) as Hzy.
  destruct (Hgl r y ltac:(done)) as (Hiy & hy & Hhy & Hpy).
  destruct (Hgo qo z ltac:(done)) as (Hiz & hz & Hhz & Hpz).
  destruct (decide (LogId_leader_id y = b)) as [Eb|Eb].
  - assert (LogId_leader_id z = b) as Ez by (rewrite Eb in Hzy; rewrite Hb in Hxz; by apply ord_le_antisym).
    rewrite Eb in Hhy. rewrite Ez in Hhz. assert (hz = hy) as -> by congruence.
    trans (qo ++ [z]); [done|].
    destruct (prefix_weak_total (qo ++ [z]) (r ++ [y]) hy) as [|Hw]; [done..|].
    assert (length qo ≤ length r) as Hlen.
    { destruct (decide (length qo ≤ length r)) as [|Hn]; [done|]. exfalso.
      assert (y ≺ z) as Hyz by (apply LogId_lt_alt; right; split; [congruence|lia]). ord. }
    destruct Hw as [u Hu]. assert (length u = 0) as ->%nil_length_inv.
    { apply (f_equal length) in Hu. rewrite !length_app in Hu. cbn in Hu. lia. }
    rewrite app_nil_r in Hu. by rewrite Hu.
  - assert (b ≺ LogId_leader_id y) as Hlt.
    { rewrite Hb in Hxz. pose proof (ord_le_trans _ _ _ Hxz Hzy) as [|]%ord_le_alt; [done|congruence]. }
    assert (LogId_leader_id y ≺ b') as Hlt' by (rewrite Forall_app, Forall_singleton in Hl; tauto).
    pose proof (IH _ _ Hlt Hlt' Hhy) as Hpp.
    destruct (prefix_weak_total p (r ++ [y]) hy) as [|[u ->]]; [done..|].
    destruct (si_hist _ _ Hi _ _ Hh) as (_ & Hf & _). apply (Forall_prefix _ _ _ Hp) in Hf.
    rewrite !Forall_app, Forall_singleton in Hf. destruct Hf as [[_ Hf] _]. exfalso. ord.
Qed.

Definition below b (e : list Bal) : list Bal := filter (λ b0, (b0 <? b) = true) e.

Lemma elected_below s b b' :
  b ∈ elected s → b ≺ b' → length (below b (elected s)) < length (below b' (elected s)).
Proof.
  generalize (elected s). intros e He Hlt. unfold below. induction He as [b e|b b0 e He IH].
  - rewrite !filter_cons. case_decide as E1; [by apply ltb_true, ord_lt_irrefl in E1|].
    case_decide as E2; [cbn|by rewrite ltb_true in E2]. apply le_n_S.
    clear -Hlt RaftLeaderIdLaws0. induction e as [|b0 e IH]; [done|]. rewrite !filter_cons.
    repeat case_decide; cbn; rewrite ?not_true_iff_false in *; try lia; exfalso; ord.
  - specialize (IH Hlt). rewrite !filter_cons. repeat case_decide; cbn; rewrite ?not_true_iff_false in *; try lia; exfalso; ord.
Qed.

(** Leader completeness: what a quorum has accepted from its proposer is in the
    log of every later leader. *)
Lemma leader_completeness bi s b p b' h' :
  spec_inv bi s → chosen s b p → b ≺ b' → hist s b' = Some h' → p `prefix_of` h'.
Proof.
  intros Hi (h & x & Q & Hh & Hp & Hx & Hb & HQ & Hacks).
  remember (length (below b' (elected s))) as k eqn:Hk. revert b' h' Hk.
  induction k as [k IH] using lt_wf_ind. intros b' h' -> Hlt Hh'.
  destruct (si_hist _ _ Hi _ _ Hh) as (_ & _ & Hbi & _).
  destruct (si_lead _ _ Hi _ _ Hh') as [->|(lid & l & Q' & Hb' & _ & _ & HQ' & Hl & Hf & Hgr)]; [exfalso; ord|].
  trans l; [|done]. destruct (Hquorum Q Q' HQ HQ') as (n & Hn & Hn').
  destruct (Hacks n Hn) as (p' & Hpp & Hack), (Hgr n Hn') as (own & Hg).
  destruct (si_grant _ _ Hi _ _ _ _ Hg) as (_ & Hle & Hgo & Hkept). rewrite <- Hb' in Hkept.
  assert (∀ b1 h1, b ≺ b1 → b1 ≺ b' → hist s b1 = Some h1 → p `prefix_of` h1) as IH'.
  { intros b1 h1 Hb1 Hb1' Hh1. eapply IH; [|done|done|done].
    apply elected_below; [|done]. by destruct (si_hist _ _ Hi _ _ Hh1) as (_ & _ & _ & ?). }
  apply (candidate_has bi s b h p x own l b'); try done; [|by eapply good_prefix, (si_hist _ _ Hi _ _ Hh')].
  destruct (Hkept _ _ _ Hack Hlt Hpp) as [|(b1 & h1 & Hb1 & Hb1' & Hh1 & Hne)]; [done|].
  by destruct (Hne (IH' _ _ Hb1 Hb1' Hh1)).
Qed.

Lemma leader_completeness_le bi s b p b' h' :
  spec_inv bi s → chosen s b p → b ≼ b' → hist s b' = Some h' → p `prefix_of` h'.
Proof.
  intros Hi Hc [Hlt|<-]%ord_le_alt Hh'; [by eapply leader_completeness|].
  destruct Hc as (h & x & Q & Hh & Hp & _). by simplify_eq.
Qed.

(** ** The invariant is kept *)

Lemma election_unique bi s lid Q c h :
  let b := LeaderId_to_committed lid in
  spec_inv bi s → c = LeaderId_node_id lid → acc s c ≺ b → quorum Q →
  (∀ n, n ∈ Q → ∃ ll own, mkGrant n lid ll own ∈ grants s) → hist s b = Some h → False.
Proof.
  intros b Hi -> Hc HQ Hgr Hh. destruct (si_acc _ _ Hi (LeaderId_node_id lid)) as (_ & Hbi & _).
  destruct (si_lead _ _ Hi _ _ Hh) as [E|(lid' & l & Q' & Hb & Ho & Ha & HQ' & _ & _ & Hgr')]; [ord|].
  destruct (Hquorum Q Q' HQ HQ') as (n & (ll & own & Hg)%Hgr & (own' & Hg')%Hgr').
  assert (lid = lid') as <- by exact (si_once _ _ Hi _ _ _ _ _ _ _ Hg Hg' Hb). rewrite Ho in Ha. ord.
Qed.


(** Leaders add to histories. *)
Lemma inv_hist bi s H O E :
  let s' := mkSpec (bal s) (acc s) (log s) H O E (grants s) (acks s) (cmt s) in
  spec_inv bi s → hist_le s s' →
  (∀ b h, H b = Some h → good s' h ∧ Forall (λ x, LogId_leader_id x ≼ b) h ∧ bi ≼ b ∧ b ∈ E) →
  (∀ b h, H b = Some h → b = bi ∨ ∃ lid l Q, b = LeaderId_to_committed lid ∧
    O b = LeaderId_node_id lid ∧ b ≼ acc s (O b) ∧ quorum Q ∧ l `prefix_of` h ∧
    Forall (λ x, LogId_leader_id x ≺ b) l ∧ ∀ n, n ∈ Q → ∃ own, mkGrant n lid (last l) own ∈ grants s) →
  spec_inv bi s'.
Proof.
  intros s' Hi Hle Hh Hl. split; [|exact Hh|apply Hi|exact Hl|..|apply Hi].
  - intros n. by eapply good_mono, Hi.
  - intros n b p Hack. destruct (si_ack _ _ Hi _ _ _ Hack) as (Hb & h & Hhb & Hp & Hk). split; [done|].
    destruct (Hle _ _ Hhb) as (t & Ht & _). exists (h ++ t). split_and!; [done|by apply prefix_app_r|].
    intros q Hq. eapply kept_mono; [done| | |by apply Hk]; [|done].
    eapply Forall_prefix; [by trans p|]. by destruct (si_hist _ _ Hi _ _ Hhb) as (_ & ? & _).
  - intros n lid ll own Hg. destruct (si_grant _ _ Hi _ _ _ _ Hg) as (Hb & Hlast & Hgo & Hk).
    split_and!; [done|done|by eapply good_mono|]. intros b0 p q Hack Hb0 Hq.
    destruct (si_ack _ _ Hi _ _ _ Hack) as (_ & h & Hhb & Hp & _).
    eapply kept_mono; [done| | |by eapply Hk]; [|done].
    eapply Forall_prefix; [by trans p|]. by destruct (si_hist _ _ Hi _ _ Hhb) as (_ & ? & _).
Qed.

(** A node raises its ballots and moves to the log [l]: what it has accepted
    is kept as far as the leader [b] has it. *)
Lemma kept_node s n b h l q b0 :
  hist s b = Some h → b0 ≼ b → (b0 = b → q `prefix_of` h) →
  (q `prefix_of` log s n → q `prefix_of` h → q `prefix_of` l) → acc s n ≼ b →
  kept s q b0 (λ b', b' ≼ acc s n) (log s n) → kept s q b0 (λ b', b' ≼ b) l.
Proof.
  intros Hh Hb0 Heq Hl Ha [Hq|(b' & h' & ? & ? & ? & ?)].
  - destruct (decide (q `prefix_of` h)) as [Hqh|Hqh]; [left; by apply Hl|right].
    exists b, h. split_and!; [|apply ord_le_refl|done|done].
    apply ord_le_alt in Hb0 as [|E]; [done|by destruct (Hqh (Heq E))].
  - right. exists b', h'. split_and!; try done. ord.
Qed.

Lemma upd_le {A} `{!EqDecision A} (f : A → Bal) a y a' : f a ≼ y → f a' ≼ upd f a y a'.
Proof. intros Hf. unfold upd. case_decide; [by subst|apply ord_le_refl]. Qed.

Lemma lead_mono s s' bi :
  (∀ n, acc s n ≼ acc s' n) → hist s' = hist s → owner s' = owner s → grants s ⊆ grants s' →
  spec_inv bi s → ∀ b h, hist s' b = Some h → b = bi ∨ ∃ lid l Q, b = LeaderId_to_committed lid ∧
    owner s' b = LeaderId_node_id lid ∧ b ≼ acc s' (owner s' b) ∧ quorum Q ∧ l `prefix_of` h ∧
    Forall (λ x, LogId_leader_id x ≺ b) l ∧ ∀ n, n ∈ Q → ∃ own, mkGrant n lid (last l) own ∈ grants s'.
Proof.
  intros Ha Hh Ho Hg Hi b h. rewrite Hh, Ho. intros Hb.
  destruct (si_lead _ _ Hi _ _ Hb) as [|(lid & l & Q & ? & ? & Hb' & ? & ? & ? & HQ)]; [by left|right].
  exists lid, l, Q. split_and!; try done.
  - specialize (Ha (owner s b)). ord.
  - intros n (own & ?)%HQ. exists own. by apply Hg.
Qed.

(** A node follows the leader [b]: it moves to the log [l], and may accept. *)
Lemma inv_follow bi s n b h l acks' :
  let s' := mkSpec (upd (bal s) n b) (upd (acc s) n b) (upd (log s) n l) (hist s) (owner s) (elected s) (grants s)
    acks' (cmt s) in
  spec_inv bi s → bal s n ≼ b → hist s b = Some h → good s l →
  Forall (λ x, LogId_leader_id x ≼ b) l →
  (∀ r, r `prefix_of` log s n → r `prefix_of` h → r `prefix_of` l) →
  (∀ a, a ∈ acks' → a ∈ acks s ∨ ∃ p, a = mkAck n b p ∧ p `prefix_of` h ∧ p `prefix_of` l) →
  spec_inv bi s'.
Proof.
  intros s' Hi Hb Hh Hg Hf Hl Ha. destruct (si_acc _ _ Hi n) as (_ & Hbi & Hab).
  destruct (si_hist _ _ Hi _ _ Hh) as (_ & _ & Hbib & _).
  assert (acc s n ≼ b) as Hacc by ord.
  split; [|apply Hi| | |..|apply Hi].
  - intros n'. cbn. unfold upd. case_decide; [|apply Hi]. done.
  - intros n'. cbn. unfold upd. case_decide; [|apply Hi]. split_and!; [done|done|apply ord_le_refl].
  - apply (lead_mono s); [|done..]. intros n'. by apply upd_le.
  - intros n' b0 p [Hack|(p0 & [= -> -> ->] & Hp & Hpl)]%Ha.
    + destruct (si_ack _ _ Hi _ _ _ Hack) as (Hb0 & h0 & Hh0 & Hp & Hk). cbn. unfold upd.
      case_decide as E; [subst n'|by eauto]. split; [ord|]. exists h0. split_and!; [done|done|].
      intros q Hq. apply (kept_node s n b h); try done;
        [ord|intros ->; simplify_eq; by trans p|by apply Hl|by apply Hk].
    + cbn. unfold upd. rewrite !decide_True by done. split; [apply ord_le_refl|].
      exists h. split_and!; [done|done|]. intros q Hq. left. by trans p0.
  - intros n' lid ll own Hgr. destruct (si_grant _ _ Hi _ _ _ _ Hgr) as (Hb0 & Hlast & Hgo & Hk).
    split_and!; [|done|done|].
    + cbn. unfold upd. case_decide; [subst n'; ord|done].
    + intros b1 p q [Hack|(p0 & [= -> -> ->] & Hp & Hpl)]%Ha Hb1 Hq; [by eapply Hk|]. exfalso. ord.
Qed.

Lemma adopt_spec p l : p `prefix_of` adopt p l.
Proof. unfold adopt. by case_decide. Qed.

Lemma adopt_common p l h r : p `prefix_of` h → r `prefix_of` l → r `prefix_of` h → r `prefix_of` adopt p l.
Proof.
  intros Hp Hr Hrh. unfold adopt. case_decide as E; [done|].
  destruct (prefix_weak_total p r h) as [Hpr|]; [done..| |done]. destruct E. by trans r.
Qed.

Lemma Forall_leader_le s n b :
  Forall (λ x, LogId_leader_id x ≼ acc s n) (log s n) → acc s n ≼ b → Forall (λ x, LogId_leader_id x ≼ b) (log s n).
Proof. intros Hf Hb. eapply Forall_impl; [exact Hf|]. cbn. intros x Hx. ord. Qed.

Lemma inv_accept bi s n b h p :
  spec_inv bi s → bal s n ≼ b → hist s b = Some h → p `prefix_of` h →
  spec_inv bi (mkSpec (upd (bal s) n b) (upd (acc s) n b) (upd (log s) n (adopt p (log s n))) (hist s) (owner s)
      (elected s) (grants s) (mkAck n b p :: acks s) (cmt s)).
Proof.
  intros Hi Hb Hh Hp. destruct (si_acc _ _ Hi n) as (Hf & _ & Hab), (si_hist _ _ Hi _ _ Hh) as (Hg & Hfh & _).
  apply (inv_follow bi s n b h); try done.
  - unfold adopt. case_decide; [apply Hi|by eapply good_prefix].
  - unfold adopt. case_decide; [apply Forall_leader_le; [done|ord]|by eapply Forall_prefix].
  - intros r Hr Hrh. by eapply adopt_common.
  - intros a [->|Ha]%elem_of_cons; [right; exists p|by left]. split_and!; [done|done|apply adopt_spec].
Qed.

Lemma inv_truncate bi s n b h l :
  spec_inv bi s → bal s n ≼ b → hist s b = Some h → l `prefix_of` log s n →
  (∀ r, r `prefix_of` log s n → r `prefix_of` h → r `prefix_of` l) →
  spec_inv bi (mkSpec (upd (bal s) n b) (upd (acc s) n b) (upd (log s) n l) (hist s) (owner s) (elected s) (grants s)
      (acks s) (cmt s)).
Proof.
  intros Hi Hb Hh Hl Hr. destruct (si_acc _ _ Hi n) as (Hf & _ & Hab).
  apply (inv_follow bi s n b h); try done; [eapply good_prefix; [done|apply Hi]| |by left].
  eapply Forall_prefix; [done|]. apply Forall_leader_le; [done|ord].
Qed.

Lemma inv_raise bi s n b :
  spec_inv bi s → bal s n ≼ b →
  spec_inv bi (mkSpec (upd (bal s) n b) (acc s) (log s) (hist s) (owner s) (elected s) (grants s) (acks s) (cmt s)).
Proof.
  intros Hi Hb. split; try apply Hi.
  - intros n'. destruct (si_acc _ _ Hi n') as (? & ? & ?). split_and!; [done|done|]. cbn.
    pose proof (upd_le (bal s) n b n' Hb). ord.
  - intros n' lid ll own Hg. destruct (si_grant _ _ Hi _ _ _ _ Hg) as (? & ? & ? & ?).
    split_and!; [|done..]. cbn. pose proof (upd_le (bal s) n b n' Hb). ord.
Qed.

Lemma inv_raise_acc bi s n b :
  spec_inv bi s → bal s n ≼ b →
  spec_inv bi (mkSpec (upd (bal s) n b) (upd (acc s) n b) (log s) (hist s) (owner s) (elected s) (grants s) (acks s)
    (cmt s)).
Proof.
  intros Hi Hb. pose proof (inv_raise _ _ _ _ Hi Hb) as Hi'. destruct (si_acc _ _ Hi n) as (Hf & ? & ?).
  assert (acc s n ≼ b) as Ha by ord. split; try apply Hi'.
  - intros n'. cbn. unfold upd. case_decide; [|apply Hi]. subst n'.
    split_and!; [by apply Forall_leader_le|ord|apply ord_le_refl].
  - apply (lead_mono s); [|done..]. intros n'. by apply upd_le.
  - intros n' b0 p Hack. destruct (si_ack _ _ Hi _ _ _ Hack) as (Hb0 & h & Hh & Hp & Hk). cbn.
    pose proof (upd_le (acc s) n b n' Ha) as Hle. split; [ord|]. exists h. split_and!; [done|done|].
    intros q Hq. eapply kept_mono; [by apply hist_le_same| | |by apply Hk].
    + eapply Forall_prefix; [by trans p|]. by destruct (si_hist _ _ Hi _ _ Hh) as (_ & ? & _).
    + cbn. intros b' Hb'. ord.
Qed.

Lemma inv_ack bi s n b h p :
  spec_inv bi s → acc s n = b → bal s n = b → hist s b = Some h → p `prefix_of` h → p `prefix_of` log s n →
  spec_inv bi (mkSpec (bal s) (acc s) (log s) (hist s) (owner s) (elected s) (grants s) (mkAck n b p :: acks s) (cmt s)).
Proof.
  intros Hi Ha Hb Hh Hp Hl. split; try apply Hi.
  - intros n' b0 p' [[= -> -> ->]|Hack]%elem_of_cons; [|by apply (si_ack _ _ Hi _ _ _ Hack)].
    cbn. split; [rewrite Ha; apply ord_le_refl|]. exists h. split_and!; [done|done|]. intros q Hq. left. by trans p.
  - intros n' lid ll own Hg. destruct (si_grant _ _ Hi _ _ _ _ Hg) as (Hb0 & ? & ? & Hk).
    split_and!; [done..|]. intros b1 p' q [[= -> -> ->]|Hack]%elem_of_cons Hlt; [|by eapply Hk].
    rewrite Hb in Hb0. exfalso. ord.
Qed.

Lemma inv_grant bi s n lid ll :
  let b := LeaderId_to_committed lid in
  spec_inv bi s → bal s n ≼ b → acc s n ≺ b → last (log s n) ≼ ll →
  (∀ lid' ll own, mkGrant n lid' ll own ∈ grants s → LeaderId_to_committed lid' = b → lid' = lid) →
  spec_inv bi (mkSpec (upd (bal s) n b) (acc s) (log s) (hist s) (owner s) (elected s)
      (mkGrant n lid ll (log s n) :: grants s) (acks s) (cmt s)).
Proof.
  intros b Hi Hb Ha Hl Hone. pose proof (inv_raise _ _ _ _ Hi Hb) as Hi'. split; try apply Hi'.
  - apply (lead_mono s); [|done|done|set_solver|done]. intros n'. apply ord_le_refl.
  - intros n' lid0 l0 own [[= -> -> -> ->]|Hg]%elem_of_cons; [|exact (si_grant _ _ Hi' _ _ _ _ Hg)].
    cbn. unfold upd. rewrite decide_True by done. split_and!; [apply ord_le_refl|done|apply Hi|].
    intros b1 p q Hack Hlt Hq. destruct (si_ack _ _ Hi _ _ _ Hack) as (_ & h & Hh & Hp & Hk).
    eapply kept_mono; [by apply hist_le_same| | |by apply Hk].
    + destruct (si_hist _ _ Hi _ _ Hh) as (_ & Hf & _). eapply Forall_prefix; [|done]. by trans p.
    + cbn. intros b' Hb'. ord.
  - intros n' l1 ll1 o1 l2 ll2 o2 [[= -> -> -> ->]|H1]%elem_of_cons [[= -> -> ->]|H2]%elem_of_cons Heq;
      [done|symmetry; by eapply Hone|by eapply Hone|by eapply (si_once _ _ Hi)].
Qed.

Lemma lead_hist_le s b l s' : hist s b = None → hist s' = upd (hist s) b (Some l) → hist_le s s'.
Proof.
  intros Hn Hs b' h' Hh'. exists []. rewrite Hs. unfold upd. rewrite app_nil_r. case_decide; [congruence|by split].
Qed.

Lemma append_hist_le s b h s' :
  hist s b = Some h → hist s' = upd (hist s) b (Some (h ++ [next_log b h])) → hist_le s s'.
Proof.
  intros Hb Hs b' h' Hh'. rewrite Hs. unfold upd. case_decide as E; [|exists []; by rewrite app_nil_r].
  subst. simplify_eq. eexists. split; [done|]. by apply Forall_singleton.
Qed.

Lemma inv_lead bi s lid Q :
  let b := LeaderId_to_committed lid in let c := LeaderId_node_id lid in
  spec_inv bi s → bal s c ≼ b → acc s c ≺ b → quorum Q →
  (∀ n, n ∈ Q → ∃ own, mkGrant n lid (last (log s c)) own ∈ grants s) →
  spec_inv bi (mkSpec (upd (bal s) c b) (upd (acc s) c b) (log s) (upd (hist s) b (Some (log s c)))
      (upd (owner s) b c) (b :: elected s) (grants s) (mkAck c b (log s c) :: acks s) (cmt s)).
Proof.
  intros b c Hi Hb Ha HQ Hgr. destruct (si_acc _ _ Hi c) as (Hf & Hbi & _).
  assert (hist s b = None) as Hn.
  { destruct (hist s b) eqn:Hh; [|done]. exfalso. eapply (election_unique bi s lid Q c); try done.
    intros n (own & ?)%Hgr. eauto. }
  pose proof (inv_raise_acc bi s c b Hi Hb) as Hi1. set (s1 := mkSpec (upd (bal s) c b) _ _ _ _ _ _ _ _) in Hi1.
  assert (spec_inv bi (mkSpec (bal s1) (acc s1) (log s1) (upd (hist s) b (Some (log s c))) (upd (owner s) b c)
    (b :: elected s) (grants s1) (acks s1) (cmt s1))) as Hi2.
  { apply inv_hist; [done|by eapply lead_hist_le|..]; intros b' h'; unfold upd; case_decide as E;
      [intros [= <-]; subst b'| |intros [= <-]; subst b'|].
    - split_and!; [eapply (good_mono s); [by eapply lead_hist_le|apply Hi]| |ord|set_solver].
      eapply Forall_impl; [exact Hf|]. cbn. intros x Hx. ord.
    - intros Hh'. destruct (si_hist _ _ Hi _ _ Hh') as (? & ? & ? & ?).
      split_and!; [eapply (good_mono s); [by eapply lead_hist_le|done]|done|done|set_solver].
    - right. exists lid, (log s c), Q. split_and!; try done.
      + cbn. unfold upd. rewrite !decide_True by done. apply ord_le_refl.
      + eapply Forall_impl; [exact Hf|]. cbn. intros x Hx. ord.
    - intros Hh'. exact (si_lead _ _ Hi1 _ _ Hh'). }
  eapply (inv_ack bi _ c b (log s c) (log s c)) in Hi2; [exact Hi2|..]; cbn; unfold upd; try by rewrite decide_True.
  all: done.
Qed.

Lemma inv_append bi s b :
  let c := owner s b in let h := log s c in let h' := h ++ [next_log b h] in
  spec_inv bi s → hist s b = Some h → bal s c ≼ b →
  spec_inv bi (mkSpec (upd (bal s) c b) (upd (acc s) c b) (upd (log s) c h') (upd (hist s) b (Some h')) (owner s)
      (elected s) (grants s) (mkAck c b h' :: acks s) (cmt s)).
Proof.
  intros c h h' Hi Hb Hbal. destruct (si_hist _ _ Hi _ _ Hb) as (Hg & Hf & Hbi & He).
  set (s1 := mkSpec (bal s) (acc s) (log s) (upd (hist s) b (Some h')) (owner s) (elected s) (grants s) (acks s) (cmt s)).
  assert (hist_le s s1) as Hle by by eapply append_hist_le.
  assert (good s1 h') as Hg'.
  { intros q x [Hq|Hq]%prefix_snoc_cases; [by apply (good_mono s s1 h Hle Hg)|].
    rewrite Hq. apply app_inj_tail in Hq as [-> ->]. split; [done|]. cbn. unfold upd. rewrite decide_True by done. eauto. }
  assert (Forall (λ x, LogId_leader_id x ≼ b) h') as Hf'
    by (apply Forall_app; split; [done|apply Forall_singleton, ord_le_refl]).
  assert (spec_inv bi s1) as Hi1.
  { apply inv_hist; [done|done|..]; intros b' h0; unfold upd; case_decide as E;
      [intros [= <-]; subst b'| |intros [= <-]; subst b'|].
    - done.
    - intros Hh'. destruct (si_hist _ _ Hi _ _ Hh') as (? & ? & ? & ?).
      split_and!; [by eapply good_mono|done|done|done].
    - destruct (si_lead _ _ Hi _ _ Hb) as [?|(lid & l & Q & ? & ? & ? & ? & ? & ? & ?)]; [by left|right].
      exists lid, l, Q. split_and!; try done. by apply prefix_app_r.
    - apply Hi. }
  apply (inv_follow bi s1 c b h'); try done.
  - cbn. unfold upd. by rewrite decide_True.
  - intros a [->|Hin]%elem_of_cons; [right; by exists h'|by left].
Qed.

Lemma inv_spec_step bi s n s' : spec_inv bi s → spec_step s n s' → spec_inv bi s'.
Proof.
  intros Hi Hs. destruct Hs; [by apply inv_raise|by apply inv_grant|by eapply inv_lead|by apply inv_append|
    by eapply inv_accept|by eapply inv_truncate|]. by destruct Hi; split.
Qed.

Lemma inv_spec_init bi li s : spec_init bi li s → spec_inv bi s.
Proof.
  intros (Hli & Ha & Hl & Hh & He & Hg & Hk & _).
  assert (hist s bi = Some li) as Hhi by (rewrite Hh; by rewrite decide_True).
  assert (good s li) as Hgl.
  { intros q x Hq. pose proof (prefix_lookup_Some _ _ (length q) x ltac:(by apply list_lookup_middle) Hq) as Hx.
    rewrite (Hli _ _ Hx). split; [done|]. exists li. split; [done|by rewrite <- (Hli _ _ Hx)]. }
  assert (∀ b, bi ≼ b → Forall (λ x, LogId_leader_id x ≼ b) li) as Hf.
  { intros b Hb. apply Forall_lookup. intros i x Hx. by rewrite (Hli _ _ Hx). }
  split.
  - intros n. destruct (Hl n) as [->| ->]; [|done]. intros q x Hq%prefix_nil_inv. by destruct q.
  - intros b h. rewrite Hh. case_decide; [|done]. intros [= <-]. subst b. rewrite He.
    split_and!; [done|apply Hf, ord_le_refl|apply ord_le_refl|set_solver].
  - intros n. destruct (Ha n) as [-> ->]. split_and!; [|apply ord_le_refl..].
    destruct (Hl n) as [->| ->]; [done|apply Hf, ord_le_refl].
  - intros b h. rewrite Hh. case_decide; [by left|done].
  - rewrite Hk. by intros ??? []%elem_of_nil.
  - rewrite Hg. by intros ???? []%elem_of_nil.
  - rewrite Hg. by intros ??????? []%elem_of_nil.
Qed.

(** ** What nodes take to be committed *)

Definition cmt_inv s : Prop :=
  ∀ n, cmt s n = [] ∨ ∃ b p, chosen s b p ∧ b ≼ acc s n ∧ cmt s n `prefix_of` p ∧ cmt s n `prefix_of` log s n.

Lemma chosen_mono s s' b p :
  hist_le s s' → (∀ a, a ∈ acks s → a ∈ acks s') → chosen s b p → chosen s' b p.
Proof.
  intros Hle Ha (h & x & Q & Hh & Hp & Hx & Hb & HQ & Hn). destruct (Hle _ _ Hh) as (t & Hh' & _).
  exists (h ++ t), x, Q. split_and!; try done; [by apply prefix_app_r|].
  intros n (p' & ? & ?)%Hn. exists p'. auto.
Qed.

Lemma cmt_mono s s' :
  hist_le s s' → (∀ a, a ∈ acks s → a ∈ acks s') → cmt s' = cmt s → (∀ n, acc s n ≼ acc s' n) →
  (∀ n, log s n `prefix_of` log s' n) → cmt_inv s → cmt_inv s'.
Proof.
  intros Hle Ha E1 E2 E3 Hc n. rewrite E1. destruct (Hc n) as [|(b & p & Hch & Hb & ? & Hl)]; [by left|right].
  exists b, p. split_and!; [by eapply chosen_mono|specialize (E2 n); ord|done|by trans (log s n)].
Qed.

(** A node that follows [b] keeps what it took to be committed. *)
Lemma cmt_follow bi s n b h l acks' :
  let s' := mkSpec (upd (bal s) n b) (upd (acc s) n b) (upd (log s) n l) (hist s) (owner s) (elected s) (grants s)
    acks' (cmt s) in
  spec_inv bi s → cmt_inv s → bal s n ≼ b → hist s b = Some h → (∀ a, a ∈ acks s → a ∈ acks') →
  (∀ r, r `prefix_of` log s n → r `prefix_of` h → r `prefix_of` l) → cmt_inv s'.
Proof.
  intros s' Hi Hc Hb Hh Ha Hr n'. destruct (Hc n') as [|(b0 & p & Hch & Hb0 & Hp & Hl)]; [by left|right].
  exists b0, p. split; [apply (chosen_mono s); [by apply hist_le_same|done|done]|]. cbn. unfold upd.
  case_decide as E; [subst n'|done]. destruct (si_acc _ _ Hi n) as (_ & _ & Hab).
  assert (b0 ≼ b) as Hbb by ord. split_and!; [done|done|]. apply Hr; [done|].
  trans p; [done|]. by eapply leader_completeness_le.
Qed.

Lemma commit_log bi s n b0 p0 b p q :
  spec_inv bi s → chosen s b0 p0 → mkAck n b p ∈ acks s → b0 ≼ b → q `prefix_of` p0 → q `prefix_of` p →
  q `prefix_of` log s n.
Proof.
  intros Hi Hch Hack Hb Hq0 Hq. destruct (si_ack _ _ Hi _ _ _ Hack) as (_ & h & Hh & Hp & Hk).
  destruct (Hk q Hq) as [|(b' & h' & Hlt & _ & Hh' & Hne)]; [done|]. destruct Hne. trans p0; [done|].
  eapply leader_completeness; [done|done| |done]. ord.
Qed.

Lemma cmt_commit bi s n b0 p0 b p q :
  spec_inv bi s → cmt_inv s → chosen s b0 p0 → mkAck n b p ∈ acks s → b0 ≼ b → q `prefix_of` p0 → q `prefix_of` p →
  cmt_inv (mkSpec (bal s) (acc s) (log s) (hist s) (owner s) (elected s) (grants s) (acks s) (upd (cmt s) n q)).
Proof.
  intros Hi Hc Hch Hack Hb Hq0 Hq n'. cbn. unfold upd. case_decide as E; [subst n'|apply Hc].
  destruct (si_ack _ _ Hi _ _ _ Hack) as (Hba & _). right. exists b0, p0.
  split_and!; [apply (chosen_mono s); [by apply hist_le_same|done|done]|ord|done|by eapply commit_log].
Qed.

(** What a node takes to be committed grows. *)
Lemma step_cmt s n s' n' : spec_step s n s' → cmt s n' `prefix_of` cmt s' n'.
Proof. intros []; try done. cbn. unfold upd. by case_decide; [subst|]. Qed.

Lemma cmt_step bi s n s' : spec_inv bi s → cmt_inv s → spec_step s n s' → cmt_inv s'.
Proof.
  intros Hi Hc Hs. destruct Hs as [n b Hb|n lid ll b Hb Ha Hl|lid Q b c Hb Ha HQ Hg|b c h h' Hh Hb|n b h p Hb Hh Hp|
    n b h l Hb Hh Hl Hr|].
  - apply (cmt_mono s); try done; [by apply hist_le_same|intros; apply ord_le_refl].
  - apply (cmt_mono s); try done; [by apply hist_le_same|intros; apply ord_le_refl].
  - apply (cmt_mono s); try done; [|set_solver|intros n; apply upd_le; ord]. eapply lead_hist_le; [|done].
    destruct (hist s b) eqn:Hh; [|done]. exfalso. eapply (election_unique bi s lid Q c); try done.
    intros n (own & ?)%Hg. eauto.
  - destruct (si_acc _ _ Hi c) as (_ & _ & Hab).
    apply (cmt_mono s); try done; [by eapply append_hist_le|set_solver|intros n; apply upd_le; ord|].
    intros n. cbn. unfold upd. case_decide; [subst; by apply prefix_app_r|done].
  - eapply cmt_follow; try done; [intros a Ha; by apply list_elem_of_further|]. intros r ??. by eapply adopt_common.
  - by eapply cmt_follow.
  - by eapply cmt_commit.
Qed.

Lemma spec_reachable_inv bi li s : spec_reachable bi li s → spec_inv bi s ∧ cmt_inv s.
Proof.
  intros (s0 & H0 & Hs). assert (spec_inv bi s0 ∧ cmt_inv s0) as Hi.
  { split; [by eapply inv_spec_init|]. destruct H0 as (_ & _ & _ & _ & _ & _ & _ & Hc). intros n. left. apply Hc. }
  clear H0. induction Hs as [|s0 s1 s [n Hs] _ IH]; [done|]. apply IH. destruct Hi as [Hi Hc].
  split; [by eapply inv_spec_step|by eapply cmt_step].
Qed.

(** What two nodes take to be committed does not differ. *)
Lemma committed_agree bi s n n' :
  spec_inv bi s → cmt_inv s → cmt s n `prefix_of` cmt s n' ∨ cmt s n' `prefix_of` cmt s n.
Proof.
  intros Hi Hc. destruct (Hc n) as [->|(b & p & Hch & _ & Hp & _)]; [left; apply prefix_nil|].
  destruct (Hc n') as [->|(b' & p' & Hch' & _ & Hp' & _)]; [right; apply prefix_nil|].
  pose proof Hch as (h & _ & _ & Hh & Hph & _). pose proof Hch' as (h' & _ & _ & Hh' & Hph' & _).
  destruct (ord_total b b') as [Hle|Hle].
  - pose proof (leader_completeness_le _ _ _ _ _ _ Hi Hch Hle Hh'). apply (prefix_weak_total _ _ h'); [by trans p|by trans p'].
  - pose proof (leader_completeness_le _ _ _ _ _ _ Hi Hch' Hle Hh). apply (prefix_weak_total _ _ h); [by trans p|by trans p'].
Qed.
End spec.
