(* ===== verification/ReplicaFrame.v ===== *)
(** * What the handlers of a node leave alone

    The order of votes as the order of leaderships of [RaftSpec.v]
    ([ballot]), and the handlers that change nothing the protocol is about
    ([same_node]): elections, acknowledgements, the committed position, and logs
    but for those that are purged. *)

From S2P Require Import Prelude Vote LogId LogIdList Quorum Membership VecProgress IOState.
From S2P Require Import MembershipState Entry RaftState Config ProgressEntry Proposer Command.
From S2P Require Import Engine Replication Following LeaderHandler VoteHandler EngineImpl.
From S2P Require Import VoteSafety Cluster Election RaftSpec.

(** ** Ballots *)

Section ballot.
Context {C : RaftTypeConfig} (n0 : N).

(** The leadership of the node that initialized the cluster, which has term 0. *)
Definition initial_ballot : CommittedLeaderId := LeaderId_to_committed (LeaderId_new 0 n0).

(** Votes of term 0 are those of nodes that have not seen an election. *)
Definition ballot (lid : LeaderId) : CommittedLeaderId :=
  if decide (LeaderId_term lid = 0%N) then initial_ballot else LeaderId_to_committed lid.
Definition vote_ballot (v : Vote) : CommittedLeaderId := ballot (Vote_leader_id v).

Context `{!RaftLeaderIdLaws C}.
Implicit Types (lid : LeaderId) (v : Vote).

Lemma ballot_term lid : LeaderId_term lid ≠ 0%N → ballot lid = LeaderId_to_committed lid.
Proof. intros Hl. unfold ballot. by rewrite decide_False. Qed.

Lemma initial_ballot_lt lid : LeaderId_term lid ≠ 0%N → initial_ballot ≺ ballot lid.
Proof.
  intros Hl. rewrite ballot_term by done. apply LeaderId_to_committed_lt, LeaderId_term_lt.
  rewrite LeaderId_term_new. lia.
Qed.

Lemma ballot_initial_le lid : initial_ballot ≼ ballot lid.
Proof.
  destruct (decide (LeaderId_term lid = 0%N)) as [Hl|Hl]; [|by apply ord_lt_le, initial_ballot_lt].
  unfold ballot. rewrite decide_True by done. apply ord_le_refl.
Qed.

Lemma ballot_lt lid lid' :
  partial_cmp lid lid' = Some Lt → LeaderId_term lid' ≠ 0%N → ballot lid ≺ ballot lid'.
Proof.
  intros Hlt Ht. destruct (decide (LeaderId_term lid = 0%N)) as [Hl|Hl].
  - unfold ballot at 1. rewrite decide_True by done. by apply initial_ballot_lt.
  - rewrite !ballot_term by done. by apply LeaderId_to_committed_lt.
Qed.

Lemma ballot_same lid lid' : partial_cmp lid lid' = None → ballot lid = ballot lid'.
Proof.
  intros Hn. pose proof (LeaderId_to_committed_same _ _ Hn) as Hc.
  assert (LeaderId_term lid = LeaderId_term lid') as Ht; [|unfold ballot; by rewrite Ht, Hc].
  destruct (N.lt_trichotomy (LeaderId_term lid) (LeaderId_term lid')) as [Hl|[|Hl]]; [|done|];
    apply LeaderId_term_lt in Hl; [congruence|]. rewrite pcmp_flip, Hl in Hn. done.
Qed.

Lemma ballot_le lid lid' :
  partial_cmp lid lid' ≠ Some Gt → ballot lid ≼ ballot lid'.
Proof.
  intros Hle. destruct (partial_cmp lid lid') as [[]|] eqn:E; [| |done|].
  - apply pcmp_eq in E as ->. apply ord_le_refl.
  - destruct (decide (LeaderId_term lid' = 0%N)) as [Hl|Hl]; [|by apply ord_lt_le, ballot_lt].
    pose proof (LeaderId_term_le _ _ E). unfold ballot. rewrite !decide_True by lia. apply ord_le_refl.
  - rewrite (ballot_same _ _ E). apply ord_le_refl.
Qed.

Lemma vote_le_lid v v' :
  pleb v v' = true → partial_cmp (Vote_leader_id v) (Vote_leader_id v') ≠ Some Gt.
Proof.
  unfold pleb, partial_cmp at 1, Vote_partial_ord, RefVote_partial_cmp. intros H Hc. by rewrite Hc in H.
Qed.

Lemma vote_ballot_le v v' : pleb v v' = true → vote_ballot v ≼ vote_ballot v'.
Proof. intros Hle%vote_le_lid. by apply ballot_le. Qed.

(** A vote that is not accepted is not of a later leadership. *)
Lemma rejected_ballot_le v v' : pgeb v v' = false → vote_ballot v ≼ vote_ballot v'.
Proof.
  intros Hge. apply ballot_le. intros Hc. unfold pgeb, partial_cmp, Vote_partial_ord, RefVote_partial_cmp in Hge.
  by rewrite Hc in Hge.
Qed.

(** The vote of a candidate above a committed one is of a later leadership. *)
Lemma above_committed v v' :
  Vote_is_committed v = true → Vote_is_committed v' = false → pleb v v' = true → Vote_term v' ≠ 0%N →
  vote_ballot v ≺ vote_ballot v'.
Proof.
  intros Hv Hv' Hle Ht. apply ballot_lt; [|done].
  unfold pleb, partial_cmp at 1, Vote_partial_ord, RefVote_partial_cmp in Hle.
  unfold Vote_is_committed in Hv, Hv'. rewrite Hv, Hv' in Hle. by destruct (partial_cmp _ _) as [[]|].
Qed.

(** Two candidates of one leadership that a node has voted for are the same. *)
Lemma same_candidate lid lid' :
  pleb (mkVote lid false) (mkVote lid' false) = true → LeaderId_to_committed lid = LeaderId_to_committed lid' →
  lid = lid'.
Proof.
  unfold pleb, partial_cmp at 1, Vote_partial_ord, RefVote_partial_cmp. cbn.
  destruct (partial_cmp lid lid') as [[]|] eqn:E; try done.
  - intros _ _. by apply pcmp_eq in E.
  - intros _ Hc. apply LeaderId_to_committed_lt in E. rewrite Hc in E. by apply ord_lt_irrefl in E.
Qed.
End ballot.

(** ** What most handlers leave alone *)

Section frame.
Context {C : RaftTypeConfig} `{!Env} `{!RaftLeaderIdLaws C}.
Implicit Types (e : Engine) (w : World) (l : Leader).

(** The requests for votes that the commands of an engine send. *)
Definition sent_votes e : list VoteRequest :=
  omap (λ c, match c with Command_SendVote req => Some req | _ => None end) (commands e).

#[local] Abbreviation Progress := (VecProgress ProgressEntry (option LogId) Membership).

(** The positions that a leader tracks are left alone or forgotten. *)
Record same_progress (p p' : Progress) : Prop := {
  sp_wf : VecProgress_wf p → VecProgress_wf p';
  sp_qs : VecProgress_quorum_set p' = VecProgress_quorum_set p;
  sp_accepted : VecProgress_quorum_accepted p' = VecProgress_quorum_accepted p;
  sp_entries : VecProgress_wf p → ∀ x, x ∈ VecProgress_entries p' → ProgressEntry_matching x = None ∨
    ∃ y, y ∈ VecProgress_entries p ∧ ProgressEntry_id y = ProgressEntry_id x ∧
      ProgressEntry_matching y = ProgressEntry_matching x;
}.

Record same_leader l l' : Prop := {
  sl_vote : Leader_committed_vote l' = Leader_committed_vote l;
  sl_last : Leader_last_log_id l' = Leader_last_log_id l;
  sl_progress : same_progress (Leader_progress l) (Leader_progress l');
}.

Definition same_leaders (o o' : option Leader) : Prop :=
  match o, o' with
  | Some l, Some l' => same_leader l l'
  | None, None => True
  | _, _ => False
  end.

(** The log is left alone but for logs up to [purge_upto], which may be purged. *)
Record same_logs (st st' : RaftState) : Prop := {
  sm_log : rtc (λ ids ids', ∃ upto, purge_upto st = Some upto ∧ ids' = LogIdList_purge ids upto)
    (RaftState_log_ids st) (RaftState_log_ids st');
  sm_purge : purge_upto st' = purge_upto st;
  sm_snapshot : snapshot_last_log_id st' = snapshot_last_log_id st;
}.

(** The two engines differ in nothing that the protocol is about. *)
Record same_node e e' : Prop := {
  sn_config : Engine_id e' = Engine_id e;
  sn_vote : local_vote e' = local_vote e;
  sn_log : same_logs (Engine_state e) (Engine_state e');
  sn_accepted : accepted_log_io (Engine_state e') = accepted_log_io (Engine_state e);
  sn_cluster : IOState_cluster_committed (RaftState_io_state (Engine_state e')) =
    IOState_cluster_committed (RaftState_io_state (Engine_state e));
  sn_committed : local_committed (Engine_state e') = local_committed (Engine_state e);
  sn_members : RaftState_membership_state (Engine_state e') = RaftState_membership_state (Engine_state e);
  sn_candidate : Engine_candidate e' = Engine_candidate e;
  sn_sent : sent_votes e' = sent_votes e;
  sn_leader : same_leaders (Engine_leader e) (Engine_leader e');
}.

Lemma same_progress_refl (p : Progress) : same_progress p p.
Proof. split; auto. intros _ x Hx. right. by exists x. Qed.

Lemma same_progress_trans (p1 p2 p3 : Progress) :
  same_progress p1 p2 → same_progress p2 p3 → same_progress p1 p3.
Proof.
  intros [W1 Q1 A1 E1] [W2 Q2 A2 E2]. split; [auto|congruence|congruence|].
  intros Hwf x Hx. destruct (E2 (W1 Hwf) x Hx) as [|(y & Hy & Hi & Hm)]; [by left|].
  destruct (E1 Hwf y Hy) as [Hn|(z & Hz & Hi' & Hm')]; [left; congruence|right].
  exists z. split_and!; [done|congruence|congruence].
Qed.

Lemma same_leader_refl l : same_leader l l.
Proof. split; [done|done|apply same_progress_refl]. Qed.

Lemma same_leaders_refl o : same_leaders o o.
Proof. destruct o; [apply same_leader_refl|done]. Qed.

Lemma same_leader_trans l1 l2 l3 : same_leader l1 l2 → same_leader l2 l3 → same_leader l1 l3.
Proof. intros [] []. split; [congruence|congruence|by eapply same_progress_trans]. Qed.

Lemma same_leaders_trans o1 o2 o3 : same_leaders o1 o2 → same_leaders o2 o3 → same_leaders o1 o3.
Proof. destruct o1, o2, o3; cbn; try done. apply same_leader_trans. Qed.

Lemma same_logs_eq st st' :
  RaftState_log_ids st' = RaftState_log_ids st → purge_upto st' = purge_upto st →
  snapshot_last_log_id st' = snapshot_last_log_id st → same_logs st st'.
Proof. intros Hl ? ?. split; [|done|done]. rewrite Hl. apply rtc_refl. Qed.

Lemma same_logs_refl st : same_logs st st.
Proof. by apply same_logs_eq. Qed.

Lemma same_logs_trans st1 st2 st3 : same_logs st1 st2 → same_logs st2 st3 → same_logs st1 st3.
Proof. intros [L1 P1 S1] [L2 P2 S2]. rewrite P1 in L2. split; [by trans (RaftState_log_ids st2)|congruence..]. Qed.

Lemma same_node_refl e : same_node e e.
Proof. split; try done. apply same_leaders_refl. Qed.

Lemma same_node_trans e1 e2 e3 : same_node e1 e2 → same_node e2 e3 → same_node e1 e3.
Proof. intros [] []. split; try congruence; [by eapply same_logs_trans|by eapply same_leaders_trans]. Qed.

(** *** Handlers *)

Class SameNode {A} (x : M A) : Prop :=
  same_run : ∀ w a w', x w = Ret (a, w') → same_node (w_engine w) (w_engine w').

Class SameFrame (f : Engine → Engine) : Prop := same_frame : ∀ e, same_node e (f e).

#[global] Instance same_bind {A B} (x : M A) (f : A → M B) :
  SameNode x → (∀ a, SameNode (f a)) → SameNode (x ≫= f).
Proof.
  intros Hx Hf w b w'. rewrite M_bind_eq. destruct (x w) as [[a w1]|] eqn:E; [|done].
  intros Hb. eapply same_node_trans; [by eapply Hx|]. by eapply Hf.
Qed.
#[global] Instance same_ret {A} (a : A) : SameNode (mret a).
Proof. intros w a' w' [= <- <-]. apply same_node_refl. Qed.
#[global] Instance same_get : SameNode get.
Proof. intros w a' w' [= <- <-]. apply same_node_refl. Qed.
#[global] Instance same_gets {A} (f : Engine → A) : SameNode (gets f).
Proof. intros w a' w' [= <- <-]. apply same_node_refl. Qed.
#[global] Instance same_lift {A} (o : outcome A) : SameNode (lift o).
Proof. intros w a w'. unfold lift. destruct o; [|done]. intros [= <- <-]. apply same_node_refl. Qed.
#[global] Instance same_panic {A} : SameNode (panic (A := A)).
Proof. by intros w a w' [=]. Qed.
#[global] Instance same_now : SameNode now.
Proof. intros w a' w' [= <- <-]. apply same_node_refl. Qed.
#[global] Instance same_draw lo hi : SameNode (draw lo hi).
Proof. intros w a' w' [= <- <-]. apply same_node_refl. Qed.
#[global] Instance same_the_leader : SameNode the_leader.
Proof.
  intros w a w'. unfold the_leader. destruct (Engine_leader _); [|done]. intros [= <- <-]. apply same_node_refl.
Qed.
#[global] Instance same_modify f : SameFrame f → SameNode (modify f).
Proof. intros Hf w a w' [= <- <-]. apply Hf. Qed.

(** A handler of a leader that changes the leader. *)
Lemma same_put_leader l l' w a w' :
  Engine_leader (w_engine w) = Some l → same_leader l l' → put_leader l' w = Ret (a, w') →
  same_node (w_engine w) (w_engine w').
Proof. intros Hl Hs [= <- <-]. split; try done. cbn. by rewrite Hl. Qed.

Lemma same_with_leader {B} (f : Leader → M B) :
  (∀ w l b w', Engine_leader (w_engine w) = Some l → f l w = Ret (b, w') → same_node (w_engine w) (w_engine w')) →
  SameNode (the_leader ≫= f).
Proof.
  intros Hf w b w'. rewrite M_bind_eq. unfold the_leader.
  destruct (Engine_leader (w_engine w)) as [l|] eqn:El; [|done]. by apply Hf.
Qed.

(** *** Progress *)

(** An update of an entry that keeps its id and its position. *)
Definition keeps_position (x y : ProgressEntry) : Prop :=
  ProgressEntry_id y = ProgressEntry_id x ∧ ProgressEntry_matching y = ProgressEntry_matching x.

Lemma same_voters (p p' : Progress) :
  VecProgress_voter_count p' = VecProgress_voter_count p →
  Forall2 keeps_position (VecProgress_entries p) (VecProgress_entries p') →
  Forall2 keeps_position (voters p) (voters p').
Proof. intros Hc Hf. unfold voters. rewrite Hc. by apply Forall2_take. Qed.

Lemma keeps_ids (l1 l2 : list ProgressEntry) : Forall2 keeps_position l1 l2 →
  (entry_id : ProgressEntry → N) <$> l2 = (entry_id : ProgressEntry → N) <$> l1.
Proof.
  induction 1 as [|x y l1 l2 [Hi _] _ IH]; [done|]. rewrite !fmap_cons. by f_equal.
Qed.

Lemma same_entries (p p' : Progress) :
  VecProgress_voter_count p' = VecProgress_voter_count p → VecProgress_quorum_set p' = VecProgress_quorum_set p →
  VecProgress_quorum_accepted p' = VecProgress_quorum_accepted p →
  Forall2 keeps_position (VecProgress_entries p) (VecProgress_entries p') → same_progress p p'.
Proof.
  intros Hc Hq Ha Hf. split; [|done|done|].
  - intros [W1 W2 W3 W4 W5]. pose proof (same_voters _ _ Hc Hf) as Hv. split.
    + by rewrite Hc, <- (Forall2_length _ _ _ Hf).
    + by rewrite (keeps_ids _ _ Hf).
    + by rewrite Hq, (keeps_ids _ _ Hv).
    + rewrite Ha. clear - Hv W4. revert W4. unfold desc_above.
      induction Hv as [|x y l1 l2 [_ Hm] Hv IH]; [done|]. inversion 1 as [|?? Hs Hx]; subst.
      constructor; [by apply IH|]. clear IH Hs W4. induction Hv as [|x' y' l1 l2 [_ Hm'] Hv IH]; [done|].
      apply Forall_cons in Hx as [Hx Hx']. constructor; [|by apply IH]. cbn in *. by rewrite Hm, Hm'.
    + intros v Hlt. rewrite Ha in Hlt. rewrite <- (W5 v Hlt). unfold granted. rewrite Hq. f_equal.
      unfold granters. clear - Hv. induction Hv as [|x y l1 l2 [Hi Hm] _ IH]; [done|].
      rewrite !filter_cons. assert (progress y = progress x) as -> by exact Hm. case_decide; [|exact IH].
      rewrite !fmap_cons. f_equal; [exact Hi|exact IH].
  - intros _ x Hx. apply list_elem_of_lookup in Hx as [i Hi].
    destruct (Forall2_lookup_r _ _ _ _ _ Hf Hi) as (y & Hy & Hyi & Hym). right. exists y.
    split_and!; [by eapply list_elem_of_lookup_2|done|done].
Qed.

Lemma Forall2_keeps_refl (l : list ProgressEntry) : Forall2 keeps_position l l.
Proof. induction l; constructor; [by split|done]. Qed.

Lemma same_update_data (p p' : Progress) id f :
  (∀ x, keeps_position x (f x)) → update_data_with p id f = Some p' → same_progress p p'.
Proof.
  intros Hf. unfold update_data_with. intros (i & Hi & (x & Hx & [= <-])%bind_Some)%bind_Some.
  apply same_entries; try done. cbn. apply Forall2_same_length_lookup_2.
  { by rewrite length_insert. }
  intros j y z Hy Hz. destruct (decide (i = j)) as [->|Hne].
  - rewrite list_lookup_insert_eq in Hz by (by eapply lookup_lt_Some). simplify_eq. apply Hf.
  - rewrite list_lookup_insert_ne in Hz by done. simplify_eq. by split.
Qed.

Lemma next_send_keeps item st max_entries item' st' t :
  next_send item st max_entries = (item', st', t) →
  keeps_position item item' ∧ ∃ i, st' = set_last_inflight_id st i.
Proof.
  unfold next_send, new_inflight_id.
  assert (∃ i, st = set_last_inflight_id st i) by (exists (RaftState_last_inflight_id st); by destruct st).
  repeat (case_match; cbn); intros [= <- <- <-]; (split; [by split|]); eauto.
Qed.

Lemma initiate_loop_keeps id max_entries leader_vote items st items' st' cmds :
  initiate_loop id max_entries leader_vote items st = Ret (items', st', cmds) →
  Forall2 keeps_position items items' ∧ ∃ i, st' = set_last_inflight_id st i.
Proof.
  revert st items' st' cmds. induction items as [|item items IH]; intros st items' st' cmds; cbn.
  { intros [= <- <- <-]. split; [constructor|]. exists (RaftState_last_inflight_id st). by destruct st. }
  case_decide.
  - destruct (initiate_loop _ _ _ _ st) as [[[i1 s1] c1]|] eqn:E; [|done]. intros [= <- <- <-].
    destruct (IH _ _ _ _ E). split; [by constructor|done].
  - destruct (next_send item st max_entries) as [[item1 st1] t] eqn:Hn.
    apply next_send_keeps in Hn as [Hk [i ->]].
    assert (∀ i1 s1 c1, initiate_loop id max_entries leader_vote items (set_last_inflight_id st i) = Ret (i1, s1, c1) →
      Forall2 keeps_position (item :: items) (item1 :: i1) ∧ ∃ i', s1 = set_last_inflight_id st i') as Hloop.
    { intros i1 s1 c1 [Hf [i' ->]]%IH. split; [by constructor|]. by exists i'. }
    destruct t as [j|j].
    + destruct (send_to_target _ _ j) as [cmd|]; [|done]. cbn.
      destruct (initiate_loop _ _ _ _ _) as [[[i1 s1] c1]|] eqn:E; [|done]. intros [= <- <- <-]. by eapply Hloop.
    + destruct (initiate_loop _ _ _ _ _) as [[[i1 s1] c1]|] eqn:E; [|done]. intros [= <- <- <-]. by eapply Hloop.
Qed.

Lemma rebuild_targets_keeps id m0 close_old items items' targets :
  rebuild_targets id m0 close_old items = Ret (items', targets) → Forall2 keeps_position items items'.
Proof.
  revert items' targets. induction items as [|item items IH]; intros items' targets; cbn.
  { intros [= <- <-]. constructor. }
  case_decide.
  - destruct (unwrap _); [|done]. cbn. destruct (rebuild_targets _ _ _ items) as [[i1 t1]|] eqn:E; [|done]. cbn.
    intros [= <- <-]. constructor; [by destruct close_old|by eapply IH].
  - destruct (rebuild_targets _ _ _ items) as [[i1 t1]|] eqn:E; [|done]. cbn. intros [= <- <-].
    constructor; [by split|by eapply IH].
Qed.

Lemma same_set_entries (p : Progress) items :
  Forall2 keeps_position (VecProgress_entries p) items → same_progress p (set_entries p items).
Proof. intros Hf. by apply same_entries. Qed.

Lemma same_set_progress l p : same_progress (Leader_progress l) p → same_leader l (Leader_set_progress l p).
Proof. by split. Qed.

(** *** Functions on engines *)

Ltac same_frame := intros ?; split; try done; apply same_leaders_refl.

#[global] Instance same_compose f g : SameFrame f → SameFrame g → SameFrame (λ e, f (g e)).
Proof. intros Hf Hg e. eapply same_node_trans; [apply Hg|apply Hf]. Qed.
#[global] Instance same_update_server_state : SameFrame update_server_state_if_changed.
Proof. intros e. rewrite update_server_state_eq. revert e. same_frame. Qed.

(** A command that asks for no votes. *)
Class NoVotes (c : Command) : Prop := no_votes : ∀ req, c ≠ Command_SendVote req.
#[local] Hint Extern 1 (NoVotes _) => by intros ? : typeclass_instances.

#[global] Instance same_push c : NoVotes c → SameFrame (push c).
Proof.
  intros Hc e. split; try done; [|apply same_leaders_refl]. unfold sent_votes, commands. cbn. rewrite omap_app. cbn.
  destruct c; try by rewrite app_nil_r. by edestruct Hc.
Qed.
#[global] Instance same_set_pre_candidate o : SameFrame (λ e, set_pre_candidate e o).
Proof. same_frame. Qed.
#[global] Instance same_set_seen_greater_log b : SameFrame (λ e, set_seen_greater_log e b).
Proof. same_frame. Qed.

(** *** Handlers *)

#[global] Instance same_resample : SameNode Engine_resample_election_timeout.
Proof.
  unfold Engine_resample_election_timeout. apply same_bind; [apply _|]. intros c. destruct (_ <? _); [|apply _].
  apply same_bind; [apply _|]. intros sample. apply same_modify. same_frame.
Qed.
#[global] Instance same_new_pre_candidate vote : SameNode (new_pre_candidate vote).
Proof. unfold new_pre_candidate, create_candidate. repeat (apply same_bind; [apply _|intros ?]). apply _. Qed.
#[global] Instance same_is_leader_lease_valid t b : SameNode (is_leader_lease_valid t b).
Proof.
  unfold is_leader_lease_valid. destruct b; [apply _|]. apply same_bind; [apply _|]. intros e.
  destruct (_ && _); [apply _|]. destruct (Engine_leader e); apply _.
Qed.
#[global] Instance same_vote_response b : SameNode (vote_response b).
Proof. unfold vote_response. apply _. Qed.
#[global] Instance same_handle_pre_vote_req req : SameNode (handle_pre_vote_req req).
Proof.
  unfold handle_pre_vote_req. apply same_bind; [apply _|]. intros t. apply same_bind; [apply _|]. intros [].
  - apply _.
  - apply same_bind; [apply _|]. intros st. destruct (is_candidate_log_behind _ _); apply _.
Qed.
#[global] Instance same_send_heartbeat b : SameNode (send_heartbeat b).
Proof. unfold send_heartbeat. apply _. Qed.

#[global] Instance same_try_update_leader_clock sid target t : SameNode (try_update_leader_clock sid target t).
Proof.
  apply same_with_leader. intros w l b w' Hl. destruct (negb _); [intros [= <- <-]; apply same_node_refl|].
  rewrite M_bind_eq. destruct (update_clock l target t) as [[l' o]|] eqn:E; [|done]. rewrite lift_Ret.
  apply (same_put_leader l); [done|]. unfold update_clock in E.
  destruct (increase_to _ target _); [|done]. injection E as <- _. split; [done|done|apply same_progress_refl].
Qed.
#[global] Instance same_allow_next_revert target allow : SameNode (allow_next_revert target allow).
Proof.
  apply same_with_leader. intros w l b w' Hl. destruct (update_data_with _ _ _) as [p|] eqn:E.
  - rewrite M_bind_eq. destruct (put_leader _ w) as [[u w1]|] eqn:Ep; [|done]. intros [= <- <-].
    eapply same_put_leader; [done| |done]. apply same_set_progress. eapply same_update_data; [|done]. by split.
  - intros [= <- <-]. apply same_node_refl.
Qed.
Lemma purge_log_same_logs e : same_logs (Engine_state e) (Engine_state (LogHandler_purge_log e)).
Proof.
  unfold LogHandler_purge_log. destruct (_ <=? _); [apply same_logs_refl|].
  destruct (purge_upto (Engine_state e)) as [upto|] eqn:Hp; [|apply same_logs_refl].
  split; [|done|done]. apply rtc_once. by exists upto.
Qed.
#[global] Instance same_purge_log : SameFrame LogHandler_purge_log.
Proof.
  intros e. pose proof (purge_log_same_logs e) as Hl. revert Hl. unfold LogHandler_purge_log.
  destruct (_ <=? _); [intros _; apply same_node_refl|].
  destruct (purge_upto (Engine_state e)) as [upto|] eqn:Hp; [|intros _; apply same_node_refl].
  intros Hl. split; try done; [|apply same_leaders_refl].
  unfold sent_votes, commands. cbn. rewrite omap_app. cbn. by rewrite app_nil_r.
Qed.
#[global] Instance same_try_purge_log : SameNode ReplicationHandler_try_purge_log.
Proof.
  unfold ReplicationHandler_try_purge_log. apply same_bind; [apply _|]. intros e. apply same_with_leader.
  intros w l a w' _. repeat case_match; try (intros [= <- <-]; apply same_node_refl). apply same_run.
Qed.
#[global] Instance same_transfer_leader to : SameNode (transfer_leader to).
Proof.
  apply same_with_leader. intros w l b w' Hl. unfold put_leader. m_steps. intros [= <- <-].
  split; try done.
  - unfold sent_votes, commands. cbn. rewrite omap_app. cbn. by rewrite app_nil_r.
  - cbn. rewrite Hl. split; [done|done|apply same_progress_refl].
Qed.
#[global] Instance same_trigger_transfer_leader to : SameNode (trigger_transfer_leader to).
Proof.
  unfold trigger_transfer_leader. apply same_bind; [apply _|]. intros e. repeat case_match; apply _.
Qed.
#[global] Instance same_rebuild_replication_streams b : SameNode (rebuild_replication_streams b).
Proof.
  intros w a w'. unfold rebuild_replication_streams. m_steps. unfold the_leader.
  destruct (Engine_leader (w_engine w)) as [l|] eqn:El; [|done]. m_steps.
  destruct (rebuild_targets _ _ _ _) as [[items targets]|] eqn:E; [|done]. unfold put_leader. m_steps.
  intros [= <- <-]. apply rebuild_targets_keeps in E. split; try done.
  - unfold sent_votes, commands. cbn. rewrite omap_app. cbn. by rewrite app_nil_r.
  - cbn. rewrite El. by apply same_set_progress, same_set_entries.
Qed.
#[global] Instance same_initiate_replication : SameNode initiate_replication.
Proof.
  intros w a w'. unfold initiate_replication. m_steps. unfold the_leader.
  destruct (Engine_leader (w_engine w)) as [l|] eqn:El; [|done]. m_steps.
  destruct (initiate_loop _ _ _ _ _) as [[[items st] cmds]|] eqn:E; [|done]. unfold put_leader. m_steps.
  pose proof (initiate_loop_frame _ _ _ _ _ _ _ _ E) as [_ Hc].
  apply initiate_loop_keeps in E as [Hf [i ->]]. rewrite push_all. intros [= <- <-]. split; try done.
  - unfold sent_votes, commands. cbn. rewrite omap_app. replace (omap _ cmds) with (@nil VoteRequest);
      [by rewrite app_nil_r|]. induction Hc as [|c cmds Hc _ IH]; [done|]. by destruct c.
  - cbn. rewrite El. by apply same_set_progress, same_set_entries.
Qed.
End frame.

#[export] Hint Extern 1 (NoVotes _) => by intros ? : typeclass_instances.
