(* ===== verification/Replica.v ===== *)
(** * A node as a part of the protocol

    The engine of one node against the protocol of [RaftSpec.v]: what the
    state of the engine says about the logs, votes and acknowledgements of the
    protocol ([node_inv]), and that each handler makes steps of the protocol
    that keep it. *)

From S2P Require Import Prelude Vote LogId LogIdList Quorum Membership VecProgress IOState.
From S2P Require Import MembershipState Entry RaftState Config ProgressEntry Proposer Command.
From S2P Require Import Engine Replication Following LeaderHandler VoteHandler EngineImpl.
From S2P Require Import VoteSafety Cluster Election RaftSpec ReplicaFrame.

Section replica.
Context {C : RaftTypeConfig} `{!Env}.
(** [m] is the membership the nodes act under and [n0] the node that
    initialized the cluster. *)
Context (m : Membership) (n0 : N).
Implicit Types (e : Engine) (w : World) (l : Leader) (s : Spec) (n : N) (v : Vote) (b : CommittedLeaderId).

Definition quorum_of (Q : list N) : Prop := NoDup Q ∧ is_quorum m Q = true.

#[local] Abbreviation bi := (initial_ballot n0).
#[local] Abbreviation chosen := (chosen quorum_of).
#[local] Abbreviation spec_step := (spec_step quorum_of).
#[local] Abbreviation spec_inv := (spec_inv quorum_of bi).
#[local] Abbreviation cmt_inv := (cmt_inv quorum_of).

(** The leadership of a leader. *)
Definition led_by (cv : CommittedVote) : CommittedLeaderId := ballot n0 (CommittedVote_leader_id cv).

(** Node [n] has accepted the logs of [b] up to [o]. *)
Definition acked s n b (o : option LogId) : Prop :=
  ∀ x, o = Some x → ∃ p p', p `prefix_of` p' ∧ mkAck n b p' ∈ acks s ∧ last p = Some x.

(** The logs up to [o] are committed, by [b] or an earlier leadership. *)
Definition commit_ok s b (o : option LogId) : Prop :=
  ∀ x, o = Some x → ∃ b0 p0 q, chosen s b0 p0 ∧ b0 ≼ b ∧ q `prefix_of` p0 ∧ last q = Some x.

(** A quorum has the logs of [b] up to [o]. *)
Definition reached s b (o : option LogId) : Prop :=
  ∀ x, o = Some x → ∃ h p Q, hist s b = Some h ∧ p `prefix_of` h ∧ last p = Some x ∧ quorum_of Q ∧
    ∀ n, n ∈ Q → ∃ p', p `prefix_of` p' ∧ mkAck n b p' ∈ acks s.

(** [n] has voted for the candidate [v], whose last log is [ll]. *)
Definition voted s n v (ll : option LogId) : Prop := ∃ own, mkGrant n (Vote_leader_id v) ll own ∈ grants s.

(** A candidate: its tally counts votes for its log. *)
Record cand_inv s n v (c : Candidate) : Prop := {
  ci_vote : Candidate_vote c = v;
  ci_uncommitted : Vote_is_committed v = false;
  ci_node : Vote_leader_node_id v = n;
  ci_term : Vote_term v ≠ 0%N;
  ci_last : Candidate_last_log_id c = last (log s n);
  ci_members : Candidate_quorum_set c = m ∧ Candidate_learner_ids c = Membership_learner_ids m;
  ci_self : voted s n v (last (log s n));
  ci_tally : ∃ S, tally_ok m S (Candidate_progress c) ∧ ∀ x, x ∈ S → voted s x v (last (log s n));
}.

(** A leader: its log is the log of its leadership, and it tracks what the
    nodes have accepted. *)
Record lead_inv s n v l : Prop := {
  li_vote : CommittedVote_into_vote (Leader_committed_vote l) = v;
  li_node : Vote_leader_node_id v = n;
  li_term : Vote_term v ≠ 0%N;
  li_hist : hist s (led_by (Leader_committed_vote l)) = Some (log s n);
  li_owner : owner s (led_by (Leader_committed_vote l)) = n;
  li_self : mkAck n (led_by (Leader_committed_vote l)) (log s n) ∈ acks s;
  li_last : Leader_last_log_id l = last (log s n);
  li_wf : VecProgress_wf (Leader_progress l);
  li_members : VecProgress_quorum_set (Leader_progress l) = m;
  li_acked : ∀ x, x ∈ VecProgress_entries (Leader_progress l) →
    acked s (ProgressEntry_id x) (led_by (Leader_committed_vote l)) (ProgressEntry_matching x);
  li_reached : reached s (led_by (Leader_committed_vote l)) (VecProgress_quorum_accepted (Leader_progress l));
}.

(** [x] is the last of some first logs of [c]. *)
Definition marks (c : list LogId) (x : LogId) : Prop :=
  ∃ q, q `prefix_of` c ∧ last q = Some x ∧ (LogId_index x + 1)%N = N.of_nat (length q).

(** The state has the log [l], of which it has purged the first logs, and of
    which [c] is committed. *)
Record has_logs (l c : list LogId) (st : RaftState) : Prop := {
  hl_wf : LogIdList_wf (RaftState_log_ids st);
  hl_log : ∃ g, l = g ++ LogIdList_ids (RaftState_log_ids st) ∧ g `prefix_of` c ∧ last g = last_purged_log_id st ∧
    LogIdList_first_index (RaftState_log_ids st) = N.of_nat (length g);
  hl_committed : c `prefix_of` l;
  hl_purge : ∀ x, purge_upto st = Some x → marks c x;
  hl_snapshot : ∀ x, snapshot_last_log_id st = Some x → marks c x;
}.

Definition acc_inv s n v : Prop :=
  if Vote_is_committed v then acc s n = vote_ballot n0 v
  else (Vote_term v = 0%N ∧ acc s n = bi) ∨ (Vote_term v ≠ 0%N ∧ acc s n ≺ vote_ballot n0 v).

Record node_inv s n e : Prop := {
  ni_id : Engine_id e = n;
  ni_logs : has_logs (log s n) (cmt s n) (Engine_state e);
  ni_bal : bal s n = vote_ballot n0 (local_vote e);
  ni_acc : acc_inv s n (local_vote e);
  ni_grants : ∀ lid ll own, mkGrant n lid ll own ∈ grants s →
    LeaderId_term lid ≠ 0%N ∧ pleb (mkVote lid false) (local_vote e) = true;
  ni_accepted : ∀ a, accepted_log_io (Engine_state e) = Some (IOId_Log a) →
    acked s n (led_by (LogIOId_committed_vote a)) (LogIOId_log_id a);
  ni_cluster : ∀ a, IOState_cluster_committed (RaftState_io_state (Engine_state e)) = Some a →
    led_by (LogIOId_committed_vote a) ≼ bal s n ∧
    commit_ok s (led_by (LogIOId_committed_vote a)) (LogIOId_log_id a);
  ni_cmt : last (cmt s n) = local_committed (Engine_state e);
  ni_candidate : ∀ c, Engine_candidate e = Some c → cand_inv s n (local_vote e) c;
  ni_leader : ∀ l, Engine_leader e = Some l → lead_inv s n (local_vote e) l;
}.

(** ** The steps of other nodes *)

Context `{!RaftLeaderIdLaws C} (Hm : Membership_configs m ≠ []).

Lemma quorums_meet Q Q' : quorum_of Q → quorum_of Q' → ∃ n, n ∈ Q ∧ n ∈ Q'.
Proof.
  intros [Hn Hq] [Hn' Hq']. destruct (compatible_quorums_intersect m m Q Q') as (n & ? & ? & _); eauto.
Qed.

(** What may change when a node makes a step. *)
Record grows s s' : Prop := {
  gr_hist : hist_le s s';
  gr_acks : ∀ a, a ∈ acks s → a ∈ acks s';
  gr_grants : ∀ g, g ∈ grants s → g ∈ grants s';
}.

Lemma lead_fresh s lid Q :
  let b := LeaderId_to_committed lid in let c := LeaderId_node_id lid in
  spec_inv s → acc s c ≺ b → quorum_of Q →
  (∀ n, n ∈ Q → ∃ own, mkGrant n lid (last (log s c)) own ∈ grants s) → hist s b = None.
Proof.
  intros b c Hi Ha HQ Hg. destruct (hist s b) eqn:Hh; [|done]. exfalso.
  eapply (election_unique quorum_of quorums_meet bi s lid Q c); try done. intros n (own & ?)%Hg. eauto.
Qed.

Lemma step_grows s n s' : spec_inv s → spec_step s n s' → grows s s'.
Proof.
  intros Hi Hs. destruct Hs as [n b Hb|n lid ll b Hb Ha Hl|lid Q b c Hb Ha HQ Hg|b c h h' Hh Hb|n b h p Hb Hh Hp|
    n b h l Hb Hh Hl Hr|]; split; cbn; try done; try by apply hist_le_same.
  - intros g Hg. by apply list_elem_of_further.
  - eapply lead_hist_le; [by eapply lead_fresh|done].
  - intros a ?. by apply list_elem_of_further.
  - by eapply append_hist_le.
  - intros a ?. by apply list_elem_of_further.
  - intros a ?. by apply list_elem_of_further.
Qed.

Lemma upd_ne {A B} `{!EqDecision A} (f : A → B) a y a' : a' ≠ a → upd f a y a' = f a'.
Proof. intros. unfold upd. by rewrite decide_False. Qed.
Lemma upd_eq {A B} `{!EqDecision A} (f : A → B) a y : upd f a y a = y.
Proof. unfold upd. by rewrite decide_True. Qed.

(** A node sees nothing of the steps of others. *)
Record apart n s s' : Prop := {
  ap_bal : bal s' n = bal s n;
  ap_acc : acc s' n = acc s n;
  ap_log : log s' n = log s n;
  ap_cmt : cmt s' n = cmt s n;
  ap_hist : ∀ b h, hist s b = Some h → owner s b = n → hist s' b = Some h ∧ owner s' b = n;
  ap_grants : ∀ lid ll own, mkGrant n lid ll own ∈ grants s' → mkGrant n lid ll own ∈ grants s;
}.

Lemma step_apart s n s' n' : spec_inv s → spec_step s n s' → n' ≠ n → apart n' s s'.
Proof.
  intros Hi Hs Hne. destruct Hs as [n b Hb|n lid ll b Hb Ha Hl|lid Q b c Hb Ha HQ Hg|b c h h' Hh Hb|n b h p Hb Hh Hp|
    n b h l Hb Hh Hl Hr|]; split; cbn; rewrite ?upd_ne by done; try done.
  - intros lid' ll' own [[= ? _ _ _]|Hin]%elem_of_cons; done.
  - intros b' h' Hh' Ho. assert (b' ≠ b).
    { intros ->. pose proof (lead_fresh s lid Q Hi Ha HQ Hg) as Hn. fold b in Hn. congruence. }
    by rewrite !upd_ne.
  - intros b' h0 Hh' Ho. assert (b' ≠ b) by (by intros ->). by rewrite upd_ne.
Qed.

Lemma acked_mono s s' n b o : grows s s' → acked s n b o → acked s' n b o.
Proof. intros [_ Ha _] Hk x (p & p' & ? & ? & ?)%Hk. exists p, p'. auto. Qed.

Lemma acked_last s n b p : mkAck n b p ∈ acks s → acked s n b (last p).
Proof. intros Ha x Hx. by exists p, p. Qed.

Lemma commit_ok_mono s s' b o : grows s s' → commit_ok s b o → commit_ok s' b o.
Proof.
  intros [Hh Ha _] Hk x (b0 & p0 & q & Hc & ?)%Hk. exists b0, p0, q. split; [|done]. by eapply chosen_mono.
Qed.

Lemma reached_mono s s' b o : grows s s' → reached s b o → reached s' b o.
Proof.
  intros [Hle Ha _] Hk x (h & p & Q & Hh & Hp & Hl & HQ & Hn)%Hk.
  destruct (Hle _ _ Hh) as (t & Ht & _). exists (h ++ t), p, Q. split_and!; try done; [by apply prefix_app_r|].
  intros n (p' & ? & ?)%Hn. eauto.
Qed.

Lemma voted_mono s s' n v ll : grows s s' → voted s n v ll → voted s' n v ll.
Proof. intros [_ _ Hg] (own & ?). exists own. auto. Qed.

Lemma cand_mono s s' n v c : grows s s' → log s' n = log s n → cand_inv s n v c → cand_inv s' n v c.
Proof.
  intros Hg Hl [? ? ? ? ? ? ? (S & ? & HS)]. split; rewrite ?Hl; try done; [by eapply voted_mono|].
  exists S. split; [done|]. intros x Hx. by eapply voted_mono, HS.
Qed.

Lemma lead_mono_inv s s' n v l :
  grows s s' → log s' n = log s n → hist s' (led_by (Leader_committed_vote l)) = Some (log s n) →
  owner s' (led_by (Leader_committed_vote l)) = n → lead_inv s n v l → lead_inv s' n v l.
Proof.
  intros Hg Hl Hh Ho [? ? ? ? ? ? ? ? ? Ha ?]. split; rewrite ?Hl; try done.
  - by apply (gr_acks _ _ Hg).
  - intros x Hx. by eapply acked_mono, Ha.
  - by eapply reached_mono.
Qed.

Lemma node_inv_other s n s' n' e :
  spec_inv s → spec_step s n s' → n' ≠ n → node_inv s n' e → node_inv s' n' e.
Proof.
  intros Hi Hs Hne Hn. pose proof (step_grows _ _ _ Hi Hs) as Hg.
  destruct (step_apart _ _ _ _ Hi Hs Hne) as [Ab Aa Al Ac Ah Ag]. destruct Hn. unfold acc_inv in *.
  split; unfold acc_inv; rewrite ?Ab, ?Aa, ?Al, ?Ac; try done.
  - intros lid ll own Hin%Ag. eauto.
  - intros a Ha. eapply acked_mono; eauto.
  - intros a Ha. destruct (ni_cluster0 a Ha). split; [done|]. by eapply commit_ok_mono.
  - intros c Hc. eapply cand_mono; eauto.
  - intros l Hl. specialize (ni_leader0 l Hl). destruct (Ah _ _ (li_hist _ _ _ _ ni_leader0) (li_owner _ _ _ _ ni_leader0)).
    by eapply lead_mono_inv.
Qed.

(** ** The log of a node *)

Section logs.
Context (h c : list LogId) (st : RaftState).
#[local] Abbreviation ids := (RaftState_log_ids st).

Lemma logs_last : has_logs h c st → last_log_id st = last h.
Proof.
  intros [Hwf (g & -> & _ & Hg & _) _ _ _]. unfold last_log_id. rewrite LogIdList_last_spec by done.
  rewrite last_app. destruct (last (LogIdList_ids ids)); [done|]. by rewrite Hg.
Qed.

Lemma logs_next : has_logs h c st → next_index (last_log_id st) = N.of_nat (length h).
Proof.
  intros [Hwf (g & -> & _ & _ & Hf) _ _ _]. pose proof (LogIdList_ids_length _ Hwf) as Hl.
  pose proof (LogIdList_first_le_last _ Hwf). rewrite length_app. unfold last_log_id. lia.
Qed.

(** The logs after the purged ones, with the last purged one, are there. *)
Lemma logs_get (i : N) : has_logs h c st →
  (LogIdList_first_index ids ≤ i + 1)%N → get_log_id st i = h !! N.to_nat i.
Proof.
  intros [Hwf (g & -> & _ & Hg & Hf) _ _ _] Hi. unfold get_log_id, ref_log_id. rewrite LogIdList_get_spec by done.
  destruct (ltb_spec i (LogIdList_first_index ids)) as [Hlt|Hge]; rewrite ?N_ord_lt, ?N_ord_le in *.
  - unfold last_purged_log_id in Hg. rewrite <- Hg. pose proof (first_index_purged _ Hwf) as Hp. rewrite <- Hg in Hp.
    rewrite lookup_app_l by lia. replace (N.to_nat i) with (pred (length g)) by lia. rewrite <- last_lookup.
    destruct (last g) as [p|]; [|lia]. cbn. rewrite decide_True by lia. done.
  - rewrite lookup_app_r by lia. f_equal. lia.
Qed.

Lemma logs_get_Some (i : N) x : has_logs h c st → get_log_id st i = Some x → h !! N.to_nat i = Some x.
Proof.
  intros Hl Hx. rewrite <- logs_get; [done|done|]. by destruct (LogIdList_get_bounds _ _ _ (hl_wf _ _ _ Hl) Hx).
Qed.

Lemma logs_first : has_logs h c st → (LogIdList_first_index ids ≤ N.of_nat (length c))%N.
Proof. intros [_ (g & _ & Hg & _ & ->) _ _ _]. apply prefix_length in Hg. lia. Qed.

(** A committed log. *)
Lemma logs_marks x : has_logs h c st → marks c x → (LogIdList_first_index ids ≤ LogId_index x + 1)%N →
  get_log_id st (LogId_index x) = Some x.
Proof.
  intros Hl (q & Hq & Hx & Hi) Hf. rewrite logs_get by done. apply (prefix_lookup_Some q); [|trans c; [done|apply Hl]].
  rewrite last_lookup in Hx. rewrite <- Hx. f_equal. lia.
Qed.
End logs.

Lemma logs_purge h c st st' x :
  has_logs h c st → marks c x → RaftState_log_ids st' = LogIdList_purge (RaftState_log_ids st) x →
  purge_upto st' = purge_upto st → snapshot_last_log_id st' = snapshot_last_log_id st → has_logs h c st'.
Proof.
  intros Hl Hx Hids Hp Hs. pose proof (logs_next _ _ _ Hl) as Hn. pose proof Hl as [Hwf (g & Hg & Hgc & Hgl & Hf) Hc Hpu Hsn].
  destruct Hx as (q & Hq & Hlast & Hi). pose proof (prefix_length _ _ Hq). pose proof (prefix_length _ _ Hc).
  pose proof (next_index_in (last_log_id st)) as Hin. unfold in_u64 in Hin.
  destruct (LogIdList_purge_spec (RaftState_log_ids st) x) as (Hwf' & Hids' & Hf'); [done|lia| |].
  { intros [Hlo _]. apply (logs_marks h c st); [done|by exists q|lia]. }
  rewrite <- Hids in Hwf', Hids', Hf'. split; rewrite ?Hp, ?Hs; try done.
  rewrite Hids', Hf'. destruct (decide (LogId_index x + 1 ≤ LogIdList_first_index (RaftState_log_ids st))%N) as [Hle|Hgt].
  - exists g. replace (N.to_nat _) with 0 by lia. rewrite drop_0. split_and!; try done; [|lia].
    unfold last_purged_log_id. rewrite Hids, LogIdList_purge_purged by done.
    destruct (ltb_spec (LogId_index x) (LogIdList_first_index (RaftState_log_ids st))) as [_|Hc1]; [done|].
    rewrite N_ord_le in Hc1. lia.
  - exists q. assert (g `prefix_of` q) as [t ->].
    { destruct (prefix_weak_total g q c) as [|Hqg]; [done..|]. apply prefix_length in Hqg. lia. }
    assert (∃ k, LogIdList_ids (RaftState_log_ids st) = t ++ k) as [k Hk].
    { assert (g ++ t `prefix_of` h) as [k Hk] by (by trans c). exists k. rewrite Hg, <- app_assoc in Hk.
      by apply app_inv_head in Hk. }
    rewrite length_app in *. split_and!; [|done| |lia].
    + rewrite Hg, Hk, <- app_assoc. do 2 f_equal. replace (N.to_nat _) with (length t) by lia. by rewrite drop_app_length.
    + rewrite Hlast. unfold last_purged_log_id. rewrite Hids, LogIdList_purge_purged by done.
      destruct (ltb_spec (LogId_index x) (LogIdList_first_index (RaftState_log_ids st))) as [Hc1|_]; [|done].
      rewrite N_ord_lt in Hc1. lia.
Qed.

Lemma logs_extend h c st st' ids :
  has_logs h c st → follows (last_log_id st) ids →
  RaftState_log_ids st' = LogIdList_extend (RaftState_log_ids st) ids → purge_upto st' = purge_upto st →
  snapshot_last_log_id st' = snapshot_last_log_id st → has_logs (h ++ ids) c st'.
Proof.
  intros [Hwf (g & -> & ? & Hg & Hf) Hc Hpu Hsn] Hfo Hids Hp Hs.
  destruct (LogIdList_extend_spec (RaftState_log_ids st) ids Hwf Hfo) as [Hwf' Hids']. rewrite <- Hids in Hwf', Hids'.
  split; rewrite ?Hp, ?Hs; try done; [|by apply prefix_app_r].
  exists g. unfold last_purged_log_id, LogIdList_first_index in *. rewrite Hids', Hids, LogIdList_extend_purged.
  by rewrite app_assoc.
Qed.

(** Logs that are not committed are replaced by others. *)
Lemma logs_replace h c st st' (k : N) xs :
  has_logs h c st → length c ≤ N.to_nat k → LogIdList_wf (RaftState_log_ids st') →
  LogIdList_purged (RaftState_log_ids st') = LogIdList_purged (RaftState_log_ids st) →
  LogIdList_ids (RaftState_log_ids st') =
    take (N.to_nat (k - LogIdList_first_index (RaftState_log_ids st))) (LogIdList_ids (RaftState_log_ids st)) ++ xs →
  purge_upto st' = purge_upto st → snapshot_last_log_id st' = snapshot_last_log_id st →
  has_logs (take (N.to_nat k) h ++ xs) c st'.
Proof.
  intros [Hwf (g & -> & Hgc & Hg & Hf) Hc Hpu Hsn] Hk Hwf' Hpe Hids Hp Hs. pose proof (prefix_length _ _ Hgc).
  split; rewrite ?Hp, ?Hs; try done.
  - exists g. unfold last_purged_log_id, LogIdList_first_index in *. rewrite Hids, Hpe, Hf. split_and!; try done.
    rewrite take_app_ge by lia. rewrite <- app_assoc. do 3 f_equal. lia.
  - apply prefix_app_r. destruct Hc as [t ->]. rewrite take_app_ge by done. by apply prefix_app_r.
Qed.

Lemma has_logs_eq h c st st' :
  has_logs h c st → RaftState_log_ids st' = RaftState_log_ids st → purge_upto st' = purge_upto st →
  snapshot_last_log_id st' = snapshot_last_log_id st → has_logs h c st'.
Proof.
  intros [] Hl Hp Hs. split; unfold last_purged_log_id in *; rewrite ?Hl, ?Hp, ?Hs; done.
Qed.

(** More logs are committed. *)
Lemma logs_commit h c c' st st' :
  has_logs h c st → c `prefix_of` c' → c' `prefix_of` h → RaftState_log_ids st' = RaftState_log_ids st →
  purge_upto st' = purge_upto st → snapshot_last_log_id st' = snapshot_last_log_id st → has_logs h c' st'.
Proof.
  intros [Hwf (g & Hg & Hgc & ? & ?) Hc Hpu Hsn] Hcc Hch Hl Hp Hs.
  assert (∀ x, marks c x → marks c' x) as Hm'.
  { intros x (q & ? & ? & ?). exists q. split_and!; [by trans c|done|done]. }
  split; unfold last_purged_log_id in *; rewrite ?Hl, ?Hp, ?Hs; eauto. exists g. split_and!; [done|by trans c|done|done].
Qed.

Lemma logs_same h c st st' : same_logs st st' → has_logs h c st → has_logs h c st'.
Proof.
  intros [Hr Hp Hs] Hl.
  assert (∀ ids, rtc (λ ids ids', ∃ upto, purge_upto st = Some upto ∧ ids' = LogIdList_purge ids upto)
    (RaftState_log_ids st) ids → has_logs h c (set_log_ids st ids)) as Hx.
  { apply rtc_ind_r; [by eapply has_logs_eq|]. intros ids ids' _ (x & Hx & ->) IH.
    eapply (logs_purge h c (set_log_ids st ids)); [done| |done..]. by apply (hl_purge _ _ _ Hl). }
  eapply has_logs_eq; [by apply Hx|done..].
Qed.

(** ** Handlers that leave the node alone *)

Lemma lead_same s n v l l' : same_leader l l' → lead_inv s n v l → lead_inv s n v l'.
Proof.
  intros [Hv Hl [Hw Hq Ha He]] []. split; rewrite ?Hv, ?Hl, ?Hq, ?Ha; try done; [by apply Hw|].
  intros x Hx. destruct (He li_wf0 x Hx) as [-> |(y & Hy & <- & <-)]; [done|by apply li_acked0].
Qed.

Lemma node_inv_same s n e e' : same_node e e' → node_inv s n e → node_inv s n e'.
Proof.
  intros [E1 E2 E3 E4 E5 E6 _ E7 _ E8] []. split; rewrite ?E1, ?E2, ?E4, ?E5, ?E6, ?E7; try done; [by eapply logs_same|].
  intros l Hl. rewrite Hl in E8. destruct (Engine_leader e) as [l0|] eqn:El; [|done]. eapply lead_same; eauto.
Qed.

(** ** Several steps *)

Definition sound s : Prop := spec_inv s ∧ cmt_inv s.
Definition steps s n s' : Prop := rtc (λ s s', spec_step s n s') s s'.

Lemma step_sound s n s' : sound s → spec_step s n s' → sound s'.
Proof.
  intros [Hi Hc] Hs. split; [by eapply (inv_spec_step _ quorums_meet)|by eapply (cmt_step _ quorums_meet)].
Qed.

Lemma steps_sound s n s' : sound s → steps s n s' → sound s'.
Proof. intros Hi Hs. induction Hs as [|s s1 s' Hs _ IH]; [done|]. by eapply IH, step_sound. Qed.

Lemma steps_one s n s' : spec_step s n s' → steps s n s'.
Proof. intros Hs. by apply rtc_once. Qed.

Lemma grows_refl s : grows s s.
Proof. split; [by apply hist_le_same|done|done]. Qed.

Lemma grows_trans s1 s2 s3 : grows s1 s2 → grows s2 s3 → grows s1 s3.
Proof.
  intros [H1 A1 G1] [H2 A2 G2]. split; [|auto|auto]. intros b h Hb.
  destruct (H1 _ _ Hb) as (t & Ht & Hf), (H2 _ _ (proj1 (conj Ht I))) as (t' & Ht' & Hf').
  exists (t ++ t'). rewrite app_assoc. split; [done|by apply Forall_app].
Qed.

Lemma steps_grows s n s' : sound s → steps s n s' → grows s s'.
Proof.
  intros Hi Hs. induction Hs as [|s s1 s' Hs _ IH]; [apply grows_refl|].
  eapply grows_trans; [eapply step_grows; [apply Hi|done]|by eapply IH, step_sound].
Qed.

Lemma steps_cmt s n s' n' : steps s n s' → cmt s n' `prefix_of` cmt s' n'.
Proof. intros Hs. induction Hs as [|s s1 s' Hs _ IH]; [done|]. trans (cmt s1 n'); [by eapply step_cmt|done]. Qed.

Lemma node_inv_others s n s' n' e :
  sound s → steps s n s' → n' ≠ n → node_inv s n' e → node_inv s' n' e.
Proof.
  intros Hi Hs Hne. induction Hs as [|s s1 s' Hs _ IH]; [done|]. intros Hn.
  apply IH; [by eapply step_sound|]. eapply node_inv_other; [apply Hi|done|done|done].
Qed.

(** ** What a node asks for *)

(** A request for votes that the node has made. *)
Record asked e (req : VoteRequest) : Prop := {
  as_vote : Vote_is_committed (VoteRequest_vote req) = false;
  as_node : Vote_leader_node_id (VoteRequest_vote req) = Engine_id e;
  as_term : Vote_term (VoteRequest_vote req) ≠ 0%N;
  as_le : pleb (VoteRequest_vote req) (local_vote e) = true;
  as_last : ∀ c, Engine_candidate e = Some c → Candidate_vote c = VoteRequest_vote req →
    VoteRequest_last_log_id req = Candidate_last_log_id c;
}.

(** [V] holds of the votes that the node is told. *)
Context (V : Vote → Prop).

(** How the vote and the candidate of a node move. *)
Record moves e e' : Prop := {
  mv_id : Engine_id e' = Engine_id e;
  mv_vote : pleb (local_vote e) (local_vote e') = true;
  mv_from : local_vote e' = local_vote e ∨ Vote_leader_node_id (local_vote e') = Engine_id e ∨ V (local_vote e');
  mv_candidate : ∀ c', Engine_candidate e' = Some c' →
    (∃ c, Engine_candidate e = Some c ∧ Candidate_vote c = Candidate_vote c' ∧
      Candidate_last_log_id c = Candidate_last_log_id c') ∨
    pltb (local_vote e) (Candidate_vote c') = true;
  mv_sent : ∀ req, req ∈ sent_votes e' → req ∈ sent_votes e ∨ asked e' req;
}.

Lemma asked_moves e e' req : moves e e' → asked e req → asked e' req.
Proof.
  intros [Hid Hv _ Hc _] [? ? ? Hle Hl]. split; [done|congruence|done|by eapply pleb_trans|].
  intros c' Hc' Heq. destruct (Hc c' Hc') as [(c & Hcc & E1 & E2)|Hlt].
  - rewrite <- E2. apply Hl; [done|congruence].
  - rewrite Heq in Hlt. pose proof (pltb_pleb_trans _ _ _ Hlt Hle) as Hx. by rewrite pltb_irrefl in Hx.
Qed.

(** The vote, the candidate and the requests of the node are left alone. *)
Lemma moves_frame e e' :
  Engine_id e' = Engine_id e → local_vote e' = local_vote e → Engine_candidate e' = Engine_candidate e →
  sent_votes e' = sent_votes e → moves e e'.
Proof.
  intros Hid Hv Hc Hs. split; [done|rewrite Hv; apply pleb_refl|by left| |].
  - intros c'. rewrite Hc. intros Hc'. left. by exists c'.
  - intros req. rewrite Hs. by left.
Qed.

Lemma moves_same e e' : same_node e e' → moves e e'.
Proof. intros []. by apply moves_frame. Qed.

Lemma moves_compose e1 e2 e3 : moves e1 e2 → moves e2 e3 → moves e1 e3.
Proof.
  intros M1 M2. pose proof M1 as [I1 V1 F1 C1 S1]. pose proof M2 as [I2 V2 F2 C2 S2].
  split; [congruence|by eapply pleb_trans| | |].
  - destruct F2 as [->|[F2|]]; [done|right; left; congruence|auto].
  - intros c3 [(c2 & Hc2 & E1 & E2)|Hlt]%C2.
    + destruct (C1 _ Hc2) as [(c1 & ? & ? & ?)|]; [left; exists c1|right]; [|by rewrite <- E1].
      split_and!; [done|congruence|congruence].
    + right. by eapply pleb_pltb_trans.
  - intros req [Hr|]%S2; [|by right]. destruct (S1 _ Hr) as [|]; [by left|right]. by eapply asked_moves.
Qed.

(** Node [n] goes from [e] to [e'], and the protocol with it. *)
Definition refines s n e e' : Prop := ∃ s', steps s n s' ∧ node_inv s' n e' ∧ moves e e'.

Lemma refines_same s n e e' : node_inv s n e → same_node e e' → refines s n e e'.
Proof.
  intros Hn Hs. exists s. split_and!; [apply rtc_refl|by eapply node_inv_same|by apply moves_same].
Qed.

Lemma refines_step s n s' e e' : spec_step s n s' → node_inv s' n e' → moves e e' → refines s n e e'.
Proof. intros Hs Hn Hm'. exists s'. split_and!; [by apply steps_one|done|done]. Qed.

Lemma refines_trans s n e1 e2 e3 :
  refines s n e1 e2 → (∀ s', steps s n s' → node_inv s' n e2 → refines s' n e2 e3) → refines s n e1 e3.
Proof.
  intros (s1 & Hs1 & Hn1 & Hm1) H2. destruct (H2 s1 Hs1 Hn1) as (s2 & Hs2 & Hn2 & Hm2).
  exists s2. split_and!; [unfold steps in *; by trans s1|done|by eapply moves_compose].
Qed.

(** A handler that leaves the node alone. *)
Lemma same_ran {A} (x : M A) `{!SameNode x} s n w a w' :
  x w = Ret (a, w') → node_inv s n (w_engine w) →
  same_node (w_engine w) (w_engine w') ∧ node_inv s n (w_engine w') ∧ moves (w_engine w) (w_engine w').
Proof.
  intros Hr Hn. pose proof (same_run _ _ _ Hr) as Hs.
  split_and!; [done|by eapply node_inv_same|by apply moves_same].
Qed.

(** ** Votes *)

(** What else an accepted vote leaves alone. *)
Lemma update_vote_rest v w r w' :
  own_vote (w_engine w) v && Vote_is_committed v = false → update_vote v w = Ret (r, w') →
  purge_upto (Engine_state (w_engine w')) = purge_upto (Engine_state (w_engine w)) ∧
  snapshot_last_log_id (Engine_state (w_engine w')) = snapshot_last_log_id (Engine_state (w_engine w)) ∧
  IOState_cluster_committed (RaftState_io_state (Engine_state (w_engine w'))) =
    IOState_cluster_committed (RaftState_io_state (Engine_state (w_engine w))).
Proof.
  intros Hown. rewrite update_vote_eq. destruct (pgeb _ _) eqn:Hge; [|by intros [= _ <-]].
  set (e1 := stored_vote _ _ _). assert (purge_upto (Engine_state e1) = purge_upto (Engine_state (w_engine w)) ∧
    snapshot_last_log_id (Engine_state e1) = snapshot_last_log_id (Engine_state (w_engine w)) ∧
    IOState_cluster_committed (RaftState_io_state (Engine_state e1)) =
    IOState_cluster_committed (RaftState_io_state (Engine_state (w_engine w)))) as (H1 & H2 & H3).
  { unfold e1, stored_vote, accept_log_io. destruct (pgtb v _); [|done]. cbn. by destruct (pgtb _ _). }
  destruct (stored_vote_spec v (clock (w_clock_reads w)) (w_engine w) Hge) as (Hv & _ & _ & _ & Hms & Hcfg & _).
  fold e1 in Hv, Hms, Hcfg. unfold update_internal_server_state. rewrite M_bind_eq, get_eq. cbn [w_engine].
  assert (is_leading (Engine_state e1) (Engine_id e1) = own_vote (w_engine w) v) as Hlead
    by (unfold is_leading, own_vote, Engine_id; by rewrite Hms, Hv, Hcfg).
  unfold RaftState_is_leader. rewrite Hlead, Hv, Hown. destruct (own_vote _ _).
  - rewrite M_ret_eq. by intros [= _ <-].
  - rewrite modify_eq. intros [= _ <-]. cbn [w_engine].
    destruct (become_following_eq e1) as (_ & _ & _ & _ & _ & ->). done.
Qed.

Lemma omap_sent_save v (b : bool) :
  omap (λ c, match c with Command_SendVote req => Some req | _ => None end)
    (if b then [Command_SaveVote v] else []) = [].
Proof. by destruct b. Qed.

Lemma vote_accepted_sent v e e' : vote_accepted v e e' → sent_votes e' = sent_votes e.
Proof.
  intros (_ & _ & _ & _ & _ & _ & Hc). unfold sent_votes. destruct (own_vote e v); destruct Hc as [-> _].
  - by rewrite omap_app, omap_sent_save, app_nil_r.
  - cbn. rewrite !omap_app, omap_sent_save. cbn. destruct (had_leading_state e); cbn; by rewrite app_nil_r.
Qed.

(** The node after a vote, when the protocol has made its part of the step. *)
Lemma voted_node s s' n v e e' :
  node_inv s n e → local_vote e' = v → pleb (local_vote e) v = true →
  same_logs (Engine_state e) (Engine_state e') →
  local_committed (Engine_state e') = local_committed (Engine_state e) → Engine_id e' = Engine_id e →
  IOState_cluster_committed (RaftState_io_state (Engine_state e')) =
    IOState_cluster_committed (RaftState_io_state (Engine_state e)) →
  (∀ a, accepted_log_io (Engine_state e') = Some a →
    accepted_log_io (Engine_state e) = Some a ∨ a = IOId_new v) →
  grows s s' → log s' n = log s n → cmt s' n = cmt s n → bal s' n = vote_ballot n0 v → acc_inv s' n v →
  (∀ lid ll own, mkGrant n lid ll own ∈ grants s' → LeaderId_term lid ≠ 0%N ∧ pleb (mkVote lid false) v = true) →
  (∀ c, Engine_candidate e' = Some c → cand_inv s' n v c) → (∀ l, Engine_leader e' = Some l → lead_inv s' n v l) →
  node_inv s' n e'.
Proof.
  intros [] Hlv Hge Hlog Hap Hid Hcl Hacc Hg Hl Hc Hb Ha Hgr Hcand Hlead.
  split; rewrite ?Hlv, ?Hl, ?Hc, ?Hcl, ?Hid, ?Hap; try done.
  - by eapply logs_same.
  - intros a [Hold|Hnew]%Hacc; [eapply acked_mono; eauto|].
    unfold IOId_new in Hnew. destruct (Vote_is_committed v); [|done]. injection Hnew as ->. by intros x [=].
  - intros a [Hle Hco]%ni_cluster0. split; [|by eapply commit_ok_mono].
    pose proof (vote_ballot_le n0 _ _ Hge) as Hle'. rewrite <- ni_bal0 in Hle'. rewrite Hb. ord.
Qed.

Lemma voted_inv s s' n v e e' :
  node_inv s n e → vote_accepted v e e' → pgeb v (local_vote e) = true →
  purge_upto (Engine_state e') = purge_upto (Engine_state e) →
  snapshot_last_log_id (Engine_state e') = snapshot_last_log_id (Engine_state e) →
  IOState_cluster_committed (RaftState_io_state (Engine_state e')) =
    IOState_cluster_committed (RaftState_io_state (Engine_state e)) →
  (own_vote e v = true → v = local_vote e ∧ Vote_is_committed v = false) → V v →
  grows s s' → log s' n = log s n → cmt s' n = cmt s n → bal s' n = vote_ballot n0 v → acc_inv s' n v →
  (∀ lid ll own, mkGrant n lid ll own ∈ grants s' → LeaderId_term lid ≠ 0%N ∧ pleb (mkVote lid false) v = true) →
  node_inv s' n e' ∧ moves e e'.
Proof.
  intros Hn Hva Hge Hp Hsn Hcl Hown HV Hg Hl Hc Hb Ha Hgr. pose proof (vote_accepted_sent _ _ _ Hva) as Hsent.
  destruct Hva as (Hv & Hlog & Hap & _ & Hcfg & Hacc & Hcase). rewrite pgeb_flip in Hge.
  assert (local_vote e' = v) as Hlv by done.
  assert (∀ c, Engine_candidate e' = Some c → Engine_candidate e = Some c ∧ v = local_vote e) as Hcand.
  { intros c Hcc. destruct (own_vote e v); destruct Hcase as (_ & _ & Hca & _); [|congruence].
    rewrite Hca in Hcc. split; [done|by apply Hown]. }
  split.
  - apply (voted_node s _ n v e); try done; [by apply same_logs_eq|unfold local_committed; by rewrite Hap|unfold Engine_id; by rewrite Hcfg|..].
    + intros c [Hcc ->]%Hcand. eapply cand_mono; [done|done|]. by apply (ni_candidate _ _ _ Hn).
    + intros l Hll. exfalso. destruct (own_vote e v) eqn:Ho; destruct Hcase as (_ & Hle & _); [|congruence].
      rewrite Hle in Hll. destruct (Hown eq_refl) as [-> Hunc].
      pose proof (li_vote _ _ _ _ (ni_leader _ _ _ Hn _ Hll)) as Hv'. by rewrite <- Hv' in Hunc.
  - split; [unfold Engine_id; by rewrite Hcfg|by rewrite Hlv|by rewrite Hlv; auto| |].
    + intros c [Hcc ->]%Hcand. left. by exists c.
    + intros req. rewrite Hsent. by left.
Qed.

(** The vote of another node that is accepted above the local one. *)
Lemma acc_uncommitted s n e v :
  node_inv s n e → pgeb v (local_vote e) = true → Vote_is_committed v = false → Vote_term v ≠ 0%N →
  acc s n ≺ vote_ballot n0 v.
Proof.
  intros Hn Hge Hunc Ht. rewrite pgeb_flip in Hge. pose proof (vote_ballot_le n0 _ _ Hge) as Hle.
  pose proof (ni_acc _ _ _ Hn) as Ha. unfold acc_inv in Ha. destruct (Vote_is_committed (local_vote e)) eqn:Hc.
  - rewrite Ha. by apply above_committed.
  - destruct Ha as [[_ ->]|[_ Ha]]; [by apply initial_ballot_lt|]. ord.
Qed.

Lemma zero_term_le v v' : pleb v v' = true → Vote_term v' = 0%N → Vote_term v = 0%N.
Proof. intros Hle%Vote_lt_term_le ?. lia. Qed.

(** [v] does not belong to this node, or the node has moved on to it. *)
Definition not_ahead e v : Prop := Vote_leader_node_id v = Engine_id e → pleb v (local_vote e) = true.

Lemma not_ahead_own e v :
  not_ahead e v → pgeb v (local_vote e) = true → own_vote e v = true → v = local_vote e.
Proof.
  intros Hna Hge Hown. apply andb_prop in Hown as [_ Hid%bool_decide_eq_true]. specialize (Hna Hid).
  rewrite pgeb_flip in Hge. by apply pleb_antisym.
Qed.

Lemma grants_above s n e v :
  node_inv s n e → pgeb v (local_vote e) = true → ∀ lid ll own, mkGrant n lid ll own ∈ grants s →
  LeaderId_term lid ≠ 0%N ∧ pleb (mkVote lid false) v = true.
Proof.
  intros Hn Hge lid ll own [Ht Hle]%(ni_grants _ _ _ Hn). rewrite pgeb_flip in Hge. split; [done|by eapply pleb_trans].
Qed.

(** A vote of a candidate, which the node does not vote for. *)
Lemma update_vote_raises s n v w r w' :
  node_inv s n (w_engine w) → Vote_is_committed v = false → not_ahead (w_engine w) v → V v →
  update_vote v w = Ret (r, w') → refines s n (w_engine w) (w_engine w').
Proof.
  intros Hn Hunc Hna HV Hrun. set (e := w_engine w) in *.
  assert (own_vote e v && Vote_is_committed v = false) as Hof by (rewrite Hunc; apply andb_false_r).
  pose proof (update_vote_rest _ _ _ _ Hof Hrun) as (Hp & Hsn & Hcl).
  destruct (pgeb v (local_vote e)) eqn:Hge.
  2:{ rewrite update_vote_eq in Hrun. fold e in Hrun. fold (local_vote e) in Hrun. rewrite Hge in Hrun.
    injection Hrun as _ <-. apply refines_same; [done|apply same_node_refl]. }
  destruct (update_vote_accepted v w Hge Hof) as (w1 & Hrun1 & Hva). rewrite Hrun in Hrun1. injection Hrun1 as _ <-.
  assert (bal s n ≼ vote_ballot n0 v) as Hb.
  { rewrite (ni_bal _ _ _ Hn). rewrite pgeb_flip in Hge. by apply vote_ballot_le. }
  pose proof (spec_raise quorum_of s n (vote_ballot n0 v) Hb) as Hstep. set (s' := mkSpec _ _ _ _ _ _ _ _ _) in Hstep.
  assert (node_inv s' n (w_engine w') ∧ moves e (w_engine w')) as [Hn' Hmv]; [|by eapply refines_step].
  apply (voted_inv s _ n v e); try done.
  - intros Hown. split; [by apply not_ahead_own|done].
  - split; [by apply hist_le_same|done|done].
  - cbn. by rewrite upd_eq.
  - unfold acc_inv. rewrite Hunc. cbn.
    destruct (decide (Vote_term v = 0%N)) as [Ht|Ht]; [left|right; split; [done|by eapply acc_uncommitted]].
    split; [done|]. rewrite pgeb_flip in Hge. pose proof (zero_term_le _ _ Hge Ht) as Ht0.
    pose proof (ni_acc _ _ _ Hn) as Ha. unfold acc_inv in Ha. destruct (Vote_is_committed (local_vote e)).
    + rewrite Ha. unfold vote_ballot, ballot. by rewrite decide_True.
    + by destruct Ha as [[_ ?]|[? _]].
  - exact (grants_above s n e v Hn Hge).
Qed.

(** The vote of a leader that the node follows. *)
Lemma update_vote_follows s n v w r w' h :
  node_inv s n (w_engine w) → Vote_is_committed v = true → Vote_leader_node_id v ≠ n → V v →
  hist s (vote_ballot n0 v) = Some h → update_vote v w = Ret (r, w') →
  match r with
  | Ok _ => refines s n (w_engine w) (w_engine w') ∧ local_vote (w_engine w') = v ∧
      Engine_candidate (w_engine w') = None ∧ Engine_leader (w_engine w') = None
  | Err _ => w' = w ∧ pgeb v (local_vote (w_engine w)) = false
  end.
Proof.
  intros Hn Hcom Hne HV Hh Hrun. set (e := w_engine w) in *.
  assert (own_vote e v = false) as Hof.
  { unfold own_vote. rewrite bool_decide_eq_false_2 by (by rewrite (ni_id _ _ _ Hn)). apply andb_false_r. }
  assert (own_vote e v && Vote_is_committed v = false) as Hof' by (by rewrite Hof).
  pose proof (update_vote_rest _ _ _ _ Hof' Hrun) as (Hp & Hsn & Hcl).
  destruct (pgeb v (local_vote e)) eqn:Hge.
  2:{ rewrite update_vote_eq in Hrun. fold e in Hrun. fold (local_vote e) in Hrun. rewrite Hge in Hrun.
    by injection Hrun as <- <-. }
  destruct (update_vote_accepted v w Hge Hof') as (w1 & Hrun1 & Hva). rewrite Hrun in Hrun1. injection Hrun1 as -> <-.
  assert (bal s n ≼ vote_ballot n0 v) as Hb.
  { rewrite (ni_bal _ _ _ Hn). rewrite pgeb_flip in Hge. by apply vote_ballot_le. }
  pose proof (spec_accept quorum_of s n (vote_ballot n0 v) h [] Hb Hh (prefix_nil _)) as Hstep.
  set (s' := mkSpec _ _ _ _ _ _ _ _ _) in Hstep.
  split; [|destruct Hva as (Hv & _ & _ & _ & _ & _ & Hcase); fold e in Hcase; rewrite Hof in Hcase;
    destruct Hcase as (_ & ? & ? & _); done].
  assert (node_inv s' n (w_engine w') ∧ moves e (w_engine w')) as [Hn' Hmv]; [|by eapply refines_step].
  apply (voted_inv s _ n v e); try done.
  - by rewrite Hof.
  - split; [by apply hist_le_same|set_solver|done].
  - cbn. rewrite upd_eq. unfold adopt. rewrite decide_True; [done|apply prefix_nil].
  - cbn. by rewrite upd_eq.
  - unfold acc_inv. rewrite Hcom. cbn. by rewrite upd_eq.
  - exact (grants_above s n e v Hn Hge).
Qed.

(** *** Voting *)

Lemma ni_last s n e : node_inv s n e → last_log_id (Engine_state e) = last (log s n).
Proof. intros Hn. by eapply logs_last, Hn. Qed.

(** A vote that the node gives to the candidate [v]. *)
Lemma grant_step s n e v ll :
  node_inv s n e → pgeb v (local_vote e) = true → Vote_is_committed v = false → Vote_term v ≠ 0%N →
  last (log s n) ≼ ll →
  spec_step s n (mkSpec (upd (bal s) n (vote_ballot n0 v)) (acc s) (log s) (hist s) (owner s) (elected s)
    (mkGrant n (Vote_leader_id v) ll (log s n) :: grants s) (acks s) (cmt s)).
Proof.
  intros Hn Hge Hunc Ht Hl. pose proof (acc_uncommitted _ _ _ _ Hn Hge Hunc Ht) as Ha.
  assert (bal s n ≼ vote_ballot n0 v) as Hb.
  { rewrite (ni_bal _ _ _ Hn). rewrite pgeb_flip in Hge. by apply vote_ballot_le. }
  unfold vote_ballot in *. rewrite (ballot_term n0 (Vote_leader_id v)) in * by done. apply spec_grant; try done.
  intros lid' ll' own Hin Heq. destruct (grants_above _ _ _ _ Hn Hge _ _ _ Hin) as [_ Hle].
  apply same_candidate; [|done]. destruct v as [lid c]. unfold Vote_is_committed in Hunc. cbn in *. by subst.
Qed.

Lemma grant_inv s n e v ll (s' := mkSpec (upd (bal s) n (vote_ballot n0 v)) (acc s) (log s) (hist s) (owner s) (elected s)
    (mkGrant n (Vote_leader_id v) ll (log s n) :: grants s) (acks s) (cmt s)) :
  node_inv s n e → pgeb v (local_vote e) = true → Vote_is_committed v = false → Vote_term v ≠ 0%N →
  grows s s' ∧ acc_inv s' n v ∧ voted s' n v ll ∧
  ∀ lid ll own, mkGrant n lid ll own ∈ grants s' → LeaderId_term lid ≠ 0%N ∧ pleb (mkVote lid false) v = true.
Proof.
  intros Hn Hge Hunc Ht. split_and!.
  - split; [by apply hist_le_same|done|set_solver].
  - unfold acc_inv. rewrite Hunc. right. split; [done|]. cbn. by eapply acc_uncommitted.
  - exists (log s n). set_solver.
  - intros lid ll' own [[= -> -> ->]|Hin]%elem_of_cons; [|exact (grants_above _ _ _ _ Hn Hge _ _ _ Hin)].
    split; [done|]. destruct v as [lid c]. unfold Vote_is_committed in Hunc. cbn in *. subst. apply pleb_refl.
Qed.

Lemma update_vote_grants s n v ll w r w' :
  node_inv s n (w_engine w) → Vote_is_committed v = false → Vote_term v ≠ 0%N → not_ahead (w_engine w) v → V v →
  last (log s n) ≼ ll → update_vote v w = Ret (r, w') →
  match r with
  | Ok _ => ∃ s', steps s n s' ∧ node_inv s' n (w_engine w') ∧ moves (w_engine w) (w_engine w') ∧
      voted s' n v ll ∧ local_vote (w_engine w') = v
  | Err _ => w' = w
  end.
Proof.
  intros Hn Hunc Ht Hna HV Hl Hrun. set (e := w_engine w) in *.
  assert (own_vote e v && Vote_is_committed v = false) as Hof by (rewrite Hunc; apply andb_false_r).
  pose proof (update_vote_rest _ _ _ _ Hof Hrun) as (Hp & Hsn & Hcl).
  destruct (pgeb v (local_vote e)) eqn:Hge.
  2:{ rewrite update_vote_eq in Hrun. fold e in Hrun. fold (local_vote e) in Hrun. rewrite Hge in Hrun.
    by injection Hrun as <- <-. }
  destruct (update_vote_accepted v w Hge Hof) as (w1 & Hrun1 & Hva). rewrite Hrun in Hrun1. injection Hrun1 as -> <-.
  pose proof (grant_step s n e v ll Hn Hge Hunc Ht Hl) as Hstep.
  destruct (grant_inv s n e v ll Hn Hge Hunc Ht) as (Hg & Ha & Hv & Hgr). set (s' := mkSpec _ _ _ _ _ _ _ _ _) in *.
  exists s'. split; [by apply steps_one|]. rewrite (and_assoc (node_inv _ _ _)). split; [|split; [done|apply Hva]].
  apply (voted_inv s _ n v e); try done.
  - intros Hown. split; [by apply not_ahead_own|done].
  - cbn. by rewrite upd_eq.
Qed.

Lemma handle_vote_req_refines s n req w resp w' :
  node_inv s n (w_engine w) → Vote_is_committed (VoteRequest_vote req) = false →
  Vote_term (VoteRequest_vote req) ≠ 0%N → not_ahead (w_engine w) (VoteRequest_vote req) → V (VoteRequest_vote req) →
  handle_vote_req req w = Ret (resp, w') →
  ∃ s', steps s n s' ∧ node_inv s' n (w_engine w') ∧ moves (w_engine w) (w_engine w') ∧
    VoteResponse_vote resp = local_vote (w_engine w') ∧
    (VoteResponse_vote_granted resp = true → VoteResponse_vote resp = VoteRequest_vote req ∧
      voted s' n (VoteRequest_vote req) (VoteRequest_last_log_id req)).
Proof.
  intros Hn Hunc Ht Hna HV. unfold handle_vote_req. rewrite M_bind_eq. unfold now at 1. rewrite M_bind_eq.
  destruct (is_leader_lease_valid _ _ _) as [[lease w1]|] eqn:E1; [|done].
  destruct (same_ran _ _ _ _ _ _ E1 Hn) as (Hs1 & Hn1 & Hm1). cbn [w_engine] in Hs1, Hm1.
  assert (VoteResponse_new (local_vote (w_engine w1)) (last_log_id (Engine_state (w_engine w1))) false = resp →
    w' = w1 → ∃ s', steps s n s' ∧ node_inv s' n (w_engine w') ∧ moves (w_engine w) (w_engine w') ∧
    VoteResponse_vote resp = local_vote (w_engine w') ∧
    (VoteResponse_vote_granted resp = true → VoteResponse_vote resp = VoteRequest_vote req ∧
      voted s' n (VoteRequest_vote req) (VoteRequest_last_log_id req))) as Hno.
  { intros <- ->. exists s. split_and!; try done. apply rtc_refl. }
  destruct lease; [unfold vote_response; m_steps; intros [= <- <-]; by apply Hno|]. rewrite M_bind_eq, gets_eq.
  unfold is_candidate_log_behind. destruct (ltb_spec (VoteRequest_last_log_id req) (last_log_id (Engine_state (w_engine w1))))
    as [Hlt|Hle]; [unfold vote_response; m_steps; intros [= <- <-]; by apply Hno|].
  rewrite (ni_last _ _ _ Hn1) in Hle. rewrite M_bind_eq.
  destruct (update_vote _ w1) as [[r w2]|] eqn:E2; [|done]. unfold vote_response. rewrite M_bind_eq, gets_eq, M_ret_eq.
  assert (not_ahead (w_engine w1) (VoteRequest_vote req)) as Hna1.
  { unfold not_ahead. by rewrite (sn_config _ _ Hs1), (sn_vote _ _ Hs1). }
  pose proof (update_vote_grants _ _ _ _ _ _ _ Hn1 Hunc Ht Hna1 HV Hle E2) as Hr. intros [= <- <-]. destruct r as [u|err].
  - destruct Hr as (s' & Hst & Hn2 & Hm2 & Hv & Hlv). exists s'. split_and!; [done|done|by eapply moves_compose|done|].
    intros _. split; [exact Hlv|done].
  - subst w2. by apply Hno.
Qed.

(** *** Candidates *)

Lemma new_term_rises e v :
  v = mkVote (LeaderId_new (Term_next (Vote_term (local_vote e))) (Engine_id e)) false →
  pgeb v (local_vote e) = true →
  Vote_term v ≠ 0%N ∧ Vote_leader_node_id v = Engine_id e ∧ pltb (local_vote e) v = true.
Proof.
  intros Hv Hge. rewrite pgeb_flip in Hge. pose proof (Vote_lt_term_le _ _ Hge) as Hle.
  assert (Vote_term v = Term_next (Vote_term (local_vote e))) as Ht
    by (rewrite Hv; unfold Vote_term; cbn; apply LeaderId_term_new).
  unfold Term_next, u64_add in Ht.
  assert (Vote_term v ≠ Vote_term (local_vote e)) as Hne.
  { intros Heq. pose proof (N.div_mod (Vote_term (local_vote e) + 1) u64_modulus ltac:(done)).
    pose proof (N.mod_lt (Vote_term (local_vote e) + 1) u64_modulus ltac:(done)). unfold u64_modulus in *. lia. }
  split_and!; [|rewrite Hv; unfold Vote_leader_node_id; cbn; apply LeaderId_node_id_new|].
  - intros H0. lia.
  - apply pleb_true in Hge as [|Heq]; [done|]. by destruct Hne; rewrite <- Heq.
Qed.

Lemma do_elect_refines transfer s n w a w' :
  node_inv s n (w_engine w) → effective_membership (w_engine w) = m → do_elect transfer w = Ret (a, w') →
  refines s n (w_engine w) (w_engine w').
Proof.
  intros Hn Hmem. unfold do_elect. rewrite M_bind_eq. destruct (modify _ w) as [[u w1]|] eqn:E1; [|done].
  destruct (same_ran _ _ _ _ _ _ E1 Hn) as (Hs1 & Hn1 & Hm1). rewrite M_bind_eq, get_eq.
  destruct (Engine_leader (w_engine w1)) as [l|] eqn:El; [intros [= <- <-]; by apply refines_same|].
  rewrite M_bind_eq. destruct (Engine_resample_election_timeout w1) as [[u2 w2]|] eqn:E2; [|done].
  destruct (same_ran _ _ _ _ _ _ E2 Hn1) as (Hs2 & Hn2 & Hm2).
  pose proof (same_node_trans _ _ _ Hs1 Hs2) as Hs. rewrite M_bind_eq.
  set (v := mkVote _ false). unfold new_candidate, create_candidate. m_steps. unfold now at 1. m_steps.
  set (c := Candidate_new _ _ _ _ _). set (e1 := set_candidate (w_engine w2) (Some c)).
  destruct (update_vote v _) as [[r w4]|] eqn:E4; [|done]. destruct r as [u4|err]; [|done].
  assert (v = mkVote (LeaderId_new (Term_next (Vote_term (local_vote (w_engine w2)))) (Engine_id (w_engine w2))) false) as Hv.
  { unfold v. fold (local_vote (w_engine w1)). by rewrite (sn_vote _ _ Hs2), (sn_config _ _ Hs2). }
  assert (own_vote e1 v && Vote_is_committed v = false) as Hof by (cbn; apply andb_false_r).
  match type of E4 with update_vote v ?w3 = _ =>
    pose proof (update_vote_rest _ w3 _ _ Hof E4) as (Hp & Hsn & Hcl);
    assert (pgeb v (local_vote (w_engine w2)) = true) as Hge
      by (rewrite update_vote_eq in E4; cbn in E4; by destruct (pgeb v _));
    destruct (update_vote_accepted v w3 Hge Hof) as (w5 & E5 & Hva) end.
  rewrite E4 in E5. injection E5 as _ <-. cbn [w_engine] in Hp, Hsn, Hcl, Hva. fold e1 in Hva.
  destruct (new_term_rises _ _ Hv Hge) as (Ht & Hid & Hlt). m_steps. intros [= <- <-]. cbn [w_engine].
  set (req := mkVoteRequest _ _ _ _). set (e2 := w_engine w2) in *. set (e4 := w_engine w4) in *.
  pose proof (grant_step s n e2 v (last (log s n)) Hn2 Hge eq_refl Ht (ord_le_refl _)) as Hstep.
  destruct (grant_inv s n e2 v (last (log s n)) Hn2 Hge eq_refl Ht) as (Hg & Ha & Hvo & Hgr).
  set (s' := mkSpec _ _ _ _ _ _ _ _ _) in *. pose proof (vote_accepted_sent _ _ _ Hva) as Hsent.
  destruct Hva as (Hv4 & Hl4 & Ha4 & _ & Hc4 & Hio4 & Hcase).
  assert (Engine_leader e2 = None) as Hle2.
  { pose proof (sn_leader _ _ Hs2) as Hx. rewrite El in Hx. by destruct (Engine_leader e2). }
  assert (cand_inv s' n v c) as Hci.
  { split; try done.
    - by rewrite Hid, (ni_id _ _ _ Hn2).
    - exact (ni_last _ _ _ Hn2).
    - unfold effective_membership in Hmem. cbn. by rewrite (sn_members _ _ Hs), Hmem.
    - exists []. split; [|by intros x []%elem_of_nil]. unfold effective_membership in Hmem. cbn.
      rewrite (sn_members _ _ Hs), Hmem. by apply tally_new. }
  assert (node_inv s' n e4) as Hn4.
  { apply (voted_node s _ n v e2); try done.
    - by rewrite <- pgeb_flip.
    - by apply same_logs_eq.
    - unfold local_committed. by rewrite Ha4.
    - unfold Engine_id. by rewrite Hc4.
    - cbn. by rewrite upd_eq.
    - intros c' Hc'. destruct (own_vote e1 v); destruct Hcase as (_ & _ & Hcc & _); rewrite Hcc in Hc'; [|done].
      by injection Hc' as <-.
    - intros l Hll. destruct (own_vote e1 v); destruct Hcase as (_ & Hcc & _); rewrite Hcc in Hll; [|done].
      cbn in Hll. congruence. }
  assert (∀ c', Engine_candidate e4 = Some c' → c' = c) as Hcand.
  { intros c' Hc'. destruct (own_vote e1 v); destruct Hcase as (_ & _ & Hcc & _); rewrite Hcc in Hc'; [|done].
    by injection Hc'. }
  eapply refines_step; [exact Hstep|eapply node_inv_same; [apply same_update_server_state|by destruct Hn4]|].
  apply (moves_compose _ e2); [by apply moves_same|]. eapply moves_compose; [|apply moves_same, same_update_server_state].
  assert (asked (push (Command_SendVote req) e4) req) as Hasked.
  { split; [done| |done|apply pleb_true; right; by symmetry|by intros c' ->%Hcand _].
    transitivity (Engine_id e2); [exact Hid|]. symmetry. exact (f_equal EngineConfig_id Hc4). }
  split; [exact (f_equal EngineConfig_id Hc4)|rewrite pgeb_flip in Hge; by rewrite <- Hv4 in Hge| | |].
  - right. left. etransitivity; [exact (f_equal Vote_leader_node_id Hv4)|exact Hid].
  - intros c' ->%Hcand. by right.
  - intros req'. unfold sent_votes, commands. cbn. rewrite omap_app. cbn. rewrite elem_of_app, list_elem_of_singleton.
    intros [Hin| ->]; [left|by right]. unfold sent_votes, commands in Hsent. by rewrite Hsent in Hin.
Qed.

Lemma pre_elect_refines s n w a w' :
  node_inv s n (w_engine w) → effective_membership (w_engine w) = m → pre_elect w = Ret (a, w') →
  refines s n (w_engine w) (w_engine w').
Proof.
  intros Hn Hmem. unfold pre_elect. rewrite M_bind_eq. unfold now at 1. rewrite M_bind_eq, get_eq. cbn [w_engine].
  destruct (_ && _); [intros [= <- <-]; by apply refines_same, same_node_refl|]. rewrite M_bind_eq.
  destruct (Engine_resample_election_timeout _) as [[u1 w1]|] eqn:E1; [|done].
  destruct (same_ran _ _ _ _ _ _ E1 Hn) as (Hs1 & Hn1 & Hm1). cbn [w_engine] in Hs1, Hm1. rewrite M_bind_eq.
  destruct (new_pre_candidate _ w1) as [[c w2]|] eqn:E2; [|done].
  destruct (same_ran _ _ _ _ _ _ E2 Hn1) as (Hs2 & Hn2 & Hm2). destruct (grant_by c _) as [c' q].
  rewrite M_bind_eq. destruct (modify _ w2) as [[u3 w3]|] eqn:E3; [|done].
  destruct (same_ran _ _ _ _ _ _ E3 Hn2) as (Hs3 & Hn3 & Hm3).
  pose proof (same_node_trans _ _ _ Hs1 (same_node_trans _ _ _ Hs2 Hs3)) as Hs. intros Hrun.
  eapply refines_trans; [by apply refines_same|]. intros s' Hst Hn'. destruct q.
  - eapply do_elect_refines; [done| |done]. unfold effective_membership. by rewrite (sn_members _ _ Hs).
  - destruct (same_ran _ _ _ _ _ _ Hrun Hn') as (Hs4 & _ & _). by apply refines_same.
Qed.

(** *** Responses to candidates *)

(** The vote of a response, as the vote of a candidate. *)
Definition told v : Prop := V (UncommittedVote_into_vote (Vote_to_non_committed v)).

Lemma handle_rejected_refines s n resp pre w a w' :
  node_inv s n (w_engine w) → not_ahead (w_engine w) (VoteResponse_vote resp) → told (VoteResponse_vote resp) →
  handle_rejected_vote_resp resp pre w = Ret (a, w') → refines s n (w_engine w) (w_engine w').
Proof.
  intros Hn Hna HV. unfold handle_rejected_vote_resp. rewrite M_bind_eq.
  match goal with |- context [modify ?f w] => assert (SameFrame f) as Hsf end.
  { intros e0. unfold set_greater_log. destruct (_ <? _); [apply same_set_seen_greater_log|apply same_node_refl]. }
  destruct (modify _ w) as [[u1 w1]|] eqn:E1; [|done].
  destruct (same_ran _ _ _ _ _ _ E1 Hn) as (Hs1 & Hn1 & Hm1). rewrite M_bind_eq, gets_eq.
  destruct (if pre then _ else true); [|intros [= <- <-]; by apply refines_same].
  rewrite M_bind_eq. destruct (update_vote _ w1) as [[r w2]|] eqn:E2; [|done]. rewrite M_ret_eq. intros [= <- <-].
  eapply refines_trans; [by apply refines_same|]. intros s' Hst Hn'. eapply update_vote_raises; [exact Hn'| | | |exact E2]; [reflexivity| |exact HV].
  intros Hid. apply (pleb_trans _ (VoteResponse_vote resp)).
  - destruct (VoteResponse_vote resp) as [lid c]. unfold pleb, partial_cmp, Vote_partial_ord, RefVote_partial_cmp. cbn.
    rewrite pcmp_refl. by destruct c.
  - rewrite (sn_vote _ _ Hs1). apply Hna. by rewrite <- (sn_config _ _ Hs1).
Qed.

Lemma handle_pre_vote_resp_refines s n target resp w a w' :
  node_inv s n (w_engine w) → effective_membership (w_engine w) = m →
  not_ahead (w_engine w) (VoteResponse_vote resp) → told (VoteResponse_vote resp) → handle_pre_vote_resp target resp w = Ret (a, w') →
  refines s n (w_engine w) (w_engine w').
Proof.
  intros Hn Hmem Hna HV. unfold handle_pre_vote_resp. rewrite M_bind_eq, get_eq.
  destruct (Engine_pre_candidate _) as [c|]; [|intros [= <- <-]; by apply refines_same, same_node_refl].
  destruct (VoteResponse_vote_granted resp); [|by apply handle_rejected_refines].
  destruct (grant_by c target) as [c' q]. rewrite M_bind_eq. destruct (modify _ w) as [[u1 w1]|] eqn:E1; [|done].
  destruct (same_ran _ _ _ _ _ _ E1 Hn) as (Hs1 & Hn1 & Hm1).
  destruct q; [|intros [= <- <-]; by apply refines_same]. intros Hrun.
  eapply refines_trans; [by apply refines_same|]. intros s' Hst Hn'. eapply do_elect_refines; [done| |done].
  unfold effective_membership. by rewrite (sn_members _ _ Hs1).
Qed.

End replica.

(** Splits [node_inv] of an engine with the logs of another one. *)
Ltac split_node := split; try done; try by eapply has_logs_eq.
