(* ===== verification/ReplicaLead.v ===== *)
(** * A leader as a part of the protocol

    How a candidate becomes a leader, and the log of a leader: the handlers of
    [Replica.v] that make the steps of a leader. *)

From S2P Require Import Prelude Vote LogId LogIdList Quorum Membership VecProgress IOState.
From S2P Require Import MembershipState Entry RaftState Config ProgressEntry Proposer Command.
From S2P Require Import Engine Replication Following LeaderHandler VoteHandler EngineImpl.
From S2P Require Import VoteSafety Cluster Election RaftSpec ReplicaFrame Replica.

Section replica_lead.
Context {C : RaftTypeConfig} `{!Env} (m : Membership) (n0 : N) (V : Vote → Prop).
Context `{!RaftLeaderIdLaws C} (Hm : Membership_configs m ≠ []).
Implicit Types (e : Engine) (w : World) (l : Leader) (s : Spec) (n : N) (v : Vote) (b : CommittedLeaderId).

#[local] Abbreviation bi := (initial_ballot n0).
#[local] Abbreviation spec_step := (spec_step (quorum_of m)).
#[local] Abbreviation spec_inv := (spec_inv (quorum_of m) bi).
#[local] Abbreviation node_inv := (node_inv m n0).
#[local] Abbreviation lead_inv := (lead_inv m n0).
#[local] Abbreviation led_by := (led_by n0).
#[local] Abbreviation steps := (steps m).
#[local] Abbreviation sound := (sound m n0).
#[local] Abbreviation moves := (moves V).
#[local] Abbreviation refines := (refines m n0 V).
#[local] Abbreviation moves_compose := (moves_compose V).
#[local] Abbreviation moves_same := (moves_same V).
#[local] Abbreviation moves_frame := (moves_frame V).
#[local] Abbreviation refines_same := (refines_same m n0 V).
#[local] Abbreviation refines_trans := (refines_trans m n0 V).
#[local] Abbreviation refines_step := (refines_step m n0 V).

(** ** The log of a leader *)

(** [n] leads [b]. *)
Record leads s n b : Prop := {
  ld_hist : hist s b = Some (log s n);
  ld_owner : owner s b = n;
  ld_bal : bal s n = b;
  ld_acc : acc s n = b;
  ld_ack : mkAck n b (log s n) ∈ acks s;
}.

Lemma append_steps ids s n b :
  leads s n b → (∀ i x, ids !! i = Some x → x = mkLogId b (N.of_nat (length (log s n) + i))) →
  ∃ s', steps s n s' ∧ leads s' n b ∧ log s' n = log s n ++ ids ∧ cmt s' n = cmt s n ∧ grants s' = grants s.
Proof.
  revert s. induction ids as [|x ids IH]; intros s Hl Hids.
  { exists s. rewrite app_nil_r. split_and!; try done. apply rtc_refl. }
  destruct Hl as [Hh Ho Hb Ha Hk]. pose proof (spec_append (quorum_of m) s b) as Hstep. rewrite Ho in Hstep. cbn zeta in Hstep.
  specialize (Hstep Hh ltac:(rewrite Hb; apply ord_le_refl)). set (s1 := mkSpec _ _ _ _ _ _ _ _ _) in Hstep.
  assert (x = next_log b (log s n)) as Hx.
  { rewrite (Hids 0 x eq_refl). unfold next_log. do 2 f_equal. lia. }
  assert (log s1 n = log s n ++ [x]) as Hl1 by (cbn; by rewrite upd_eq, Hx).
  assert (leads s1 n b) as Hled1 by (split; cbn; rewrite ?upd_eq; try done; set_solver).
  destruct (IH s1 Hled1) as (s' & Hs' & Hled & Hl & Hc & Hg).
  { intros i y Hy. rewrite Hl1, length_app. rewrite (Hids (S i) y Hy). do 2 f_equal. cbn. lia. }
  exists s'. split_and!; [by eapply rtc_l|done|by rewrite Hl, Hl1, <- app_assoc|done|done].
Qed.

Lemma ni_next s n e : node_inv s n e → next_index (last_log_id (Engine_state e)) = N.of_nat (length (log s n)).
Proof. intros Hn. by eapply logs_next, Hn. Qed.

Lemma ni_leads s n e l :
  node_inv s n e → Engine_leader e = Some l → leads s n (led_by (Leader_committed_vote l)).
Proof.
  intros Hn Hl. destruct (ni_leader _ _ _ _ _ Hn l Hl). pose proof (ni_bal _ _ _ _ _ Hn) as Hb.
  pose proof (ni_acc _ _ _ _ _ Hn) as Ha. unfold acc_inv in Ha. rewrite <- li_vote in Ha, Hb. by split.
Qed.

Lemma led_by_committed s n v l :
  lead_inv s n v l → led_by (Leader_committed_vote l) = CommittedVote_committed_leader_id (Leader_committed_vote l).
Proof. intros []. apply ballot_term. by rewrite <- li_vote in li_term. Qed.

(** An I/O of logs that the node has. *)
Lemma accept_io_node s n e cv o :
  node_inv s n e → acked s n (led_by cv) o →
  node_inv s n (set_state e (accept_log_io (Engine_state e) (IOId_new_log_io cv o)).1).
Proof.
  intros Hn Hk. unfold accept_log_io. cbn [fst]. destruct (pgtb _ _); [|by destruct e]. destruct Hn. split_node.
  cbn. intros a [= <-]. done.
Qed.

(** A leader has no candidate. *)
Lemma leader_alone s n e l c :
  node_inv s n e → Engine_leader e = Some l → Engine_candidate e = Some c → False.
Proof.
  intros Hn Hl Hc. pose proof (li_vote _ _ _ _ _ _ (ni_leader _ _ _ _ _ Hn l Hl)) as Hv.
  pose proof (ci_uncommitted _ _ _ _ _ (ni_candidate _ _ _ _ _ Hn c Hc)) as Hu. by rewrite <- Hv in Hu.
Qed.

(** The leader after it has appended [ids]. *)
Lemma append_node s s' n e l ids :
  sound s → node_inv s n e → Engine_leader e = Some l → steps s n s' → leads s' n (led_by (Leader_committed_vote l)) →
  follows (last_log_id (Engine_state e)) ids → (∀ x, x ∈ ids → LogId_leader_id x = led_by (Leader_committed_vote l)) →
  log s' n = log s n ++ ids → cmt s' n = cmt s n → grants s' = grants s → ids ≠ [] →
  node_inv s' n (set_state (set_leader e (Some (Leader_set_last_log_id l (last ids))))
    (extend_log_ids_from_same_leader (Engine_state e) ids)).
Proof.
  intros Hi Hn El Hst Hled' Hf Hcl Hlog Hcmt Hgr Hne. pose proof (steps_grows m n0 Hm _ _ _ Hi Hst) as Hg.
  pose proof (ni_leads _ _ _ _ Hn El) as Hled. pose proof (ni_leader _ _ _ _ _ Hn l El) as Hli.
  assert (LogIdList_extend_from_same_leader (RaftState_log_ids (Engine_state e)) ids =
    LogIdList_extend (RaftState_log_ids (Engine_state e)) ids) as Heq by by eapply LogIdList_extend_from_same_leader_eq.
  assert (has_logs (log s' n) (cmt s' n) (extend_log_ids_from_same_leader (Engine_state e) ids)) as Hlogs.
  { rewrite Hlog, Hcmt. eapply logs_extend; [apply Hn|done|exact Heq|done|done]. }
  assert (∀ c, Engine_candidate e = Some c → False) as Hnc by (intros c; by eapply leader_alone).
  destruct Hn. split; cbn; rewrite ?Hcmt; try done.
  - by rewrite <- Hcmt.
  - etransitivity; [apply Hled'|]. etransitivity; [symmetry; apply Hled|]. exact ni_bal.
  - assert (acc s' n = acc s n) as Ha by (etransitivity; [apply Hled'|symmetry; apply Hled]).
    unfold acc_inv in *. by rewrite Ha.
  - by rewrite Hgr.
  - intros a Ha. eapply acked_mono; [done|by apply ni_accepted].
  - intros a Ha. destruct (ni_cluster a Ha) as [Hle Hco]. rewrite (ld_bal _ _ _ Hled'), <- (ld_bal _ _ _ Hled).
    split; [done|by eapply commit_ok_mono].
  - by intros c Hc%Hnc.
  - intros l' [= <-]. destruct Hli. split; try done; cbn.
    + apply Hled'.
    + apply Hled'.
    + apply Hled'.
    + rewrite Hlog, last_app. destruct (last ids) eqn:E; [done|]. by apply last_None in E.
    + intros x Hx. eapply acked_mono; [done|by apply li_acked].
    + by eapply reached_mono.
Qed.

Lemma accept_io_moves e io : moves e (set_state e (accept_log_io (Engine_state e) io).1).
Proof. apply moves_frame; try done. unfold local_vote. cbn [set_state Engine_state]. by rewrite accept_log_io_vote. Qed.

Lemma leader_append_refines s n payloads w r w' :
  sound s → node_inv s n (w_engine w) → Forall (λ p, EntryPayload_get_membership p = None) payloads →
  (N.of_nat (length (log s n) + length payloads) < u64_modulus)%N →
  leader_append_entries payloads w = Ret (r, w') → refines s n (w_engine w) (w_engine w').
Proof.
  intros Hi Hn Hnm Hroom. unfold leader_append_entries. rewrite M_bind_eq. unfold the_leader.
  destruct (Engine_leader (w_engine w)) as [l|] eqn:El; [|done].
  pose proof (ni_leader _ _ _ _ _ Hn l El) as Hli. pose proof (ni_leads _ _ _ _ Hn El) as Hled.
  pose proof (ni_last _ _ _ _ _ Hn) as Hlast. pose proof (ni_next _ _ _ Hn) as Hnext.
  rewrite <- (li_last _ _ _ _ _ _ Hli) in Hlast. destruct payloads as [|p payloads].
  { cbn. unfold put_leader. m_steps. intros [= <- <-]. apply refines_same; [done|]. split; try done. cbn. rewrite El.
    apply same_leader_refl. }
  set (ps := p :: payloads) in *.
  destruct (assign_log_ids_consecutive l (N.of_nat (length ps))) as (r0 & Hr & Hlen & Hf & Hl1 & Hcl);
    [cbn; lia|rewrite <- Hlast, Hnext; lia| |].
  { rewrite (li_last _ _ _ _ _ _ Hli). intros x Hx. rewrite <- (led_by_committed _ _ _ _ Hli).
    destruct (si_acc _ _ _ (proj1 Hi) n) as (Hfa & _ & _). rewrite (ld_acc _ _ _ Hled) in Hfa.
    rewrite Forall_forall in Hfa. by apply Hfa, last_Some_elem_of. }
  destruct (assign_log_ids l _) as [l1 assigned]. cbn in Hr, Hl1. subst l1 assigned.
  set (ids := LeaderLogIds_ids r0) in *. unfold put_leader. m_steps. rewrite (no_membership_entry _ _ Hnm). m_steps.
  match goal with |- context [initiate_replication ?w1] => set (w1' := w1) end.
  destruct (initiate_replication w1') as [[u w2]|] eqn:E2; [|done]. intros [= <- <-].
  rewrite Nat2N.id in Hlen. rewrite <- Hlast in Hf.
  destruct (append_steps ids s n _ Hled) as (s' & Hst & Hled' & Hlog & Hcmt & Hgr).
  { intros i x Hx. destruct (follows_lookup _ _ _ _ Hf Hx) as [Hix _]. rewrite Hnext in Hix.
    rewrite (led_by_committed _ _ _ _ Hli), <- (Hcl x) by (by eapply list_elem_of_lookup_2). destruct x. cbn in *. f_equal. lia. }
  assert (ids ≠ []) as Hne by (intros Hnil; by rewrite Hnil in Hlen).
  assert (last (log s n ++ ids) = last ids) as Hla.
  { rewrite last_app. destruct (last ids) eqn:E; [done|]. by apply last_None in E. }
  pose proof (steps_grows m n0 Hm _ _ _ Hi Hst) as Hg.
  assert (node_inv s' n (w_engine w1')) as Hn1.
  { unfold w1'. cbn [w_engine].
    assert (∀ x, x ∈ ids → LogId_leader_id x = led_by (Leader_committed_vote l)) as Hcl'
      by (by rewrite (led_by_committed _ _ _ _ Hli)).
    pose proof (append_node _ _ _ _ _ _ Hi Hn El Hst Hled' Hf Hcl' Hlog Hcmt Hgr Hne) as Hn1.
    refine (node_inv_same _ _ _ _ _ _ (same_push _ _ _)
      (accept_io_node s' n _ (Leader_committed_vote l) (last ids) Hn1 _)).
    rewrite <- Hla, <- Hlog. apply acked_last, Hled'. }
  destruct (same_ran m n0 V _ _ _ _ _ _ E2 Hn1) as (Hs2 & Hn2 & Hm2).
  exists s'. split_and!; [done|done|]. eapply moves_compose; [|exact Hm2]. unfold w1'. apply moves_frame; [done| |done|].
  - unfold local_vote. cbn [w_engine]. cbn [push set_output set_state Engine_state]. by rewrite accept_log_io_vote.
  - unfold sent_votes, commands. cbn. rewrite omap_app. cbn. by rewrite app_nil_r.
Qed.

(** ** Becoming a leader *)

(** A candidate with the votes of a quorum. *)
Record wins s n v (c : Candidate) : Prop := {
  wn_candidate : cand_inv m s n v c;
  wn_quorum : ∃ Q, quorum_of m Q ∧ ∀ x, x ∈ Q → voted s x v (last (log s n));
}.

Lemma grant_by_wins s n v c target :
  cand_inv m s n v c → voted s target v (last (log s n)) →
  cand_inv m s n v (grant_by c target).1 ∧ ((grant_by c target).2 = true → wins s n v (grant_by c target).1) ∧
  Candidate_last_log_id (grant_by c target).1 = Candidate_last_log_id c.
Proof.
  intros Hc Hv. assert (cand_inv m s n v (grant_by c target).1 ∧ Candidate_last_log_id (grant_by c target).1 =
      Candidate_last_log_id c ∧ ((grant_by c target).2 = true →
    ∃ Q, quorum_of m Q ∧ ∀ x, x ∈ Q → voted s x v (last (log s n)))) as (Hc' & Hl & Hq); [|split_and!; [done|by split; eauto|done]].
  destruct Hc as [? ? ? ? ? ? ? (S & Ht & HS)]. pose proof (tally_update m S _ target Ht) as Hu.
  assert (∀ x, x ∈ target :: S → voted s x v (last (log s n))) as HS'
    by (intros x [->|Hx]%elem_of_cons; [done|by apply HS]).
  unfold grant_by. destruct (update _ target true) as [p|p]; destruct Hu as [Hu Ht'];
    (split_and!; [split; try done; by exists (target :: S)|done|]); [|done].
  cbn [snd]. rewrite (tally_accepted_iff _ _ _ Hu). intros Hq.
  exists (filter (λ x, x ∈ target :: S) (qs_ids m)). split; [split; [apply NoDup_filter, NoDup_qs_ids|done]|].
  intros x [Hx _]%list_elem_of_filter. by apply HS'.
Qed.

Lemma lead_state s n e c (lid := Vote_leader_id (local_vote e)) (b := LeaderId_to_committed lid)
    (s' := mkSpec (upd (bal s) n b) (upd (acc s) n b) (log s) (upd (hist s) b (Some (log s n)))
      (upd (owner s) b n) (b :: elected s) (grants s) (mkAck n b (log s n) :: acks s) (cmt s)) :
  node_inv s n e → wins s n (local_vote e) c → spec_step s n s'.
Proof.
  intros Hn [[Hv Hunc Hid Ht _ _ _ _] (Q & HQ & Hg)]. pose proof (ni_bal _ _ _ _ _ Hn) as Hb.
  pose proof (ni_acc _ _ _ _ _ Hn) as Ha. unfold acc_inv in Ha. rewrite Hunc in Ha. destruct Ha as [[? _]|[_ Ha]]; [done|].
  unfold vote_ballot in Ha, Hb. fold lid in Ha, Hb. rewrite ballot_term in Ha, Hb by done.
  pose proof (spec_lead (quorum_of m) s lid Q) as Hstep. cbn zeta in Hstep. fold b in Hstep.
  change (LeaderId_node_id lid) with (Vote_leader_node_id (local_vote e)) in Hstep. rewrite Hid in Hstep.
  apply Hstep; [fold b in Hb; rewrite Hb; apply ord_le_refl|done|done|done].
Qed.

Lemma into_leader_inv s n e c g t l g' (b := LeaderId_to_committed (Vote_leader_id (local_vote e)))
    (s' := mkSpec (upd (bal s) n b) (upd (acc s) n b) (log s) (upd (hist s) b (Some (log s n)))
      (upd (owner s) b n) (b :: elected s) (grants s) (mkAck n b (log s n) :: acks s) (cmt s)) :
  cand_inv m s n (local_vote e) c → into_leader c g t = (l, g') →
  lead_inv s' n (CommittedVote_into_vote (Vote_to_committed (local_vote e))) l.
Proof.
  intros [Hv Hunc Hid Ht Hlast [Hq Hlr] _ _]. unfold into_leader, Leader_new. rewrite Hv, Hlast, Hq, Hlr. intros [= <- _].
  assert (led_by (Vote_to_committed (local_vote e)) = b) as Hb by (by apply ballot_term).
  assert (LeaderLogIds_last_ref <$> (LeaderLogIds_new_single <$> last (log s n)) = last (log s n)) as Hll
    by (by destruct (last (log s n)) as [[]|]).
  match goal with |- context [VecProgress_new m _ (new_progress_entry ?ids ?g0 ?e0)] =>
    destruct (new_wf m (Membership_learner_ids m) (new_progress_entry ids g0 e0)) as (Hwf & _ & _ & Hent) end;
    [by apply Membership_quorum_nil|apply Membership_ids_NoDup|done|].
  split; cbn [Leader_committed_vote Leader_last_log_id Leader_progress]; rewrite ?Hb; try done; cbn; rewrite ?upd_eq; try done.
  - set_solver.
  - intros x Hx. rewrite (Hent x Hx). done.
Qed.
(** The vote of a leader that was a candidate. *)
Lemma update_vote_leads l w r w' :
  let v := CommittedVote_into_vote (Leader_committed_vote l) in
  Engine_leader (w_engine w) = Some l → local_vote (w_engine w) = mkVote (Vote_leader_id v) false →
  own_vote (w_engine w) v = true → update_vote v w = Ret (r, w') →
  w_engine w' = update_server_state_if_changed
    (set_leader (stored_vote v (clock (w_clock_reads w)) (w_engine w)) (Some (Leader_set_committed_vote l (Vote_to_committed v)))).
Proof.
  intros v El Hlv Hown. rewrite update_vote_eq. fold (local_vote (w_engine w)).
  assert (pgeb v (local_vote (w_engine w)) = true) as Hge.
  { rewrite Hlv. unfold pgeb, partial_cmp, Vote_partial_ord, RefVote_partial_cmp. cbn. by rewrite pcmp_refl. }
  rewrite Hge. destruct (stored_vote_spec v (clock (w_clock_reads w)) (w_engine w) Hge)
    as (Hv & _ & _ & _ & Hms & Hcfg & Hle & _). set (e1 := stored_vote v _ _) in *.
  unfold update_internal_server_state. rewrite M_bind_eq, get_eq. cbn [w_engine].
  assert (is_leading (Engine_state e1) (Engine_id e1) = true) as Hlead
    by (unfold is_leading, Engine_id; by rewrite Hms, Hv, Hcfg).
  unfold RaftState_is_leader. rewrite Hlead, Hv. cbn [andb]. change (Vote_is_committed v) with true. cbn match.
  unfold become_leader. rewrite M_bind_eq, get_eq, M_bind_eq. cbn [w_engine]. rewrite Hle, El, Hv, decide_True by done.
  unfold put_leader. m_steps. by intros [= _ <-].
Qed.

(** The leader with its own vote. *)
Lemma established_node s n e c l2 e2 t
    (b := LeaderId_to_committed (Vote_leader_id (local_vote e)))
    (s' := mkSpec (upd (bal s) n b) (upd (acc s) n b) (log s) (upd (hist s) b (Some (log s n)))
      (upd (owner s) b n) (b :: elected s) (grants s) (mkAck n b (log s n) :: acks s) (cmt s))
    (v := CommittedVote_into_vote (Vote_to_committed (local_vote e)))
    (e3 := update_server_state_if_changed (set_leader (stored_vote v t e2) (Some (Leader_set_committed_vote l2 (Vote_to_committed v))))) :
  sound s → node_inv s n e → wins s n (local_vote e) c → lead_inv s' n v l2 →
  same_node (set_leader (set_candidate e None) (Some l2)) e2 → pgeb v (local_vote e) = true →
  node_inv s' n e3 ∧ moves e e3.
Proof.
  intros Hi Hn Hw Hli Hs Hge. assert (local_vote e2 = local_vote e) as Hlv by apply Hs.
  assert (pgeb v (vote_ref (Engine_state e2)) = true) as Hge2 by (unfold local_vote in Hlv at 1; by rewrite Hlv).
  pose proof (lead_state s n e c Hn Hw) as Hstep. pose proof (step_grows m n0 Hm _ _ _ (proj1 Hi) Hstep) as Hg. fold b s' in Hg.
  destruct (stored_vote_spec v t e2 Hge2) as (Hv & Hcmd & Hlog & Hap & Hms & Hcfg & Hle & Hca & _ & Hacc).
  assert (purge_upto (Engine_state (stored_vote v t e2)) = purge_upto (Engine_state e2) ∧
    snapshot_last_log_id (Engine_state (stored_vote v t e2)) = snapshot_last_log_id (Engine_state e2) ∧
    IOState_cluster_committed (RaftState_io_state (Engine_state (stored_vote v t e2))) =
    IOState_cluster_committed (RaftState_io_state (Engine_state e2))) as (Hpu & Hsn & Hcl).
  { unfold stored_vote, accept_log_io. destruct (pgtb v _); [|done]. cbn. by destruct (pgtb _ _). }
  set (e1 := stored_vote v t e2) in *. destruct Hw as [[_ Hunc Hid Ht _ _ _ _] _].
  assert (led_by (Vote_to_committed (local_vote e)) = b) as Hb by (by apply ballot_term).
  assert (Leader_set_committed_vote l2 (Vote_to_committed v) = l2) as Hself.
  { rewrite <- (li_vote _ _ _ _ _ _ Hli). by destruct l2 as [? [] ? ? ? ? ?]. }
  unfold e3. rewrite update_server_state_eq. split.
  - apply (voted_node m n0 s s' n v e); try done.
    + by rewrite pgeb_flip in Hge.
    + eapply same_logs_trans; [apply Hs|by apply same_logs_eq].
    + etransitivity; [|exact (sn_committed _ _ Hs)]. exact (f_equal IOProgress_accepted Hap).
    + etransitivity; [exact (f_equal EngineConfig_id Hcfg)|apply Hs].
    + etransitivity; [exact Hcl|apply Hs].
    + intros a [Hold|]%Hacc; [left|by right]. rewrite <- Hold. symmetry. apply Hs.
    + cbn. rewrite upd_eq. symmetry. exact Hb.
    + unfold acc_inv. cbn. rewrite upd_eq. symmetry. exact Hb.
    + intros lid ll own Hin. apply (grants_above m n0 s n e v Hn Hge lid ll own Hin).
    + cbn. rewrite Hca, (sn_candidate _ _ Hs). done.
    + cbn. intros l' [= <-]. by rewrite Hself.
  - split.
    + etransitivity; [exact (f_equal EngineConfig_id Hcfg)|apply Hs].
    + rewrite pgeb_flip in Hge. change (local_vote (set_state _ _)) with (vote_ref (Engine_state e1)). by rewrite Hv.
    + right. left. change (local_vote (set_state _ _)) with (vote_ref (Engine_state e1)). rewrite Hv.
      by rewrite (ni_id _ _ _ _ _ Hn).
    + cbn. rewrite Hca, (sn_candidate _ _ Hs). done.
    + intros req Hr. left. rewrite <- (sn_sent _ _ Hs : sent_votes e2 = sent_votes e). revert Hr. unfold sent_votes.
      change (commands (set_state _ _)) with (commands e1). rewrite Hcmd, omap_app. destruct (pgtb _ _); cbn; by rewrite app_nil_r.
Qed.

Lemma establish_leader_refines s n c w a w' :
  sound s → node_inv s n (w_engine w) → Engine_candidate (w_engine w) = Some c →
  wins s n (local_vote (w_engine w)) c →
  (N.of_nat (length (log s n) + 1) < u64_modulus)%N → establish_leader w = Ret (a, w') →
  refines s n (w_engine w) (w_engine w').
Proof.
  intros Hi Hn Hc Hw Hroom. set (e := w_engine w) in *.
  assert (Engine_leader e = None) as El.
  { destruct (Engine_leader e) as [l|] eqn:El; [|done]. by destruct (leader_alone _ _ _ _ _ Hn El Hc). }
  pose proof (lead_state s n e c Hn Hw) as Hstep. set (s' := mkSpec _ _ _ _ _ _ _ _ _) in Hstep.
  unfold establish_leader. rewrite M_bind_eq, get_eq. fold e. rewrite Hc. cbn [unwrap].
  rewrite M_bind_eq, lift_Ret, M_bind_eq, modify_eq, M_bind_eq. cbn [w_engine]. fold e.
  unfold establish at 1. rewrite M_bind_eq, get_eq. cbn [w_engine set_candidate Engine_leader]. rewrite El, M_bind_eq.
  unfold now at 1. destruct (into_leader c _ _) as [l g] eqn:Ei. m_steps.
  match goal with |- context [rebuild_replication_streams true ?w1] => set (w1' := w1) end.
  destruct (rebuild_replication_streams true w1') as [[u w2]|] eqn:E2; [|done].
  pose proof (into_leader_inv s n e c _ _ _ _ (wn_candidate _ _ _ _ Hw) Ei) as Hli. fold s' in Hli.
  set (v := CommittedVote_into_vote (Vote_to_committed (local_vote e))) in *.
  pose proof (same_run _ _ _ E2) as Hs2. pose proof (sn_leader _ _ Hs2) as Hl2. cbn in Hl2.
  destruct (Engine_leader (w_engine w2)) as [l2|] eqn:El2; [|done].
  pose proof (lead_same _ _ _ _ _ _ _ Hl2 Hli) as Hli2. rewrite M_bind_eq.
  assert (Leader_committed_vote l = Leader_committed_vote l2) as Hcv by (symmetry; apply Hl2).
  assert (Leader_last_log_id l = last (log s n)) as Hll by apply Hli. rewrite Hcv, Hll.
  destruct (update_vote _ w2) as [[r3 w3]|] eqn:E3; [|done]. m_steps. intros Hrun.
  assert (local_vote (w_engine w2) = local_vote e) as Hlv2 by apply Hs2.
  assert (CommittedVote_into_vote (Leader_committed_vote l2) = v) as Hv2 by apply Hli2. rewrite Hv2 in E3.
  assert (Vote_is_committed (local_vote e) = false) as Hunc by apply Hw.
  assert (local_vote e = mkVote (Vote_leader_id v) false) as Hlv.
  { unfold v. destruct (local_vote e). unfold Vote_is_committed in Hunc. cbn in *. by subst. }
  assert (pgeb v (local_vote e) = true) as Hge.
  { rewrite Hlv. unfold pgeb, partial_cmp, Vote_partial_ord, RefVote_partial_cmp. cbn. by rewrite pcmp_refl. }
  assert (same_node (set_leader (set_candidate e None) (Some l2)) (w_engine w2)) as Hs2'
    by (destruct Hs2; split; try done; [by destruct sn_log|cbn; rewrite El2; apply same_leader_refl]).
  destruct (own_vote (w_engine w2) v) eqn:Hown.
  - assert (node_inv s' n (w_engine w3) ∧ moves e (w_engine w3)) as [Hn3 Hm3]
      by (rewrite (update_vote_leads l2 w2 r3 w3) by (try done; by rewrite ?Hlv2, Hv2); rewrite Hv2;
          by apply (established_node s n e c)).
    assert (sound s') as Hi' by (by eapply step_sound).
    destruct (leader_append_entries _ _) as [[u5 w5]|] eqn:E5; [|done].
    injection Hrun as _ <-. apply (leader_append_refines s' n) in E5; cycle 1; [done| |repeat constructor|done|].
    + apply accept_io_node; [done|]. apply acked_last.
      rewrite (led_by_committed _ _ _ _ Hli2). cbn. apply elem_of_cons. left. f_equal.
      exact (f_equal (λ v, LeaderId_to_committed (Vote_leader_id v)) Hv2).
    + destruct E5 as (s5 & Hst & Hn5 & Hm5). exists s5. split_and!; [by eapply rtc_l|done|].
      eapply moves_compose; [exact Hm3|]. eapply moves_compose; [|exact Hm5]. apply accept_io_moves.
  - exfalso. destruct (update_vote_accepted v w2) as (w4 & E4 & Hva); [unfold local_vote in Hlv2, Hge; by rewrite Hlv2|by rewrite Hown|].
    rewrite E3 in E4. injection E4 as _ <-. destruct Hva as (_ & _ & _ & _ & _ & _ & Hx). rewrite Hown in Hx.
    destruct Hx as (_ & Hx & _). revert Hrun. unfold leader_append_entries. rewrite !M_bind_eq. unfold the_leader. cbn.
    by rewrite Hx.
Qed.
(** A response to a candidate. *)
Lemma handle_vote_resp_refines s n target resp w a w' :
  sound s → node_inv s n (w_engine w) → not_ahead (w_engine w) (VoteResponse_vote resp) →
  told V (VoteResponse_vote resp) →
  (∀ c, Engine_candidate (w_engine w) = Some c → VoteResponse_vote_granted resp = true →
    VoteResponse_vote resp = Candidate_vote c → voted s target (Candidate_vote c) (Candidate_last_log_id c)) →
  (N.of_nat (length (log s n) + 1) < u64_modulus)%N → handle_vote_resp target resp w = Ret (a, w') →
  refines s n (w_engine w) (w_engine w').
Proof.
  intros Hi Hn Hna HV Hg Hroom. unfold handle_vote_resp. rewrite M_bind_eq, get_eq.
  destruct (Engine_candidate (w_engine w)) as [c|] eqn:Ec;
    [|intros [= <- <-]; apply refines_same; [done|apply same_node_refl]].
  destruct (VoteResponse_vote_granted resp && _) eqn:Hgr; [|by apply (handle_rejected_refines m n0 V)].
  apply andb_prop in Hgr as [Hgr Hv]. apply bool_decide_eq_true in Hv. specialize (Hg c eq_refl Hgr Hv).
  pose proof (ni_candidate _ _ _ _ _ Hn c Ec) as Hc. rewrite (ci_vote _ _ _ _ _ Hc), (ci_last _ _ _ _ _ Hc) in Hg.
  destruct (grant_by_wins s n _ c target Hc Hg) as (Hc' & Hw & Hl). destruct (grant_by c target) as [c' q].
  cbn [fst snd] in Hc', Hw, Hl. rewrite M_bind_eq, modify_eq. set (e1 := set_candidate (w_engine w) (Some c')).
  assert (node_inv s n e1) as Hn1 by (destruct Hn; split; try done; by intros ? [= <-]).
  assert (moves (w_engine w) e1) as Hm1.
  { split; [done|apply pleb_refl|by left| |by left]. intros ? [= <-]. left. exists c. split_and!; [done| |done].
    by rewrite (ci_vote _ _ _ _ _ Hc), (ci_vote _ _ _ _ _ Hc'). }
  destruct q; [|intros [= <- <-]; exists s; split_and!; [apply rtc_refl|done|done]].
  intros Hrun. destruct (establish_leader_refines s n c' (mkWorld e1 _ _) _ _ Hi Hn1 eq_refl (Hw eq_refl) Hroom Hrun) as (s' & ? & ? & ?).
  exists s'. split_and!; [done|done|by eapply moves_compose].
Qed.
End replica_lead.
