(* ===== verification/ReplicaFollow.v ===== *)
(** * A follower as a part of the protocol

    The entries of a leader on a node that follows it, and what the node takes
    to be committed: the handlers that make the steps of a follower. *)

From S2P Require Import Prelude Vote LogId LogIdList Quorum Membership VecProgress IOState.
From S2P Require Import MembershipState Entry RaftState Config ProgressEntry Proposer Command.
From S2P Require Import Engine Replication Following LeaderHandler VoteHandler EngineImpl.
From S2P Require Import VoteSafety Cluster Election RaftSpec ReplicaFrame Replica ReplicaLead.

(** ** Logs that match *)

Section matching.
Context {C : RaftTypeConfig} `{!RaftLeaderIdLaws C}.
Implicit Types (s : Spec) (h p q : list LogId) (x : LogId).

Lemma prefix_take_eq {A} (p h : list A) : p `prefix_of` h → take (length p) h = p.
Proof. intros [t ->]. by rewrite take_app_length. Qed.

(** Of two first parts of a log, the shorter is the first part of the other. *)
Lemma prefix_by_length {A} (p q h : list A) :
  p `prefix_of` h → q `prefix_of` h → length p ≤ length q → p `prefix_of` q.
Proof.
  intros Hp Hq Hl. destruct (prefix_weak_total p q h Hp Hq) as [|Hqp]; [done|].
  by rewrite (prefix_length_eq _ _ Hqp Hl).
Qed.

Lemma good_lookup s h i x :
  good s h → h !! i = Some x → LogId_index x = N.of_nat i ∧
    ∃ h', hist s (LogId_leader_id x) = Some h' ∧ take (S i) h `prefix_of` h'.
Proof.
  intros Hg Hi. pose proof (lookup_lt_Some _ _ _ Hi) as Hlt.
  destruct (Hg (take i h) x) as (Hix & h' & Hh & Hp); [rewrite <- take_S_r by done; apply prefix_take|].
  rewrite length_take_le in Hix by lia. split; [done|]. exists h'. by rewrite (take_S_r _ _ _ Hi).
Qed.

(** Two logs with the same log at an index agree before it. *)
Lemma good_match s h h' i x :
  good s h → good s h' → h !! i = Some x → h' !! i = Some x → take (S i) h = take (S i) h'.
Proof.
  intros Hg Hg' Hi Hi'. destruct (good_lookup _ _ _ _ Hg Hi) as (_ & h0 & Hh0 & Hp).
  destruct (good_lookup _ _ _ _ Hg' Hi') as (_ & h1 & Hh1 & Hp'). simplify_eq.
  apply lookup_lt_Some in Hi, Hi'. apply (prefix_length_eq); [|rewrite !length_take; lia].
  apply (prefix_by_length _ _ h0); [done|done|]. rewrite !length_take. lia.
Qed.

(** In a log, log ids are ordered as their places are. *)
Lemma good_ordered s h bi quorum p q x y :
  spec_inv quorum bi s → good s h → p `prefix_of` h → q `prefix_of` h → last p = Some x → last q = Some y →
  x ≼ y → p `prefix_of` q.
Proof.
  intros Hi Hg Hp Hq Hx Hy Hle. apply (prefix_by_length _ _ h); [done|done|].
  destruct (decide (length p ≤ length q)) as [|Hn]; [done|]. exfalso.
  apply last_Some in Hx as [p' ->]. apply last_Some in Hy as [q' ->]. rewrite !length_app in Hn. cbn in Hn.
  destruct (Hg _ _ Hp) as [Hix _], (Hg _ _ Hq) as [Hiy _].
  pose proof (good_leaders quorum _ _ _ _ _ Hi Hg Hp) as Hf.
  assert (q' ++ [y] `prefix_of` p' ++ [x]) as Hqp by (apply (prefix_by_length _ _ h); rewrite ?length_app; cbn; [done..|lia]).
  apply (Forall_prefix _ _ _ Hqp) in Hf. rewrite Forall_app, Forall_singleton in Hf. destruct Hf as [_ Hf].
  assert (y ≺ x) as Hlt; [|ord]. apply LogId_lt_alt.
  destruct (decide (LogId_leader_id y = LogId_leader_id x)) as [E|E]; [right; split; [done|lia]|left].
  by apply ord_le_alt in Hf as [|].
Qed.

Lemma good_last_le s h bi quorum p q :
  spec_inv quorum bi s → good s h → p `prefix_of` q → q `prefix_of` h → last p ≼ last q.
Proof.
  intros Hi Hg Hpq Hq. destruct (last p) as [x|] eqn:Hx; [|apply None_le].
  destruct (last q) as [y|] eqn:Hy; cycle 1.
  { apply last_None in Hy as ->. by apply prefix_nil_inv in Hpq as ->. }
  apply ord_not_lt. intros Hlt. apply (Some_lt (A := LogId)) in Hlt.
  assert (q `prefix_of` p) as Hqp by (eapply (good_ordered s h); [done|done|done|by trans q|done|done|ord]).
  rewrite (prefix_length_eq _ _ Hpq (prefix_length _ _ Hqp)) in Hx. rewrite Hx in Hy. injection Hy as ->.
  by apply ord_lt_irrefl in Hlt.
Qed.

(** The logs of a leader follow each other. *)
Lemma good_follows s h bi quorum p ids :
  spec_inv quorum bi s → good s h → p ++ ids `prefix_of` h → (N.of_nat (length (p ++ ids)) < u64_modulus)%N →
  follows (last p) ids.
Proof.
  intros Hi Hg. revert p. induction ids as [|x ids IH]; intros p Hp Hb; [done|].
  assert (p ++ [x] `prefix_of` h) as Hpx.
  { trans (p ++ x :: ids); [|done]. rewrite (app_assoc p [x] ids : p ++ x :: ids = _). by apply prefix_app_r. }
  destruct (Hg p x Hpx) as [Hix _]. rewrite !length_app in Hb. cbn in Hb.
  assert (next_index (last p) = N.of_nat (length p)) as Hnx.
  { destruct (last p) as [y|] eqn:Hy; [|apply last_None in Hy as ->; done].
    apply last_Some in Hy as [p' ->]. rewrite length_app in *. cbn [length] in *.
    destruct (Hg p' y) as [Hiy _]; [trans ((p' ++ [y]) ++ [x]); [by apply prefix_app_r|done]|].
    rewrite next_index_some by lia. lia. }
  cbn. split_and!; [by rewrite Hnx|lia| |].
  - intros y Hy. apply last_Some in Hy as [p' ->].
    pose proof (good_leaders quorum _ _ _ _ _ Hi Hg Hpx) as Hf. rewrite !Forall_app, !Forall_singleton in Hf. tauto.
  - rewrite <- (last_snoc x p). apply IH; [by rewrite <- app_assoc|]. rewrite !length_app. cbn. lia.
Qed.
End matching.

Section replica_follow.
Context {C : RaftTypeConfig} `{!Env} (m : Membership) (n0 : N) (V : Vote → Prop).
Context `{!RaftLeaderIdLaws C} (Hm : Membership_configs m ≠ []).
Implicit Types (e : Engine) (w : World) (l : Leader) (s : Spec) (n : N) (v : Vote) (b : CommittedLeaderId).

#[local] Abbreviation bi := (initial_ballot n0).
#[local] Abbreviation spec_step := (spec_step (quorum_of m)).
#[local] Abbreviation spec_inv := (spec_inv (quorum_of m) bi).
#[local] Abbreviation node_inv := (node_inv m n0).
#[local] Abbreviation led_by := (led_by n0).
#[local] Abbreviation steps := (steps m).
#[local] Abbreviation sound := (sound m n0).
#[local] Abbreviation moves := (moves V).
#[local] Abbreviation refines := (refines m n0 V).
#[local] Abbreviation moves_compose := (moves_compose V).
#[local] Abbreviation moves_same := (moves_same V).
#[local] Abbreviation moves_frame := (moves_frame V).
#[local] Abbreviation refines_same := (refines_same m n0 V).
#[local] Abbreviation refines_trans := (refines_trans m n0 V).
#[local] Abbreviation refines_step := (refines_step m n0 V).

(** The engine's part of [RaftCore::handle_append_entries_request]. *)
Definition receive_entries (vote : Vote) (segment : LogSegment) (leader_commit : option LogId) (tx : Sender) : M unit :=
  handle_append_entries vote segment tx;;
  e ← get;
  st ← lift (update_committed (Engine_state e) (mkLogIOId (Vote_to_committed vote) leader_commit));
  modify (λ e, set_state e st).

(** The results of requests that the commands of an engine respond with. *)
Definition append_results e : list StreamAppendResult :=
  omap (λ c, match c with Command_Respond _ (Respond_AppendEntries r _) => Some r | _ => None end) (commands e).

(** ** The log of a node *)

Lemma ni_get s n e i :
  node_inv s n e → (LogIdList_first_index (RaftState_log_ids (Engine_state e)) ≤ i + 1)%N →
  get_log_id (Engine_state e) i = log s n !! N.to_nat i.
Proof. intros Hn. eapply logs_get, Hn. Qed.

Lemma ni_get_Some s n e i x : node_inv s n e → get_log_id (Engine_state e) i = Some x → log s n !! N.to_nat i = Some x.
Proof. intros Hn. eapply logs_get_Some, Hn. Qed.

Lemma ni_first s n e :
  node_inv s n e → (LogIdList_first_index (RaftState_log_ids (Engine_state e)) ≤ N.of_nat (length (cmt s n)))%N.
Proof. intros Hn. eapply logs_first, Hn. Qed.

Lemma ni_length s n e : node_inv s n e → (N.of_nat (length (log s n)) < u64_modulus)%N.
Proof. intros Hn. rewrite <- (ni_next m n0 _ _ _ Hn). apply next_index_in. Qed.

(** Logs have their index. *)
Lemma last_index s n q x :
  sound s → q `prefix_of` log s n → last q = Some x → (LogId_index x + 1)%N = N.of_nat (length q).
Proof.
  intros [Hi _] Hq Hx. apply last_Some in Hx as [p ->]. destruct (si_log _ _ _ Hi n p x Hq) as [-> _].
  rewrite length_app. cbn. lia.
Qed.

Lemma ni_committed_log s n e :
  sound s → node_inv s n e →
  cmt s n `prefix_of` log s n ∧ next_index (local_committed (Engine_state e)) = N.of_nat (length (cmt s n)).
Proof.
  intros Hi Hn. assert (cmt s n `prefix_of` log s n) as Hp by apply Hn.
  split; [done|]. rewrite <- (ni_cmt _ _ _ _ _ Hn). destruct (last (cmt s n)) as [x|] eqn:Hx.
  - pose proof (last_index _ _ _ _ Hi Hp Hx). pose proof (prefix_length _ _ Hp). pose proof (ni_length _ _ _ Hn).
    rewrite next_index_some; lia.
  - by apply last_None in Hx as ->.
Qed.

Lemma ni_log_inv s n e : sound s → node_inv s n e → log_inv (Engine_state e).
Proof.
  intros Hi Hn. destruct (ni_committed_log _ _ _ Hi Hn) as [Hp _]. pose proof (ni_logs _ _ _ _ _ Hn) as Hl.
  split; [apply Hn| |].
  - intros c Hc. rewrite <- (ni_cmt _ _ _ _ _ Hn) in Hc. pose proof (last_index _ _ _ _ Hi Hp Hc) as Hix.
    eapply logs_marks; [done| |rewrite Hix; by eapply ni_first]. by exists (cmt s n).
  - destruct (hl_log _ _ _ Hl) as (g & _ & Hg & <- & _). rewrite <- (ni_cmt _ _ _ _ _ Hn).
    eapply (good_last_le s (log s n)); [apply Hi|by apply (si_log _ _ _ (proj1 Hi))|done|done].
Qed.

(** A log that the node does not have is not committed. *)
Lemma not_had_index s n e x :
  sound s → node_inv s n e → has_log_id (Engine_state e) x = false → (N.of_nat (length (cmt s n)) ≤ LogId_index x)%N.
Proof.
  intros Hi Hn Hno. destruct (ni_committed_log _ _ _ Hi Hn) as [_ Hnc]. unfold has_log_id in Hno.
  change (RaftState_committed _) with (local_committed (Engine_state e)) in Hno. rewrite Hnc in Hno.
  destruct (ltb_spec (LogId_index x) (N.of_nat (length (cmt s n)))) as [|Hge]; [done|exact Hge].
Qed.

(** The logs of a leader that a node has. *)
Lemma has_log_prefix s n e h p x :
  sound s → node_inv s n e → good s h → cmt s n `prefix_of` h → p ++ [x] `prefix_of` h →
  has_log_id (Engine_state e) x = true ↔ p ++ [x] `prefix_of` log s n.
Proof.
  intros Hi Hn Hg Hc Hp. destruct (ni_committed_log _ _ _ Hi Hn) as [Hcl Hnc]. destruct (Hg p x Hp) as [Hix _].
  assert (h !! length p = Some x) as Hhx by (eapply prefix_lookup_Some; [by apply list_lookup_middle|done]).
  unfold has_log_id. change (RaftState_committed _) with (local_committed (Engine_state e)). rewrite Hnc.
  change (ref_log_id ?st ?i) with (get_log_id st i). rewrite Hix. pose proof (ni_first _ _ _ Hn).
  destruct (ltb_spec (N.of_nat (length p)) (N.of_nat (length (cmt s n)))) as [Hlt|Hge].
  - rewrite N_ord_lt in Hlt. split; [intros _|done]. trans (cmt s n); [|done].
    apply (prefix_by_length _ _ h); [done|done|]. rewrite length_app. cbn. lia.
  - rewrite N_ord_le in Hge. rewrite (ni_get _ _ _ _ Hn), Nat2N.id by lia. split.
    + destruct (log s n !! length p) as [y|] eqn:Hy; [|done]. intros ->%bool_decide_eq_true.
      pose proof (good_match s _ _ _ _ (si_log _ _ _ (proj1 Hi) n) Hg Hy Hhx) as Heq.
      replace (p ++ [y]) with (take (S (length p)) (log s n)); [apply prefix_take|]. rewrite Heq.
      rewrite <- (prefix_take_eq _ _ Hp), length_app. cbn. f_equal. lia.
    + intros Hpl. rewrite (prefix_lookup_Some _ _ (length p) x (list_lookup_middle _ _ _ _ eq_refl) Hpl).
      by apply bool_decide_eq_true.
Qed.
(** ** What a follower leaves alone *)

Record same_place e e' : Prop := {
  pl_id : Engine_id e' = Engine_id e;
  pl_vote : local_vote e' = local_vote e;
  pl_candidate : Engine_candidate e' = Engine_candidate e;
  pl_leader : Engine_leader e' = Engine_leader e;
  pl_sent : sent_votes e' = sent_votes e;
}.

Record same_role e e' : Prop := {
  sr_place : same_place e e';
  sr_purge : purge_upto (Engine_state e') = purge_upto (Engine_state e);
  sr_snapshot : snapshot_last_log_id (Engine_state e') = snapshot_last_log_id (Engine_state e);
}.

Lemma same_place_refl e : same_place e e.
Proof. by split. Qed.

Lemma same_place_trans e1 e2 e3 : same_place e1 e2 → same_place e2 e3 → same_place e1 e3.
Proof. intros [] []. split; congruence. Qed.

Lemma same_node_place e e' :
  same_node e e' → Engine_leader e' = Engine_leader e → same_place e e'.
Proof. intros [] ?. by split. Qed.

Lemma same_role_refl e : same_role e e.
Proof. by split. Qed.

Lemma same_role_trans e1 e2 e3 : same_role e1 e2 → same_role e2 e3 → same_role e1 e3.
Proof. intros [] []. split; [by eapply same_place_trans|congruence..]. Qed.

Lemma same_role_server_state e : same_role e (update_server_state_if_changed e).
Proof. rewrite update_server_state_eq. by split. Qed.

Lemma same_role_push c e : NoVotes c → same_role e (push c e).
Proof. intros Hc. split; [|done|done]. by apply same_node_place; [apply same_push|]. Qed.

Lemma same_role_accept e io : same_role e (set_state e (accept_log_io (Engine_state e) io).1).
Proof. unfold accept_log_io. cbn [fst]. destruct (pgtb _ _); by split. Qed.

Lemma same_role_truncate since e : same_role e (truncate_logs since e).
Proof.
  unfold truncate_logs. destruct (get_log_id _ _); [|apply same_role_refl].
  set (e1 := set_state e _). set (e2 := push _ e1).
  assert (same_role e e2) as He2 by (apply (same_role_trans _ e1); [by split|by apply same_role_push]).
  destruct (MembershipState_truncate _ _) as [ms o]. set (e3 := set_state e2 _).
  assert (same_role e e3) as He3 by (apply (same_role_trans _ e2); [done|by split]).
  destruct o; [|done]. by eapply same_role_trans, same_role_server_state.
Qed.

Lemma same_role_append cv entries e : same_role e (do_append_entries cv entries e).
Proof.
  unfold do_append_entries. eapply same_role_trans; [|by apply same_role_push].
  unfold FollowingHandler_append_membership. destruct (last_two_memberships entries); [by split|].
  eapply same_role_trans; [|apply same_role_server_state]. by split.
Qed.

Lemma same_role_append_entries cv prev entries e : same_role e (FollowingHandler_append_entries cv prev entries e).
Proof.
  unfold FollowingHandler_append_entries. set (io := IOId_new_log_io cv _).
  pose proof (same_role_accept e io) as Hr. destruct (accept_log_io _ io) as [st prev_accepted]. cbn [fst] in Hr.
  destruct (entries !! _).
  - eapply same_role_trans; [done|]. eapply same_role_trans; [apply same_role_truncate|apply same_role_append].
  - destruct (pleb _ _); [done|]. eapply same_role_trans; [done|by apply same_role_push].
Qed.

(** ** Entries of a leader *)

(** A request with the logs [ids] of a leader, after its log [prev]. *)
Record sent_by s b (prev : option LogId) (p ids h : list LogId) : Prop := {
  sb_hist : hist s b = Some h;
  sb_prefix : p ++ ids `prefix_of` h;
  sb_prev : last p = prev;
  sb_room : (N.of_nat (length (p ++ ids)) < u64_modulus)%N;
}.

Lemma sent_mono s s' b prev p ids h : grows s s' → sent_by s b prev p ids h → ∃ h', sent_by s' b prev p ids h'.
Proof.
  intros [Hle _ _] [Hh Hp ? ?]. destruct (Hle _ _ Hh) as (t & Ht & _). exists (h ++ t). split; try done.
  by apply prefix_app_r.
Qed.

(** A node that has followed [b] takes nothing to be committed that is not in
    the log of [b]. *)
Lemma cmt_follows s n b h :
  sound s → acc s n ≼ b → hist s b = Some h → cmt s n `prefix_of` h.
Proof.
  intros [Hi Hc] Hb Hh. destruct (Hc n) as [->|(b0 & p0 & Hch & Hb0 & Hp0 & _)]; [apply prefix_nil|].
  trans p0; [done|]. eapply (leader_completeness_le _ (quorums_meet m Hm)); [done|done| |done]. ord.
Qed.

Lemma sent_request s n e b prev p ids h :
  sound s → node_inv s n e → acc s n ≼ b → sent_by s b prev p ids h → p `prefix_of` log s n →
  request_ok (Engine_state e) prev ids.
Proof.
  intros Hi Hn Hb [Hh Hp <- Hroom] Hpl. destruct (si_hist _ _ _ (proj1 Hi) _ _ Hh) as (Hg & _).
  pose proof (cmt_follows _ _ _ _ Hi Hb Hh) as Hc. destruct (ni_committed_log _ _ _ Hi Hn) as [Hcl Hnc]. split.
  - eapply good_follows; [apply Hi|done|done|done].
  - intros x Hx. apply last_Some in Hx as [q ->]. eapply (has_log_prefix _ _ _ h); try done.
    trans ((q ++ [x]) ++ ids); [by apply prefix_app_r|done].
  - intros x y Hx Hlt Hget. rewrite Hnc in Hlt. apply (ni_get_Some _ _ _ _ _ Hn) in Hget.
    assert (∃ i, (p ++ ids) !! i = Some x) as [i Hxi].
    { apply list_elem_of_lookup. apply elem_of_app. destruct Hx as [Hx|Hx]; [left; by apply last_Some_elem_of|by right]. }
    pose proof (prefix_lookup_Some _ _ _ _ Hxi Hp) as Hxh. destruct (good_lookup _ _ _ _ Hg Hxh) as [Hix _].
    rewrite Hix, Nat2N.id in Hget.
    assert (i < length (cmt s n)) as Hi' by lia.
    rewrite <- (prefix_lookup_lt _ _ _ Hi' Hcl) in Hget. rewrite <- (prefix_lookup_lt _ _ _ Hi' Hc) in Hxh. congruence.
Qed.

(** The entries before the first one that the node does not have. *)
Lemma local_before s n e b prev p entries h k :
  let ids := Entry_log_id <$> entries in
  sound s → node_inv s n e → acc s n ≼ b → sent_by s b prev p ids h → p `prefix_of` log s n →
  k ≤ first_conflicting_index (Engine_state e) entries → p ++ take k ids `prefix_of` log s n.
Proof.
  intros ids Hi Hn Hb Hs Hp Hk. destruct k as [|k]; [by rewrite take_0, app_nil_r|].
  destruct (first_conflicting_index_spec (Engine_state e) entries) as (Hlen & Hlo & _).
  destruct (lookup_lt_is_Some_2 entries k) as [ent He]; [lia|].
  assert (ids !! k = Some (Entry_log_id ent)) as Hx by (unfold ids; by rewrite list_lookup_fmap, He).
  rewrite (take_S_r _ _ _ Hx), app_assoc. destruct Hs as [Hh Hph _ _].
  eapply (has_log_prefix _ _ _ h); try done; [by apply (si_hist _ _ _ (proj1 Hi) _ _ Hh)|by eapply cmt_follows| |].
  - trans (p ++ ids); [|done]. rewrite <- app_assoc, <- take_S_r by done. apply prefix_app, prefix_take.
  - apply (Hlo k); [lia|done].
Qed.

(** The log of a follower after a request. *)
Lemma appended_log s n e b cv prev p entries h :
  let ids := Entry_log_id <$> entries in
  let e' := FollowingHandler_append_entries cv prev entries e in
  sound s → node_inv s n e → acc s n ≼ b → sent_by s b prev p ids h → p `prefix_of` log s n →
  has_logs (adopt (p ++ ids) (log s n)) (cmt s n) (Engine_state e').
Proof.
  intros ids e' Hi Hn Hb Hs Hp. pose proof (ni_log_inv _ _ _ Hi Hn) as Hinv.
  pose proof (sent_request _ _ _ _ _ _ _ _ Hi Hn Hb Hs Hp) as Hr.
  destruct (append_entries_cases cv prev entries e) as (e1 & Hsl & _ & Hcase). set (st := Engine_state e) in *.
  pose proof (ni_logs _ _ _ _ _ Hn) as Hlogs. pose proof (same_role_append_entries cv prev entries e) as Hrole. fold e' in Hrole.
  destruct (first_conflicting_index_spec st entries) as (Hlen & _ & Hconf).
  pose proof (λ k, local_before _ _ _ _ _ _ _ _ k Hi Hn Hb Hs Hp) as Hbefore. fold st ids in Hbefore.
  destruct (entries !! first_conflicting_index st entries) as [ent|] eqn:He.
  - pose proof (same_log_inv _ _ Hsl Hinv) as Hinv1. pose proof (same_log_request _ _ _ _ Hsl Hr) as Hr1.
    destruct (append_after_conflict cv prev entries ent e1 Hinv1 Hr1)
      as (Hwf & Hpu & Hids & _); [by rewrite (same_log_conflict _ _ _ Hsl)|].
    rewrite (same_log_conflict _ _ _ Hsl), <- Hcase in *. fold e' in Hwf, Hpu, Hids. destruct Hsl as [Hl1 _].
    rewrite Hl1 in Hpu, Hids.
    set (k := first_conflicting_index st entries) in *. pose proof (Hbefore k ltac:(done)) as Hk.
    assert (ids !! k = Some (Entry_log_id ent)) as Hx by (unfold ids; by rewrite list_lookup_fmap, He).
    assert (p ++ take (S k) ids `prefix_of` h) as Hph
      by (trans (p ++ ids); [apply prefix_app, prefix_take|apply Hs]).
    rewrite (take_S_r _ _ _ Hx), app_assoc in Hph.
    destruct (si_hist _ _ _ (proj1 Hi) _ _ (sb_hist _ _ _ _ _ _ Hs)) as (Hg & _). destruct (Hg _ _ Hph) as [Hix _].
    assert (take (N.to_nat (Entry_index ent)) (log s n) = p ++ take k ids) as Htk.
    { unfold Entry_index. rewrite Hix, Nat2N.id. by apply prefix_take_eq. }
    assert (length (cmt s n) ≤ N.to_nat (Entry_index ent)) as Hlc.
    { pose proof (not_had_index _ _ _ _ Hi Hn (Hconf ent eq_refl)). unfold Entry_index. lia. }
    pose proof (logs_replace _ _ _ _ _ _ Hlogs Hlc Hwf Hpu Hids (sr_purge _ _ Hrole) (sr_snapshot _ _ Hrole)) as Hnew.
    fold ids in Hnew. rewrite Htk, <- app_assoc, take_drop in Hnew. unfold adopt. rewrite decide_False; [done|]. intros Hall.
    assert (has_log_id st (Entry_log_id ent) = true) as Hh; [|by rewrite (Hconf ent) in Hh].
    eapply (has_log_prefix _ _ _ h); try done; [by eapply cmt_follows, Hs|]. trans (p ++ ids); [|done].
    rewrite <- app_assoc, <- take_S_r by done. apply prefix_app, prefix_take.
  - destruct Hcase as (Hst & _). fold e' in Hst. destruct Hsl as [Hl1 _]. unfold adopt. rewrite decide_True;
      [eapply has_logs_eq; [exact Hlogs|by rewrite Hst|apply Hrole..]|].
    apply lookup_ge_None in He. specialize (Hbefore (length entries) He). unfold ids in Hbefore.
    by rewrite <- (length_fmap Entry_log_id), firstn_all in Hbefore.
Qed.
(** ** What a follower does with the entries *)

Lemma same_role_moves e e' : same_role e e' → moves e e'.
Proof. intros [[] _ _]. by apply moves_frame. Qed.

(** A follower with another log. *)
Lemma follower_node s s' n e e' :
  node_inv s n e → same_place e e' → Engine_candidate e = None → Engine_leader e = None →
  grows s s' → bal s' n = bal s n → acc s' n = acc s n → grants s' = grants s →
  has_logs (log s' n) (cmt s' n) (Engine_state e') →
  IOState_cluster_committed (RaftState_io_state (Engine_state e')) =
    IOState_cluster_committed (RaftState_io_state (Engine_state e)) →
  last (cmt s' n) = local_committed (Engine_state e') →
  (∀ a, accepted_log_io (Engine_state e') = Some (IOId_Log a) → accepted_log_io (Engine_state e) = Some (IOId_Log a) ∨
    acked s' n (led_by (LogIOId_committed_vote a)) (LogIOId_log_id a)) →
  node_inv s' n e'.
Proof.
  intros [] [Hid Hv Hca Hle _] Hc Hl Hg Hb Ha Hgr Hlogs Hcl Hco Hacc.
  split; rewrite ?Hid, ?Hv, ?Hca, ?Hle, ?Hb, ?Hgr, ?Hcl, ?Hc, ?Hl; try done.
  - unfold acc_inv in *. by rewrite Ha.
  - intros a [Hold|]%Hacc; [|done]. eapply acked_mono; eauto.
  - intros a [? ?]%ni_cluster. split; [done|by eapply commit_ok_mono].
Qed.
(** A leader of [b], which the node follows. *)
Record followed s n e v : Prop := {
  fo_node : node_inv s n e;
  fo_vote : local_vote e = v;
  fo_committed : Vote_is_committed v = true;
  fo_candidate : Engine_candidate e = None;
  fo_leader : Engine_leader e = None;
}.

Lemma followed_bal s n e v : followed s n e v → bal s n = vote_ballot n0 v ∧ acc s n = vote_ballot n0 v.
Proof.
  intros [Hn Hv Hc _ _]. rewrite (ni_bal _ _ _ _ _ Hn), Hv. split; [done|].
  pose proof (ni_acc _ _ _ _ _ Hn) as Ha. unfold acc_inv in Ha. by rewrite Hv, Hc in Ha.
Qed.

(** Logs that are not those of the leader are removed. *)
Lemma conflict_refines s n e v prev p ids h x :
  sound s → followed s n e v → sent_by s (vote_ballot n0 v) prev p ids h → prev = Some x →
  has_log_id (Engine_state e) x = false → refines s n e (truncate_logs (LogId_index x) e).
Proof.
  intros Hi Hf [Hh Hp Hpr Hroom] Hx Hno. destruct (followed_bal _ _ _ _ Hf) as [Hb Ha]. destruct Hf as [Hn Hv Hc Hca Hle].
  destruct (si_hist _ _ _ (proj1 Hi) _ _ Hh) as (Hg & _).
  assert (cmt s n `prefix_of` h) as Hcm by (eapply cmt_follows; [done| |done]; rewrite Ha; apply ord_le_refl).
  rewrite Hx in Hpr. apply last_Some in Hpr as [q ->].
  assert (q ++ [x] `prefix_of` h) as Hq by (trans ((q ++ [x]) ++ ids); [by apply prefix_app_r|done]).
  destruct (Hg q x Hq) as [Hix _].
  destruct (truncate_logs_spec (LogId_index x) e) as (Hwf & Hids & Hpu & Hio & _);
    [apply Hn|pose proof (ni_first _ _ _ Hn); pose proof (not_had_index _ _ _ _ Hi Hn Hno); lia|].
  rewrite <- (app_nil_r (take _ _)) in Hids. pose proof (same_role_truncate (LogId_index x) e) as Hrole.
  pose proof (not_had_index _ _ _ _ Hi Hn Hno) as Hlc.
  pose proof (logs_replace _ _ _ _ (LogId_index x) _ (ni_logs _ _ _ _ _ Hn) ltac:(lia) Hwf Hpu Hids (sr_purge _ _ Hrole) (sr_snapshot _ _ Hrole)) as Hlogs.
  pose proof (spec_truncate (quorum_of m) s n (vote_ballot n0 v) h (take (length q) (log s n))
    ltac:(rewrite Hb; apply ord_le_refl) Hh (prefix_take _ _)) as Hstep.
  eapply refines_step; [apply Hstep| |apply same_role_moves, same_role_truncate].
  - intros r Hr Hrh. apply (prefix_by_length _ _ (log s n)); [done|apply prefix_take|].
    destruct (decide (length r ≤ length q)) as [Hl|Hl].
    { rewrite length_take. pose proof (prefix_length _ _ Hr). lia. }
    exfalso. assert (q ++ [x] `prefix_of` log s n) as Hql.
    { trans r; [|done]. apply (prefix_by_length _ _ h); [done|done|]. rewrite length_app. cbn. lia. }
    by rewrite (proj2 (has_log_prefix _ _ _ _ _ _ Hi Hn Hg Hcm Hq) Hql) in Hno.
  - apply (follower_node s _ n e); try done; [apply Hrole|split; [by apply hist_le_same|done|done]|..];
      cbn; rewrite ?upd_eq; try done.
    + rewrite Hix, Nat2N.id, app_nil_r in Hlogs. rewrite <- Hix in Hlogs. exact Hlogs.
    + by rewrite Hio.
    + rewrite (ni_cmt _ _ _ _ _ Hn). unfold local_committed, apply_progress. by rewrite Hio.
    + unfold accepted_log_io, log_progress. rewrite Hio. by left.
Qed.
(** The last log of a request. *)
Lemma sent_last s b prev p entries h :
  let ids := Entry_log_id <$> entries in
  sound s → sent_by s b prev p ids h →
  omax prev (Entry_log_id <$> last entries) = last (p ++ ids) ∧
  LogSegment_last (mkLogSegment prev entries) = last (p ++ ids).
Proof.
  intros ids Hi [Hh Hp <- _]. destruct (si_hist _ _ _ (proj1 Hi) _ _ Hh) as (Hg & _). unfold LogSegment_last. cbn.
  rewrite <- fmap_last. fold ids. destruct (last entries) as [ent|] eqn:He; cycle 1.
  { apply last_None in He as ->. cbn. unfold ids. cbn. rewrite app_nil_r. split; [|done]. unfold omax. by destruct (last p). }
  assert (last ids = Some (Entry_log_id ent)) as Hl by (unfold ids; by rewrite fmap_last, He). rewrite Hl, last_app, Hl.
  split; [|done]. unfold omax. destruct (last p) as [x|] eqn:Hx; [|done].
  destruct (leb_spec (Some x) (Some (Entry_log_id ent))) as [|Hlt]; [done|]. exfalso.
  apply (Some_lt (A := LogId)) in Hlt.
  assert (p ++ ids `prefix_of` p) as Hpp.
  { eapply (good_ordered s h); [apply Hi|done|done| |by rewrite last_app, Hl|done|ord].
    trans (p ++ ids); [by apply prefix_app_r|done]. }
  apply prefix_length in Hpp. rewrite length_app in Hpp. destruct ids; [done|cbn in Hpp; lia].
Qed.

Lemma entries_refine s n e v prev p entries h :
  let ids := Entry_log_id <$> entries in
  let e' := FollowingHandler_append_entries (Vote_to_committed v) prev entries e in
  sound s → followed s n e v → sent_by s (vote_ballot n0 v) prev p ids h → p `prefix_of` log s n →
  ∃ s', steps s n s' ∧ node_inv s' n e' ∧ moves e e' ∧ acked s' n (vote_ballot n0 v) (last (p ++ ids)).
Proof.
  intros ids e' Hi Hf Hs Hp. destruct (followed_bal _ _ _ _ Hf) as [Hb Ha]. destruct Hf as [Hn Hv Hc Hca Hle].
  assert (acc s n ≼ vote_ballot n0 v) as Hale by (rewrite Ha; apply ord_le_refl).
  pose proof (appended_log s n e _ (Vote_to_committed v) prev p entries h Hi Hn Hale Hs Hp) as Hlogs.
  fold e' ids in Hlogs. destruct (sent_last _ _ _ _ _ _ Hi Hs) as [Hlast _].
  pose proof (append_entries_io (Vote_to_committed v) prev entries e) as Hio. fold e' in Hio. rewrite Hlast in Hio. fold ids in Hio.
  pose proof (spec_accept (quorum_of m) s n (vote_ballot n0 v) h (p ++ ids) ltac:(rewrite Hb; apply ord_le_refl)
    (sb_hist _ _ _ _ _ _ Hs) (sb_prefix _ _ _ _ _ _ Hs)) as Hstep. set (s' := mkSpec _ _ _ _ _ _ _ _ _) in Hstep.
  assert (acked s' n (vote_ballot n0 v) (last (p ++ ids))) as Hack by (apply acked_last; cbn; set_solver).
  exists s'. split_and!; [by apply steps_one| |apply same_role_moves, same_role_append_entries|done].
  apply (follower_node s _ n e); try done; [by apply sr_place, same_role_append_entries|split; [by apply hist_le_same|set_solver|done]|..];
    try (by cbn; rewrite upd_eq).
  - rewrite Hio. unfold accept_log_io. cbn [fst]. by destruct (pgtb _ _).
  - change (cmt s' n) with (cmt s n). rewrite (ni_cmt _ _ _ _ _ Hn). unfold local_committed, apply_progress. rewrite Hio. unfold accept_log_io. cbn [fst]. by destruct (pgtb _ _).
  - unfold accepted_log_io, log_progress. rewrite Hio. unfold accept_log_io. cbn [fst]. destruct (pgtb _ _); [|by left].
    cbn. intros a [= <-]. right. exact Hack.
Qed.
(** A request with entries. *)
Lemma append_entries_refines s n v prev p entries h w r w' :
  let ids := Entry_log_id <$> entries in
  sound s → node_inv s n (w_engine w) → Vote_is_committed v = true → Vote_leader_node_id v ≠ n → V v →
  sent_by s (vote_ballot n0 v) prev p ids h → append_entries v (mkLogSegment prev entries) w = Ret (r, w') →
  ∃ s', steps s n s' ∧ node_inv s' n (w_engine w') ∧ moves (w_engine w) (w_engine w') ∧ vote_ballot n0 v ≼ bal s' n ∧
    match r with
    | Ok last => last = LogSegment_last (mkLogSegment prev entries) ∧ acked s' n (vote_ballot n0 v) last
    | Err _ => True
    end.
Proof.
  intros ids Hi Hn Hc Hne HV Hs. unfold append_entries. rewrite M_bind_eq.
  destruct (update_vote v w) as [[r1 w1]|] eqn:E1; [|done].
  pose proof (update_vote_follows m n0 Hm V _ _ _ _ _ _ _ Hn Hc Hne HV (sb_hist _ _ _ _ _ _ Hs) E1) as Hup.
  destruct r1 as [u|err].
  2:{ destruct Hup as [-> Hrej]. intros [= <- <-]. exists s. split_and!; [apply rtc_refl|done|by apply moves_same, same_node_refl| |done].
    rewrite (ni_bal _ _ _ _ _ Hn). by apply rejected_ballot_le. }
  destruct Hup as ((s1 & Hst1 & Hn1 & Hm1) & Hv1 & Hca1 & Hle1). rewrite M_bind_eq, get_eq.
  change (vote_ref (Engine_state (w_engine w1))) with (local_vote (w_engine w1)). rewrite Hv1.
  pose proof (steps_sound m n0 Hm _ _ _ Hi Hst1) as Hi1. pose proof (steps_grows m n0 Hm _ _ _ Hi Hst1) as Hg1.
  destruct (sent_mono _ _ _ _ _ _ _ Hg1 Hs) as [h1 Hs1].
  assert (followed s1 n (w_engine w1) v) as Hf by done.
  destruct (followed_bal _ _ _ _ Hf) as [Hb1 _]. cbn [LogSegment_prev_log_id LogSegment_entries].
  assert (∀ s2, steps s1 n s2 → node_inv s2 n (w_engine w') → moves (w_engine w1) (w_engine w') → steps s n s2 ∧
    moves (w_engine w) (w_engine w')) as Hcat.
  { intros s2 ? ? ?. split; [unfold Replica.steps in *; by trans s1|by eapply moves_compose]. }
  assert (∀ s2, node_inv s2 n (w_engine w') → moves (w_engine w1) (w_engine w') → vote_ballot n0 v ≼ bal s2 n) as Hbal.
  { intros s2 Hn2 Hm2. rewrite (ni_bal _ _ _ _ _ Hn2), <- Hv1. apply (vote_ballot_le n0). apply Hm2. }
  unfold ensure_log_consecutive. destruct prev as [x|]; [destruct (has_log_id _ x) eqn:Hh; cbn [negb]|].
  2:{ m_steps. intros [= <- <-]. destruct (conflict_refines _ _ _ _ _ _ _ _ _ Hi1 Hf Hs1 eq_refl Hh) as (s2 & Hst2 & Hn2 & Hm2).
    destruct (Hcat s2 Hst2 Hn2 Hm2). exists s2. split_and!; try done. by apply Hbal. }
  all: m_steps; intros [= <- <-]; destruct (entries_refine s1 n (w_engine w1) v _ p entries h1 Hi1 Hf Hs1) as (s2 & Hst2 & Hn2 & Hm2 & Hk).
  - destruct Hs1 as [Hh1 Hp1 Hx _]. apply last_Some in Hx as [q ->].
    destruct (si_hist _ _ _ (proj1 Hi1) _ _ Hh1) as (Hgd & _).
    eapply (has_log_prefix _ _ _ h1); try done; [eapply cmt_follows; [done| |done]|].
    + rewrite (proj2 (followed_bal _ _ _ _ Hf)). apply ord_le_refl.
    + trans ((q ++ [x]) ++ ids); [by apply prefix_app_r|done].
  - destruct (Hcat s2 Hst2 Hn2 Hm2). destruct (sent_last _ _ _ _ _ _ Hi1 Hs1) as [_ Hl]. exists s2. rewrite Hl.
    split_and!; try done. by apply Hbal.
  - destruct Hs1 as [_ _ Hx _]. apply last_None in Hx as ->. apply prefix_nil.
  - destruct (Hcat s2 Hst2 Hn2 Hm2). destruct (sent_last _ _ _ _ _ _ Hi1 Hs1) as [_ Hl]. exists s2. rewrite Hl.
    split_and!; try done. by apply Hbal.
Qed.
(** ** What a node takes to be committed *)

Lemma commit_ok_le s b b' o : b ≼ b' → commit_ok m s b o → commit_ok m s b' o.
Proof.
  intros Hle Hc x (b0 & p0 & q & ? & ? & ? & ?)%Hc. exists b0, p0, q. split_and!; try done. ord.
Qed.

(** A later committed log. *)
Lemma commit_extends s n e q c :
  sound s → node_inv s n e → q `prefix_of` log s n → last q = Some c → local_committed (Engine_state e) ≼ Some c →
  cmt s n `prefix_of` q.
Proof.
  intros Hi Hn Hq Hc Hle. destruct (last (cmt s n)) as [y|] eqn:Hy; [|rewrite last_None in Hy; rewrite Hy; apply prefix_nil].
  eapply (good_ordered s (log s n)); [apply Hi|apply (si_log _ _ _ (proj1 Hi))|apply (ni_logs _ _ _ _ _ Hn)|done..|].
  rewrite <- (ni_cmt _ _ _ _ _ Hn), Hy in Hle. by apply (Some_le (A := LogId)) in Hle.
Qed.

(** The committed position of the cluster. *)
Lemma cluster_node s n e cluster :
  node_inv s n e → led_by (LogIOId_committed_vote cluster) ≼ bal s n →
  commit_ok m s (led_by (LogIOId_committed_vote cluster)) (LogIOId_log_id cluster) →
  node_inv s n (set_state e (set_io_state (Engine_state e)
    (set_cluster_committed (RaftState_io_state (Engine_state e)) (Some cluster)))).
Proof. intros [] Hb Hc. split_node. by intros a [= <-]. Qed.

(** The committed position of the node. *)
Lemma local_node s s' n e c :
  sound s' → node_inv s n e → grows s s' → bal s' n = bal s n → acc s' n = acc s n → grants s' = grants s →
  log s' n = log s n → hist s' = hist s → owner s' = owner s → last (cmt s' n) = Some c →
  cmt s n `prefix_of` cmt s' n →
  node_inv s' n (set_state e (set_membership_state
    (set_io_state (Engine_state e) (set_apply_progress (RaftState_io_state (Engine_state e))
      (IOProgress_accept (apply_progress (Engine_state e)) c)))
    (MembershipState_commit (RaftState_membership_state (Engine_state e)) (Some c)))).
Proof.
  intros [Hi Hci] [] Hg Hb Ha Hgr Hl Hh Ho Hc Hcp. split; try done; cbn; rewrite ?Hb, ?Hgr, ?Hl; try done.
  - assert (cmt s' n `prefix_of` log s n) as Hcl.
    { rewrite <- Hl. destruct (Hci n) as [->|(b & p & _ & _ & _ & ?)]; [apply prefix_nil|done]. }
    by eapply logs_commit.
  - unfold acc_inv in *. by rewrite Ha.
  - intros a Ha'. eapply acked_mono; [done|by apply ni_accepted].
  - intros a [? ?]%ni_cluster. split; [done|by eapply commit_ok_mono].
  - intros c' Hc'. eapply cand_mono; [done|done|by apply ni_candidate].
  - intros l Hl'. specialize (ni_leader l Hl'). eapply lead_mono_inv; [done|done| | |done]; rewrite ?Hh, ?Ho; apply ni_leader.
Qed.

(** What the node calculates is committed. *)
Lemma calculated_commit s n e c :
  sound s → node_inv s n e → calculate_local_committed (RaftState_io_state (Engine_state e)) = Ret (Some c) →
  ∃ b0 p0 b p q, RaftSpec.chosen (quorum_of m) s b0 p0 ∧ mkAck n b p ∈ acks s ∧ b0 ≼ b ∧ q `prefix_of` p0 ∧ q `prefix_of` p ∧
    last q = Some c.
Proof.
  intros Hi Hn Hcalc. destruct (calculate_local_committed_spec _ _ Hcalc) as (cl & ac & Hcl & Hac & Hle & Hle' & Heq & Hv).
  destruct ac as [uv|[cv g]]; [by apply Some_le_None in Hle'|]. cbn in Hle', Heq, Hv.
  destruct (ni_cluster _ _ _ _ _ Hn _ Hcl) as [_ Hok]. pose proof (ni_accepted _ _ _ _ _ Hn _ Hac) as Hack. cbn in Hack.
  destruct (LogIOId_log_id cl) as [o|] eqn:Ho; [|by apply Some_le_None in Hle].
  destruct g as [g|]; [|by apply Some_le_None in Hle'].
  destruct (Hok o eq_refl) as (b0 & p0 & q & Hch & Hb0 & Hq & Hlq), (Hack g eq_refl) as (p & p' & Hpp & Hp & Hlp).
  assert (led_by (LogIOId_committed_vote cl) ≼ led_by cv) as Hbb.
  { exact (vote_ballot_le n0 (CommittedVote_into_vote (LogIOId_committed_vote cl)) (CommittedVote_into_vote cv) Hv). }
  destruct (si_ack _ _ _ (proj1 Hi) _ _ _ Hp) as (_ & h & Hh & Hph & _).
  destruct (si_hist _ _ _ (proj1 Hi) _ _ Hh) as (Hg & _).
  assert (b0 ≼ led_by cv) as Hb by ord.
  assert (q `prefix_of` h) as Hqh.
  { trans p0; [done|]. eapply (leader_completeness_le _ (quorums_meet m Hm)); [apply Hi|done|exact Hb|done]. }
  assert (p `prefix_of` h) as Hpl by (by trans p').
  exists b0, p0, (led_by cv), p'. destruct Heq as [[= ->]|[= ->]].
  - exists q. split_and!; try done. trans p; [|done]. eapply (good_ordered s h); [apply Hi|done|done|done|done|done|].
    by apply (Some_le (A := LogId)) in Hle'.
  - exists p. split_and!; try done. trans q; [|done]. eapply (good_ordered s h); [apply Hi|done|done|done|done|done|].
    by apply (Some_le (A := LogId)) in Hle.
Qed.

Lemma set_state_moves e st : vote_ref st = vote_ref (Engine_state e) → moves e (set_state e st).
Proof. intros Hv. by apply moves_frame. Qed.

Lemma update_committed_refines s n e cluster st' :
  sound s → node_inv s n e → led_by (LogIOId_committed_vote cluster) ≼ bal s n →
  commit_ok m s (led_by (LogIOId_committed_vote cluster)) (LogIOId_log_id cluster) →
  update_committed (Engine_state e) cluster = Ret st' → refines s n e (set_state e st').
Proof.
  intros Hi Hn Hb Hc. unfold update_committed. destruct (MonotonicIncrease_try_update _ _) as [r|] eqn:Er; [|done].
  cbn [mbind outcome_bind].
  set (st1 := match r with Ok v => _ | Err _ => _ end).
  assert (node_inv s n (set_state e st1)) as Hn1.
  { unfold st1. destruct r as [o|o]; [|by destruct e].
    assert (o = Some cluster) as ->; [|by apply cluster_node].
    unfold MonotonicIncrease_try_update, MonotonicIncrease_try_update_option in Er.
    destruct (opt_LogIOId_gt _ _) as [[]|]; [|done..]. by injection Er. }
  destruct (calculate_local_committed (RaftState_io_state st1)) as [o|] eqn:Eo; [|done].
  assert (vote_ref st1 = vote_ref (Engine_state e)) as Hv1 by (unfold st1; by destruct r).
  assert (refines s n e (set_state e st1)) as Hst1
    by (exists s; split_and!; [apply rtc_refl|done|by apply set_state_moves]).
  intros [= <-]. destruct o as [c|]; [|done]. cbn [update_local_committed].
  destruct (ltb_spec (local_committed st1) (Some c)) as [Hlt|]; [|done].
  destruct (calculated_commit s n (set_state e st1) c Hi Hn1 Eo) as (b0 & p0 & b & p & q & H1 & H2 & H3 & H4 & H5 & H6).
  assert (q `prefix_of` log s n) as Hq by by eapply (commit_log _ (quorums_meet m Hm)); [apply Hi|..].
  assert (cmt s n `prefix_of` q) as Hcq by (apply (commit_extends s n _ q c Hi Hn1); [done|done|by apply ord_lt_le]).
  pose proof (spec_commit _ s n b0 p0 b p q H1 H2 H3 H4 H5 Hcq) as Hstep.
  eapply refines_step; [exact Hstep| |by apply set_state_moves].
  apply (local_node s _ n (set_state e st1) c); try done; [by eapply step_sound|split; [by apply hist_le_same|done|done]| |].
  all: cbn; by rewrite upd_eq.
Qed.
Lemma receive_entries_refines s n v prev p entries leader_commit tx h w a w' :
  let ids := Entry_log_id <$> entries in
  sound s → node_inv s n (w_engine w) → Vote_is_committed v = true → Vote_leader_node_id v ≠ n → V v →
  sent_by s (vote_ballot n0 v) prev p ids h → commit_ok m s (vote_ballot n0 v) leader_commit →
  receive_entries v (mkLogSegment prev entries) leader_commit tx w = Ret (a, w') →
  ∃ s', steps s n s' ∧ node_inv s' n (w_engine w') ∧ moves (w_engine w) (w_engine w') ∧
    ∃ r, last (append_results (w_engine w')) = Some r ∧ ∀ o, r = Ok o →
      o = LogSegment_last (mkLogSegment prev entries) ∧ acked s' n (vote_ballot n0 v) o.
Proof.
  intros ids Hi Hn Hc Hne HV Hs Hok. unfold receive_entries, handle_append_entries. rewrite !M_bind_eq.
  destruct (append_entries v _ w) as [[r w1]|] eqn:E1; [|done].
  destruct (append_entries_refines _ _ _ _ _ _ _ _ _ _ Hi Hn Hc Hne HV Hs E1) as (s1 & Hst1 & Hn1 & Hm1 & Hb1 & Hr).
  set (sr := match r with Ok last => Ok last | Err err => Err (StreamAppendError_from err) end : StreamAppendResult).
  rewrite M_bind_eq, gets_eq, M_bind_eq.
  destruct (if is_ok sr then _ else _) as [cond|]; [|done]. rewrite lift_Ret, modify_eq, M_bind_eq, get_eq, M_bind_eq. cbn [w_engine].
  pose proof (steps_sound m n0 Hm _ _ _ Hi Hst1) as Hi1. pose proof (steps_grows m n0 Hm _ _ _ Hi Hst1) as Hg1.
  set (e2 := push _ (w_engine w1)).
  assert (same_node (w_engine w1) e2) as Hs2 by (by apply same_push).
  destruct (update_committed (Engine_state e2) _) as [st|] eqn:E2; [|done]. rewrite lift_Ret, modify_eq. intros [= <- <-]. cbn [w_engine].
  apply (update_committed_refines s1 n e2 _ st Hi1) in E2 as (s2 & Hst2 & Hn2 & Hm2);
    [|by eapply node_inv_same|exact Hb1|by eapply commit_ok_mono].
  exists s2. split_and!; [unfold Replica.steps in *; by trans s1|done|
    eapply moves_compose; [exact Hm1|eapply moves_compose; [by apply moves_same|done]]|].
  exists sr. split.
  { unfold append_results, e2, commands. cbn. by rewrite omap_app, last_app. }
  intros o Ho. unfold sr in Ho. destruct r as [o'|]; [|done]. injection Ho as <-. destruct Hr as [Hl Hk]. split; [done|].
  eapply acked_mono; [|done]. by eapply (steps_grows m n0 Hm).
Qed.
End replica_follow.
