(* ===== verification/ReplicaSnapshot.v ===== *)
(** * Snapshots and purged logs as a part of the protocol

    A node purges logs that its snapshot covers, and a snapshot stands for the
    logs up to its last one: to install it is to accept those logs from the
    leader and to take them to be committed. *)

From S2P Require Import Prelude Vote LogId LogIdList Quorum Membership VecProgress IOState.
From S2P Require Import MembershipState Entry RaftState Config ProgressEntry Proposer Command.
From S2P Require Import Engine Replication Following LeaderHandler VoteHandler EngineImpl.
From S2P Require Import VoteSafety Cluster Election RaftSpec ReplicaFrame Replica ReplicaLead ReplicaFollow.

Section replica_snapshot.
Context {C : RaftTypeConfig} `{!Env} (m : Membership) (n0 : N) (V : Vote → Prop).
Context `{!RaftLeaderIdLaws C} (Hm : Membership_configs m ≠ []).
Implicit Types (e : Engine) (w : World) (s : Spec) (n : N) (v : Vote) (b : CommittedLeaderId).

#[local] Abbreviation node_inv := (node_inv m n0).
#[local] Abbreviation led_by := (led_by n0).
#[local] Abbreviation steps := (steps m).
#[local] Abbreviation sound := (sound m n0).
#[local] Abbreviation moves := (moves V).
#[local] Abbreviation refines := (refines m n0 V).
#[local] Abbreviation moves_compose := (moves_compose V).
#[local] Abbreviation moves_same := (moves_same V).
#[local] Abbreviation moves_frame := (moves_frame V).
#[local] Abbreviation refines_same := (refines_same m n0 V).

(** ** Logs that a snapshot covers *)

(** A committed log that the node has not purged. *)
Lemma committed_marks s n e x :
  sound s → node_inv s n e → get_log_id (Engine_state e) (LogId_index x) = Some x →
  (LogId_index x < N.of_nat (length (cmt s n)))%N → marks (cmt s n) x.
Proof.
  intros Hi Hn Hx Hlt. apply (ni_get_Some m n0 _ _ _ _ _ Hn) in Hx. destruct (ni_committed_log m n0 _ _ _ Hi Hn) as [Hc _].
  assert (N.to_nat (LogId_index x) < length (cmt s n)) as Hlt' by lia. rewrite <- (prefix_lookup_lt _ _ _ Hlt' Hc) in Hx.
  exists (take (S (N.to_nat (LogId_index x))) (cmt s n)). split_and!; [apply prefix_take|by rewrite (take_S_r _ _ _ Hx), last_snoc|].
  rewrite length_take. lia.
Qed.

Lemma le_marks s n e x :
  sound s → node_inv s n e → get_log_id (Engine_state e) (LogId_index x) = Some x →
  Some x ≼ local_committed (Engine_state e) → marks (cmt s n) x.
Proof.
  intros Hi Hn Hx Hle. apply (ni_get_Some m n0 _ _ _ _ _ Hn) in Hx. pose proof (lookup_lt_Some _ _ _ Hx).
  set (q := take (S (N.to_nat (LogId_index x))) (log s n)).
  assert (last q = Some x) as Hq by (unfold q; by rewrite (take_S_r _ _ _ Hx), last_snoc).
  rewrite <- (ni_cmt _ _ _ _ _ Hn) in Hle. destruct (last (cmt s n)) as [y|] eqn:Hy; [|by apply Some_le_None in Hle].
  exists q. split_and!; [|done|unfold q; rewrite length_take; lia].
  eapply (good_ordered s (log s n)); [apply Hi|apply (si_log _ _ _ (proj1 Hi))|apply prefix_take| |done|done|].
  - by destruct (ni_committed_log m n0 _ _ _ Hi Hn).
  - by apply (Some_le (A := LogId)) in Hle.
Qed.

Lemma marks_le s n e x :
  sound s → node_inv s n e → marks (cmt s n) x →
  (LogId_index x < N.of_nat (length (cmt s n)))%N ∧ Some x ≼ local_committed (Engine_state e).
Proof.
  intros Hi Hn (q & Hq & Hx & Hix). pose proof (prefix_length _ _ Hq). split; [lia|].
  rewrite <- (ni_cmt _ _ _ _ _ Hn), <- Hx. eapply (good_last_le s (log s n)); [apply Hi|by apply (si_log _ _ _ (proj1 Hi))|done|].
  by destruct (ni_committed_log m n0 _ _ _ Hi Hn).
Qed.

(** What is chosen up to the committed log of a node is committed by it. *)
Lemma chosen_marks s n e b0 p0 q x :
  sound s → node_inv s n e → RaftSpec.chosen (quorum_of m) s b0 p0 → q `prefix_of` p0 → last q = Some x →
  Some x ≼ local_committed (Engine_state e) → marks (cmt s n) x ∧ q `prefix_of` cmt s n.
Proof.
  intros Hi Hn Hch Hq Hx Hle. rewrite <- (ni_cmt _ _ _ _ _ Hn) in Hle.
  destruct (last (cmt s n)) as [y|] eqn:Hy; [|by apply Some_le_None in Hle]. apply (Some_le (A := LogId)) in Hle.
  destruct (proj2 Hi n) as [Hnil|(b1 & p1 & Hch1 & _ & Hc1 & _)]; [by rewrite Hnil in Hy|].
  assert (∃ h, good s h ∧ p0 `prefix_of` h ∧ p1 `prefix_of` h) as (h & Hg & H0 & H1).
  { pose proof Hch as (h & _ & _ & Hh & Hph & _). pose proof Hch1 as (h1 & _ & _ & Hh1 & Hph1 & _).
    destruct (ord_total b0 b1) as [Hb|Hb].
    - exists h1. split_and!; [by apply (si_hist _ _ _ (proj1 Hi) _ _ Hh1)| |done].
      eapply (leader_completeness_le _ (quorums_meet m Hm)); [apply Hi|done..].
    - exists h. split_and!; [by apply (si_hist _ _ _ (proj1 Hi) _ _ Hh)|done|].
      eapply (leader_completeness_le _ (quorums_meet m Hm)); [apply Hi|done..]. }
  assert (q `prefix_of` cmt s n) as Hqc.
  { eapply (good_ordered s h); [apply Hi|done|by trans p0|by trans p1|done|done|done]. }
  split; [|done]. exists q. split_and!; [done|done|]. eapply (last_index m n0 s n); [done| |done].
  trans (cmt s n); [done|]. by destruct (ni_committed_log m n0 _ _ _ Hi Hn).
Qed.

(** ** Purging *)

(** Another purge point or snapshot. *)
Lemma marked_node s n e e' :
  node_inv s n e → same_place e e' → RaftState_log_ids (Engine_state e') = RaftState_log_ids (Engine_state e) →
  (∀ x, purge_upto (Engine_state e') = Some x → marks (cmt s n) x) →
  (∀ x, snapshot_last_log_id (Engine_state e') = Some x → marks (cmt s n) x) →
  IOState_cluster_committed (RaftState_io_state (Engine_state e')) =
    IOState_cluster_committed (RaftState_io_state (Engine_state e)) →
  local_committed (Engine_state e') = local_committed (Engine_state e) →
  accepted_log_io (Engine_state e') = accepted_log_io (Engine_state e) →
  node_inv s n e' ∧ moves e e'.
Proof.
  intros [] [Hid Hv Hca Hle Hse] Hl Hp Hs Hcl Hco Hac. split; [|by apply moves_frame].
  split; rewrite ?Hid, ?Hv, ?Hca, ?Hle, ?Hcl, ?Hco, ?Hac; try done.
  destruct ni_logs. split; unfold last_purged_log_id in *; by rewrite ?Hl.
Qed.

#[local] Instance same_engine_try_purge_log : SameNode Engine_try_purge_log.
Proof. unfold Engine_try_purge_log. apply same_bind; [apply _|]. intros e. destruct (Engine_leader e); apply _. Qed.

Lemma trigger_purge_log_refines s n index w a w' :
  sound s → node_inv s n (w_engine w) → trigger_purge_log index w = Ret (a, w') → refines s n (w_engine w) (w_engine w').
Proof.
  intros Hi Hn. unfold trigger_purge_log. rewrite M_bind_eq, get_eq.
  destruct (snapshot_last_log_id _) as [x|] eqn:Hx; [|intros [= <- <-]; by apply refines_same, same_node_refl].
  destruct (index <? _); [intros [= <- <-]; by apply refines_same, same_node_refl|]. rewrite M_bind_eq.
  set (i := if (index >? _) then _ else _). destruct (get_log_id _ i) as [y|] eqn:Hy; [|done]. cbn [unwrap]. m_steps.
  destruct (marks_le s n _ x Hi Hn) as [Hlt _]; [by apply (hl_snapshot _ _ _ (ni_logs _ _ _ _ _ Hn))|].
  pose proof (LogIdList_get_index _ _ _ (hl_wf _ _ _ (ni_logs _ _ _ _ _ Hn)) Hy) as Hyi.
  assert (marks (cmt s n) y) as Hmy.
  { apply (committed_marks s n (w_engine w)); [done|done|by rewrite Hyi|]. rewrite Hyi. unfold i.
    destruct (ltb_spec (LogId_index x) index) as [_|Hle]; [done|]. rewrite N_ord_le in Hle. lia. }
  destruct (marked_node s n (w_engine w) (update_purge_upto (w_engine w) y)) as [Hn1 Hm1]; try done.
  { by intros ? [= <-]. } { apply Hn. }
  intros Hrun. apply same_run in Hrun. cbn [w_engine] in Hrun. exists s. split_and!; [apply rtc_refl|by eapply node_inv_same|].
  eapply moves_compose; [exact Hm1|by apply moves_same].
Qed.

(** The policy purges what the snapshot covers. *)
Lemma calc_purge_marks s n e x :
  sound s → node_inv s n e → calc_purge_upto e = Some x → marks (cmt s n) x.
Proof.
  intros Hi Hn. pose proof (ni_logs _ _ _ _ _ Hn) as Hl. unfold calc_purge_upto. destruct (_ >? _); [done|].
  set (pend := u64_saturating_sub _ _). intros Hx. pose proof (LogIdList_get_index _ _ _ (hl_wf _ _ _ Hl) Hx) as Hix.
  change (ref_log_id ?st ?i) with (get_log_id st i) in Hx. rewrite <- Hix in Hx.
  apply (committed_marks s n e); [done|done|done|].
  destruct (LogIdList_get_bounds _ _ _ (hl_wf _ _ _ Hl) Hx) as [_ Hub].
  pose proof (next_index_in (LogIdList_last (RaftState_log_ids (Engine_state e)))) as Hin. unfold in_u64 in Hin.
  rewrite Hix in *. unfold u64_saturating_sub in pend.
  destruct (decide (pend = 0%N)) as [Hz|Hz]; [rewrite Hz in Hub; vm_compute (u64_sub 0 1) in Hub; unfold u64_modulus in Hin; lia|].
  destruct (snapshot_last_log_id (Engine_state e)) as [y|] eqn:Hy; [|by destruct Hz].
  destruct (marks_le s n e y Hi Hn) as [Hlt _]; [by apply (hl_snapshot _ _ _ Hl)|].
  pose proof (ni_length m n0 _ _ _ Hn). destruct (ni_committed_log m n0 _ _ _ Hi Hn) as [Hc%prefix_length _].
  assert (next_index (Some y) = LogId_index y + 1)%N as Hny by (apply next_index_some; lia).
  unfold pend in *. rewrite Hny in *. rewrite u64_sub_small by (unfold in_u64; lia). lia.
Qed.

Lemma snapshot_built_refines s n meta w a w' :
  sound s → node_inv s n (w_engine w) →
  (∀ mt x, meta = Some mt → SnapshotMeta_last_log_id mt = Some x → marks (cmt s n) x) →
  on_building_snapshot_done meta w = Ret (a, w') → refines s n (w_engine w) (w_engine w').
Proof.
  intros Hi Hn Hmk. unfold on_building_snapshot_done. m_steps. pose proof (ni_logs _ _ _ _ _ Hn) as Hl.
  set (e1 := set_state (w_engine w) _).
  destruct (marked_node s n (w_engine w) e1) as [Hn1 Hm1]; try done; [apply Hl|apply Hl|].
  destruct meta as [mt|]; [|intros [= <- <-]; exists s; by split_and!; [apply rtc_refl|..]]. m_steps.
  set (e2 := match SnapshotMeta_last_log_id mt with Some _ => _ | None => e1 end).
  destruct (marked_node s n e1 e2) as [Hn2 Hm2]; try (unfold e2; by destruct (SnapshotMeta_last_log_id mt)).
  { unfold e2. destruct (SnapshotMeta_last_log_id mt); apply Hl. }
  { unfold e2. destruct (SnapshotMeta_last_log_id mt); apply Hl. }
  unfold update_snapshot. destruct (_ <=? _); m_steps.
  { cbn [negb]. intros [= <- <-]. exists s. split_and!; [apply rtc_refl|done|by eapply moves_compose]. }
  set (e3 := set_state e2 _). pose proof (ni_logs _ _ _ _ _ Hn2) as Hl2.
  destruct (marked_node s n e2 e3) as [Hn3 Hm3]; try done; [apply Hl2|by intros x Hx; eapply Hmk|].
  assert (∃ e4, e4 = schedule_policy_based_purge e3 ∧ node_inv s n e4 ∧ moves e3 e4) as (e4 & He4 & Hn4 & Hm4).
  { exists (schedule_policy_based_purge e3). split; [done|]. unfold schedule_policy_based_purge.
    destruct (calc_purge_upto e3) as [x|] eqn:Hx; [|split; [done|by apply moves_same, same_node_refl]].
    apply (marked_node s n e3); try done; [|apply (ni_logs _ _ _ _ _ Hn3)].
    intros y [= <-]. by eapply calc_purge_marks. }
  cbn [negb]. m_steps. rewrite <- He4. intros Hrun. apply same_run in Hrun. cbn [w_engine] in Hrun.
  exists s. split_and!; [apply rtc_refl|by eapply node_inv_same|].
  eapply moves_compose; [exact Hm1|]. eapply moves_compose; [exact Hm2|]. eapply moves_compose; [exact Hm3|].
  eapply moves_compose; [exact Hm4|by apply moves_same].
Qed.

(** ** Installing a snapshot *)

(** What an installation does to the rest of the engine. *)
Record installed cv (id : LogId) e e' : Prop := {
  ins_place : same_place e e';
  ins_cluster : IOState_cluster_committed (RaftState_io_state (Engine_state e')) =
    IOState_cluster_committed (RaftState_io_state (Engine_state e));
  ins_accepted : ∀ a, accepted_log_io (Engine_state e') = Some a →
    accepted_log_io (Engine_state e) = Some a ∨ a = IOId_new_log_io cv (Some id);
}.

Lemma purge_log_leader e : Engine_leader (LogHandler_purge_log e) = Engine_leader e.
Proof. unfold LogHandler_purge_log. destruct (_ <=? _); [done|]. by destruct (purge_upto _). Qed.

Lemma install_full_snapshot_rest cv snapshot id e cond e' :
  SnapshotMeta_last_log_id (Snapshot_meta snapshot) = Some id →
  install_full_snapshot cv snapshot e = Ret (cond, e') → installed cv id e e'.
Proof.
  intros Hid. unfold install_full_snapshot. rewrite Hid.
  assert (installed cv id e e) as Hrefl by (split; [apply same_place_refl|done|by left]).
  destruct (_ <=? _); [by intros [= <- <-]|]. cbn [unwrap mbind outcome_bind].
  destruct (LogId_leader_id id <=? _); [|done]. cbn [assert mbind outcome_bind].
  destruct (match local_committed _ with Some _ => _ | None => true end); [|done]. cbn [assert mbind outcome_bind].
  unfold update_snapshot. destruct (_ <=? _); [by intros [= <- <-]|]. cbn [negb].
  set (e0 := set_state e _). set (e1 := match get_log_id _ _ with Some _ => _ | None => e0 end).
  assert (same_place e e1 ∧ RaftState_io_state (Engine_state e1) = RaftState_io_state (Engine_state e)) as [Hp1 Hio1].
  { unfold e1. destruct (get_log_id _ _) as [y|]; [|done]. destruct (decide (y ≠ id)); [|done].
    split; [|by rewrite truncate_logs_io]. eapply same_place_trans; [|by eapply sr_place, same_role_truncate]. done. }
  intros [= <- <-]. set (e2 := update_purge_upto _ id).
  assert (same_place e1 e2) as Hp2.
  { unfold e2. rewrite membership_install_snapshot_frame. split; try done; cbn.
    - unfold local_vote. cbn. unfold accept_snapshot_io, accept_log_io. cbn. by destruct (pgtb _ _).
    - unfold sent_votes, commands. cbn. rewrite omap_app. cbn. by rewrite app_nil_r. }
  assert (RaftState_io_state (Engine_state e2) =
    RaftState_io_state (accept_snapshot_io (mkLogIOId cv (Some id)) id (Engine_state e1))) as Hio2.
  { unfold e2. by rewrite membership_install_snapshot_frame. }
  pose proof (same_purge_log e2) as Hs. split.
  - eapply same_place_trans; [exact Hp1|]. eapply same_place_trans; [exact Hp2|]. apply same_node_place; [done|apply purge_log_leader].
  - rewrite (sn_cluster _ _ Hs), Hio2, <- Hio1. unfold accept_snapshot_io, accept_log_io. cbn. by destruct (pgtb _ _).
  - rewrite (sn_accepted _ _ Hs). unfold accepted_log_io, log_progress. rewrite Hio2, <- Hio1.
    unfold accept_snapshot_io, accept_log_io. cbn. destruct (pgtb _ _); cbn; [|by left]. intros a [= <-]. by right.
Qed.

(** The logs after an installation. *)
Lemma installed_logs s n e e' h q id :
  sound s → node_inv s n e → good s h → q `prefix_of` h → last q = Some id → cmt s n `prefix_of` q →
  log_inv (Engine_state e') → last_purged_log_id (Engine_state e') = Some id →
  purge_upto (Engine_state e') = Some id → snapshot_last_log_id (Engine_state e') = Some id →
  LogIdList_ids (RaftState_log_ids (Engine_state e')) =
    (if decide (get_log_id (Engine_state e) (LogId_index id) = Some id)
     then drop (N.to_nat (LogId_index id + 1 - LogIdList_first_index (RaftState_log_ids (Engine_state e))))
            (LogIdList_ids (RaftState_log_ids (Engine_state e))) else []) →
  has_logs (adopt q (log s n)) q (Engine_state e').
Proof.
  intros Hi Hn Hg Hq Hlast Hcq Hinv Hpurged Hpu Hsn Hids. pose proof (ni_logs _ _ _ _ _ Hn) as Hl.
  assert (LogId_index id + 1 = N.of_nat (length q))%N as Hix.
  { apply last_Some in Hlast as [p ->]. destruct (Hg p id Hq) as [-> _]. rewrite length_app. cbn. lia. }
  assert (marks q id) as Hmk by by exists q. pose proof (prefix_length _ _ Hcq) as Hlen. pose proof (ni_first m n0 _ _ _ Hn) as Hf.
  pose proof (log_inv_wf _ Hinv) as Hwf.
  assert (LogIdList_first_index (RaftState_log_ids (Engine_state e')) = N.of_nat (length q)) as Hf'.
  { rewrite (first_index_purged _ Hwf). unfold last_purged_log_id in Hpurged. by rewrite Hpurged. }
  assert (get_log_id (Engine_state e) (LogId_index id) = Some id ↔ q `prefix_of` log s n) as Hhas.
  { rewrite (ni_get m n0 _ _ _ _ Hn) by lia. rewrite last_lookup in Hlast.
    replace (N.to_nat (LogId_index id)) with (pred (length q)) by lia. split; [|by apply prefix_lookup_Some].
    intros Hx. pose proof (prefix_lookup_Some _ _ _ _ Hlast Hq) as Hy.
    pose proof (good_match s _ _ _ _ (si_log _ _ _ (proj1 Hi) n) Hg Hx Hy) as Heq.
    replace (S (pred (length q))) with (length q) in Heq by lia. rewrite (prefix_take_eq _ _ Hq) in Heq. rewrite <- Heq. apply prefix_take. }
  split; [done| |apply adopt_spec|by rewrite Hpu; intros ? [= <-]|by rewrite Hsn; intros ? [= <-]].
  exists q. split_and!; [|done|by rewrite Hpurged|done]. rewrite Hids. unfold adopt.
  destruct (decide (q `prefix_of` log s n)) as [Hp|Hp]; [rewrite decide_True by by apply Hhas|rewrite decide_False by by rewrite Hhas].
  - destruct (hl_log _ _ _ Hl) as (g & Hlg & Hgc & _ & Hfg). pose proof (prefix_length _ _ Hgc).
    rewrite <- (take_drop (length q) (log s n)), (prefix_take_eq _ _ Hp). f_equal.
    rewrite Hlg, drop_app_ge by lia. f_equal. lia.
  - by rewrite app_nil_r.
Qed.

Lemma install_refines s n e v snapshot h cond e' :
  let b := vote_ballot n0 v in
  let o := SnapshotMeta_last_log_id (Snapshot_meta snapshot) in
  sound s → followed m n0 s n e v → hist s b = Some h → commit_ok m s b o →
  (∀ id, o = Some id → (LogId_index id + 1 < u64_modulus)%N) →
  install_full_snapshot (Vote_to_committed v) snapshot e = Ret (cond, e') →
  ∃ s', steps s n s' ∧ node_inv s' n e' ∧ moves e e' ∧ acked s' n b o.
Proof.
  intros b o Hi Hf Hh Hok Hroom Hrun. destruct (followed_bal m n0 _ _ _ _ Hf) as [Hb Ha]. destruct Hf as [Hn Hv Hc Hca Hle].
  destruct o as [id|] eqn:Hid; unfold o in Hid; cycle 1.
  { exists s. rewrite (proj1 (install_full_snapshot_refuses (Vote_to_committed v) snapshot e)) in Hrun by (rewrite Hid; apply None_le).
    injection Hrun as _ <-. split_and!; [apply rtc_refl|done|by apply moves_same, same_node_refl|done]. }
  destruct (Hok id eq_refl) as (b0 & p0 & q & Hch & Hb0 & Hq0 & Hlast).
  destruct (si_hist _ _ _ (proj1 Hi) _ _ Hh) as (Hg & Hfl & _).
  assert (q `prefix_of` h) as Hq.
  { trans p0; [done|]. eapply (leader_completeness_le _ (quorums_meet m Hm)); [apply Hi|done|exact Hb0|done]. }
  pose proof (spec_accept (quorum_of m) s n b h q ltac:(rewrite Hb; apply ord_le_refl) Hh Hq) as Hstep.
  set (s1 := mkSpec _ _ _ _ _ _ _ _ _) in Hstep.
  assert (mkAck n b q ∈ acks s1) as Hin by (cbn; set_solver).
  assert (acked s1 n b (Some id)) as Hack by (rewrite <- Hlast; by apply acked_last).
  assert (grows s s1) as Hg1 by (split; [by apply hist_le_same|set_solver|done]).
  assert (cmt s n `prefix_of` h) as Hcm by (apply (cmt_follows m n0 Hm s n b); [done|rewrite Ha; apply ord_le_refl|done]).
  destruct (leb_spec (Some id) (local_committed (Engine_state e))) as [Hold|Hlt].
  - rewrite (proj1 (install_full_snapshot_refuses (Vote_to_committed v) snapshot e)) in Hrun by by rewrite Hid.
    injection Hrun as _ <-. destruct (chosen_marks s n e b0 p0 q id Hi Hn Hch Hq0 Hlast Hold) as [_ Hqc].
    exists s1. split_and!; [by apply steps_one| |by apply moves_same, same_node_refl|done].
    assert (log s1 n = log s n) as Hlog.
    { cbn. rewrite upd_eq. unfold adopt. rewrite decide_True; [done|]. trans (cmt s n); [done|apply Hn]. }
    apply (follower_node m n0 s _ n e); try done; [cbn; rewrite upd_eq; by rewrite Hb|cbn; rewrite upd_eq; by rewrite Ha|rewrite Hlog; apply Hn|apply Hn|by left].
  - destruct (install_full_snapshot_rest _ _ _ _ _ _ Hid Hrun) as [Hpl Hcl Hac].
    pose proof (install_full_snapshot_refuses (Vote_to_committed v) snapshot e) as [_ Hpanic]. rewrite Hrun, Hid in Hpanic.
    assert (LogId_leader_id id ≼ CommittedVote_committed_leader_id (Vote_to_committed v)) as Hld.
    { apply ord_not_lt. intros Hc'. enough (Ret (cond, e') = Panic) as [=]. apply Hpanic. exists id. auto. }
    assert (∀ c, local_committed (Engine_state e) = Some c → (LogId_index c < LogId_index id)%N) as Hidx.
    { intros c Hc'. apply N.nle_gt. intros Hc2. enough (Ret (cond, e') = Panic) as [=]. apply Hpanic. exists id. split_and!; [done|done|right]. by exists c. }
    pose proof (ni_log_inv m n0 _ _ _ Hi Hn) as Hinv.
    assert (snapshot_last_log_id (Engine_state e) ≼ local_committed (Engine_state e)) as Hsn.
    { destruct (snapshot_last_log_id (Engine_state e)) as [y|] eqn:Hy; [|apply None_le].
      apply (marks_le s n e); [done|done|]. by apply (hl_snapshot _ _ _ (ni_logs _ _ _ _ _ Hn)). }
    destruct (install_full_snapshot_installs (Vote_to_committed v) snapshot id e Hid (Hroom id eq_refl) Hinv Hsn Hlt Hld Hidx)
      as (e1 & Hrun1 & Hinv1 & Hco1 & Hpu1 & Hup1 & Hsn1 & Hids1 & _).
    rewrite Hrun in Hrun1. injection Hrun1 as _ <-.
    assert (cmt s n `prefix_of` q) as Hcq.
    { rewrite <- (ni_cmt _ _ _ _ _ Hn) in Hlt. destruct (last (cmt s n)) as [y|] eqn:Hy; [|rewrite last_None in Hy; rewrite Hy; apply prefix_nil].
      apply (Some_lt (A := LogId)) in Hlt. eapply (good_ordered s h); [apply Hi|done|done|done|done|done|by apply ord_lt_le]. }
    pose proof (installed_logs s n e e' h q id Hi Hn Hg Hq Hlast Hcq Hinv1 Hpu1 Hup1 Hsn1 Hids1) as Hlogs.
    assert (sound s1) as Hi1 by by eapply step_sound.
    assert (RaftSpec.chosen (quorum_of m) s1 b0 p0) as Hch1 by by eapply chosen_mono; [apply Hg1|apply Hg1|].
    pose proof (spec_commit (quorum_of m) s1 n b0 p0 b q q Hch1 Hin Hb0 Hq0 ltac:(done) Hcq) as Hstep2.
    set (s2 := mkSpec _ _ _ _ _ _ _ _ _) in Hstep2. pose proof (step_grows m n0 Hm _ _ _ (proj1 Hi1) Hstep2) as Hg2.
    exists s2. split_and!; [by eapply rtc_l; [|apply steps_one]| | |by eapply acked_mono].
    + apply (follower_node m n0 s _ n e); try done; [by eapply grows_trans|cbn; rewrite upd_eq; by rewrite Hb|cbn; rewrite upd_eq; by rewrite Ha|..].
      * cbn. by rewrite !upd_eq.
      * cbn. rewrite !upd_eq. by rewrite Hco1.
      * intros a Hx. apply Hac in Hx as [Hx|Hx]; [by left|right]. injection Hx as ->. cbn. eapply acked_mono; [exact Hg2|exact Hack].
    + destruct Hpl. by apply moves_frame.
Qed.

(** The whole request: a node whose vote is not after that of the leader
    afterwards has accepted the logs of the snapshot. *)
Lemma receive_snapshot_refines s n v snapshot h tx w a w' :
  let b := vote_ballot n0 v in
  let o := SnapshotMeta_last_log_id (Snapshot_meta snapshot) in
  sound s → node_inv s n (w_engine w) → Vote_is_committed v = true → Vote_leader_node_id v ≠ n → V v →
  hist s b = Some h → commit_ok m s b o → (∀ id, o = Some id → (LogId_index id + 1 < u64_modulus)%N) →
  handle_install_full_snapshot v snapshot tx w = Ret (a, w') →
  ∃ s', steps s n s' ∧ node_inv s' n (w_engine w') ∧ moves (w_engine w) (w_engine w') ∧
    (pgeb v (local_vote (w_engine w')) = true → acked s' n b o).
Proof.
  intros b o Hi Hn Hc Hne HV Hh Hok Hroom. unfold handle_install_full_snapshot, accept_vote. rewrite !M_bind_eq.
  destruct (update_vote v w) as [[r1 w1]|] eqn:E1; [|done].
  pose proof (update_vote_follows m n0 Hm V _ _ _ _ _ _ _ Hn Hc Hne HV Hh E1) as Hup. destruct r1 as [u|err]; cycle 1.
  { destruct Hup as [-> Hrej]. m_steps. cbn [negb]. intros [= <- <-]. cbn [w_engine]. exists s. split_and!; [apply rtc_refl|..].
    - by eapply node_inv_same, Hn; [|apply same_push].
    - by apply moves_same, same_push.
    - intros Hv. change (pgeb v (local_vote (w_engine w)) = true) in Hv. congruence. }
  destruct Hup as ((s1 & Hst1 & Hn1 & Hm1) & Hv1 & Hca1 & Hle1). m_steps. cbn [negb]. m_steps.
  change (vote_ref (Engine_state (w_engine w1))) with (local_vote (w_engine w1)). rewrite Hv1.
  pose proof (steps_sound m n0 Hm _ _ _ Hi Hst1) as Hi1. pose proof (steps_grows m n0 Hm _ _ _ Hi Hst1) as Hg1.
  destruct (install_full_snapshot _ _ _) as [[cond e2]|] eqn:E2; [|done].
  destruct (gr_hist _ _ Hg1 _ _ Hh) as (t1 & Hh1 & _).
  destruct (install_refines s1 n (w_engine w1) v snapshot (h ++ t1) cond e2) as (s2 & Hst2 & Hn2 & Hm2 & Hk2); try done.
  { by eapply commit_ok_mono. }
  m_steps. intros [= <- <-]. cbn [w_engine]. exists s2. split_and!; [unfold Replica.steps in *; by trans s1|..|done].
  - by eapply node_inv_same, Hn2; [|apply same_push].
  - eapply moves_compose; [exact Hm1|]. eapply moves_compose; [exact Hm2|]. by apply moves_same, same_push.
Qed.
End replica_snapshot.
