(* ===== verification/ReplicaProgress.v ===== *)
(** * The commit of a leader as a part of the protocol

    What a leader does with the positions that nodes report, and that a log
    it commits has been accepted by a quorum. *)

From S2P Require Import Prelude Vote LogId LogIdList Quorum Membership VecProgress IOState.
From S2P Require Import MembershipState Entry RaftState Config ProgressEntry Proposer Command.
From S2P Require Import Engine Replication Following LeaderHandler VoteHandler EngineImpl.
From S2P Require Import VoteSafety Cluster Election RaftSpec ReplicaFrame Replica ReplicaLead ReplicaFollow.

Section replica_progress.
Context {C : RaftTypeConfig} `{!Env} (m : Membership) (n0 : N) (V : Vote → Prop).
Context `{!RaftLeaderIdLaws C} (Hm : Membership_configs m ≠ []).
Implicit Types (e : Engine) (w : World) (l : Leader) (s : Spec) (n : N) (v : Vote) (b : CommittedLeaderId).

#[local] Abbreviation bi := (initial_ballot n0).
#[local] Abbreviation spec_step := (spec_step (quorum_of m)).
#[local] Abbreviation spec_inv := (spec_inv (quorum_of m) bi).
#[local] Abbreviation node_inv := (node_inv m n0).
#[local] Abbreviation lead_inv := (lead_inv m n0).
#[local] Abbreviation led_by := (led_by n0).
#[local] Abbreviation steps := (steps m).
#[local] Abbreviation sound := (sound m n0).
#[local] Abbreviation moves := (moves V).
#[local] Abbreviation refines := (refines m n0 V).
#[local] Abbreviation moves_compose := (moves_compose V).
#[local] Abbreviation moves_same := (moves_same V).
#[local] Abbreviation moves_frame := (moves_frame V).
#[local] Abbreviation refines_same := (refines_same m n0 V).
#[local] Abbreviation refines_trans := (refines_trans m n0 V).
#[local] Abbreviation refines_step := (refines_step m n0 V).
#[local] Abbreviation reached := (reached m).
#[local] Abbreviation Progress := (VecProgress ProgressEntry (option LogId) Membership).

(** ** Positions of a quorum *)

(** A position that a quorum has been seen to reach. *)
Lemma granted_reached s b (p : Progress) h :
  sound s → hist s b = Some h → VecProgress_wf p → VecProgress_quorum_set p = m →
  (∀ x, x ∈ VecProgress_entries p → acked s (ProgressEntry_id x) b (ProgressEntry_matching x)) →
  granted p (VecProgress_quorum_accepted p) = true → reached s b (VecProgress_quorum_accepted p).
Proof.
  intros Hi Hh Hwf Hqs Ha Hg c Hc. destruct (si_hist _ _ _ (proj1 Hi) _ _ Hh) as (Hgd & _).
  assert (∀ x q, x ∈ VecProgress_entries p → ProgressEntry_matching x = Some q →
    ∃ p0 p', p0 `prefix_of` p' ∧ p0 `prefix_of` h ∧ mkAck (ProgressEntry_id x) b p' ∈ acks s ∧ last p0 = Some q) as Hent.
  { intros x q Hx Hq. destruct (Ha x Hx q Hq) as (p0 & p' & Hp & Hack & Hl). exists p0, p'. split_and!; try done.
    destruct (si_ack _ _ _ (proj1 Hi) _ _ _ Hack) as (_ & h' & Hh' & Hp' & _). simplify_eq. by trans p'. }
  assert (∀ x, x ∈ voters p → x ∈ VecProgress_entries p) as Hvo.
  { intros x. unfold voters. rewrite elem_of_take. intros (i & Hx & _). by eapply list_elem_of_lookup_2. }
  destruct (granted_attained p (VecProgress_quorum_accepted p)) as (x & Hx & Hle & Hgx);
    [apply Hwf|rewrite Hqs; by apply Membership_quorum_nil|done|].
  assert (ProgressEntry_matching x = Some c) as Hmx.
  { rewrite <- Hc. apply ord_le_antisym; [|done].
    apply ord_not_lt. intros Hlt. pose proof (wf_accepted _ Hwf _ Hlt) as Hf.
    assert (granted p (ProgressEntry_matching x) = true) as Hgx' by exact Hgx. congruence. }
  destruct (Hent x c (Hvo x Hx) Hmx) as (p0 & _ & _ & Hp0 & _ & Hl0). exists h, p0, (granters p (Some c)). split_and!; try done.
  - split; [apply NoDup_granters, Hwf|]. rewrite <- Hqs, <- Hc. exact Hg.
  - intros n (y & <- & Hy & Hcy)%granters_elem. cbn in Hcy.
    destruct (ProgressEntry_matching y) as [q|] eqn:Hq; [|by apply Some_le_None in Hcy].
    destruct (Hent y q (Hvo y Hy) Hq) as (p1 & p' & Hpp & Hp1 & Hack & Hl1). exists p'. split; [|done].
    trans p1; [|done]. eapply (good_ordered s h); [apply Hi|done|done|done|done|done|]. by apply (Some_le (A := LogId)) in Hcy.
Qed.

Lemma lead_progress s n v l (p' : Progress) :
  sound s → lead_inv s n v l → VecProgress_wf p' → VecProgress_quorum_set p' = m →
  (VecProgress_quorum_accepted p' = VecProgress_quorum_accepted (Leader_progress l) ∨
    granted p' (VecProgress_quorum_accepted p') = true) →
  (∀ x, x ∈ VecProgress_entries p' →
    acked s (ProgressEntry_id x) (led_by (Leader_committed_vote l)) (ProgressEntry_matching x)) →
  lead_inv s n v (Leader_set_progress l p').
Proof.
  intros Hi Hl Hwf Hqs Hqa Hack. pose proof (li_hist _ _ _ _ _ _ Hl) as Hh. destruct Hl. split; try done; cbn.
  destruct Hqa as [->|Hg]; [done|]. by eapply granted_reached.
Qed.

(** A leader in place of another. *)
Lemma put_leader_node s n e l :
  node_inv s n e → lead_inv s n (local_vote e) l → Engine_candidate e = None → node_inv s n (set_leader e (Some l)).
Proof. intros [] Hl Hc. split; try done. by intros ? [= <-]. Qed.
(** ** The commit *)

(** A log of the leader that a quorum has reached is chosen. *)
Lemma reached_chosen s n v l c :
  lead_inv s n v l → VecProgress_quorum_accepted (Leader_progress l) = Some c →
  Vote_is_same_leader v (LogId_leader_id c) = true →
  ∃ p, RaftSpec.chosen (quorum_of m) s (led_by (Leader_committed_vote l)) p ∧ p `prefix_of` log s n ∧ last p = Some c.
Proof.
  intros Hl Hc Hv%bool_decide_eq_true. pose proof (led_by_committed m n0 _ _ _ _ Hl) as Hb.
  destruct (li_reached _ _ _ _ _ _ Hl c Hc) as (h & p & Q & Hh & Hp & Hlast & HQ & Hn).
  rewrite (li_hist _ _ _ _ _ _ Hl) in Hh. injection Hh as <-. exists p. split_and!; [|done|done].
  exists (log s n), c, Q. split_and!; try done; [apply Hl|]. rewrite <- Hv, Hb, <- (li_vote _ _ _ _ _ _ Hl). done.
Qed.

Lemma same_push_if (x : bool) c e : NoVotes c → same_node e (if x then push c e else e).
Proof. intros Hc. destruct x; [by apply same_push|apply same_node_refl]. Qed.

Lemma try_commit_refines s n w l a w' :
  sound s → node_inv s n (w_engine w) → Engine_leader (w_engine w) = Some l →
  try_commit_quorum_accepted (VecProgress_quorum_accepted (Leader_progress l)) w = Ret (a, w') →
  refines s n (w_engine w) (w_engine w').
Proof.
  intros Hi Hn El. set (e := w_engine w) in *. pose proof (ni_leader _ _ _ _ _ Hn l El) as Hl.
  pose proof (ni_leads m n0 _ _ _ _ Hn El) as Hled.
  unfold try_commit_quorum_accepted. rewrite M_bind_eq, gets_eq. fold e. set (granted := VecProgress_quorum_accepted _).
  destruct (match granted with Some _ => _ | None => _ end) eqn:Hsame;
    [intros [= <- <-]; apply refines_same; [done|apply same_node_refl]|].
  rewrite M_bind_eq. destruct (MonotonicIncrease_try_update _ _) as [r|] eqn:Er; [|done]. rewrite lift_Ret, modify_eq.
  intros [= <- <-]. cbn [w_engine]. fold e. set (st1 := match r with Ok v => _ | Err _ => _ end).
  assert (∀ c, granted = Some c → ∃ p, RaftSpec.chosen (quorum_of m) s (led_by (Leader_committed_vote l)) p ∧
    p `prefix_of` log s n ∧ last p = Some c) as Hch.
  { intros c Hc. rewrite Hc in Hsame. apply negb_false_iff in Hsame. by eapply reached_chosen. }
  assert (led_by (Vote_to_committed (vote_ref (Engine_state e))) = led_by (Leader_committed_vote l)) as Hlb.
  { change (vote_ref (Engine_state e)) with (local_vote e). by rewrite <- (li_vote _ _ _ _ _ _ Hl). }
  assert (node_inv s n (set_state e st1)) as Hn1.
  { unfold st1. destruct r as [o|o]; [|by destruct e].
    assert (o = Some (mkLogIOId (Vote_to_committed (vote_ref (Engine_state e))) granted)) as ->.
    { unfold MonotonicIncrease_try_update, MonotonicIncrease_try_update_option in Er.
      destruct (opt_LogIOId_gt _ _) as [[]|]; [|done..]. by injection Er. }
    apply cluster_node; [done|..]; cbn; rewrite Hlb; [rewrite (ld_bal _ _ _ Hled); apply ord_le_refl|].
    intros c Hc. destruct (Hch c Hc) as (p & ? & ? & ?). exists (led_by (Leader_committed_vote l)), p, p.
    split_and!; try done. apply ord_le_refl. }
  assert (vote_ref st1 = vote_ref (Engine_state e)) as Hv1 by (unfold st1; by destruct r).
  set (st2 := update_local_committed st1 granted).
  assert (refines s n e (set_state e st2)) as (s' & Hst & Hn2 & Hm2).
  { assert (refines s n e (set_state e st1)) as Hst1
      by (exists s; split_and!; [apply rtc_refl|done|by apply set_state_moves]).
    unfold st2, update_local_committed. destruct granted as [c|] eqn:Hc; [|done].
    destruct (ltb_spec (local_committed st1) (Some c)) as [Hlt|]; [|done]. destruct (Hch c eq_refl) as (p & Hp & Hpl & Hlast).
    pose proof (spec_commit _ s n _ p _ (log s n) p Hp (ld_ack _ _ _ Hled) (ord_le_refl _) ltac:(done) Hpl
      ltac:(by apply (commit_extends m n0 s n _ p c Hi Hn1); [..|apply ord_lt_le])) as Hstep.
    eapply refines_step; [exact Hstep| |by apply set_state_moves].
    apply (local_node m n0 s _ n (set_state e st1) c); try done;
      [by eapply step_sound|split; [by apply hist_le_same|done|done]|cbn; by rewrite upd_eq|..].
    cbn. rewrite upd_eq. apply (commit_extends m n0 s n _ p c Hi Hn1); [done|done|by apply ord_lt_le]. }
  assert (same_node (set_state e st2) (if cluster_committed (Engine_state e) <? cluster_committed st2
    then push (Command_ReplicateCommitted (cluster_committed st2)) (set_state e st2) else set_state e st2)) as Hs2
    by (by apply same_push_if).
  exists s'. split_and!; [done|by eapply node_inv_same|]. eapply moves_compose; [done|by apply moves_same].
Qed.
(** ** Reports *)

Lemma update_matching_cases x o i :
  ProgressEntry_matching (update_matching x o i) = ProgressEntry_matching x ∨
  ProgressEntry_matching (update_matching x o i) = o.
Proof.
  unfold update_matching. destruct i as [i|]; [destruct (Inflight_ack _ _ _) as [j applied]; destruct applied|]; cbn; auto.
  destruct (_ <=? _); cbn; auto.
Qed.

(** The report is not behind what the leader has seen of the node. *)
Definition in_order l (target : N) (o : option LogId) (i : option u64) : Prop :=
  ∀ old, try_get (Leader_progress l) target = Some old →
    ProgressEntry_matching old ≼ ProgressEntry_matching (update_matching old o i).

Lemma set_stat_same (p : Progress) st : same_progress p (set_stat p st).
Proof. by apply same_entries, Forall2_keeps_refl. Qed.

Lemma update_matching_refines s n target o i w l a w' :
  sound s → node_inv s n (w_engine w) → Engine_leader (w_engine w) = Some l → in_order l target o i →
  acked s target (led_by (Leader_committed_vote l)) o →
  ReplicationHandler_update_matching target o i w = Ret (a, w') → refines s n (w_engine w) (w_engine w').
Proof.
  intros Hi Hn El Hord Hack. unfold ReplicationHandler_update_matching. rewrite M_bind_eq, (the_leader_eq _ _ El).
  pose proof (ni_leader _ _ _ _ _ Hn l El) as Hl. pose proof (li_wf _ _ _ _ _ _ Hl) as Hwf.
  destruct (try_get (Leader_progress l) target) as [old|] eqn:Hold.
  - destruct (try_get_elem _ _ _ Hold) as [Hin Hid]. specialize (Hord old Hold).
    rewrite (update_entry_with_at _ _ _ old Hold) by (by rewrite update_matching_id).
    set (new := update_matching old o i) in *.
    destruct (replace_Ok (Leader_progress l) new Hwf) as (p' & l1 & y & l2 & Hre & Hent & Hy & Hpost).
    { intros z Hz Hzi. unfold new in Hzi. rewrite update_matching_id in Hzi.
      pose proof (try_get_Some _ z Hwf Hz) as Hz'. rewrite Hzi, Hid, Hold in Hz'. by injection Hz' as <-. }
    { unfold new. rewrite update_matching_id. by apply list_elem_of_fmap_2. }
    rewrite Hre. unfold put_leader. m_steps. intros Hrun.
    assert (lead_inv s n (local_vote (w_engine w)) (Leader_set_progress l p')) as Hl'.
    { destruct Hpost as [Hwf' [Hqs _] Hperm _ Hqa _]. apply lead_progress; try done.
      - rewrite <- (li_members _ _ _ _ _ _ Hl). exact Hqs.
      - intros x Hx. rewrite Hperm in Hx. apply elem_of_app in Hx as [Hx|[->|Hx]%elem_of_cons].
        1,3: apply Hl; rewrite Hent; set_solver.
        assert (ProgressEntry_id new = target) as -> by (transitivity (entry_id old); [apply update_matching_id|done]).
        unfold new. destruct (update_matching_cases old o i) as [->| ->]; [|done].
        rewrite <- Hid. by apply Hl. }
    set (e1 := set_leader (w_engine w) (Some (Leader_set_progress l p'))) in *.
    assert (node_inv s n e1) as Hn1.
    { apply put_leader_node; [done|done|]. destruct (Engine_candidate (w_engine w)) eqn:Hc; [|done].
      by destruct (leader_alone m n0 _ _ _ _ _ Hn El Hc). }
    change p' with (Leader_progress (Leader_set_progress l p')) in Hrun at 1.
    destruct (try_commit_refines s n (mkWorld e1 (w_clock_reads w) (w_random_draws w)) (Leader_set_progress l p') a w') as (s' & ? & ? & Hmv); try done.
    exists s'. split_and!; try done. eapply moves_compose; [|exact Hmv].
    by apply moves_frame.
  - rewrite update_entry_with_Err.
    2:{ intros (z & Hz & Hin)%list_elem_of_fmap. subst target. by rewrite (try_get_Some _ z Hwf Hin) in Hold. }
    intros Hrun. apply refines_same; [done|].
    refine (same_put_leader _ _ _ _ _ El _ Hrun). apply same_set_progress, set_stat_same.
Qed.
Lemma update_conflicting_cases c x k i y :
  update_conflicting c x k i = Ret y → ProgressEntry_id y = ProgressEntry_id x ∧
    (ProgressEntry_matching y = ProgressEntry_matching x ∨ ProgressEntry_matching y = None).
Proof.
  unfold update_conflicting. intros ([z applied] & Hr & Hy)%outcome_bind_Ret.
  assert (ProgressEntry_id z = ProgressEntry_id x ∧ ProgressEntry_matching z = ProgressEntry_matching x) as [H1 H2].
  { destruct i as [i|]; [|by injection Hr as <- _]. apply outcome_bind_Ret in Hr as ([j b0] & _ & [= <- _]). done. }
  injection Hy as <-. repeat case_match; cbn; auto.
Qed.

Lemma reset_entry_at (p : Progress) id f g x :
  try_get p id = Some x → f x = g x → reset_entry_with p id f = reset_entry_with p id g.
Proof.
  intros (i & Hi & Hx)%bind_Some Hfg. unfold reset_entry_with. rewrite Hi. cbn. rewrite Hx. cbn. by rewrite Hfg.
Qed.

Lemma update_conflicting_refines s n target conflict i w l a w' :
  sound s → node_inv s n (w_engine w) → Engine_leader (w_engine w) = Some l →
  ReplicationHandler_update_conflicting target conflict i w = Ret (a, w') → refines s n (w_engine w) (w_engine w').
Proof.
  intros Hi Hn El. unfold ReplicationHandler_update_conflicting. m_steps. rewrite (the_leader_eq _ _ El).
  pose proof (ni_leader _ _ _ _ _ Hn l El) as Hl. pose proof (li_wf _ _ _ _ _ _ Hl) as Hwf.
  destruct (try_get (Leader_progress l) target) as [x|] eqn:Hx;
    [|intros [= <- <-]; apply refines_same; [done|apply same_node_refl]].
  m_steps. destruct (update_conflicting _ x _ i) as [y|] eqn:Hy; [|done]. m_steps.
  set (cf := λ z, match update_conflicting (Engine_config (w_engine w)) z (LogId_index conflict) i with
    | Ret y => y | Panic => z end).
  assert (∀ z, entry_id (cf z) = entry_id z ∧ progress (cf z) ≼ progress z) as Hcf.
  { intros z. unfold cf. destruct (update_conflicting _ z _ i) as [y'|] eqn:E; [|split; [done|apply ord_le_refl]].
    apply update_conflicting_cases in E as [Hid Hma]. split; [exact Hid|]. unfold progress. cbn.
    destruct Hma as [->| ->]; [apply ord_le_refl|apply None_le]. }
  rewrite (reset_entry_at _ _ _ cf x Hx) by (unfold cf; by rewrite Hy).
  destruct (try_get_elem _ _ _ Hx) as [Hin Hid].
  destruct (reset_entry_with_spec (Leader_progress l) target cf Hwf Hcf) as (p' & j & l1 & z & l2 & Hre & Hent & Hz & _ & Hpost).
  { rewrite <- Hid. by apply list_elem_of_fmap_2. }
  rewrite Hre. intros [= <- <-]. cbn [w_engine].
  assert (lead_inv s n (local_vote (w_engine w)) (Leader_set_progress l p')) as Hl'.
  { destruct Hpost as [Hwf' [Hqs _] Hperm Hqa]. apply lead_progress; try done; [|by left|].
    - rewrite <- (li_members _ _ _ _ _ _ Hl). exact Hqs.
    - intros y' Hy'. rewrite Hperm in Hy'. apply elem_of_app in Hy' as [Hy'|[->|Hy']%elem_of_cons].
      1,3: apply Hl; rewrite Hent; set_solver.
      assert (z ∈ VecProgress_entries (Leader_progress l)) as Hzin by (rewrite Hent; set_solver).
      unfold cf. destruct (update_conflicting _ z _ i) as [y0|] eqn:E; [|by apply Hl].
      apply update_conflicting_cases in E as [-> [->| ->]]; [by apply Hl|done]. }
  exists s. split_and!; [apply rtc_refl| |].
  - apply put_leader_node; [done|done|]. destruct (Engine_candidate (w_engine w)) eqn:Hc; [|done].
    by destruct (leader_alone m n0 _ _ _ _ _ Hn El Hc).
  - by apply moves_frame.
Qed.

(** A report about [target]. *)
Lemma update_progress_refines s n target sid res i w l a w' :
  sound s → node_inv s n (w_engine w) → Engine_leader (w_engine w) = Some l →
  (∀ o, res = Some (Ok o) → in_order l target o i ∧ acked s target (led_by (Leader_committed_vote l)) o) →
  update_progress target sid res i w = Ret (a, w') → refines s n (w_engine w) (w_engine w').
Proof.
  intros Hi Hn El Hres. unfold update_progress. rewrite M_bind_eq, (the_leader_eq _ _ El).
  destruct (negb _); [intros [= <- <-]; apply refines_same; [done|apply same_node_refl]|].
  rewrite M_bind_eq. match goal with |- context [match ?x0 w with Ret _ => _ | Panic => _ end] => set (x := x0) end.
  destruct (x w) as [[u w1]|] eqn:E; [|done]. intros Hrun.
  assert (refines s n (w_engine w) (w_engine w1)) as H1.
  { unfold x in E. destruct res as [[o|c]|].
    - destruct (Hres o eq_refl). by eapply update_matching_refines.
    - by eapply update_conflicting_refines.
    - destruct (update_data_with _ _ _) as [p|] eqn:Hp.
      + apply refines_same; [done|]. refine (same_put_leader _ _ _ _ _ El _ E). apply same_set_progress.
        eapply same_update_data; [|done]. by split.
      + injection E as _ <-. apply refines_same; [done|apply same_node_refl]. }
  eapply refines_trans; [exact H1|]. intros s' _ Hn'. destruct (same_ran m n0 V _ _ _ _ _ _ Hrun Hn') as (? & _ & _).
  by apply refines_same.
Qed.
(** *** The log of the leader itself *)

Lemma self_acked s n e l x :
  sound s → node_inv s n e → Engine_leader e = Some l → get_log_id (Engine_state e) (LogId_index x) = Some x →
  acked s n (led_by (Leader_committed_vote l)) (Some x).
Proof.
  intros Hi Hn El Hx ? [= <-]. apply (ni_get_Some m n0 _ _ _ _ _ Hn) in Hx. set (i := N.to_nat (LogId_index x)) in Hx.
  exists (take (S i) (log s n)), (log s n). split_and!; [apply prefix_take|apply (ni_leads m n0 _ _ _ _ Hn El)|].
  by rewrite (take_S_r _ _ _ Hx), last_snoc.
Qed.

Lemma update_local_progress_refines s n upto w l a w' :
  sound s → node_inv s n (w_engine w) → Engine_leader (w_engine w) = Some l →
  (∀ x, upto = Some x → get_log_id (Engine_state (w_engine w)) (LogId_index x) = Some x) →
  update_local_progress upto w = Ret (a, w') → refines s n (w_engine w) (w_engine w').
Proof.
  intros Hi Hn El Hup. pose proof (ni_leader _ _ _ _ _ Hn l El) as Hl. pose proof (li_wf _ _ _ _ _ _ Hl) as Hwf.
  assert (refines s n (w_engine w) (w_engine w)) as Hrefl by (apply refines_same; [done|apply same_node_refl]).
  unfold update_local_progress. destruct upto as [x|]; [|by intros [= <- <-]].
  pose proof (self_acked _ _ _ _ _ Hi Hn El (Hup x eq_refl)) as Hack.
  rewrite M_bind_eq, gets_eq, M_bind_eq, (the_leader_eq _ _ El). rewrite (ni_id _ _ _ _ _ Hn).
  destruct (match try_get (Leader_progress l) n with Some _ => _ | None => _ end) eqn:Hbeh; [by intros [= <- <-]|].
  destruct (update_data_with _ _ _) as [p|] eqn:Hp; [|by intros [= <- <-]].
  rewrite M_bind_eq. set (l' := Leader_set_progress l p). destruct (put_leader l' w) as [[u w1]|] eqn:E1; [|done].
  assert (same_progress (Leader_progress l) p) as Hsp by (eapply same_update_data; [|done]; by split).
  assert (same_node (w_engine w) (w_engine w1)) as Hs1.
  { refine (same_put_leader _ _ _ _ _ El _ E1). by apply same_set_progress. }
  assert (Engine_leader (w_engine w1) = Some l') as El1 by (by injection E1 as _ <-).
  intros Hrun. eapply refines_trans; [by apply refines_same|]. intros s' Hst Hn'.
  pose proof (steps_sound m n0 Hm _ _ _ Hi Hst) as Hi'. pose proof (steps_grows m n0 Hm _ _ _ Hi Hst) as Hg'.
  eapply (update_matching_refines s' n n (Some x) (Some 0%N) w1 l'); try done.
  - intros old' Hold'. destruct (try_get_elem _ _ _ Hold') as [Hin Hid].
    assert (ProgressEntry_matching old' ≼ Some x) as Hle.
    { destruct (sp_entries _ _ Hsp Hwf _ Hin) as [->|(y & Hy & Hyi & <-)]; [apply None_le|].
      pose proof (try_get_Some _ y Hwf Hy) as Hty. assert (entry_id y = n) as Hyn by (transitivity (entry_id old'); done).
      rewrite Hyn in Hty. rewrite Hty in Hbeh. apply leb_false in Hbeh. ord. }
    destruct (update_matching_cases old' (Some x) (Some 0%N)) as [->| ->]; [apply ord_le_refl|done].
  - by eapply acked_mono.
Qed.
End replica_progress.
