(* ===== verification/LogSafety.v ===== *)
(** * The logs of a cluster

    A cluster of engines with the messages they have sent: requests for votes,
    votes, entries of leaders and what nodes have accepted of them.  A message
    stays and may be delivered any number of times, in any order or never.  A
    node handles an event ([VoteSafety.v]), answers a request, sends a part of
    the log of a leader, or has its next command run; answers of followers may
    arrive before they are flushed, and what a leader has told its replication
    streams of the committed log may be old.

    The state machine of a node may build snapshots, nodes purge logs that their
    snapshot covers, and a leader may send a snapshot instead of logs.

    Every step makes steps of the protocol of [RaftSpec.v], which gives the
    properties of Raft; the protocol keeps the logs that nodes purge.  They are
    about nodes that act under the membership [m]: entries with a membership and
    restarts are not among the steps, reports of followers do not go back
    ([in_order]), and indexes do not overflow ([room]). *)

From S2P Require Import Prelude Vote LogId LogIdList Quorum Membership VecProgress IOState.
From S2P Require Import MembershipState Entry RaftState Config ProgressEntry Proposer Command.
From S2P Require Import Engine Replication Following LeaderHandler VoteHandler EngineImpl.
From S2P Require Import VoteSafety Cluster Election RaftSpec ReplicaFrame Replica ReplicaLead ReplicaFollow.
From S2P Require Import ReplicaSnapshot ReplicaProgress.

Lemma lookup_prefix {A} (l k : list A) : (∀ i x, l !! i = Some x → k !! i = Some x) → l `prefix_of` k.
Proof.
  revert k. induction l as [|y l IH]; intros k Hl; [apply prefix_nil|].
  destruct k as [|z k]; [by specialize (Hl 0 y eq_refl)|]. specialize (Hl 0 y eq_refl) as Hz. injection Hz as ->.
  apply prefix_cons, IH. intros i x Hx. exact (Hl (S i) x Hx).
Qed.

Section network.
Context {C : RaftTypeConfig} `{!Env}.
(** [m] is the membership of the cluster, [n0] the node that initialized it. *)
Context (m : Membership) (n0 : N).

(** ** The cluster *)

(** [Message_Committed] is what a leader has told its replication streams to be
    committed, and [Message_Snapshot] a snapshot that the state machine of a
    node has. *)
Inductive Message :=
| Message_VoteRequest (req : VoteRequest)
| Message_VoteResponse (from : N) (req : VoteRequest) (resp : VoteResponse)
| Message_OwnVote (from : N) (resp : VoteResponse)
| Message_PreVote (from : N) (resp : VoteResponse)
| Message_Committed (leader : CommittedVote) (committed : option LogId)
| Message_Entries (leader : CommittedVote) (segment : LogSegment) (leader_commit : option LogId)
| Message_Accepted (from : N) (leader : CommittedVote) (last : option LogId)
| Message_Snapshot (owner : N) (meta : SnapshotMeta)
| Message_SendSnapshot (leader : CommittedVote) (meta : SnapshotMeta).

Record Network := mkNetwork {
  net_nodes : N → World;
  net_messages : list Message;
}.
Implicit Types (c : Network) (n : N).

Definition net_engine c n : Engine := w_engine (net_nodes c n).

(** Node [n] moves to [w] and sends [msgs]. *)
Definition net_moved c n w (msgs : list Message) : Network :=
  mkNetwork (upd (net_nodes c) n w) (msgs ++ net_messages c).

(** There are indexes for [k] more logs. *)
Definition room (st : RaftState) (k : nat) : Prop := (next_index (last_log_id st) + N.of_nat k < u64_modulus)%N.

(** The events of a node and what they come from. *)
Definition net_ok c n (ev : Event) : Prop :=
  let e := net_engine c n in
  match ev with
  | Event_Elect | Event_ElectByLeadershipTransfer | Event_PreElect | Event_TransferLeader _ | Event_Heartbeat _
  | Event_LeaderClock _ _ _ | Event_AllowNextRevert _ _ | Event_PurgeLog _ => True
  | Event_VoteResp target resp => room (Engine_state e) 1 ∧
      ((∃ req, Message_VoteResponse target req resp ∈ net_messages c ∧ Vote_leader_node_id (VoteRequest_vote req) = n) ∨
       (target = n ∧ Message_OwnVote n resp ∈ net_messages c))
  | Event_PreVoteResp target resp => Message_PreVote target resp ∈ net_messages c
  | Event_Write payloads => room (Engine_state e) (length payloads) ∧
      Forall (λ p, EntryPayload_get_membership p = None) payloads
  | Event_ReplicationProgress target _ res inflight_id => ∀ o l, res = Some (Ok o) → Engine_leader e = Some l →
      in_order l target o inflight_id ∧ Message_Accepted target (Leader_committed_vote l) o ∈ net_messages c
  | Event_LocalProgress upto => ∀ x, upto = Some x → get_log_id (Engine_state e) (LogId_index x) = Some x
  | Event_SnapshotBuilt meta => ∀ mt, meta = Some mt → Message_Snapshot n mt ∈ net_messages c
  | _ => False
  end.

(** The entries are logs of [st], after [prev]. *)
Definition log_slice (st : RaftState) (prev : option LogId) (entries : list Entry) : Prop :=
  (∀ x, prev = Some x → get_log_id st (LogId_index x) = Some x) ∧
  ∀ i ent, entries !! i = Some ent → get_log_id st (next_index prev + N.of_nat i)%N = Some (Entry_log_id ent).

(** The state machine has applied the logs up to the last one of the snapshot. *)
Definition snapshot_of (st : RaftState) (meta : SnapshotMeta) : Prop :=
  ∀ x, SnapshotMeta_last_log_id meta = Some x → get_log_id st (LogId_index x) = Some x ∧ Some x ≼ local_committed st.

(** The task that sends a snapshot reports it as accepted unless the vote that
    comes back is after the vote of the leader. *)
Definition installed_message n (leader : CommittedVote) (meta : SnapshotMeta) (e : Engine) : list Message :=
  if pgeb (CommittedVote_into_vote leader) (local_vote e)
  then [Message_Accepted n leader (SnapshotMeta_last_log_id meta)] else [].

Definition accepted_message n (leader : CommittedVote) (e : Engine) : list Message :=
  match last (append_results e) with
  | Some (Ok o) => [Message_Accepted n leader o]
  | _ => []
  end.

Definition command_message n (cmd : Command) : list Message :=
  match cmd with
  | Command_SaveVote v => match run_save_vote_response v with Some resp => [Message_OwnVote n resp] | None => [] end
  | Command_SendVote req => [Message_VoteRequest req]
  | _ => []
  end.

Inductive net_step c : Network → Prop :=
| net_event n ev w :
    effective_membership (net_engine c n) = m → net_ok c n ev → handle ev (net_nodes c n) = Ret (tt, w) →
    net_step c (net_moved c n w [])
| net_vote_request n req tx resp w :
    Message_VoteRequest req ∈ net_messages c → handle_vote_request req tx (net_nodes c n) = Ret (resp, w) →
    net_step c (net_moved c n w [Message_VoteResponse n req resp])
| net_pre_vote_request n req resp w :
    handle_pre_vote_req req (net_nodes c n) = Ret (resp, w) → net_step c (net_moved c n w [Message_PreVote n resp])
| net_commit n l :
    Engine_leader (net_engine c n) = Some l →
    net_step c (net_moved c n (net_nodes c n)
      [Message_Committed (Leader_committed_vote l) (cluster_committed (Engine_state (net_engine c n)))])
| net_send n l prev entries committed :
    Engine_leader (net_engine c n) = Some l → log_slice (Engine_state (net_engine c n)) prev entries →
    Message_Committed (Leader_committed_vote l) committed ∈ net_messages c →
    net_step c (net_moved c n (net_nodes c n)
      [Message_Entries (Leader_committed_vote l) (mkLogSegment prev entries) committed])
| net_receive n leader segment committed tx w :
    Message_Entries leader segment committed ∈ net_messages c →
    LeaderId_node_id (CommittedVote_leader_id leader) ≠ n →
    receive_entries (CommittedVote_into_vote leader) segment committed tx (net_nodes c n) = Ret (tt, w) →
    net_step c (net_moved c n w (accepted_message n leader (w_engine w)))
| net_snapshot n meta :
    snapshot_of (Engine_state (net_engine c n)) meta →
    net_step c (net_moved c n (net_nodes c n) [Message_Snapshot n meta])
| net_send_snapshot n l meta :
    Engine_leader (net_engine c n) = Some l → Message_Snapshot n meta ∈ net_messages c →
    net_step c (net_moved c n (net_nodes c n) [Message_SendSnapshot (Leader_committed_vote l) meta])
| net_receive_snapshot n leader snapshot tx w :
    Message_SendSnapshot leader (Snapshot_meta snapshot) ∈ net_messages c →
    LeaderId_node_id (CommittedVote_leader_id leader) ≠ n →
    handle_install_full_snapshot (CommittedVote_into_vote leader) snapshot tx (net_nodes c n) = Ret (tt, w) →
    net_step c (net_moved c n w (installed_message n leader (Snapshot_meta snapshot) (w_engine w)))
| net_command n cmd rest :
    commands (net_engine c n) = cmd :: rest →
    net_step c (net_moved c n (mkWorld (take_command (net_engine c n) rest) (w_clock_reads (net_nodes c n))
      (w_random_draws (net_nodes c n))) (command_message n cmd)).

(** A new cluster: no node has taken part in an election, and some have the
    log [li] of the initialization. *)
Record node_init (li : list LogId) n (e : Engine) : Prop := {
  in_id : Engine_id e = n;
  in_leader : Engine_leader e = None;
  in_candidate : Engine_candidate e = None;
  in_vote : Vote_term (local_vote e) = 0%N ∧ Vote_leader_node_id (local_vote e) = n;
  in_log : let ids := RaftState_log_ids (Engine_state e) in
    LogIdList_wf ids ∧ LogIdList_purged ids = None ∧ (LogIdList_ids ids = [] ∨ LogIdList_ids ids = li);
  in_purge : purge_upto (Engine_state e) = None ∧ snapshot_last_log_id (Engine_state e) = None;
  in_accepted : ∀ a, accepted_log_io (Engine_state e) = Some (IOId_Log a) → LogIOId_log_id a = None;
  in_committed : IOState_cluster_committed (RaftState_io_state (Engine_state e)) = None ∧
    local_committed (Engine_state e) = None;
  in_commands : saved_votes e = [] ∧ sent_votes e = [];
}.

Definition net_init c : Prop :=
  net_messages c = [] ∧ ∃ li, (∀ i x, li !! i = Some x → x = mkLogId (initial_ballot n0) (N.of_nat i)) ∧
    ∀ n, node_init li n (net_engine c n).

Definition net_reachable c : Prop := ∃ c0, net_init c0 ∧ rtc net_step c0 c.
(** ** The invariant *)

Context `{!RaftLeaderIdLaws C} (Hm : Membership_configs m ≠ []).

#[local] Abbreviation sound := (sound m n0).
#[local] Abbreviation node_inv := (node_inv m n0).
#[local] Abbreviation led_by := (led_by n0).
#[local] Abbreviation steps := (steps m).

(** A vote is known to its owner. *)
Definition known c (v : Vote) : Prop := pleb v (local_vote (net_engine c (Vote_leader_node_id v))) = true.

Definition message_ok c (s : Spec) (msg : Message) : Prop :=
  match msg with
  | Message_VoteRequest req => asked (net_engine c (Vote_leader_node_id (VoteRequest_vote req))) req
  | Message_VoteResponse n req resp =>
      asked (net_engine c (Vote_leader_node_id (VoteRequest_vote req))) req ∧ known c (VoteResponse_vote resp) ∧
      (VoteResponse_vote_granted resp = true → VoteResponse_vote resp = VoteRequest_vote req ∧
        voted s n (VoteRequest_vote req) (VoteRequest_last_log_id req))
  | Message_OwnVote n resp => pleb (VoteResponse_vote resp) (local_vote (net_engine c n)) = true
  | Message_PreVote n resp => known c (VoteResponse_vote resp)
  | Message_Committed leader committed => commit_ok m s (led_by leader) committed
  | Message_Entries leader segment committed =>
      known c (CommittedVote_into_vote leader) ∧ commit_ok m s (led_by leader) committed ∧
      ∃ p h, sent_by s (led_by leader) (LogSegment_prev_log_id segment) p (Entry_log_id <$> LogSegment_entries segment) h
  | Message_Accepted n leader last => acked s n (led_by leader) last
  | Message_Snapshot n meta => ∀ x, SnapshotMeta_last_log_id meta = Some x → marks (cmt s n) x
  | Message_SendSnapshot leader meta => known c (CommittedVote_into_vote leader) ∧
      commit_ok m s (led_by leader) (SnapshotMeta_last_log_id meta) ∧ is_Some (hist s (led_by leader)) ∧
      ∀ x, SnapshotMeta_last_log_id meta = Some x → (LogId_index x + 1 < u64_modulus)%N
  end.

Record net_inv c (s : Spec) : Prop := {
  nv_sound : sound s;
  nv_node : ∀ n, node_inv s n (net_engine c n);
  nv_known : ∀ n, known c (local_vote (net_engine c n));
  nv_saved : ∀ n v, v ∈ saved_votes (net_engine c n) → pleb v (local_vote (net_engine c n)) = true;
  nv_sent : ∀ n req, req ∈ sent_votes (net_engine c n) → asked (net_engine c n) req;
  nv_messages : ∀ msg, msg ∈ net_messages c → message_ok c s msg;
}.

(** What a step of the cluster keeps. *)
Record net_le c c' (s s' : Spec) : Prop := {
  nl_grows : grows s s';
  nl_vote : ∀ n, pleb (local_vote (net_engine c n)) (local_vote (net_engine c' n)) = true;
  nl_asked : ∀ n req, asked (net_engine c n) req → asked (net_engine c' n) req;
  nl_committed : ∀ n, cmt s n `prefix_of` cmt s' n;
}.

Lemma known_le c c' s s' v : net_le c c' s s' → known c v → known c' v.
Proof. intros Hle Hk. eapply pleb_trans; [exact Hk|apply Hle]. Qed.

Lemma message_le c c' s s' msg : net_le c c' s s' → message_ok c s msg → message_ok c' s' msg.
Proof.
  intros Hle. pose proof (nl_grows _ _ _ _ Hle) as Hg. destruct msg; cbn.
  - by apply Hle.
  - intros (Ha & Hk & Hv). split_and!; [by apply Hle|by eapply known_le|]. intros [? ?]%Hv. split; [done|by eapply voted_mono].
  - intros Hv. eapply pleb_trans; [exact Hv|apply Hle].
  - by eapply known_le.
  - by eapply commit_ok_mono.
  - intros (Hk & Hc & p & h & Hs). split_and!; [by eapply known_le|by eapply commit_ok_mono|].
    exists p. by eapply sent_mono.
  - by eapply acked_mono.
  - intros Hx x (q & Hq & ?)%Hx. exists q. split; [|done]. trans (cmt s owner); [done|apply Hle].
  - intros (Hk & Hc & [h Hh] & Hr). destruct (gr_hist _ _ Hg _ _ Hh) as (t & Ht & _).
    split_and!; [by eapply known_le|by eapply commit_ok_mono|by exists (h ++ t)|done].
Qed.

(** The votes that node [n] is told. *)
Definition heard c n (v : Vote) : Prop := known c v ∨ pleb v (local_vote (net_engine c n)) = true.

Lemma net_engine_moved c n w msgs n' :
  net_engine (net_moved c n w msgs) n' = if decide (n' = n) then w_engine w else net_engine c n'.
Proof. unfold net_engine, net_moved. cbn. unfold upd. by case_decide. Qed.

Lemma moved_le c s s' n w msgs :
  sound s → steps s n s' → moves (heard c n) (net_engine c n) (w_engine w) → net_le c (net_moved c n w msgs) s s'.
Proof.
  intros Hi Hst Hmv. split; [by eapply (steps_grows m n0 Hm)|..|intros n'; by eapply steps_cmt];
    intros n'; rewrite net_engine_moved; case_decide as E.
  - subst. apply Hmv.
  - apply pleb_refl.
  - subst. intros req. by eapply asked_moves.
  - done.
Qed.

Lemma known_moved c s s' n w msgs :
  net_inv c s → steps s n s' → moves (heard c n) (net_engine c n) (w_engine w) →
  known (net_moved c n w msgs) (local_vote (w_engine w)).
Proof.
  intros Hi Hst Hmv. pose proof (moved_le c s s' n w msgs (nv_sound _ _ Hi) Hst Hmv) as Hle.
  pose proof (known_le _ _ _ _ _ Hle (nv_known _ _ Hi n)) as Hk.
  destruct (mv_from _ _ _ Hmv) as [->|[Hown|[Hv|Hv]]]; [done| |by eapply known_le|].
  - unfold known. rewrite Hown, (ni_id _ _ _ _ _ (nv_node _ _ Hi n)), net_engine_moved, decide_True by done. apply pleb_refl.
  - by rewrite (pleb_antisym _ _ Hv (mv_vote _ _ _ Hmv)).
Qed.

Lemma net_inv_moved c s s' n w msgs :
  net_inv c s → steps s n s' → node_inv s' n (w_engine w) → moves (heard c n) (net_engine c n) (w_engine w) →
  (∀ v, v ∈ saved_votes (w_engine w) → pleb v (local_vote (w_engine w)) = true) →
  (∀ msg, msg ∈ msgs → message_ok (net_moved c n w msgs) s' msg) → net_inv (net_moved c n w msgs) s'.
Proof.
  intros Hi Hst Hn Hmv Hr Hms. pose proof (nv_sound _ _ Hi) as Hs. pose proof (moved_le c s s' n w msgs Hs Hst Hmv) as Hle.
  set (c' := net_moved c n w msgs) in *. split.
  - by eapply steps_sound.
  - intros n'. unfold c'. rewrite net_engine_moved. case_decide as E; [by subst|].
    exact (node_inv_others m n0 Hm _ _ _ _ _ Hs Hst E (nv_node _ _ Hi n')).
  - intros n'. pose proof (known_le _ _ _ _ _ Hle (nv_known _ _ Hi n')) as Hk. unfold c' at 2. rewrite net_engine_moved.
    case_decide; [by eapply known_moved|done].
  - intros n' v. unfold c'. rewrite net_engine_moved. case_decide; [apply Hr|apply Hi].
  - intros n' req. unfold c'. rewrite net_engine_moved. case_decide as E; [subst n'|apply Hi].
    intros [Hold|]%(mv_sent _ _ _ Hmv); [|done]. eapply asked_moves; [exact Hmv|by apply (nv_sent _ _ Hi)].
  - intros msg [Hin|Hin]%elem_of_app; [by apply Hms|]. eapply message_le; [exact Hle|by apply (nv_messages _ _ Hi)].
Qed.

Lemma saved_rise c s n e :
  net_inv c s → votes_rise (net_engine c n) e → ∀ v, v ∈ saved_votes e → pleb v (local_vote e) = true.
Proof.
  intros Hi (vs & -> & Hr) v [Hv|Hv]%elem_of_app; [|by eapply rising_bounds].
  eapply pleb_trans; [by apply (nv_saved _ _ Hi)|by eapply rising_end].
Qed.

(** ** The steps *)

Lemma heard_not_ahead c s n v : net_inv c s → heard c n v → not_ahead (net_engine c n) v.
Proof.
  intros Hi Hh Hid. rewrite (ni_id _ _ _ _ _ (nv_node _ _ Hi n)) in Hid. destruct Hh as [Hk|]; [|done].
  unfold known in Hk. by rewrite Hid in Hk.
Qed.

Lemma uncommitted_le v : pleb (UncommittedVote_into_vote (Vote_to_non_committed v)) v = true.
Proof.
  destruct v as [lid b]. unfold pleb, partial_cmp, Vote_partial_ord, RefVote_partial_cmp. cbn. rewrite pcmp_refl.
  by destruct b.
Qed.

Lemma heard_told c n v : heard c n v → told (heard c n) v.
Proof. intros [Hk|Hv]; [left|right]; (eapply pleb_trans; [apply uncommitted_le|done]). Qed.

Lemma room_log c s n k :
  net_inv c s → room (Engine_state (net_engine c n)) k → (N.of_nat (length (log s n) + k) < u64_modulus)%N.
Proof.
  intros Hi Hr. unfold room in Hr. rewrite (ni_next m n0 _ _ _ (nv_node _ _ Hi n)) in Hr. lia.
Qed.

(** The response that a candidate gets is the vote of the node. *)
Lemma response_voted c s n target resp cand :
  net_inv c s → net_ok c n (Event_VoteResp target resp) → Engine_candidate (net_engine c n) = Some cand →
  VoteResponse_vote_granted resp = true → VoteResponse_vote resp = Candidate_vote cand →
  voted s target (Candidate_vote cand) (Candidate_last_log_id cand).
Proof.
  intros Hi [_ Hor] Hc Hg Hv. pose proof (ni_candidate _ _ _ _ _ (nv_node _ _ Hi n) _ Hc) as Hci.
  destruct Hor as [(req & Hin & Hid)|[-> Hin]].
  - destruct (nv_messages _ _ Hi _ Hin) as (Ha & _ & Hvo). destruct (Hvo Hg) as [Heq Hvo']. rewrite Hid in Ha.
    assert (Candidate_vote cand = VoteRequest_vote req) as Hcv by congruence. rewrite Hcv.
    by rewrite <- (as_last _ _ Ha cand Hc Hcv).
  - rewrite (ci_vote _ _ _ _ _ Hci), (ci_last _ _ _ _ _ Hci). apply Hci.
Qed.

Lemma same_ran_refines {A} (x : M A) `{!SameNode x} (V : Vote → Prop) s n w a w' :
  node_inv s n (w_engine w) → x w = Ret (a, w') → refines m n0 V s n (w_engine w) (w_engine w').
Proof. intros Hn Hrun. apply (refines_same m n0 V); [done|]. by eapply same_run. Qed.

Lemma event_refines c s n ev w :
  net_inv c s → effective_membership (net_engine c n) = m → net_ok c n ev → handle ev (net_nodes c n) = Ret (tt, w) →
  refines m n0 (heard c n) s n (net_engine c n) (w_engine w).
Proof.
  intros Hi Hmem Hok Hrun. pose proof (nv_node _ _ Hi n) as Hn. pose proof (nv_sound _ _ Hi) as Hs.
  destruct ev; cbn [handle] in Hrun; try done; cbn [net_ok] in Hok.
  - by eapply do_elect_refines.
  - by eapply do_elect_refines.
  - by eapply pre_elect_refines.
  - assert (heard c n (VoteResponse_vote resp)) as Hh.
    { destruct Hok as [_ [(req & Hin & _)|[-> Hin]]]; [left|right]; by apply (nv_messages _ _ Hi _ Hin). }
    eapply (handle_vote_resp_refines m n0); try done; [by eapply heard_not_ahead|by apply heard_told| |eapply room_log; [done|apply Hok]].
    intros cand. by eapply response_voted.
  - assert (heard c n (VoteResponse_vote resp)) as Hh by (left; by apply (nv_messages _ _ Hi _ Hok)).
    eapply (handle_pre_vote_resp_refines m n0); try done; [by eapply heard_not_ahead|by apply heard_told].
  - eapply (snapshot_built_refines m n0); try done. intros mt x Hmt Hx.
    by apply (nv_messages _ _ Hi _ (Hok mt Hmt)).
  - by eapply (trigger_purge_log_refines m n0).
  - exact (same_ran_refines _ _ _ _ _ _ _ Hn Hrun).
  - rewrite M_bind_eq in Hrun. destruct (leader_append_entries _ _) as [[r w1]|] eqn:E; [|done]. injection Hrun as <-.
    destruct Hok as [Hr Hp]. eapply (leader_append_refines m n0); try done. by eapply room_log.
  - exact (same_ran_refines _ _ _ _ _ _ _ Hn Hrun).
  - destruct (Engine_leader (net_engine c n)) as [l|] eqn:El;
      [|unfold update_progress in Hrun; rewrite M_bind_eq in Hrun; unfold the_leader in Hrun; unfold net_engine in El; by rewrite El in Hrun].
    eapply (update_progress_refines m n0); try done. intros o Ho. destruct (Hok o l Ho eq_refl) as [Hord Hin].
    split; [done|by apply (nv_messages _ _ Hi _ Hin)].
  - exact (same_ran_refines _ _ _ _ _ _ _ Hn Hrun).
  - destruct (Engine_leader (net_engine c n)) as [l|] eqn:El; [by eapply (update_local_progress_refines m n0)|].
    destruct upto as [x|]; [|injection Hrun as <-; apply (refines_same m n0); [done|apply same_node_refl]].
    unfold update_local_progress in Hrun. rewrite M_bind_eq, gets_eq, M_bind_eq in Hrun. unfold the_leader in Hrun.
    unfold net_engine in El. by rewrite El in Hrun.
  - exact (same_ran_refines _ _ _ _ _ _ _ Hn Hrun).
Qed.
Lemma receive_rises v segment committed tx w w' :
  receive_entries v segment committed tx w = Ret (tt, w') → votes_rise (w_engine w) (w_engine w').
Proof.
  unfold receive_entries. rewrite M_bind_eq. destruct (handle_append_entries v segment tx w) as [[u w1]|] eqn:E; [|done].
  rewrite M_bind_eq, get_eq, M_bind_eq. destruct (update_committed _ _) as [st|] eqn:Eu; [|done]. rewrite lift_Ret, modify_eq.
  intros [= <-]. cbn [w_engine]. apply (votes_rise_trans _ (w_engine w1)); [by eapply mono_handle_append_entries|].
  apply votes_rise_refl; [done|]. unfold local_vote. cbn. by eapply update_committed_vote.
Qed.

(** A step of node [n]. *)
Lemma step_vote_request_inv c s n req tx resp w :
  net_inv c s → Message_VoteRequest req ∈ net_messages c → handle_vote_request req tx (net_nodes c n) = Ret (resp, w) →
  ∃ s', steps s n s' ∧ net_inv (net_moved c n w [Message_VoteResponse n req resp]) s'.
Proof.
  intros Hi Hin Hrun. pose proof (nv_messages _ _ Hi _ Hin) as Ha. cbn in Ha. pose proof (nv_node _ _ Hi n) as Hn.
  assert (heard c n (VoteRequest_vote req)) as Hh by (left; apply Ha).
  destruct (handle_vote_request_spec _ _ _ _ _ Hrun) as [Hrise _]. unfold handle_vote_request in Hrun. rewrite M_bind_eq in Hrun.
  destruct (handle_vote_req req (net_nodes c n)) as [[resp1 w1]|] eqn:E1; [|done].
  destruct (handle_vote_req_refines m n0 Hm (heard c n) s n req _ _ _ Hn (as_vote _ _ Ha) (as_term _ _ Ha)
    (heard_not_ahead _ _ _ _ Hi Hh) Hh E1) as (s' & Hst & Hn1 & Hm1 & Hv & Hg).
  revert Hrun. m_steps. intros [= <- <-]. set (w' := mkWorld _ _ _) in *.
  assert (same_node (w_engine w1) (w_engine w')) as Hs1 by (by apply same_push).
  assert (moves (heard c n) (net_engine c n) (w_engine w')) as Hm' by (eapply moves_compose; [exact Hm1|by apply moves_same]).
  exists s'. split; [done|]. apply (net_inv_moved _ s); try done; [by eapply node_inv_same|by eapply saved_rise|].
  intros msg ->%list_elem_of_singleton. cbn. split_and!; [|rewrite Hv|done].
  - by apply (moved_le _ s s' _ _ _ (nv_sound _ _ Hi) Hst Hm').
  - rewrite <- (sn_vote _ _ Hs1). by eapply known_moved.
Qed.

Lemma pre_vote_response req w resp w' :
  handle_pre_vote_req req w = Ret (resp, w') → VoteResponse_vote resp = local_vote (w_engine w').
Proof.
  unfold handle_pre_vote_req. rewrite M_bind_eq. unfold now at 1. rewrite M_bind_eq.
  destruct (is_leader_lease_valid _ _ _) as [[lease w1]|]; [|done].
  assert (∀ b, vote_response b w1 = Ret (resp, w') → VoteResponse_vote resp = local_vote (w_engine w')) as Hr.
  { intros b. unfold vote_response. m_steps. by intros [= <- <-]. }
  destruct lease; [apply Hr|]. rewrite M_bind_eq, gets_eq. destruct (is_candidate_log_behind _ _); apply Hr.
Qed.

(** The log of the leader that a request carries. *)
Lemma slice_sent c s n l prev entries :
  net_inv c s → Engine_leader (net_engine c n) = Some l → log_slice (Engine_state (net_engine c n)) prev entries →
  ∃ p h, sent_by s (led_by (Leader_committed_vote l)) prev p (Entry_log_id <$> entries) h.
Proof.
  intros Hi El [Hprev Hent]. pose proof (nv_node _ _ Hi n) as Hn. pose proof (ni_leader _ _ _ _ _ Hn l El) as Hl.
  destruct (nv_sound _ _ Hi) as [Hsi _]. pose proof (si_log _ _ _ Hsi n) as Hg.
  pose proof (ni_length m n0 _ _ _ Hn) as Hlen.
  set (k := N.to_nat (next_index prev)). exists (take k (log s n)), (log s n).
  assert (last (take k (log s n)) = prev ∧ length (take k (log s n)) = k) as [Hlast Hk].
  { unfold k. destruct prev as [x|]; [|by rewrite take_0]. specialize (Hprev x eq_refl).
    apply (ni_get_Some m n0 _ _ _ _ _ Hn) in Hprev. pose proof (lookup_lt_Some _ _ _ Hprev) as Hlt.
    rewrite next_index_some by lia. replace (N.to_nat (LogId_index x + 1)) with (S (N.to_nat (LogId_index x))) by lia.
    rewrite (take_S_r _ _ _ Hprev), last_snoc, length_app, length_take. cbn. split; [done|lia]. }
  assert (take k (log s n) ++ (Entry_log_id <$> entries) `prefix_of` log s n) as Hp.
  { rewrite <- (take_drop k (log s n)) at 2. apply prefix_app.
    apply lookup_prefix. intros i x Hx. rewrite list_lookup_fmap_Some in Hx. destruct Hx as (ent & -> & He).
    rewrite lookup_drop. specialize (Hent i ent He). apply (ni_get_Some m n0 _ _ _ _ _ Hn) in Hent. rewrite <- Hent. f_equal. lia. }
  split; [apply Hl|done|done|]. apply prefix_length in Hp. lia.
Qed.
Lemma step_receive_inv c s n leader segment committed tx w :
  net_inv c s → Message_Entries leader segment committed ∈ net_messages c →
  LeaderId_node_id (CommittedVote_leader_id leader) ≠ n →
  receive_entries (CommittedVote_into_vote leader) segment committed tx (net_nodes c n) = Ret (tt, w) →
  ∃ s', steps s n s' ∧ net_inv (net_moved c n w (accepted_message n leader (w_engine w))) s'.
Proof.
  intros Hi Hin Hne Hrun. destruct (nv_messages _ _ Hi _ Hin) as (Hk & Hc & p & h & Hs).
  destruct segment as [prev entries]. cbn [LogSegment_prev_log_id LogSegment_entries] in Hs.
  assert (votes_rise (net_engine c n) (w_engine w)) as Hrise by by eapply receive_rises.
  destruct (receive_entries_refines m n0 (heard c n) Hm s n (CommittedVote_into_vote leader) prev p entries committed tx h
    (net_nodes c n) tt w (nv_sound _ _ Hi) (nv_node _ _ Hi n) eq_refl Hne (or_introl Hk) Hs Hc Hrun)
    as (s' & Hst & Hn & Hmv & r & Hr & Hacc).
  exists s'. split; [done|]. apply (net_inv_moved _ s); try done; [by eapply saved_rise|].
  unfold accepted_message. rewrite Hr. destruct r as [o|]; [|by intros msg []%elem_of_nil].
  intros msg ->%list_elem_of_singleton. by apply (Hacc o).
Qed.

(** The snapshot that a node has. *)
Lemma snapshot_marks c s n meta x :
  net_inv c s → snapshot_of (Engine_state (net_engine c n)) meta → SnapshotMeta_last_log_id meta = Some x → marks (cmt s n) x.
Proof.
  intros Hi Hs Hx. destruct (Hs x Hx) as [Hget Hle].
  apply (le_marks m n0 s n (net_engine c n)); [apply Hi|apply Hi|done|done].
Qed.

(** The snapshot that a leader sends. *)
Lemma sent_snapshot_ok c s n l meta :
  net_inv c s → Engine_leader (net_engine c n) = Some l → Message_Snapshot n meta ∈ net_messages c →
  message_ok c s (Message_SendSnapshot (Leader_committed_vote l) meta).
Proof.
  intros Hi El Hin. pose proof (nv_messages _ _ Hi _ Hin) as Hmk. cbn in Hmk. pose proof (nv_node _ _ Hi n) as Hn.
  pose proof (ni_leads m n0 _ _ _ _ Hn El) as Hled. destruct (nv_sound _ _ Hi) as [Hsi Hci]. cbn. split_and!.
  - rewrite (li_vote _ _ _ _ _ _ (ni_leader _ _ _ _ _ Hn l El)). apply Hi.
  - intros x (q & Hq & Hx & _)%Hmk. destruct (Hci n) as [Hnil|(b0 & p0 & Hch & Hb0 & Hp0 & _)].
    { rewrite Hnil in Hq. apply prefix_nil_inv in Hq as ->. done. }
    exists b0, p0, q. split_and!; [done| |by trans (cmt s n)|done].
    destruct (si_acc _ _ _ Hsi n) as (_ & _ & Hab). rewrite (ld_bal _ _ _ Hled) in Hab. ord.
  - eexists. apply Hled.
  - intros x (q & Hq & Hx & ->)%Hmk. pose proof (ni_length m n0 _ _ _ Hn).
    destruct (ni_committed_log m n0 _ _ _ (nv_sound _ _ Hi) Hn) as [Hc%prefix_length _]. apply prefix_length in Hq. lia.
Qed.

Lemma step_receive_snapshot_inv c s n leader snapshot tx w :
  net_inv c s → Message_SendSnapshot leader (Snapshot_meta snapshot) ∈ net_messages c →
  LeaderId_node_id (CommittedVote_leader_id leader) ≠ n →
  handle_install_full_snapshot (CommittedVote_into_vote leader) snapshot tx (net_nodes c n) = Ret (tt, w) →
  ∃ s', steps s n s' ∧ net_inv (net_moved c n w (installed_message n leader (Snapshot_meta snapshot) (w_engine w))) s'.
Proof.
  intros Hi Hin Hne Hrun. destruct (nv_messages _ _ Hi _ Hin) as (Hk & Hc & [h Hh] & Hr).
  assert (votes_rise (net_engine c n) (w_engine w)) as Hrise by by eapply mono_handle_install_full_snapshot.
  destruct (receive_snapshot_refines m n0 (heard c n) Hm s n (CommittedVote_into_vote leader) snapshot h tx
    (net_nodes c n) tt w (nv_sound _ _ Hi) (nv_node _ _ Hi n) eq_refl Hne (or_introl Hk) Hh Hc Hr Hrun)
    as (s' & Hst & Hn & Hmv & Hacc).
  exists s'. split; [done|]. apply (net_inv_moved _ s); try done; [by eapply saved_rise|].
  unfold installed_message. destruct (pgeb _ _); [|by intros msg []%elem_of_nil].
  intros msg ->%list_elem_of_singleton. by apply Hacc.
Qed.

Lemma step_command_inv c s n cmd rest :
  net_inv c s → commands (net_engine c n) = cmd :: rest →
  net_inv (net_moved c n (mkWorld (take_command (net_engine c n) rest) (w_clock_reads (net_nodes c n))
    (w_random_draws (net_nodes c n))) (command_message n cmd)) s.
Proof.
  intros Hi Hcmd. pose proof (nv_node _ _ Hi n) as Hn. set (w := mkWorld _ _ _).
  assert (∀ req, cmd = Command_SendVote req ∨ req ∈ sent_votes (w_engine w) → req ∈ sent_votes (net_engine c n)) as Hsent.
  { intros req. unfold sent_votes. rewrite Hcmd. cbn [omap list_omap]. change (commands (w_engine w)) with rest.
    intros [->|Hr]; [set_solver|]. destruct cmd; try done. set_solver. }
  assert (∀ v, cmd = Command_SaveVote v ∨ v ∈ saved_votes (w_engine w) → v ∈ saved_votes (net_engine c n)) as Hsaved.
  { intros v. unfold saved_votes. rewrite Hcmd. cbn [omap list_omap]. change (commands (w_engine w)) with rest.
    intros [->|Hr]; [set_solver|]. destruct cmd; try done. set_solver. }
  assert (moves (heard c n) (net_engine c n) (w_engine w)) as Hmv.
  { split; [done|apply pleb_refl|by left| |]; [intros c' Hc; left; by exists c'|]. intros req Hr. left. apply Hsent. by right. }
  apply (net_inv_moved _ s); [done|apply rtc_refl|by destruct Hn|done|..].
  - intros v Hv. change (local_vote (w_engine w)) with (local_vote (net_engine c n)). apply Hi, Hsaved. by right.
  - intros msg. destruct cmd; cbn; try by intros []%elem_of_nil.
    + unfold run_save_vote_response. destruct (Vote_into_vote_status vote); [by intros []%elem_of_nil|].
      intros ->%list_elem_of_singleton. cbn. rewrite net_engine_moved, decide_True by done.
      change (local_vote (w_engine w)) with (local_vote (net_engine c n)). apply Hi, Hsaved. by left.
    + intros ->%list_elem_of_singleton. cbn. pose proof (nv_sent _ _ Hi n _ (Hsent _ (or_introl eq_refl))) as Ha.
      rewrite (as_node _ _ Ha), (ni_id _ _ _ _ _ Hn), net_engine_moved, decide_True by done. by eapply asked_moves.
Qed.

Lemma stay_inv c s n msgs :
  net_inv c s → (∀ msg, msg ∈ msgs → message_ok c s msg) → net_inv (net_moved c n (net_nodes c n) msgs) s.
Proof.
  intros Hi Hms. assert (moves (heard c n) (net_engine c n) (w_engine (net_nodes c n))) as Hmv by by apply moves_frame.
  apply (net_inv_moved _ s); [done|apply rtc_refl|apply Hi|done|apply Hi|].
  intros msg Hin. eapply message_le; [eapply (moved_le _ s s); [apply Hi|apply rtc_refl|exact Hmv]|by apply Hms].
Qed.

Lemma net_inv_step c c' s : net_inv c s → net_step c c' → ∃ n s', steps s n s' ∧ net_inv c' s'.
Proof.
  intros Hi Hstep. destruct Hstep as [n ev w Hmem Hok Hrun|n req tx resp w Hin Hrun|n req resp w Hrun|n l El|
    n l prev entries committed El Hsl Hin|n leader segment committed tx w Hin Hne Hrun|
    n meta Hs|n l meta El Hin|n leader snapshot tx w Hin Hne Hrun|n cmd rest Hcmd]; exists n.
  - destruct (event_refines _ _ _ _ _ Hi Hmem Hok Hrun) as (s' & Hst & Hn & Hmv). exists s'. split; [done|].
    apply (net_inv_moved _ s); try done; [|by intros msg []%elem_of_nil]. eapply saved_rise; [done|]. by eapply mono_handle.
  - by eapply step_vote_request_inv.
  - destruct (same_ran m n0 (heard c n) _ _ _ _ _ _ Hrun (nv_node _ _ Hi n)) as (_ & Hn & Hmv). exists s.
    split; [apply rtc_refl|]. apply (net_inv_moved _ s); try done; [apply rtc_refl| |].
    + eapply saved_rise; [done|]. by eapply mono_handle_pre_vote_req.
    + intros msg ->%list_elem_of_singleton. cbn. rewrite (pre_vote_response _ _ _ _ Hrun).
      eapply known_moved; [exact Hi|apply rtc_refl|done].
  - exists s. split; [apply rtc_refl|]. apply stay_inv; [done|]. intros msg ->%list_elem_of_singleton. cbn.
    pose proof (nv_node _ _ Hi n) as Hn. unfold cluster_committed.
    destruct (IOState_cluster_committed _) as [a|] eqn:Ea; [|done]. destruct (ni_cluster _ _ _ _ _ Hn a Ea) as [Hle Hc].
    rewrite (ld_bal _ _ _ (ni_leads m n0 _ _ _ _ Hn El)) in Hle. by eapply commit_ok_le.
  - exists s. split; [apply rtc_refl|]. apply stay_inv; [done|]. intros msg ->%list_elem_of_singleton. cbn. split_and!.
    + rewrite (li_vote _ _ _ _ _ _ (ni_leader _ _ _ _ _ (nv_node _ _ Hi n) l El)). apply Hi.
    + by apply (nv_messages _ _ Hi _ Hin).
    + by eapply slice_sent.
  - by eapply step_receive_inv.
  - exists s. split; [apply rtc_refl|]. apply stay_inv; [done|]. intros msg ->%list_elem_of_singleton x Hx.
    by eapply snapshot_marks.
  - exists s. split; [apply rtc_refl|]. apply stay_inv; [done|]. intros msg ->%list_elem_of_singleton.
    by eapply sent_snapshot_ok.
  - by eapply step_receive_snapshot_inv.
  - exists s. split; [apply rtc_refl|]. by apply step_command_inv.
Qed.
(** ** Reachable states *)

Definition net_log c n : list LogId := LogIdList_ids (RaftState_log_ids (Engine_state (net_engine c n))).

(** The protocol at the start of a cluster. *)
Definition spec_start (li : list LogId) c : Spec :=
  mkSpec (λ _, initial_ballot n0) (λ _, initial_ballot n0) (net_log c)
    (λ b, if decide (b = initial_ballot n0) then Some li else None) (λ _, n0) [initial_ballot n0] [] [] (λ _, []).

Lemma spec_start_init li c :
  (∀ i x, li !! i = Some x → x = mkLogId (initial_ballot n0) (N.of_nat i)) → (∀ n, node_init li n (net_engine c n)) →
  spec_init (initial_ballot n0) li (spec_start li c).
Proof. intros Hli Hn. split_and!; try done. intros n. apply (in_log _ _ _ (Hn n)). Qed.

Lemma node_init_inv li c n :
  node_init li n (net_engine c n) → node_inv (spec_start li c) n (net_engine c n).
Proof.
  intros [Hid Hl Hc [Hv Hown] (Hwf & Hp & _) [Hpu Hsn] Ha [Hcl Hco] _].
  assert (vote_ballot n0 (local_vote (net_engine c n)) = initial_ballot n0) as Hb
    by (unfold vote_ballot, ballot; by rewrite decide_True).
  split; try done; try (by rewrite ?Hc, ?Hl, ?Hcl, ?Hco).
  - split; try done; [|apply prefix_nil|by rewrite Hpu|by rewrite Hsn]. exists []. split_and!; try done.
    by rewrite (first_index_purged _ Hwf), Hp.
  - unfold acc_inv. destruct (Vote_is_committed _); [done|]. by left.
  - cbn. by intros lid ll own []%elem_of_nil.
  - intros a Ha'. rewrite (Ha a Ha'). by intros x [=].
Qed.

Lemma net_init_inv c :
  net_init c → ∃ li s, spec_init (initial_ballot n0) li s ∧ net_inv c s.
Proof.
  intros [Hms (li & Hli & Hn)]. exists li, (spec_start li c). pose proof (spec_start_init _ _ Hli Hn) as Hs0.
  split; [done|]. split.
  - apply (spec_reachable_inv _ (quorums_meet m Hm) _ li). exists (spec_start li c). split; [done|apply rtc_refl].
  - intros n. by apply node_init_inv.
  - intros n. destruct (Hn n) as [_ _ _ [_ Hown] _ _ _ _ _]. unfold known. rewrite Hown. apply pleb_refl.
  - intros n v. destruct (in_commands _ _ _ (Hn n)) as [-> _]. by intros []%elem_of_nil.
  - intros n v. destruct (in_commands _ _ _ (Hn n)) as [_ ->]. by intros []%elem_of_nil.
  - rewrite Hms. by intros msg []%elem_of_nil.
Qed.

Lemma net_reachable_inv c :
  net_reachable c → ∃ li s, spec_reachable (quorum_of m) (initial_ballot n0) li s ∧ net_inv c s.
Proof.
  intros (c0 & H0 & Hs). destruct (net_init_inv _ H0) as (li & s0 & Hs0 & Hi0). exists li.
  assert (spec_reachable (quorum_of m) (initial_ballot n0) li s0) as Hr0 by (exists s0; split; [done|apply rtc_refl]).
  clear H0 Hs0. revert s0 Hi0 Hr0. induction Hs as [c|c c1 c' Hs _ IH]; intros s0 Hi0 Hr0; [by exists s0|].
  destruct (net_inv_step _ _ _ Hi0 Hs) as (n & s1 & Hst & Hi1). apply (IH s1 Hi1).
  destruct Hr0 as (si & Hsi & Hrt). exists si. split; [done|]. trans s0; [done|].
  clear -Hst. induction Hst as [|x y z Hxy _ IH]; [apply rtc_refl|]. eapply rtc_l; [by exists n|done].
Qed.

(** The log at [i] is not purged, or the last one that is: its id is kept. *)
Definition keeps_log (st : RaftState) (i : N) : Prop := ∀ p, last_purged_log_id st = Some p → (LogId_index p ≤ i)%N.

Lemma kept_lookup c s n i :
  net_inv c s → keeps_log (Engine_state (net_engine c n)) i →
  get_log_id (Engine_state (net_engine c n)) i = log s n !! N.to_nat i.
Proof.
  intros Hi Hk. pose proof (nv_node _ _ Hi n) as Hn. apply (ni_get m n0 _ _ _ _ Hn).
  rewrite (first_index_purged _ (hl_wf _ _ _ (ni_logs _ _ _ _ _ Hn))). unfold keeps_log, last_purged_log_id in Hk.
  destruct (LogIdList_purged _) as [p|]; [|lia]. specialize (Hk p eq_refl). lia.
Qed.

Lemma committed_lookup c s n i :
  net_inv c s → (i < next_index (local_committed (Engine_state (net_engine c n))))%N →
  keeps_log (Engine_state (net_engine c n)) i →
  get_log_id (Engine_state (net_engine c n)) i = cmt s n !! N.to_nat i ∧ N.to_nat i < length (cmt s n).
Proof.
  intros Hi Hlt Hk. pose proof (nv_node _ _ Hi n) as Hn.
  destruct (ni_committed_log m n0 _ _ _ (nv_sound _ _ Hi) Hn) as [Hp Hx]. rewrite Hx in Hlt.
  assert (N.to_nat i < length (cmt s n)) as Hl by lia. split; [|done].
  rewrite (kept_lookup _ _ _ _ Hi Hk). symmetry. by apply prefix_lookup_lt.
Qed.

(** ** Properties *)

(** C2: the cluster implements Raft: whatever messages are lost, delayed,
    repeated or reordered, and whatever logs are purged or replaced by
    snapshots, the nodes of a cluster that act under one membership go through
    states of the protocol of [RaftSpec.v]: the log of a node there is what it
    has purged, all of it committed, followed by the log of its engine, and what
    it takes to be committed and the logs of leaders are those of the engines. *)
Theorem cluster_refines_raft c :
  net_reachable c → ∃ li s, spec_reachable (quorum_of m) (initial_ballot n0) li s ∧
    ∀ n, let st := Engine_state (net_engine c n) in
      (∃ purged, log s n = purged ++ LogIdList_ids (RaftState_log_ids st) ∧ purged `prefix_of` cmt s n ∧
        last purged = last_purged_log_id st) ∧
      last (cmt s n) = local_committed st ∧
      ∀ l, Engine_leader (net_engine c n) = Some l → hist s (led_by (Leader_committed_vote l)) = Some (log s n).
Proof.
  intros (li & s & Hr & Hi)%net_reachable_inv. exists li, s. split; [done|]. intros n. pose proof (nv_node _ _ Hi n) as Hn.
  split_and!; [|by apply Hn|intros l El; by apply (ni_leader _ _ _ _ _ Hn)].
  destruct (hl_log _ _ _ (ni_logs _ _ _ _ _ Hn)) as (g & ? & ? & ? & _). by exists g.
Qed.

(** C1: state machine safety: in every reachable state of a cluster, two nodes
    that have both committed the index [i] have the same log there, so that
    their state machines apply the same entries, unless one of them has purged
    it. *)
Theorem committed_logs_agree c n n' (i : N) :
  let st := Engine_state (net_engine c n) in
  let st' := Engine_state (net_engine c n') in
  net_reachable c → (i < next_index (local_committed st))%N → (i < next_index (local_committed st'))%N →
  keeps_log st i → keeps_log st' i →
  ∃ x, get_log_id st i = Some x ∧ get_log_id st' i = Some x.
Proof.
  intros st st' (li & s & _ & Hi)%net_reachable_inv H1 H2 K1 K2.
  destruct (committed_lookup _ _ _ _ Hi H1 K1) as [E1 L1], (committed_lookup _ _ _ _ Hi H2 K2) as [E2 L2].
  destruct (lookup_lt_is_Some_2 _ _ L1) as [x Hx]. exists x. unfold st, st'. rewrite E1, E2. split; [done|].
  destruct (nv_sound _ _ Hi) as [Hsi Hci]. rewrite <- Hx.
  destruct (committed_agree _ (quorums_meet m Hm) _ _ n n' Hsi Hci) as [Hp|Hp].
  - symmetry. by apply prefix_lookup_lt.
  - by apply prefix_lookup_lt.
Qed.

(** C3: leader completeness: in every reachable state of a cluster, the log of a
    leader reaches every index that a node whose vote is not after the vote of
    the leader has committed, and has the same log there unless one of them has
    purged it. *)
Theorem leader_has_committed c n n' l (i : N) :
  let e := net_engine c n in
  let e' := net_engine c n' in
  net_reachable c → Engine_leader e' = Some l → pleb (local_vote e) (local_vote e') = true →
  (i < next_index (local_committed (Engine_state e)))%N →
  (i < next_index (last_log_id (Engine_state e')))%N ∧
  (keeps_log (Engine_state e) i → keeps_log (Engine_state e') i →
    ∃ x, get_log_id (Engine_state e) i = Some x ∧ get_log_id (Engine_state e') i = Some x).
Proof.
  intros e e' (li & s & _ & Hi)%net_reachable_inv El Hle H1.
  pose proof (nv_node _ _ Hi n) as Hn. pose proof (nv_node _ _ Hi n') as Hn'.
  pose proof (ni_leads m n0 _ _ _ _ Hn' El) as Hled.
  assert (cmt s n `prefix_of` log s n') as Hp.
  { eapply (cmt_follows m n0 Hm); [apply Hi| |apply Hled].
    destruct (si_acc _ _ _ (proj1 (nv_sound _ _ Hi)) n) as (_ & _ & Hab).
    pose proof (vote_ballot_le n0 _ _ Hle) as Hvb. rewrite <- (ld_bal _ _ _ Hled).
    unfold e, e' in Hvb. rewrite <- (ni_bal _ _ _ _ _ Hn), <- (ni_bal _ _ _ _ _ Hn') in Hvb. ord. }
  split.
  { unfold e, e' in *. rewrite (ni_next m n0 _ _ _ Hn'). destruct (ni_committed_log m n0 _ _ _ (nv_sound _ _ Hi) Hn) as [_ Hx].
    rewrite Hx in H1. apply prefix_length in Hp. lia. }
  intros K1 K2. destruct (committed_lookup _ _ _ _ Hi H1 K1) as [E1 L1].
  destruct (lookup_lt_is_Some_2 _ _ L1) as [x Hx]. exists x. unfold e, e'. rewrite E1, (kept_lookup _ _ _ _ Hi K2).
  split; [done|]. by eapply prefix_lookup_Some.
Qed.

(** C4: log matching: in every reachable state of a cluster, two nodes with the
    same log at an index have the same logs before it, as far as they have not
    purged them. *)
Theorem logs_match c n n' (i j : N) x :
  let st := Engine_state (net_engine c n) in
  let st' := Engine_state (net_engine c n') in
  net_reachable c → get_log_id st i = Some x → get_log_id st' i = Some x → (j ≤ i)%N → keeps_log st j → keeps_log st' j →
  get_log_id st j = get_log_id st' j.
Proof.
  intros st st' (li & s & _ & Hi)%net_reachable_inv H1 H2 Hj K1 K2. unfold st in H1 |- *. unfold st' in H2 |- *.
  apply (ni_get_Some m n0 _ _ _ _ _ (nv_node _ _ Hi n)) in H1. apply (ni_get_Some m n0 _ _ _ _ _ (nv_node _ _ Hi n')) in H2.
  rewrite (kept_lookup _ _ _ _ Hi K1), (kept_lookup _ _ _ _ Hi K2).
  destruct (nv_sound _ _ Hi) as [Hsi _].
  pose proof (good_match s _ _ _ _ (si_log _ _ _ Hsi n) (si_log _ _ _ Hsi n') H1 H2) as Heq.
  rewrite <- (lookup_take_lt (log s n) (S (N.to_nat i))), Heq, lookup_take_lt by lia. done.
Qed.
End network.

(** ** Witnesses *)

Module LogSafetyWitness.
#[local] Existing Instance std_config.
Import VoteHandlerWitness ClusterWitness.
#[local] Existing Instance env.

Definition fresh (n : N) : World := mkWorld (Engine_new (RaftState_new n) (EngineConfig_new n Config_default 200)) 0 0.
Definition world_of {A} (o : outcome (A * World)) : World := match o with Ret (_, w) => w | Panic => fresh 0 end.
Definition returned {A} (o : outcome A) : bool := match o with Ret _ => true | Panic => false end.

(** Node 1 has initialized the cluster. *)
Definition net0 : Network :=
  mkNetwork (λ n, if decide (n = 1%N) then world_of (Engine_initialize m3 (fresh 1)) else fresh n) [].

(** The steps as functions; the runtime runs what node 1 has queued. *)
Definition do_event (c : Network) (n : N) (ev : Event) : Network := net_moved c n (world_of (handle ev (net_nodes c n))) [].
Definition do_request (c : Network) (n : N) (req : VoteRequest) : Network :=
  match handle_vote_request req 0%N (net_nodes c n) with
  | Ret (resp, w) => net_moved c n w [Message_VoteResponse n req resp]
  | Panic => c
  end.
Definition do_command (c : Network) (n : N) : Network :=
  match commands (net_engine c n) with
  | cmd :: rest => net_moved c n (mkWorld (take_command (net_engine c n) rest) (w_clock_reads (net_nodes c n))
      (w_random_draws (net_nodes c n))) (command_message n cmd)
  | [] => c
  end.
Definition do_receive (c : Network) (n : N) (leader : CommittedVote) (segment : LogSegment) (committed : option LogId) :
    Network :=
  let w := world_of (receive_entries (CommittedVote_into_vote leader) segment committed 0%N (net_nodes c n)) in
  net_moved c n w (accepted_message n leader (w_engine w)).

Definition do_install (c : Network) (n : N) (leader : CommittedVote) (snapshot : Snapshot) : Network :=
  let w := world_of (handle_install_full_snapshot (CommittedVote_into_vote leader) snapshot 0%N (net_nodes c n)) in
  net_moved c n w (installed_message n leader (Snapshot_meta snapshot) (w_engine w)).

Definition log_id (t i : N) : LogId := mkLogId (LeaderId_to_committed (LeaderId_new t 1)) i.
Definition vote1 : Vote := Vote_new 1 1.
Definition leader1 : CommittedVote := Vote_to_committed vote1.
Definition request1 : VoteRequest := mkVoteRequest vote1 (Some (log_id 0 0)) false false.
Definition granted1 : VoteResponse := mkVoteResponse vote1 true None.
Definition entries1 : list Entry :=
  [Entry_new_membership (log_id 0 0) m3; mkEntry (log_id 1 1) EntryPayload_Blank].

Definition net1 : Network := do_command net0 1.
Definition net2 : Network := do_event net1 1 Event_Elect.
Definition net3 : Network := do_command net2 1.
Definition net4 : Network := do_command net3 1.
Definition net5 : Network := do_request net4 2 request1.
Definition net6 : Network := do_event net5 1 (Event_VoteResp 1 granted1).
Definition net7 : Network := do_event net6 1 (Event_VoteResp 2 granted1).
Definition net8 : Network := do_event net7 1 (Event_LocalProgress (Some (log_id 1 1))).
Definition net9 : Network := net_moved net8 1 (net_nodes net8 1) [Message_Committed leader1 None].
Definition net10 : Network :=
  net_moved net9 1 (net_nodes net9 1) [Message_Entries leader1 (mkLogSegment None entries1) None].
Definition net11 : Network := do_receive net10 2 leader1 (mkLogSegment None entries1) None.
Definition net12 : Network :=
  do_event net11 1 (Event_ReplicationProgress 2 2 (Some (Ok (Some (log_id 1 1)))) (Some 1%N)).
Definition net13 : Network := net_moved net12 1 (net_nodes net12 1) [Message_Committed leader1 (Some (log_id 1 1))].
Definition net14 : Network :=
  net_moved net13 1 (net_nodes net13 1) [Message_Entries leader1 (mkLogSegment (Some (log_id 1 1)) []) (Some (log_id 1 1))].
Definition net15 : Network := do_receive net14 2 leader1 (mkLogSegment (Some (log_id 1 1)) []) (Some (log_id 1 1)).

(** Node 1 makes a snapshot and sends it to node 3, after which it purges the
    logs that the snapshot covers. *)
Definition meta1 : SnapshotMeta := mkSnapshotMeta (Some (log_id 1 1)) (mkStoredMembership (Some (log_id 0 0)) m3).
Definition net16 : Network := net_moved net15 1 (net_nodes net15 1) [Message_Snapshot 1 meta1].
Definition net17 : Network := do_event net16 1 (Event_SnapshotBuilt (Some meta1)).
Definition net18 : Network := do_event net17 1 (Event_PurgeLog 1).
Definition net19 : Network := net_moved net18 1 (net_nodes net18 1) [Message_SendSnapshot leader1 meta1].
Definition net20 : Network := do_install net19 3 leader1 (mkSnapshot meta1 tt).
Definition net21 : Network :=
  do_event net20 1 (Event_ReplicationProgress 3 3 (Some (Ok (Some (log_id 1 1)))) (Some 2%N)).

Lemma event_step c n ev :
  effective_membership (net_engine c n) = m3 → net_ok c n ev → returned (handle ev (net_nodes c n)) = true →
  net_step m3 c (do_event c n ev).
Proof.
  intros Hm Hok Hr. unfold do_event. destruct (handle ev _) as [[[] w]|] eqn:E; [|done]. cbn. by eapply net_event.
Defined.
Lemma request_step c n req :
  Message_VoteRequest req ∈ net_messages c → returned (handle_vote_request req 0%N (net_nodes c n)) = true →
  net_step m3 c (do_request c n req).
Proof.
  intros Hin Hr. unfold do_request. destruct (handle_vote_request _ _ _) as [[resp w]|] eqn:E; [|done].
  by eapply net_vote_request.
Defined.
Lemma command_step c n :
  negb (bool_decide (length (commands (net_engine c n)) = 0)) = true → net_step m3 c (do_command c n).
Proof. unfold do_command. intros Hne. destruct (commands _) as [|cmd rest] eqn:E; [done|]. by eapply net_command. Defined.
Lemma receive_step c n leader segment committed :
  Message_Entries leader segment committed ∈ net_messages c → LeaderId_node_id (CommittedVote_leader_id leader) ≠ n →
  returned (receive_entries (CommittedVote_into_vote leader) segment committed 0%N (net_nodes c n)) = true →
  net_step m3 c (do_receive c n leader segment committed).
Proof.
  intros Hin Hne Hr. unfold do_receive. destruct (receive_entries _ _ _ _ _) as [[[] w]|] eqn:E; [|done]. cbn.
  by eapply net_receive.
Defined.
Lemma install_step c n leader snapshot :
  Message_SendSnapshot leader (Snapshot_meta snapshot) ∈ net_messages c → LeaderId_node_id (CommittedVote_leader_id leader) ≠ n →
  returned (handle_install_full_snapshot (CommittedVote_into_vote leader) snapshot 0%N (net_nodes c n)) = true →
  net_step m3 c (do_install c n leader snapshot).
Proof.
  intros Hin Hne Hr. unfold do_install. destruct (handle_install_full_snapshot _ _ _ _) as [[[] w]|] eqn:E; [|done]. cbn.
  by eapply net_receive_snapshot.
Defined.
Lemma snapshot_step c n meta :
  snapshot_of (Engine_state (net_engine c n)) meta → net_step m3 c (net_moved c n (net_nodes c n) [Message_Snapshot n meta]).
Proof. apply net_snapshot. Defined.
Lemma send_snapshot_step c n leader meta :
  Leader_committed_vote <$> Engine_leader (net_engine c n) = Some leader → Message_Snapshot n meta ∈ net_messages c →
  net_step m3 c (net_moved c n (net_nodes c n) [Message_SendSnapshot leader meta]).
Proof. intros (l & El & ->)%fmap_Some Hin. by apply net_send_snapshot. Defined.

Lemma commit_step c n leader committed :
  Leader_committed_vote <$> Engine_leader (net_engine c n) = Some leader →
  cluster_committed (Engine_state (net_engine c n)) = committed →
  net_step m3 c (net_moved c n (net_nodes c n) [Message_Committed leader committed]).
Proof. intros (l & El & ->)%fmap_Some <-. by apply net_commit. Defined.
Lemma send_step c n leader prev entries committed :
  Leader_committed_vote <$> Engine_leader (net_engine c n) = Some leader →
  log_slice (Engine_state (net_engine c n)) prev entries → Message_Committed leader committed ∈ net_messages c →
  net_step m3 c (net_moved c n (net_nodes c n) [Message_Entries leader (mkLogSegment prev entries) committed]).
Proof. intros (l & El & ->)%fmap_Some Hs Hin. by apply net_send. Defined.

(** The message at a place of the list. *)
Lemma sent_at c i msg : net_messages c !! i = Some msg → msg ∈ net_messages c.
Proof. apply list_elem_of_lookup_2. Defined.

(** The entries are logs of the leader when they are where they should be. *)
Lemma slice_at st prev entries :
  match prev with Some x => get_log_id st (LogId_index x) | None => None end = prev →
  imap (λ i _, get_log_id st (next_index prev + N.of_nat i)%N) entries = (λ ent, Some (Entry_log_id ent)) <$> entries →
  log_slice st prev entries.
Proof.
  intros Hp He. split; [by intros x ->|]. intros i ent Hi. apply (f_equal (.!! i)) in He.
  rewrite list_lookup_imap, list_lookup_fmap, Hi in He. cbn in He. by injection He.
Defined.

Lemma net0_init : net_init 1 net0.
Proof.
  split; [reflexivity|]. exists [log_id 0 0]. split.
  { intros [|i] x; [|done]. cbn. intros [= <-]. reflexivity. }
  intros n. unfold net_engine. cbn. case_decide as E; [subst n|].
  - split; try reflexivity; try (split; reflexivity); [|intros a Ha; discriminate Ha].
    split; [|split; [reflexivity|right; reflexivity]]. split; [exact I|]. split; [|repeat constructor].
    vm_compute. repeat split; done.
  - split; try reflexivity; try (split; reflexivity); [|intros a Ha; discriminate Ha].
    split; [|split; [reflexivity|left; reflexivity]]. split; [exact I|]. split; [exact I|constructor].
Defined.

Ltac by_computation := vm_compute; reflexivity.

Lemma net15_reachable : net_reachable m3 1 net15.
Proof.
  exists net0. split; [exact net0_init|].
  apply (rtc_l _ _ net1). { apply command_step. by_computation. }
  apply (rtc_l _ _ net2). { apply event_step; [by_computation|exact I|by_computation]. }
  apply (rtc_l _ _ net3). { apply command_step. by_computation. }
  apply (rtc_l _ _ net4). { apply command_step. by_computation. }
  apply (rtc_l _ _ net5). { apply request_step; [apply (sent_at _ 0); by_computation|by_computation]. }
  apply (rtc_l _ _ net6).
  { apply event_step; [by_computation| |by_computation]. split; [by_computation|right].
    split; [reflexivity|apply (sent_at _ 2); by_computation]. }
  apply (rtc_l _ _ net7).
  { apply event_step; [by_computation| |by_computation]. split; [by_computation|left].
    exists request1. split; [apply (sent_at _ 0); by_computation|reflexivity]. }
  apply (rtc_l _ _ net8).
  { apply event_step; [by_computation| |by_computation]. intros x [= <-]. by_computation. }
  apply (rtc_l _ _ net9).
  { apply commit_step; by_computation. }
  apply (rtc_l _ _ net10).
  { apply send_step; [by_computation|apply slice_at; by_computation|apply (sent_at _ 0); by_computation]. }
  apply (rtc_l _ _ net11). { apply receive_step; [apply (sent_at _ 0); by_computation|discriminate|by_computation]. }
  apply (rtc_l _ _ net12).
  { apply event_step; [by_computation| |by_computation]. intros o l [= <-] El. vm_compute in El. injection El as <-.
    split; [|apply (sent_at _ 0); by_computation]. intros old Hold. vm_compute in Hold. injection Hold as <-.
    apply leb_true. by_computation. }
  apply (rtc_l _ _ net13). { apply commit_step; by_computation. }
  apply (rtc_l _ _ net14).
  { apply send_step; [by_computation|apply slice_at; by_computation|apply (sent_at _ 0); by_computation]. }
  apply (rtc_l _ _ net15). { apply receive_step; [apply (sent_at _ 0); by_computation|discriminate|by_computation]. }
  apply rtc_refl.
Defined.

Lemma net21_reachable : net_reachable m3 1 net21.
Proof.
  destruct net15_reachable as (c0 & Hc0 & Hs). exists c0. split; [exact Hc0|]. trans net15; [exact Hs|].
  apply (rtc_l _ _ net16). { apply snapshot_step. intros x [= <-]. split; [by_computation|]. apply leb_true. by_computation. }
  apply (rtc_l _ _ net17).
  { apply event_step; [by_computation| |by_computation]. intros mt [= <-]. apply (sent_at _ 0). by_computation. }
  apply (rtc_l _ _ net18). { apply event_step; [by_computation|exact I|by_computation]. }
  apply (rtc_l _ _ net19). { apply send_snapshot_step; [by_computation|apply (sent_at _ 0); by_computation]. }
  apply (rtc_l _ _ net20). { apply install_step; [apply (sent_at _ 0); by_computation|discriminate|by_computation]. }
  apply (rtc_l _ _ net21).
  { apply event_step; [by_computation| |by_computation]. intros o l [= <-] El. vm_compute in El. injection El as <-.
    split; [|apply (sent_at _ 0); by_computation]. intros old Hold. vm_compute in Hold. injection Hold as <-.
    apply leb_true. by_computation. }
  apply rtc_refl.
Defined.

Lemma net_members : Membership_configs m3 ≠ [].
Proof. intros [=]. Defined.

Ltac kept := intros p Hp; vm_compute in Hp; (discriminate Hp || injection Hp as <-; vm_compute; discriminate).

(** Nodes 1 and 3 have committed and purged the first log of the leader. *)
Lemma committed_logs_agree_witness :
  ∃ x, get_log_id (Engine_state (net_engine net21 1)) 1 = Some x ∧ get_log_id (Engine_state (net_engine net21 3)) 1 = Some x.
Proof. apply (committed_logs_agree m3 1 net_members net21 1 3 1 net21_reachable); [by_computation|by_computation|kept|kept]. Defined.

Lemma leader_has_committed_witness :
  ∃ x, get_log_id (Engine_state (net_engine net21 2)) 1 = Some x ∧ get_log_id (Engine_state (net_engine net21 1)) 1 = Some x.
Proof.
  destruct (Engine_leader (net_engine net21 1)) as [l|] eqn:El; [|vm_compute in El; discriminate El].
  apply (leader_has_committed m3 1 net_members net21 2 1 l 1 net21_reachable El); [by_computation|by_computation|kept|kept].
Defined.

Lemma logs_match_witness :
  get_log_id (Engine_state (net_engine net15 1)) 0 = get_log_id (Engine_state (net_engine net15 2)) 0.
Proof.
  apply (logs_match m3 1 net_members net15 1 2 1 0 (log_id 1 1) net15_reachable);
    [by_computation|by_computation|vm_compute; discriminate|kept|kept].
Defined.

(** Node 3 has the snapshot only: what it has purged are two logs. *)
Lemma cluster_refines_raft_witness :
  ∃ li s, spec_reachable (quorum_of m3) (initial_ballot 1) li s ∧ last (cmt s 3%N) = Some (log_id 1 1) ∧
    last (log s 3%N) = Some (log_id 1 1).
Proof.
  destruct (cluster_refines_raft m3 1 net_members net21 net21_reachable) as (li & s & Hr & Hn). exists li, s.
  split; [exact Hr|]. destruct (Hn 3%N) as ((g & Hl & _ & Hg) & Hc & _).
  rewrite Hc, Hl. replace (LogIdList_ids _) with (@nil LogId) by by_computation. rewrite app_nil_r, Hg.
  split; by_computation.
Defined.
End LogSafetyWitness.
