(* ===== verification/ReadQueue.v ===== *)
(** * Linearizable reads: options, linearizers and the queue of pending reads

    [raft/linearizable_read/linearizer_option.rs], [linearize_state.rs],
    [linearizer.rs], [errors/linearizable_read_error.rs] and
    [core/linearizable_read/pending_read_queue.rs] with its two key types.

    The queue keeps two [BTreeMap]s over the same reads: one in the order of
    the quorum acknowledgement each read waits for, one in the order of the
    deadlines.  A [BTreeMap] is here an association list sorted by key. *)

From S2P Require Import Prelude Vote LogId LogIdList Quorum Membership VecProgress IOState.
From S2P Require Import MembershipState Entry RaftState Config ProgressEntry Proposer Command.
From S2P Require Import Engine Replication Following LeaderHandler.

(** ** [BTreeMap] *)

Lemma Forall_filter {A} (Q P : A → Prop) `{!∀ x, Decision (P x)} (l : list A) :
  Forall Q l → Forall Q (filter P l).
Proof. rewrite !Forall_forall. intros Hl x [_ Hx]%list_elem_of_filter. by apply Hl. Qed.

Section btree.
Context {K V : Type} `{!Ord K}.

Fixpoint BTreeMap_insert (k : K) (v : V) (l : list (K * V)) : list (K * V) :=
  match l with
  | [] => [(k, v)]
  | (k', v') :: l' =>
      match cmp k k' with
      | Lt => (k, v) :: l
      | Eq => (k, v) :: l'
      | Gt => (k', v') :: BTreeMap_insert k v l'
      end
  end.

(** [remove]: the value and the map without it, [None] without such a key. *)
Fixpoint BTreeMap_remove (k : K) (l : list (K * V)) : option (V * list (K * V)) :=
  match l with
  | [] => None
  | (k', v') :: l' =>
      match cmp k k' with
      | Lt => None
      | Eq => Some (v', l')
      | Gt => '(v, l'') ← BTreeMap_remove k l'; Some (v, (k', v') :: l'')
      end
  end.

Definition key_lt (a b : K * V) : Prop := a.1 ≺ b.1.
Definition bsorted (l : list (K * V)) : Prop := StronglySorted key_lt l.

Context `{!OrdLaws K}.

Lemma BTreeMap_insert_perm k v l :
  k ∉ l.*1 → BTreeMap_insert k v l ≡ₚ (k, v) :: l.
Proof.
  induction l as [|[k' v'] l IH]; [done|]; simpl. intros Hk.
  apply not_elem_of_cons in Hk as [Hne Hk]. destruct (cmp k k') eqn:E; [|done|].
  - by apply cmp_eq in E.
  - rewrite IH by done. apply Permutation_swap.
Qed.

Lemma BTreeMap_insert_Forall (P : K * V → Prop) k v l :
  P (k, v) → Forall P l → Forall P (BTreeMap_insert k v l).
Proof.
  intros Hk. induction 1 as [|[k' v'] l Ha Hl IH]; simpl; [by constructor|].
  destruct (cmp k k'); by repeat constructor.
Qed.

Lemma BTreeMap_insert_sorted k v l : bsorted l → bsorted (BTreeMap_insert k v l).
Proof.
  unfold bsorted. induction 1 as [|[k' v'] l Hl IH Hf]; simpl; [repeat constructor|].
  destruct (cmp k k') eqn:E.
  - apply cmp_eq in E as ->. constructor; [done|]. exact Hf.
  - constructor; [by constructor|]. constructor; [done|].
    eapply Forall_impl; [exact Hf|]. intros [a b] Hab. by apply (ord_lt_trans _ k').
  - constructor; [done|]. apply BTreeMap_insert_Forall; [|done].
    unfold key_lt, ord_lt; simpl. by rewrite cmp_flip, E.
Qed.

(** Removing a key that is there finds its value and takes out one entry. *)
Lemma BTreeMap_remove_Some k v l :
  bsorted l → (k, v) ∈ l →
  ∃ l', BTreeMap_remove k l = Some (v, l') ∧ l ≡ₚ (k, v) :: l' ∧ bsorted l'.
Proof.
  unfold bsorted. induction 1 as [|[k' v'] l Hl IH Hf]; intros Hin; [by apply elem_of_nil in Hin|].
  apply elem_of_cons in Hin as [[= -> ->]|Hin]; simpl.
  - rewrite cmp_refl. eauto.
  - assert (k' ≺ k) as Hlt by (rewrite Forall_forall in Hf; apply (Hf _ Hin)).
    assert (cmp k k' = Gt) as -> by (rewrite cmp_flip; unfold ord_lt in Hlt; by rewrite Hlt).
    destruct (IH Hin) as (l' & -> & Hp & Hs). simpl. eexists. split; [done|]. split.
    + rewrite Hp. apply Permutation_swap.
    + constructor; [done|]. eapply Forall_impl; [|done].
      rewrite Hp in Hf. by inversion Hf.
Qed.

Lemma bsorted_filter (P : K * V → Prop) `{!∀ x, Decision (P x)} l : bsorted l → bsorted (filter P l).
Proof.
  unfold bsorted. induction 1 as [|kv l Hl IH Hf]; [constructor|].
  rewrite filter_cons. case_decide; [|done]. constructor; [done|]. by apply Forall_filter.
Qed.

(** Two sorted maps with the same entries are equal. *)
Lemma bsorted_unique l1 l2 : bsorted l1 → bsorted l2 → l1 ≡ₚ l2 → l1 = l2.
Proof.
  unfold bsorted. revert l2. induction l1 as [|[k v] l1 IH]; intros l2 H1 H2 Hp.
  { by apply Permutation_nil_l in Hp. }
  destruct l2 as [|[k' v'] l2]; [by apply Permutation_nil_r in Hp|].
  inversion H1 as [|?? H1s H1f]; subst. inversion H2 as [|?? H2s H2f]; subst.
  assert ((k, v) = (k', v')) as [= -> ->].
  { assert ((k, v) ∈ (k', v') :: l2) as Hin by (rewrite <- Hp; left).
    assert ((k', v') ∈ (k, v) :: l1) as Hin' by (rewrite Hp; left).
    apply elem_of_cons in Hin as [?|Hin]; [done|]. apply elem_of_cons in Hin' as [?|Hin']; [done|].
    rewrite Forall_forall in H1f, H2f. specialize (H1f _ Hin'). specialize (H2f _ Hin).
    unfold key_lt in *; simpl in *. exfalso. by apply (ord_lt_irrefl k), (ord_lt_trans k k'). }
  f_equal. apply IH; [done|done|]. by apply (Permutation_cons_inv (a := (k', v'))).
Qed.
End btree.

(** ** Keys of the queue: derived lexicographic orders *)

Record PendingReadKey := mkPendingReadKey {
  min_quorum_acked_at : Instant;
  PendingReadKey_sequence : u64;
}.

Record PendingReadDeadlineKey := mkPendingReadDeadlineKey {
  PendingReadDeadlineKey_deadline : Instant;
  PendingReadDeadlineKey_sequence : u64;
}.

#[export] Instance PendingReadKey_ord : Ord PendingReadKey := λ a b,
  lex (cmp (min_quorum_acked_at a) (min_quorum_acked_at b))
    (cmp (PendingReadKey_sequence a) (PendingReadKey_sequence b)).
#[export] Instance PendingReadDeadlineKey_ord : Ord PendingReadDeadlineKey := λ a b,
  lex (cmp (PendingReadDeadlineKey_deadline a) (PendingReadDeadlineKey_deadline b))
    (cmp (PendingReadDeadlineKey_sequence a) (PendingReadDeadlineKey_sequence b)).

(** The lexicographic comparison of two pairs of numbers. *)
Lemma lex_N_eq (a b c d : N) : lex (cmp a b) (cmp c d) = Eq ↔ a = b ∧ c = d.
Proof. unfold lex, cmp, N_ord. destruct (N.compare_spec a b), (N.compare_spec c d); naive_solver lia. Qed.

Lemma lex_N_lt (a b c d : N) :
  lex (cmp a b) (cmp c d) = Lt ↔ (a < b ∨ (a = b ∧ c < d))%N.
Proof. unfold lex, cmp, N_ord. destruct (N.compare_spec a b), (N.compare_spec c d); naive_solver lia. Qed.

Lemma lex_N_flip (a b c d : N) :
  lex (cmp b a) (cmp d c) = CompOpp (lex (cmp a b) (cmp c d)).
Proof.
  unfold lex, cmp, N_ord. rewrite (N.compare_antisym a b), (N.compare_antisym c d).
  by destruct (a ?= b)%N, (c ?= d)%N.
Qed.

#[export] Instance PendingReadKey_ord_laws : OrdLaws PendingReadKey.
Proof.
  split; unfold cmp at 1, PendingReadKey_ord at 1.
  - intros [a b] [c d]; simpl. rewrite lex_N_eq. naive_solver.
  - intros [a b] [c d]. apply lex_N_flip.
  - intros [a b] [c d] [e f]; unfold cmp, PendingReadKey_ord; simpl. rewrite !lex_N_lt. lia.
Qed.

#[export] Instance PendingReadDeadlineKey_ord_laws : OrdLaws PendingReadDeadlineKey.
Proof.
  split; unfold cmp at 1, PendingReadDeadlineKey_ord at 1.
  - intros [a b] [c d]; simpl. rewrite lex_N_eq. naive_solver.
  - intros [a b] [c d]. apply lex_N_flip.
  - intros [a b] [c d] [e f]; unfold cmp, PendingReadDeadlineKey_ord; simpl. rewrite !lex_N_lt. lia.
Qed.

Section reads.
Context {C : RaftTypeConfig}.

(** ** Options of a read *)

Inductive ReadPolicy :=
| ReadPolicy_LeaseRead
| ReadPolicy_ReadIndex.

Record LinearizerOption := mkLinearizerOption {
  max_quorum_ack_age : option Duration;
  heartbeat_if_quorum_ack_stale : bool;
  wait_timeout : option Duration;
}.

Definition LinearizerOption_new (max_quorum_ack_age : option Duration) (heartbeat : bool) :
    LinearizerOption := mkLinearizerOption max_quorum_ack_age heartbeat None.

Definition with_wait_timeout (o : LinearizerOption) (t : Duration) : LinearizerOption :=
  mkLinearizerOption (max_quorum_ack_age o) (heartbeat_if_quorum_ack_stale o) (Some t).

Definition effective_max_quorum_ack_age (o : LinearizerOption) (leader_lease : Duration) : Duration :=
  omin (default leader_lease (max_quorum_ack_age o)) leader_lease.

Definition effective_wait_timeout (o : LinearizerOption) (leader_lease : Duration) : Duration :=
  default leader_lease (wait_timeout o).

Definition from_read_policy (p : ReadPolicy) : LinearizerOption :=
  match p with
  | ReadPolicy_LeaseRead => with_wait_timeout (LinearizerOption_new None false) 0
  | ReadPolicy_ReadIndex => LinearizerOption_new (Some 0%N) true
  end.

(** ** Linearizers *)

Record LinearizeState := mkLinearizeState {
  LinearizeState_node_id : u64;
  LinearizeState_read_log_id : LogId;
  LinearizeState_applied : option LogId;
}.

(** [LinearizeState::with_applied] *)
Definition LinearizeState_with_applied (s : LinearizeState) (node_id : u64)
    (applied : option LogId) : LinearizeState :=
  mkLinearizeState node_id (LinearizeState_read_log_id s) applied.

Definition is_ready_on_node (s : LinearizeState) (node_id : u64) : bool :=
  bool_decide (LinearizeState_node_id s = node_id) &&
  (LinearizeState_applied s >=? Some (LinearizeState_read_log_id s)).

Record Linearizer := mkLinearizer { Linearizer_state : LinearizeState }.

Definition Linearizer_new (node_id : u64) (read_log_id : LogId) (applied : option LogId) :
    Linearizer := mkLinearizer (mkLinearizeState node_id read_log_id applied).

(** [Linearizer::with_applied] *)
Definition Linearizer_with_applied (l : Linearizer) (applied : option LogId) : Linearizer :=
  mkLinearizer (LinearizeState_with_applied (Linearizer_state l)
    (LinearizeState_node_id (Linearizer_state l)) applied).

(** [QuorumNotEnough]; [cluster] is the printed quorum set, kept as the
    membership that is printed. *)
Record QuorumNotEnough := mkQuorumNotEnough {
  QuorumNotEnough_cluster : Membership;
  QuorumNotEnough_got : gset N;
}.

Definition clock_quorum_not_enough (l : Leader) (min_acked_at : Instant) : QuorumNotEnough :=
  mkQuorumNotEnough (VecProgress_quorum_set (Leader_clock_progress l))
    (clock_quorum_not_enough_got l min_acked_at).

Inductive LinearizableReadError :=
| LinearizableReadError_ForwardToLeader (f : ForwardToLeader)
| LinearizableReadError_QuorumNotEnough (q : QuorumNotEnough).

(** The answer to a read, on the channel of its client. *)
Definition ReadResult : Type := result Linearizer LinearizableReadError.

(** ** The queue *)

Record PendingRead := mkPendingRead {
  PendingRead_deadline : Instant;
  PendingRead_linearizer : Linearizer;
  PendingRead_response_tx : Sender;
}.

Record PendingReadQueue := mkPendingReadQueue {
  next_sequence : u64;
  reads : list (PendingReadKey * PendingRead);
  deadlines : list (PendingReadDeadlineKey * PendingReadKey);
}.

Definition PendingReadQueue_default : PendingReadQueue := mkPendingReadQueue 0 [] [].

(** [push]: the sequence number is [checked_add]ed, an overflow panics. *)
Definition PendingReadQueue_push (q : PendingReadQueue) (acked_at : Instant) (r : PendingRead) :
    outcome PendingReadQueue :=
  let sequence := next_sequence q in
  next ← (if decide (sequence + 1 < u64_modulus)%N then Ret (sequence + 1)%N else Panic);
  let key := mkPendingReadKey acked_at sequence in
  let deadline_key := mkPendingReadDeadlineKey (PendingRead_deadline r) sequence in
  Ret (mkPendingReadQueue next (BTreeMap_insert key r (reads q))
         (BTreeMap_insert deadline_key key (deadlines q))).

(** [drain_expired]: the loop takes the deadlines in order while they are not
    after [now]; the answers in the order they are sent. *)
Fixpoint drain_expired_loop (now : Instant) (make_error : Instant → LinearizableReadError)
    (ds : list (PendingReadDeadlineKey * PendingReadKey))
    (rs : list (PendingReadKey * PendingRead)) :
    outcome (list (PendingReadKey * PendingRead) * list (PendingReadDeadlineKey * PendingReadKey) *
             list (Sender * ReadResult)) :=
  match ds with
  | [] => Ret (rs, ds, [])
  | (deadline_key, key) :: ds' =>
      if (PendingReadDeadlineKey_deadline deadline_key >? now) then Ret (rs, ds, [])
      else
        '(pending_read, rs') ← unwrap (BTreeMap_remove key rs);
        let err := make_error (min_quorum_acked_at key) in
        '(rs'', ds'', sent) ← drain_expired_loop now make_error ds' rs';
        Ret (rs'', ds'', (PendingRead_response_tx pending_read, Err err) :: sent)
  end.

Definition drain_expired (q : PendingReadQueue) (now : Instant)
    (make_error : Instant → LinearizableReadError) :
    outcome (PendingReadQueue * list (Sender * ReadResult)) :=
  '(rs, ds, sent) ← drain_expired_loop now make_error (deadlines q) (reads q);
  Ret (mkPendingReadQueue (next_sequence q) rs ds, sent).

(** [drain_satisfied] *)
Fixpoint drain_satisfied_loop (quorum_acked_at : Instant) (applied : option LogId)
    (rs : list (PendingReadKey * PendingRead))
    (ds : list (PendingReadDeadlineKey * PendingReadKey)) :
    outcome (list (PendingReadKey * PendingRead) * list (PendingReadDeadlineKey * PendingReadKey) *
             list (Sender * ReadResult)) :=
  match rs with
  | [] => Ret (rs, ds, [])
  | (key, pending_read) :: rs' =>
      if (min_quorum_acked_at key >=? quorum_acked_at) then Ret (rs, ds, [])
      else
        let deadline_key :=
          mkPendingReadDeadlineKey (PendingRead_deadline pending_read) (PendingReadKey_sequence key) in
        '(_, ds') ← unwrap (BTreeMap_remove deadline_key ds);
        let linearizer := Linearizer_with_applied (PendingRead_linearizer pending_read) applied in
        '(rs'', ds'', sent) ← drain_satisfied_loop quorum_acked_at applied rs' ds';
        Ret (rs'', ds'', (PendingRead_response_tx pending_read, Ok linearizer) :: sent)
  end.

Definition drain_satisfied_reads (q : PendingReadQueue) (quorum_acked_at : Instant)
    (applied : option LogId) : outcome (PendingReadQueue * list (Sender * ReadResult)) :=
  '(rs, ds, sent) ← drain_satisfied_loop quorum_acked_at applied (reads q) (deadlines q);
  Ret (mkPendingReadQueue (next_sequence q) rs ds, sent).

(** [drain_all_with_error] *)
Definition drain_all_with_error (q : PendingReadQueue) (err : LinearizableReadError) :
    PendingReadQueue * list (Sender * ReadResult) :=
  (mkPendingReadQueue (next_sequence q) [] [],
   (λ kr, (PendingRead_response_tx kr.2, Err err)) <$> reads q).

Definition earliest_deadline (q : PendingReadQueue) : option Instant :=
  PendingReadDeadlineKey_deadline ∘ fst <$> head (deadlines q).

(** ** The two indexes agree *)

(** The entry of [deadlines] for an entry of [reads]. *)
Definition index_entry (kr : PendingReadKey * PendingRead) :
    PendingReadDeadlineKey * PendingReadKey :=
  (mkPendingReadDeadlineKey (PendingRead_deadline kr.2) (PendingReadKey_sequence kr.1), kr.1).

Definition indexes_agree (rs : list (PendingReadKey * PendingRead))
    (ds : list (PendingReadDeadlineKey * PendingReadKey)) : Prop :=
  bsorted rs ∧ bsorted ds ∧ ds ≡ₚ index_entry <$> rs.

Record queue_wf (q : PendingReadQueue) : Prop := {
  wf_indexes : indexes_agree (reads q) (deadlines q);
  wf_sequence : Forall (λ kr, PendingReadKey_sequence kr.1 < next_sequence q)%N (reads q);
}.

(** The senders of the reads that wait. *)
Definition waiting (q : PendingReadQueue) : list Sender :=
  (λ kr, PendingRead_response_tx kr.2) <$> reads q.

Definition satisfied (t : Instant) (kr : PendingReadKey * PendingRead) : Prop :=
  (min_quorum_acked_at kr.1 < t)%N.
Definition expired (now : Instant) (kr : PendingReadKey * PendingRead) : Prop :=
  (PendingRead_deadline kr.2 ≤ now)%N.
#[global] Instance satisfied_dec t kr : Decision (satisfied t kr).
Proof. unfold satisfied. apply _. Defined.
#[global] Instance expired_dec t kr : Decision (expired t kr).
Proof. unfold expired. apply _. Defined.

(** The answers that the two loops send. *)
Definition answer_satisfied (applied : option LogId) (kr : PendingReadKey * PendingRead) :
    Sender * ReadResult :=
  (PendingRead_response_tx kr.2, Ok (Linearizer_with_applied (PendingRead_linearizer kr.2) applied)).
Definition answer_expired (make_error : Instant → LinearizableReadError)
    (kr : PendingReadKey * PendingRead) : Sender * ReadResult :=
  (PendingRead_response_tx kr.2, Err (make_error (min_quorum_acked_at kr.1))).

Lemma drain_expired_loop_spec now make_error ds rs :
  indexes_agree rs ds →
  ∃ rs' ds' answered,
    drain_expired_loop now make_error ds rs =
      Ret (rs', ds', answer_expired make_error <$> answered) ∧
    rs ≡ₚ answered ++ rs' ∧ indexes_agree rs' ds' ∧
    (index_entry <$> answered) ++ ds' = ds ∧
    Forall (expired now) answered ∧ Forall (λ kr, ¬ expired now kr) rs'.
Proof.
  revert rs. induction ds as [|[dk k] ds IH]; intros rs (Hrs & Hds & Hp); simpl.
  { symmetry in Hp. apply Permutation_nil_r, fmap_nil_inv in Hp as ->.
    exists [], [], []. repeat split; try done; constructor. }
  destruct (ltb_spec now (PendingReadDeadlineKey_deadline dk)) as [Hlt|Hle].
  - rewrite N_ord_lt in Hlt. exists rs, ((dk, k) :: ds), []. repeat split; try done.
    apply Forall_forall. intros kr Hkr. cbn beta.
    assert (index_entry kr ∈ (dk, k) :: ds) as Hin
      by (rewrite Hp; apply list_elem_of_fmap; eauto).
    assert (PendingReadDeadlineKey_deadline dk ≤ PendingRead_deadline kr.2)%N; [|unfold expired; cbn beta in *; lia].
    apply elem_of_cons in Hin as [Heq|Hin]; [injection Heq as <- _; reflexivity|].
    inversion Hds as [|?? _ Hf]; subst. rewrite Forall_forall in Hf. specialize (Hf _ Hin).
    unfold key_lt, ord_lt, cmp, PendingReadDeadlineKey_ord in Hf. simpl in Hf.
    apply lex_N_lt in Hf. lia.
  - assert ((dk, k) ∈ index_entry <$> rs) as Hin by (rewrite <- Hp; left).
    apply list_elem_of_fmap in Hin as ([k' r] & [= -> ->] & Hin).
    destruct (BTreeMap_remove_Some _ _ _ Hrs Hin) as (rs' & -> & Hp' & Hrs'). simpl.
    inversion Hds as [|?? Hds' Hf]; subst.
    destruct (IH rs') as (rs'' & ds'' & ans & -> & Hp2 & Hag & Hy & Hans & Hrest).
    { split; [done|]. split; [done|]. rewrite Hp' in Hp. simpl in Hp.
      by apply Permutation_cons_inv in Hp. }
    simpl. exists rs'', ds'', ((k', r) :: ans). repeat split; try apply Hag; try done.
    + by rewrite Hp', Hp2.
    + by rewrite <- Hy.
    + constructor; [|done]. rewrite N_ord_le in Hle. exact Hle.
Qed.

Lemma drain_satisfied_loop_spec t applied rs ds :
  indexes_agree rs ds →
  ∃ ds', drain_satisfied_loop t applied rs ds =
      Ret (filter (λ kr, ¬ satisfied t kr) rs, ds',
           answer_satisfied applied <$> filter (satisfied t) rs) ∧
    indexes_agree (filter (λ kr, ¬ satisfied t kr) rs) ds'.
Proof.
  revert ds. induction rs as [|[k r] rs IH]; intros ds (Hrs & Hds & Hp).
  { exists ds. done. }
  cbn [drain_satisfied_loop].
  inversion Hrs as [|?? Hrs' Hf]; subst.
  destruct (leb_spec t (min_quorum_acked_at k)) as [Hle|Hlt].
  - rewrite N_ord_le in Hle.
    assert (Forall (λ kr, ¬ satisfied t kr) ((k, r) :: rs)) as Hno.
    { constructor; [unfold satisfied; simpl; lia|]. eapply Forall_impl; [exact Hf|].
      intros kr Hkr. unfold key_lt, ord_lt, cmp, PendingReadKey_ord in Hkr. simpl in Hkr.
      apply lex_N_lt in Hkr. unfold satisfied. lia. }
    rewrite Forall_forall in Hno. rewrite (filter_all _ _ Hno), (filter_none (satisfied t)) by done.
    by exists ds.
  - rewrite N_ord_lt in Hlt.
    assert (index_entry (k, r) ∈ ds) as Hin by (rewrite Hp; left).
    destruct (BTreeMap_remove_Some _ _ _ Hds Hin) as (ds' & Hrm & Hp' & Hds').
    simpl in Hrm. rewrite Hrm. simpl.
    destruct (IH ds') as (ds'' & -> & Hag).
    { split; [done|]. split; [done|]. rewrite Hp' in Hp. simpl in Hp.
      by apply Permutation_cons_inv in Hp. }
    rewrite filter_cons_False by (intros Hn; apply Hn; exact Hlt).
    rewrite filter_cons_True by exact Hlt. simpl. by exists ds''.
Qed.

Lemma queue_wf_default : queue_wf PendingReadQueue_default.
Proof. split; [|constructor]. repeat split; constructor. Qed.

Lemma push_wf q t r :
  queue_wf q → (next_sequence q + 1 < u64_modulus)%N →
  ∃ q', PendingReadQueue_push q t r = Ret q' ∧ queue_wf q' ∧
    next_sequence q' = (next_sequence q + 1)%N ∧
    reads q' ≡ₚ (mkPendingReadKey t (next_sequence q), r) :: reads q.
Proof.
  intros [(Hrs & Hds & Hp) Hseq] Hn. unfold PendingReadQueue_push.
  rewrite decide_True by done. simpl.
  set (k := mkPendingReadKey t (next_sequence q)).
  set (dk := mkPendingReadDeadlineKey (PendingRead_deadline r) (next_sequence q)).
  assert (k ∉ (reads q).*1) as Hk.
  { intros (kr & Heq & Hin)%list_elem_of_fmap. rewrite Forall_forall in Hseq.
    specialize (Hseq _ Hin). cbn beta in Hseq. rewrite <- Heq in Hseq. simpl in Hseq. lia. }
  assert (dk ∉ (deadlines q).*1) as Hdk.
  { intros ([dk' k'] & Heq & Hin)%list_elem_of_fmap. rewrite Hp in Hin. simpl in Heq. subst dk'.
    apply list_elem_of_fmap in Hin as (kr & Heq & Hin). rewrite Forall_forall in Hseq.
    specialize (Hseq _ Hin). injection Heq. intros. lia. }
  pose proof (BTreeMap_insert_perm k r _ Hk) as Hpr.
  eexists. split; [reflexivity|]. simpl. split; [split; simpl|done].
  - repeat split; [by apply BTreeMap_insert_sorted..|].
    rewrite (BTreeMap_insert_perm _ _ _ Hdk), Hpr, Hp. done.
  - apply BTreeMap_insert_Forall; [simpl; lia|]. eapply Forall_impl; [exact Hseq|]. simpl. lia.
Qed.

(** The drained queue of [drain_expired], with the reads as a filter. *)
Lemma drain_expired_spec q now make_error :
  queue_wf q →
  ∃ q' answered,
    drain_expired q now make_error = Ret (q', answer_expired make_error <$> answered) ∧
    queue_wf q' ∧ next_sequence q' = next_sequence q ∧
    answered ≡ₚ filter (expired now) (reads q) ∧
    reads q' = filter (λ kr, ¬ expired now kr) (reads q) ∧
    (index_entry <$> answered) ++ deadlines q' = deadlines q.
Proof.
  intros [Hag Hseq]. unfold drain_expired.
  destruct (drain_expired_loop_spec now make_error _ _ Hag)
    as (rs & ds & ans & -> & Hp & Hag' & Hds & Hans & Hrest). simpl.
  rewrite Forall_forall in Hans, Hrest.
  assert (rs = filter (λ kr, ¬ expired now kr) (reads q)) as Hrs.
  { apply bsorted_unique; [apply Hag'|apply bsorted_filter, Hag|].
    rewrite Hp, filter_app, (filter_none _ ans), (filter_all _ rs) by naive_solver. done. }
  eexists _, ans. split; [reflexivity|]. simpl. split; [split; [done|]|]; simpl.
  - rewrite Hp in Hseq. by apply Forall_app in Hseq as [_ ?].
  - split; [done|]. split; [|done].
    rewrite Hp, filter_app, (filter_all _ ans), (filter_none _ rs), app_nil_r by done. done.
Qed.

Lemma drain_satisfied_reads_spec q t applied :
  queue_wf q →
  ∃ q', drain_satisfied_reads q t applied =
      Ret (q', answer_satisfied applied <$> filter (satisfied t) (reads q)) ∧
    queue_wf q' ∧ next_sequence q' = next_sequence q ∧
    reads q' = filter (λ kr, ¬ satisfied t kr) (reads q).
Proof.
  intros [Hag Hseq]. unfold drain_satisfied_reads.
  destruct (drain_satisfied_loop_spec t applied _ _ Hag) as (ds & -> & Hag'). simpl.
  eexists. split; [reflexivity|]. split; [split; [done|]|done]; simpl.
  by apply Forall_filter.
Qed.

(** Sorted entries of [deadlines] are sorted by deadline. *)
Lemma index_sorted (l : list (PendingReadKey * PendingRead)) :
  bsorted (index_entry <$> l) →
  StronglySorted (λ a b, PendingRead_deadline a.2 ≤ PendingRead_deadline b.2)%N l.
Proof.
  unfold bsorted. induction l as [|kr l IH]; [constructor|]. intros Hs.
  rewrite fmap_cons in Hs. apply StronglySorted_cons in Hs as [Hf Hs]. constructor; [by apply IH|].
  rewrite Forall_fmap in Hf. eapply Forall_impl; [exact Hf|]. intros kr' Hlt.
  unfold compose, key_lt, ord_lt, cmp, PendingReadDeadlineKey_ord in Hlt. apply lex_N_lt in Hlt.
  simpl in Hlt. lia.
Qed.

Lemma earliest_deadline_in q d :
  queue_wf q → earliest_deadline q = Some d → ∃ kr, kr ∈ reads q ∧ PendingRead_deadline kr.2 = d.
Proof.
  intros [(_ & _ & Hp) _] Hd. unfold earliest_deadline in Hd.
  destruct (deadlines q) as [|[dk k] ds]; [done|]. injection Hd as <-.
  assert ((dk, k) ∈ index_entry <$> reads q) as Hin by (rewrite <- Hp; left).
  apply list_elem_of_fmap in Hin as (kr & [= -> _] & Hin). by exists kr.
Qed.

(** ** Sequences of operations *)

Inductive QueueOp :=
| QueueOp_Push (acked_at : Instant) (r : PendingRead)
| QueueOp_DrainSatisfied (quorum_acked_at : Instant) (applied : option LogId)
| QueueOp_DrainExpired (now : Instant) (make_error : Instant → LinearizableReadError)
| QueueOp_DrainAll (err : LinearizableReadError).

Definition queue_op (op : QueueOp) (q : PendingReadQueue) :
    outcome (PendingReadQueue * list (Sender * ReadResult)) :=
  match op with
  | QueueOp_Push t r => q' ← PendingReadQueue_push q t r; Ret (q', [])
  | QueueOp_DrainSatisfied t applied => drain_satisfied_reads q t applied
  | QueueOp_DrainExpired now make_error => drain_expired q now make_error
  | QueueOp_DrainAll err => Ret (drain_all_with_error q err)
  end.

Fixpoint queue_ops (ops : list QueueOp) (q : PendingReadQueue) :
    outcome (PendingReadQueue * list (Sender * ReadResult)) :=
  match ops with
  | [] => Ret (q, [])
  | op :: ops =>
      '(q, sent) ← queue_op op q;
      '(q, sent') ← queue_ops ops q;
      Ret (q, sent ++ sent')
  end.

(** The senders of the reads that were pushed. *)
Definition pushed (op : QueueOp) : list Sender :=
  match op with
  | QueueOp_Push _ r => [PendingRead_response_tx r]
  | _ => []
  end.

Lemma filter_split_perm {A} (P : A → Prop) `{!∀ x, Decision (P x)} (l : list A) :
  filter P l ++ filter (λ x, ¬ P x) l ≡ₚ l.
Proof.
  induction l as [|x l IH]; [done|]. rewrite !filter_cons.
  destruct (decide (P x)), (decide (¬ P x)); try done; simpl; [by rewrite IH|].
  by rewrite <- Permutation_middle, IH.
Qed.

(** A drain needs no room for a new sequence number. *)
Lemma drain_op_spec op q :
  pushed op = [] → queue_wf q →
  ∃ q' sent, queue_op op q = Ret (q', sent) ∧ queue_wf q' ∧
    next_sequence q' = next_sequence q ∧ sent.*1 ++ waiting q' ≡ₚ waiting q.
Proof.
  intros Hop Hwf. unfold waiting. destruct op as [t r|t applied|now mk|err]; simpl; [done|..].
  - destruct (drain_satisfied_reads_spec q t applied Hwf) as (q' & -> & Hwf' & Hs & Hr).
    eexists _, _. split; [done|]. split; [done|]. split; [done|].
    rewrite <- list_fmap_compose, Hr. change (fst ∘ answer_satisfied applied) with
      (λ kr : PendingReadKey * PendingRead, PendingRead_response_tx kr.2).
    by rewrite <- fmap_app, filter_split_perm.
  - destruct (drain_expired_spec q now mk Hwf) as (q' & ans & -> & Hwf' & Hs & Ha & Hr & _).
    eexists _, _. split; [done|]. split; [done|]. split; [done|].
    rewrite <- list_fmap_compose, Hr. change (fst ∘ answer_expired mk) with
      (λ kr : PendingReadKey * PendingRead, PendingRead_response_tx kr.2).
    by rewrite <- fmap_app, Ha, filter_split_perm.
  - eexists _, _. split; [done|]. split; [split; [repeat split|]; constructor|].
    split; [done|]. rewrite <- list_fmap_compose. simpl. by rewrite app_nil_r.
Qed.

Lemma queue_op_spec op q :
  queue_wf q → (next_sequence q + 1 < u64_modulus)%N →
  ∃ q' sent, queue_op op q = Ret (q', sent) ∧ queue_wf q' ∧
    (next_sequence q' ≤ next_sequence q + 1)%N ∧
    sent.*1 ++ waiting q' ≡ₚ pushed op ++ waiting q.
Proof.
  intros Hwf Hn. destruct (decide (pushed op = [])) as [Hop|Hop].
  - destruct (drain_op_spec op q Hop Hwf) as (q' & sent & -> & Hwf' & Hs & Hp).
    exists q', sent. rewrite Hop, Hp. repeat (split; [done|]). split; [lia|done].
  - destruct op as [t r|t applied|now mk|err]; simpl in *; try done.
    destruct (push_wf q t r Hwf Hn) as (q' & -> & Hwf' & Hs & Hp). simpl.
    eexists _, _. split; [done|]. split; [done|]. split; [lia|]. unfold waiting. by rewrite Hp.
Qed.

Lemma queue_ops_spec ops q :
  queue_wf q → (next_sequence q + N.of_nat (length ops) < u64_modulus)%N →
  ∃ q' sent, queue_ops ops q = Ret (q', sent) ∧ queue_wf q' ∧
    sent.*1 ++ waiting q' ≡ₚ (ops ≫= pushed) ++ waiting q.
Proof.
  revert q. induction ops as [|op ops IH]; intros q Hwf Hn.
  { exists q, []. done. }
  simpl in Hn. destruct (queue_op_spec op q Hwf ltac:(lia)) as (q1 & s1 & H1 & Hwf1 & Hs1 & Hp1).
  destruct (IH q1 Hwf1 ltac:(lia)) as (q2 & s2 & H2 & Hwf2 & Hp2).
  exists q2, (s1 ++ s2). simpl. rewrite H1. simpl. rewrite H2. split; [done|]. split; [done|].
  rewrite fmap_app, <- app_assoc, Hp2, <- app_assoc. rewrite Permutation_app_swap_app, Hp1.
  by rewrite Permutation_app_swap_app.
Qed.

(** ** Properties *)

(** Every read is answered exactly once: whatever fewer than 2^64 pushes
    and drains are done in whatever order, no operation panics, the two indexes
    agree at the end, and the channels that were answered together with the
    ones that still wait are exactly the channels of the pushed reads. *)
Theorem reads_answered_once ops :
  (N.of_nat (length ops) < u64_modulus)%N →
  ∃ q sent, queue_ops ops PendingReadQueue_default = Ret (q, sent) ∧ queue_wf q ∧
    sent.*1 ++ waiting q ≡ₚ ops ≫= pushed.
Proof.
  intros Hn. destruct (queue_ops_spec ops _ queue_wf_default) as (q & s & H & Hwf & Hp); [simpl; lia|].
  exists q, s. split; [done|]. split; [done|]. by rewrite Hp, app_nil_r.
Qed.

(** [drain_satisfied] answers exactly the reads whose threshold is
    strictly before the acknowledged time, in queue order and with the log
    applied now; [drain_expired] then fails exactly the remaining reads whose
    deadline has come, earliest deadline first, and the earliest deadline left
    is after [now], so a timer set to it is always re-armed with a new value. *)
Theorem drains_answer_due_reads q t applied now make_error :
  queue_wf q →
  ∃ q1 q2 late,
    drain_satisfied_reads q t applied =
      Ret (q1, answer_satisfied applied <$> filter (satisfied t) (reads q)) ∧
    drain_expired q1 now make_error = Ret (q2, answer_expired make_error <$> late) ∧
    late ≡ₚ filter (λ kr, expired now kr ∧ ¬ satisfied t kr) (reads q) ∧
    StronglySorted (λ a b, PendingRead_deadline a.2 ≤ PendingRead_deadline b.2)%N late ∧
    reads q2 = filter (λ kr, ¬ expired now kr ∧ ¬ satisfied t kr) (reads q) ∧
    queue_wf q2 ∧
    (∀ d, earliest_deadline q2 = Some d → now < d)%N.
Proof.
  intros Hwf.
  destruct (drain_satisfied_reads_spec q t applied Hwf) as (q1 & H1 & Hwf1 & _ & Hr1).
  destruct (drain_expired_spec q1 now make_error Hwf1) as (q2 & late & H2 & Hwf2 & _ & Hl & Hr2 & Hd).
  exists q1, q2, late. rewrite Hr1, list_filter_filter in Hl.
  pose proof Hr2 as Hr2'. rewrite Hr1, list_filter_filter in Hr2.
  repeat (split; [done|]). split; [|split; [done|split; [done|]]].
  - apply index_sorted. destruct Hwf1 as [(_ & Hs & _) _]. rewrite <- Hd in Hs.
    by eapply StronglySorted_app_1_l.
  - intros d Hd'. apply (earliest_deadline_in q2 d) in Hd' as (kr & Hkr & <-); [|done].
    rewrite Hr2' in Hkr. apply list_elem_of_filter in Hkr as [Hx _]. unfold expired in Hx. lia.
Qed.
End reads.

(** ** Witnesses *)

Module ReadQueueWitness.
#[local] Existing Instance adv_config.
Import CommandWitness.

Definition linearizer : Linearizer := Linearizer_new 1 (lid 1 5) (Some (lid 1 4)).
Definition read (deadline tx : N) : PendingRead := mkPendingRead deadline linearizer tx.

(** The read 8 expires before the read 7, which waits for less. *)
Definition pushes : list QueueOp :=
  [QueueOp_Push 10 (read 90 7); QueueOp_Push 20 (read 60 8); QueueOp_Push 30 (read 200 9)].
Definition forward (_ : Instant) : LinearizableReadError :=
  LinearizableReadError_ForwardToLeader ForwardToLeader_empty.

Lemma reads_answered_once_witness :
  ∃ q sent, queue_ops (pushes ++ [QueueOp_DrainSatisfied 15 None; QueueOp_DrainExpired 60 forward])
      PendingReadQueue_default = Ret (q, sent) ∧ queue_wf q ∧ sent.*1 ++ waiting q ≡ₚ [7; 8; 9]%N.
Proof.
  apply (reads_answered_once (pushes ++ [QueueOp_DrainSatisfied 15 None; QueueOp_DrainExpired 60 forward])).
  vm_compute. reflexivity.
Defined.

Definition q3 : PendingReadQueue :=
  mkPendingReadQueue 3
    [(mkPendingReadKey 10 0, read 90 7); (mkPendingReadKey 20 1, read 60 8);
     (mkPendingReadKey 30 2, read 200 9)]
    [(mkPendingReadDeadlineKey 60 1, mkPendingReadKey 20 1);
     (mkPendingReadDeadlineKey 90 0, mkPendingReadKey 10 0);
     (mkPendingReadDeadlineKey 200 2, mkPendingReadKey 30 2)].

Lemma q3_pushes : queue_ops pushes PendingReadQueue_default = Ret (q3, []).
Proof. reflexivity. Qed.

Lemma q3_wf : queue_wf q3.
Proof.
  destruct (queue_ops_spec pushes _ queue_wf_default) as (q & s & H & Hwf & _); [done|].
  rewrite q3_pushes in H. by injection H as <- _.
Qed.

Lemma drains_answer_due_reads_witness :
  ∃ q1 q2 late,
    drain_satisfied_reads q3 15 None =
      Ret (q1, [(7%N, Ok (Linearizer_with_applied linearizer None))]) ∧
    drain_expired q1 60 forward = Ret (q2, answer_expired forward <$> late) ∧
    late ≡ₚ [(mkPendingReadKey 20 1, read 60 8)] ∧
    reads q2 = [(mkPendingReadKey 30 2, read 200 9)].
Proof.
  destruct (drains_answer_due_reads q3 15 None 60 forward q3_wf)
    as (q1 & q2 & late & H1 & H2 & H3 & _ & H4 & _).
  exists q1, q2, late. split; [exact H1|]. split; [exact H2|]. split; [exact H3|exact H4].
Defined.
End ReadQueueWitness.
