(* ===== verification/CoreHelpers.v ===== *)
(** * Helpers of the runtime: responders, balance, ticks

    [core/client_responder_queue.rs], [core/balancer.rs],
    [core/replication_state.rs] and the arithmetic of [core/tick.rs]. *)

From S2P Require Import Prelude Vote LogId.

(** ** [ClientResponderQueue]

    A [VecDeque] of responders with the log index each one waits for. *)

Section responders.
Context {T : Type}.

Record ClientResponderQueue := mkClientResponderQueue { responders : list (u64 * T) }.

Definition ClientResponderQueue_new : ClientResponderQueue := mkClientResponderQueue [].

(** [push]; the check of the order is compiled only with [debug_assertions]. *)
Definition ClientResponderQueue_push (q : ClientResponderQueue) (index : u64) (responder : T) :
    ClientResponderQueue :=
  mkClientResponderQueue (responders q ++ [(index, responder)]).

(** [VecDeque::partition_point]: a binary search that never finds an equal
    element. *)
Definition partition_point {A} (p : A → bool) (l : list A) : nat :=
  match binary_search_by (λ a, if p a then Lt else Gt) l with Ok i | Err i => i end.

Definition drain_upto (q : ClientResponderQueue) (last_index : u64) :
    ClientResponderQueue * list (u64 * T) :=
  let end_pos := partition_point (λ ir, ir.1 <=? last_index) (responders q) in
  (mkClientResponderQueue (drop end_pos (responders q)), take end_pos (responders q)).

Definition drain_from (q : ClientResponderQueue) (from_index : u64) :
    ClientResponderQueue * list (u64 * T) :=
  let start_pos :=
    match binary_search_by (λ ir, cmp ir.1 from_index) (responders q) with Ok i | Err i => i end in
  (mkClientResponderQueue (take start_pos (responders q)), drop start_pos (responders q)).

Definition first_index (q : ClientResponderQueue) : option u64 := fst <$> head (responders q).

(** Responders are pushed in the order of their log indexes. *)
Definition index_lt (a b : u64 * T) : Prop := (a.1 < b.1)%N.
Definition responders_sorted (q : ClientResponderQueue) : Prop := StronglySorted index_lt (responders q).

(** A list cut at [n] where all of the first part satisfies [P] and all of the
    second does not. *)
Lemma split_filter {A} (P : A → Prop) `{!∀ x, Decision (P x)} (l : list A) n :
  (∀ i a, l !! i = Some a → P a ↔ i < n) →
  take n l = filter P l ∧ drop n l = filter (λ a, ¬ P a) l.
Proof.
  revert n. induction l as [|x l IH]; intros n Hn; [by destruct n|].
  assert (P x ↔ 0 < n) as H0 by (by apply (Hn 0)).
  destruct n as [|n].
  - destruct (IH 0) as [Ht Hd]. { intros i a Hi. specialize (Hn (S i) a Hi). rewrite Hn. lia. }
    rewrite filter_cons_False, filter_cons_True by (rewrite ?H0; lia).
    split; [done|]. simpl. f_equal. exact Hd.
  - destruct (IH n) as [Ht Hd]. { intros i a Hi. specialize (Hn (S i) a Hi). rewrite Hn. lia. }
    rewrite filter_cons_True by (apply H0; lia). rewrite filter_cons_False by (intros Hc; apply Hc, H0; lia).
    simpl. by rewrite Ht, Hd.
Qed.

Lemma sorted_le l i j a b :
  StronglySorted index_lt l → l !! i = Some a → l !! j = Some b → i ≤ j → (a.1 ≤ b.1)%N.
Proof.
  intros Hs Hi Hj Hle. destruct (decide (i = j)) as [->|Hne].
  - rewrite Hi in Hj. injection Hj as ->. lia.
  - assert (index_lt a b) by (eapply StronglySorted_lookup; eauto; lia). unfold index_lt in *. lia.
Qed.

(** A sorted queue is drained exactly at the index. *)
Lemma drain_upto_exact q last_index :
  responders_sorted q →
  let '(q', drained) := drain_upto q last_index in
  drained = filter (λ ir, ir.1 ≤ last_index)%N (responders q) ∧
  responders q' = filter (λ ir, ¬ (ir.1 ≤ last_index))%N (responders q).
Proof.
  intros Hs. unfold drain_upto, partition_point. simpl.
  set (f := λ ir : u64 * T, if ir.1 <=? last_index then Lt else Gt).
  assert (∀ ir, f ir = Lt ↔ (ir.1 ≤ last_index)%N) as Hlt.
  { intros ir. unfold f. destruct (leb_spec ir.1 last_index) as [H|H];
      [rewrite N_ord_le in H|rewrite N_ord_lt in H]; split; try done; lia. }
  assert (∀ ir, f ir ≠ Eq) as Hne by (intros ir; unfold f; by destruct (ir.1 <=? last_index)).
  assert (monotone_cmp f (responders q)) as Hm.
  { intros i' j a b Hi Hj Hle. pose proof (sorted_le _ _ _ _ _ Hs Hi Hj Hle).
    specialize (Hne b) as Hnb. rewrite !Hlt. split; [|lia].
    intros Hg. destruct (f b) eqn:E; [done| |done]. apply Hlt in E.
    assert (f a = Lt) by (apply Hlt; lia). congruence. }
  pose proof (binary_search_by_spec f (responders q) Hm) as Hb.
  destruct (binary_search_by f (responders q)) as [i|i].
  - destruct Hb as (a & _ & Ha). by apply Hne in Ha.
  - destruct Hb as [_ Hb]. apply split_filter. intros j a Hj. rewrite <- Hlt.
    destruct (Hb j a Hj) as [H1 H2]. split; [|done]. intros Ha.
    destruct (decide (i ≤ j)) as [Hle|]; [|lia]. rewrite (H2 Hle) in Ha. done.
Qed.

Lemma drain_from_exact q from_index :
  responders_sorted q →
  let '(q', drained) := drain_from q from_index in
  drained = filter (λ ir, ¬ (ir.1 < from_index))%N (responders q) ∧
  responders q' = filter (λ ir, ir.1 < from_index)%N (responders q).
Proof.
  intros Hs. unfold drain_from.
  assert (∃ n, match binary_search_by (λ ir : u64 * T, cmp ir.1 from_index) (responders q) with
      Ok i | Err i => i end = n ∧
    ∀ i a, responders q !! i = Some a → (a.1 < from_index)%N ↔ i < n) as (n & -> & Hn).
  { assert (monotone_cmp (λ ir : u64 * T, cmp ir.1 from_index) (responders q)) as Hm.
    { intros i j a b Hi Hj Hle. pose proof (sorted_le _ _ _ _ _ Hs Hi Hj Hle).
      unfold cmp, N_ord. rewrite !N.compare_gt_iff, !N.compare_lt_iff. lia. }
    pose proof (binary_search_by_spec _ (responders q) Hm) as Hb.
    destruct (binary_search_by _ _) as [i|i]; exists i; (split; [done|]); intros j b Hj.
    - destruct Hb as (a & Ha & Heq). apply cmp_eq in Heq. split.
      + intros Hb. destruct (decide (i ≤ j)) as [Hle|]; [|lia].
        pose proof (sorted_le _ _ _ _ _ Hs Ha Hj Hle). lia.
      + intros Hlt. assert (index_lt b a) as Hba by (eapply StronglySorted_lookup; eauto).
        unfold index_lt in Hba. lia.
    - destruct Hb as [_ Hb]. destruct (Hb j b Hj) as [H1 H2]. unfold cmp, N_ord in H1, H2.
      rewrite N.compare_lt_iff in H1. rewrite N.compare_gt_iff in H2. lia. }
  destruct (split_filter (λ ir : u64 * T, (ir.1 < from_index)%N) (responders q) n Hn) as [Ht Hd].
  done.
Qed.

Lemma push_sorted q index r :
  responders_sorted q → (∀ ir, ir ∈ responders q → ir.1 < index)%N →
  responders_sorted (ClientResponderQueue_push q index r).
Proof.
  intros Hs Hlt. unfold responders_sorted, ClientResponderQueue_push; simpl.
  apply StronglySorted_app_2; [|done|repeat constructor].
  intros a b Ha Hb. apply list_elem_of_singleton in Hb as ->. by apply Hlt.
Qed.
End responders.
Arguments ClientResponderQueue : clear implicits.

(** ** [Balancer] *)

Record Balancer := mkBalancer {
  Balancer_total : u64;
  Balancer_raft_msg : u64;
}.

Definition Balancer_new (total : u64) : Balancer := mkBalancer total (total / 10)%N.

Definition Balancer_notification (b : Balancer) : u64 :=
  u64_sub (Balancer_total b) (Balancer_raft_msg b).

Definition u64_mul_div (a m d : u64) : u64 := ((a * m) mod u64_modulus / d)%N.

Definition increase_notification (b : Balancer) : Balancer :=
  let raft_msg := u64_mul_div (Balancer_raft_msg b) 15 16 in
  mkBalancer (Balancer_total b) (if decide (raft_msg = 0%N) then 1%N else raft_msg).

Definition increase_raft_msg (b : Balancer) : Balancer :=
  let raft_msg := u64_mul_div (Balancer_raft_msg b) 17 16 in
  mkBalancer (Balancer_total b)
    (if (raft_msg >? (Balancer_total b / 2)%N) then (Balancer_total b / 2)%N else raft_msg).

(** The adjustments the main loop makes. *)
Definition Balancer_adjust (b : Balancer) (more_notification : bool) : Balancer :=
  if more_notification then increase_notification b else increase_raft_msg b.

(** Both channels keep a share: at least one API message, and at least half
    of the budget for notifications. *)
Definition balanced (b : Balancer) : Prop :=
  (1 ≤ Balancer_raft_msg b ≤ Balancer_total b / 2)%N ∧ (Balancer_total b < 2 ^ 32)%N.

Lemma half_le a : (a / 2 ≤ a)%N.
Proof. apply N.Div0.div_le_upper_bound. lia. Qed.

Lemma mul_div_small a m : (a < 2 ^ 32)%N → (m < 2 ^ 16)%N → u64_mul_div a m 16 = (a * m / 16)%N.
Proof.
  intros Ha Hm. unfold u64_mul_div. rewrite N.mod_small; [done|].
  unfold u64_modulus. assert (a * m < 2 ^ 32 * 2 ^ 16)%N by nia. lia.
Qed.

Lemma adjust_balanced b up : balanced b → balanced (Balancer_adjust b up).
Proof.
  intros [[H1 H2] Ht]. pose proof (half_le (Balancer_total b)) as Hhalf.
  assert (Balancer_raft_msg b < 2 ^ 32)%N by lia.
  destruct up; unfold Balancer_adjust, increase_notification, increase_raft_msg, balanced;
    rewrite mul_div_small by lia; simpl.
  - pose proof (N.Div0.div_le_mono (Balancer_raft_msg b * 15) (Balancer_raft_msg b * 16) 16 ltac:(lia)) as Hm.
    rewrite N.div_mul in Hm by done. revert Hm. generalize (Balancer_raft_msg b * 15 / 16)%N as x.
    intros x Hm. case_decide; split; try done; lia.
  - destruct (ltb_spec (Balancer_total b / 2)%N (Balancer_raft_msg b * 17 / 16)%N) as [Hlt|Hle].
    + split; [lia|done].
    + rewrite N_ord_le in Hle. split; [|done]. split; [|done].
      pose proof (N.Div0.div_le_mono (1 * 16) (Balancer_raft_msg b * 17) 16 ltac:(lia)) as Hm.
      rewrite N.div_mul in Hm by done. lia.
Qed.

(** Below 16 the increase by a sixteenth rounds to nothing. *)
Lemma increase_raft_msg_stuck b :
  balanced b → (Balancer_raft_msg b < 16)%N → increase_raft_msg b = b.
Proof.
  intros [[H1 H2] Ht] Hlt. pose proof (half_le (Balancer_total b)). unfold increase_raft_msg. rewrite mul_div_small by lia.
  assert (Balancer_raft_msg b * 17 / 16 = Balancer_raft_msg b)%N as ->.
  { symmetry. apply (N.div_unique _ _ _ (Balancer_raft_msg b)); lia. }
  destruct (ltb_spec (Balancer_total b / 2)%N (Balancer_raft_msg b)) as [Hl|Hl].
  - rewrite N_ord_lt in Hl. lia.
  - by destruct b.
Qed.

(** ** [replication_lag] *)

Definition replication_lag (matched_log_index last_log_index : option u64) : u64 :=
  u64_saturating_sub (index_next_index last_log_index) (index_next_index matched_log_index).

(** ** [Tick]

    Instants and durations are in nanoseconds here: the loop computes in whole
    microseconds. *)

Definition as_micros (d : N) : N := (d / 1000)%N.
Definition from_micros (us : u64) : N := (us * 1000)%N.

(** The range of the random first wait, [None] for the period zero, which is
    used as it is. *)
Definition first_wait_range (period : N) : option (N * N) :=
  if decide (period = 0%N) then None else Some (period, (period * 2)%N).

Definition step_us (period : N) : N := N.max (as_micros period) 1.

(** The next deadline after a wake-up at [now]; the cast to [u64] truncates. *)
Definition next_tick_at (first_wait_at period now : N) : N :=
  let offset_us := as_micros (now - first_wait_at) in
  let offset_us := (offset_us - offset_us mod step_us period)%N in
  let offset_us := (offset_us + step_us period)%N in
  (first_wait_at + from_micros (offset_us mod u64_modulus))%N.

(** The deadlines of a loop woken at the instants [wakes], and the ticks sent:
    one for every wake-up while ticks are enabled. *)
Fixpoint tick_loop (first_wait_at period : N) (i : u64) (wakes : list (N * bool)) :
    list N * list u64 :=
  match wakes with
  | [] => ([], [])
  | (now, enabled) :: wakes =>
      let at' := next_tick_at first_wait_at period now in
      let i' := if (enabled : bool) then u64_add i 1 else i in
      let '(ats, ticks) := tick_loop first_wait_at period i' wakes in
      (at' :: ats, if enabled then i' :: ticks else ticks)
  end.

Lemma next_tick_at_grid first_wait_at period now :
  (first_wait_at ≤ now)%N →
  (as_micros (now - first_wait_at) + step_us period < u64_modulus)%N →
  let at' := next_tick_at first_wait_at period now in
  (now < at' ≤ now + step_us period * 1000)%N ∧
  ∃ k, (1 ≤ k)%N ∧ at' = (first_wait_at + k * (step_us period * 1000))%N.
Proof.
  intros Hle Hu. unfold next_tick_at, from_micros. set (s := step_us period) in *.
  assert (1 ≤ s)%N as Hs by (unfold s, step_us; lia).
  unfold as_micros in *. set (d := (now - first_wait_at)%N) in *.
  pose proof (N.div_mod d 1000 ltac:(done)) as Hd. pose proof (N.mod_lt d 1000 ltac:(done)) as Hd'.
  set (o := (d / 1000)%N) in *. set (m := (d mod 1000)%N) in *.
  pose proof (N.div_mod o s ltac:(lia)) as Ho. pose proof (N.mod_lt o s ltac:(lia)) as Ho'.
  pose proof (N.Div0.mod_le o s) as Hr. assert (now = first_wait_at + d)%N as Hnow by lia.
  set (q := (o / s)%N) in *. set (r := (o mod s)%N) in *. clearbody m d o q r.
  rewrite N.mod_small by lia. split; [lia|]. exists (q + 1)%N. split; [lia|].
  replace (o - r + s)%N with ((q + 1) * s)%N by lia. lia.
Qed.

(** The deadlines and the ticks of a loop. *)
Lemma tick_loop_spec first_wait_at period i wakes :
  (i + N.of_nat (length wakes) < u64_modulus)%N →
  let '(ats, ticks) := tick_loop first_wait_at period i wakes in
  ats = next_tick_at first_wait_at period <$> wakes.*1 ∧
  ticks = (λ n, i + N.of_nat n)%N <$> seq 1 (length (filter (λ w, w.2 = true) wakes)).
Proof.
  revert i. induction wakes as [|[now en] wakes IH]; intros i Hi; [done|].
  rewrite length_cons in Hi. cbn [tick_loop]. destruct en.
  - rewrite (u64_add_small i 1) by lia. specialize (IH (i + 1)%N ltac:(lia)). destruct (tick_loop _ _ _ _) as [ats ticks]. destruct IH as [-> ->].
    split; [done|]. rewrite filter_cons_True by done. cbn [length seq]. rewrite fmap_cons. f_equal.
    rewrite <- (fmap_S_seq 1), <- list_fmap_compose. apply list_fmap_ext. intros _ n _. simpl. lia.
  - specialize (IH i ltac:(lia)). destruct (tick_loop _ _ _ _) as [ats ticks]. destruct IH as [-> ->].
    split; [done|]. by rewrite filter_cons_False.
Qed.

(** ** Properties *)

(** Ticks keep their phase: however late the loop is woken, every deadline
    it sets lies on the grid of whole periods after the first wait, strictly
    after the wake-up and at most one period later, so stalls neither shift the
    phase nor cause bursts; the ticks sent are numbered consecutively. *)
Theorem ticks_keep_phase first_wait_at period wakes :
  Forall (λ w, first_wait_at ≤ w.1 ∧
               as_micros (w.1 - first_wait_at) + step_us period < u64_modulus)%N wakes →
  (N.of_nat (length wakes) < u64_modulus)%N →
  let '(ats, ticks) := tick_loop first_wait_at period 0 wakes in
  Forall2 (λ at' w, w.1 < at' ≤ w.1 + step_us period * 1000 ∧
             ∃ k, 1 ≤ k ∧ at' = first_wait_at + k * (step_us period * 1000))%N ats wakes ∧
  ticks = N.of_nat <$> seq 1 (length (filter (λ w, w.2 = true) wakes)).
Proof.
  intros Hw Hn. pose proof (tick_loop_spec first_wait_at period 0 wakes ltac:(lia)) as Hs.
  destruct (tick_loop _ _ _ _) as [ats ticks]. destruct Hs as [-> ->]. split; [|done].
  rewrite <- list_fmap_compose, Forall2_fmap_l. apply Forall_Forall2_diag.
  eapply Forall_impl; [exact Hw|]. intros [now en] [Hle Hu]. by apply next_tick_at_grid.
Qed.

(** No channel is starved: from a budget of at least ten, however the
    shares are adjusted, at least one API message and at least half of the
    budget in notifications are handled per round; but a share of API messages
    below 16 is never raised again, since a sixteenth of it rounds to zero. *)
Theorem balancer_shares total ups :
  (10 ≤ total < 2 ^ 32)%N →
  let b := foldl Balancer_adjust (Balancer_new total) ups in
  (1 ≤ Balancer_raft_msg b)%N ∧ (total ≤ 2 * Balancer_notification b)%N ∧
  ((Balancer_raft_msg b < 16)%N → increase_raft_msg b = b).
Proof.
  intros Ht b.
  assert (∀ b0, balanced b0 → balanced (foldl Balancer_adjust b0 ups) ∧
    Balancer_total (foldl Balancer_adjust b0 ups) = Balancer_total b0) as Hall.
  { clear b. induction ups as [|up ups IH]; intros b0 Hb0; [done|]. simpl.
    destruct (IH (Balancer_adjust b0 up)) as [Hb Ht']; [by apply adjust_balanced|].
    split; [done|]. rewrite Ht'. by destruct up. }
  destruct (Hall (Balancer_new total)) as [Hb Htot].
  { unfold balanced, Balancer_new; simpl. split; [|lia]. split.
    - apply N.div_le_lower_bound; lia.
    - apply N.div_le_lower_bound; [done|]. pose proof (N.Div0.mul_div_le total 10). lia. }
  fold b in Hb, Htot. simpl in Htot. split; [apply Hb|]. split; [|by apply increase_raft_msg_stuck].
  destruct Hb as [[H1 H2] H3]. rewrite Htot in H2, H3. pose proof (N.Div0.mul_div_le total 2).
  set (h := (total / 2)%N) in *. clearbody h. unfold Balancer_notification. rewrite Htot. rewrite u64_sub_small; unfold in_u64, u64_modulus; lia.
Qed.

(** ** Witnesses *)

Module CoreHelpersWitness.
(** Period 50 ms, woken 3 ms late, then after a stall of two periods. *)
Definition wakes : list (N * bool) := [(103000000, true); (262000000, false); (301000000, true)]%N.

Lemma ticks_keep_phase_witness :
  tick_loop 100000000 50000000 0 wakes =
    ([150000000; 300000000; 350000000], [1; 2])%N ∧
  [1; 2]%N = N.of_nat <$> seq 1 2.
Proof.
  split; [reflexivity|].
  pose proof (ticks_keep_phase 100000000 50000000 wakes) as H.
  destruct H as [_ H]; [repeat constructor; vm_compute; done|reflexivity|exact H].
Defined.

Lemma balancer_shares_witness :
  (1 ≤ Balancer_raft_msg (foldl Balancer_adjust (Balancer_new 10000) (repeat true 100)))%N ∧
  increase_raft_msg (mkBalancer 10000 15) = mkBalancer 10000 15.
Proof.
  split; [|reflexivity]. apply (balancer_shares 10000 (repeat true 100)). lia.
Defined.
End CoreHelpersWitness.
