(* ===== verification/Ticker.v ===== *)
(** * The timer

    [core/tick.rs]: the task that sends ticks to the runtime and the handle that
    enables and stops it.  The calls of the handle, from any number of threads,
    interleave with the steps of the task; the two locks of [shutdown] are
    taken one after the other.  When ticks are due is in [CoreHelpers.v]. *)

From S2P Require Import Prelude Vote LogId LogIdList Quorum Membership VecProgress IOState.
From S2P Require Import MembershipState Entry RaftState Config ProgressEntry Proposer Command.
From S2P Require Import Engine Replication Following LeaderHandler VoteHandler EngineImpl.
From S2P Require Import VoteSafety Cluster ReadQueue CoreHelpers.

(** The task: it waits for its deadline or the cancel signal, or it is sending
    the tick [i]. *)
Inductive TickTask := TickTask_Waiting (at_ i : N) | TickTask_Sending (at_ i : N) | TickTask_Ended.

(** A caller of [shutdown] between its two locks, with whether it has sent the
    signal. *)
Record Ticker := mkTicker {
  tk_enabled : bool;
  tk_shutdown : bool;
  tk_join_handle : bool;
  tk_canceled : bool;
  tk_task : TickTask;
  tk_callers : list bool;
  tk_joined : nat;
  tk_ticks : list N;
}.
Implicit Types (t : Ticker).

(** [Tick::spawn] *)
Definition Tick_spawn (first_wait_at : N) (enabled : bool) : Ticker :=
  mkTicker enabled true true false (TickTask_Waiting first_wait_at 0) [] 0 [].

Section ticker.
Context (first_wait_at period : N).

Definition TickHandle_enable (enabled : bool) t : Ticker :=
  mkTicker enabled (tk_shutdown t) (tk_join_handle t) (tk_canceled t) (tk_task t) (tk_callers t) (tk_joined t) (tk_ticks t).

(** The first lock of [shutdown]: the sender is taken, and the signal sent. *)
Definition shutdown_signal t : Ticker :=
  mkTicker (tk_enabled t) false (tk_join_handle t) (tk_canceled t || tk_shutdown t) (tk_task t)
    (tk_shutdown t :: tk_callers t) (tk_joined t) (tk_ticks t).

(** The second lock: the handle of the task is taken and returned. *)
Definition shutdown_join (before after : list bool) t : bool * Ticker :=
  (tk_join_handle t,
   mkTicker (tk_enabled t) (tk_shutdown t) false (tk_canceled t) (tk_task t) (before ++ after)
     (if tk_join_handle t then S (tk_joined t) else tk_joined t) (tk_ticks t)).

(** [drop]: nothing is done when the signal has been sent; the handle that
    [shutdown] returns is dropped. *)
Definition TickHandle_drop t : Ticker := if negb (tk_shutdown t) then t else shutdown_signal t.

Definition with_task (task : TickTask) t : Ticker :=
  mkTicker (tk_enabled t) (tk_shutdown t) (tk_join_handle t) (tk_canceled t) task (tk_callers t) (tk_joined t) (tk_ticks t).

(** The task goes on at [now]: [select] looks at the signal first. *)
Definition tick_wake (now : N) t : Ticker :=
  match tk_task t with
  | TickTask_Waiting at_ i =>
      if tk_canceled t then with_task TickTask_Ended t
      else if (at_ <=? now)%raft then
        let at_ := next_tick_at first_wait_at period now in
        if tk_enabled t then with_task (TickTask_Sending at_ (u64_add i 1)) t
        else with_task (TickTask_Waiting at_ i) t
      else t
  | _ => t
  end.

(** The channel takes the tick, or it is closed. *)
Definition tick_sent (ok : bool) t : Ticker :=
  match tk_task t with
  | TickTask_Sending at_ i =>
      if ok then mkTicker (tk_enabled t) (tk_shutdown t) (tk_join_handle t) (tk_canceled t) (TickTask_Waiting at_ i)
        (tk_callers t) (tk_joined t) (tk_ticks t ++ [i])
      else with_task TickTask_Ended t
  | _ => t
  end.

Inductive ticker_step t : Ticker → Prop :=
| ticker_enable enabled : ticker_step t (TickHandle_enable enabled t)
| ticker_signal : ticker_step t (shutdown_signal t)
| ticker_join before after sent : tk_callers t = before ++ sent :: after → ticker_step t (shutdown_join before after t).2
| ticker_drop : ticker_step t (TickHandle_drop t)
| ticker_wake now : ticker_step t (tick_wake now t)
| ticker_sent ok : ticker_step t (tick_sent ok t).

Definition last_tick (task : TickTask) : option N :=
  match task with TickTask_Waiting _ i => Some i | TickTask_Sending _ i => Some (i - 1)%N | TickTask_Ended => None end.

(** The ticks of a task are numbered from one; the sender is there until the
    signal is sent, and the handle of the task until a caller has it. *)
Record ticker_inv t : Prop := {
  ti_ticks : ∃ n, tk_ticks t = N.of_nat <$> seq 1 n ∧ (∀ i, last_tick (tk_task t) = Some i → i = N.of_nat n) ∧
    match tk_task t with TickTask_Sending _ i => i = N.of_nat (S n) | _ => True end;
  ti_signal : tk_canceled t = negb (tk_shutdown t);
  ti_join : tk_joined t = if tk_join_handle t then 0 else 1;
}.

Lemma ticks_snoc n : N.of_nat <$> seq 1 (S n) = (N.of_nat <$> seq 1 n) ++ [N.of_nat (S n)].
Proof. by rewrite seq_S, fmap_app. Qed.

Lemma ticker_step_inv t t' :
  (N.of_nat (length (tk_ticks t)) + 1 < u64_modulus)%N → ticker_inv t → ticker_step t t' → ticker_inv t'.
Proof.
  intros Hroom [(n & Hn & Hi & Hs) Hc Hj] Hstep.
  assert (length (tk_ticks t) = n) as Hlen by by rewrite Hn, length_fmap, length_seq.
  destruct Hstep as [en| |before after sent Hcall| |now|ok].
  - split; [by exists n|done|done].
  - split; [by exists n| |done]. cbn. rewrite Hc. by destruct (tk_shutdown t).
  - split; [by exists n|done|]. cbn. by destruct (tk_join_handle t); rewrite Hj.
  - unfold TickHandle_drop. destruct (tk_shutdown t) eqn:Es; cbn; [|by split; [exists n|rewrite Es|]].
    split; [by exists n| |done]. cbn. by rewrite Hc, Es.
  - unfold tick_wake. destruct (tk_task t) as [a i|a i|] eqn:Et; [|split; rewrite ?Et; [by exists n|done|done]..].
    specialize (Hi i eq_refl). destruct (tk_canceled t) eqn:Ec; [split; cbn; [by exists n|by rewrite Ec|done]|].
    destruct (a <=? now)%raft; [|split; rewrite ?Et, ?Ec; [exists n; cbn; split_and!; try done; by intros ? [= <-]|done|done]].
    destruct (tk_enabled t); split; cbn; rewrite ?Ec; try done; exists n; split_and!; try done.
    + rewrite u64_add_small by lia. intros ? [= <-]. lia.
    + rewrite u64_add_small by lia. lia.
    + by intros ? [= <-].
  - unfold tick_sent. destruct (tk_task t) as [a i|a i|] eqn:Et; try (split; rewrite ?Et; [by exists n|done|done]).
    destruct ok; [|split; cbn; [by exists n|done|done]]. split; cbn; [|done|done].
    exists (S n). rewrite ticks_snoc, Hn, Hs. split_and!; [done| |done]. by intros ? [= <-].
Qed.

(** What runs after the signal. *)
Definition pending_ticks (task : TickTask) : nat := match task with TickTask_Sending _ _ => 1 | _ => 0 end.

Lemma canceled_step t t' : tk_canceled t = true → ticker_step t t' →
  tk_canceled t' = true ∧
  (length (tk_ticks t') + pending_ticks (tk_task t') ≤ length (tk_ticks t) + pending_ticks (tk_task t)).
Proof.
  intros Hc Hstep. destruct Hstep as [en| |before after sent Hcall| |now|ok]; cbn.
  - by rewrite Hc.
  - by rewrite Hc.
  - by rewrite Hc.
  - unfold TickHandle_drop. destruct (tk_shutdown t); cbn; by rewrite Hc.
  - unfold tick_wake. destruct (tk_task t) eqn:Et; [rewrite Hc; cbn; rewrite Hc; split; [done|lia]|rewrite Et; done..].
  - unfold tick_sent. destruct (tk_task t) eqn:Et; [rewrite Et; done| |rewrite Et; done].
    destruct ok; cbn; rewrite ?length_app; cbn; split; (done || lia).
Qed.

Definition ticker_room t : Prop := (N.of_nat (length (tk_ticks t)) + 1 < u64_modulus)%N.
Definition ticker_run t t' : Prop := rtc (λ t t', ticker_room t ∧ ticker_step t t') t t'.

Lemma ticker_run_inv t t' : ticker_inv t → ticker_run t t' → ticker_inv t'.
Proof. intros Hi Hr. induction Hr as [|t t1 t' [Hroom Hs] _ IH]; [done|]. by eapply IH, ticker_step_inv. Qed.

Lemma canceled_run t t' : tk_canceled t = true → ticker_run t t' →
  tk_canceled t' = true ∧
  (length (tk_ticks t') + pending_ticks (tk_task t') ≤ length (tk_ticks t) + pending_ticks (tk_task t)).
Proof.
  intros Hc Hr. induction Hr as [|t t1 t' [_ Hs] _ IH]; [done|]. destruct (canceled_step _ _ Hc Hs) as [Hc1 Hle].
  destruct (IH Hc1) as [? ?]. split; [done|lia].
Qed.

(** The timer: the ticks that are sent are numbered from one without a gap, in
    any interleaving of the task with calls of the handle; the handle of the
    task is given to one caller of [shutdown]; and once one of them (or [drop])
    has sent the signal, no more than the tick that is being sent goes out,
    and the task ends when it is woken. *)
Theorem ticker_stops enabled t t' now :
  ticker_run (Tick_spawn first_wait_at enabled) t → tk_shutdown t = false → ticker_run t t' →
  tk_ticks t' = N.of_nat <$> seq 1 (length (tk_ticks t')) ∧ (tk_joined t' ≤ 1) ∧
  (length (tk_ticks t') ≤ length (tk_ticks t) + pending_ticks (tk_task t)) ∧
  tk_task (tick_wake now (tick_sent true t')) = TickTask_Ended.
Proof.
  intros Hr Hs Hr'. assert (ticker_inv (Tick_spawn first_wait_at enabled)) as H0.
  { split; [exists 0; split_and!; [done|by intros ? [= <-]|done]|done|done]. }
  pose proof (ticker_run_inv _ _ H0 Hr) as Ht. pose proof (ticker_run_inv _ _ Ht Hr') as [(n & Hn & _) _ Hj].
  assert (tk_canceled t = true) as Hc by by rewrite (ti_signal _ Ht), Hs.
  destruct (canceled_run _ _ Hc Hr') as [Hc' Hle]. split_and!.
  - by rewrite Hn, length_fmap, length_seq.
  - rewrite Hj. destruct (tk_join_handle t'); lia.
  - lia.
  - unfold tick_sent, tick_wake. destruct (tk_task t') eqn:E; cbn; rewrite ?E; cbn; by rewrite ?Hc', ?E.
Qed.
End ticker.

Module TickerWitness.
(** Two ticks, and two callers of [shutdown] while the second is sent. *)
Definition t0 : Ticker := Tick_spawn 100 true.
Definition t1 : Ticker := tick_sent true (tick_wake 100 50 100 t0).
Definition t2 : Ticker := shutdown_signal (shutdown_signal (tick_wake 100 50 200000 t1)).
Definition t3 : Ticker := (shutdown_join [] [true] (tick_sent true t2)).2.

Lemma ticker_stops_witness : tk_ticks t3 = [1; 2]%N ∧ tk_joined t3 = 1 ∧ tk_task (tick_wake 100 50 0 (tick_sent true t3)) = TickTask_Ended.
Proof.
  assert (∀ t t', ticker_room t → ticker_step 100 50 t t' → ticker_run 100 50 t t') as Hone.
  { intros t t' Hroom Hs. by apply rtc_once. }
  destruct (ticker_stops 100 50 true t2 t3 0) as (_ & _ & _ & Hend).
  - unfold ticker_run. trans (tick_wake 100 50 100 t0); [apply Hone; [done|constructor]|]. trans t1; [apply Hone; [done|constructor]|].
    trans (tick_wake 100 50 200000 t1); [apply Hone; [done|constructor]|].
    trans (shutdown_signal (tick_wake 100 50 200000 t1)); apply Hone; [done|constructor|done|constructor].
  - vm_compute. reflexivity.
  - unfold ticker_run. trans (tick_sent true t2); [apply Hone; [done|constructor]|]. apply Hone; [done|].
    by apply (ticker_join 100 50 _ [] [true] false).
  - split; [vm_compute; reflexivity|]. split; [vm_compute; reflexivity|exact Hend].
Defined.
End TickerWitness.
