(* ===== verification/Wire.v ===== *)
(** * The Zenoh transport: wire messages, client and server

    [network/zenoh/wire.rs], [network/zenoh/client.rs],
    [network/zenoh/server.rs], with [raft/message/append_entries_request.rs],
    [append_entries_response.rs] and the errors of an RPC.

    Zenoh and bitcode are libraries: the bytes, the codec of every wire type,
    the check of a key expression and the session are parameters.  The Raft
    node behind the server is a record of its RPC entry points over a state. *)

From stdpp Require Import strings.
From S2P Require Import Prelude Vote LogId LogIdList Quorum Membership VecProgress IOState.
From S2P Require Import MembershipState Entry RaftState Config ProgressEntry Proposer Command.

Section wire.
Context {C : RaftTypeConfig}.

(** ** Messages *)

Record AppendEntriesRequest := mkAppendEntriesRequest {
  AppendEntriesRequest_vote : Vote;
  AppendEntriesRequest_prev_log_id : option LogId;
  AppendEntriesRequest_entries : list Entry;
  AppendEntriesRequest_leader_commit : option LogId;
}.

(** [last_log_id]: the last entry, or the previous log of a request without. *)
Definition AppendEntriesRequest_last_log_id (r : AppendEntriesRequest) : option LogId :=
  match last (AppendEntriesRequest_entries r) with
  | Some e => Some (Entry_log_id e)
  | None => AppendEntriesRequest_prev_log_id r
  end.

Definition AppendEntriesRequest_log_id_range (r : AppendEntriesRequest) : LogIdRange :=
  mkLogIdRange (AppendEntriesRequest_prev_log_id r) (AppendEntriesRequest_last_log_id r).

Inductive AppendEntriesResponse :=
| AppendEntriesResponse_Success
| AppendEntriesResponse_PartialSuccess (log_id : option LogId)
| AppendEntriesResponse_Conflict
| AppendEntriesResponse_HigherVote (vote : Vote).

Definition get_partial_success (r : AppendEntriesResponse) : option (option LogId) :=
  match r with
  | AppendEntriesResponse_PartialSuccess log_id => Some log_id
  | _ => None
  end.

(** [into_stream_result]: a conflict with a request without previous log
    panics. *)
Definition into_stream_result (r : AppendEntriesResponse) (prev_log_id last_log_id : option LogId) :
    outcome StreamAppendResult :=
  match r with
  | AppendEntriesResponse_Success => Ret (Ok last_log_id)
  | AppendEntriesResponse_PartialSuccess log_id => Ret (Ok log_id)
  | AppendEntriesResponse_Conflict =>
      p ← unwrap prev_log_id; Ret (Err (StreamAppendError_Conflict p))
  | AppendEntriesResponse_HigherVote vote => Ret (Err (StreamAppendError_HigherVote vote))
  end.

(** [From<StreamAppendResult>] *)
Definition AppendEntriesResponse_from (r : StreamAppendResult) : AppendEntriesResponse :=
  match r with
  | Ok _ => AppendEntriesResponse_Success
  | Err (StreamAppendError_Conflict _) => AppendEntriesResponse_Conflict
  | Err (StreamAppendError_HigherVote v) => AppendEntriesResponse_HigherVote v
  end.

Inductive TransferLeaderError :=
| TransferLeaderError_VoteChanged (expected actual : Vote)
| TransferLeaderError_LogNotFlushed (expected actual : option LogId).

Definition TransferLeaderResponse : Type := result unit TransferLeaderError.

(** ** Wire types and conversions *)

Record WireAppendEntriesReq (V L E : Type) := mkWireAppendEntriesReq {
  WireAppendEntriesReq_vote : V;
  WireAppendEntriesReq_prev_log_id : option L;
  WireAppendEntriesReq_entries : list E;
  WireAppendEntriesReq_leader_commit : option L;
}.
Arguments mkWireAppendEntriesReq {_ _ _}.
Arguments WireAppendEntriesReq_vote {_ _ _}.
Arguments WireAppendEntriesReq_prev_log_id {_ _ _}.
Arguments WireAppendEntriesReq_entries {_ _ _}.
Arguments WireAppendEntriesReq_leader_commit {_ _ _}.

Definition WireAppendEntriesReq_from (r : AppendEntriesRequest) : WireAppendEntriesReq Vote LogId Entry :=
  mkWireAppendEntriesReq (AppendEntriesRequest_vote r) (AppendEntriesRequest_prev_log_id r)
    (AppendEntriesRequest_entries r) (AppendEntriesRequest_leader_commit r).

Definition AppendEntriesRequest_from_wire (w : WireAppendEntriesReq Vote LogId Entry) :
    AppendEntriesRequest :=
  mkAppendEntriesRequest (WireAppendEntriesReq_vote w)
    (WireAppendEntriesReq_prev_log_id w) (WireAppendEntriesReq_entries w)
    (WireAppendEntriesReq_leader_commit w).

Inductive WireAppendEntriesResp (V L : Type) :=
| WireAppendEntriesResp_Success
| WireAppendEntriesResp_PartialSuccess (log_id : option L)
| WireAppendEntriesResp_Conflict
| WireAppendEntriesResp_HigherVote (vote : V).
Arguments WireAppendEntriesResp_Success {_ _}.
Arguments WireAppendEntriesResp_PartialSuccess {_ _}.
Arguments WireAppendEntriesResp_Conflict {_ _}.
Arguments WireAppendEntriesResp_HigherVote {_ _}.

Definition WireAppendEntriesResp_from (r : AppendEntriesResponse) : WireAppendEntriesResp Vote LogId :=
  match r with
  | AppendEntriesResponse_Success => WireAppendEntriesResp_Success
  | AppendEntriesResponse_PartialSuccess l => WireAppendEntriesResp_PartialSuccess l
  | AppendEntriesResponse_Conflict => WireAppendEntriesResp_Conflict
  | AppendEntriesResponse_HigherVote v => WireAppendEntriesResp_HigherVote v
  end.

Definition AppendEntriesResponse_from_wire (w : WireAppendEntriesResp Vote LogId) :
    AppendEntriesResponse :=
  match w with
  | WireAppendEntriesResp_Success => AppendEntriesResponse_Success
  | WireAppendEntriesResp_PartialSuccess l => AppendEntriesResponse_PartialSuccess l
  | WireAppendEntriesResp_Conflict => AppendEntriesResponse_Conflict
  | WireAppendEntriesResp_HigherVote v => AppendEntriesResponse_HigherVote v
  end.

Record WireVoteReq (V L : Type) := mkWireVoteReq {
  WireVoteReq_vote : V;
  WireVoteReq_last_log_id : option L;
  WireVoteReq_leadership_transfer : bool;
  WireVoteReq_is_pre_vote : bool;
}.
Arguments mkWireVoteReq {_ _}.
Arguments WireVoteReq_vote {_ _}.
Arguments WireVoteReq_last_log_id {_ _}.
Arguments WireVoteReq_leadership_transfer {_ _}.
Arguments WireVoteReq_is_pre_vote {_ _}.

Definition WireVoteReq_from (r : VoteRequest) : WireVoteReq Vote LogId :=
  mkWireVoteReq (VoteRequest_vote r) (VoteRequest_last_log_id r)
    (VoteRequest_leadership_transfer r) (VoteRequest_is_pre_vote r).

Definition VoteRequest_from_wire (w : WireVoteReq Vote LogId) : VoteRequest :=
  mkVoteRequest (WireVoteReq_vote w) (WireVoteReq_last_log_id w)
    (WireVoteReq_leadership_transfer w) (WireVoteReq_is_pre_vote w).

(** [into_vote_request]: the flag comes from the route, not from the wire. *)
Definition into_vote_request (w : WireVoteReq Vote LogId) (is_pre_vote : bool) : VoteRequest :=
  mkVoteRequest (WireVoteReq_vote w) (WireVoteReq_last_log_id w)
    (WireVoteReq_leadership_transfer w) is_pre_vote.

Record WireVoteResp (V L : Type) := mkWireVoteResp {
  WireVoteResp_vote : V;
  WireVoteResp_vote_granted : bool;
  WireVoteResp_last_log_id : option L;
}.
Arguments mkWireVoteResp {_ _}.
Arguments WireVoteResp_vote {_ _}.
Arguments WireVoteResp_vote_granted {_ _}.
Arguments WireVoteResp_last_log_id {_ _}.

Definition WireVoteResp_from (r : VoteResponse) : WireVoteResp Vote LogId :=
  mkWireVoteResp (VoteResponse_vote r) (VoteResponse_vote_granted r) (VoteResponse_last_log_id r).

Definition VoteResponse_from_wire (w : WireVoteResp Vote LogId) : VoteResponse :=
  mkVoteResponse (WireVoteResp_vote w) (WireVoteResp_vote_granted w)
    (WireVoteResp_last_log_id w).

Record WireSnapshotResp (V : Type) := mkWireSnapshotResp { WireSnapshotResp_vote : V }.
Arguments mkWireSnapshotResp {_}.
Arguments WireSnapshotResp_vote {_}.

Definition WireSnapshotResp_from (r : SnapshotResponse) : WireSnapshotResp Vote :=
  mkWireSnapshotResp (SnapshotResponse_vote r).
Definition SnapshotResponse_from_wire (w : WireSnapshotResp Vote) : SnapshotResponse :=
  mkSnapshotResponse (WireSnapshotResp_vote w).

Record WireTransferLeaderReq (V N L : Type) := mkWireTransferLeaderReq {
  WireTransferLeaderReq_from_leader : V;
  WireTransferLeaderReq_to_node_id : N;
  WireTransferLeaderReq_last_log_id : option L;
}.
Arguments mkWireTransferLeaderReq {_ _ _}.
Arguments WireTransferLeaderReq_from_leader {_ _ _}.
Arguments WireTransferLeaderReq_to_node_id {_ _ _}.
Arguments WireTransferLeaderReq_last_log_id {_ _ _}.

Definition WireTransferLeaderReq_from (r : TransferLeaderRequest) : WireTransferLeaderReq Vote u64 LogId :=
  mkWireTransferLeaderReq (TransferLeaderRequest_from_leader r)
    (TransferLeaderRequest_to_node_id r) (TransferLeaderRequest_last_log_id r).

Definition TransferLeaderRequest_from_wire (w : WireTransferLeaderReq Vote u64 LogId) :
    TransferLeaderRequest :=
  mkTransferLeaderRequest (WireTransferLeaderReq_from_leader w)
    (WireTransferLeaderReq_to_node_id w) (WireTransferLeaderReq_last_log_id w).

Inductive WireTransferLeaderErr (V L : Type) :=
| WireTransferLeaderErr_VoteChanged (expected actual : V)
| WireTransferLeaderErr_LogNotFlushed (expected actual : option L).
Arguments WireTransferLeaderErr_VoteChanged {_ _}.
Arguments WireTransferLeaderErr_LogNotFlushed {_ _}.

Definition WireTransferLeaderErr_from (e : TransferLeaderError) : WireTransferLeaderErr Vote LogId :=
  match e with
  | TransferLeaderError_VoteChanged expected actual =>
      WireTransferLeaderErr_VoteChanged expected actual
  | TransferLeaderError_LogNotFlushed expected actual =>
      WireTransferLeaderErr_LogNotFlushed expected actual
  end.

Definition TransferLeaderError_from_wire (w : WireTransferLeaderErr Vote LogId) : TransferLeaderError :=
  match w with
  | WireTransferLeaderErr_VoteChanged expected actual =>
      TransferLeaderError_VoteChanged expected actual
  | WireTransferLeaderErr_LogNotFlushed expected actual =>
      TransferLeaderError_LogNotFlushed expected actual
  end.

(** [Cursor<Vec<u8>>]: the data of a snapshot with a read position. *)
Record Cursor := mkCursor { Cursor_inner : list Byte.byte; Cursor_pos : u64 }.
Definition Cursor_new (data : list Byte.byte) : Cursor := mkCursor data 0.

Record WireSnapshotPayload (V M : Type) := mkWireSnapshotPayload {
  WireSnapshotPayload_vote : V;
  WireSnapshotPayload_meta : M;
  WireSnapshotPayload_data : list Byte.byte;
}.
Arguments mkWireSnapshotPayload {_ _}.
Arguments WireSnapshotPayload_vote {_ _}.
Arguments WireSnapshotPayload_meta {_ _}.
Arguments WireSnapshotPayload_data {_ _}.

(** [into_snapshot] *)
Definition into_snapshot (w : WireSnapshotPayload Vote SnapshotMeta) :
    Vote * (SnapshotMeta * Cursor) :=
  (WireSnapshotPayload_vote w,
   (WireSnapshotPayload_meta w, Cursor_new (WireSnapshotPayload_data w))).

Definition result_map_err {A E F} (f : E → F) (r : result A E) : result A F :=
  match r with Ok a => Ok a | Err e => Err (f e) end.

(** ** Errors of an RPC *)

Inductive RPCTypes :=
| RPCTypes_Vote
| RPCTypes_AppendEntries
| RPCTypes_InstallSnapshot
| RPCTypes_TransferLeader.

(** [Infallible] remote errors do not occur. *)
Inductive RPCError :=
| RPCError_Timeout (action : RPCTypes) (id target : u64) (timeout : Duration)
| RPCError_Unreachable (source : string)
| RPCError_Network (source : string).

Definition backoff_rank (e : RPCError) : u64 :=
  match e with
  | RPCError_Timeout _ _ _ _ => 2
  | RPCError_Unreachable _ => 100
  | RPCError_Network _ => 2
  end.

Inductive StreamingError :=
| StreamingError_Closed (reason : string)
| StreamingError_RPC (e : RPCError).

(** [RPCOption::soft_ttl] *)
Definition soft_ttl (hard_ttl : Duration) : Duration := (hard_ttl * 3 / 4)%N.

(** ** The codec *)

Class Bitcode (bytes A : Type) := {
  encode : A → bytes;
  decode : bytes → result A string;
}.
Class BitcodeLaws (bytes A : Type) `{!Bitcode bytes A} :=
  decode_encode : ∀ a : A, decode (encode a) = Ok a.

(** One codec for every wire type. *)
Class Codec (bytes : Type) := {
  #[global] codec_append_req :: Bitcode bytes (WireAppendEntriesReq Vote LogId Entry);
  #[global] codec_append_resp :: Bitcode bytes (WireAppendEntriesResp Vote LogId);
  #[global] codec_vote_req :: Bitcode bytes (WireVoteReq Vote LogId);
  #[global] codec_vote_resp :: Bitcode bytes (WireVoteResp Vote LogId);
  #[global] codec_snapshot :: Bitcode bytes (WireSnapshotPayload Vote SnapshotMeta);
  #[global] codec_snapshot_resp :: Bitcode bytes (WireSnapshotResp Vote);
  #[global] codec_transfer_req :: Bitcode bytes (WireTransferLeaderReq Vote u64 LogId);
  #[global] codec_transfer_resp :: Bitcode bytes (result unit (WireTransferLeaderErr Vote LogId));
}.

Class CodecLaws (bytes : Type) `{!Codec bytes} := {
  #[global] law_append_req :: BitcodeLaws bytes (WireAppendEntriesReq Vote LogId Entry);
  #[global] law_append_resp :: BitcodeLaws bytes (WireAppendEntriesResp Vote LogId);
  #[global] law_vote_req :: BitcodeLaws bytes (WireVoteReq Vote LogId);
  #[global] law_vote_resp :: BitcodeLaws bytes (WireVoteResp Vote LogId);
  #[global] law_snapshot :: BitcodeLaws bytes (WireSnapshotPayload Vote SnapshotMeta);
  #[global] law_snapshot_resp :: BitcodeLaws bytes (WireSnapshotResp Vote);
  #[global] law_transfer_req :: BitcodeLaws bytes (WireTransferLeaderReq Vote u64 LogId);
  #[global] law_transfer_resp :: BitcodeLaws bytes (result unit (WireTransferLeaderErr Vote LogId));
}.

Definition RPC_APPEND_ENTRIES : string := "append_entries".
Definition RPC_VOTE : string := "vote".
Definition RPC_PRE_VOTE : string := "pre_vote".
Definition RPC_SNAPSHOT : string := "snapshot".
Definition RPC_TRANSFER_LEADER : string := "transfer_leader".
Definition ERR_UNKNOWN_ROUTE : string := "unknown RPC route".
Definition ERR_ZENOH_QUERY : string := "Zenoh query error".
Definition TIMEOUT_TOLERANCE : Duration := 15.

Definition slash : Ascii.ascii := Ascii.ascii_of_nat 47.

(** [str::rsplit_once] *)
Fixpoint rsplit_once (c : Ascii.ascii) (s : string) : option (string * string) :=
  match s with
  | EmptyString => None
  | String a s' =>
      match rsplit_once c s' with
      | Some (x, y) => Some (String a x, y)
      | None => if decide (a = c) then Some (EmptyString, s') else None
      end
  end.

Section transport.
Context {bytes : Type} `{!Codec bytes} (no_bytes : bytes).
Context {S : Type}.

(** ** The server *)

(** The entry points of [Raft] that serve RPCs; an error is a fatal error,
    printed. *)
Record RaftApi := mkRaftApi {
  api_append_entries : AppendEntriesRequest → S → result AppendEntriesResponse string * S;
  api_vote : VoteRequest → S → result VoteResponse string * S;
  api_pre_vote : VoteRequest → S → result VoteResponse string * S;
  api_install_full_snapshot :
    Vote → SnapshotMeta * Cursor → S → result SnapshotResponse string * S;
  api_handle_transfer_leader :
    TransferLeaderRequest → S → result TransferLeaderResponse string * S;
}.

(** [query.reply] or [query.reply_err] *)
Definition Reply : Type := result bytes string.

Definition decode_query {A} `{!Bitcode bytes A} (payload : option bytes) : result A string :=
  result_map_err (λ e, "decode error: " +:+ e) (decode (default no_bytes payload)).

Definition reply_rpc_err (rpc err : string) : Reply := Err (rpc +:+ " error: " +:+ err).

(** One arm of [dispatch_query]: decode, call, encode. *)
Definition serve {Req WResp Resp} `{!Bitcode bytes Req, !Bitcode bytes WResp} (rpc : string)
    (call : Req → S → result Resp string * S) (from : Resp → WResp)
    (payload : option bytes) (s : S) : Reply * S :=
  match decode_query payload with
  | Err e => (Err e, s)
  | Ok wire_req =>
      let '(res, s') := call wire_req s in
      (match res with
       | Ok resp => Ok (encode (from resp))
       | Err e => reply_rpc_err rpc e
       end, s')
  end.

Definition dispatch_query (raft : RaftApi) (key : string) (payload : option bytes) (s : S) :
    Reply * S :=
  match snd <$> rsplit_once slash key with
  | Some rpc =>
      if decide (rpc = RPC_APPEND_ENTRIES) then
        serve RPC_APPEND_ENTRIES
          (λ w, api_append_entries raft (AppendEntriesRequest_from_wire w))
          WireAppendEntriesResp_from payload s
      else if decide (rpc = RPC_VOTE) then
        serve RPC_VOTE (λ w, api_vote raft (VoteRequest_from_wire w)) WireVoteResp_from payload s
      else if decide (rpc = RPC_PRE_VOTE) then
        serve RPC_PRE_VOTE (λ w, api_pre_vote raft (into_vote_request w true))
          WireVoteResp_from payload s
      else if decide (rpc = RPC_SNAPSHOT) then
        serve RPC_SNAPSHOT
          (λ w, let '(vote, snapshot) := into_snapshot w in api_install_full_snapshot raft vote snapshot)
          WireSnapshotResp_from payload s
      else if decide (rpc = RPC_TRANSFER_LEADER) then
        serve RPC_TRANSFER_LEADER
          (λ w, api_handle_transfer_leader raft (TransferLeaderRequest_from_wire w))
          (result_map_err WireTransferLeaderErr_from) payload s
      else (Err ERR_UNKNOWN_ROUTE, s)
  | None => (Err ERR_UNKNOWN_ROUTE, s)
  end.

(** ** The client *)

Record ZenohRpcKeys := mkZenohRpcKeys {
  key_append_entries : string;
  key_vote : string;
  key_pre_vote : string;
  key_snapshot : string;
  key_transfer_leader : string;
}.

(** [KeyExpr::try_from], which fails for an invalid key expression, the
    [Display] of a node id and the [Debug] of a duration. *)
Context (key_expr : string → result string string).
Context (show : u64 → string) (show_duration : Duration → string).

Definition new_key (name base_key : string) : result string string :=
  result_map_err (λ e, "invalid key_expr for " +:+ name +:+ ": " +:+ e)
    (key_expr (base_key +:+ "/" +:+ name)).

Definition ZenohRpcKeys_try_new (key_prefix : string) (target : u64) : result ZenohRpcKeys string :=
  let base_key := key_prefix +:+ "/" +:+ show target in
  match new_key RPC_APPEND_ENTRIES base_key with
  | Err e => Err e
  | Ok append_entries =>
  match new_key RPC_VOTE base_key with
  | Err e => Err e
  | Ok vote =>
  match new_key RPC_PRE_VOTE base_key with
  | Err e => Err e
  | Ok pre_vote =>
  match new_key RPC_SNAPSHOT base_key with
  | Err e => Err e
  | Ok snapshot =>
  match new_key RPC_TRANSFER_LEADER base_key with
  | Err e => Err e
  | Ok transfer_leader => Ok (mkZenohRpcKeys append_entries vote pre_vote snapshot transfer_leader)
  end end end end end.

(** What a query ends with: the session refuses it, a first reply arrives (an
    error reply whose payload may not be a string), or the channel closes
    without one. *)
Inductive GetResult :=
| GetResult_Refused (e : string)
| GetResult_Sample (payload : bytes)
| GetResult_Error (payload : option string)
| GetResult_Closed (elapsed : Duration).

Definition Session : Type := string → bytes → Duration → S → GetResult * S.

Record ZenohNetwork := mkZenohNetwork {
  network_target : u64;
  network_keys : ZenohRpcKeys;
  network_session : Session;
}.

Definition send_query {Req Resp} `{!Bitcode bytes Req, !Bitcode bytes Resp} (n : ZenohNetwork)
    (key : string) (action : RPCTypes) (hard_ttl : Duration) (req : Req) (s : S) :
    result Resp RPCError * S :=
  let timeout := soft_ttl hard_ttl in
  let '(res, s') := network_session n key (encode req) timeout s in
  (match res with
   | GetResult_Refused e => Err (RPCError_Unreachable e)
   | GetResult_Sample payload => result_map_err RPCError_Network (decode payload)
   | GetResult_Error payload => Err (RPCError_Unreachable (default ERR_ZENOH_QUERY payload))
   | GetResult_Closed elapsed =>
       if (timeout <=? (elapsed + TIMEOUT_TOLERANCE)%N)
       then Err (RPCError_Timeout action (network_target n) (network_target n) timeout)
       else Err (RPCError_Unreachable ("target node " +:+ show (network_target n) +:+
              " unreachable: query channel closed after " +:+ show_duration elapsed))
   end, s').

Definition result_map {A B E} (f : A → B) (r : result A E) : result B E :=
  match r with Ok a => Ok (f a) | Err e => Err e end.

Definition network_append_entries (n : ZenohNetwork) (rpc : AppendEntriesRequest)
    (hard_ttl : Duration) (s : S) : result AppendEntriesResponse RPCError * S :=
  let '(res, s') := send_query n (key_append_entries (network_keys n)) RPCTypes_AppendEntries
                      hard_ttl (WireAppendEntriesReq_from rpc) s in
  (result_map AppendEntriesResponse_from_wire res, s').

Definition network_vote (n : ZenohNetwork) (rpc : VoteRequest) (hard_ttl : Duration) (s : S) :
    result VoteResponse RPCError * S :=
  let '(res, s') := send_query n (key_vote (network_keys n)) RPCTypes_Vote hard_ttl
                      (WireVoteReq_from rpc) s in
  (result_map VoteResponse_from_wire res, s').

(** [pre_vote] sets the flag before sending. *)
Definition set_is_pre_vote (rpc : VoteRequest) : VoteRequest :=
  mkVoteRequest (VoteRequest_vote rpc) (VoteRequest_last_log_id rpc)
    (VoteRequest_leadership_transfer rpc) true.
Definition network_pre_vote (n : ZenohNetwork) (rpc : VoteRequest) (hard_ttl : Duration) (s : S) :
    result VoteResponse RPCError * S :=
  let '(res, s') := send_query n (key_pre_vote (network_keys n)) RPCTypes_Vote hard_ttl
                      (WireVoteReq_from (set_is_pre_vote rpc)) s in
  (result_map VoteResponse_from_wire res, s').

(** [full_snapshot]; when the cancel future ends first, [cancel] is its reason
    and whether the query had been sent. *)
Definition network_full_snapshot (n : ZenohNetwork) (vote : Vote) (meta : SnapshotMeta)
    (snapshot : Cursor) (cancel : option (string * bool)) (hard_ttl : Duration) (s : S) :
    result SnapshotResponse StreamingError * S :=
  let '(res, s') := send_query n (key_snapshot (network_keys n)) RPCTypes_InstallSnapshot hard_ttl
                      (mkWireSnapshotPayload vote meta (Cursor_inner snapshot)) s in
  match cancel with
  | Some (closed, sent) => (Err (StreamingError_Closed closed), if (sent : bool) then s' else s)
  | None => (result_map_err StreamingError_RPC (result_map SnapshotResponse_from_wire res), s')
  end.

Definition network_transfer_leader (n : ZenohNetwork) (req : TransferLeaderRequest)
    (hard_ttl : Duration) (s : S) : result TransferLeaderResponse RPCError * S :=
  let '(res, s') := send_query n (key_transfer_leader (network_keys n)) RPCTypes_TransferLeader
                      hard_ttl (WireTransferLeaderReq_from req) s in
  (result_map (result_map_err TransferLeaderError_from_wire) res, s').

(** ** An RPC through the transport *)

(** A session that hands a query to the server and its reply to the client. *)
Definition connected (raft : RaftApi) (session : Session) : Prop :=
  ∀ key payload timeout s, session key payload timeout s =
    let '(r, s') := dispatch_query raft key (Some payload) s in
    (match r with Ok b => GetResult_Sample b | Err e => GetResult_Error (Some e) end, s').

(** What the client makes of the result of a handler. *)
Definition rpc_result {A} (rpc : string) (r : result A string) : result A RPCError :=
  match r with
  | Ok a => Ok a
  | Err e => Err (RPCError_Unreachable (rpc +:+ " error: " +:+ e))
  end.

Lemma rsplit_once_app c a b :
  rsplit_once c b = None → rsplit_once c (a +:+ String c b) = Some (a, b).
Proof.
  intros Hb. induction a as [|x a IH]; simpl.
  - rewrite Hb. by rewrite decide_True.
  - by rewrite IH.
Qed.

(** The route of a key is the name of the RPC it was built from. *)
Lemma dispatch_route key_prefix target rpc :
  rsplit_once slash rpc = None →
  snd <$> rsplit_once slash ((key_prefix +:+ "/" +:+ show target) +:+ "/" +:+ rpc) = Some rpc.
Proof. intros H. rewrite (rsplit_once_app slash _ rpc H). done. Qed.

Context `{!CodecLaws bytes}.
Context (key_expr_str : ∀ s s', key_expr s = Ok s' → s' = s).

Lemma new_key_Ok name base_key key :
  new_key name base_key = Ok key → key = base_key +:+ "/" +:+ name.
Proof. unfold new_key. destruct (key_expr _) eqn:E; [|done]. intros [= <-]. by apply key_expr_str. Qed.

Lemma try_new_keys key_prefix target keys :
  ZenohRpcKeys_try_new key_prefix target = Ok keys →
  let key rpc := (key_prefix +:+ "/" +:+ show target) +:+ "/" +:+ rpc in
  keys = mkZenohRpcKeys (key RPC_APPEND_ENTRIES) (key RPC_VOTE) (key RPC_PRE_VOTE)
           (key RPC_SNAPSHOT) (key RPC_TRANSFER_LEADER).
Proof.
  unfold ZenohRpcKeys_try_new. cbv zeta. intros H.
  repeat match type of H with
  | context [new_key ?n ?b] => destruct (new_key n b) eqn:?; [|done]
  end.
  injection H as <-.
  repeat match goal with E : new_key _ _ = Ok _ |- _ => apply new_key_Ok in E; subst end. done.
Qed.

(** A query that is served answers with the result of the handler. *)
Lemma send_query_serve {Req WResp Resp} `{!Bitcode bytes Req, !Bitcode bytes WResp}
    `{!BitcodeLaws bytes Req, !BitcodeLaws bytes WResp} raft n key action ttl (req : Req) s
    rpc (call : Req → S → result Resp string * S) (from : Resp → WResp) :
  connected raft (network_session n) →
  dispatch_query raft key (Some (encode req)) s = serve rpc call from (Some (encode req)) s →
  send_query n key action ttl req s =
    let '(res, s') := call req s in (result_map from (rpc_result rpc res), s').
Proof.
  intros Hc Hd. unfold send_query. rewrite Hc, Hd. unfold serve, decode_query. simpl.
  rewrite decode_encode. simpl. destruct (call req s) as [[resp|e] s']; simpl; [|done].
  by rewrite decode_encode.
Qed.

Ltac serve_rpc Hc Hk :=
  erewrite (send_query_serve _ _ _ _ _ _ _ _ _ _ Hc);
  [|rewrite Hk; unfold dispatch_query;
    cbn [key_append_entries key_vote key_pre_vote key_snapshot key_transfer_leader];
    rewrite dispatch_route by reflexivity; reflexivity].

(** ** Properties *)

(** C33: an RPC is transparent: when the session connects a client to the
    server at its target, each of the five calls runs exactly the handler of
    its route on exactly the request that was sent (a pre-vote request marked
    as such, a snapshot rewound to its start), and returns the answer of the
    handler, or [Unreachable] with the printed error of the node. *)
Theorem rpc_transparent raft n key_prefix ttl s :
  connected raft (network_session n) →
  ZenohRpcKeys_try_new key_prefix (network_target n) = Ok (network_keys n) →
  (∀ rpc, network_append_entries n rpc ttl s =
     let '(res, s') := api_append_entries raft rpc s in (rpc_result RPC_APPEND_ENTRIES res, s')) ∧
  (∀ rpc, network_vote n rpc ttl s =
     let '(res, s') := api_vote raft rpc s in (rpc_result RPC_VOTE res, s')) ∧
  (∀ rpc, network_pre_vote n rpc ttl s =
     let '(res, s') := api_pre_vote raft (set_is_pre_vote rpc) s in (rpc_result RPC_PRE_VOTE res, s')) ∧
  (∀ vote meta snapshot, network_full_snapshot n vote meta snapshot None ttl s =
     let '(res, s') := api_install_full_snapshot raft vote (meta, Cursor_new (Cursor_inner snapshot)) s in
     (result_map_err StreamingError_RPC (rpc_result RPC_SNAPSHOT res), s')) ∧
  (∀ req, network_transfer_leader n req ttl s =
     let '(res, s') := api_handle_transfer_leader raft req s in (rpc_result RPC_TRANSFER_LEADER res, s')).
Proof.
  intros Hc Hk. apply try_new_keys in Hk.
  split_and!; intros; unfold network_append_entries, network_vote, network_pre_vote,
    network_full_snapshot, network_transfer_leader; serve_rpc Hc Hk; simpl.
  - destruct rpc; simpl. destruct (api_append_entries _ _ _) as [[[]|] ?]; done.
  - destruct rpc; simpl. destruct (api_vote _ _ _) as [[[]|] ?]; done.
  - destruct rpc; simpl. destruct (api_pre_vote _ _ _) as [[[]|] ?]; done.
  - destruct (api_install_full_snapshot _ _ _ _) as [[[]|] ?]; done.
  - destruct req; simpl. destruct (api_handle_transfer_leader _ _ _) as [[[|[]]|] ?]; done.
Qed.
End transport.

(** ** [stream_append_sequential]

    [network/stream_append_trait.rs]: one request at a time over a network with
    a state.  The stream ends after a result that is not a full success. *)
Section stream.
Context {N : Type}.

Fixpoint stream_append_sequential
    (append_entries : AppendEntriesRequest → N → result AppendEntriesResponse RPCError * N)
    (input : list AppendEntriesRequest) (network : N) :
    outcome (list (result StreamAppendResult RPCError) * N) :=
  match input with
  | [] => Ret ([], network)
  | req :: input =>
      let range := AppendEntriesRequest_log_id_range req in
      let '(res, network) := append_entries req network in
      match res with
      | Err e => Ret ([Err e], network)
      | Ok resp =>
          stream_result ← into_stream_result resp (LogIdRange_prev range) (LogIdRange_last range);
          let go_on :=
            match stream_result with
            | Err _ => false
            | Ok _ =>
                match get_partial_success resp with
                | Some partial => bool_decide (partial = LogIdRange_last range)
                | None => true
                end
            end in
          if go_on : bool then
            '(results, network) ← stream_append_sequential append_entries input network;
            Ret (Ok stream_result :: results, network)
          else Ret ([Ok stream_result], network)
      end
  end.

(** A follower that answers a request with its last log, with its previous log
    as the conflict, or with a higher vote. *)
Definition answers_request (req : AppendEntriesRequest) (r : StreamAppendResult) : Prop :=
  match r with
  | Ok last => last = AppendEntriesRequest_last_log_id req
  | Err (StreamAppendError_Conflict p) => AppendEntriesRequest_prev_log_id req = Some p
  | Err (StreamAppendError_HigherVote _) => True
  end.

Lemma append_response_roundtrip req r :
  answers_request req r →
  into_stream_result (AppendEntriesResponse_from r) (AppendEntriesRequest_prev_log_id req)
    (AppendEntriesRequest_last_log_id req) = Ret r.
Proof. by destruct r as [l|[p|v]]; simpl; [intros ->|intros ->|]. Qed.

Context (follower : AppendEntriesRequest → N → result StreamAppendResult RPCError * N).

(** [Raft::append_entries] of the follower behind the network. *)
Definition follower_append_entries (req : AppendEntriesRequest) (n : N) :
    result AppendEntriesResponse RPCError * N :=
  let '(r, n') := follower req n in (result_map AppendEntriesResponse_from r, n').

(** The answers up to and including the first failure. *)
Fixpoint until_failure (input : list AppendEntriesRequest) (n : N) :
    list (result StreamAppendResult RPCError) * N :=
  match input with
  | [] => ([], n)
  | req :: input =>
      let '(r, n') := follower req n in
      match r with
      | Ok (Ok _) => let '(rs, n'') := until_failure input n' in (r :: rs, n'')
      | _ => ([r], n')
      end
  end.

(** A stream of append requests over single RPCs delivers what the follower
    answers: the conversion to the RPC response and back loses nothing, the
    results come one per request in order up to and including the first failure,
    nothing is sent after it, and the conversion never panics. *)
Theorem stream_append_faithful input n :
  (∀ req n r n', req ∈ input → follower req n = (Ok r, n') → answers_request req r) →
  stream_append_sequential follower_append_entries input n = Ret (until_failure input n).
Proof.
  revert n. induction input as [|req input IH]; intros n Hf; [done|].
  cbn [stream_append_sequential until_failure]. unfold follower_append_entries at 1.
  destruct (follower req n) as [[r|e] n'] eqn:E; [|done].
  unfold AppendEntriesRequest_log_id_range. cbn [result_map LogIdRange_prev LogIdRange_last].
  rewrite append_response_roundtrip by (eapply Hf; [left|exact E]). simpl.
  destruct r as [l|[p|v]]; simpl; [|done|done].
  rewrite IH by (intros; eapply Hf; [right|]; eauto). by destruct (until_failure input n').
Qed.
End stream.
End wire.

(** ** Witnesses *)

Module WireWitness.
#[local] Existing Instance adv_config.
Import CommandWitness.

(** A codec: the bytes are the wire value itself, with its type as a tag. *)
Inductive value :=
| value_append_req (a : WireAppendEntriesReq Vote LogId Entry)
| value_append_resp (a : WireAppendEntriesResp Vote LogId)
| value_vote_req (a : WireVoteReq Vote LogId)
| value_vote_resp (a : WireVoteResp Vote LogId)
| value_snapshot (a : WireSnapshotPayload Vote SnapshotMeta)
| value_snapshot_resp (a : WireSnapshotResp Vote)
| value_transfer_req (a : WireTransferLeaderReq Vote u64 LogId)
| value_transfer_resp (a : result unit (WireTransferLeaderErr Vote LogId))
| value_none.

Definition bad {A} : result A string := Err "unexpected type".

#[local] Instance codec : Codec value := {|
  codec_append_req := {| encode := value_append_req; decode v := match v with value_append_req a => Ok a | _ => bad end |};
  codec_append_resp := {| encode := value_append_resp; decode v := match v with value_append_resp a => Ok a | _ => bad end |};
  codec_vote_req := {| encode := value_vote_req; decode v := match v with value_vote_req a => Ok a | _ => bad end |};
  codec_vote_resp := {| encode := value_vote_resp; decode v := match v with value_vote_resp a => Ok a | _ => bad end |};
  codec_snapshot := {| encode := value_snapshot; decode v := match v with value_snapshot a => Ok a | _ => bad end |};
  codec_snapshot_resp := {| encode := value_snapshot_resp; decode v := match v with value_snapshot_resp a => Ok a | _ => bad end |};
  codec_transfer_req := {| encode := value_transfer_req; decode v := match v with value_transfer_req a => Ok a | _ => bad end |};
  codec_transfer_resp := {| encode := value_transfer_resp; decode v := match v with value_transfer_resp a => Ok a | _ => bad end |};
|}.

#[local] Instance codec_laws : CodecLaws value.
Proof. by split. Qed.

(** A node that counts its calls, refuses votes and has no leader to give up. *)
Definition api : RaftApi (S := nat) := {|
  api_append_entries req s := (Ok (AppendEntriesResponse_PartialSuccess (AppendEntriesRequest_last_log_id req)), S s);
  api_vote req s := (Ok (VoteResponse_new (VoteRequest_vote req) None false), S s);
  api_pre_vote req s :=
    (Ok (VoteResponse_new (VoteRequest_vote req) None (VoteRequest_is_pre_vote req)), S s);
  api_install_full_snapshot vote _ s := (Ok (mkSnapshotResponse vote), S s);
  api_handle_transfer_leader req s := (Err "stopped", s);
|}.

Definition show (id : u64) : string := pretty.pretty id.
Definition key_expr (s : string) : result string string := Ok s.
Definition session : Session (bytes := value) (S := nat) := λ key payload timeout s,
  let '(r, s') := dispatch_query value_none api key (Some payload) s in
  (match r with Ok b => GetResult_Sample b | Err e => GetResult_Error (Some e) end, s').
Definition keys : ZenohRpcKeys :=
  match ZenohRpcKeys_try_new key_expr show "zenoh_raft" 3 with
  | Ok k => k
  | Err _ => mkZenohRpcKeys "" "" "" "" ""
  end.
Definition net : ZenohNetwork := mkZenohNetwork 3 keys session.

Lemma rpc_transparent_witness :
  network_pre_vote show show net (mkVoteRequest (Vote_new 2 1) None false false) 1000 5 =
    (Ok (VoteResponse_new (Vote_new 2 1) None true), 6) ∧
  network_transfer_leader show show net (mkTransferLeaderRequest (Vote_new 2 1) 3 None) 1000 5 =
    (Err (RPCError_Unreachable "transfer_leader error: stopped"), 5).
Proof.
  destruct (rpc_transparent value_none key_expr show show ltac:(intros ?? [= <-]; done)
    api net "zenoh_raft" 1000 5 ltac:(done) ltac:(done)) as (_ & _ & Hp & _ & Ht).
  split; [rewrite Hp|rewrite Ht]; reflexivity.
Defined.

(** The follower takes the first request and sees a conflict in the second. *)
Definition follow (req : AppendEntriesRequest) (n : nat) : result StreamAppendResult RPCError * nat :=
  match AppendEntriesRequest_prev_log_id req with
  | Some p => (Ok (Err (StreamAppendError_Conflict p)), S n)
  | None => (Ok (Ok (AppendEntriesRequest_last_log_id req)), S n)
  end.
Definition reqs : list AppendEntriesRequest :=
  [mkAppendEntriesRequest (Vote_new 1 1) None [blank 1 0] None;
   mkAppendEntriesRequest (Vote_new 1 1) (Some (lid 1 7)) [blank 1 8] None;
   mkAppendEntriesRequest (Vote_new 1 1) None [] None].

Lemma stream_append_faithful_witness :
  stream_append_sequential (follower_append_entries follow) reqs 0 =
    Ret ([Ok (Ok (Some (lid 1 0))); Ok (Err (StreamAppendError_Conflict (lid 1 7)))], 2).
Proof.
  rewrite (stream_append_faithful follow reqs 0); [reflexivity|].
  intros req n r n' _. unfold follow. destruct (AppendEntriesRequest_prev_log_id req) eqn:E;
    intros [= <- _]; [exact E|done].
Defined.
End WireWitness.
