(* ===== verification/Endpoint.v ===== *)
(** * Zenoh endpoints

    [network/zenoh/config.rs]: formatting of endpoint strings and the session
    builder.  Strings are lists of ASCII characters. *)

From Stdlib Require Import Ascii String.
From S2P Require Import Prelude.

(** ** Strings *)

Definition str : Type := list ascii.
Definition lit (s : string) : str := list_ascii_of_string s.

(** [char::is_whitespace] on ASCII: the tab to the carriage return, and the
    space. *)
Definition is_whitespace (c : ascii) : bool :=
  let n := nat_of_ascii c in (Nat.leb 9 n && Nat.leb n 13) || Nat.eqb n 32.

Fixpoint trim_start (s : str) : str :=
  match s with
  | c :: s' => if is_whitespace c then trim_start s' else s
  | [] => []
  end.
Definition trim (s : str) : str := reverse (trim_start (reverse (trim_start s))).

Definition starts_with (p s : str) : bool := bool_decide (take (length p) s = p).
Definition strip_prefix (p s : str) : option str :=
  if starts_with p s then Some (drop (length p) s) else None.
Fixpoint contains (p s : str) : bool :=
  starts_with p s || match s with [] => false | _ :: s' => contains p s' end.
Definition ends_with_char (c : ascii) (s : str) : bool := bool_decide (last s = Some c).

(** ** Formatting *)

Definition UDP : str := lit "udp/".
Definition TCP : str := lit "tcp/".
Definition QUIC : str := lit "quic/".
Definition REL : str := lit "rel=".
Definition MULTISTREAM : str := lit "multistream=".
Definition QUESTION : ascii := ascii_of_nat 63.
Definition SEMICOLON : ascii := ascii_of_nat 59.

Definition strip_endpoint_scheme (ep : str) : str :=
  match strip_prefix UDP ep with
  | Some core => core
  | None =>
      match strip_prefix TCP ep with
      | Some core => core
      | None => match strip_prefix QUIC ep with Some core => core | None => ep end
      end
  end.

(** [format_quic_endpoint], [format_tcp_endpoint] and [format_udp_endpoint]
    differ only in the scheme. *)
Definition format_scheme (scheme endpoint : str) : str :=
  let ep := trim endpoint in
  if starts_with scheme ep then ep else scheme ++ strip_endpoint_scheme ep.
Definition format_quic_endpoint : str → str := format_scheme QUIC.
Definition format_tcp_endpoint : str → str := format_scheme TCP.
Definition format_udp_endpoint : str → str := format_scheme UDP.

(** [if !s.ends_with('?') && !s.ends_with(';') { s.push(';') }] *)
Definition push_separator (s : str) : str :=
  if negb (ends_with_char QUESTION s) && negb (ends_with_char SEMICOLON s)
  then s ++ [SEMICOLON] else s.

Definition format_quic_plain_endpoint (endpoint : str) : str :=
  let ep := trim endpoint in
  let core := strip_endpoint_scheme ep in
  let has_rel := contains REL core in
  let has_multistream := contains MULTISTREAM core in
  if has_rel && has_multistream then
    if starts_with UDP ep then ep else UDP ++ core
  else
    let s := UDP ++ core in
    if negb (contains [QUESTION] core) then s ++ lit "?rel=1;multistream=1"
    else
      let s := if negb has_rel then push_separator s ++ lit "rel=1" else s in
      if negb has_multistream then push_separator s ++ lit "multistream=1" else s.

Definition format_udp_reliable_endpoint : str → str := format_quic_plain_endpoint.

(** ** The session builder *)

Record ZenohTlsConfig := mkZenohTlsConfig {
  cert_base64 : str;
  key_base64 : str;
  root_ca_base64 : option str;
  verify_name_on_connect : bool;
}.

Record ZenohSessionBuilder := mkZenohSessionBuilder {
  listen_endpoints : list str;
  connect_endpoints : list str;
  tls : option ZenohTlsConfig;
  enable_multicast : bool;
  enable_gossip : bool;
}.

Definition ZenohSessionBuilder_new : ZenohSessionBuilder :=
  mkZenohSessionBuilder [] [] None false false.

Definition add_endpoint (b : ZenohSessionBuilder) (formatted : str) (is_listener : bool) :
    ZenohSessionBuilder :=
  if is_listener then
    mkZenohSessionBuilder (listen_endpoints b ++ [formatted]) (connect_endpoints b) (tls b)
      (enable_multicast b) (enable_gossip b)
  else
    mkZenohSessionBuilder (listen_endpoints b) (connect_endpoints b ++ [formatted]) (tls b)
      (enable_multicast b) (enable_gossip b).

Definition builder_quic_plain (b : ZenohSessionBuilder) (ep : str) : bool → ZenohSessionBuilder :=
  add_endpoint b (format_quic_plain_endpoint ep).
Definition builder_tcp (b : ZenohSessionBuilder) (ep : str) : bool → ZenohSessionBuilder :=
  add_endpoint b (format_tcp_endpoint ep).
Definition builder_udp (b : ZenohSessionBuilder) (ep : str) : bool → ZenohSessionBuilder :=
  add_endpoint b (format_udp_endpoint ep).
Definition builder_endpoint (b : ZenohSessionBuilder) (ep : str) : bool → ZenohSessionBuilder :=
  add_endpoint b (trim ep).
Definition builder_tls (b : ZenohSessionBuilder) (t : ZenohTlsConfig) : ZenohSessionBuilder :=
  mkZenohSessionBuilder (listen_endpoints b) (connect_endpoints b) (Some t)
    (enable_multicast b) (enable_gossip b).
Definition builder_quic_tls (b : ZenohSessionBuilder) (ep : str) (is_listener : bool)
    (t : ZenohTlsConfig) : ZenohSessionBuilder :=
  builder_tls (add_endpoint b (format_quic_endpoint ep) is_listener) t.

(** The keys and values that [build_config] inserts, in order. *)
Inductive ConfigValue :=
| ConfigValue_Bool (b : bool)
| ConfigValue_Str (s : str)
| ConfigValue_List (l : list str).

Definition build_config (b : ZenohSessionBuilder) : list (string * ConfigValue) :=
  [("scouting/multicast/enabled"%string, ConfigValue_Bool (enable_multicast b));
   ("scouting/gossip/enabled"%string, ConfigValue_Bool (enable_gossip b))] ++
  match listen_endpoints b with
  | [] => []
  | l => [("listen/endpoints"%string, ConfigValue_List l)]
  end ++
  match connect_endpoints b with
  | [] => []
  | l => [("connect/endpoints"%string, ConfigValue_List l)]
  end ++
  match tls b with
  | None => []
  | Some t =>
      [("transport/link/tls/listen_certificate_base64"%string, ConfigValue_Str (cert_base64 t));
       ("transport/link/tls/listen_private_key_base64"%string, ConfigValue_Str (key_base64 t));
       ("transport/link/tls/connect_certificate_base64"%string, ConfigValue_Str (cert_base64 t));
       ("transport/link/tls/connect_private_key_base64"%string, ConfigValue_Str (key_base64 t));
       ("transport/link/tls/root_ca_certificate_base64"%string,
         ConfigValue_Str (default (cert_base64 t) (root_ca_base64 t)));
       ("transport/link/tls/verify_name_on_connect"%string,
         ConfigValue_Bool (verify_name_on_connect t))]
  end.

(** ** Lemmas *)

(** A string without whitespace at its ends. *)
Definition trimmed (s : str) : Prop :=
  (∀ c, head s = Some c → is_whitespace c = false) ∧
  (∀ c, last s = Some c → is_whitespace c = false).

Lemma trim_start_head s c : head (trim_start s) = Some c → is_whitespace c = false.
Proof.
  induction s as [|a s IH]; [done|]. simpl. destruct (is_whitespace a) eqn:E; [done|].
  by intros [= <-].
Qed.

Lemma trim_start_id s : (∀ c, head s = Some c → is_whitespace c = false) → trim_start s = s.
Proof. destruct s as [|a s]; [done|]. intros H. simpl. by rewrite (H a). Qed.

Lemma trim_start_suffix s : ∃ p, s = p ++ trim_start s.
Proof.
  induction s as [|a s [p IH]]; [by exists []|]. simpl. destruct (is_whitespace a).
  - exists (a :: p). simpl. by f_equal.
  - by exists [].
Qed.

Lemma trim_id s : trimmed s → trim s = s.
Proof.
  intros [Hh Hl]. unfold trim. rewrite (trim_start_id s Hh), trim_start_id; [apply reverse_involutive|].
  intros c Hc. apply Hl. by rewrite <- head_reverse.
Qed.

Lemma trim_trimmed s : trimmed (trim s).
Proof.
  unfold trim. set (t := trim_start s). split.
  - intros c Hc. rewrite head_reverse in Hc.
    destruct (trim_start_suffix (reverse t)) as [p Hp].
    apply (trim_start_head s). fold t.
    assert (last (reverse t) = Some c) as Hl.
    { rewrite Hp, last_app, Hc. done. }
    by rewrite last_reverse in Hl.
  - intros c Hc. rewrite last_reverse in Hc. by apply trim_start_head in Hc.
Qed.

Lemma starts_with_app p s : starts_with p (p ++ s) = true.
Proof. unfold starts_with. rewrite take_app_length. by apply bool_decide_eq_true. Qed.

Lemma starts_with_inv p s : starts_with p s = true → s = p ++ drop (length p) s.
Proof. unfold starts_with. intros H%bool_decide_eq_true. rewrite <- H at 1. symmetry. apply take_drop. Qed.

Lemma starts_with_mono p s t : starts_with p s = true → starts_with p (s ++ t) = true.
Proof. intros H. rewrite (starts_with_inv p s H), <- app_assoc. apply starts_with_app. Qed.

Lemma contains_app_l p s t : contains p s = true → contains p (s ++ t) = true.
Proof.
  induction s as [|a s IH]; simpl; intros H.
  - apply orb_true_iff in H as [H|H]; [|done]. apply starts_with_mono with (t := t) in H. simpl in H.
    destruct t; simpl; by rewrite H.
  - apply orb_true_iff in H as [H|H]; apply orb_true_iff.
    + left. exact (starts_with_mono p (a :: s) t H).
    + right. by apply IH.
Qed.

Lemma contains_app_r p s t : contains p t = true → contains p (s ++ t) = true.
Proof. intros H. induction s as [|a s IH]; [done|]. simpl. apply orb_true_iff. by right. Qed.

Lemma strip_suffix ep : ∃ p, ep = p ++ strip_endpoint_scheme ep.
Proof.
  unfold strip_endpoint_scheme, strip_prefix.
  repeat match goal with |- context [starts_with ?p ep] =>
    destruct (starts_with p ep) eqn:?; [exists p; by apply starts_with_inv|] end.
  by exists [].
Qed.

Lemma strip_UDP core : strip_endpoint_scheme (UDP ++ core) = core.
Proof.
  unfold strip_endpoint_scheme, strip_prefix. rewrite starts_with_app. apply drop_app_length.
Qed.

Lemma trimmed_suffix p s : trimmed (p ++ s) → ∀ c, last s = Some c → is_whitespace c = false.
Proof. intros [_ H] c Hc. apply H. by rewrite last_app, Hc. Qed.

Lemma scheme_trimmed scheme x :
  scheme ∈ [UDP; TCP; QUIC] → (∀ c, last x = Some c → is_whitespace c = false) →
  trimmed (scheme ++ x).
Proof.
  intros Hs Hx. split; intros c; [|rewrite last_app; destruct (last x); [intros [= <-]; by apply Hx|]];
    repeat (apply elem_of_cons in Hs as [->|Hs]; [by intros [= <-]|]); by apply elem_of_nil in Hs.
Qed.

Lemma push_separator_app s : ∃ t, push_separator s = s ++ t.
Proof.
  unfold push_separator. destruct (_ && _); [by eexists|]. exists []. by rewrite app_nil_r.
Qed.

(** A formatted plain QUIC endpoint: the scheme and a body with both settings. *)
Lemma quic_plain_body ep :
  ∃ body, format_quic_plain_endpoint ep = UDP ++ body ∧ contains REL body = true ∧
    contains MULTISTREAM body = true ∧ (∀ c, last body = Some c → is_whitespace c = false).
Proof.
  unfold format_quic_plain_endpoint. pose proof (trim_trimmed ep) as Ht.
  destruct (strip_suffix (trim ep)) as [p Hp]. set (core := strip_endpoint_scheme (trim ep)) in *.
  assert (∀ c, last core = Some c → is_whitespace c = false) as Hlast
    by (rewrite Hp in Ht; by eapply trimmed_suffix).
  destruct (contains REL core) eqn:Hr, (contains MULTISTREAM core) eqn:Hm; cbn [negb andb].
  { exists core. split; [|done]. destruct (starts_with UDP (trim ep)) eqn:E; [|done].
    pose proof (starts_with_inv _ _ E) as Hi. unfold core. rewrite Hi at 2. by rewrite strip_UDP. }
  all: destruct (contains [QUESTION] core); cbn [negb];
    [|exists (core ++ lit "?rel=1;multistream=1"); rewrite !contains_app_r by done;
      split; [done|]; split; [done|]; split; [done|];
      intros c; rewrite last_app; by intros [= <-]].
  - destruct (push_separator_app (UDP ++ core)) as [t Hpush]. rewrite Hpush.
    exists (core ++ t ++ lit "multistream=1"). split; [by rewrite <- !app_assoc|].
    rewrite (contains_app_l REL) by done. rewrite (contains_app_r MULTISTREAM core) by (by apply contains_app_r).
    split; [done|]. split; [done|]. intros c. rewrite !last_app. by intros [= <-].
  - destruct (push_separator_app (UDP ++ core)) as [t Hpush]. rewrite Hpush.
    exists (core ++ t ++ lit "rel=1"). split; [by rewrite <- !app_assoc|].
    rewrite (contains_app_l MULTISTREAM) by done. rewrite (contains_app_r REL core) by (by apply contains_app_r).
    split; [done|]. split; [done|]. intros c. rewrite !last_app. by intros [= <-].
  - destruct (push_separator_app (UDP ++ core)) as [t Hpush]. rewrite Hpush.
    destruct (push_separator_app (((UDP ++ core) ++ t) ++ lit "rel=1")) as [t' Hpush'].
    rewrite Hpush'.
    exists (core ++ (t ++ lit "rel=1") ++ t' ++ lit "multistream=1").
    split; [by rewrite <- !app_assoc|].
    rewrite (contains_app_r REL core) by (by apply contains_app_l, contains_app_r).
    rewrite (contains_app_r MULTISTREAM core) by (by do 2 apply contains_app_r).
    split; [done|]. split; [done|]. intros c. rewrite !last_app. by intros [= <-].
Qed.

(** ** Properties *)

(** Endpoint formatting is stable: a formatted endpoint has the scheme
    asked for and formatting it again changes nothing; a plain QUIC endpoint
    is a UDP endpoint that sets both reliability and multistream. *)
Theorem endpoint_format_stable ep :
  (∀ scheme, scheme ∈ [UDP; TCP; QUIC] →
    starts_with scheme (format_scheme scheme ep) = true ∧
    format_scheme scheme (format_scheme scheme ep) = format_scheme scheme ep) ∧
  starts_with UDP (format_quic_plain_endpoint ep) = true ∧
  contains REL (format_quic_plain_endpoint ep) = true ∧
  contains MULTISTREAM (format_quic_plain_endpoint ep) = true ∧
  format_quic_plain_endpoint (format_quic_plain_endpoint ep) = format_quic_plain_endpoint ep.
Proof.
  split.
  - intros scheme Hs.
    assert (starts_with scheme (format_scheme scheme ep) = true ∧ trimmed (format_scheme scheme ep))
      as [H1 H2].
    { unfold format_scheme. destruct (starts_with scheme (trim ep)) eqn:E.
      - split; [done|]. apply trim_trimmed.
      - split; [apply starts_with_app|]. apply scheme_trimmed; [done|].
        destruct (strip_suffix (trim ep)) as [p Hp]. pose proof (trim_trimmed ep) as Ht.
        rewrite Hp in Ht. by eapply trimmed_suffix. }
    split; [done|]. set (r := format_scheme scheme ep) in *. unfold format_scheme.
    by rewrite (trim_id r), H1.
  - destruct (quic_plain_body ep) as (body & Hb & Hr & Hm & Hl). rewrite Hb.
    split; [apply starts_with_app|]. rewrite !contains_app_r by done.
    split; [done|]. split; [done|]. unfold format_quic_plain_endpoint.
    rewrite trim_id by (apply scheme_trimmed; [left|done]). rewrite strip_UDP, Hr, Hm. cbn [andb].
    by rewrite (starts_with_app UDP body).
Qed.

Module EndpointWitness.
Lemma endpoint_format_stable_witness :
  format_quic_plain_endpoint (lit " tcp/1.2.3.4:5?rel=0") = lit "udp/1.2.3.4:5?rel=0;multistream=1" ∧
  starts_with TCP (format_tcp_endpoint (lit "quic/h:1 ")) = true.
Proof.
  destruct (endpoint_format_stable (lit "quic/h:1 ")) as [H _]. split; [reflexivity|].
  destruct (H TCP) as [H1 _]; [right; left|exact H1].
Defined.
End EndpointWitness.
