(* ===== verification/Core.v ===== *)
(** * The runtime: state of [RaftCore], messages and handlers

    [core/raft_core.rs], [core/raft_msg/], [core/notification.rs],
    [core/sm/response.rs], [raft/message/precondition.rs],
    [errors/precondition_failed.rs] and [core/heartbeat/event.rs].

    The state is the engine with the queues and handles of the runtime.  What
    the runtime does to the outside (answers, calls of the log store, commands
    for the state machine worker, tasks and requests it starts) is a trace of
    outputs.  A call of the store or of the state machine worker may fail: the
    results of the successive calls are the environment [StoreEnv], and a
    failure ends the handler, as [?] does.  Logging, metrics and the recording
    of statistics are left out, with the clock reads that only they use. *)

From S2P Require Import Prelude Vote LogId LogIdList Quorum Membership VecProgress IOState.
From S2P Require Import MembershipState Entry RaftState Config ProgressEntry Proposer Command.
From S2P Require Import Engine Replication Following LeaderHandler VoteHandler EngineImpl.
From S2P Require Import VoteSafety Cluster ReadQueue CoreHelpers Wire.

(** The errors of the store and the results of its successive calls. *)
Class StoreEnv := {
  StorageError : Type;
  storage_error : nat → option StorageError;
}.

Section core.
Context {C : RaftTypeConfig} `{!Env, !StoreEnv}.

(** ** Preconditions *)

Inductive Precondition :=
| Precondition_CommittedLeaderId (committed_leader_id : CommittedLeaderId)
| Precondition_LastLogId (last_log_id : option LogId)
| Precondition_LastMembershipLogId (last_membership_log_id : option LogId).

Inductive PreconditionFailed :=
| PreconditionFailed_CommittedLeaderIdMismatch (expected : CommittedLeaderId) (actual : option CommittedLeaderId)
| PreconditionFailed_LastLogIdMismatch (expected actual : option LogId)
| PreconditionFailed_LastMembershipLogIdMismatch (expected actual : option LogId).

Definition ensure_satisfied (p : Precondition) (st : RaftState) : result unit PreconditionFailed :=
  match p with
  | Precondition_CommittedLeaderId expected =>
      let actual := Vote_try_to_committed_leader_id (vote_ref st) in
      if decide (actual = Some expected) then Ok tt
      else Err (PreconditionFailed_CommittedLeaderIdMismatch expected actual)
  | Precondition_LastLogId expected =>
      let actual := last_log_id st in
      if decide (actual = expected) then Ok tt
      else Err (PreconditionFailed_LastLogIdMismatch expected actual)
  | Precondition_LastMembershipLogId expected =>
      let actual := effective_log_id (RaftState_membership_state st) in
      if decide (actual = expected) then Ok tt
      else Err (PreconditionFailed_LastMembershipLogIdMismatch expected actual)
  end.

(** [ensure_preconditions_satisfied]: the first condition that fails. *)
Fixpoint ensure_preconditions_satisfied (preconditions : list Precondition) (st : RaftState) :
    result unit PreconditionFailed :=
  match preconditions with
  | [] => Ok tt
  | c :: cs =>
      match ensure_satisfied c st with
      | Ok _ => ensure_preconditions_satisfied cs st
      | Err e => Err e
      end
  end.

(** ** Errors and messages *)

Inductive ClientWriteError :=
| ClientWriteError_ForwardToLeader (f : ForwardToLeader)
| ClientWriteError_ChangeMembershipError (e : ChangeMembershipError)
| ClientWriteError_PreconditionFailed (e : PreconditionFailed).

Inductive AllowNextRevertError :=
| AllowNextRevertError_NodeNotFound (node_id : u64)
| AllowNextRevertError_ForwardToLeader (f : ForwardToLeader).

Inductive MembershipPayloads :=
| MembershipPayloads_Uniform (uniform : EntryPayload)
| MembershipPayloads_JointOrUniform (joint uniform : EntryPayload) (unused_tx : Sender).

(** [EntryPayload::with_membership] replaces the payload. *)
Definition with_membership (p : EntryPayload) (m : Membership) : EntryPayload :=
  EntryPayload_Membership m.

(** [MembershipPayloads::select]: the payload of the entry and the payload
    that goes back to the caller. *)
Definition MembershipPayloads_select (p : MembershipPayloads) (m : Membership) :
    EntryPayload * option (Sender * EntryPayload) :=
  match p with
  | MembershipPayloads_Uniform uniform => (with_membership uniform m, None)
  | MembershipPayloads_JointOrUniform joint uniform unused_tx =>
      let '(selected, unused) :=
        if Membership_is_joint m then (joint, uniform) else (uniform, joint) in
      (with_membership selected m, Some (unused_tx, unused))
  end.

Inductive ExternalCommand :=
| ExternalCommand_Elect (pre_vote : bool)
| ExternalCommand_Heartbeat
| ExternalCommand_Snapshot
| ExternalCommand_PurgeLog (upto : u64)
| ExternalCommand_TriggerTransferLeader (to : u64)
| ExternalCommand_AllowNextRevert (to : u64) (allow : bool) (tx : Sender)
| ExternalCommand_SetMetricsRecorder
| ExternalCommand_RefreshServerState (vote : option Vote) (membership_log_id : option LogId).

Inductive RaftMsg :=
| RaftMsg_AppendEntries (rpc : AppendEntriesRequest) (tx : Sender)
| RaftMsg_RequestVote (rpc : VoteRequest) (tx : Sender)
| RaftMsg_RequestPreVote (rpc : VoteRequest) (tx : Sender)
| RaftMsg_ClientWrite (payloads : list EntryPayload) (responders : list (option Sender))
    (expected_leader : option CommittedLeaderId)
| RaftMsg_GetLinearizer (linearizer_option : LinearizerOption) (tx : Sender)
| RaftMsg_Initialize (members : gmap N Node) (tx : Sender)
| RaftMsg_ChangeMembership (changes : ChangeMembers) (payloads : MembershipPayloads) (retain : bool)
    (preconditions : list Precondition) (tx : Sender)
| RaftMsg_AppendMembership (payload : EntryPayload) (preconditions : list Precondition) (tx : Sender)
| RaftMsg_WithRaftState (req : Sender)
| RaftMsg_HandleTransferLeader (from : Vote) (to : u64) (last_log_id : option LogId)
| RaftMsg_ExternalCommand (cmd : ExternalCommand).

Record ApplyResult := mkApplyResult {
  ApplyResult_since : u64;
  ApplyResult_end : u64;
  ApplyResult_last_applied : LogId;
}.

(** [sm::Response] *)
Inductive SmResponse :=
| SmResponse_BuildSnapshotDone (meta : option SnapshotMeta)
| SmResponse_InstallSnapshot (log_io_id : LogIOId) (meta : option SnapshotMeta)
| SmResponse_Apply (res : ApplyResult).

(** [replication::Progress] has a target and a result; [None] is the error
    string of a failed RPC, as in [update_progress]. *)
Inductive Notification :=
| Notification_VoteResponse (target : u64) (resp : VoteResponse) (candidate_vote : UncommittedVote)
| Notification_PreVoteResponse (target : u64) (resp : VoteResponse) (candidate_vote : UncommittedVote)
| Notification_HigherVote (target : u64) (higher : Vote) (leader_vote : CommittedVote)
| Notification_StorageError (error : StorageError)
| Notification_LocalIO (io_id : IOId)
| Notification_ReplicationProgress (stream_id target : u64) (res : option ReplicationResult)
    (inflight_id : option u64)
| Notification_HeartbeatProgress (stream_id : u64) (sending_time : Instant) (target : u64)
| Notification_StateMachine (command_result : result SmResponse StorageError)
| Notification_Tick (i : u64)
| Notification_PendingReadDeadlineReached.

Record HeartbeatEvent := mkHeartbeatEvent {
  HeartbeatEvent_time : Instant;
  HeartbeatEvent_matching : option LogId;
  HeartbeatEvent_cluster_committed : option LogId;
}.

(** ** Outputs and state *)

Inductive Output :=
| Output_Notify (n : Notification)
| Output_Respond (r : Respond)
| Output_WriteFailed (tx : Sender) (e : ClientWriteError)
| Output_WriteCommitted (tx : Sender) (log_id : LogId)
| Output_Read (tx : Sender) (r : ReadResult)
| Output_StateMachine (c : SmCommand)
| Output_Append (entries : list Entry) (callback : IOId)
| Output_SaveVote (vote : Vote)
| Output_Purge (upto : LogId)
| Output_TruncateAfter (after : option LogId)
| Output_SaveCommitted (upto : LogId)
| Output_VoteRequests (req : VoteRequest) (pre_vote : bool) (targets : list N)
| Output_TransferLeader (req : TransferLeaderRequest) (targets : list N)
| Output_Replicate (target : u64) (req : Replicate)
| Output_TransmitSnapshot (leader_vote : CommittedVote) (stream_id target inflight_id : u64)
| Output_SpawnStream (leader_vote : CommittedVote) (target stream_id : u64)
| Output_CloseStream (target : u64)
| Output_Heartbeat (target : u64) (event : HeartbeatEvent)
| Output_AllowNextRevert (tx : Sender) (res : result unit AllowNextRevertError)
| Output_UnusedPayload (tx : Sender) (payload : EntryPayload)
| Output_RaftState (req : Sender) (st : RaftState).

Record ReplicationHandle := mkReplicationHandle {
  ReplicationHandle_stream_id : u64;
  ReplicationHandle_snapshot_transmitting : bool;
}.

Record RaftCore := mkRaftCore {
  core_config : Config;
  core_runtime_config : RuntimeConfig;
  core_snapshot_tried_at : option LogId;
  core_world : World;
  core_client_responders : ClientResponderQueue Sender;
  core_pending_reads : PendingReadQueue;
  core_read_deadline : option Instant;
  core_replications : gmap N ReplicationHandle;
  core_heartbeat_workers : gmap N (option HeartbeatEvent);
  core_io_accepted : IOId;
  core_io_submitted : IOId;
  core_io_committed : option LogId;
  core_storage_calls : nat;
  core_trace : list Output;
}.

Definition core_engine (c : RaftCore) : Engine := w_engine (core_world c).
Definition core_state (c : RaftCore) : RaftState := Engine_state (core_engine c).
Definition core_id (c : RaftCore) : u64 := Engine_id (core_engine c).

(** Assignments to one field *)
Definition set_world (c : RaftCore) (x : World) : RaftCore :=
  mkRaftCore (core_config c) (core_runtime_config c) (core_snapshot_tried_at c) x
    (core_client_responders c) (core_pending_reads c) (core_read_deadline c) (core_replications c)
    (core_heartbeat_workers c) (core_io_accepted c) (core_io_submitted c) (core_io_committed c)
    (core_storage_calls c) (core_trace c).
Definition set_snapshot_tried_at (c : RaftCore) (x : option LogId) : RaftCore :=
  mkRaftCore (core_config c) (core_runtime_config c) x (core_world c)
    (core_client_responders c) (core_pending_reads c) (core_read_deadline c) (core_replications c)
    (core_heartbeat_workers c) (core_io_accepted c) (core_io_submitted c) (core_io_committed c)
    (core_storage_calls c) (core_trace c).
Definition set_client_responders (c : RaftCore) (x : ClientResponderQueue Sender) : RaftCore :=
  mkRaftCore (core_config c) (core_runtime_config c) (core_snapshot_tried_at c) (core_world c)
    x (core_pending_reads c) (core_read_deadline c) (core_replications c)
    (core_heartbeat_workers c) (core_io_accepted c) (core_io_submitted c) (core_io_committed c)
    (core_storage_calls c) (core_trace c).
Definition set_pending_reads (c : RaftCore) (x : PendingReadQueue) : RaftCore :=
  mkRaftCore (core_config c) (core_runtime_config c) (core_snapshot_tried_at c) (core_world c)
    (core_client_responders c) x (core_read_deadline c) (core_replications c)
    (core_heartbeat_workers c) (core_io_accepted c) (core_io_submitted c) (core_io_committed c)
    (core_storage_calls c) (core_trace c).
Definition set_read_deadline (c : RaftCore) (x : option Instant) : RaftCore :=
  mkRaftCore (core_config c) (core_runtime_config c) (core_snapshot_tried_at c) (core_world c)
    (core_client_responders c) (core_pending_reads c) x (core_replications c)
    (core_heartbeat_workers c) (core_io_accepted c) (core_io_submitted c) (core_io_committed c)
    (core_storage_calls c) (core_trace c).
Definition set_replications (c : RaftCore) (x : gmap N ReplicationHandle) : RaftCore :=
  mkRaftCore (core_config c) (core_runtime_config c) (core_snapshot_tried_at c) (core_world c)
    (core_client_responders c) (core_pending_reads c) (core_read_deadline c) x
    (core_heartbeat_workers c) (core_io_accepted c) (core_io_submitted c) (core_io_committed c)
    (core_storage_calls c) (core_trace c).
Definition set_heartbeat_workers (c : RaftCore) (x : gmap N (option HeartbeatEvent)) : RaftCore :=
  mkRaftCore (core_config c) (core_runtime_config c) (core_snapshot_tried_at c) (core_world c)
    (core_client_responders c) (core_pending_reads c) (core_read_deadline c) (core_replications c)
    x (core_io_accepted c) (core_io_submitted c) (core_io_committed c)
    (core_storage_calls c) (core_trace c).
Definition set_io_broadcast (c : RaftCore) (accepted submitted : IOId) (committed : option LogId) :
    RaftCore :=
  mkRaftCore (core_config c) (core_runtime_config c) (core_snapshot_tried_at c) (core_world c)
    (core_client_responders c) (core_pending_reads c) (core_read_deadline c) (core_replications c)
    (core_heartbeat_workers c) accepted submitted committed (core_storage_calls c) (core_trace c).
Definition count_storage_call (c : RaftCore) : RaftCore :=
  mkRaftCore (core_config c) (core_runtime_config c) (core_snapshot_tried_at c) (core_world c)
    (core_client_responders c) (core_pending_reads c) (core_read_deadline c) (core_replications c)
    (core_heartbeat_workers c) (core_io_accepted c) (core_io_submitted c) (core_io_committed c)
    (S (core_storage_calls c)) (core_trace c).
Definition emit (os : list Output) (c : RaftCore) : RaftCore :=
  mkRaftCore (core_config c) (core_runtime_config c) (core_snapshot_tried_at c) (core_world c)
    (core_client_responders c) (core_pending_reads c) (core_read_deadline c) (core_replications c)
    (core_heartbeat_workers c) (core_io_accepted c) (core_io_submitted c) (core_io_committed c)
    (core_storage_calls c) (core_trace c ++ os).

(** A node that starts. *)
Definition RaftCore_new (config : Config) (runtime : RuntimeConfig) (w : World) : RaftCore :=
  let io := IOId_new_vote_io (Vote_to_non_committed (Vote_new_with_default_term (Engine_id (w_engine w)))) in
  mkRaftCore config runtime None w ClientResponderQueue_new PendingReadQueue_default None ∅ ∅ io io
    None 0 [].

(** ** The monad: runtime state, failing storage and panics *)

Definition K (A : Type) : Type := RaftCore → outcome (result A StorageError * RaftCore).

#[global] Instance K_ret : MRet K := λ A a c, Ret (Ok a, c).
#[global] Instance K_bind : MBind K := λ A B f m c,
  '(r, c') ← m c;
  match r with
  | Ok a => f a c'
  | Err e => Ret (Err e, c')
  end.

Definition kget : K RaftCore := λ c, Ret (Ok c, c).
Definition kmodify (f : RaftCore → RaftCore) : K unit := λ c, Ret (Ok tt, f c).
Definition kfail {A} (e : StorageError) : K A := λ c, Ret (Err e, c).
Definition klift {A} (o : outcome A) : K A := λ c, a ← o; Ret (Ok a, c).
Definition out (o : Output) : K unit := kmodify (emit [o]).

(** Runs a handler of the engine. *)
Definition on_engine {A} (m : M A) : K A := λ c,
  '(a, w) ← m (core_world c); Ret (Ok a, set_world c w).

(** A call of the store or of the state machine worker. *)
Definition storage (o : Output) : K unit := λ c,
  let c' := count_storage_call (emit [o] c) in
  match storage_error (core_storage_calls c) with
  | None => Ret (Ok tt, c')
  | Some e => Ret (Err e, c')
  end.

(** [WatchSender::send_if_greater] of the three broadcast channels *)
Definition broadcast_accepted (io_id : IOId) : K unit := kmodify (λ c,
  if pgtb io_id (core_io_accepted c)
  then set_io_broadcast c io_id (core_io_submitted c) (core_io_committed c) else c).
Definition broadcast_submitted (io_id : IOId) : K unit := kmodify (λ c,
  if pgtb io_id (core_io_submitted c)
  then set_io_broadcast c (core_io_accepted c) io_id (core_io_committed c) else c).
Definition broadcast_committed (committed : option LogId) : K unit := kmodify (λ c,
  if (committed >? core_io_committed c)
  then set_io_broadcast c (core_io_accepted c) (core_io_submitted c) committed else c).

(** [self.engine.state.log_progress_mut()] and its like: an update of one
    cursor of the I/O state. *)
Definition update_io_state (f : IOState → IOState) : M unit :=
  modify (λ e, set_state e (set_io_state (Engine_state e) (f (RaftState_io_state (Engine_state e))))).
Definition update_log_progress (f : IOProgress IOId → IOProgress IOId) : M unit :=
  update_io_state (λ io, set_log_progress io (f (IOState_log_progress io))).
Definition update_apply_progress (f : IOProgress LogId → IOProgress LogId) : M unit :=
  update_io_state (λ io, set_apply_progress io (f (IOState_apply_progress io))).
Definition update_snapshot_progress (f : IOProgress LogId → IOProgress LogId) : M unit :=
  update_io_state (λ io, set_snapshot_progress io (f (IOState_snapshot io))).
End core.
