(* ===== verification/CoreHandlers.v ===== *)
(** * The runtime: handlers of API messages and notifications

    [core/raft_core.rs]: everything [handle_api_msg], [handle_notification],
    [handle_install_full_snapshot_request] and [trigger_routine_actions] call. *)

From S2P Require Import Prelude Vote LogId LogIdList Quorum Membership VecProgress IOState.
From S2P Require Import MembershipState Entry RaftState Config ProgressEntry Proposer Command.
From S2P Require Import Engine Replication Following LeaderHandler VoteHandler EngineImpl.
From S2P Require Import VoteSafety Cluster ReadQueue CoreHelpers Wire Core.

Section handlers.
Context {C : RaftTypeConfig} `{!Env, !StoreEnv}.

(** ** Leader checks *)

Definition ensure_leader_handler : K (result Leader ForwardToLeader) :=
  c ← kget;
  mret (match try_leader_handler (core_engine c) with
        | Err forward => Err forward
        | Ok l =>
            match Leader_transfer_to l with
            | Some to => Err (new_forward_to_leader (core_state c) to)
            | None => Ok l
            end
        end).

Definition ensure_writable_leader_handler : K (result Leader ForwardToLeader) :=
  r ← ensure_leader_handler;
  match r with
  | Err forward => mret (Err forward)
  | Ok l =>
      valid ← on_engine LeaderHandler_is_lease_valid;
      mret (if (valid : bool) then Ok l else Err ForwardToLeader_empty)
  end.

Definition ensure_leader_log_committed (st : RaftState) (l : Leader) :
    result unit ChangeMembershipError :=
  let noop_log_id := Leader_noop_log_id l in
  if (cluster_committed st >=? Some noop_log_id) then Ok tt
  else Err (ChangeMembershipError_UncommittedLeaderLog noop_log_id (cluster_committed st)).

(** ** Linearizable reads *)

(** [Instant - Duration] panics before the origin of the clock. *)
Definition instant_sub (t : Instant) (d : Duration) : outcome Instant :=
  if (t <? d) then Panic else Ret (t - d)%N.

Definition reschedule_pending_read_check : K unit :=
  kmodify (λ c, set_read_deadline c (earliest_deadline (core_pending_reads c))).

Definition handle_get_linearizer (linearizer_option : LinearizerOption) (tx : Sender) : K unit :=
  t ← on_engine now;
  c ← kget;
  let lease := leader_lease (EngineConfig_timer_config (Engine_config (core_engine c))) in
  let max_age := effective_max_quorum_ack_age linearizer_option lease in
  let applied := io_applied (core_state c) in
  r ← ensure_leader_handler;
  match r with
  | Err forward => out (Output_Read tx (Err (LinearizableReadError_ForwardToLeader forward)))
  | Ok l =>
      read_log_id ← on_engine get_read_log_id;
      let linearizer := Linearizer_new (core_id c) read_log_id applied in
      self_quorum ← klift (is_self_quorum l);
      if (self_quorum : bool) then out (Output_Read tx (Ok linearizer))
      else if (match last_quorum_acked_time l with
               | Some acked => t <? (acked + max_age)%N
               | None => false
               end)
      then out (Output_Read tx (Ok linearizer))
      else
        min_acked ← klift (instant_sub t max_age);
        let timeout := effective_wait_timeout linearizer_option lease in
        if decide (timeout = 0%N) then
          out (Output_Read tx (Err (LinearizableReadError_QuorumNotEnough
                 (clock_quorum_not_enough l min_acked))))
        else
          (if heartbeat_if_quorum_ack_stale linearizer_option
           then on_engine (send_heartbeat true) else mret tt);;
          let pending_read := mkPendingRead (t + timeout)%N linearizer tx in
          q ← klift (PendingReadQueue_push (core_pending_reads c) min_acked pending_read);
          kmodify (λ c, set_pending_reads c q);;
          reschedule_pending_read_check
  end.

(** The answers of a drained queue of reads *)
Definition send_reads (q : PendingReadQueue) (sent : list (Sender * ReadResult)) : K unit :=
  kmodify (λ c, emit ((λ tr, Output_Read tr.1 tr.2) <$> sent) (set_pending_reads c q)).

Definition process_pending_reads : K unit :=
  t ← on_engine now;
  c ← kget;
  let applied := io_applied (core_state c) in
  match try_leader_handler (core_engine c) with
  | Ok l =>
      match last_quorum_acked_time l with
      | Some acked =>
          r ← klift (drain_satisfied_reads (core_pending_reads c) acked applied);
          send_reads r.1 r.2
      | None => mret tt
      end;;
      c ← kget;
      let make_error min_acked :=
        LinearizableReadError_QuorumNotEnough (clock_quorum_not_enough l min_acked) in
      r ← klift (drain_expired (core_pending_reads c) t make_error);
      send_reads r.1 r.2
  | Err forward =>
      let '(q, sent) := drain_all_with_error (core_pending_reads c)
                          (LinearizableReadError_ForwardToLeader forward) in
      send_reads q sent
  end;;
  reschedule_pending_read_check.

Definition fail_pending_reads : K unit :=
  c ← kget;
  let err := LinearizableReadError_ForwardToLeader (RaftState_forward_to_leader (core_state c)) in
  let '(q, sent) := drain_all_with_error (core_pending_reads c) err in
  send_reads q sent;;
  reschedule_pending_read_check.

(** ** Writes *)

(** [on_complete(Err(err))] of every responder *)
Definition fail_writes (txs : list Sender) (e : ClientWriteError) : K unit :=
  kmodify (emit ((λ tx, Output_WriteFailed tx e) <$> txs)).

(** The responders of a batch with the indexes they wait for. *)
Definition push_responders (log_ids : list LogId) (txs : list (option Sender))
    (q : ClientResponderQueue Sender) : ClientResponderQueue Sender :=
  foldl (λ q '(log_id, tx),
    match tx with
    | Some tx => ClientResponderQueue_push q (LogId_index log_id) tx
    | None => q
    end) q (zip log_ids txs).

Definition write_entries (payloads : list EntryPayload) (txs : list (option Sender)) :
    K (option LeaderLogIds) :=
  r ← ensure_writable_leader_handler;
  match r with
  | Err forward =>
      fail_writes (omap id txs) (ClientWriteError_ForwardToLeader forward);;
      mret None
  | Ok _ =>
      assigned ← on_engine (leader_append_entries payloads);
      match assigned with
      | None => mret None
      | Some log_ids =>
          kmodify (λ c, set_client_responders c
            (push_responders (LeaderLogIds_ids log_ids) txs (core_client_responders c)));;
          mret (Some log_ids)
      end
  end.

Definition apply_membership_to_payload (s : MembershipState) (changes : ChangeMembers) (retain : bool)
    (payloads : MembershipPayloads) :
    outcome (result (EntryPayload * option (Sender * EntryPayload)) ChangeMembershipError) :=
  r ← next_membership s changes retain;
  Ret (match r with
       | Err e => Err e
       | Ok membership => Ok (MembershipPayloads_select payloads membership)
       end).

Definition RaftCore_change_membership (changes : ChangeMembers) (retain : bool)
    (preconditions : list Precondition) (payloads : MembershipPayloads) (tx : Sender) : K unit :=
  r ← ensure_leader_handler;
  match r with
  | Err forward => fail_writes [tx] (ClientWriteError_ForwardToLeader forward)
  | Ok _ =>
  c ← kget;
  match ensure_preconditions_satisfied preconditions (core_state c) with
  | Err e => fail_writes [tx] (ClientWriteError_PreconditionFailed e)
  | Ok _ =>
  res ← klift (apply_membership_to_payload (RaftState_membership_state (core_state c)) changes
                 retain payloads);
  match res with
  | Err e => fail_writes [tx] (ClientWriteError_ChangeMembershipError e)
  | Ok (payload, unused) =>
      match unused with
      | Some (unused_tx, p) => out (Output_UnusedPayload unused_tx p)
      | None => mret tt
      end;;
      write_entries [payload] [Some tx];;
      mret tt
  end
  end
  end.

Definition RaftCore_append_membership (payload : EntryPayload) (preconditions : list Precondition)
    (tx : Sender) : K unit :=
  r ← ensure_writable_leader_handler;
  match r with
  | Err forward => fail_writes [tx] (ClientWriteError_ForwardToLeader forward)
  | Ok l =>
  c ← kget;
  let leader_log_committed := ensure_leader_log_committed (core_state c) l in
  match ensure_preconditions_satisfied preconditions (core_state c) with
  | Err e => fail_writes [tx] (ClientWriteError_PreconditionFailed e)
  | Ok _ =>
  match leader_log_committed with
  | Err e => fail_writes [tx] (ClientWriteError_ChangeMembershipError e)
  | Ok _ =>
  membership ← klift (unwrap (EntryPayload_get_membership payload));
  match validate_append_membership (RaftState_membership_state (core_state c)) membership with
  | Err e => fail_writes [tx] (ClientWriteError_ChangeMembershipError e)
  | Ok _ => write_entries [payload] [Some tx];; mret tt
  end
  end
  end
  end.

(** ** Heartbeats, initialization, snapshots *)

Definition RaftCore_send_heartbeat : K bool :=
  c ← kget;
  match try_leader_handler (core_engine c) with
  | Err _ => mret false
  | Ok l =>
      match Leader_transfer_to l with
      | Some _ => mret false
      | None => on_engine (send_heartbeat false);; mret true
      end
  end.

Definition handle_initialize (member_nodes : gmap N Node) (tx : Sender) : K unit :=
  res ← on_engine (Engine_initialize (Membership_from member_nodes));
  c ← kget;
  let has_error := negb (is_ok res) in
  let condition :=
    if has_error then None
    else Condition_IOFlushed <$> IOProgress_accepted (log_progress (core_state c)) in
  on_engine (modify (push (Command_Respond condition (Respond_Initialize res tx))));;
  if has_error then mret tt else on_engine elect.

Definition RaftCore_trigger_snapshot : K bool :=
  on_engine (λ w, let '(e, b) := trigger_snapshot (w_engine w) in
                  Ret (b, mkWorld e (w_clock_reads w) (w_random_draws w))).

Definition trigger_routine_actions : K unit :=
  c ← kget;
  match should_snapshot (snapshot_policy (core_config c)) (core_state c) (core_snapshot_tried_at c) with
  | Some at' =>
      triggered ← RaftCore_trigger_snapshot;
      if (triggered : bool) then kmodify (λ c, set_snapshot_tried_at c (Some at')) else mret tt
  | None => mret tt
  end;;
  c ← kget;
  match try_leader_handler (core_engine c) with
  | Ok _ => on_engine initiate_replication
  | Err _ => mret tt
  end;;
  c ← kget;
  match IOProgress_submitted (log_progress (core_state c)) with
  | Some submitted => broadcast_submitted submitted
  | None => mret tt
  end;;
  process_pending_reads.

(** [current_leader] and [get_leader_node] *)
Definition current_leader (st : RaftState) : option u64 :=
  if Vote_is_committed (vote_ref st) then Some (Vote_leader_node_id (vote_ref st)) else None.
Definition get_leader_node (st : RaftState) (leader_id : option u64) : option Node :=
  id ← leader_id;
  StoredMembership_get_node (MembershipState_effective (RaftState_membership_state st)) id.

(** ** RPCs *)

Definition RaftCore_handle_vote_request (req : VoteRequest) (tx : Sender) : K unit :=
  on_engine (handle_vote_request req tx);; mret tt.

Definition handle_pre_vote_request (req : VoteRequest) (tx : Sender) : K unit :=
  resp ← on_engine (handle_pre_vote_req req);
  on_engine (modify (push (Command_Respond None (Respond_Vote resp tx)))).

Definition handle_append_entries_request (req : AppendEntriesRequest) (tx : Sender) : K unit :=
  let segment := mkLogSegment (AppendEntriesRequest_prev_log_id req) (AppendEntriesRequest_entries req) in
  on_engine (handle_append_entries (AppendEntriesRequest_vote req) segment tx);;
  let committed := mkLogIOId (Vote_to_committed (AppendEntriesRequest_vote req))
                     (AppendEntriesRequest_leader_commit req) in
  c ← kget;
  st ← klift (update_committed (core_state c) committed);
  on_engine (modify (λ e, set_state e st)).

Definition handle_install_full_snapshot_request (vote : Vote) (snapshot : Snapshot) (tx : Sender) :
    K unit :=
  on_engine (handle_install_full_snapshot vote snapshot tx).

(** ** [handle_external_command] *)

Definition handle_external_command (cmd : ExternalCommand) : K unit :=
  c ← kget;
  match cmd with
  | ExternalCommand_Elect pre_vote =>
      match Engine_leader (core_engine c) with
      | Some _ => mret tt
      | None =>
          if RaftState_is_voter (core_state c) (core_id c)
          then if (pre_vote : bool) then on_engine pre_elect else on_engine elect
          else mret tt
      end
  | ExternalCommand_Heartbeat => RaftCore_send_heartbeat;; mret tt
  | ExternalCommand_Snapshot => RaftCore_trigger_snapshot;; mret tt
  | ExternalCommand_PurgeLog upto => on_engine (trigger_purge_log upto)
  | ExternalCommand_TriggerTransferLeader to => on_engine (trigger_transfer_leader to)
  | ExternalCommand_AllowNextRevert to allow tx =>
      res ← match try_leader_handler (core_engine c) with
            | Ok _ =>
                r ← on_engine (allow_next_revert to allow);
                mret (result_map_err AllowNextRevertError_NodeNotFound r)
            | Err forward => mret (Err (AllowNextRevertError_ForwardToLeader forward))
            end;
      out (Output_AllowNextRevert tx res)
  | ExternalCommand_SetMetricsRecorder => mret tt
  | ExternalCommand_RefreshServerState vote membership_log_id =>
      let st := core_state c in
      let vote_unchanged := match vote with Some v => bool_decide (vote_ref st = v) | None => true end in
      let membership_unchanged :=
        match membership_log_id with
        | Some log_id => bool_decide (effective_log_id (RaftState_membership_state st) = Some log_id)
        | None => true
        end in
      if vote_unchanged && membership_unchanged then on_engine refresh_server_state else mret tt
  end.

(** ** [handle_api_msg] *)

Definition handle_transfer_leader (from : Vote) (to : u64) (last : option LogId) : K unit :=
  c ← kget;
  if decide (vote_ref (core_state c) = from) then
    on_engine (modify (λ e, set_state e (set_vote (Engine_state e)
                 (Leased_disable_lease (RaftState_vote (Engine_state e))))));;
    if decide (core_id c = to) then
      if (last >? last_log_id (core_state c)) then mret tt
      else on_engine elect_by_leadership_transfer
    else mret tt
  else mret tt.

Definition handle_client_write (payloads : list EntryPayload) (txs : list (option Sender))
    (expected_leader : option CommittedLeaderId) : K unit :=
  c ← kget;
  let matches :=
    match expected_leader with
    | Some expected =>
        bool_decide (Vote_try_to_committed_leader_id (vote_ref (core_state c)) = Some expected)
    | None => true
    end in
  if matches then write_entries payloads txs;; mret tt
  else fail_writes (omap id txs)
         (ClientWriteError_ForwardToLeader (RaftState_forward_to_leader (core_state c))).

Definition handle_api_msg (msg : RaftMsg) : K unit :=
  match msg with
  | RaftMsg_AppendEntries rpc tx => handle_append_entries_request rpc tx
  | RaftMsg_RequestVote rpc tx => RaftCore_handle_vote_request rpc tx
  | RaftMsg_RequestPreVote rpc tx => handle_pre_vote_request rpc tx
  | RaftMsg_GetLinearizer linearizer_option tx => handle_get_linearizer linearizer_option tx
  | RaftMsg_ClientWrite payloads responders expected_leader =>
      handle_client_write payloads responders expected_leader
  | RaftMsg_Initialize members tx => handle_initialize members tx
  | RaftMsg_ChangeMembership changes payloads retain preconditions tx =>
      RaftCore_change_membership changes retain preconditions payloads tx
  | RaftMsg_AppendMembership payload preconditions tx =>
      RaftCore_append_membership payload preconditions tx
  | RaftMsg_WithRaftState req => c ← kget; out (Output_RaftState req (core_state c))
  | RaftMsg_HandleTransferLeader from to last => handle_transfer_leader from to last
  | RaftMsg_ExternalCommand cmd => handle_external_command cmd
  end.

(** ** Ticks *)

(** The reasons to stay, and the kind of election otherwise: whether it is a
    pre-vote. *)
Definition election_due (rt : RuntimeConfig) (e : Engine) (t : Instant) : option bool :=
  let st := Engine_state e in
  let timer := EngineConfig_timer_config (Engine_config e) in
  if decide (RaftState_server_state st = ServerState_Leader) then None
  else if negb (RaftState_is_voter st (Engine_id e)) then None
  else if negb (RuntimeConfig_enable_elect rt) then None
  else
    let timeout :=
      (election_timeout timer + if Engine_seen_greater_log e then smaller_log_timeout timer else 0)%N in
    let voter_count := length (StoredMembership_voter_ids
      (MembershipState_effective (RaftState_membership_state st))) in
    if (if decide (voter_count = 1) then
          match Engine_candidate e with Some _ => true | None => false end
        else negb (Leased_is_expired (RaftState_vote st) t timeout))
    then None
    else
      let pre_vote := RuntimeConfig_enable_pre_vote rt && bool_decide (1 < voter_count) in
      if pre_vote && (match Engine_pre_candidate e with
                      | Some pc => t <? (Candidate_starting_time pc + timeout)%N
                      | None => false
                      end)
      then None
      else Some pre_vote.

Definition handle_tick_election : K unit :=
  t ← on_engine now;
  c ← kget;
  match election_due (core_runtime_config c) (core_engine c) t with
  | None => mret tt
  | Some pre_vote =>
      on_engine (modify reset_greater_log);;
      if (pre_vote : bool) then on_engine pre_elect else on_engine elect
  end.

Definition handle_tick : K unit :=
  t ← on_engine now;
  handle_tick_election;;
  c ← kget;
  match Leader_next_heartbeat <$> Engine_leader (core_engine c) with
  | Some at' =>
      if (t >=? at') then
        (if RuntimeConfig_enable_heartbeat (core_runtime_config c)
         then RaftCore_send_heartbeat;; mret tt else mret tt);;
        c ← kget;
        match Engine_leader (core_engine c) with
        | Some _ =>
            t' ← on_engine now;
            on_engine (l ← the_leader;
              put_leader (mkLeader (Leader_transfer_to l) (Leader_committed_vote l)
                (t' + heartbeat_interval (core_config c))%N (Leader_last_log_id l)
                (Leader_noop_log_id l) (Leader_progress l) (Leader_clock_progress l)))
        | None => mret tt
        end
      else mret tt
  | None => mret tt
  end.

(** ** [handle_notification] *)

(** [does_vote_match]: votes are compared by leader id. *)
Definition does_vote_match (sent : LeaderId) (my : option LeaderId) : bool :=
  match my with
  | None => false
  | Some my => bool_decide (sent = my)
  end.

Definition handle_local_io (io_id : IOId) : K unit :=
  on_engine (update_log_progress (λ p, IOProgress_try_flush p io_id));;
  match io_id with
  | IOId_Vote _ => mret tt
  | IOId_Log log_io_id =>
      c ← kget;
      match Engine_leader (core_engine c) with
      | Some l =>
          if does_vote_match (CommittedVote_leader_id (LogIOId_committed_vote log_io_id))
               (Some (CommittedVote_leader_id (Leader_committed_vote l)))
          then on_engine (update_local_progress (LogIOId_log_id log_io_id))
          else mret tt
      | None => mret tt
      end
  end.

Definition handle_state_machine_result (r : result SmResponse StorageError) : K unit :=
  match r with
  | Err e => kfail e
  | Ok (SmResponse_BuildSnapshotDone meta) => on_engine (on_building_snapshot_done meta)
  | Ok (SmResponse_InstallSnapshot log_io_id meta) =>
      on_engine (update_log_progress (λ p, IOProgress_try_flush p (IOId_Log log_io_id)));;
      match (m ← meta; SnapshotMeta_last_log_id m) with
      | Some last =>
          on_engine (update_apply_progress (λ p, IOProgress_try_flush p last));;
          on_engine (update_snapshot_progress (λ p, IOProgress_try_flush p last))
      | None => mret tt
      end
  | Ok (SmResponse_Apply res) =>
      on_engine (update_apply_progress (λ p, IOProgress_try_flush p (ApplyResult_last_applied res)))
  end.

(** The handle of a snapshot transmission that has finished is dropped. *)
Definition clear_snapshot_transmit (target : u64) (inflight_id : option u64) : K unit :=
  kmodify (λ c,
    match inflight_id, core_replications c !! target with
    | Some _, Some h =>
        set_replications c
          (<[target := mkReplicationHandle (ReplicationHandle_stream_id h) false]> (core_replications c))
    | _, _ => c
    end).

Definition handle_notification (n : Notification) : K unit :=
  c ← kget;
  match n with
  | Notification_VoteResponse target resp candidate_vote =>
      if does_vote_match (UncommittedVote_leader_id candidate_vote)
           ((λ cand, Vote_leader_id (Candidate_vote cand)) <$> Engine_candidate (core_engine c))
      then on_engine (handle_vote_resp target resp) else mret tt
  | Notification_PreVoteResponse target resp candidate_vote =>
      if does_vote_match (UncommittedVote_leader_id candidate_vote)
           ((λ cand, Vote_leader_id (Candidate_vote cand)) <$> Engine_pre_candidate (core_engine c))
      then on_engine (handle_pre_vote_resp target resp) else mret tt
  | Notification_HigherVote target higher leader_vote =>
      if does_vote_match (CommittedVote_leader_id leader_vote)
           ((λ l, CommittedVote_leader_id (Leader_committed_vote l)) <$> Engine_leader (core_engine c))
      then on_engine (update_vote higher);; mret tt else mret tt
  | Notification_Tick _ => handle_tick
  | Notification_StorageError e => kfail e
  | Notification_LocalIO io_id => handle_local_io io_id
  | Notification_ReplicationProgress sid target res inflight_id =>
      clear_snapshot_transmit target inflight_id;;
      match Engine_leader (core_engine c) with
      | Some _ => on_engine (update_progress target sid res inflight_id)
      | None => mret tt
      end
  | Notification_HeartbeatProgress sid sending_time target =>
      match Engine_leader (core_engine c) with
      | Some _ => on_engine (try_update_leader_clock sid target sending_time)
      | None => mret tt
      end
  | Notification_StateMachine r => handle_state_machine_result r
  | Notification_PendingReadDeadlineReached => process_pending_reads
  end.
End handlers.
