(* ===== verification/CoreRun.v ===== *)
(** * The runtime: commands and the command loop

    [core/raft_core.rs]: [run_command] with everything it calls,
    [run_engine_commands], [run_progress_driven_command], the processing of
    queued messages and one iteration of [runtime_loop]. *)

From S2P Require Import Prelude Vote LogId LogIdList Quorum Membership VecProgress IOState.
From S2P Require Import MembershipState Entry RaftState Config ProgressEntry Proposer Command.
From S2P Require Import Engine Replication Following LeaderHandler VoteHandler EngineImpl.
From S2P Require Import VoteSafety Cluster ReadQueue CoreHelpers Wire Core CoreHandlers.

Section run.
Context {C : RaftTypeConfig} `{!Env, !StoreEnv}.

(** ** Commands *)

Definition run_update_io_progress (io_id : IOId) : K unit :=
  broadcast_accepted io_id;;
  on_engine (update_log_progress (λ p, IOProgress_submit p io_id));;
  out (Output_Notify (Notification_LocalIO io_id)).

Definition run_append_entries (committed_vote : CommittedVote) (entries : list Entry) : K unit :=
  last_entry ← klift (unwrap (last entries));
  let io_id := IOId_new_log_io committed_vote (Some (Entry_log_id last_entry)) in
  broadcast_accepted io_id;;
  on_engine (update_log_progress (λ p, IOProgress_submit p io_id));;
  storage (Output_Append entries io_id).

Definition run_save_vote (vote : Vote) : K unit :=
  let io_id := IOId_new vote in
  broadcast_accepted io_id;;
  on_engine (update_log_progress (λ p, IOProgress_submit p io_id));;
  storage (Output_SaveVote vote);;
  out (Output_Notify (Notification_LocalIO io_id));;
  c ← kget;
  match run_save_vote_response vote with
  | Some resp => out (Output_Notify (Notification_VoteResponse (core_id c) resp (Vote_to_non_committed vote)))
  | None => mret tt
  end.

(** The error of the responders of logs that are gone. *)
Definition forward_to_current_leader (st : RaftState) : ForwardToLeader :=
  mkForwardToLeader (current_leader st) (get_leader_node st (current_leader st)).

Definition fail_responders (forward : ForwardToLeader) (drained : list (u64 * Sender)) : K unit :=
  fail_writes drained.*2 (ClientWriteError_ForwardToLeader forward).

Definition run_purge_log (upto : LogId) : K unit :=
  storage (Output_Purge upto);;
  c ← kget;
  let '(q, drained) := drain_upto (core_client_responders c) (LogId_index upto) in
  kmodify (λ c, set_client_responders c q);;
  fail_responders (forward_to_current_leader (core_state c)) drained;;
  on_engine (update_io_state (λ io, IOState_update_purged io (Some upto))).

Definition run_truncate_log (after : option LogId) : K unit :=
  storage (Output_TruncateAfter after);;
  c ← kget;
  let '(q, drained) := drain_from (core_client_responders c) (next_index after) in
  kmodify (λ c, set_client_responders c q);;
  fail_responders (forward_to_current_leader (core_state c)) drained.

(** [on_commit] of every responder: the log of its index must be there. *)
Fixpoint commit_responders (st : RaftState) (drained : list (u64 * Sender)) : outcome (list Output) :=
  match drained with
  | [] => Ret []
  | (index, tx) :: drained =>
      log_id ← unwrap (get_log_id st index);
      os ← commit_responders st drained;
      Ret (Output_WriteCommitted tx log_id :: os)
  end.

Definition apply_to_state_machine (first last : LogId) : K unit :=
  c ← kget;
  let '(q, drained) := drain_upto (core_client_responders c) (LogId_index last) in
  kmodify (λ c, set_client_responders c q);;
  os ← klift (commit_responders (core_state c) drained);
  kmodify (emit os);;
  storage (Output_StateMachine (SmCommand_Apply first last drained)).

Definition run_save_committed_and_apply (already_applied : option LogId) (upto : LogId) : K unit :=
  on_engine (update_apply_progress (λ p, IOProgress_submit p upto));;
  storage (Output_SaveCommitted upto);;
  c ← kget;
  first ← klift (unwrap (get_log_id (core_state c) (next_index already_applied)));
  apply_to_state_machine first upto.

(** [broadcast_to_voters]: the voters other than this node; each is in the
    membership. *)
Fixpoint targets_in_membership (m : StoredMembership) (targets : list N) : outcome unit :=
  match targets with
  | [] => Ret tt
  | t :: ts => _ ← unwrap (StoredMembership_get_node m t); targets_in_membership m ts
  end.
Definition broadcast_targets : K (list N) :=
  c ← kget;
  let m := MembershipState_effective (RaftState_membership_state (core_state c)) in
  let targets := filter (λ t, t ≠ core_id c) (StoredMembership_voter_ids m) in
  klift (targets_in_membership m targets);;
  mret targets.

Definition spawn_parallel_vote_requests (req : VoteRequest) (pre_vote : bool) : K unit :=
  targets ← broadcast_targets;
  out (Output_VoteRequests req pre_vote targets).

(** What the task of one target reports: only an answer is a notification, a
    timeout ([None]) and an error are not. *)
Definition vote_task (req : VoteRequest) (pre_vote : bool) (target : u64)
    (res : option (result VoteResponse RPCError)) : option Notification :=
  match res with
  | Some (Ok resp) =>
      let candidate_vote := Vote_to_non_committed (VoteRequest_vote req) in
      Some (if pre_vote then Notification_PreVoteResponse target resp candidate_vote
            else Notification_VoteResponse target resp candidate_vote)
  | _ => None
  end.

Definition broadcast_transfer_leader (req : TransferLeaderRequest) : K unit :=
  targets ← broadcast_targets;
  out (Output_TransferLeader req targets).

(** The event for a target, if one is due. *)
Definition heartbeat_events (id : u64) (l : Leader) (t : Instant) (min_interval : Duration)
    (bypass : bool) (committed : option LogId) : list (N * HeartbeatEvent) :=
  (λ p, (ProgressEntry_id p, mkHeartbeatEvent t (ProgressEntry_matching p) committed)) <$>
  filter (λ p, ProgressEntry_id p ≠ id ∧
               (bypass || need_heartbeat l (ProgressEntry_id p) t min_interval) = true)
    (VecProgress_entries (Leader_progress l)).

(** [HeartbeatWorkersHandle::broadcast]: a target without worker panics. *)
Fixpoint broadcast (events : list (N * HeartbeatEvent)) : K unit :=
  match events with
  | [] => mret tt
  | (target, event) :: events =>
      c ← kget;
      klift (unwrap (core_heartbeat_workers c !! target));;
      kmodify (λ c, set_heartbeat_workers c (<[target := Some event]> (core_heartbeat_workers c)));;
      out (Output_Heartbeat target event);;
      broadcast events
  end.

Definition broadcast_heartbeat (session_id : ReplicationSessionId) (bypass : bool) : K unit :=
  c ← kget;
  match try_leader_handler (core_engine c) with
  | Err _ => mret tt
  | Ok l =>
      let membership_log_id := effective_log_id (RaftState_membership_state (core_state c)) in
      if decide (Leader_committed_vote l = ReplicationSessionId_leader_vote session_id ∧
                 membership_log_id = ReplicationSessionId_membership_log_id session_id) then
        t ← on_engine now;
        broadcast (heartbeat_events (core_id c) l t (get_heartbeat_min_interval (core_config c))
          bypass (cluster_committed (core_state c)))
      else mret tt
  end.

Definition run_replicate (target : u64) (req : Replicate) : K unit :=
  c ← kget;
  klift (unwrap (core_replications c !! target));;
  out (Output_Replicate target req).

Definition run_replicate_snapshot (leader_vote : CommittedVote) (target inflight_id : u64) : K unit :=
  c ← kget;
  h ← klift (unwrap (core_replications c !! target));
  klift (unwrap (StoredMembership_get_node
    (MembershipState_effective (RaftState_membership_state (core_state c))) target));;
  out (Output_TransmitSnapshot leader_vote (ReplicationHandle_stream_id h) target inflight_id);;
  kmodify (λ c, set_replications c
    (<[target := mkReplicationHandle (ReplicationHandle_stream_id h) true]> (core_replications c))).

Definition close_all (rs : gmap N ReplicationHandle) : list Output :=
  (λ kv, Output_CloseStream kv.1) <$> bmap_iter rs.

Definition run_close_replication_streams : K unit :=
  c ← kget;
  kmodify (λ c, emit (close_all (core_replications c))
    (set_replications (set_heartbeat_workers c ∅) ∅)).

(** [spawn_workers]: a worker is taken over unless the old streams are
    closed; what is left of the old workers is dropped. *)
Fixpoint spawn_workers (close_old : bool) (targets : list TargetProgress)
    (old new : gmap N (option HeartbeatEvent)) : gmap N (option HeartbeatEvent) :=
  match targets with
  | [] => new
  | prog :: targets =>
      let target := TargetProgress_target prog in
      let kept := if close_old then None else old !! target in
      spawn_workers close_old targets (delete target old) (<[target := default None kept]> new)
  end.

(** The streams to the targets: the old ones that are left, the new ones and
    the outputs; a kept stream is taken out of the old ones. *)
Fixpoint rebuild_streams (leader_vote : CommittedVote) (close_old : bool)
    (targets : list TargetProgress) (old new : gmap N ReplicationHandle) (os : list Output) :
    gmap N ReplicationHandle * gmap N ReplicationHandle * list Output :=
  match targets with
  | [] => (old, new, os)
  | prog :: targets =>
      let target := TargetProgress_target prog in
      let sid := stream_id (TargetProgress_progress prog) in
      let '(h, os) :=
        match old !! target, close_old with
        | Some existing, false => (existing, os)
        | Some _, true => (mkReplicationHandle sid false,
            os ++ [Output_CloseStream target; Output_SpawnStream leader_vote target sid])
        | None, _ => (mkReplicationHandle sid false, os ++ [Output_SpawnStream leader_vote target sid])
        end in
      rebuild_streams leader_vote close_old targets (delete target old) (<[target := h]> new) os
  end.

Definition run_rebuild_replication_streams (leader_vote : CommittedVote)
    (targets : list TargetProgress) (close_old : bool) : K unit :=
  kmodify (λ c,
    let workers := spawn_workers close_old targets (core_heartbeat_workers c) ∅ in
    let '(unused, new, os) := rebuild_streams leader_vote close_old targets (core_replications c) ∅ [] in
    emit (os ++ close_all unused) (set_replications (set_heartbeat_workers c workers) new)).

Definition run_state_machine (command : SmCommand) : K unit :=
  match get_log_progress command with
  | Some io_id => on_engine (update_log_progress (λ p, IOProgress_submit p io_id))
  | None => mret tt
  end;;
  match get_apply_progress command with
  | Some log_id => on_engine (update_apply_progress (λ p, IOProgress_submit p log_id))
  | None => mret tt
  end;;
  match get_snapshot_progress command with
  | Some log_id => on_engine (update_snapshot_progress (λ p, IOProgress_submit p log_id))
  | None => mret tt
  end;;
  storage (Output_StateMachine command).

(** A command whose condition holds. *)
Definition execute (cmd : Command) : K unit :=
  match cmd with
  | Command_UpdateIOProgress _ io_id => run_update_io_progress io_id
  | Command_AppendEntries committed_vote entries => run_append_entries committed_vote entries
  | Command_SaveVote vote => run_save_vote vote
  | Command_PurgeLog upto => run_purge_log upto
  | Command_TruncateLog after => run_truncate_log after
  | Command_SendVote req => spawn_parallel_vote_requests req false
  | Command_SendPreVote req => spawn_parallel_vote_requests req true
  | Command_ReplicateCommitted committed => broadcast_committed committed
  | Command_BroadcastHeartbeat session_id bypass => broadcast_heartbeat session_id bypass
  | Command_SaveCommittedAndApply already_applied upto =>
      run_save_committed_and_apply already_applied upto
  | Command_Replicate target req => run_replicate target req
  | Command_ReplicateSnapshot leader_vote target inflight_id =>
      run_replicate_snapshot leader_vote target inflight_id
  | Command_BroadcastTransferLeader req => broadcast_transfer_leader req
  | Command_CloseReplicationStreams => run_close_replication_streams
  | Command_FailPendingReads => fail_pending_reads
  | Command_RebuildReplicationStreams leader_vote targets close_old =>
      run_rebuild_replication_streams leader_vote targets close_old
  | Command_StateMachine command => run_state_machine command
  | Command_Respond _ resp => out (Output_Respond resp)
  end.

(** [run_command]: a command whose condition does not hold is given back. *)
Definition RaftCore_run_command (cmd : Command) : K (option Command) :=
  c ← kget;
  if (match Command_condition cmd with
      | Some condition => Condition_is_met condition (RaftState_io_state (core_state c))
      | None => true
      end)
  then execute cmd;; mret None
  else mret (Some cmd).

(** ** The command loop *)

Definition send_satisfied_responds : K unit :=
  c ← kget;
  let '(p, responds) := drain_satisfied (EngineOutput_pending_responds (Engine_output (core_engine c)))
                          (RaftState_io_state (core_state c)) in
  on_engine (modify (λ e, set_output e (mkEngineOutput (commands e) p)));;
  kmodify (emit ((λ pr, Output_Respond pr.2) <$> responds)).

(** One iteration: [true] to go on. *)
Definition command_step : K bool :=
  c ← kget;
  let output := sched_commands (core_config c) (Engine_output (core_engine c)) in
  let '(output, popped) := pop_command output in
  on_engine (modify (λ e, set_output e output));;
  match popped with
  | None => mret false
  | Some cmd =>
      res ← RaftCore_run_command cmd;
      match res with
      | None => mret true
      | Some cmd =>
          c ← kget;
          r ← klift (postpone_command (Engine_output (core_engine c)) cmd);
          on_engine (modify (λ e, set_output e r.1));;
          mret r.2
      end
  end.

Fixpoint command_loop (fuel : nat) : K unit :=
  match fuel with
  | O => mret tt
  | S fuel => go_on ← command_step; if (go_on : bool) then command_loop fuel else mret tt
  end.

Fixpoint progress_driven_loop (fuel : nat) : K unit :=
  match fuel with
  | O => mret tt
  | S fuel =>
      c ← kget;
      next ← klift (next_progress_driven_command (core_engine c));
      match next with
      | None => mret tt
      | Some cmd => RaftCore_run_command cmd;; progress_driven_loop fuel
      end
  end.
Definition run_progress_driven_command : K unit := progress_driven_loop 2.

(** The fuel is the number of queued commands and one: a step takes a command
    out of the queue or ends the loop. *)
Definition run_engine_commands : K unit :=
  send_satisfied_responds;;
  c ← kget;
  command_loop (S (length (commands (core_engine c))));;
  run_progress_driven_command.

(** ** Messages and notifications

    [rx_api.try_recv] gives the messages of a list one by one, then none; the
    number of processed messages is returned with those left. *)

Definition run_command_threshold : u64 := 64.
Definition batch_flush_threshold : u64 := 16.

(** The loop has [at_most] iterations. *)
Fixpoint process_raft_msg_loop (at_most : nat) (msgs : list RaftMsg) (total last_log_index : u64) :
    K (u64 * list RaftMsg) :=
  match at_most, msgs with
  | O, _ | _, [] => mret (total, msgs)
  | S at_most, msg :: msgs =>
      handle_api_msg msg;;
      c ← kget;
      let index := next_index (last_log_id (core_state c)) in
      if (run_command_threshold <=? index - last_log_index)%N
      then run_engine_commands;; process_raft_msg_loop at_most msgs (total + 1)%N index
      else process_raft_msg_loop at_most msgs (total + 1)%N last_log_index
  end.
Definition process_raft_msg (at_most : u64) (msgs : list RaftMsg) : K (u64 * list RaftMsg) :=
  r ← process_raft_msg_loop (N.to_nat at_most) msgs 0 0;
  run_engine_commands;;
  mret r.

Fixpoint process_notification_loop (at_most : nat) (ns : list Notification)
    (processed since_last_flush : u64) : K (u64 * u64 * list Notification) :=
  match at_most, ns with
  | O, _ | _, [] => mret (processed, since_last_flush, ns)
  | S at_most, n :: ns =>
      handle_notification n;;
      if (batch_flush_threshold <=? since_last_flush + 1)%N
      then run_engine_commands;; process_notification_loop at_most ns (processed + 1)%N 0
      else process_notification_loop at_most ns (processed + 1)%N (since_last_flush + 1)%N
  end.
Definition process_notification (at_most : u64) (ns : list Notification) :
    K (u64 * list Notification) :=
  '(processed, since_last_flush, ns) ← process_notification_loop (N.to_nat at_most) ns 0 0;
  (if (0 <? since_last_flush)%N then run_engine_commands else mret tt);;
  mret (processed, ns).

(** What wakes the loop up: a notification, a snapshot, or messages that are
    now buffered.  A shutdown ends the loop and is not a step. *)
Inductive Wake :=
| Wake_Notification (n : Notification)
| Wake_InstallSnapshot (vote : Vote) (snapshot : Snapshot) (tx : Sender)
| Wake_Api.

(** One iteration of [runtime_loop] with the messages and notifications that
    are queued; the new balancer and what is left of the queues. *)
Definition runtime_iteration (balancer : Balancer) (wake : Wake) (msgs : list RaftMsg)
    (ns : list Notification) : K (Balancer * list RaftMsg * list Notification) :=
  match wake with
  | Wake_Notification n => handle_notification n
  | Wake_InstallSnapshot vote snapshot tx => handle_install_full_snapshot_request vote snapshot tx
  | Wake_Api => mret tt
  end;;
  run_engine_commands;;
  '(raft_msg_processed, msgs) ← process_raft_msg (Balancer_raft_msg balancer) msgs;
  '(notify_processed, ns) ← process_notification (Balancer_notification balancer) ns;
  let balancer' :=
    if (notify_processed =? Balancer_notification balancer)%N then increase_notification balancer
    else if (raft_msg_processed =? Balancer_raft_msg balancer)%N then increase_raft_msg balancer
    else balancer in
  trigger_routine_actions;;
  run_engine_commands;;
  mret (balancer', msgs, ns).
End run.

(** ** A node that runs *)

Module CoreWitness.
#[local] Existing Instance std_config.
#[export] Existing Instance VoteHandlerWitness.env.

#[export] Instance store : StoreEnv := {| StorageError := unit; storage_error _ := None |}.

(** The state after a program, and the notifications a program has sent. *)
Definition after {A} (m : K A) (c : RaftCore) : RaftCore :=
  match m c with Ret (_, c') => c' | Panic => c end.
Definition succeeds {A} (m : K A) (c : RaftCore) : bool :=
  match m c with Ret (Ok _, _) => true | _ => false end.
Definition sent (c : RaftCore) : list Notification :=
  omap (λ o, match o with Output_Notify n => Some n | _ => None end) (core_trace c).

Lemma after_succeeds (m : K unit) c : succeeds m c = true → m c = Ret (Ok tt, after m c).
Proof. unfold succeeds, after. by destruct (m c) as [[[[]|] c']|]. Qed.

Definition node1 : RaftCore :=
  RaftCore_new Config_default (RuntimeConfig_new Config_default)
    (mkWorld (Engine_new (RaftState_new 1) (EngineConfig_new 1 Config_default 200)) 0 0).

Definition lid (t i : u64) : LogId := mkLogId (C := std_config) (LeaderIdStd.mkCommitted t) i.
Definition cv1 : CommittedVote := CommittedVote_new (C := std_config) (LeaderIdStd.mk 1 1).
Definition granted : Notification :=
  Notification_VoteResponse 1 (mkVoteResponse (Vote_new (C := std_config) 1 1) true None)
    (Vote_to_non_committed (Vote_new (C := std_config) 1 1)).
Definition flushed (i : u64) : Notification :=
  Notification_LocalIO (IOId_new_log_io cv1 (Some (lid 1 i))).

(** The node becomes a cluster of one and elects itself; it takes two writes
    and a read, and the logs reach the disk. *)
Definition initialize1 : RaftMsg := RaftMsg_Initialize (C := std_config) (list_to_map [(1%N, tt)]) 5%N.
Definition node2 : RaftCore := after (handle_api_msg initialize1) node1.
Definition node3 : RaftCore := after run_engine_commands node2.
Definition node4 : RaftCore := after (handle_notification granted) node3.
Definition node5 : RaftCore := after run_engine_commands node4.
Definition node6 : RaftCore := after (handle_notification (flushed 1)) node5.
Definition node7 : RaftCore := after run_engine_commands node6.
Definition write2 : RaftMsg :=
  RaftMsg_ClientWrite [EntryPayload_Normal (C := std_config) 7%N; EntryPayload_Blank]
    [Some 11%N; Some 12%N] None.
Definition read1 : RaftMsg := RaftMsg_GetLinearizer (from_read_policy ReadPolicy_ReadIndex) 21%N.
Definition node8 : RaftCore := after (handle_api_msg write2) node7.
Definition node9 : RaftCore := after (handle_api_msg read1) node8.
Definition node10 : RaftCore := after run_engine_commands node9.
Definition node11 : RaftCore := after (handle_notification (flushed 3)) node10.
Definition node12 : RaftCore := after run_engine_commands node11.
End CoreWitness.
