(* ===== verification/CoreLogic.v ===== *)
(** * Reasoning about the runtime

    The handlers of the runtime are programs of the monad [K].  A relation
    between the state before and after that is reflexive and transitive holds
    of a program when it holds of its steps; the class [KRel] follows that
    structure.  On top of it: what the handlers do to the clients that wait,
    and what the commands do to the queue of commands. *)

From S2P Require Import Prelude Vote LogId LogIdList Quorum Membership VecProgress IOState.
From S2P Require Import MembershipState Entry RaftState Config ProgressEntry Proposer Command.
From S2P Require Import Engine Replication Following LeaderHandler VoteHandler EngineImpl.
From S2P Require Import VoteSafety Cluster ReadQueue CoreHelpers Wire Core CoreHandlers CoreRun.

Section logic.
Context {C : RaftTypeConfig} `{!Env, !StoreEnv}.
Implicit Types (c : RaftCore).

Lemma K_bind_eq {A B} (m : K A) (f : A → K B) c :
  (m ≫= f) c = match m c with
               | Ret (Ok a, c') => f a c'
               | Ret (Err e, c') => Ret (Err e, c')
               | Panic => Panic
               end.
Proof. unfold mbind, K_bind, mbind, outcome_bind. by destruct (m c) as [[[a|e] c']|]. Qed.

Lemma kget_eq c : kget c = Ret (Ok c, c).
Proof. done. Qed.
Lemma kmodify_eq f c : kmodify f c = Ret (Ok tt, f c).
Proof. done. Qed.
Lemma klift_eq {A} (o : outcome A) c :
  klift o c = match o with Ret a => Ret (Ok a, c) | Panic => Panic end.
Proof. by destruct o. Qed.
Lemma on_engine_eq {A} (m : M A) c :
  on_engine m c = match m (core_world c) with
                  | Ret (a, w) => Ret (Ok a, set_world c w)
                  | Panic => Panic
                  end.
Proof. unfold on_engine. cbn. by destruct (m (core_world c)) as [[a w]|]. Qed.

(** ** Relations between states *)

Class KRel (R : relation RaftCore) {A} (m : K A) : Prop :=
  krel : ∀ c r c', m c = Ret (r, c') → R c c'.

Section preorder.
Context (R : relation RaftCore) `{!PreOrder R}.

#[global] Instance krel_ret {A} (a : A) : KRel R (mret a).
Proof. by intros c r c' [= <- <-]. Qed.
#[global] Instance krel_bind {A B} (m : K A) (f : A → K B) :
  KRel R m → (∀ a, KRel R (f a)) → KRel R (m ≫= f).
Proof.
  intros Hm Hf c r c'. rewrite K_bind_eq. destruct (m c) as [[[a|e] c1]|] eqn:E; [| |done].
  - intros Ha. etrans; [by eapply Hm|by eapply Hf].
  - intros [= <- <-]. by eapply Hm.
Qed.
#[global] Instance krel_get : KRel R kget.
Proof. by intros c r c' [= <- <-]. Qed.
#[global] Instance krel_fail {A} e : KRel R (kfail (A := A) e).
Proof. by intros c r c' [= <- <-]. Qed.
#[global] Instance krel_lift {A} (o : outcome A) : KRel R (klift o).
Proof. intros c r c'. rewrite klift_eq. destruct o; [|done]. by intros [= <- <-]. Qed.

Lemma krel_modify f : (∀ c, R c (f c)) → KRel R (kmodify f).
Proof. intros Hf c r c' [= <- <-]. apply Hf. Qed.
Lemma krel_on_engine {A} (m : M A) :
  (∀ c a w, m (core_world c) = Ret (a, w) → R c (set_world c w)) → KRel R (on_engine m).
Proof.
  intros Hm c r c'. rewrite on_engine_eq. destruct (m _) as [[a w]|] eqn:E; [|done].
  intros [= <- <-]. by eapply Hm.
Qed.
Lemma krel_storage o : (∀ c, R c (count_storage_call (emit [o] c))) → KRel R (storage o).
Proof.
  intros Ho c r c'. unfold storage. destruct (storage_error _); intros [= <- <-]; apply Ho.
Qed.
End preorder.

(** The states agree on [P]. *)
Definition kept {X} (P : RaftCore → X) : relation RaftCore := λ c c', P c' = P c.
#[global] Instance kept_preorder {X} (P : RaftCore → X) : PreOrder (kept P).
Proof. unfold kept. split; [done|]. intros c1 c2 c3 H1 H2. by rewrite H2. Qed.

End logic.

(** Follows the structure of a program down to its steps. *)
Ltac krel_step :=
  lazymatch goal with
  | |- KRel _ (_ ≫= _) => apply krel_bind; [apply _| |]
  | |- KRel _ (if ?x then _ else _) => destruct x
  | |- KRel _ (match ?x with _ => _ end) => destruct x
  | |- KRel _ _ => apply _
  | |- ∀ _, _ => intros ?
  end.
Ltac krel := repeat krel_step.

Section clients.
Context {C : RaftTypeConfig} `{!Env, !StoreEnv}.
Implicit Types (c : RaftCore).

(** ** Clients *)

(** The clients that a trace of outputs answers: writes that have failed,
    writes whose log is committed and handed to the state machine, reads. *)
Definition failed_writes (os : list Output) : list Sender :=
  omap (λ o, match o with Output_WriteFailed tx _ => Some tx | _ => None end) os.
Definition committed_writes (os : list Output) : list Sender :=
  omap (λ o, match o with Output_WriteCommitted tx _ => Some tx | _ => None end) os.
Definition answered_reads (os : list Output) : list Sender :=
  omap (λ o, match o with Output_Read tx _ => Some tx | _ => None end) os.

(** All the clients a node knows of. *)
Definition write_clients c : list Sender :=
  failed_writes (core_trace c) ++ committed_writes (core_trace c) ++
  (responders (core_client_responders c)).*2.
Definition read_clients c : list Sender :=
  answered_reads (core_trace c) ++ waiting (core_pending_reads c).

Definition client_view c :=
  (core_client_responders c, core_pending_reads c, failed_writes (core_trace c),
   committed_writes (core_trace c), answered_reads (core_trace c)).

Definition answers_client (o : Output) : bool :=
  match o with
  | Output_WriteFailed _ _ | Output_WriteCommitted _ _ | Output_Read _ _ => true
  | _ => false
  end.

Lemma client_view_emit os c :
  Forall (λ o, answers_client o = false) os → client_view (emit os c) = client_view c.
Proof.
  intros Hos. unfold client_view, failed_writes, committed_writes, answered_reads. cbn.
  rewrite !omap_app. assert (∀ f : Output → option Sender,
    (∀ o, answers_client o = false → f o = None) → omap f os = []) as Hnil.
  { intros f Hf. induction Hos as [|o os Ho _ IH]; [done|]. cbn. by rewrite Hf. }
  rewrite !(Hnil), !app_nil_r; [done|..]; by intros [].
Qed.

#[global] Instance clients_on_engine {A} (m : M A) : KRel (kept client_view) (on_engine m).
Proof. by apply krel_on_engine. Qed.
#[global] Instance clients_reschedule : KRel (kept client_view) reschedule_pending_read_check.
Proof. by apply krel_modify. Qed.
#[global] Instance clients_accepted io : KRel (kept client_view) (broadcast_accepted io).
Proof. apply krel_modify. intros c. by destruct (pgtb _ _). Qed.
#[global] Instance clients_submitted io : KRel (kept client_view) (broadcast_submitted io).
Proof. apply krel_modify. intros c. by destruct (pgtb _ _). Qed.
#[global] Instance clients_committed x : KRel (kept client_view) (broadcast_committed x).
Proof. apply krel_modify. intros c. by destruct (_ >? _). Qed.
#[global] Instance clients_snapshot_transmit target id :
  KRel (kept client_view) (clear_snapshot_transmit target id).
Proof. apply krel_modify. intros c. by repeat case_match. Qed.

Lemma clients_out o : answers_client o = false → KRel (kept client_view) (out o).
Proof. intros Ho. apply krel_modify. intros c. apply client_view_emit. by constructor. Qed.
Lemma clients_storage o : answers_client o = false → KRel (kept client_view) (storage o).
Proof. intros Ho. apply krel_storage. intros c. apply (client_view_emit [o]). by constructor. Qed.
End clients.

#[global] Hint Extern 1 (KRel (kept client_view) (out _)) => apply clients_out; reflexivity : typeclass_instances.
#[global] Hint Extern 1 (KRel (kept client_view) (storage _)) => apply clients_storage; reflexivity : typeclass_instances.

(** Reads a field after assignments. *)
Ltac client_fields :=
  cbn [core_trace core_client_responders core_pending_reads emit set_client_responders
       set_pending_reads].

Section moves.
Context {C : RaftTypeConfig} `{!Env, !StoreEnv}.
Implicit Types (c : RaftCore) (W R : list Sender).

(** From [c] to [c'] the clients [W] and [R] join the writes and the reads,
    and nobody else appears, disappears or is answered twice. *)
Definition moves W R c c' : Prop :=
  write_clients c' ≡ₚ W ++ write_clients c ∧
  (queue_wf (core_pending_reads c) →
   queue_wf (core_pending_reads c') ∧ read_clients c' ≡ₚ R ++ read_clients c).

Lemma moves_view c c' : client_view c' = client_view c → moves [] [] c c'.
Proof.
  unfold moves, write_clients, read_clients. injection 1 as H1 H2 H3 H4 H5.
  by rewrite H1, H2, H3, H4, H5.
Qed.

Lemma moves_trans W1 R1 W2 R2 c1 c2 c3 :
  moves W1 R1 c1 c2 → moves W2 R2 c2 c3 → moves (W2 ++ W1) (R2 ++ R1) c1 c3.
Proof.
  intros [Hw1 Hr1] [Hw2 Hr2]. split.
  - by rewrite Hw2, Hw1, (assoc_L (++)).
  - intros Hq. destruct (Hr1 Hq) as [Hq2 Hp1]. destruct (Hr2 Hq2) as [Hq3 Hp2].
    split; [done|]. by rewrite Hp2, Hp1, (assoc_L (++)).
Qed.

#[global] Instance moves_preorder : PreOrder (moves [] []).
Proof.
  split; [intros c; by apply moves_view|].
  intros c1 c2 c3. apply (moves_trans [] [] [] []).
Qed.

#[global] Instance conserved_kept {A} (m : K A) :
  KRel (kept client_view) m → KRel (moves [] []) m | 10.
Proof. intros Hm c r c' Hc. eapply moves_view, Hm, Hc. Qed.

(** Programs that let clients in, when they end without storage error. *)
Definition lets_in W R {A} (m : K A) c : Prop :=
  ∀ a c', m c = Ret (Ok a, c') → moves W R c c'.

Lemma lets_in_conserved {A} (m : K A) c : KRel (moves [] []) m → lets_in [] [] m c.
Proof. intros Hm a c'. apply Hm. Qed.

Lemma lets_in_before W R {A B} (m : K A) (f : A → K B) c :
  KRel (kept client_view) m → (∀ a c1, m c = Ret (Ok a, c1) → lets_in W R (f a) c1) →
  lets_in W R (m ≫= f) c.
Proof.
  intros Hm Hf b c'. rewrite K_bind_eq. destruct (m c) as [[[a|e] c1]|] eqn:E; [|done|done].
  intros Hb. rewrite <- (app_nil_r W), <- (app_nil_r R).
  eapply moves_trans; [eapply moves_view, Hm, E|by eapply Hf].
Qed.

Lemma lets_in_after W R {A B} (m : K A) (f : A → K B) c :
  lets_in W R m c → (∀ a, KRel (moves [] []) (f a)) → lets_in W R (m ≫= f) c.
Proof.
  intros Hm Hf b c'. rewrite K_bind_eq. destruct (m c) as [[[a|e] c1]|] eqn:E; [|done|done].
  intros Hb. apply (moves_trans W R [] [] c c1 c'); [by eapply Hm|by eapply Hf].
Qed.

Lemma failed_writes_fmap {X} (f : X → Sender) (g : X → ClientWriteError) (l : list X) :
  let os := (λ x, Output_WriteFailed (f x) (g x)) <$> l in
  failed_writes os = f <$> l ∧ committed_writes os = [] ∧ answered_reads os = [].
Proof.
  cbn. unfold failed_writes, committed_writes, answered_reads.
  induction l as [|x l (IH1 & IH2 & IH3)]; [done|]. cbn in *. by rewrite IH1, IH2, IH3.
Qed.

Lemma reads_fmap (sent : list (Sender * ReadResult)) :
  let os := (λ tr, Output_Read tr.1 tr.2) <$> sent in
  failed_writes os = [] ∧ committed_writes os = [] ∧ answered_reads os = sent.*1.
Proof.
  cbn. unfold failed_writes, committed_writes, answered_reads.
  induction sent as [|x l (IH1 & IH2 & IH3)]; [done|]. cbn in *. by rewrite IH1, IH2, IH3.
Qed.

Lemma view_app os os' :
  failed_writes (os ++ os') = failed_writes os ++ failed_writes os' ∧
  committed_writes (os ++ os') = committed_writes os ++ committed_writes os' ∧
  answered_reads (os ++ os') = answered_reads os ++ answered_reads os'.
Proof. unfold failed_writes, committed_writes, answered_reads. by rewrite !omap_app. Qed.

(** Failing writes that were waiting, and writes that never got in. *)
Lemma moves_fail W q txs e c :
  txs ++ (responders q).*2 ≡ₚ W ++ (responders (core_client_responders c)).*2 →
  moves W [] c (emit ((λ tx, Output_WriteFailed tx e) <$> txs) (set_client_responders c q)).
Proof.
  intros Hp. unfold moves, write_clients, read_clients. client_fields.
  destruct (view_app (core_trace c) ((λ tx, Output_WriteFailed tx e) <$> txs)) as (-> & -> & ->).
  destruct (failed_writes_fmap (λ x, x) (λ _, e) txs) as (-> & -> & ->).
  rewrite !app_nil_r, list_fmap_id. split; [|done].
  rewrite <- (assoc_L (++)), (Permutation_app_swap_app txs), Hp.
  by rewrite !(Permutation_app_swap_app W).
Qed.

Lemma lets_in_fail_writes txs e c : lets_in txs [] (fail_writes txs e) c.
Proof.
  intros a c' [= <- <-]. apply (moves_fail txs (core_client_responders c)). done.
Qed.

(** Writes that are committed. *)
Lemma commit_responders_outputs st drained os :
  commit_responders st drained = Ret os →
  failed_writes os = [] ∧ committed_writes os = drained.*2 ∧ answered_reads os = [].
Proof.
  revert os. induction drained as [|[index tx] drained IH]; intros os; cbn; [by intros [= <-]|].
  destruct (get_log_id st index) as [log_id|]; cbn; [|done].
  destruct (commit_responders st drained) as [os'|]; cbn; [|done]. intros [= <-].
  destruct (IH os' eq_refl) as (H1 & H2 & H3). unfold failed_writes, committed_writes, answered_reads in *.
  cbn. by rewrite H1, H2, H3.
Qed.

Lemma moves_commit q drained os c st :
  commit_responders st drained = Ret os →
  drained.*2 ++ (responders q).*2 = (responders (core_client_responders c)).*2 →
  moves [] [] c (emit os (set_client_responders c q)).
Proof.
  intros (H1 & H2 & H3)%commit_responders_outputs Hq. unfold moves, write_clients, read_clients. client_fields.
  destruct (view_app (core_trace c) os) as (-> & -> & ->). rewrite H1, H2, H3, !app_nil_r.
  by rewrite <- Hq, !(assoc_L (++)).
Qed.

(** Reads that are answered. *)
Lemma moves_reads q sent c :
  (queue_wf (core_pending_reads c) →
   queue_wf q ∧ sent.*1 ++ waiting q ≡ₚ waiting (core_pending_reads c)) →
  moves [] [] c (emit ((λ tr, Output_Read tr.1 tr.2) <$> sent) (set_pending_reads c q)).
Proof.
  intros Hq. unfold moves, write_clients, read_clients. client_fields.
  destruct (view_app (core_trace c) ((λ tr, Output_Read tr.1 tr.2) <$> sent)) as (-> & -> & ->).
  destruct (reads_fmap sent) as (-> & -> & ->). rewrite !app_nil_r. split; [done|].
  intros [Hw Hp]%Hq. split; [done|]. by rewrite <- (assoc_L (++)), Hp.
Qed.

Lemma moves_read tx r c : moves [] [tx] c (emit [Output_Read tx r] c).
Proof.
  unfold moves, write_clients, read_clients. client_fields.
  destruct (view_app (core_trace c) [Output_Read tx r]) as (-> & -> & ->). cbn. rewrite !app_nil_r.
  split; [done|]. intros Hw. split; [done|].
  by rewrite <- (assoc_L (++)), (Permutation_app_swap_app _ [tx]).
Qed.
End moves.
