(* ===== verification/CoreClients.v ===== *)
(** * Every client is answered once

    A write is accepted into the queue of responders or refused; it leaves the
    queue when its log is committed, truncated or purged.  A read is answered
    at once or waits in the queue of reads.  This file follows the clients
    through the handlers and commands of [CoreHandlers] and [CoreRun], and
    through any sequence of runtime steps. *)

From S2P Require Import Prelude Vote LogId LogIdList Quorum Membership VecProgress IOState.
From S2P Require Import MembershipState Entry RaftState Config ProgressEntry Proposer Command.
From S2P Require Import Engine Replication Following LeaderHandler VoteHandler EngineImpl.
From S2P Require Import VoteSafety Cluster ReadQueue CoreHelpers Wire Core CoreHandlers CoreRun CoreLogic.

Section clients.
Context {C : RaftTypeConfig} `{!Env, !StoreEnv}.
Implicit Types (c : RaftCore) (W R : list Sender).
Local Notation frame m := (KRel (kept client_view) m).
Local Notation conserves m := (KRel (moves [] []) m).

(** ** Handlers that no client takes part in *)

#[local] Instance frame_ensure_leader : frame ensure_leader_handler.
Proof. unfold ensure_leader_handler. krel. Qed.
#[local] Instance frame_ensure_writable : frame ensure_writable_leader_handler.
Proof. unfold ensure_writable_leader_handler. krel. Qed.
#[local] Instance frame_send_heartbeat : frame RaftCore_send_heartbeat.
Proof. unfold RaftCore_send_heartbeat. krel. Qed.
#[local] Instance frame_handle_initialize members tx : frame (handle_initialize members tx).
Proof. unfold handle_initialize. krel. Qed.
#[local] Instance frame_trigger_snapshot : frame RaftCore_trigger_snapshot.
Proof. apply clients_on_engine. Qed.
#[local] Instance frame_vote_request req tx : frame (RaftCore_handle_vote_request req tx).
Proof. unfold RaftCore_handle_vote_request. krel. Qed.
#[local] Instance frame_pre_vote_request req tx : frame (handle_pre_vote_request req tx).
Proof. unfold handle_pre_vote_request. krel. Qed.
#[local] Instance frame_append_entries req tx : frame (handle_append_entries_request req tx).
Proof. unfold handle_append_entries_request. krel. Qed.
#[local] Instance frame_install_snapshot vote snapshot tx :
  frame (handle_install_full_snapshot_request vote snapshot tx).
Proof. unfold handle_install_full_snapshot_request. krel. Qed.
#[local] Instance frame_external cmd : frame (handle_external_command cmd).
Proof. unfold handle_external_command. krel. Qed.
#[local] Instance frame_transfer from to last : frame (handle_transfer_leader from to last).
Proof. unfold handle_transfer_leader. krel. Qed.
#[local] Instance frame_tick_election : frame handle_tick_election.
Proof. unfold handle_tick_election. krel. Qed.
#[local] Instance frame_tick : frame handle_tick.
Proof. unfold handle_tick. krel. Qed.
#[local] Instance frame_local_io io : frame (handle_local_io io).
Proof. unfold handle_local_io. krel. Qed.
#[local] Instance frame_state_machine_result r : frame (handle_state_machine_result r).
Proof. unfold handle_state_machine_result. krel. Qed.

(** ** Commands that no client takes part in *)

#[local] Instance frame_update_io_progress io : frame (run_update_io_progress io).
Proof. unfold run_update_io_progress. krel. Qed.
#[local] Instance frame_run_append_entries v entries : frame (run_append_entries v entries).
Proof. unfold run_append_entries. krel. Qed.
#[local] Instance frame_run_save_vote v : frame (run_save_vote v).
Proof. unfold run_save_vote. krel. Qed.
#[local] Instance frame_broadcast_targets : frame broadcast_targets.
Proof. unfold broadcast_targets. krel. Qed.
#[local] Instance frame_vote_requests req pre : frame (spawn_parallel_vote_requests req pre).
Proof. unfold spawn_parallel_vote_requests. krel. Qed.
#[local] Instance frame_broadcast_transfer req : frame (broadcast_transfer_leader req).
Proof. unfold broadcast_transfer_leader. krel. Qed.
#[local] Instance frame_broadcast events : frame (broadcast events).
Proof.
  induction events as [|[target event] events IH]; cbn [broadcast]; [apply _|].
  krel. by apply krel_modify.
Qed.
#[local] Instance frame_broadcast_heartbeat sid bypass : frame (broadcast_heartbeat sid bypass).
Proof. unfold broadcast_heartbeat. krel. Qed.
#[local] Instance frame_run_replicate target req : frame (run_replicate target req).
Proof. unfold run_replicate. krel. Qed.
#[local] Instance frame_replicate_snapshot v target id : frame (run_replicate_snapshot v target id).
Proof. unfold run_replicate_snapshot. krel. by apply krel_modify. Qed.
#[local] Instance frame_state_machine command : frame (run_state_machine command).
Proof. unfold run_state_machine. krel. Qed.

Lemma close_all_silent rs : Forall (λ o, answers_client o = false) (close_all rs).
Proof. unfold close_all. by apply Forall_fmap, Forall_true. Qed.
#[local] Instance frame_close_streams : frame run_close_replication_streams.
Proof.
  unfold run_close_replication_streams. apply krel_bind; [apply _..|]. intros c0.
  apply krel_modify. intros c. unfold kept.
  rewrite client_view_emit by apply close_all_silent. done.
Qed.
Lemma rebuild_streams_silent v close_old targets old new os old' new' os' :
  rebuild_streams v close_old targets old new os = (old', new', os') →
  Forall (λ o, answers_client o = false) os → Forall (λ o, answers_client o = false) os'.
Proof.
  revert old new os. induction targets as [|prog targets IH]; intros old new os; cbn; [by intros [= <- <- <-]|].
  destruct (old !! _) as [h|]; [destruct close_old|]; intros Hr Hos; eapply IH; try exact Hr; try done;
    apply Forall_app; split; try done; by repeat constructor.
Qed.
#[local] Instance frame_rebuild_streams v targets close_old :
  frame (run_rebuild_replication_streams v targets close_old).
Proof.
  apply krel_modify. intros c. unfold kept.
  destruct (rebuild_streams _ _ _ _ _ _) as [[unused new] os] eqn:E.
  rewrite client_view_emit; [done|]. apply Forall_app. split; [|apply close_all_silent].
  eapply rebuild_streams_silent; [exact E|done].
Qed.

(** ** Commands that settle writes *)

Lemma drain_upto_split {T} (q : ClientResponderQueue T) i :
  (drain_upto q i).2.*2 ++ (responders (drain_upto q i).1).*2 = (responders q).*2.
Proof. cbn. by rewrite <- fmap_app, take_drop. Qed.
Lemma drain_from_split {T} (q : ClientResponderQueue T) i :
  (drain_from q i).2.*2 ++ (responders (drain_from q i).1).*2 ≡ₚ (responders q).*2.
Proof. cbn. by rewrite Permutation_app_comm, <- fmap_app, take_drop. Qed.

(** A program after a step. *)
Lemma conserves_then {A} (m : K A) c c1 r c' :
  m c1 = Ret (r, c') → conserves m → moves [] [] c c1 → moves [] [] c c'.
Proof. intros Hm Hk Hc. etrans; [exact Hc|]. by eapply Hk. Qed.

(** Taking responders out of the queue of [c] and failing them. *)
Lemma conserves_fail_responders c q drained forward c' r :
  drained.*2 ++ (responders q).*2 ≡ₚ (responders (core_client_responders c)).*2 →
  (kmodify (λ c, set_client_responders c q);; fail_responders forward drained) c = Ret (r, c') →
  moves [] [] c c'.
Proof. intros Hp [= <- <-]. by apply (moves_fail [] q). Qed.

#[local] Instance conserves_purge_log upto : conserves (run_purge_log upto).
Proof.
  unfold run_purge_log. apply krel_bind; [apply _..|]. intros _ c r c'. rewrite K_bind_eq, kget_eq.
  destruct (drain_upto (core_client_responders c) _) as [q drained] eqn:E.
  pose proof (drain_upto_split (core_client_responders c) (LogId_index upto)) as Hp. rewrite E in Hp.
  rewrite K_bind_eq, kmodify_eq, K_bind_eq. unfold fail_responders, fail_writes. rewrite kmodify_eq.
  intros Hc. eapply conserves_then; [exact Hc|apply _|].
  apply (moves_fail [] q). cbn in *. by rewrite Hp.
Qed.

#[local] Instance conserves_truncate_log after : conserves (run_truncate_log after).
Proof.
  unfold run_truncate_log. apply krel_bind; [apply _..|]. intros _ c r c'. rewrite K_bind_eq, kget_eq.
  destruct (drain_from (core_client_responders c) _) as [q drained] eqn:E.
  pose proof (drain_from_split (core_client_responders c) (next_index after)) as Hp. rewrite E in Hp.
  by apply conserves_fail_responders.
Qed.

#[local] Instance conserves_apply first last : conserves (apply_to_state_machine first last).
Proof.
  unfold apply_to_state_machine. intros c r c'. rewrite K_bind_eq, kget_eq.
  destruct (drain_upto (core_client_responders c) _) as [q drained] eqn:E.
  pose proof (drain_upto_split (core_client_responders c) (LogId_index last)) as Hp. rewrite E in Hp.
  rewrite K_bind_eq, kmodify_eq, K_bind_eq, klift_eq.
  destruct (commit_responders _ _) as [os|] eqn:Hos; [|done].
  rewrite K_bind_eq, kmodify_eq. intros Hc. eapply conserves_then; [exact Hc|apply _|].
  by eapply moves_commit.
Qed.
#[local] Instance conserves_save_committed already upto :
  conserves (run_save_committed_and_apply already upto).
Proof. unfold run_save_committed_and_apply. krel. Qed.

(** ** Reads *)

Lemma conserves_send_reads c q sent r c' :
  (queue_wf (core_pending_reads c) →
   queue_wf q ∧ sent.*1 ++ waiting q ≡ₚ waiting (core_pending_reads c)) →
  send_reads q sent c = Ret (r, c') → moves [] [] c c'.
Proof. intros Hq [= <- <-]. by apply moves_reads. Qed.

(** A drain of the queue of reads, whatever its state. *)
Lemma drain_conserves op q q' sent :
  pushed op = [] → queue_op op q = Ret (q', sent) → queue_wf q →
  queue_wf q' ∧ sent.*1 ++ waiting q' ≡ₚ waiting q.
Proof.
  intros Hop Hq Hwf. destruct (drain_op_spec op q Hop Hwf) as (q1 & s1 & Hq1 & Hwf1 & _ & Hp).
  rewrite Hq in Hq1. by injection Hq1 as -> ->.
Qed.

#[local] Instance conserves_fail_pending_reads : conserves fail_pending_reads.
Proof.
  unfold fail_pending_reads. intros c r c'. rewrite K_bind_eq, kget_eq.
  destruct (drain_all_with_error _ _) as [q sent] eqn:E. rewrite K_bind_eq.
  destruct (send_reads q sent c) as [[[[]|e] c1]|] eqn:Hs; [| |done].
  - intros Hc. eapply conserves_then; [exact Hc|apply _|]. eapply conserves_send_reads; [|exact Hs].
    eapply (drain_conserves (QueueOp_DrainAll _)); [done|]. cbn. by rewrite E.
  - intros [= <- <-]. eapply conserves_send_reads; [|exact Hs].
    eapply (drain_conserves (QueueOp_DrainAll _)); [done|]. cbn. by rewrite E.
Qed.

(** A drain whose result is lifted and sent. *)
Lemma conserves_drain op c r c' :
  pushed op = [] →
  (x ← klift (queue_op op (core_pending_reads c)); send_reads x.1 x.2) c = Ret (r, c') →
  moves [] [] c c'.
Proof.
  intros Hop. rewrite K_bind_eq, klift_eq. destruct (queue_op _ _) as [[q sent]|] eqn:E; [|done].
  apply conserves_send_reads. by eapply drain_conserves.
Qed.

#[local] Instance conserves_process_pending_reads : conserves process_pending_reads.
Proof.
  unfold process_pending_reads. apply krel_bind; [apply _..|]. intros t.
  intros c r c'. rewrite K_bind_eq, kget_eq. revert c r c'.
  assert (∀ X : RaftCore → K unit, (∀ c r c', X c c = Ret (r, c') → moves [] [] c c') →
    ∀ c r c', (X c;; reschedule_pending_read_check) c = Ret (r, c') → moves [] [] c c') as Hafter.
  { intros X HX c r c'. rewrite K_bind_eq. destruct (X c c) as [[[[]|e] c1]|] eqn:E; [| |done].
    - intros Hc. eapply conserves_then; [exact Hc|apply _|by eapply HX].
    - intros [= <- <-]. by eapply HX. }
  apply (Hafter (λ c, match try_leader_handler (core_engine c) with Ok l => _ | Err forward => _ end)).
  intros c r c'. destruct (try_leader_handler (core_engine c)) as [l|forward].
  - rewrite K_bind_eq.
    match goal with |- context [match ?x with Ret _ => _ | Panic => Panic end] =>
      assert (∀ r c1, x = Ret (r, c1) → moves [] [] c c1) as Hsat;
        [|destruct x as [[[[]|e] c1]|] eqn:E; [| |done]] end.
    { intros r1 c1. destruct (last_quorum_acked_time l) as [acked|]; [|by intros [= <- <-]].
      by apply (conserves_drain (QueueOp_DrainSatisfied acked (io_applied (core_state c)))). }
    + intros Hc. etrans; [by eapply Hsat|]. revert Hc. rewrite K_bind_eq, kget_eq.
      apply (conserves_drain (QueueOp_DrainExpired t (λ min_acked,
        LinearizableReadError_QuorumNotEnough (clock_quorum_not_enough l min_acked)))). done.
    + intros [= <- <-]. by eapply Hsat.
  - destruct (drain_all_with_error _ _) as [q sent] eqn:E. apply conserves_send_reads.
    eapply (drain_conserves (QueueOp_DrainAll _)); [done|]. cbn. by rewrite E.
Qed.

(** ** The other handlers and the command loop *)

#[local] Instance conserves_routine : conserves trigger_routine_actions.
Proof. unfold trigger_routine_actions. krel; apply conserved_kept; by apply krel_modify. Qed.
#[local] Instance conserves_notification n : conserves (handle_notification n).
Proof. unfold handle_notification. krel. Qed.
#[local] Instance conserves_execute cmd : conserves (execute cmd).
Proof. unfold execute. krel. Qed.
#[local] Instance conserves_run_command cmd : conserves (RaftCore_run_command cmd).
Proof. unfold RaftCore_run_command. krel. Qed.
#[local] Instance conserves_command_step : conserves command_step.
Proof.
  unfold command_step. krel_step; [apply _|]. intros c.
  destruct (pop_command _) as [output popped]. krel.
Qed.
#[local] Instance conserves_command_loop fuel : conserves (command_loop fuel).
Proof. induction fuel; cbn [command_loop]; krel. Qed.
#[local] Instance conserves_progress_loop fuel : conserves (progress_driven_loop fuel).
Proof. induction fuel; cbn [progress_driven_loop]; krel. Qed.
#[local] Instance conserves_responds : conserves send_satisfied_responds.
Proof.
  unfold send_satisfied_responds. krel_step; [apply _|]. intros c.
  destruct (drain_satisfied _ _) as [p responds]. krel_step; [apply _|]. intros _.
  apply conserved_kept, krel_modify. intros c'. unfold kept. rewrite client_view_emit; [done|].
  by apply Forall_fmap, Forall_true.
Qed.
#[local] Instance conserves_engine_commands : conserves run_engine_commands.
Proof. unfold run_engine_commands, run_progress_driven_command. krel. Qed.

(** ** Messages that bring clients *)

(** The senders that wait for the result of a write or of a read. *)
Definition writers (msg : RaftMsg) : list Sender :=
  match msg with
  | RaftMsg_ClientWrite _ responders _ => omap id responders
  | RaftMsg_ChangeMembership _ _ _ _ tx => [tx]
  | RaftMsg_AppendMembership _ _ tx => [tx]
  | _ => []
  end.
Definition readers (msg : RaftMsg) : list Sender :=
  match msg with
  | RaftMsg_GetLinearizer _ tx => [tx]
  | _ => []
  end.

(** The indexes after the last log of a leader fit into 64 bits. *)
Definition log_room c (n : nat) : Prop :=
  ∀ l, Engine_leader (core_engine c) = Some l →
    (next_index (Leader_last_log_id l) + N.of_nat n < u64_modulus)%N.

(** A batch of writes has one responder for each payload; indexes and sequence
    numbers do not wrap. *)
Definition fits (msg : RaftMsg) c : Prop :=
  match msg with
  | RaftMsg_ClientWrite payloads responders _ =>
      length responders = length payloads ∧ log_room c (length payloads)
  | RaftMsg_ChangeMembership _ _ _ _ _ | RaftMsg_AppendMembership _ _ _ => log_room c 1
  | RaftMsg_GetLinearizer _ _ => (next_sequence (core_pending_reads c) + 1 < u64_modulus)%N
  | _ => True
  end.

Lemma assigned_ids l (n : nat) l' assigned :
  (next_index (Leader_last_log_id l) + N.of_nat n < u64_modulus)%N →
  assign_log_ids l (N.of_nat n) = (l', assigned) →
  match assigned with
  | Some ids => length (LeaderLogIds_ids ids) = n
  | None => n = 0
  end.
Proof.
  intros Hn. unfold assign_log_ids. case_decide as Hd; intros [= <- <-]; [lia|].
  unfold LeaderLogIds_ids; cbn. rewrite length_fmap, length_seq.
  rewrite u64_add_small, u64_sub_small by (unfold in_u64; lia). lia.
Qed.

Lemma leader_append_entries_ids payloads w r w' :
  (∀ l, Engine_leader (w_engine w) = Some l →
    next_index (Leader_last_log_id l) + N.of_nat (length payloads) < u64_modulus)%N →
  leader_append_entries payloads w = Ret (r, w') →
  match r with
  | Some ids => length (LeaderLogIds_ids ids) = length payloads
  | None => payloads = []
  end.
Proof.
  intros Hroom. unfold leader_append_entries. m_steps. unfold the_leader.
  destruct (Engine_leader (w_engine w)) as [l|]; [|done]. specialize (Hroom l eq_refl).
  destruct (assign_log_ids l _) as [l' assigned] eqn:E. apply assigned_ids in E; [|done].
  unfold put_leader. m_steps. destruct assigned as [ids|].
  - m_steps. match goal with |- context [match ?m ?x with Ret _ => _ | Panic => _ end] =>
      destruct (m x) as [[u1 w1]|]; [|done] end.
    rewrite M_bind_eq. destruct (initiate_replication w1) as [[u2 w2]|]; [|done].
    by intros [= <- <-].
  - intros [= <- <-]. by apply nil_length_inv.
Qed.

Lemma push_responders_clients ids txs q :
  length ids = length txs →
  (responders (push_responders ids txs q)).*2 = (responders q).*2 ++ omap id txs.
Proof.
  unfold push_responders. revert txs q. induction ids as [|i ids IH]; intros [|tx txs] q Hl; try done.
  { by rewrite app_nil_r. }
  cbn [zip zip_with foldl]. cbn in Hl. injection Hl as Hl. rewrite IH by done.
  destruct tx as [tx|]; [|done]. cbn. by rewrite fmap_app, <- (assoc_L (++)).
Qed.

Lemma lease_check_engine w b w' :
  LeaderHandler_is_lease_valid w = Ret (b, w') → w_engine w' = w_engine w.
Proof.
  unfold LeaderHandler_is_lease_valid. m_steps. unfold the_leader.
  destruct (Engine_leader (w_engine w)) as [l|]; [|done]. m_steps.
  cbn [now]. unfold lift. destruct (is_lease_valid l _ _); [|done]. by intros [= <- <-].
Qed.
#[local] Instance writable_keeps_engine : KRel (kept core_engine) ensure_writable_leader_handler.
Proof.
  unfold ensure_writable_leader_handler, ensure_leader_handler. krel.
  apply krel_on_engine. intros c b w. apply lease_check_engine.
Qed.

Lemma lets_in_write_entries payloads txs c :
  length txs = length payloads → log_room c (length payloads) →
  lets_in (omap id txs) [] (write_entries payloads txs) c.
Proof.
  intros Hl Hroom. unfold write_entries. apply lets_in_before; [apply _|]. intros r c1 Hr.
  apply writable_keeps_engine in Hr as Hkept. unfold log_room in Hroom. rewrite <- Hkept in Hroom.
  destruct r as [l|forward].
  - intros a c'. rewrite K_bind_eq, on_engine_eq.
    destruct (leader_append_entries payloads (core_world c1)) as [[assigned w]|] eqn:E; [|done].
    apply leader_append_entries_ids in E; [|exact Hroom].
    destruct assigned as [ids|].
    + rewrite K_bind_eq, kmodify_eq. intros [= <- <-].
      unfold moves, write_clients, read_clients. client_fields.
      cbn [core_trace core_client_responders core_pending_reads set_world].
      rewrite push_responders_clients by congruence. split; [|done].
      rewrite (Permutation_app_comm _ (omap id txs)).
      by rewrite <- !(Permutation_app_swap_app (omap id txs)).
    + intros [= <- <-]. subst. destruct txs; [|done]. by apply moves_view.
  - apply lets_in_after; [|apply _]. apply lets_in_fail_writes.
Qed.

(** A write of one entry after checks. *)
Lemma lets_in_write_one payload tx c :
  log_room c 1 → lets_in [tx] [] (write_entries [payload] [Some tx];; mret tt) c.
Proof. intros Hr. apply lets_in_after; [|apply _]. by apply (lets_in_write_entries [payload] [Some tx]). Qed.

Lemma log_room_kept c c1 n : kept core_engine c c1 → log_room c n → log_room c1 n.
Proof. unfold kept, log_room. by intros ->. Qed.

Lemma lets_in_change_membership changes retain preconditions payloads tx c :
  log_room c 1 →
  lets_in [tx] [] (RaftCore_change_membership changes retain preconditions payloads tx) c.
Proof.
  intros Hr. unfold RaftCore_change_membership. apply lets_in_before; [apply _|].
  intros r c1 [= <- <-]. destruct (match try_leader_handler _ with Ok l => _ | Err f => _ end);
    [|apply lets_in_fail_writes].
  apply lets_in_before; [apply _|]. intros ? ? [= <- <-].
  destruct (ensure_preconditions_satisfied _ _); [|apply lets_in_fail_writes].
  apply lets_in_before; [apply _|]. intros res c1. rewrite klift_eq.
  destruct (apply_membership_to_payload _ _ _ _) as [x|]; [|done]. intros [= -> <-].
  destruct res as [[payload unused]|e]; [|apply lets_in_fail_writes].
  apply lets_in_before; [destruct unused as [[]|]; apply _|]. intros u c1 Hu.
  apply lets_in_write_one. eapply log_room_kept; [|exact Hr].
  destruct unused as [[]|]; by injection Hu as <- <-.
Qed.

Lemma lets_in_append_membership payload preconditions tx c :
  log_room c 1 → lets_in [tx] [] (RaftCore_append_membership payload preconditions tx) c.
Proof.
  intros Hr. unfold RaftCore_append_membership. apply lets_in_before; [apply _|]. intros r c1 Hc1.
  apply writable_keeps_engine in Hc1. eapply log_room_kept in Hr; [|exact Hc1].
  destruct r as [l|forward]; [|apply lets_in_fail_writes].
  apply lets_in_before; [apply _|]. intros ? ? [= <- <-].
  destruct (ensure_preconditions_satisfied _ _); [|apply lets_in_fail_writes].
  destruct (ensure_leader_log_committed _ _); [|apply lets_in_fail_writes].
  apply lets_in_before; [apply _|]. intros m c2. rewrite klift_eq.
  destruct (unwrap _) as [x|]; [|done]. intros [= -> <-].
  destruct (validate_append_membership _ _); [|apply lets_in_fail_writes].
  by apply lets_in_write_one.
Qed.

Lemma lets_in_read tx r c : lets_in [] [tx] (out (Output_Read tx r)) c.
Proof. intros a c' [= <- <-]. apply moves_read. Qed.

Lemma moves_push t r q q' c c' :
  PendingReadQueue_push q t r = Ret q' → (next_sequence q + 1 < u64_modulus)%N →
  core_pending_reads c = q → core_pending_reads c' = q' →
  write_clients c' = write_clients c → answered_reads (core_trace c') = answered_reads (core_trace c) →
  moves [] [PendingRead_response_tx r] c c'.
Proof.
  intros Hp Hn Hq Hq' Hw Ha. unfold moves, read_clients. rewrite Hw, Ha, Hq, Hq'. split; [done|].
  intros Hwf. destruct (push_wf q t r Hwf Hn) as (q1 & Hp1 & Hwf1 & _ & Hperm).
  rewrite Hp in Hp1. injection Hp1 as <-. split; [done|]. unfold waiting.
  rewrite Hperm. cbn. by rewrite Permutation_middle.
Qed.

Lemma lets_in_get_linearizer o tx c :
  (next_sequence (core_pending_reads c) + 1 < u64_modulus)%N →
  lets_in [] [tx] (handle_get_linearizer o tx) c.
Proof.
  intros Hn. unfold handle_get_linearizer. apply lets_in_before; [apply _|]. intros t c1 Hc1.
  assert (core_pending_reads c1 = core_pending_reads c) as Hq by (by injection Hc1 as <- <-).
  rewrite <- Hq in Hn. clear Hq Hc1 c.
  apply lets_in_before; [apply _|]. intros ? ? [= <- <-].
  apply lets_in_before; [apply _|]. intros r ? [= <- <-].
  destruct (match try_leader_handler _ with Ok l => _ | Err f => _ end) as [l|]; [|apply lets_in_read].
  apply lets_in_before; [apply _|]. intros read_log_id c2. rewrite on_engine_eq.
  destruct (get_read_log_id _) as [[x w]|]; [|done]. intros [= <- <-].
  apply lets_in_before; [apply _|]. intros self_quorum c3. rewrite klift_eq.
  destruct (is_self_quorum l) as [sq|]; [|done]. intros [= -> <-].
  destruct self_quorum; [apply lets_in_read|].
  destruct (match last_quorum_acked_time l with Some a => _ | None => false end); [apply lets_in_read|].
  apply lets_in_before; [apply _|]. intros min_acked c4. rewrite klift_eq.
  destruct (instant_sub _ _) as [y|]; [|done]. intros [= -> <-].
  case_decide; [apply lets_in_read|].
  apply lets_in_before; [destruct (heartbeat_if_quorum_ack_stale o); apply _|]. intros u c5 Hc5.
  assert (core_pending_reads c5 = core_pending_reads c1) as Hq5.
  { destruct (heartbeat_if_quorum_ack_stale o); [|by injection Hc5 as <- <-].
    revert Hc5. rewrite on_engine_eq. by destruct (send_heartbeat true _) as [[]|]; [intros [= <- <-]|]. }
  intros u' c'. rewrite K_bind_eq, klift_eq.
  destruct (PendingReadQueue_push _ _ _) as [q|] eqn:Hp; [|done]. intros [= <- <-].
  by eapply (moves_push _ (mkPendingRead _ _ tx)).
Qed.

Lemma lets_in_client_write payloads txs expected c :
  length txs = length payloads → log_room c (length payloads) →
  lets_in (omap id txs) [] (handle_client_write payloads txs expected) c.
Proof.
  intros Hl Hr. unfold handle_client_write. apply lets_in_before; [apply _|]. intros ? ? [= <- <-].
  destruct (match expected with Some e => _ | None => true end); [|apply lets_in_fail_writes].
  apply lets_in_after; [|apply _]. by apply lets_in_write_entries.
Qed.

Lemma lets_in_api_msg msg c : fits msg c → lets_in (writers msg) (readers msg) (handle_api_msg msg) c.
Proof.
  intros Hf. destruct msg; cbn in Hf |- *; try (apply lets_in_conserved; krel; apply _).
  - destruct Hf. by apply lets_in_client_write.
  - by apply lets_in_get_linearizer.
  - by apply lets_in_change_membership.
  - by apply lets_in_append_membership.
Qed.

(** ** Runs of a node *)

(** The steps of the runtime: a message, a notification, a snapshot, the
    routine actions at the end of an iteration, or the queued commands.  A
    storage error ends a node, so only the last step may have one. *)
Inductive core_step : RaftCore → list Sender → list Sender → RaftCore → Prop :=
| core_step_msg msg c c' :
    fits msg c → handle_api_msg msg c = Ret (Ok tt, c') → core_step c (writers msg) (readers msg) c'
| core_step_notification n c r c' :
    handle_notification n c = Ret (r, c') → core_step c [] [] c'
| core_step_snapshot vote snapshot tx c r c' :
    handle_install_full_snapshot_request vote snapshot tx c = Ret (r, c') → core_step c [] [] c'
| core_step_routine c r c' :
    trigger_routine_actions c = Ret (r, c') → core_step c [] [] c'
| core_step_commands c r c' :
    run_engine_commands c = Ret (r, c') → core_step c [] [] c'.

Inductive core_run (c : RaftCore) : list Sender → list Sender → RaftCore → Prop :=
| core_run_nil : core_run c [] [] c
| core_run_snoc W R c1 W' R' c2 :
    core_run c W R c1 → core_step c1 W' R' c2 → core_run c (W' ++ W) (R' ++ R) c2.

Lemma core_step_moves c W R c' : core_step c W R c' → moves W R c c'.
Proof.
  destruct 1 as [msg c c' Hf Hm|n c r c' Hm|vote snapshot tx c r c' Hm|c r c' Hm|c r c' Hm].
  - by eapply lets_in_api_msg.
  - by apply conserves_notification in Hm.
  - apply moves_view. by apply frame_install_snapshot in Hm.
  - by apply conserves_routine in Hm.
  - by apply conserves_engine_commands in Hm.
Qed.

(** C10: whatever messages, notifications, snapshots and commands a node
    handles, and in whatever order, every client that asked for a write is in
    exactly one place: told that the write failed, told that it is committed
    when the log is handed to the state machine, or waiting for its log index;
    and every client that asked for a linearizable read is answered or waits in
    the queue of reads, whose two indexes agree.  Nobody is lost and nobody is
    answered twice. *)
Theorem clients_answered_once config rt w W R c :
  core_run (RaftCore_new config rt w) W R c →
  failed_writes (core_trace c) ++ committed_writes (core_trace c) ++
    (responders (core_client_responders c)).*2 ≡ₚ W ∧
  answered_reads (core_trace c) ++ waiting (core_pending_reads c) ≡ₚ R ∧
  queue_wf (core_pending_reads c).
Proof.
  intros Hrun. assert (moves W R (RaftCore_new config rt w) c) as [Hw Hr].
  { induction Hrun as [|W R c1 W' R' c2 _ IH Hstep]; [by apply moves_view|].
    eapply moves_trans; [exact IH|by apply core_step_moves]. }
  destruct (Hr queue_wf_default) as [Hq Hp]. unfold write_clients, read_clients in *.
  rewrite Hw, Hp. cbn. by rewrite !app_nil_r.
Qed.
End clients.

(** ** Witnesses *)

Module CoreClientsWitness.
#[local] Existing Instance std_config.
Import CoreWitness.

Lemma msg_step W R msg c :
  core_run node1 W R c → fits msg c → succeeds (handle_api_msg msg) c = true →
  core_run node1 (writers msg ++ W) (readers msg ++ R) (after (handle_api_msg msg) c).
Proof. intros Hrun Hf Hs%after_succeeds. eapply core_run_snoc; [exact Hrun|by constructor]. Defined.
Lemma notification_step W R n c :
  core_run node1 W R c → succeeds (handle_notification n) c = true →
  core_run node1 W R (after (handle_notification n) c).
Proof.
  intros Hrun Hs%after_succeeds. eapply (core_run_snoc _ _ _ _ [] []); [exact Hrun|].
  by eapply core_step_notification.
Defined.
Lemma commands_step W R c :
  core_run node1 W R c → succeeds run_engine_commands c = true →
  core_run node1 W R (after run_engine_commands c).
Proof.
  intros Hrun Hs%after_succeeds. eapply (core_run_snoc _ _ _ _ [] []); [exact Hrun|].
  by eapply core_step_commands.
Defined.

Definition has_room (c : RaftCore) (n : nat) : bool :=
  match Engine_leader (core_engine c) with
  | Some l => bool_decide (next_index (Leader_last_log_id l) + N.of_nat n < u64_modulus)%N
  | None => true
  end.
Lemma has_room_spec c n : has_room c n = true → log_room c n.
Proof. unfold has_room. intros Hb l Hl. rewrite Hl in Hb. by apply bool_decide_eq_true in Hb. Qed.

Lemma run12 : core_run node1 [11; 12]%N [21]%N node12.
Proof.
  unfold node12. apply commands_step; [|vm_compute; reflexivity].
  unfold node11. apply notification_step; [|vm_compute; reflexivity].
  unfold node10. apply commands_step; [|vm_compute; reflexivity].
  unfold node9. apply (msg_step [11; 12]%N [] read1); [|vm_compute; reflexivity|vm_compute; reflexivity].
  unfold node8. apply (msg_step [] [] write2); [|split; [reflexivity|]|vm_compute; reflexivity].
  - unfold node7. apply commands_step; [|vm_compute; reflexivity].
    unfold node6. apply notification_step; [|vm_compute; reflexivity].
    unfold node5. apply commands_step; [|vm_compute; reflexivity].
    unfold node4. apply notification_step; [|vm_compute; reflexivity].
    unfold node3. apply commands_step; [|vm_compute; reflexivity].
    unfold node2. apply (msg_step [] [] initialize1); [constructor|exact I|vm_compute; reflexivity].
  - apply has_room_spec. vm_compute. reflexivity.
Qed.

Lemma clients_answered_once_witness :
  failed_writes (core_trace node12) ++ committed_writes (core_trace node12) ++
    (responders (core_client_responders node12)).*2 ≡ₚ [11; 12]%N ∧
  answered_reads (core_trace node12) ++ waiting (core_pending_reads node12) ≡ₚ [21]%N ∧
  queue_wf (core_pending_reads node12).
Proof. exact (clients_answered_once _ _ _ _ _ _ run12). Defined.
End CoreClientsWitness.
