(* ===== verification/CoreSafety.v ===== *)
(** * The command loop: completeness and the order of stored votes

    Executing a command leaves the queue of commands alone and moves no
    flushed cursor.  From this: the loop ends only when the queue is empty or
    its first command has to wait, and the votes handed to the store rise. *)

From S2P Require Import Prelude Vote LogId LogIdList Quorum Membership VecProgress IOState.
From S2P Require Import MembershipState Entry RaftState Config ProgressEntry Proposer Command.
From S2P Require Import Engine Replication Following LeaderHandler VoteHandler EngineImpl.
From S2P Require Import VoteSafety Cluster ReadQueue CoreHelpers Wire Core CoreHandlers CoreRun CoreLogic.

Section execute.
Context {C : RaftTypeConfig} `{!Env, !StoreEnv}.
Implicit Types (c : RaftCore).

(** What no command touches. *)
Definition queue_view c :=
  (Engine_output (core_engine c), local_vote (core_engine c),
   IOProgress_flushed (log_progress (core_state c)),
   IOProgress_flushed (IOState_snapshot (RaftState_io_state (core_state c)))).
Local Notation idle m := (KRel (kept queue_view) m).

#[local] Instance idle_out o : idle (out o).
Proof. by apply krel_modify. Qed.
#[local] Instance idle_storage o : idle (storage o).
Proof. by apply krel_storage. Qed.
#[local] Instance idle_emit os : idle (kmodify (emit os)).
Proof. by apply krel_modify. Qed.
#[local] Instance idle_responders q : idle (kmodify (λ c, set_client_responders c q)).
Proof. by apply krel_modify. Qed.
#[local] Instance idle_accepted io : idle (broadcast_accepted io).
Proof. apply krel_modify. intros c. by destruct (pgtb _ _). Qed.
#[local] Instance idle_committed x : idle (broadcast_committed x).
Proof. apply krel_modify. intros c. by destruct (_ >? _). Qed.
#[local] Instance idle_now : idle (on_engine now).
Proof. apply krel_on_engine. by intros c a w [= <- <-]. Qed.
#[local] Instance idle_submit_log io : idle (on_engine (update_log_progress (λ p, IOProgress_submit p io))).
Proof. apply krel_on_engine. by intros c a w [= <- <-]. Qed.
#[local] Instance idle_submit_apply x : idle (on_engine (update_apply_progress (λ p, IOProgress_submit p x))).
Proof. apply krel_on_engine. by intros c a w [= <- <-]. Qed.
#[local] Instance idle_submit_snapshot x :
  idle (on_engine (update_snapshot_progress (λ p, IOProgress_submit p x))).
Proof. apply krel_on_engine. by intros c a w [= <- <-]. Qed.
#[local] Instance idle_purged x : idle (on_engine (update_io_state (λ io, IOState_update_purged io x))).
Proof. apply krel_on_engine. by intros c a w [= <- <-]. Qed.
#[local] Instance idle_fail_writes txs e : idle (fail_writes txs e).
Proof. by apply krel_modify. Qed.
#[local] Instance idle_send_reads q sent : idle (send_reads q sent).
Proof. by apply krel_modify. Qed.
#[local] Instance idle_reschedule : idle reschedule_pending_read_check.
Proof. by apply krel_modify. Qed.
#[local] Instance idle_broadcast_targets : idle broadcast_targets.
Proof. unfold broadcast_targets. krel. Qed.
#[local] Instance idle_broadcast events : idle (broadcast events).
Proof.
  induction events as [|[target event] events IH]; cbn [broadcast]; [apply _|].
  krel. by apply krel_modify.
Qed.
#[local] Instance idle_apply first last : idle (apply_to_state_machine first last).
Proof.
  unfold apply_to_state_machine. krel_step; [apply _|]. intros c.
  destruct (drain_upto _ _). krel.
Qed.
#[local] Instance idle_execute cmd : idle (execute cmd).
Proof.
  destruct cmd; cbn [execute];
    unfold run_update_io_progress, run_append_entries, run_save_vote, run_purge_log, run_truncate_log,
      spawn_parallel_vote_requests, broadcast_transfer_leader, broadcast_heartbeat, run_replicate,
      run_replicate_snapshot, run_close_replication_streams, fail_pending_reads,
      run_rebuild_replication_streams, run_state_machine, run_save_committed_and_apply, fail_responders;
    repeat first [krel_step | progress cbn [drain_upto drain_from drain_all_with_error]];
    apply krel_modify; intros c; try done.
  by destruct (rebuild_streams _ _ _ _ _ _) as [[??]?].
Qed.

Lemma execute_idle cmd c r c' : execute cmd c = Ret (r, c') → queue_view c' = queue_view c.
Proof. apply idle_execute. Qed.

(** ** One step of the loop *)

(** The first command has to wait for the disk or the state machine. *)
Definition blocked c : Prop :=
  match commands (core_engine c) with
  | [] => True
  | cmd :: _ =>
      match Command_condition cmd with
      | Some condition => Condition_is_met condition (RaftState_io_state (core_state c)) = false
      | None => False
      end
  end.

Definition command_due c cmd : bool :=
  match Command_condition cmd with
  | Some condition => Condition_is_met condition (RaftState_io_state (core_state c))
  | None => true
  end.

Lemma condition_view condition c c' :
  queue_view c' = queue_view c →
  Condition_is_met condition (RaftState_io_state (core_state c')) =
  Condition_is_met condition (RaftState_io_state (core_state c)).
Proof.
  unfold queue_view, log_progress. injection 1 as _ _ Hl Hs.
  unfold Condition_is_met. by rewrite Hl, Hs.
Qed.

(** The queue after batching, without its first command. *)
Definition take_front c (rest : list Command) : RaftCore :=
  set_world c (mkWorld (set_output (core_engine c)
    (mkEngineOutput rest (EngineOutput_pending_responds (Engine_output (core_engine c)))))
    (w_clock_reads (core_world c)) (w_random_draws (core_world c))).
Definition batched c : list Command :=
  merge_front_append_entries (get_max_append_entries (core_config c)) (commands (core_engine c)).

(** A step with an empty queue ends the loop; a command that is due is
    executed; a respond that has to wait moves to the pending responds; any
    other command stays in front and ends the loop. *)
Lemma command_step_eq c :
  command_step c =
  match batched c with
  | [] => Ret (Ok false, take_front c [])
  | cmd :: rest =>
      if command_due c cmd then (execute cmd;; mret true) (take_front c rest)
      else match postpone_command (Engine_output (core_engine (take_front c rest))) cmd with
           | Ret (output, go_on) =>
               Ret (Ok go_on, set_world c (mkWorld (set_output (core_engine c) output)
                 (w_clock_reads (core_world c)) (w_random_draws (core_world c))))
           | Panic => Panic
           end
  end.
Proof.
  unfold command_step. rewrite K_bind_eq, kget_eq. unfold sched_commands, pop_command.
  cbn [EngineOutput_commands EngineOutput_pending_responds].
  change (merge_front_append_entries _ _) with (batched c).
  destruct (batched c) as [|cmd rest]; [done|].
  rewrite K_bind_eq, on_engine_eq, modify_eq, K_bind_eq. cbn [w_engine].
  match goal with |- context [set_world c ?w] => change (set_world c w) with (take_front c rest) end.
  unfold RaftCore_run_command. rewrite K_bind_eq, kget_eq.
  change (match Command_condition cmd with Some _ => _ | None => true end) with (command_due c cmd).
  destruct (command_due c cmd).
  - rewrite !K_bind_eq. by destruct (execute cmd _) as [[[[]|e] c1]|].
  - cbn [mret K_ret]. rewrite K_bind_eq, kget_eq, K_bind_eq, klift_eq.
    by destruct (postpone_command _ cmd) as [[output go_on]|].
Qed.

(** ** The loop *)

Lemma merge_loop_length max_entries vote entries q :
  length (merge_loop max_entries vote entries q).2 ≤ length q.
Proof.
  revert entries. induction q as [|cmd q IH]; intros entries; [done|]. cbn.
  destruct cmd; try done. destruct (_ && _); [|done]. by etrans; [apply IH|lia].
Qed.
Lemma batched_length c : length (batched c) ≤ length (commands (core_engine c)).
Proof.
  unfold batched. destruct (commands (core_engine c)) as [|[] q]; cbn; try done.
  pose proof (merge_loop_length (get_max_append_entries (core_config c)) committed_vote entries q).
  destruct (merge_loop _ _ _ _). cbn in *. lia.
Qed.

Lemma postpone_spec output cmd output' go_on :
  postpone_command output cmd = Ret (output', go_on) →
  EngineOutput_commands output' =
    (if go_on then EngineOutput_commands output else cmd :: EngineOutput_commands output).
Proof. destruct cmd as [| | | | | | | | | | | | | | | | |[[]|]]; by intros [= <- <-]. Qed.

Lemma view_commands c c' : queue_view c' = queue_view c → commands (core_engine c') = commands (core_engine c).
Proof. unfold commands. by injection 1 as -> _ _ _. Qed.

Lemma command_step_spec c (go_on : bool) c' :
  command_step c = Ret (Ok go_on, c') →
  if go_on then length (commands (core_engine c')) < length (commands (core_engine c)) else blocked c'.
Proof.
  rewrite command_step_eq. pose proof (batched_length c) as Hlen.
  destruct (batched c) as [|cmd rest]; [by intros [= <- <-]|]. cbn in Hlen.
  destruct (command_due c cmd) eqn:Hdue.
  - rewrite K_bind_eq. destruct (execute cmd _) as [[[[]|e] c1]|] eqn:E; [|done|done].
    intros [= <- <-]. apply execute_idle, view_commands in E. rewrite E. done.
  - destruct (postpone_command _ cmd) as [[output b]|] eqn:E; [|done]. intros [= <- <-].
    apply postpone_spec in E. unfold blocked, commands. cbn. rewrite E.
    destruct b; cbn; [done|]. unfold command_due in Hdue. by destruct (Command_condition cmd).
Qed.

Lemma command_loop_complete fuel c c' :
  length (commands (core_engine c)) < fuel → command_loop fuel c = Ret (Ok tt, c') → blocked c'.
Proof.
  revert c. induction fuel as [|fuel IH]; intros c Hf; [lia|]. cbn [command_loop]. rewrite K_bind_eq.
  destruct (command_step c) as [[[go_on|e] c1]|] eqn:E; [|done|done].
  apply command_step_spec in E. destruct go_on; [apply IH; lia|]. by intros [= <-].
Qed.
Lemma command_loop_enough fuel n c :
  length (commands (core_engine c)) < fuel → command_loop (fuel + n) c = command_loop fuel c.
Proof.
  revert c. induction fuel as [|fuel IH]; intros c Hf; [lia|]. cbn [command_loop Nat.add].
  rewrite !K_bind_eq. destruct (command_step c) as [[[go_on|e] c1]|] eqn:E; [|done|done].
  apply command_step_spec in E. destruct go_on; [apply IH; lia|done].
Qed.

(** ** Progress-driven commands *)

Definition io_view c := RaftState_io_state (core_state c).

#[local] Instance io_apply first last : KRel (kept io_view) (apply_to_state_machine first last).
Proof.
  unfold apply_to_state_machine. krel_step; [apply _|]. intros c.
  destruct (drain_upto _ _). krel; first [by apply krel_modify|by apply krel_storage].
Qed.

Lemma apply_submits already upto c r c' :
  execute (Command_SaveCommittedAndApply already upto) c = Ret (r, c') →
  io_view c' = set_apply_progress (io_view c) (IOProgress_submit (IOState_apply_progress (io_view c)) upto).
Proof.
  cbn [execute]. unfold run_save_committed_and_apply.
  rewrite K_bind_eq, on_engine_eq. unfold update_apply_progress, update_io_state. rewrite modify_eq.
  set (c1 := set_world c _). change (set_apply_progress _ _) with (io_view c1). intros Hr.
  match type of Hr with ?m c1 = _ =>
    assert (KRel (kept io_view) m) as Hk; [|exact (Hk _ _ _ Hr)] end.
  krel; by apply krel_storage.
Qed.

Lemma next_progress_cases e :
  next_progress_driven_command e = Ret None ∨
  ∃ upto, next_progress_driven_command e =
    Ret (Some (Command_SaveCommittedAndApply (IOProgress_submitted (apply_progress (Engine_state e))) upto)) ∧
    omin (io_id ← IOProgress_submitted (log_progress (Engine_state e)); IOId_last_log_id io_id)
      (IOProgress_accepted (apply_progress (Engine_state e))) = Some upto.
Proof.
  unfold next_progress_driven_command. destruct (decide _); [|by left].
  destruct (_ <? _) eqn:Hlt; [right|by left].
  destruct (omin _ _) as [upto|] eqn:E; [by exists upto|].
  cbn in Hlt. by destruct (next_index _).
Qed.

(** After a progress-driven command nothing is left to apply. *)
Lemma progress_once c cmd r c' :
  next_progress_driven_command (core_engine c) = Ret (Some cmd) →
  RaftCore_run_command cmd c = Ret (Ok r, c') →
  next_progress_driven_command (core_engine c') = Ret None ∧ queue_view c' = queue_view c.
Proof.
  intros Hnext. destruct (next_progress_cases (core_engine c)) as [Hn|(upto & Hn & Hupto)];
    rewrite Hn in Hnext; [done|]. injection Hnext as <-.
  unfold RaftCore_run_command. rewrite K_bind_eq, kget_eq. cbn [Command_condition]. rewrite K_bind_eq.
  destruct (execute _ c) as [[[[]|e] c1]|] eqn:E; [|done|done]. intros [= <- <-].
  apply execute_idle in E as Hidle. split; [|done]. apply apply_submits in E. unfold io_view in E.
  unfold next_progress_driven_command, apply_progress, log_progress in *.
  change (Engine_state (core_engine ?x)) with (core_state x) in *. rewrite E. cbn.
  destruct (decide _); [|done]. rewrite Hupto. cbn.
  destruct (ltb_spec (u64_add (LogId_index upto) 1) (u64_add (LogId_index upto) 1)) as [Hlt|]; [|done].
  by apply ord_lt_irrefl in Hlt.
Qed.

Lemma progress_loop_enough n c : progress_driven_loop (2 + n) c = progress_driven_loop 2 c.
Proof.
  cbn [progress_driven_loop Nat.add]. rewrite !K_bind_eq, !kget_eq, !K_bind_eq, !klift_eq.
  destruct (next_progress_driven_command _) as [[cmd|]|] eqn:E; [|done|done].
  rewrite !K_bind_eq. destruct (RaftCore_run_command cmd c) as [[[r|e] c1]|] eqn:Hrun; [|done|done].
  destruct (progress_once _ _ _ _ E Hrun) as [Hn _].
  by rewrite !K_bind_eq, !kget_eq, !K_bind_eq, !klift_eq, Hn.
Qed.
Lemma progress_loop_complete c c' :
  progress_driven_loop 2 c = Ret (Ok tt, c') →
  next_progress_driven_command (core_engine c') = Ret None ∧ queue_view c' = queue_view c.
Proof.
  cbn [progress_driven_loop]. rewrite K_bind_eq, kget_eq, K_bind_eq, klift_eq.
  destruct (next_progress_driven_command _) as [[cmd|]|] eqn:E; [|by intros [= <-]|done].
  rewrite K_bind_eq. destruct (RaftCore_run_command cmd c) as [[[r|e] c1]|] eqn:Hrun; [|done|done].
  destruct (progress_once _ _ _ _ E Hrun) as [Hn Hv].
  rewrite K_bind_eq, kget_eq, K_bind_eq, klift_eq, Hn. by intros [= <-].
Qed.

Lemma blocked_view c c' : queue_view c' = queue_view c → blocked c → blocked c'.
Proof.
  intros Hv. unfold blocked. rewrite (view_commands c c' Hv).
  destruct (commands _) as [|cmd q]; [done|]. destruct (Command_condition cmd) as [condition|]; [|done].
  by rewrite (condition_view condition c c' Hv).
Qed.

(** C30: running the queued commands ends, and only when nothing more can be
    done: the queue is empty or its first command waits for a flush or a
    snapshot that has not happened, and no log that is committed and submitted
    is left to hand to the state machine.  The number of queued commands
    bounds the iterations of the first loop and two those of the second: more
    of them change nothing, whether the run ends well, with a storage error or
    in a panic. *)
Theorem command_loop_ends c n :
  command_loop (S (length (commands (core_engine c))) + n) c =
    command_loop (S (length (commands (core_engine c)))) c ∧
  progress_driven_loop (2 + n) c = run_progress_driven_command c ∧
  ∀ c', run_engine_commands c = Ret (Ok tt, c') →
    blocked c' ∧ next_progress_driven_command (core_engine c') = Ret None.
Proof.
  split; [apply command_loop_enough; lia|]. split; [apply progress_loop_enough|].
  intros c'. unfold run_engine_commands. rewrite K_bind_eq.
  destruct (send_satisfied_responds c) as [[[[]|e] c1]|]; [|done|done].
  rewrite K_bind_eq, kget_eq, K_bind_eq.
  destruct (command_loop _ c1) as [[[[]|e] c2]|] eqn:E; [|done|done].
  apply command_loop_complete in E; [|lia]. intros [Hn Hv]%progress_loop_complete.
  split; [|done]. by eapply blocked_view.
Qed.
End execute.

(** ** Witnesses *)

Module CoreSafetyWitness.
#[local] Existing Instance std_config.
Import CoreWitness.

Lemma command_loop_ends_witness :
  blocked node12 ∧ next_progress_driven_command (core_engine node12) = Ret None.
Proof.
  destruct (command_loop_ends node11 0) as (_ & _ & H). apply H.
  apply after_succeeds. vm_compute. reflexivity.
Defined.
End CoreSafetyWitness.
