(* ===== verification/CoreVotes.v ===== *)
(** * The votes on disk

    The votes that the runtime hands to the log store are those that the
    engine asked to save, in the same order: the vote on disk rises and never
    passes the vote in memory.  Votes of term 0 are not compared: no node has
    been elected with one, and an initialization puts the own vote of the node
    in the place of any of them. *)

From S2P Require Import Prelude Vote LogId LogIdList Quorum Membership VecProgress IOState.
From S2P Require Import MembershipState Entry RaftState Config ProgressEntry Proposer Command.
From S2P Require Import Engine Replication Following LeaderHandler VoteHandler EngineImpl.
From S2P Require Import VoteSafety Cluster ReadQueue CoreHelpers Wire Core CoreHandlers CoreRun CoreLogic CoreSafety.

(** A function on engines that leaves votes alone. *)
Ltac frame_votes :=
  intros ?; unfold saved_votes, local_vote, commands; cbn; rewrite ?omap_app; cbn;
  rewrite ?app_nil_r; repeat case_match; cbn; rewrite ?omap_app; cbn; rewrite ?app_nil_r; done.
#[local] Hint Extern 5 (VoteFrame _) => frame_votes : typeclass_instances.

Section votes.
Context {C : RaftTypeConfig} `{!Env, !StoreEnv} `{!RaftLeaderIdLaws C}.
Implicit Types (c : RaftCore) (vs : list Vote).

(** The votes given to the store, and those that follow in the queue. *)
Definition votes_of (os : list Output) : list Vote :=
  omap (λ o, match o with Output_SaveVote v => Some v | _ => None end) os.
Definition written_votes c : list Vote := votes_of (core_trace c).
Definition all_votes c : list Vote := written_votes c ++ saved_votes (core_engine c).

(** [w] may follow the vote [v] of a node. *)
Definition vote_le0 (v w : Vote) : Prop := pleb v w = true ∨ Vote_term v = 0%N ∧ Vote_term w = 0%N.

(** [vs] climbs from [a] to [b]. *)
Fixpoint climbs (a : Vote) vs (b : Vote) : Prop :=
  match vs with
  | [] => vote_le0 a b
  | v :: vs => vote_le0 a v ∧ climbs v vs b
  end.

#[global] Instance vote_le0_preorder : PreOrder vote_le0.
Proof.
  split; [intros v; left; apply pleb_refl|]. intros u v w [Huv|[Hu Hv]] [Hvw|[Hv' Hw]].
  - left. by eapply pleb_trans.
  - right. apply Vote_lt_term_le in Huv. split; [lia|done].
  - destruct (decide (Vote_term w = 0%N)); [by right|]. left. apply pltb_pleb, Vote_term_lt. lia.
  - by right.
Qed.

Lemma climbs_app a vs b vs' z : climbs a vs b → climbs b vs' z → climbs a (vs ++ vs') z.
Proof.
  revert a. induction vs as [|v vs IH]; intros a; cbn.
  - intros Hab. destruct vs' as [|v' vs']; cbn; [by intros ?; trans b|]. intros [? ?]. split; [by trans b|done].
  - intros [? ?] ?. split; [done|]. by eapply IH.
Qed.

Lemma rising_climbs a vs b : rising a vs b → climbs a vs b.
Proof.
  revert a. induction vs as [|v vs IH]; intros a; cbn; [by left|]. intros [? ?]. split; [by left|by apply IH].
Qed.

Definition core_rise c c' : Prop :=
  ∃ vs, all_votes c' = all_votes c ++ vs ∧
    climbs (local_vote (core_engine c)) vs (local_vote (core_engine c')).

Lemma core_rise_refl c c' :
  all_votes c' = all_votes c → local_vote (core_engine c') = local_vote (core_engine c) → core_rise c c'.
Proof. intros Ha Hl. exists []. rewrite app_nil_r, Hl. split; [done|]. cbn. done. Qed.
#[global] Instance core_rise_preorder : PreOrder core_rise.
Proof.
  split; [intros c; by apply core_rise_refl|].
  intros c1 c2 c3 (v1 & H1 & R1) (v2 & H2 & R2). exists (v1 ++ v2). split.
  - by rewrite H2, H1, (assoc_L (++)).
  - by eapply climbs_app.
Qed.

Local Notation rises m := (KRel core_rise m).

Lemma written_emit os c : written_votes (emit os c) = written_votes c ++ votes_of os.
Proof. unfold written_votes, votes_of. cbn. apply omap_app. Qed.

#[local] Instance rises_on_engine {A} (m : M A) : VoteMono m → rises (on_engine m).
Proof.
  intros Hm. apply krel_on_engine. intros c a w (vs & Hs & Hr)%Hm. exists vs.
  split; [|by apply rising_climbs]. unfold all_votes, core_engine. cbn [core_world set_world].
  by rewrite Hs, (assoc_L (++)).
Qed.
Lemma rises_modify f :
  (∀ c, core_world (f c) = core_world c ∧ written_votes (f c) = written_votes c) → rises (kmodify f).
Proof.
  intros Hf. apply krel_modify. intros c. destruct (Hf c) as [Hw Hv].
  apply core_rise_refl; unfold all_votes, core_engine; by rewrite ?Hv, Hw.
Qed.
Lemma rises_emit os : votes_of os = [] → rises (kmodify (emit os)).
Proof. intros Hos. apply rises_modify. intros c. split; [done|]. by rewrite written_emit, Hos, app_nil_r. Qed.

(** ** The handlers *)

#[local] Instance mono_handle_vote_request req tx : VoteMono (handle_vote_request req tx).
Proof. unfold handle_vote_request. repeat (apply mono_bind; [apply _|intros ?]); apply _. Qed.
#[local] Instance mono_lease_valid : VoteMono LeaderHandler_is_lease_valid.
Proof. unfold LeaderHandler_is_lease_valid. repeat (apply mono_bind; [apply _|intros ?]); apply _. Qed.
#[local] Instance mono_read_log_id : VoteMono get_read_log_id.
Proof. unfold get_read_log_id. repeat (apply mono_bind; [apply _|intros ?]); apply _. Qed.
#[local] Instance mono_refresh : VoteMono refresh_server_state.
Proof. apply (mono_handle Event_RefreshServerState). Qed.
#[local] Instance mono_elect : VoteMono elect.
Proof. apply (mono_handle Event_Elect). Qed.
#[local] Instance mono_transfer_elect : VoteMono elect_by_leadership_transfer.
Proof. apply (mono_handle Event_ElectByLeadershipTransfer). Qed.
#[local] Instance mono_update_io f : VoteMono (update_io_state f).
Proof. apply mono_modify. by intros e. Qed.
#[local] Instance mono_update_log f : VoteMono (update_log_progress f).
Proof. apply mono_update_io. Qed.
#[local] Instance mono_update_apply f : VoteMono (update_apply_progress f).
Proof. apply mono_update_io. Qed.
#[local] Instance mono_update_snapshot f : VoteMono (update_snapshot_progress f).
Proof. apply mono_update_io. Qed.

Lemma rises_out o : votes_of [o] = [] → rises (out o).
Proof. apply rises_emit. Qed.
#[local] Hint Extern 1 (KRel core_rise (out _)) => apply rises_out; reflexivity : typeclass_instances.

#[local] Instance rises_fail_writes txs e : rises (fail_writes txs e).
Proof. apply rises_emit. unfold votes_of. by induction txs. Qed.
#[local] Instance rises_send_reads q sent : rises (send_reads q sent).
Proof.
  apply rises_modify. intros c. split; [done|]. rewrite written_emit.
  replace (votes_of _) with (@nil Vote); [by rewrite app_nil_r|].
  unfold votes_of. by induction sent.
Qed.
#[local] Instance rises_reschedule : rises reschedule_pending_read_check.
Proof. by apply rises_modify. Qed.
#[local] Instance rises_submitted io : rises (broadcast_submitted io).
Proof. apply rises_modify. intros c. by destruct (pgtb _ _). Qed.
#[local] Instance rises_set_responders f : rises (kmodify (λ c, set_client_responders c (f c))).
Proof. by apply rises_modify. Qed.
#[local] Instance rises_set_reads q : rises (kmodify (λ c, set_pending_reads c q)).
Proof. by apply rises_modify. Qed.
#[local] Instance rises_set_tried x : rises (kmodify (λ c, set_snapshot_tried_at c x)).
Proof. by apply rises_modify. Qed.
#[local] Instance rises_clear_transmit target id : rises (clear_snapshot_transmit target id).
Proof. apply rises_modify. intros c. by repeat case_match. Qed.

#[local] Instance rises_ensure_leader : rises ensure_leader_handler.
Proof. unfold ensure_leader_handler. krel. Qed.
#[local] Instance rises_ensure_writable : rises ensure_writable_leader_handler.
Proof. unfold ensure_writable_leader_handler. krel. Qed.
#[local] Instance rises_write_entries payloads txs : rises (write_entries payloads txs).
Proof. unfold write_entries. krel. Qed.
#[local] Instance rises_get_linearizer o tx : rises (handle_get_linearizer o tx).
Proof. unfold handle_get_linearizer. krel. Qed.
#[local] Instance rises_process_reads : rises process_pending_reads.
Proof. unfold process_pending_reads. krel. Qed.
#[local] Instance rises_change_membership changes retain preconditions payloads tx :
  rises (RaftCore_change_membership changes retain preconditions payloads tx).
Proof. unfold RaftCore_change_membership. krel. Qed.
#[local] Instance rises_append_membership payload preconditions tx :
  rises (RaftCore_append_membership payload preconditions tx).
Proof. unfold RaftCore_append_membership. krel. Qed.
#[local] Instance rises_send_heartbeat : rises RaftCore_send_heartbeat.
Proof. unfold RaftCore_send_heartbeat. krel. Qed.
#[local] Instance rises_trigger_snapshot : rises RaftCore_trigger_snapshot.
Proof.
  apply rises_on_engine. intros w a w'. unfold trigger_snapshot.
  destruct (IOState_building_snapshot _); intros [= <- <-]; apply votes_rise_refl; try done.
  unfold saved_votes, commands. cbn. by rewrite omap_app, app_nil_r.
Qed.
#[local] Instance rises_routine : rises trigger_routine_actions.
Proof. unfold trigger_routine_actions. krel. Qed.
#[local] Instance rises_vote_request req tx : rises (RaftCore_handle_vote_request req tx).
Proof. unfold RaftCore_handle_vote_request. krel. Qed.
#[local] Instance rises_pre_vote_request req tx : rises (handle_pre_vote_request req tx).
Proof. unfold handle_pre_vote_request. krel. Qed.
#[local] Instance rises_install_snapshot vote snapshot tx :
  rises (handle_install_full_snapshot_request vote snapshot tx).
Proof. unfold handle_install_full_snapshot_request. krel. Qed.
#[local] Instance rises_external cmd : rises (handle_external_command cmd).
Proof. unfold handle_external_command. krel. Qed.
#[local] Instance rises_transfer from to last : rises (handle_transfer_leader from to last).
Proof. unfold handle_transfer_leader. krel. Qed.
#[local] Instance rises_client_write payloads txs expected :
  rises (handle_client_write payloads txs expected).
Proof. unfold handle_client_write. krel. Qed.
#[local] Instance rises_tick_election : rises handle_tick_election.
Proof. unfold handle_tick_election. krel. Qed.
#[local] Instance rises_tick : rises handle_tick.
Proof. unfold handle_tick. krel. Qed.
#[local] Instance rises_local_io io : rises (handle_local_io io).
Proof. unfold handle_local_io. krel. Qed.
#[local] Instance rises_state_machine_result r : rises (handle_state_machine_result r).
Proof. unfold handle_state_machine_result. krel. Qed.
#[local] Instance rises_notification n : rises (handle_notification n).
Proof. unfold handle_notification. krel. Qed.

#[local] Instance rises_append_entries req tx : rises (handle_append_entries_request req tx).
Proof.
  unfold handle_append_entries_request. krel_step; [apply _|]. intros _ c r c'.
  rewrite K_bind_eq, kget_eq, K_bind_eq, klift_eq.
  destruct (update_committed _ _) as [st|] eqn:E; [|done]. apply update_committed_vote in E.
  intros [= <- <-]. by apply core_rise_refl.
Qed.

(** ** Messages *)

#[local] Instance rises_initialize members : rises (on_engine (Engine_initialize members)).
Proof.
  apply krel_on_engine. intros c r w [Hs Hl]%initialize_votes. exists []. rewrite app_nil_r.
  unfold all_votes, core_engine in *. cbn [core_world set_world]. rewrite Hs. split; [done|]. cbn. rewrite Hl.
  destruct (accepts_initialize _ _) eqn:Ha; [|done]. apply accepts_initialize_fresh in Ha as [_ Hv].
  right. split; [exact Hv|]. unfold initial_vote, Vote_term. cbn. apply LeaderId_term_new.
Qed.
#[local] Instance rises_handle_initialize members tx : rises (handle_initialize members tx).
Proof. unfold handle_initialize. krel. Qed.
#[local] Instance rises_api_msg msg : rises (handle_api_msg msg).
Proof. destruct msg; cbn [handle_api_msg]; krel. Qed.

(** ** Commands *)

(** A command hands its own vote to the store, and no other. *)
Definition vote_of (cmd : Command) : list Vote :=
  match cmd with Command_SaveVote v => [v] | _ => [] end.

Local Notation silent m := (KRel (kept written_votes) m).

Lemma silent_modify f : (∀ c, core_trace (f c) = core_trace c) → silent (kmodify f).
Proof. intros Hf. apply krel_modify. intros c. unfold kept, written_votes. by rewrite Hf. Qed.
Lemma silent_emit os : votes_of os = [] → silent (kmodify (emit os)).
Proof. intros Hos. apply krel_modify. intros c. unfold kept. by rewrite written_emit, Hos, app_nil_r. Qed.
#[local] Instance silent_on_engine {A} (m : M A) : silent (on_engine m).
Proof. by apply krel_on_engine. Qed.
Lemma silent_out o : votes_of [o] = [] → silent (out o).
Proof. apply silent_emit. Qed.
Lemma silent_storage o : votes_of [o] = [] → silent (storage o).
Proof.
  intros Ho. apply krel_storage. intros c. unfold kept.
  change (written_votes (emit [o] c) = written_votes c). by rewrite written_emit, Ho, app_nil_r.
Qed.
#[local] Hint Extern 1 (KRel (kept written_votes) (out _)) =>
  apply silent_out; reflexivity : typeclass_instances.
#[local] Hint Extern 1 (KRel (kept written_votes) (storage _)) =>
  apply silent_storage; reflexivity : typeclass_instances.
#[local] Instance silent_accepted io : silent (broadcast_accepted io).
Proof. apply silent_modify. intros c. by destruct (pgtb _ _). Qed.
#[local] Instance silent_committed x : silent (broadcast_committed x).
Proof. apply silent_modify. intros c. by destruct (_ >? _). Qed.
#[local] Instance silent_responders q : silent (kmodify (λ c, set_client_responders c q)).
Proof. by apply silent_modify. Qed.
#[local] Instance silent_fail_writes txs e : silent (fail_writes txs e).
Proof. apply silent_emit. unfold votes_of. by induction txs. Qed.
#[local] Instance silent_send_reads q sent : silent (send_reads q sent).
Proof.
  apply krel_modify. intros c. unfold kept. rewrite written_emit.
  replace (votes_of _) with (@nil Vote); [by rewrite app_nil_r|]. unfold votes_of. by induction sent.
Qed.
#[local] Instance silent_reschedule : silent reschedule_pending_read_check.
Proof. by apply silent_modify. Qed.
#[local] Instance silent_targets : silent broadcast_targets.
Proof. unfold broadcast_targets. krel. Qed.
#[local] Instance silent_broadcast events : silent (broadcast events).
Proof.
  induction events as [|[target event] events IH]; cbn [broadcast]; [apply _|].
  krel. by apply silent_modify.
Qed.
Lemma commit_outputs_silent st drained os :
  commit_responders st drained = Ret os → votes_of os = [].
Proof.
  revert os. induction drained as [|[index tx] drained IH]; intros os; cbn; [by intros [= <-]|].
  destruct (get_log_id st index); cbn; [|done].
  destruct (commit_responders st drained) as [os'|]; cbn; [|done]. intros [= <-].
  cbn. by apply IH.
Qed.
#[local] Instance silent_apply first last : silent (apply_to_state_machine first last).
Proof.
  unfold apply_to_state_machine. krel_step; [apply _|]. intros c0. destruct (drain_upto _ _) as [q drained].
  krel_step; [apply _|]. intros _ c r c'. rewrite K_bind_eq, klift_eq.
  destruct (commit_responders _ _) as [os|] eqn:E; [|done]. apply commit_outputs_silent in E.
  match goal with |- ?m c = _ → _ => assert (silent m) as Hk; [|exact (Hk c r c')] end.
  krel. by apply silent_emit.
Qed.
Lemma close_all_votes rs : votes_of (close_all rs) = [].
Proof. unfold close_all, votes_of. by induction (bmap_iter rs). Qed.
Lemma rebuild_streams_votes v close_old targets old new os old' new' os' :
  rebuild_streams v close_old targets old new os = (old', new', os') →
  votes_of os = [] → votes_of os' = [].
Proof.
  revert old new os. induction targets as [|prog targets IH]; intros old new os; cbn; [by intros [= <- <- <-]|].
  unfold votes_of in *.
  destruct (old !! _) as [h|]; [destruct close_old|]; intros Hr Hos; eapply IH; try exact Hr; try done;
    by rewrite omap_app, Hos.
Qed.

Lemma execute_votes cmd c r c' :
  execute cmd c = Ret (r, c') → written_votes c' = written_votes c ++ vote_of cmd.
Proof.
  assert (∀ m : K unit, silent m → m c = Ret (r, c') → written_votes c' = written_votes c ++ []) as Hsil.
  { intros m Hm Hc. rewrite app_nil_r. by eapply Hm. }
  destruct cmd; cbn [execute vote_of]; try (apply Hsil;
    unfold run_update_io_progress, run_append_entries, run_purge_log, run_truncate_log,
      spawn_parallel_vote_requests, broadcast_transfer_leader, broadcast_heartbeat, run_replicate,
      run_replicate_snapshot, fail_pending_reads,
      run_state_machine, run_save_committed_and_apply, fail_responders;
    repeat first [krel_step | progress cbn [drain_upto drain_from drain_all_with_error]];
    by apply silent_modify).
  - apply Hsil. unfold run_close_replication_streams. krel_step; [apply _|]. intros c0.
    apply krel_modify. intros c1. unfold kept. by rewrite written_emit, close_all_votes, app_nil_r.
  - apply Hsil. apply krel_modify. intros c1. unfold kept.
    destruct (rebuild_streams _ _ _ _ _ _) as [[unused new] os] eqn:E.
    apply rebuild_streams_votes in E; [|done]. rewrite written_emit.
    unfold votes_of in *. rewrite omap_app, E. fold (votes_of (close_all unused)).
    by rewrite close_all_votes, app_nil_r.
  - unfold run_save_vote. rewrite K_bind_eq. unfold broadcast_accepted at 1. rewrite kmodify_eq.
    set (c1 := if pgtb _ _ then _ else _).
    assert (written_votes c1 = written_votes c) as <- by (unfold c1; by destruct (pgtb _ _)).
    clearbody c1. rewrite K_bind_eq, on_engine_eq. unfold update_log_progress, update_io_state.
    rewrite modify_eq, K_bind_eq. set (c2 := set_world c1 _).
    change (written_votes c1) with (written_votes c2). clearbody c2. unfold storage.
    destruct (storage_error _); [intros [= <- <-]; apply written_emit|]. intros Hrest.
    change [vote] with (votes_of [Output_SaveVote vote]). rewrite <- written_emit.
    match type of Hrest with ?m _ = _ => assert (silent m) as Hk; [|by apply Hk in Hrest] end.
    krel.
Qed.

(** ** The loop *)

Lemma batched_votes c :
  omap (λ cmd, match cmd with Command_SaveVote v => Some v | _ => None end) (batched c) =
  saved_votes (core_engine c).
Proof.
  unfold batched, saved_votes. destruct (commands (core_engine c)) as [|[] q]; try done. cbn.
  assert (∀ q es, omap (λ cmd, match cmd with Command_SaveVote v => Some v | _ => None end)
    (merge_loop (get_max_append_entries (core_config c)) committed_vote es q).2 =
    omap (λ cmd, match cmd with Command_SaveVote v => Some v | _ => None end) q) as Hm.
  { clear. induction q as [|cmd q IH]; intros es; [done|]. cbn.
    destruct cmd; try done. destruct (_ && _); [|done]. cbn. apply IH. }
  specialize (Hm q entries). by destruct (merge_loop _ _ _ _).
Qed.

Lemma step_conserves_votes c r c' :
  command_step c = Ret (r, c') →
  all_votes c' = all_votes c ∧ local_vote (core_engine c') = local_vote (core_engine c).
Proof.
  rewrite command_step_eq. unfold all_votes. rewrite <- (batched_votes c).
  destruct (batched c) as [|cmd rest]; [by intros [= <- <-]|].
  destruct (command_due c cmd).
  - rewrite K_bind_eq. destruct (execute cmd (take_front c rest)) as [[res c1]|] eqn:E; [|done].
    apply execute_votes in E as Hw. apply execute_idle in E. injection E as Ho Hl _ _.
    assert (written_votes c1 ++ saved_votes (core_engine c1) =
      written_votes c ++ omap (λ cmd, match cmd with Command_SaveVote v => Some v | _ => None end) (cmd :: rest)
      ∧ local_vote (core_engine c1) = local_vote (core_engine c)) as Hc.
    { split; [|exact Hl]. rewrite Hw. unfold saved_votes, commands. rewrite Ho. cbn.
      rewrite <- (assoc_L (++)). by destruct cmd. }
    destruct res; by intros [= <- <-].
  - destruct (postpone_command _ cmd) as [[output go_on]|] eqn:E; [|done]. intros [= <- <-].
    split; [|done]. f_equal. unfold saved_votes, commands. cbn.
    destruct cmd as [| | | | | | | | | | | | | | | | |[[]|]]; try discriminate E; by injection E as <- <-.
Qed.
#[local] Instance rises_command_step : rises command_step.
Proof. intros c r c' [Ha Hl]%step_conserves_votes. by apply core_rise_refl. Qed.
#[local] Instance rises_command_loop fuel : rises (command_loop fuel).
Proof. induction fuel; cbn [command_loop]; krel. Qed.
#[local] Instance rises_responds : rises send_satisfied_responds.
Proof.
  unfold send_satisfied_responds. krel_step; [apply _|]. intros c.
  destruct (drain_satisfied _ _) as [p responds].
  krel. apply rises_emit. unfold votes_of. by induction responds.
Qed.
#[local] Instance rises_progress_loop fuel : rises (progress_driven_loop fuel).
Proof.
  induction fuel as [|fuel IH]; cbn [progress_driven_loop]; [apply _|].
  intros c r c'. rewrite K_bind_eq, kget_eq, K_bind_eq, klift_eq.
  destruct (next_progress_cases (core_engine c)) as [Hn|(upto & Hn & _)]; rewrite Hn; [by intros [= <- <-]|].
  match goal with |- ?m c = _ → _ => assert (rises m) as Hk; [|exact (Hk c r c')] end.
  krel_step; [|krel]. unfold RaftCore_run_command. krel.
  intros c1 r1 c1' E. apply execute_votes in E as Hw. apply execute_idle in E. injection E as Ho Hl _ _.
  apply core_rise_refl; [|exact Hl]. unfold all_votes, saved_votes, commands. rewrite Ho, Hw. cbn.
  by rewrite app_nil_r.
Qed.
#[local] Instance rises_engine_commands : rises run_engine_commands.
Proof. unfold run_engine_commands, run_progress_driven_command. krel. Qed.

(** ** Runs of a node *)

Inductive vote_step : RaftCore → RaftCore → Prop :=
| vote_step_msg msg c r c' : handle_api_msg msg c = Ret (r, c') → vote_step c c'
| vote_step_notification n c r c' : handle_notification n c = Ret (r, c') → vote_step c c'
| vote_step_snapshot vote snapshot tx c r c' :
    handle_install_full_snapshot_request vote snapshot tx c = Ret (r, c') → vote_step c c'
| vote_step_routine c r c' : trigger_routine_actions c = Ret (r, c') → vote_step c c'
| vote_step_commands c r c' : run_engine_commands c = Ret (r, c') → vote_step c c'.

Lemma vote_step_rises c c' : vote_step c c' → core_rise c c'.
Proof.
  destruct 1 as [msg c r c' Hm|n c r c' Hm|vote snapshot tx c r c' Hm|c r c' Hm|c r c' Hm].
  - by apply rises_api_msg in Hm.
  - by apply rises_notification in Hm.
  - by apply rises_install_snapshot in Hm.
  - by apply rises_routine in Hm.
  - by apply rises_engine_commands in Hm.
Qed.

(** Whatever messages, notifications, snapshots and commands a node
    handles after its start, the votes it has handed to the log store, then
    those still queued, climb from the vote it started with to the vote it
    holds: the vote on disk never moves back, but for votes of term 0, and
    never passes the vote in memory, through storage errors too. *)
Theorem stored_votes_rise config rt w c :
  commands (w_engine w) = [] → rtc vote_step (RaftCore_new config rt w) c →
  climbs (local_vote (w_engine w)) (written_votes c ++ saved_votes (core_engine c))
    (local_vote (core_engine c)).
Proof.
  intros Hc Hrun. assert (core_rise (RaftCore_new config rt w) c) as (vs & Hvs & Hr).
  { induction Hrun as [|c1 c2 c3 Hs _ IH]; [done|]. trans c2; [by apply vote_step_rises|done]. }
  unfold all_votes at 2, written_votes, saved_votes in Hvs. cbn in Hvs.
  unfold core_engine in Hvs. cbn in Hvs. rewrite Hc in Hvs. cbn in Hvs.
  fold (all_votes c). rewrite Hvs. exact Hr.
Qed.
End votes.

(** ** Witnesses *)

Module CoreVotesWitness.
#[local] Existing Instance std_config.
Import CoreWitness.

Lemma vote_run : rtc vote_step node1 node5.
Proof.
  eapply (rtc_l _ _ node2).
  { eapply (vote_step_msg initialize1).
    apply after_succeeds. vm_compute. reflexivity. }
  eapply (rtc_l _ _ node3).
  { eapply vote_step_commands. apply after_succeeds. vm_compute. reflexivity. }
  eapply (rtc_l _ _ node4).
  { eapply vote_step_notification. apply after_succeeds. vm_compute. reflexivity. }
  apply rtc_once. eapply vote_step_commands. apply after_succeeds. vm_compute. reflexivity.
Qed.

(** The vote of the candidate, then that of the leader. *)
Lemma stored_votes_rise_witness :
  climbs (Vote_new (C := std_config) 0 1) (written_votes node5 ++ saved_votes (core_engine node5))
    (local_vote (core_engine node5)) ∧
  written_votes node5 = [Vote_new (C := std_config) 1 1; Vote_new_committed (C := std_config) 1 1].
Proof.
  split; [|vm_compute; reflexivity].
  apply (stored_votes_rise Config_default (RuntimeConfig_new Config_default)
    (mkWorld (Engine_new (RaftState_new 1) (EngineConfig_new 1 Config_default 200)) 0 0) node5).
  - reflexivity.
  - exact vote_run.
Defined.
End CoreVotesWitness.
