(* ===== verification/CoreReads.v ===== *)
(** * Linearizable reads, elections and initialization in the runtime

    When a read is answered with a position to read at, a quorum has
    acknowledged the leader recently enough; a follower that hears from its
    leader does not campaign; what the answer to an initialization waits for. *)

From S2P Require Import Prelude Vote LogId LogIdList Quorum Membership VecProgress IOState.
From S2P Require Import MembershipState Entry RaftState Config ProgressEntry Proposer Command.
From S2P Require Import Engine Replication Following LeaderHandler VoteHandler EngineImpl.
From S2P Require Import VoteSafety Cluster ReadQueue CoreHelpers Wire Core CoreHandlers CoreRun CoreLogic.

Section reads.
Context {C : RaftTypeConfig} `{!Env, !StoreEnv}.
Implicit Types (c : RaftCore) (l : Leader).

(** A quorum has acknowledged [l] less than [age] before [t]. *)
Definition acknowledged l (t : Instant) (age : Duration) : Prop :=
  is_self_quorum l = Ret true ∨ ∃ acked, last_quorum_acked_time l = Some acked ∧ (t < acked + age)%N.

(** Where a read that starts now may read. *)
Definition read_position c l : Linearizer :=
  Linearizer_new (core_id c) (ReadLogId_new (Leader_noop_log_id l) (local_committed (core_state c)))
    (io_applied (core_state c)).

Definition answered c tx (res : ReadResult) c' : Prop :=
  core_trace c' = core_trace c ++ [Output_Read tx res] ∧ core_pending_reads c' = core_pending_reads c.

Lemma get_read_log_id_eq w l x w' :
  Engine_leader (w_engine w) = Some l → get_read_log_id w = Ret (x, w') →
  x = ReadLogId_new (Leader_noop_log_id l) (local_committed (Engine_state (w_engine w))) ∧ w' = w.
Proof.
  intros Hl. unfold get_read_log_id. m_steps. unfold the_leader. rewrite Hl. by intros [= <- <-].
Qed.

(** A read request is answered in one of five ways: a node that does not
    lead, or that hands its leadership over, names the leader; a leader that a
    quorum has acknowledged recently enough answers at once with the greater
    of its first log and its committed log; otherwise the read fails at once
    if it may not wait, or waits for an acknowledgement later than its start
    less the allowed age, until its timeout. *)
Theorem read_request_spec o tx c r c' :
  handle_get_linearizer o tx c = Ret (r, c') →
  let t := clock (w_clock_reads (core_world c)) in
  let lease := leader_lease (EngineConfig_timer_config (Engine_config (core_engine c))) in
  let age := effective_max_quorum_ack_age o lease in
  let timeout := effective_wait_timeout o lease in
  match Engine_leader (core_engine c) with
  | None => answered c tx (Err (LinearizableReadError_ForwardToLeader
              (RaftState_forward_to_leader (core_state c)))) c'
  | Some l =>
      match Leader_transfer_to l with
      | Some to => answered c tx (Err (LinearizableReadError_ForwardToLeader
                     (new_forward_to_leader (core_state c) to))) c'
      | None =>
          (acknowledged l t age ∧ answered c tx (Ok (read_position c l)) c') ∨
          (¬ acknowledged l t age ∧ timeout = 0%N ∧
           answered c tx (Err (LinearizableReadError_QuorumNotEnough
             (clock_quorum_not_enough l (t - age)%N))) c') ∨
          (¬ acknowledged l t age ∧ timeout ≠ 0%N ∧ core_trace c' = core_trace c ∧
           PendingReadQueue_push (core_pending_reads c) (t - age)%N
             (mkPendingRead (t + timeout)%N (read_position c l) tx) = Ret (core_pending_reads c'))
      end
  end.
Proof.
  unfold handle_get_linearizer. rewrite K_bind_eq, on_engine_eq. cbn [now].
  rewrite K_bind_eq, kget_eq, K_bind_eq. unfold ensure_leader_handler. rewrite K_bind_eq, kget_eq.
  cbn [mret K_ret]. unfold try_leader_handler.
  set (t := clock (w_clock_reads (core_world c))). set (c1 := set_world c _).
  change (Engine_leader (core_engine c1)) with (Engine_leader (core_engine c)).
  destruct (Engine_leader (core_engine c)) as [l|] eqn:Hl; [|by intros [= <- <-]].
  destruct (Leader_transfer_to l) as [to|]; [by intros [= <- <-]|].
  rewrite K_bind_eq, on_engine_eq.
  destruct (get_read_log_id (core_world c1)) as [[x w]|] eqn:Hx; [|done].
  apply (get_read_log_id_eq _ l) in Hx as [-> ->]; [|exact Hl].
  rewrite K_bind_eq, klift_eq. unfold acknowledged.
  destruct (is_self_quorum l) as [[]|]; [intros [= <- <-]; left; split; [by left|done]| |done].
  cbn [core_world set_world].
  change (Engine_config (core_engine c1)) with (Engine_config (core_engine c)).
  set (lease := leader_lease _). set (age := effective_max_quorum_ack_age o lease).
  set (timeout := effective_wait_timeout o lease).
  destruct (match last_quorum_acked_time l with Some acked => _ | None => false end) eqn:Hack.
  { intros [= <- <-]. left. split; [right|done]. destruct (last_quorum_acked_time l) as [acked|]; [|done].
    exists acked. split; [done|]. apply ltb_true in Hack. by rewrite N_ord_lt in Hack. }
  assert (¬ (Ret false = Ret true ∨ ∃ acked, last_quorum_acked_time l = Some acked ∧ (t < acked + age)%N)) as Hn.
  { intros [[=]|(acked & Ha & Hlt)]. rewrite Ha in Hack. apply ltb_false in Hack.
    rewrite N_ord_le in Hack. lia. }
  rewrite K_bind_eq, klift_eq. unfold instant_sub.
  destruct (t <? age); [done|]. case_decide as Ht; [by intros [= <- <-]; right; left|].
  rewrite K_bind_eq. intros Hrun. right. right.
  match type of Hrun with context [(if _ then _ else _) ?x] =>
    destruct ((if heartbeat_if_quorum_ack_stale o then on_engine (send_heartbeat true) else mret tt) x)
      as [[[u|e] c2]|] eqn:E; [| |done] end.
  - assert (core_trace c2 = core_trace c) as Htr.
    { destruct (heartbeat_if_quorum_ack_stale o); [|by injection E as _ <-].
      revert E. rewrite on_engine_eq. destruct (send_heartbeat true _) as [[]|]; [|done]. by intros [= _ <-]. }
    revert Hrun. rewrite K_bind_eq, klift_eq.
    destruct (PendingReadQueue_push _ _ _) as [q|] eqn:Hp; [|done]. intros [= <- <-]. done.
  - destruct (heartbeat_if_quorum_ack_stale o); [|done].
    revert E. rewrite on_engine_eq. by destruct (send_heartbeat true _) as [[]|].
Qed.

(** Reads that expire get no position. *)
Lemma expired_reads_fail now make_error c r c' :
  queue_wf (core_pending_reads c) →
  (x ← klift (drain_expired (core_pending_reads c) now make_error); send_reads x.1 x.2) c = Ret (r, c') →
  r = Ok tt ∧ ∃ os, core_trace c' = core_trace c ++ os ∧ ∀ tx lin, Output_Read tx (Ok lin) ∉ os.
Proof.
  intros Hwf. destruct (drain_expired_spec (core_pending_reads c) now make_error Hwf)
    as (q & late & Hd & _).
  rewrite K_bind_eq, klift_eq, Hd. intros [= <- <-]. split; [done|]. eexists. split; [reflexivity|].
  intros tx lin (x & Heq & (kr & -> & _)%list_elem_of_fmap)%list_elem_of_fmap. done.
Qed.

(** C11: the reads that a later acknowledgement serves: when waiting reads are
    processed, a read gets a position only if the node still leads and a
    quorum has acknowledged it strictly after the threshold of that read; the
    position is the one computed when the read arrived, with the log applied
    now. *)
Theorem served_reads_confirmed c r c' tx lin :
  queue_wf (core_pending_reads c) →
  process_pending_reads c = Ret (r, c') →
  Output_Read tx (Ok lin) ∈ drop (length (core_trace c)) (core_trace c') →
  ∃ l acked key read, Engine_leader (core_engine c) = Some l ∧
    last_quorum_acked_time l = Some acked ∧
    (key, read) ∈ ReadQueue.reads (core_pending_reads c) ∧ (min_quorum_acked_at key < acked)%N ∧
    PendingRead_response_tx read = tx ∧
    lin = Linearizer_with_applied (PendingRead_linearizer read) (io_applied (core_state c)).
Proof.
  intros Hwf. unfold process_pending_reads. rewrite K_bind_eq, on_engine_eq. cbn [now].
  rewrite K_bind_eq, kget_eq. set (c1 := set_world c _). unfold try_leader_handler.
  change (Engine_leader (core_engine c1)) with (Engine_leader (core_engine c)).
  set (t := clock _). destruct (Engine_leader (core_engine c)) as [l|] eqn:Hl.
  - rewrite K_bind_eq, K_bind_eq.
    destruct (last_quorum_acked_time l) as [acked|] eqn:Hack.
    + rewrite K_bind_eq, klift_eq.
      destruct (drain_satisfied_reads_spec (core_pending_reads c) acked
        (io_applied (core_state c1)) Hwf) as (q1 & Hd1 & Hwf1 & _).
      change (core_pending_reads c1) with (core_pending_reads c). rewrite Hd1. cbn [fst snd].
      unfold send_reads at 1. rewrite kmodify_eq, K_bind_eq, kget_eq.
      match goal with |- context [(_ ≫= _) (emit ?os ?c2)] => set (c3 := emit os c2) end.
      match goal with |- context [(?m ≫= ?f) c3] => destruct ((m ≫= f) c3) as [[r3 c4]|] eqn:E; [|done] end.
      apply (expired_reads_fail t _ c3) in E as (-> & os & Htr & Hno); [|exact Hwf1].
      intros [= <- <-]. cbn [core_trace set_read_deadline]. rewrite Htr. unfold c3. cbn [core_trace emit].
      change (core_trace c1) with (core_trace c). change (core_trace (set_pending_reads c1 q1)) with (core_trace c).
      rewrite <- (assoc_L (++)), drop_app_length, elem_of_app.
      intros [Hin|Hin]; [|by apply Hno in Hin].
      apply list_elem_of_fmap in Hin as ([tx' res] & [= -> Hres] & Hin).
      apply list_elem_of_fmap in Hin as ([key read] & [= -> ->] & [Hs Hin]%list_elem_of_filter).
      injection Hres as ->. by exists l, acked, key, read.
    + cbn [mret K_ret]. rewrite K_bind_eq, kget_eq.
      match goal with |- context [(?m ≫= ?f) c1] => destruct ((m ≫= f) c1) as [[r3 c4]|] eqn:E; [|done] end.
      apply (expired_reads_fail t _ c1) in E as (-> & os & Htr & Hno); [|exact Hwf].
      intros [= <- <-]. cbn [core_trace set_read_deadline]. rewrite Htr.
      change (core_trace c1) with (core_trace c). rewrite drop_app_length. intros Hin. by apply Hno in Hin.
  - intros [= <- <-]. cbn. rewrite drop_app_length. intros (x & Heq & Hx)%list_elem_of_fmap.
    apply list_elem_of_fmap in Hx as (kr & -> & _). done.
Qed.

(** ** Initialization *)

(** Initialization queues the append of its log but accepts no log I/O: the
    cursor that [handle_initialize] makes the answer wait for is the one from
    before. *)
Lemma initialize_accepts_nothing members w w' :
  Engine_initialize members w = Ret (Ok tt, w') →
  log_progress (Engine_state (w_engine w')) = log_progress (Engine_state (w_engine w)) ∧
  ∃ v e, commands (w_engine w') = commands (w_engine w) ++ [Command_AppendEntries v [e]].
Proof.
  unfold Engine_initialize. m_steps.
  destruct (check_initialize _); [|done]. destruct (check_members_contain_me _ _); [|done].
  rewrite M_bind_eq. cbn [now]. m_steps. intros [= <-]. cbn [w_engine].
  unfold do_append_entries, FollowingHandler_append_membership. cbn [last_two_memberships].
  destruct (last_two_memberships _); [|rewrite update_server_state_eq]; cbn; by eauto.
Qed.

End reads.

(** ** Witnesses *)

Module CoreReadsWitness.
#[local] Existing Instance std_config.
Import CoreWitness.

(** The answer follows the append of the log at once, no flush in between. *)
Example initialize_answered_before_flush :
  match take 2 (core_trace node3) with
  | [Output_Append _ _; Output_Respond (Respond_Initialize (Ok _) tx)] => tx = 5%N
  | _ => False
  end.
Proof. vm_compute. reflexivity. Qed.

Lemma read_request_spec_witness :
  ∃ l, Engine_leader (core_engine node8) = Some l ∧ answered node8 21%N (Ok (read_position node8 l)) node9.
Proof.
  pose proof (read_request_spec (from_read_policy ReadPolicy_ReadIndex) 21%N node8 (Ok tt) node9) as H.
  destruct (Engine_leader (core_engine node8)) as [l|] eqn:Hl; [|by vm_compute in Hl].
  exists l. split; [done|].
  assert (Leader_transfer_to l = None) as Ht.
  { assert ((l ← Engine_leader (core_engine node8); Leader_transfer_to l) = None) as E
      by (vm_compute; reflexivity). by rewrite Hl in E. }
  assert (is_self_quorum l = Ret true) as Hq.
  { assert ((is_self_quorum <$> Engine_leader (core_engine node8)) = Some (Ret true)) as E
      by (vm_compute; reflexivity). rewrite Hl in E. by injection E. }
  rewrite Ht in H. destruct H as [[_ H]|[[Hn _]|[Hn _]]]; [|done|by destruct Hn; left|by destruct Hn; left].
  apply after_succeeds. vm_compute. reflexivity.
Defined.
End CoreReadsWitness.

Module ServedReadsWitness.
#[local] Existing Instance adv_config.
Import ProposerWitness ReplicationWitness ReadQueueWitness.
#[local] Existing Instance VoteHandlerWitness.env.
#[local] Existing Instance CoreWitness.store.

(** A leader that node 2 has acknowledged at 1100, with reads that wait for
    an acknowledgement after 10, 20 and 30. *)
Definition waiting_core : RaftCore :=
  set_pending_reads
    (RaftCore_new Config_default (RuntimeConfig_new Config_default)
      (mkWorld (set_leader (w_engine two_nodes) (Some leader51_acked)) 0 0)) q3.

Definition served_core : RaftCore :=
  match process_pending_reads waiting_core with Ret (_, c') => c' | Panic => waiting_core end.

Lemma served_reads_confirmed_witness :
  ∃ l acked key read, Engine_leader (core_engine waiting_core) = Some l ∧
    last_quorum_acked_time l = Some acked ∧ (key, read) ∈ q3.(reads) ∧
    (min_quorum_acked_at key < acked)%N ∧ PendingRead_response_tx read = 8%N.
Proof.
  destruct (served_reads_confirmed waiting_core (Ok tt) served_core 8%N
    (Linearizer_with_applied linearizer (io_applied (core_state waiting_core)))) as (l & acked & key & read & H1 & H2 & H3 & H4 & H5 & _).
  - exact q3_wf.
  - vm_compute. reflexivity.
  - replace (drop _ _) with ((λ tx, Output_Read tx (Ok (Linearizer_with_applied linearizer (io_applied (core_state waiting_core))))) <$> [7; 8; 9]%N)
      by (vm_compute; reflexivity).
    apply list_elem_of_fmap. exists 8%N. split; [done|]. apply list_elem_of_lookup_2 with 1. reflexivity.
  - by exists l, acked, key, read.
Defined.
End ServedReadsWitness.
