(* ===== verification/MsgReceiver.v ===== *)
(** * The receiver of API messages

    [core/merged_raft_msg_receiver.rs]: consecutive client writes that expect
    the same leader are merged into one message.

    The channel is the list of the messages with the times they arrive at,
    and whether its senders are gone after the last one.  A receive with a
    deadline gets a message that arrives by the deadline. *)

From S2P Require Import Prelude Vote LogId LogIdList Quorum Membership VecProgress IOState.
From S2P Require Import MembershipState Entry RaftState Config ProgressEntry Proposer Command.
From S2P Require Import Engine Replication Following LeaderHandler VoteHandler EngineImpl.
From S2P Require Import VoteSafety Cluster ReadQueue CoreHelpers Wire Core.

Section receiver.
Context {C : RaftTypeConfig} `{!Env}.

Record Channel := mkChannel {
  arrivals : list (Instant * RaftMsg);
  senders_dropped : bool;
}.

Record BatchRaftMsgReceiver := mkBatchRaftMsgReceiver {
  buffered : option RaftMsg;
  capacity : u64;
  linger : Duration;
  inner : Channel;
}.

Definition BatchRaftMsgReceiver_new (receiver : Channel) (capacity : u64) (linger : Duration) :
    BatchRaftMsgReceiver := mkBatchRaftMsgReceiver None capacity linger receiver.

Definition set_buffered (r : BatchRaftMsgReceiver) (m : option RaftMsg) (ch : Channel) :
    BatchRaftMsgReceiver := mkBatchRaftMsgReceiver m (capacity r) (linger r) ch.

(** [Err(Fatal::Stopped)] is [Err tt]. *)
Definition Stopped : Type := unit.

(** The next message that has arrived by [deadline]; [None] if there is none
    yet, an error if there will be none. *)
Definition inner_recv_timeout_at (ch : Channel) (deadline : Instant) :
    result (option RaftMsg * Channel) Stopped :=
  match arrivals ch with
  | [] => if senders_dropped ch then Err tt else Ok (None, ch)
  | (at', msg) :: rest =>
      if (at' <=? deadline) then Ok (Some msg, mkChannel rest (senders_dropped ch)) else Ok (None, ch)
  end.

(** [inner_try_recv] looks at what has arrived by now. *)
Definition inner_try_recv (ch : Channel) (t : Instant) : result (option RaftMsg * Channel) Stopped :=
  inner_recv_timeout_at ch t.

(** [inner_recv] waits for the next message. *)
Definition inner_recv (ch : Channel) : option (result (RaftMsg * Channel) Stopped) :=
  match arrivals ch with
  | (_, msg) :: rest => Some (Ok (msg, mkChannel rest (senders_dropped ch)))
  | [] => if senders_dropped ch then Some (Err tt) else None
  end.

(** [ensure_buffered]: [None] while it waits. *)
Definition ensure_buffered (r : BatchRaftMsgReceiver) : option (result BatchRaftMsgReceiver Stopped) :=
  match buffered r with
  | Some _ => Some (Ok r)
  | None =>
      match inner_recv (inner r) with
      | Some (Ok (msg, ch)) => Some (Ok (set_buffered r (Some msg) ch))
      | Some (Err e) => Some (Err e)
      | None => None
      end
  end.

Definition buffered_try_recv (r : BatchRaftMsgReceiver) (t : Instant) :
    result (option RaftMsg * BatchRaftMsgReceiver) Stopped :=
  match buffered r with
  | Some msg => Ok (Some msg, set_buffered r None (inner r))
  | None =>
      match inner_try_recv (inner r) t with
      | Ok (msg, ch) => Ok (msg, set_buffered r None ch)
      | Err e => Err e
      end
  end.

(** The loop of [merge_client_writes]: [n] more messages at most. *)
Fixpoint merge_writes_loop (n : nat) (deadline : Instant) (leader : option CommittedLeaderId)
    (payloads : list EntryPayload) (responders : list (option Sender)) (r : BatchRaftMsgReceiver) :
    result (list EntryPayload * list (option Sender) * BatchRaftMsgReceiver) Stopped :=
  match n with
  | O => Ok (payloads, responders, r)
  | S n =>
      match inner_recv_timeout_at (inner r) deadline with
      | Err e => Err e
      | Ok (None, ch) => Ok (payloads, responders, set_buffered r (buffered r) ch)
      | Ok (Some next, ch) =>
          match next with
          | RaftMsg_ClientWrite next_payloads next_responders expected_leader =>
              if decide (expected_leader = leader) then
                merge_writes_loop n deadline leader (payloads ++ next_payloads)
                  (responders ++ next_responders) (set_buffered r (buffered r) ch)
              else Ok (payloads, responders, set_buffered r (Some next) ch)
          | _ => Ok (payloads, responders, set_buffered r (Some next) ch)
          end
      end
  end.

(** [merge_client_writes] at time [t]. *)
Definition merge_client_writes (r : BatchRaftMsgReceiver) (msg : RaftMsg) (t : Instant) :
    result (RaftMsg * BatchRaftMsgReceiver) Stopped :=
  match msg with
  | RaftMsg_ClientWrite payloads responders expected_leader =>
      let deadline := (t + linger r)%N in
      match merge_writes_loop (N.to_nat (capacity r - 1)) deadline expected_leader payloads
              responders r with
      | Ok (payloads, responders, r) => Ok (RaftMsg_ClientWrite payloads responders expected_leader, r)
      | Err e => Err e
      end
  | _ => Ok (msg, r)
  end.

Definition try_recv (r : BatchRaftMsgReceiver) (t : Instant) :
    result (option RaftMsg * BatchRaftMsgReceiver) Stopped :=
  match buffered_try_recv r t with
  | Err e => Err e
  | Ok (None, r) => Ok (None, r)
  | Ok (Some msg, r) =>
      match merge_client_writes r msg t with
      | Ok (msg, r) => Ok (Some msg, r)
      | Err e => Err e
      end
  end.

(** ** The stream of messages *)

(** The messages still to be received. *)
Definition pending_msgs (r : BatchRaftMsgReceiver) : list RaftMsg :=
  option_list (buffered r) ++ (arrivals (inner r)).*2.

(** A message taken apart: the payloads with the leader they expect, and the
    responders; any other message is itself. *)
Definition payload_stream (msgs : list RaftMsg) :
    list (option CommittedLeaderId * EntryPayload + RaftMsg) :=
  msgs ≫= λ msg, match msg with
                 | RaftMsg_ClientWrite payloads _ leader => (λ p, inl (leader, p)) <$> payloads
                 | _ => [inr msg]
                 end.
Definition responder_stream (msgs : list RaftMsg) :
    list (option CommittedLeaderId * option Sender + RaftMsg) :=
  msgs ≫= λ msg, match msg with
                 | RaftMsg_ClientWrite _ responders leader => (λ x, inl (leader, x)) <$> responders
                 | _ => [inr msg]
                 end.

(** One responder for each payload. *)
Definition well_paired (msg : RaftMsg) : Prop :=
  match msg with
  | RaftMsg_ClientWrite payloads responders _ => length responders = length payloads
  | _ => True
  end.

Record same_stream (before after : list RaftMsg) : Prop := {
  same_payloads : payload_stream after = payload_stream before;
  same_responders : responder_stream after = responder_stream before;
  same_pairing : Forall well_paired before → Forall well_paired after;
}.

Lemma merge_writes_loop_spec n deadline leader payloads responders r payloads' responders' r' :
  buffered r = None →
  merge_writes_loop n deadline leader payloads responders r = Ok (payloads', responders', r') →
  same_stream (RaftMsg_ClientWrite payloads responders leader :: pending_msgs r)
    (RaftMsg_ClientWrite payloads' responders' leader :: pending_msgs r') ∧
  length (pending_msgs r) ≤ length (pending_msgs r') + n.
Proof.
  revert payloads responders r. induction n as [|n IH]; intros payloads responders r Hb.
  { intros [= <- <- <-]. split; [split; done|lia]. }
  assert (∀ m ch msg rest, m = Some msg → arrivals ch = rest → (arrivals (inner r)).*2 = msg :: rest.*2 →
    same_stream (RaftMsg_ClientWrite payloads responders leader :: pending_msgs r)
      (RaftMsg_ClientWrite payloads responders leader :: pending_msgs (set_buffered r m ch)) ∧
    length (pending_msgs r) ≤ length (pending_msgs (set_buffered r m ch)) + S n) as Hstop.
  { intros m ch msg rest -> Hch Hr. unfold pending_msgs. rewrite Hb. cbn. rewrite Hch, Hr. cbn.
    split; [split; done|lia]. }
  cbn [merge_writes_loop]. unfold inner_recv_timeout_at.
  destruct (arrivals (inner r)) as [|[at' next] rest] eqn:Harr.
  { destruct (senders_dropped _); [done|]. intros [= <- <- <-]. split; [split; done|].
    unfold pending_msgs. cbn. lia. }
  destruct (at' <=? deadline).
  - destruct next; try (intros [= <- <- <-]; by eapply Hstop).
    destruct (decide (expected_leader = leader)) as [->|];
      [|intros [= <- <- <-]; by eapply Hstop].
    intros Hl. apply IH in Hl as [[H1 H2 H3] Hlen]; [|done]. clear IH Hstop.
    unfold pending_msgs in *. rewrite Hb in *. rewrite Harr. cbn in *. split; [split|].
    + unfold payload_stream in *. cbn in *. rewrite H1, fmap_app. by rewrite <- (assoc_L (++)).
    + unfold responder_stream in *. cbn in *. rewrite H2, fmap_app. by rewrite <- (assoc_L (++)).
    + intros [Hw1 [Hw2 Hw3]%Forall_cons_1]%Forall_cons_1. apply H3. constructor; [|done].
      cbn in *. rewrite !length_app. lia.
    + lia.
  - intros [= <- <- <-]. split; [split; done|]. unfold pending_msgs. cbn. rewrite Harr. lia.
Qed.

Lemma merge_writes_loop_capacity n deadline leader payloads responders r payloads' responders' r' :
  merge_writes_loop n deadline leader payloads responders r = Ok (payloads', responders', r') →
  capacity r' = capacity r.
Proof.
  revert payloads responders r. induction n as [|n IH]; intros payloads responders r; cbn;
    [by intros [= <- <- <-]|].
  destruct (inner_recv_timeout_at _ _) as [[[next|] ch]|]; [|by intros [= <- <- <-]|done].
  destruct next; try (by intros [= <- <- <-]).
  destruct (decide _); [|by intros [= <- <- <-]]. intros Hl. by apply IH in Hl.
Qed.

Lemma same_stream_refl l : same_stream l l.
Proof. by split. Qed.

(** One [try_recv]. *)
Lemma try_recv_spec r t msg r' :
  try_recv r t = Ok (msg, r') →
  same_stream (pending_msgs r) (option_list msg ++ pending_msgs r') ∧
  length (pending_msgs r) ≤ length (pending_msgs r') + N.to_nat (N.max 1 (capacity r)) ∧
  capacity r' = capacity r ∧
  (msg = None → pending_msgs r' = pending_msgs r ∧
    ∀ at' m, head (arrivals (inner r)) = Some (at', m) → buffered r = None ∧ (t < at')%N).
Proof.
  unfold try_recv. destruct (buffered_try_recv r t) as [[[m|] r1]|] eqn:E; [| |done].
  - assert (buffered r1 = None ∧ pending_msgs r = m :: pending_msgs r1 ∧ capacity r1 = capacity r)
      as (Hb & Hp & Hcap).
    { revert E. unfold buffered_try_recv, inner_try_recv, inner_recv_timeout_at, pending_msgs.
      destruct (buffered r) as [b|]; [by intros [= <- <-]|].
      destruct (arrivals (inner r)) as [|[at' x] rest]; [by destruct (senders_dropped _)|].
      destruct (at' <=? t); [by intros [= <- <-]|done]. }
    destruct (merge_client_writes r1 m t) as [[m1 r2]|] eqn:Hm; [|done]. intros [= <- <-].
    rewrite Hp, <- Hcap. cbn. destruct m; cbn in Hm;
      try (injection Hm as <- <-; split; [apply same_stream_refl|split; [lia|done]]).
    destruct (merge_writes_loop _ _ _ _ _ r1) as [[[ps rs] r3]|] eqn:Hl; [|done].
    injection Hm as <- <-.
    pose proof (merge_writes_loop_capacity _ _ _ _ _ _ _ _ _ Hl) as Hc3.
    apply merge_writes_loop_spec in Hl as [Hs Hlen]; [|done].
    split; [exact Hs|]. split; [lia|done].
  - intros [= <- <-]. revert E. unfold buffered_try_recv, inner_try_recv, inner_recv_timeout_at, pending_msgs.
    destruct (buffered r) as [b|]; [done|].
    destruct (arrivals (inner r)) as [|[at' x] rest] eqn:Ha.
    + destruct (senders_dropped _); [done|]. intros [= <-]. cbn. rewrite Ha. cbn.
      split; [apply same_stream_refl|]. split; [lia|]. done.
    + destruct (leb_spec at' t) as [|Hlt]; [done|]. rewrite N_ord_lt in Hlt.
      intros [= <-]. cbn. rewrite Ha. cbn. split; [apply same_stream_refl|]. split; [lia|].
      split; [done|]. intros _. split; [done|]. by intros ? ? [= <- <-].
Qed.

(** Receiving at a series of times, until there is nothing. *)
Fixpoint receive (times : list Instant) (r : BatchRaftMsgReceiver) :
    result (list RaftMsg * BatchRaftMsgReceiver) Stopped :=
  match times with
  | [] => Ok ([], r)
  | t :: times =>
      match try_recv r t with
      | Err e => Err e
      | Ok (msg, r) =>
          match receive times r with
          | Ok (msgs, r) => Ok (option_list msg ++ msgs, r)
          | Err e => Err e
          end
      end
  end.

Lemma same_stream_app before mid after msgs :
  same_stream before (msgs ++ mid) → same_stream mid after → same_stream before (msgs ++ after).
Proof.
  intros [P1 R1 W1] [P2 R2 W2]. unfold payload_stream, responder_stream in *.
  rewrite !bind_app in *. split.
  - unfold payload_stream. by rewrite bind_app, P2.
  - unfold responder_stream. by rewrite bind_app, R2.
  - intros [H1 H2]%W1%Forall_app. apply Forall_app. auto.
Qed.

(** Merging client writes changes no write and no order: whatever times
    messages arrive and are received at, the payloads with the leader they
    expect, the responders and the other messages come out in the order they
    were sent, together with what is still to be received; a message merges at
    most [capacity] others, and each responder still has its payload. *)
Theorem merged_writes_in_order times r msgs r' :
  receive times r = Ok (msgs, r') →
  same_stream (pending_msgs r) (msgs ++ pending_msgs r') ∧
  length (pending_msgs r) ≤ length (pending_msgs r') + length times * N.to_nat (N.max 1 (capacity r)).
Proof.
  revert r msgs. induction times as [|t times IH]; intros r msgs; cbn [receive].
  { intros [= <- <-]. split; [apply same_stream_refl|lia]. }
  destruct (try_recv r t) as [[msg r1]|] eqn:E; [|done].
  destruct (receive times r1) as [[msgs1 r2]|] eqn:Hr; [|done]. intros [= <- <-].
  apply try_recv_spec in E as (Hs & Hl & Hc & _). destruct (IH _ _ Hr) as [Hs1 Hl1].
  rewrite Hc in Hl1. split; [|cbn [length]; lia].
  rewrite <- (assoc_L (++)). by eapply same_stream_app.
Qed.
End receiver.

(** ** Witnesses *)

Module MsgReceiverWitness.
#[local] Existing Instance std_config.
Import CommandWitness.

Definition write (p tx : N) (leader : option CommittedLeaderId) : RaftMsg :=
  RaftMsg_ClientWrite [EntryPayload_Normal (C := std_config) p] [Some tx] leader.
Definition l1 : option CommittedLeaderId := Some (LeaderIdStd.mkCommitted 1).
(** Three writes of which the third expects another leader, and a snapshot
    command; the second write arrives later. *)
Definition rx : BatchRaftMsgReceiver :=
  BatchRaftMsgReceiver_new (mkChannel
    [(5%N, write 1 11 None); (6%N, write 2 12 None); (6%N, write 3 13 l1);
     (7%N, RaftMsg_ExternalCommand ExternalCommand_Snapshot)] false) 10 1.
Definition rx' : BatchRaftMsgReceiver := mkBatchRaftMsgReceiver None 10 1 (mkChannel [] false).
Definition received : list RaftMsg :=
  [RaftMsg_ClientWrite [EntryPayload_Normal (C := std_config) 1%N; EntryPayload_Normal (C := std_config) 2%N]
     [Some 11%N; Some 12%N] None;
   write 3 13 l1; RaftMsg_ExternalCommand ExternalCommand_Snapshot].

Lemma merged_writes_in_order_witness : same_stream (pending_msgs rx) (received ++ pending_msgs rx').
Proof.
  destruct (merged_writes_in_order [5; 6; 7; 8]%N rx received rx') as [H _]; [|exact H].
  vm_compute. reflexivity.
Defined.
End MsgReceiverWitness.
