(* ===== verification/Storage.v ===== *)
(** * The storage interfaces

    [storage/raft_log_storage.rs], [storage/raft_log_reader.rs] and
    [storage/raft_state_machine.rs]: what an application provides is the class
    [RaftStorage]; what these interfaces document of an application that works
    is the class [RaftStorageLaws], stated on an abstract view of the store.
    Also the entries with responders that the state machine is given
    ([storage/entry_responder.rs], [storage/apply_responder.rs]). *)

From S2P Require Import Prelude Vote LogId LogIdList Quorum Membership VecProgress IOState.
From S2P Require Import MembershipState Entry RaftState Config ProgressEntry Proposer Command.

Section storage.
Context {C : RaftTypeConfig}.

(** [ApplyResponderInner] *)
Inductive ApplyResponder :=
| ApplyResponder_Normal (log_id : LogId) (responder : Sender)
| ApplyResponder_Membership (log_id : LogId) (membership : Membership) (responder : Sender).

Record ClientWriteResponse (R : Type) := mkClientWriteResponse {
  ClientWriteResponse_log_id : LogId;
  ClientWriteResponse_data : R;
  ClientWriteResponse_membership : option Membership;
}.
Arguments mkClientWriteResponse {R}.
Arguments ClientWriteResponse_log_id {R}.
Arguments ClientWriteResponse_data {R}.
Arguments ClientWriteResponse_membership {R}.

(** [ApplyResponderInner::send]: the channel and what it is sent. *)
Definition ApplyResponder_send {R} (r : ApplyResponder) (response : R) :
    Sender * ClientWriteResponse R :=
  match r with
  | ApplyResponder_Normal log_id responder => (responder, mkClientWriteResponse log_id response None)
  | ApplyResponder_Membership log_id membership responder =>
      (responder, mkClientWriteResponse log_id response (Some membership))
  end.

(** [EntryResponderBuilder] *)
Record EntryResponderBuilder := mkEntryResponderBuilder {
  EntryResponderBuilder_entry : Entry;
  EntryResponderBuilder_responder : option Sender;
}.

Definition into_parts (b : EntryResponderBuilder) : Entry * option ApplyResponder :=
  let entry := EntryResponderBuilder_entry b in
  match EntryResponderBuilder_responder b with
  | None => (entry, None)
  | Some responder =>
      let log_id := Entry_log_id entry in
      (entry, Some match Entry_get_membership entry with
                   | Some membership => ApplyResponder_Membership log_id membership responder
                   | None => ApplyResponder_Normal log_id responder
                   end)
  end.

(** ** Errors

    [errors/storage_error.rs] and [errors/storage_io_result.rs].  The source of
    an error is one of the application, or a message of this crate, of which
    the arguments are kept and the text is not. *)
Record SnapshotSignature := mkSnapshotSignature {
  SnapshotSignature_last_log_id : option LogId;
  SnapshotSignature_last_membership_log_id : option LogId;
}.
Definition SnapshotMeta_signature (m : SnapshotMeta) : SnapshotSignature :=
  mkSnapshotSignature (SnapshotMeta_last_log_id m)
    (StoredMembership_log_id (SnapshotMeta_last_membership m)).

Inductive ErrorSubject :=
| ErrorSubject_Store
| ErrorSubject_Vote
| ErrorSubject_Logs
| ErrorSubject_Log (log_id : LogId)
| ErrorSubject_LogIndex (index : u64)
| ErrorSubject_Apply (log_id : LogId)
| ErrorSubject_StateMachine
| ErrorSubject_Snapshot (signature : option SnapshotSignature)
| ErrorSubject_None.

Inductive ErrorVerb := ErrorVerb_Read | ErrorVerb_Write | ErrorVerb_Seek | ErrorVerb_Delete.

Inductive ErrorMessage :=
| ErrorMessage_inverted_log_order (last_log_id last_purged_log_id : option LogId)
| ErrorMessage_cannot_reapply (start : u64) (purged : option LogId)
| ErrorMessage_inverted_applied (last_applied last_log_id : option LogId)
| ErrorMessage_missing_entries (start chunk_end : u64) (first last : option u64)
| ErrorMessage_not_found
| ErrorMessage_snapshot_not_found.

Record StorageError (E : Type) := mkStorageError {
  StorageError_subject : ErrorSubject;
  StorageError_verb : ErrorVerb;
  StorageError_source : E + ErrorMessage;
}.
Arguments mkStorageError {E}.

Section results.
Context {E A : Type}.
Implicit Types (source : E + ErrorMessage) (r : result A E).

Definition StorageError_read_log_at_index (log_index : u64) source : StorageError E :=
  mkStorageError (ErrorSubject_LogIndex log_index) ErrorVerb_Read source.
Definition StorageError_write_logs source : StorageError E :=
  mkStorageError ErrorSubject_Logs ErrorVerb_Write source.
Definition StorageError_read_logs source : StorageError E :=
  mkStorageError ErrorSubject_Logs ErrorVerb_Read source.
Definition StorageError_read_vote source : StorageError E :=
  mkStorageError ErrorSubject_Vote ErrorVerb_Read source.
Definition StorageError_apply (log_id : LogId) source : StorageError E :=
  mkStorageError (ErrorSubject_Apply log_id) ErrorVerb_Write source.
Definition StorageError_read_state_machine source : StorageError E :=
  mkStorageError ErrorSubject_StateMachine ErrorVerb_Read source.
Definition StorageError_write_snapshot (signature : option SnapshotSignature) source : StorageError E :=
  mkStorageError (ErrorSubject_Snapshot signature) ErrorVerb_Write source.
Definition StorageError_read_snapshot (signature : option SnapshotSignature) source : StorageError E :=
  mkStorageError (ErrorSubject_Snapshot signature) ErrorVerb_Read source.

(** [map_err], with [err_from_error]. *)
Definition map_io_err (f : E + ErrorMessage → StorageError E) r : result A (StorageError E) :=
  match r with Ok x => Ok x | Err e => Err (f (inl e)) end.

Definition sto_write_logs r : result A (StorageError E) := map_io_err StorageError_write_logs r.
Definition sto_read_logs r : result A (StorageError E) := map_io_err StorageError_read_logs r.
Definition sto_read_vote r : result A (StorageError E) := map_io_err StorageError_read_vote r.
Definition sto_apply (log_id : LogId) r : result A (StorageError E) :=
  map_io_err (StorageError_apply log_id) r.
Definition sto_read_sm r : result A (StorageError E) := map_io_err StorageError_read_state_machine r.
Definition sto_write_snapshot (signature : option SnapshotSignature) r : result A (StorageError E) :=
  map_io_err (StorageError_write_snapshot signature) r.
Definition sto_read_snapshot (signature : option SnapshotSignature) r : result A (StorageError E) :=
  map_io_err (StorageError_read_snapshot signature) r.
End results.

Record LogState := mkLogState {
  LogState_last_purged_log_id : option LogId;
  LogState_last_log_id : option LogId;
}.

(** ** The interface

    The log store and the state machine have one state.  [sm_apply] is given a
    stream of entries, in which a read error may occur, and returns the
    responses it has sent. *)
Class RaftStorage (St : Type) := {
  IoError : Type;
  Response : Type;
  read_vote : St → result (option Vote) IoError;
  read_committed : St → result (option LogId) IoError;
  get_log_state : St → result LogState IoError;
  try_get_log_entries : u64 → u64 → St → result (list Entry) IoError;
  limited_get_log_entries : u64 → u64 → St → result (list Entry) IoError;
  store_purge : LogId → St → result unit IoError * St;
  applied_state : St → result (option LogId * StoredMembership) IoError;
  sm_apply : list (result (Entry * option ApplyResponder) IoError) → St →
    result unit IoError * list (ApplyResponder * Response) * St;
  get_current_snapshot : St → result (option Snapshot) IoError;
  install_snapshot : SnapshotMeta → SnapshotData → St → result unit IoError * St;
  try_create_snapshot_builder : bool → St → option (St → result Snapshot IoError * St);
}.

(** ** What is stored *)
Record StoreView := mkStoreView {
  sv_vote : option Vote;
  sv_committed : option LogId;
  sv_purged : option LogId;
  sv_log : list Entry;
  sv_history : list Entry;
  sv_applied : option LogId;
  sv_membership : StoredMembership;
  sv_snapshot : option Snapshot;
}.

Definition entries_in (a b : u64) (es : list Entry) : list Entry :=
  filter (λ e, (a ≤ Entry_index e < b)%N) es.

(** ** Ranges of the log *)
Definition entry_lt (e e' : Entry) : Prop := (Entry_index e < Entry_index e')%N.

Lemma StronglySorted_filter {A} (R : A → A → Prop) (P : A → Prop) `{∀ x, Decision (P x)} l :
  StronglySorted R l → StronglySorted R (filter P l).
Proof.
  induction 1 as [|x l Hl IH Hx]; [constructor|]. rewrite filter_cons. case_decide; [|done].
  constructor; [done|]. rewrite Forall_forall in Hx |- *. intros y [_ Hy]%list_elem_of_filter. by apply Hx.
Qed.

Lemma filter_ext_in {A} (P Q : A → Prop) `{∀ x, Decision (P x)} `{∀ x, Decision (Q x)} (l : list A) :
  (∀ x, x ∈ l → P x ↔ Q x) → filter P l = filter Q l.
Proof.
  induction l as [|x l IH]; intros Hl; [done|]. rewrite !filter_cons.
  pose proof (Hl x ltac:(by left)). rewrite IH by (intros y Hy; apply Hl; by right).
  destruct (decide (P x)), (decide (Q x)); (done || tauto).
Qed.

Lemma entries_in_nil (a b : u64) es : (b ≤ a)%N → entries_in a b es = [].
Proof. intros. unfold entries_in. apply filter_none. intros e _. lia. Qed.
Lemma entries_in_empty n es : entries_in n n es = [].
Proof. by apply entries_in_nil. Qed.

Lemma entries_in_split (a b c : u64) es : (a ≤ b ≤ c)%N → StronglySorted entry_lt es →
  entries_in a c es = entries_in a b es ++ entries_in b c es.
Proof.
  unfold entries_in. intros Hle. induction 1 as [|e es Hes IH Hlt]; [done|]. rewrite !filter_cons.
  destruct (decide (a ≤ Entry_index e < c)%N), (decide (a ≤ Entry_index e < b)%N),
    (decide (b ≤ Entry_index e < c)%N); try lia; rewrite IH; try done.
  enough (filter (λ e, (a ≤ Entry_index e < b)%N) es = []) as -> by done.
  apply filter_none. rewrite Forall_forall in Hlt. intros e' He'.
  specialize (Hlt e' He'). unfold entry_lt in Hlt. lia.
Qed.

Definition memberships_of (es : list Entry) : list StoredMembership :=
  omap (λ e, mkStoredMembership (Some (Entry_log_id e)) <$> Entry_get_membership e) es.

Definition view_apply (es : list Entry) (v : StoreView) : StoreView :=
  mkStoreView (sv_vote v) (sv_committed v) (sv_purged v) (sv_log v) (sv_history v ++ es)
    (match last es with Some e => Some (Entry_log_id e) | None => sv_applied v end)
    (default (sv_membership v) (last (memberships_of es))) (sv_snapshot v).
Definition view_purge (upto : LogId) (v : StoreView) : StoreView :=
  mkStoreView (sv_vote v) (sv_committed v) (Some upto)
    (filter (λ e, (LogId_index upto < Entry_index e)%N) (sv_log v)) (sv_history v) (sv_applied v)
    (sv_membership v) (sv_snapshot v).
Definition view_install (s : Snapshot) (v : StoreView) : StoreView :=
  mkStoreView (sv_vote v) (sv_committed v) (sv_purged v) (sv_log v) []
    (SnapshotMeta_last_log_id (Snapshot_meta s)) (SnapshotMeta_last_membership (Snapshot_meta s)) (Some s).
Definition view_snapshot (s : Snapshot) (v : StoreView) : StoreView :=
  mkStoreView (sv_vote v) (sv_committed v) (sv_purged v) (sv_log v) (sv_history v)
    (sv_applied v) (sv_membership v) (Some s).

Lemma memberships_of_app es es' : memberships_of (es ++ es') = memberships_of es ++ memberships_of es'.
Proof. apply omap_app. Qed.

Lemma view_apply_nil v : view_apply [] v = v.
Proof. destruct v. unfold view_apply. cbn. by rewrite app_nil_r. Qed.

Lemma view_apply_app es es' v : view_apply es' (view_apply es v) = view_apply (es ++ es') v.
Proof.
  unfold view_apply. cbn. rewrite <- app_assoc, memberships_of_app, !last_app. f_equal.
  - by destruct (last es').
  - by destruct (last (memberships_of es')).
Qed.

Lemma elem_of_entries_in (a b : u64) es e : e ∈ entries_in a b es ↔ (a ≤ Entry_index e < b)%N ∧ e ∈ es.
Proof. unfold entries_in. by rewrite list_elem_of_filter. Qed.

(** The ends of a range, when they are stored. *)
Lemma entries_in_head (a b : u64) es e : StronglySorted entry_lt es → e ∈ es → Entry_index e = a → (a < b)%N →
  Entry_index <$> head (entries_in a b es) = Some a.
Proof.
  intros Hes He Ha Hb. pose proof (StronglySorted_filter entry_lt (λ e, (a ≤ Entry_index e < b)%N) _ Hes) as Hs.
  fold (entries_in a b es) in Hs. assert (e ∈ entries_in a b es) as Hin by (apply elem_of_entries_in; split; [lia|done]).
  assert (Forall (λ e, (a ≤ Entry_index e)%N) (entries_in a b es)) as Hge.
  { apply Forall_forall. intros e' [? _]%elem_of_entries_in. lia. }
  destruct (entries_in a b es) as [|x l]; [by apply elem_of_nil in Hin|]. cbn. f_equal.
  apply elem_of_cons in Hin as [->|Hin]; [done|]. inversion Hs as [|? ? _ Hlt]; subst.
  rewrite Forall_forall in Hlt. specialize (Hlt e Hin). inversion Hge; subst. unfold entry_lt in Hlt. lia.
Qed.

Lemma entries_in_last (a b : u64) es e : StronglySorted entry_lt es → e ∈ es → (Entry_index e + 1 = b)%N → (a < b)%N →
  Entry_index <$> last (entries_in a b es) = Some (Entry_index e).
Proof.
  intros Hes He Ha Hb. pose proof (StronglySorted_filter entry_lt (λ e, (a ≤ Entry_index e < b)%N) _ Hes) as Hs.
  fold (entries_in a b es) in Hs. assert (e ∈ entries_in a b es) as Hin by (apply elem_of_entries_in; split; [lia|done]).
  assert (∀ e', e' ∈ entries_in a b es → (Entry_index e' < b)%N) as Hle by (intros e' [? _]%elem_of_entries_in; lia).
  destruct (entries_in a b es) as [|x l _] using rev_ind; [by apply elem_of_nil in Hin|].
  rewrite last_snoc. cbn. f_equal. apply elem_of_app in Hin as [Hin|Hin]; [|by apply list_elem_of_singleton in Hin as ->].
  assert (entry_lt e x) as Hlt by (eapply StronglySorted_app_1_elem_of; [exact Hs|done|by left]).
  specialize (Hle x ltac:(apply elem_of_app; right; by left)). unfold entry_lt in Hlt. lia.
Qed.

(** A store without I/O errors: reads see what is stored, where a range of logs
    is not reversed ([BTreeMap::range] panics then), writes are seen, logs are
    purged further and further, the state machine takes the entries in order
    and answers each responder, an installed snapshot is the state and
    the current snapshot, and a snapshot is always built when it is forced, of
    the applied state.  [snapshot_valid] tells the snapshots that the
    application can install; the ones that it builds are such. *)
Class RaftStorageLaws (St : Type) `{!RaftStorage St} := {
  view : St → StoreView;
  snapshot_valid : Snapshot → Prop;
  read_vote_law st : read_vote st = Ok (sv_vote (view st));
  read_committed_law st : read_committed st = Ok (sv_committed (view st));
  get_log_state_law st : get_log_state st = Ok (mkLogState (sv_purged (view st))
    (match last (sv_log (view st)) with
     | Some e => Some (Entry_log_id e)
     | None => sv_purged (view st)
     end));
  entries_law a b st : (a ≤ b)%N → try_get_log_entries a b st = Ok (entries_in a b (sv_log (view st)));
  limited_law a b st : (a ≤ b)%N → ∃ n, limited_get_log_entries a b st = Ok (take (S n) (entries_in a b (sv_log (view st))));
  purge_law upto st : sv_purged (view st) ≼ Some upto → ∃ st', store_purge upto st = (Ok tt, st') ∧ view st' = view_purge upto (view st);
  applied_law st : applied_state st = Ok (sv_applied (view st), sv_membership (view st));
  apply_law items st : ∃ sent st', sm_apply (Ok <$> items) st = (Ok tt, sent, st') ∧
    sent.*1 = omap snd items ∧ view st' = view_apply items.*1 (view st);
  snapshot_law st : get_current_snapshot st = Ok (sv_snapshot (view st));
  install_law s st : snapshot_valid s → ∃ st', install_snapshot (Snapshot_meta s) (Snapshot_snapshot s) st = (Ok tt, st') ∧
    view st' = view_install s (view st);
  force_law st : is_Some (try_create_snapshot_builder true st);
  build_law force st build : try_create_snapshot_builder force st = Some build →
    ∃ s st', build st = (Ok s, st') ∧ view st' = view_snapshot s (view st) ∧ snapshot_valid s ∧
      Snapshot_meta s = mkSnapshotMeta (sv_applied (view st)) (sv_membership (view st));
}.

(** ** A store in memory

    The interface and its laws have an instance: the state is the view itself.
    A stream that has an error is applied up to the error. *)
Fixpoint mem_take {E : Type} (items : list (result (Entry * option ApplyResponder) E)) :
    result unit E * list (Entry * option ApplyResponder) :=
  match items with
  | [] => (Ok tt, [])
  | Err e :: _ => (Err e, [])
  | Ok x :: items => let '(r, xs) := mem_take items in (r, x :: xs)
  end.

#[local] Instance mem_store (data : SnapshotData) : RaftStorage StoreView := {
  IoError := unit;
  Response := N;
  read_vote st := Ok (sv_vote st);
  read_committed st := Ok (sv_committed st);
  get_log_state st := Ok (mkLogState (sv_purged st)
    (match last (sv_log st) with Some e => Some (Entry_log_id e) | None => sv_purged st end));
  try_get_log_entries a b st := Ok (entries_in a b (sv_log st));
  limited_get_log_entries a b st := Ok (entries_in a b (sv_log st));
  store_purge upto st := (Ok tt, view_purge upto st);
  applied_state st := Ok (sv_applied st, sv_membership st);
  sm_apply items st :=
    let '(r, xs) := mem_take items in
    (r, omap (λ x, (., Entry_index x.1) <$> x.2) xs, view_apply xs.*1 st);
  get_current_snapshot st := Ok (sv_snapshot st);
  install_snapshot meta data st := (Ok tt, view_install (mkSnapshot meta data) st);
  try_create_snapshot_builder _ _ := Some (λ st,
    let s := mkSnapshot (mkSnapshotMeta (sv_applied st) (sv_membership st)) data in
    (Ok s, view_snapshot s st));
}.

Lemma mem_take_ok {E} (items : list (Entry * option ApplyResponder)) :
  mem_take (E:=E) (Ok <$> items) = (Ok tt, items).
Proof. induction items as [|x items IH]; [done|]. cbn. by rewrite IH. Qed.

#[local] Instance mem_store_laws (data : SnapshotData) : @RaftStorageLaws StoreView (mem_store data).
Proof.
  refine {| view := id; snapshot_valid _ := True |}; cbn; try done.
  - intros a b st _. exists (length (entries_in a b (sv_log st))). by rewrite take_ge by lia.
  - intros upto st _. by eexists.
  - intros items st. rewrite mem_take_ok. do 2 eexists. split; [done|]. split; [|done].
    induction items as [|[e [r|]] items IH]; cbn in *; by rewrite ?IH.
  - intros [meta d] st _. by eexists.
  - intros force st build [= <-]. by do 2 eexists.
Defined.
End storage.

Arguments mkClientWriteResponse {C R}.
Arguments ClientWriteResponse_log_id {C R}.
Arguments ClientWriteResponse_data {C R}.
Arguments ClientWriteResponse_membership {C R}.
Arguments mkStorageError {C E}.
