(* ===== verification/LogReader.v ===== *)
(** * Reading the log of a leader

    [storage/raft_log_reader.rs]: [leader_bounded_stream] reads entries between
    two reads of the vote, while the store may change.  The entries it gives
    were in the log while the node followed the leader. *)

From S2P Require Import Prelude Vote LogId LogIdList Quorum Membership VecProgress IOState.
From S2P Require Import MembershipState Entry RaftState Config ProgressEntry Proposer Command Storage.

Section reader.
Context {C : RaftTypeConfig} {St : Type} `{!RaftStorage St}.

(** [errors/leader_changed.rs] *)
Record LeaderChanged := mkLeaderChanged {
  LeaderChanged_expected_leader : LeaderId;
  LeaderChanged_current_vote : option Vote;
}.

Inductive LeaderBoundedStreamError :=
| LeaderBoundedStreamError_LeaderChanged (e : LeaderChanged)
| LeaderBoundedStreamError_IoError (e : IoError).

(** The store is [st1] at the first read of the vote, [st2] when the entries are
    read and [st3] at the second read of the vote. *)
Definition leader_bounded_stream (leader : LeaderId) (start end_ : u64) (st1 st2 st3 : St) :
    list (result Entry LeaderBoundedStreamError) :=
  let changed_err vote := LeaderBoundedStreamError_LeaderChanged (mkLeaderChanged leader vote) in
  match read_vote st1 with
  | Err e => [Err (LeaderBoundedStreamError_IoError e)]
  | Ok None => [Err (changed_err None)]
  | Ok (Some vote) =>
      if bool_decide (Vote_leader_id vote = leader) && Vote_is_committed vote then
        match try_get_log_entries start end_ st2 with
        | Err e => [Err (LeaderBoundedStreamError_IoError e)]
        | Ok entries =>
            match read_vote st3 with
            | Err e => [Err (LeaderBoundedStreamError_IoError e)]
            | Ok current_vote =>
                if decide (current_vote = Some vote) then Ok <$> entries else [Err (changed_err current_vote)]
            end
        end
      else [Err (changed_err (Some vote))]
  end.

Context `{!RaftLeaderIdLaws C, !RaftStorageLaws St}.

(** Stored votes do not move back. *)
Definition vote_kept (st st' : St) : Prop := ∀ v, sv_vote (view st) = Some v → ∃ v', sv_vote (view st') = Some v' ∧ pleb v v' = true.

(** The stream of a leader: if the vote in the store does not move back
    meanwhile, the stream is the entries of the range, all read while the vote
    was the committed one of the leader, or it is one error, with a vote other
    than that. *)
Theorem leader_stream_bounded leader start end_ st1 st2 st3 :
  (start ≤ end_)%N → vote_kept st1 st2 → vote_kept st2 st3 →
  let led st := sv_vote (view st) = Some (mkVote leader true) in
  (led st1 ∧ led st2 ∧ led st3 ∧
    leader_bounded_stream leader start end_ st1 st2 st3 = Ok <$> entries_in start end_ (sv_log (view st2))) ∨
  ∃ current, current ≠ Some (mkVote leader true) ∧ (sv_vote (view st1) = current ∨ sv_vote (view st3) = current) ∧
    leader_bounded_stream leader start end_ st1 st2 st3 =
      [Err (LeaderBoundedStreamError_LeaderChanged (mkLeaderChanged leader current))].
Proof.
  intros Hse H12 H23. cbn zeta. unfold leader_bounded_stream. rewrite !read_vote_law, entries_law by done.
  destruct (sv_vote (view st1)) as [[lid com]|] eqn:E1; [|right; exists None; auto]. cbn.
  destruct (bool_decide (lid = leader) && com) eqn:Hl; cycle 1.
  { right. exists (Some (mkVote lid com)). split_and!; [|by left|done]. intros [= -> ->].
    by rewrite bool_decide_eq_true_2 in Hl. }
  apply andb_true_iff in Hl as [->%bool_decide_eq_true ->]. case_decide as E3.
  - left. destruct (H12 _ E1) as (v2 & E2 & Hle). destruct (H23 _ E2) as (v3 & E3' & Hle').
    assert (v3 = mkVote leader true) as -> by congruence. split_and!; [done| |done|done].
    rewrite E2. f_equal. symmetry. by apply (pleb_antisym (A := Vote)).
  - right. eexists. split_and!; [exact E3|by right|done].
Qed.
End reader.

Module LogReaderWitness.
#[local] Existing Instance std_config.
#[local] Instance memory : RaftStorage StoreView := mem_store (C := std_config) tt.
#[local] Instance memory_laws : RaftStorageLaws StoreView := mem_store_laws (C := std_config) tt.

Definition lid (i : u64) : LogId := mkLogId (C := std_config) (LeaderIdStd.mkCommitted 3) i.
Definition store (v : Vote) : StoreView :=
  mkStoreView (Some v) None None [Entry_new_blank (lid 0); Entry_new_blank (lid 1)] [] None StoredMembership_default None.
Definition leads : Vote := Vote_new_committed (C := std_config) 3 1.
Definition later : Vote := Vote_new (C := std_config) 4 2.

Lemma leader_stream_bounded_witness :
  leader_bounded_stream (Vote_leader_id leads) 1 2 (store leads) (store leads) (store leads) = [Ok (Entry_new_blank (lid 1))] ∧
  leader_bounded_stream (Vote_leader_id leads) 1 2 (store leads) (store leads) (store later) =
    [Err (LeaderBoundedStreamError_LeaderChanged (mkLeaderChanged (Vote_leader_id leads) (Some later)))].
Proof.
  split.
  - destruct (leader_stream_bounded (Vote_leader_id leads) 1 2 (store leads) (store leads) (store leads))
      as [(_ & _ & _ & ->)|(c & Hc & Hv & _)].
    + lia.
    + intros v Hv. exists v. split; [done|apply pleb_refl].
    + intros v Hv. exists v. split; [done|apply pleb_refl].
    + reflexivity.
    + exfalso. apply Hc. by destruct Hv as [<-|<-].
  - destruct (leader_stream_bounded (Vote_leader_id leads) 1 2 (store leads) (store leads) (store later))
      as [(_ & _ & [=] & _)|(c & Hc & Hv & ->)].
    + lia.
    + intros v Hv. exists v. split; [done|apply pleb_refl].
    + intros v [= <-]. exists later. done.
    + destruct Hv as [<-|<-]; [by destruct Hc|reflexivity].
Defined.
End LogReaderWitness.
