(* ===== verification/MemStore.v ===== *)
(** * The store in memory

    [testing/memstore.rs]: the log store and the state machine that the crate
    comes with, as one state.  Each operation is one step: the locks of the
    fields are held in turn, and the delays that can be configured between them
    are left out.

    The store implements what [Storage.v] asks of an application
    ([RaftStorageLaws]), and it refines a store whose state machine is the
    list of the entries that were applied and whose snapshots are such lists. *)

From stdpp Require Import strings.
From S2P Require Import Prelude Vote LogId LogIdList Quorum Membership VecProgress IOState.
From S2P Require Import MembershipState Entry RaftState Config ProgressEntry Proposer Command.
From S2P Require Import Engine Replication Following LeaderHandler ReadQueue Storage.

Record ClientRequest := mkClientRequest {
  ClientRequest_client : string;
  ClientRequest_serial : u64;
  ClientRequest_status : string;
}.

Definition ClientResponse : Type := option string.

(** [declare_raft_types!]; [Bytes] is [Vec<u8>]. *)
Definition mem_config (Bytes : Type) : RaftTypeConfig := LeaderIdAdv.config unit ClientRequest Bytes _.
#[export] Instance mem_config_laws Bytes : RaftLeaderIdLaws (mem_config Bytes) := LeaderIdAdv.config_laws _ _ _ _.

Section mem_store.
Context {Bytes : Type}.
#[local] Instance types : RaftTypeConfig := mem_config Bytes.

Record MemStoreStateMachine := mkMemStoreStateMachine {
  last_applied_log : option LogId;
  last_membership : StoredMembership;
  client_status : gmap string string;
}.
Definition MemStoreStateMachine_default : MemStoreStateMachine :=
  mkMemStoreStateMachine None StoredMembership_default ∅.

Record MemStoreSnapshot := mkMemStoreSnapshot { mem_meta : SnapshotMeta; mem_data : Bytes }.

(** The log is a [BTreeMap], a list sorted by index. *)
Record MemLogStore := mkMemLogStore {
  last_purged_log_id : option LogId;
  enable_saving_committed : bool;
  mem_committed : option LogId;
  mem_log : list (u64 * Entry);
  mem_vote : option Vote;
  return_empty_limited_get : bool;
  fail_next_limited_get : bool;
}.

Record MemStateMachine := mkMemStateMachine {
  mem_sm : MemStoreStateMachine;
  mem_allow_build_snapshot : bool;
  current_snapshot : option MemStoreSnapshot;
  try_create_snapshot_builder_count : u64;
  mem_panic_on_apply : bool;
}.

Implicit Types (ls : MemLogStore) (ms : MemStateMachine) (sm : MemStoreStateMachine) (e : Entry) (es : list Entry).

Definition MemLogStore_new : MemLogStore := mkMemLogStore None true None [] None false false.
Definition MemStateMachine_new : MemStateMachine :=
  mkMemStateMachine MemStoreStateMachine_default true None 0 false.
Definition new_mem_store : MemLogStore * MemStateMachine := (MemLogStore_new, MemStateMachine_new).

Definition set_return_empty_limited_get (value : bool) ls : MemLogStore :=
  mkMemLogStore (last_purged_log_id ls) (enable_saving_committed ls) (mem_committed ls) (mem_log ls) (mem_vote ls)
    value (fail_next_limited_get ls).
Definition set_fail_next_limited_get (value : bool) ls : MemLogStore :=
  mkMemLogStore (last_purged_log_id ls) (enable_saving_committed ls) (mem_committed ls) (mem_log ls) (mem_vote ls)
    (return_empty_limited_get ls) value.
Definition allow_build_snapshot (allowed : bool) ms : MemStateMachine :=
  mkMemStateMachine (mem_sm ms) allowed (current_snapshot ms) (try_create_snapshot_builder_count ms) (mem_panic_on_apply ms).
Definition panic_on_apply (panic : bool) ms : MemStateMachine :=
  mkMemStateMachine (mem_sm ms) (mem_allow_build_snapshot ms) (current_snapshot ms)
    (try_create_snapshot_builder_count ms) panic.
Definition take_try_create_snapshot_builder_count ms : u64 * MemStateMachine :=
  (try_create_snapshot_builder_count ms,
   mkMemStateMachine (mem_sm ms) (mem_allow_build_snapshot ms) (current_snapshot ms) 0 (mem_panic_on_apply ms)).
Definition with_snapshot (s : option MemStoreSnapshot) ms : MemStateMachine :=
  mkMemStateMachine (mem_sm ms) (mem_allow_build_snapshot ms) s (try_create_snapshot_builder_count ms)
    (mem_panic_on_apply ms).
Definition with_sm sm ms : MemStateMachine :=
  mkMemStateMachine sm (mem_allow_build_snapshot ms) (current_snapshot ms) (try_create_snapshot_builder_count ms)
    (mem_panic_on_apply ms).
Definition drop_snapshot ms : MemStateMachine := with_snapshot None ms.
Definition clear_state_machine ms : MemStateMachine := with_sm MemStoreStateMachine_default ms.

(** ** The log store *)

(** [MemError_Panicked] is for the interface of [Storage.v], which has no
    panics: the task that calls the store ends with it. *)
Inductive MemError := MemError_Injected | MemError_InvalidData | MemError_Panicked.

(** [BTreeMap::range] of the keys that satisfy [P]. *)
Definition log_range (P : u64 → bool) ls : list (u64 * Entry) := filter (λ kv, P kv.1) (mem_log ls).

(** [try_get_log_entries] of [start..end]: [BTreeMap::range] panics when the
    start is greater than the end. *)
Definition MemLogStore_try_get_log_entries (start end_ : u64) ls : outcome (result (list Entry) MemError) :=
  if (end_ <? start) then Panic else Ret (Ok (log_range (λ k, (start <=? k) && (k <? end_)) ls).*2).

Definition MemLogStore_read_vote ls : result (option Vote) MemError := Ok (mem_vote ls).

Definition MemLogStore_limited_get_log_entries (start end_ : u64) ls :
    outcome (result (list Entry) MemError * MemLogStore) :=
  let fail := fail_next_limited_get ls in
  let ls := set_fail_next_limited_get false ls in
  if fail then Ret (Err MemError_Injected, ls)
  else if return_empty_limited_get ls then Ret (Ok [], ls)
  else entries ← MemLogStore_try_get_log_entries start end_ ls; Ret (entries, ls).

Definition MemLogStore_get_log_state ls : result LogState MemError :=
  let last := (λ kv, Entry_log_id kv.2) <$> last (mem_log ls) in
  let last_purged := last_purged_log_id ls in
  let last := match last with None => last_purged | Some x => Some x end in
  Ok (mkLogState last_purged last).

Definition MemLogStore_save_vote (vote : Vote) ls : MemLogStore :=
  mkMemLogStore (last_purged_log_id ls) (enable_saving_committed ls) (mem_committed ls) (mem_log ls) (Some vote)
    (return_empty_limited_get ls) (fail_next_limited_get ls).

Definition MemLogStore_save_committed (committed : option LogId) ls : MemLogStore :=
  if negb (enable_saving_committed ls) then ls
  else mkMemLogStore (last_purged_log_id ls) (enable_saving_committed ls) committed (mem_log ls) (mem_vote ls)
    (return_empty_limited_get ls) (fail_next_limited_get ls).

Definition MemLogStore_read_committed ls : result (option LogId) MemError :=
  if negb (enable_saving_committed ls) then Ok None else Ok (mem_committed ls).

Definition with_log (log : list (u64 * Entry)) ls : MemLogStore :=
  mkMemLogStore (last_purged_log_id ls) (enable_saving_committed ls) (mem_committed ls) log (mem_vote ls)
    (return_empty_limited_get ls) (fail_next_limited_get ls).
Definition with_purged (purged : option LogId) ls : MemLogStore :=
  mkMemLogStore purged (enable_saving_committed ls) (mem_committed ls) (mem_log ls) (mem_vote ls)
    (return_empty_limited_get ls) (fail_next_limited_get ls).

(** The callback is called with [Ok] when the entries are in. *)
Definition MemLogStore_append (entries : list Entry) ls : MemLogStore :=
  with_log (foldl (λ log entry, BTreeMap_insert (Entry_index entry) entry log) (mem_log ls) entries) ls.

(** [remove] of every key of a range. *)
Definition remove_keys (keys : list u64) (log : list (u64 * Entry)) : list (u64 * Entry) :=
  foldl (λ log key, match BTreeMap_remove key log with Some (_, log') => log' | None => log end) log keys.

Definition MemLogStore_truncate_after (last_log_id : option LogId) ls : MemLogStore :=
  let start_index := match last_log_id with Some log_id => u64_add (LogId_index log_id) 1 | None => 0%N end in
  let keys := (log_range (λ k, start_index <=? k) ls).*1 in
  with_log (remove_keys keys (mem_log ls)) ls.

Definition MemLogStore_purge (log_id : LogId) ls : outcome MemLogStore :=
  _ ← assert (last_purged_log_id ls <=? Some log_id);
  let ls := with_purged (Some log_id) ls in
  let keys := (log_range (λ k, k <=? LogId_index log_id) ls).*1 in
  Ret (with_log (remove_keys keys (mem_log ls)) ls).

(** ** The state machine *)

Definition MemStateMachine_applied_state ms : result (option LogId * StoredMembership) MemError :=
  Ok (last_applied_log (mem_sm ms), last_membership (mem_sm ms)).

(** The body of the loop of [apply]. *)
Definition apply_entry e sm : ClientResponse * MemStoreStateMachine :=
  let sm := mkMemStoreStateMachine (Some (Entry_log_id e)) (last_membership sm) (client_status sm) in
  match Entry_payload e with
  | EntryPayload_Blank => (None, sm)
  | EntryPayload_Normal data =>
      (client_status sm !! ClientRequest_client data,
       mkMemStoreStateMachine (last_applied_log sm) (last_membership sm)
         (<[ClientRequest_client data := ClientRequest_status data]> (client_status sm)))
  | EntryPayload_Membership mem =>
      (None, mkMemStoreStateMachine (last_applied_log sm) (mkStoredMembership (Some (Entry_log_id e)) mem)
         (client_status sm))
  end.

(** The responses that were sent, and the state. *)
Fixpoint apply_loop (panic : bool) (entries : list (result (Entry * option ApplyResponder) MemError)) sm :
    outcome (result unit MemError * list (ApplyResponder * ClientResponse) * MemStoreStateMachine) :=
  match entries with
  | [] => Ret (Ok tt, [], sm)
  | Err err :: _ => Ret (Err err, [], sm)
  | Ok (entry, responder) :: entries =>
      if panic then Panic
      else
        let '(response, sm) := apply_entry entry sm in
        '(r, sent, sm) ← apply_loop panic entries sm;
        Ret (r, match responder with Some responder => [(responder, response)] | None => [] end ++ sent, sm)
  end.

Definition MemStateMachine_apply (entries : list (result (Entry * option ApplyResponder) MemError)) ms :
    outcome (result unit MemError * list (ApplyResponder * ClientResponse) * MemStateMachine) :=
  '(r, sent, sm) ← apply_loop (mem_panic_on_apply ms) entries (mem_sm ms);
  Ret (r, sent, with_sm sm ms).

(** The builder shares the state of the state machine. *)
Definition MemStateMachine_try_create_snapshot_builder (force : bool) ms : bool * MemStateMachine :=
  (force || mem_allow_build_snapshot ms,
   mkMemStateMachine (mem_sm ms) (mem_allow_build_snapshot ms) (current_snapshot ms)
     (u64_add (try_create_snapshot_builder_count ms) 1) (mem_panic_on_apply ms)).

Definition MemStateMachine_get_current_snapshot ms : result (option Snapshot) MemError :=
  match current_snapshot ms with
  | Some s => Ok (Some (mkSnapshot (mem_meta s) (mem_data s)))
  | None => Ok None
  end.

(** The codec [bitcode]. *)
Context (encode : MemStoreStateMachine → Bytes) (decode : Bytes → option MemStoreStateMachine).

Definition MemStateMachine_build_snapshot ms : result Snapshot MemError * MemStateMachine :=
  let data := encode (mem_sm ms) in
  let meta := mkSnapshotMeta (last_applied_log (mem_sm ms)) (last_membership (mem_sm ms)) in
  (Ok (mkSnapshot meta data), with_snapshot (Some (mkMemStoreSnapshot meta data)) ms).

Definition MemStateMachine_install_snapshot (meta : SnapshotMeta) (data : Bytes) ms :
    result unit MemError * MemStateMachine :=
  match decode data with
  | None => (Err MemError_InvalidData, ms)
  | Some new_sm => (Ok tt, with_snapshot (Some (mkMemStoreSnapshot meta data)) (with_sm new_sm ms))
  end.

(** ** Sorted maps *)

Lemma remove_filter (k : u64) (l : list (u64 * Entry)) : bsorted l →
  match BTreeMap_remove k l with Some (_, l') => l' | None => l end = filter (λ kv, kv.1 ≠ k) l.
Proof.
  unfold bsorted. induction 1 as [|[k' v'] l Hl IH Hf]; [done|]. cbn [BTreeMap_remove]. rewrite filter_cons. cbn [fst].
  assert (cmp k k' ≠ Gt → filter (λ kv : u64 * Entry, kv.1 ≠ k) l = l) as Hall.
  { intros Hle. apply filter_all. rewrite Forall_forall in Hf. intros kv Hkv E. apply Hf in Hkv.
    unfold key_lt, ord_lt in Hkv. cbn in Hkv. rewrite E, cmp_flip in Hkv. by destruct (cmp k k'). }
  destruct (cmp k k') eqn:E.
  - apply cmp_eq in E as ->. rewrite decide_False by (intros Hn; by apply Hn). symmetry. by apply Hall.
  - rewrite decide_True by (intros ->; by rewrite cmp_refl in E). by rewrite Hall.
  - rewrite decide_True by (intros ->; by rewrite cmp_refl in E).
    destruct (BTreeMap_remove k l) as [[v l']|]; cbn; by rewrite IH at 1.
Qed.

Lemma remove_keys_filter keys (l : list (u64 * Entry)) : bsorted l → remove_keys keys l = filter (λ kv, kv.1 ∉ keys) l.
Proof.
  unfold remove_keys. revert l. induction keys as [|k keys IH]; intros l Hl; cbn [foldl].
  { symmetry. apply filter_all. intros kv _. apply not_elem_of_nil. }
  rewrite remove_filter by done. rewrite IH by by apply bsorted_filter.
  rewrite list_filter_filter. apply list_filter_iff. intros kv. rewrite not_elem_of_cons. tauto.
Qed.

(** Removing the keys of a range leaves the rest. *)
Lemma remove_range (P : u64 → bool) ls : bsorted (mem_log ls) →
  remove_keys (log_range P ls).*1 (mem_log ls) = filter (λ kv, P kv.1 = false) (mem_log ls).
Proof.
  intros Hs. rewrite remove_keys_filter by done. apply filter_ext_in. intros kv Hkv.
  unfold log_range. rewrite list_elem_of_fmap. split.
  - intros Hn. apply not_true_is_false. intros HP. apply Hn. exists kv. split; [done|].
    apply list_elem_of_filter. split; [|done]. by rewrite HP.
  - intros HP (kv' & E & Hin%list_elem_of_filter). rewrite <- E, HP in Hin. by destruct Hin.
Qed.

Definition keyed (log : list (u64 * Entry)) : Prop := bsorted log ∧ Forall (λ kv, kv.1 = Entry_index kv.2) log.

Lemma keyed_filter (P : u64 → Prop) `{!∀ k, Decision (P k)} log : keyed log →
  keyed (filter (λ kv, P kv.1) log) ∧ (filter (λ kv, P kv.1) log).*2 = filter (λ e, P (Entry_index e)) log.*2.
Proof.
  intros [Hs Hk]. split; [split; [by apply bsorted_filter|by apply Forall_filter]|].
  clear Hs. induction Hk as [|[k e] log Hke Hk IH]; [done|]. cbn in Hke. subst k. rewrite fmap_cons, !filter_cons. cbn [fst snd].
  case_decide; by rewrite ?fmap_cons, IH.
Qed.

Lemma keyed_insert e log : keyed log → keyed (BTreeMap_insert (Entry_index e) e log).
Proof. intros [Hs Hk]. split; [by apply BTreeMap_insert_sorted|by apply BTreeMap_insert_Forall]. Qed.

Lemma keyed_append es log : keyed log → keyed (foldl (λ log entry, BTreeMap_insert (Entry_index entry) entry log) log es).
Proof. revert log. induction es as [|e es IH]; intros log Hk; [done|]. cbn. by apply IH, keyed_insert. Qed.

Lemma keyed_sorted log : keyed log → StronglySorted entry_lt log.*2.
Proof.
  intros [Hs Hk]. unfold bsorted in Hs. induction Hs as [|[k e] log Hs IH Hf]; [constructor|].
  apply Forall_cons in Hk as [Hke Hk]. cbn in Hke. subst k. cbn [fmap list_fmap snd]. constructor; [by apply IH|].
  rewrite Forall_forall in Hf, Hk. apply Forall_forall. intros e' ([k' ?] & -> & Hin)%list_elem_of_fmap.
  pose proof (Hf _ Hin) as Hlt. pose proof (Hk _ Hin) as E. cbn in *. unfold key_lt in Hlt. cbn in Hlt.
  unfold entry_lt. rewrite <- E. by apply N_ord_lt.
Qed.

(** Entries that come after the log are appended. *)
Lemma insert_after e log : keyed log → StronglySorted entry_lt (log.*2 ++ [e]) →
  (BTreeMap_insert (Entry_index e) e log).*2 = log.*2 ++ [e].
Proof.
  intros [_ Hk] Hs. induction Hk as [|[k x] log Hkx Hk IH]; [done|]. cbn in *. subst k.
  inversion Hs as [|? ? Hs' Hf]; subst. specialize (IH Hs').
  assert (entry_lt x e) as Hlt by (rewrite Forall_forall in Hf; apply Hf; set_solver).
  assert (cmp (Entry_index e) (Entry_index x) = Gt) as ->.
  { unfold cmp, N_ord. apply N.compare_gt_iff. exact Hlt. }
  cbn. by rewrite IH.
Qed.

Lemma append_after es log : keyed log → StronglySorted entry_lt (log.*2 ++ es) →
  (foldl (λ log entry, BTreeMap_insert (Entry_index entry) entry log) log es).*2 = log.*2 ++ es.
Proof.
  revert log. induction es as [|e es IH]; intros log Hk Hs; [by rewrite app_nil_r|]. cbn.
  rewrite cons_middle, app_assoc in Hs. pose proof Hs as (_ & Hs1 & _)%StronglySorted_app.
  rewrite IH; [by rewrite insert_after, <- app_assoc|by apply keyed_insert|by rewrite insert_after].
Qed.

Lemma last_fmap_snd (log : list (u64 * Entry)) : snd <$> last log = last log.*2.
Proof. symmetry. apply fmap_last. Qed.

(** ** Applied entries *)

Definition replay_from sm es : MemStoreStateMachine := foldl (λ sm e, (apply_entry e sm).2) sm es.
Definition replay es : MemStoreStateMachine := replay_from MemStoreStateMachine_default es.

(** The status that the entries leave a client with. *)
Definition status_of es (client : string) : option string :=
  last (omap (λ e, match Entry_payload e with
                   | EntryPayload_Normal data =>
                       if decide (ClientRequest_client data = client) then Some (ClientRequest_status data) else None
                   | _ => None
                   end) es).

(** What an entry is answered after the entries [es]. *)
Definition answer_of es e : ClientResponse :=
  match Entry_payload e with
  | EntryPayload_Normal data => status_of es (ClientRequest_client data)
  | _ => None
  end.

(** Each entry that has a responder is answered. *)
Fixpoint answers es (items : list (Entry * option ApplyResponder)) : list (ApplyResponder * ClientResponse) :=
  match items with
  | [] => []
  | (e, responder) :: items =>
      match responder with Some r => [(r, answer_of es e)] | None => [] end ++ answers (es ++ [e]) items
  end.

Lemma replay_snoc sm es e : replay_from sm (es ++ [e]) = (apply_entry e (replay_from sm es)).2.
Proof. unfold replay_from. by rewrite foldl_snoc. Qed.

Lemma replay_app sm es es' : replay_from sm (es ++ es') = replay_from (replay_from sm es) es'.
Proof. unfold replay_from. by rewrite foldl_app. Qed.

Lemma replay_applied sm es :
  last_applied_log (replay_from sm es) = match last es with Some e => Some (Entry_log_id e) | None => last_applied_log sm end.
Proof.
  destruct es as [|e es _] using rev_ind; [done|]. rewrite replay_snoc, last_snoc. unfold apply_entry. by destruct (Entry_payload e).
Qed.

Lemma replay_membership sm es :
  last_membership (replay_from sm es) = default (last_membership sm) (last (memberships_of es)).
Proof.
  induction es as [|e es IH] using rev_ind; [done|]. rewrite replay_snoc, memberships_of_app, last_app.
  unfold apply_entry, memberships_of, Entry_get_membership. cbn. by destruct (Entry_payload e).
Qed.

(** The map of the state machine has the last status of each client. *)
Lemma replay_status es client : client_status (replay es) !! client = status_of es client.
Proof.
  unfold replay. induction es as [|e es IH] using rev_ind; [done|]. rewrite replay_snoc. unfold status_of, apply_entry in *.
  rewrite omap_app, last_app. cbn. destruct (Entry_payload e) as [|data|mem]; cbn; [done| |done].
  case_decide as E; [by rewrite E, lookup_insert_eq|by rewrite lookup_insert_ne].
Qed.

Lemma apply_entry_answer es e : (apply_entry e (replay es)).1 = answer_of es e.
Proof. unfold apply_entry, answer_of. destruct (Entry_payload e); [done| |done]. apply replay_status. Qed.

(** The loop of [apply], from any state. *)
Lemma apply_loop_ok (items : list (Entry * option ApplyResponder)) sm :
  ∃ sent, apply_loop false (Ok <$> items) sm = Ret (Ok tt, sent, replay_from sm items.*1) ∧ sent.*1 = omap snd items.
Proof.
  revert sm. induction items as [|[e r] items IH]; intros sm; [by exists []|]. rewrite fmap_cons. cbn [fst].
  change (replay_from sm (e :: items.*1)) with (replay_from (apply_entry e sm).2 items.*1). cbn.
  destruct (apply_entry e sm) as [response sm']. destruct (IH sm') as (sent & -> & Hs). cbn.
  eexists. split; [done|]. destruct r; cbn; by rewrite Hs.
Qed.

Lemma apply_loop_replay (items : list (Entry * option ApplyResponder)) es :
  apply_loop false (Ok <$> items) (replay es) = Ret (Ok tt, answers es items, replay (es ++ items.*1)).
Proof.
  revert es. induction items as [|[e r] items IH]; intros es; [by rewrite app_nil_r|]. cbn.
  rewrite (surjective_pairing (apply_entry e (replay es))), apply_entry_answer.
  assert ((apply_entry e (replay es)).2 = replay (es ++ [e])) as -> by (symmetry; apply replay_snoc).
  rewrite IH. cbn. by rewrite <- app_assoc.
Qed.

(** ** The abstract store *)

Record AbsStore := mkAbsStore {
  ab_vote : option Vote;
  ab_committed : option LogId;
  ab_purged : option LogId;
  ab_log : list Entry;
  ab_applied : list Entry;
  ab_snapshot : option (list Entry);
}.
Implicit Types (a : AbsStore).
Definition AbsStore_new : AbsStore := mkAbsStore None None None [] [] None.

Inductive StoreOp :=
| StoreOp_SaveVote (vote : Vote)
| StoreOp_SaveCommitted (committed : option LogId)
| StoreOp_Append (entries : list Entry)
| StoreOp_TruncateAfter (last_log_id : option LogId)
| StoreOp_Purge (log_id : LogId)
| StoreOp_Apply (items : list (Entry * option ApplyResponder))
| StoreOp_BuildSnapshot (force : bool)
| StoreOp_InstallSnapshot (s : Snapshot).

Inductive StoreReply :=
| StoreReply_Done
| StoreReply_Sent (sent : list (ApplyResponder * ClientResponse))
| StoreReply_Snapshot (s : Snapshot)
| StoreReply_Deferred.

(** An operation of the store in memory. *)
Definition mem_op (op : StoreOp) (st : MemLogStore * MemStateMachine) :
    outcome (result StoreReply MemError * (MemLogStore * MemStateMachine)) :=
  let '(ls, ms) := st in
  match op with
  | StoreOp_SaveVote vote => Ret (Ok StoreReply_Done, (MemLogStore_save_vote vote ls, ms))
  | StoreOp_SaveCommitted committed => Ret (Ok StoreReply_Done, (MemLogStore_save_committed committed ls, ms))
  | StoreOp_Append entries => Ret (Ok StoreReply_Done, (MemLogStore_append entries ls, ms))
  | StoreOp_TruncateAfter last => Ret (Ok StoreReply_Done, (MemLogStore_truncate_after last ls, ms))
  | StoreOp_Purge log_id => ls ← MemLogStore_purge log_id ls; Ret (Ok StoreReply_Done, (ls, ms))
  | StoreOp_Apply items =>
      '(r, sent, ms) ← MemStateMachine_apply (Ok <$> items) ms;
      Ret (match r with Ok _ => Ok (StoreReply_Sent sent) | Err err => Err err end, (ls, ms))
  | StoreOp_BuildSnapshot force =>
      let '(created, ms) := MemStateMachine_try_create_snapshot_builder force ms in
      if created then
        let '(r, ms) := MemStateMachine_build_snapshot ms in
        Ret (match r with Ok s => Ok (StoreReply_Snapshot s) | Err err => Err err end, (ls, ms))
      else Ret (Ok StoreReply_Deferred, (ls, ms))
  | StoreOp_InstallSnapshot s =>
      let '(r, ms) := MemStateMachine_install_snapshot (Snapshot_meta s) (Snapshot_snapshot s) ms in
      Ret (match r with Ok _ => Ok StoreReply_Done | Err err => Err err end, (ls, ms))
  end.

(** [s] is a snapshot of the state after the entries [es]. *)
Definition snapshot_of es (s : Snapshot) : Prop :=
  decode (Snapshot_snapshot s) = Some (replay es) ∧
  Snapshot_meta s = mkSnapshotMeta (last_applied_log (replay es)) (last_membership (replay es)).

(** What the operation is to do, where the application may call it: entries are
    appended without a hole before them, logs are purged further and further,
    and snapshots are of applied entries. *)
Inductive abs_op a : StoreOp → StoreReply → AbsStore → Prop :=
| abs_save_vote vote : abs_op a (StoreOp_SaveVote vote) StoreReply_Done
    (mkAbsStore (Some vote) (ab_committed a) (ab_purged a) (ab_log a) (ab_applied a) (ab_snapshot a))
| abs_save_committed c : abs_op a (StoreOp_SaveCommitted c) StoreReply_Done
    (mkAbsStore (ab_vote a) c (ab_purged a) (ab_log a) (ab_applied a) (ab_snapshot a))
| abs_append es : abs_op a (StoreOp_Append es) StoreReply_Done
    (mkAbsStore (ab_vote a) (ab_committed a) (ab_purged a) (ab_log a ++ es) (ab_applied a) (ab_snapshot a))
| abs_truncate last : abs_op a (StoreOp_TruncateAfter last) StoreReply_Done
    (mkAbsStore (ab_vote a) (ab_committed a) (ab_purged a)
      (filter (λ e, (Entry_index e < match last with Some x => LogId_index x + 1 | None => 0 end)%N) (ab_log a)) (ab_applied a) (ab_snapshot a))
| abs_purge upto : abs_op a (StoreOp_Purge upto) StoreReply_Done
    (mkAbsStore (ab_vote a) (ab_committed a) (Some upto)
      (filter (λ e, (LogId_index upto < Entry_index e)%N) (ab_log a)) (ab_applied a) (ab_snapshot a))
| abs_apply items : abs_op a (StoreOp_Apply items) (StoreReply_Sent (answers (ab_applied a) items))
    (mkAbsStore (ab_vote a) (ab_committed a) (ab_purged a) (ab_log a) (ab_applied a ++ items.*1) (ab_snapshot a))
| abs_build force s : snapshot_of (ab_applied a) s → abs_op a (StoreOp_BuildSnapshot force) (StoreReply_Snapshot s)
    (mkAbsStore (ab_vote a) (ab_committed a) (ab_purged a) (ab_log a) (ab_applied a) (Some (ab_applied a)))
| abs_install es s : snapshot_of es s → abs_op a (StoreOp_InstallSnapshot s) StoreReply_Done
    (mkAbsStore (ab_vote a) (ab_committed a) (ab_purged a) (ab_log a) es (Some es)).

Definition op_ok a (op : StoreOp) : Prop :=
  match op with
  | StoreOp_Append es => StronglySorted entry_lt (ab_log a ++ es)
  | StoreOp_TruncateAfter (Some x) => (LogId_index x + 1 < u64_modulus)%N
  | StoreOp_Purge upto => ab_purged a ≼ Some upto
  | StoreOp_InstallSnapshot s => ∃ es, snapshot_of es s
  | _ => True
  end.

(** The operations may be called one after the other. *)
Fixpoint allowed a (ops : list StoreOp) : Prop :=
  match ops with
  | [] => True
  | op :: ops => op_ok a op ∧ ∀ r a', abs_op a op r a' → allowed a' ops
  end.

Inductive abs_run a : list StoreOp → list StoreReply → AbsStore → Prop :=
| abs_run_nil : abs_run a [] [] a
| abs_run_cons op r a1 ops rs a2 : abs_op a op r a1 → abs_run a1 ops rs a2 → abs_run a (op :: ops) (r :: rs) a2.

Fixpoint mem_run (ops : list StoreOp) (st : MemLogStore * MemStateMachine) :
    outcome (list (result StoreReply MemError) * (MemLogStore * MemStateMachine)) :=
  match ops with
  | [] => Ret ([], st)
  | op :: ops => '(r, st) ← mem_op op st; '(rs, st) ← mem_run ops st; Ret (r :: rs, st)
  end.

(** ** The refinement *)

(** No failure is injected. *)
Definition log_ready ls : Prop :=
  enable_saving_committed ls = true ∧ return_empty_limited_get ls = false ∧ fail_next_limited_get ls = false ∧
  keyed (mem_log ls).

Record stores (st : MemLogStore * MemStateMachine) a : Prop := {
  so_log : log_ready st.1;
  so_flags : mem_panic_on_apply st.2 = false ∧ mem_allow_build_snapshot st.2 = true;
  so_vote : mem_vote st.1 = ab_vote a;
  so_committed : mem_committed st.1 = ab_committed a;
  so_purged : last_purged_log_id st.1 = ab_purged a;
  so_entries : (mem_log st.1).*2 = ab_log a;
  so_sm : mem_sm st.2 = replay (ab_applied a);
  so_snapshot : option_Forall2 (λ s es, snapshot_of es (mkSnapshot (mem_meta s) (mem_data s)))
    (current_snapshot st.2) (ab_snapshot a);
}.

(** What the reads of the store return. *)
Record reads_as (st : MemLogStore * MemStateMachine) a : Prop := {
  ra_vote : MemLogStore_read_vote st.1 = Ok (ab_vote a);
  ra_committed : MemLogStore_read_committed st.1 = Ok (ab_committed a);
  ra_state : MemLogStore_get_log_state st.1 = Ok (mkLogState (ab_purged a)
    (match last (ab_log a) with Some e => Some (Entry_log_id e) | None => ab_purged a end));
  ra_entries : ∀ i j, MemLogStore_limited_get_log_entries i j st.1 =
    if (j <? i) then Panic else Ret (Ok (entries_in i j (ab_log a)), st.1);
  ra_applied : MemStateMachine_applied_state st.2 =
    Ok ((λ e, Entry_log_id e) <$> last (ab_applied a), default StoredMembership_default (last (memberships_of (ab_applied a))));
  ra_status : ∀ client, client_status (mem_sm st.2) !! client = status_of (ab_applied a) client;
  ra_snapshot : ∃ s, MemStateMachine_get_current_snapshot st.2 = Ok s ∧ option_Forall2 (λ s es, snapshot_of es s) s (ab_snapshot a);
}.

Context (decode_encode : ∀ sm, decode (encode sm) = Some sm).

Lemma stores_new : stores new_mem_store AbsStore_new.
Proof. split; try done; [|constructor]. repeat split; constructor. Qed.

Lemma range_entries (i j : u64) ls : keyed (mem_log ls) →
  MemLogStore_try_get_log_entries i j ls =
    if (j <? i) then Panic else Ret (Ok (entries_in i j (mem_log ls).*2)).
Proof.
  intros Hk. unfold MemLogStore_try_get_log_entries, log_range, entries_in. destruct (j <? i); [done|]. do 2 f_equal.
  rewrite (list_filter_iff (λ kv : u64 * Entry, (i <=? kv.1) && (kv.1 <? j)) (λ kv, (i ≤ kv.1 < j)%N)).
  - exact (proj2 (keyed_filter (λ k, (i ≤ k < j)%N) _ Hk)).
  - intros kv. by rewrite andb_True, !Is_true_true, leb_true, ltb_true, N_ord_le, N_ord_lt.
Qed.

Lemma limited_ready (i j : u64) ls : log_ready ls →
  MemLogStore_limited_get_log_entries i j ls =
    if (j <? i) then Panic else Ret (Ok (entries_in i j (mem_log ls).*2), ls).
Proof.
  intros (_ & Hr & Hf & Hk). unfold MemLogStore_limited_get_log_entries, set_fail_next_limited_get. cbn. rewrite Hf, Hr.
  rewrite range_entries by done. destruct (j <? i); [done|]. cbn. do 2 f_equal. destruct ls. cbn in *. by subst.
Qed.

Lemma log_state_eq ls : MemLogStore_get_log_state ls = Ok (mkLogState (last_purged_log_id ls)
  (match last (mem_log ls).*2 with Some e => Some (Entry_log_id e) | None => last_purged_log_id ls end)).
Proof. unfold MemLogStore_get_log_state. rewrite <- last_fmap_snd. by destruct (last (mem_log ls)). Qed.

Lemma stores_reads st a : stores st a → reads_as st a.
Proof.
  intros [Hl Hf Hv Hc Hp He Hs Hsn]. pose proof Hl as (Hen & _ & _ & Hk). split.
  - by rewrite <- Hv.
  - unfold MemLogStore_read_committed. by rewrite Hen, Hc.
  - by rewrite log_state_eq, He, Hp.
  - intros i j. rewrite <- He. by apply limited_ready.
  - unfold MemStateMachine_applied_state. rewrite Hs. unfold replay. rewrite replay_applied, replay_membership.
    by destruct (last (ab_applied a)).
  - intros client. by rewrite Hs, replay_status.
  - unfold MemStateMachine_get_current_snapshot. destruct (current_snapshot st.2) as [s|]; eexists; (split; [done|]);
      inversion Hsn; by constructor.
Qed.

Lemma log_ready_filter (P : u64 → Prop) `{!∀ k, Decision (P k)} ls l :
  log_ready ls → l = filter (λ kv, P kv.1) (mem_log ls) →
  log_ready (with_log l ls) ∧ l.*2 = filter (λ e, P (Entry_index e)) (mem_log ls).*2.
Proof. intros (? & ? & ? & Hk) ->. destruct (keyed_filter P _ Hk) as [Hk' E]. split; [|done].
  unfold log_ready. by split_and!.
Qed.

Lemma truncate_run last ls : log_ready ls → (∀ x, last = Some x → (LogId_index x + 1 < u64_modulus)%N) →
  log_ready (MemLogStore_truncate_after last ls) ∧ (mem_log (MemLogStore_truncate_after last ls)).*2 =
    filter (λ e, (Entry_index e < match last with Some x => LogId_index x + 1 | None => 0 end)%N) (mem_log ls).*2.
Proof.
  intros Hr Hx. unfold MemLogStore_truncate_after. pose proof Hr as (_ & _ & _ & Hs & _).
  refine (log_ready_filter (λ k, (k < match last with Some x => LogId_index x + 1 | None => 0 end)%N) ls _ Hr _).
  rewrite remove_range by done. apply list_filter_iff. intros kv. rewrite leb_false, N_ord_lt.
  destruct last as [x|]; [|done]. by rewrite u64_add_small by by apply Hx.
Qed.

Lemma purge_run upto ls : log_ready ls → last_purged_log_id ls ≼ Some upto →
  ∃ ls', MemLogStore_purge upto ls = Ret ls' ∧ log_ready ls' ∧ last_purged_log_id ls' = Some upto ∧
    mem_vote ls' = mem_vote ls ∧ mem_committed ls' = mem_committed ls ∧
    (mem_log ls').*2 = filter (λ e, (LogId_index upto < Entry_index e)%N) (mem_log ls).*2.
Proof.
  intros Hr Hp. unfold MemLogStore_purge. apply leb_true in Hp as ->. cbn. eexists. split; [done|].
  destruct (log_ready_filter (λ k, (LogId_index upto < k)%N) (with_purged (Some upto) ls)
    (remove_keys (log_range (λ k, k <=? LogId_index upto) (with_purged (Some upto) ls)).*1 (mem_log ls))) as [Hr' E].
  - exact Hr.
  - pose proof Hr as (_ & _ & _ & Hs & _). rewrite (remove_range _ (with_purged (Some upto) ls)) by done.
    apply list_filter_iff. intros kv. by rewrite leb_false, N_ord_lt.
  - by repeat split; try apply Hr'.
Qed.

(** An operation does what it is to do. *)
Lemma mem_op_refines op st a : stores st a → op_ok a op →
  ∃ r st' a', mem_op op st = Ret (Ok r, st') ∧ abs_op a op r a' ∧ stores st' a'.
Proof.
  destruct st as [ls ms]. intros Hst Hop. pose proof Hst as [Hl [Hf1 Hf2] Hv Hc Hp He Hs Hsn]. cbn in *.
  destruct op as [vote|c|es|last|upto|items|force|s].
  - do 3 eexists. split_and!; [done|by constructor|]. by split.
  - do 3 eexists. split_and!; [done|by constructor|]. destruct Hl as (Hen & ? & ? & ?).
    unfold MemLogStore_save_committed. rewrite Hen. by split.
  - do 3 eexists. split_and!; [done|by constructor|]. destruct Hl as (? & ? & ? & Hk). cbn in Hop. rewrite <- He in Hop.
    split; try done; cbn; [unfold log_ready; split_and!; try done; by apply keyed_append|].
    rewrite append_after by done. by rewrite He.
  - do 3 eexists. split_and!; [done|by constructor|]. destruct (truncate_run last ls Hl) as [Hl' E].
    { intros x ->. exact Hop. }
    split; try done. refine (eq_trans E _). cbn. by rewrite He.
  - cbn in Hop |- *. rewrite <- Hp in Hop. destruct (purge_run upto ls Hl Hop) as (ls' & -> & Hl' & E1 & E2 & E3 & E4).
    do 3 eexists. split_and!; [done|by constructor|]. split; cbn; try done; by rewrite ?E2, ?E3, ?E4, ?He.
  - do 3 eexists. split_and!; [|by constructor|].
    + cbn. unfold MemStateMachine_apply. by rewrite Hf1, Hs, apply_loop_replay.
    + by split.
  - assert (snapshot_of (ab_applied a) (mkSnapshot (mkSnapshotMeta (last_applied_log (mem_sm ms))
      (last_membership (mem_sm ms))) (encode (mem_sm ms)))) as Hsnap by (split; cbn; by rewrite ?decode_encode, Hs).
    do 3 eexists. split_and!; [|by apply abs_build|].
    + cbn. by rewrite Hf2, orb_true_r.
    + split; try done. by constructor.
  - destruct Hop as (es & Hes). pose proof Hes as [Hd Hm]. do 3 eexists. split_and!; [|by apply (abs_install _ es)|].
    + cbn. unfold MemStateMachine_install_snapshot. by rewrite Hd.
    + split; try done. constructor. by destruct s.
Qed.

Lemma mem_run_refines ops st a : stores st a → allowed a ops →
  ∃ rs st' a', mem_run ops st = Ret (Ok <$> rs, st') ∧ abs_run a ops rs a' ∧ stores st' a'.
Proof.
  revert st a. induction ops as [|op ops IH]; intros st a Hst Hok.
  { exists [], st, a. split_and!; [done|constructor|done]. }
  destruct Hok as [Hop Hok]. destruct (mem_op_refines op st a Hst Hop) as (r & st1 & a1 & E1 & Ha & Hst1).
  destruct (IH st1 a1 Hst1 (Hok _ _ Ha)) as (rs & st2 & a2 & E2 & Hr & Hst2).
  exists (r :: rs), st2, a2. split_and!; [|by econstructor|done]. cbn. rewrite E1. cbn. by rewrite E2.
Qed.

(** C32: The store in memory implements the abstract store: operations that the
    interface allows on a new store never panic and never fail, give the
    replies of the abstract store (in particular each applied entry is answered
    with the status that its client had before), and leave a store whose reads
    return what the abstract store has: the vote, the committed log, the log
    and its ranges (a reversed range panics), the last status of each client
    among the applied entries, and a snapshot from which they can be restored. *)
Theorem mem_store_refines ops :
  allowed AbsStore_new ops →
  ∃ rs st a, mem_run ops new_mem_store = Ret (Ok <$> rs, st) ∧ abs_run AbsStore_new ops rs a ∧ reads_as st a.
Proof.
  intros Hok. destruct (mem_run_refines ops _ _ stores_new Hok) as (rs & st & a & Hrun & Habs & Hst).
  exists rs, st, a. split_and!; [done|done|by apply stores_reads].
Qed.

(** ** The interface

    A store without injected failures is one of the stores of [Storage.v].  The
    entries that were applied since the state [ms_base], and that state, are
    kept along with it. *)
Record MemStore := mkMemStore {
  ms_log : MemLogStore;
  ms_sm : MemStateMachine;
  ms_base : MemStoreStateMachine;
  ms_history : list Entry;
  ms_ready : log_ready ms_log ∧ mem_panic_on_apply ms_sm = false ∧ mem_sm ms_sm = replay_from ms_base ms_history;
}.
Implicit Types (st : MemStore).

(** The log store after an operation; a panic leaves it. *)
Definition with_store st ls (H : log_ready ls) : MemStore :=
  mkMemStore ls (ms_sm st) (ms_base st) (ms_history st) (conj H (proj2 (ms_ready st))).

Lemma purge_ready upto ls ls' : MemLogStore_purge upto ls = Ret ls' → log_ready ls → log_ready ls'.
Proof.
  intros Hp Hr. assert (last_purged_log_id ls ≼ Some upto) as Hle.
  { unfold MemLogStore_purge in Hp. apply outcome_bind_Ret in Hp as (u & Hu & _). by apply assert_Ret, leb_true in Hu. }
  destruct (purge_run upto ls Hr Hle) as (ls1 & E & Hr' & _). congruence.
Qed.

Definition MemStore_purge (upto : LogId) st : result unit MemError * MemStore :=
  match MemLogStore_purge upto (ms_log st) as o return MemLogStore_purge upto (ms_log st) = o → _ with
  | Ret ls => λ E, (Ok tt, with_store st ls (purge_ready upto _ _ E (proj1 (ms_ready st))))
  | Panic => λ _, (Err MemError_Panicked, st)
  end eq_refl.

(** The entries of a stream before its first error. *)
Lemma apply_loop_take (items : list (result (Entry * option ApplyResponder) MemError)) sm :
  ∃ sent, apply_loop false items sm = Ret ((mem_take items).1, sent, replay_from sm (mem_take items).2.*1).
Proof.
  revert sm. induction items as [|[[e r]|err] items IH]; intros sm; [by exists []| |by exists []]. cbn.
  destruct (mem_take items) as [res xs]. cbn. change (replay_from sm (e :: xs.*1)) with (replay_from (apply_entry e sm).2 xs.*1).
  destruct (apply_entry e sm) as [response sm']. destruct (IH sm') as (sent & ->). cbn. eauto.
Qed.

Lemma apply_ready items st r sent ms : MemStateMachine_apply items (ms_sm st) = Ret (r, sent, ms) →
  log_ready (ms_log st) ∧ mem_panic_on_apply ms = false ∧
  mem_sm ms = replay_from (ms_base st) (ms_history st ++ (mem_take items).2.*1).
Proof.
  destruct (ms_ready st) as (Hl & Hf & Hs). unfold MemStateMachine_apply. rewrite Hf.
  destruct (apply_loop_take items (mem_sm (ms_sm st))) as (sent' & ->). cbn. intros [= _ _ <-]. cbn.
  by rewrite replay_app, <- Hs.
Qed.

Definition MemStore_apply (items : list (result (Entry * option ApplyResponder) MemError)) st :
    result unit MemError * list (ApplyResponder * ClientResponse) * MemStore :=
  match MemStateMachine_apply items (ms_sm st) as o return MemStateMachine_apply items (ms_sm st) = o → _ with
  | Ret (r, sent, ms) => λ E,
      (r, sent, mkMemStore (ms_log st) ms (ms_base st) (ms_history st ++ (mem_take items).2.*1) (apply_ready _ _ _ _ _ E))
  | Panic => λ _, (Err MemError_Panicked, [], st)
  end eq_refl.

Definition MemStore_build st : result Snapshot MemError * MemStore :=
  let b := MemStateMachine_build_snapshot (ms_sm st) in
  (b.1, mkMemStore (ms_log st) b.2 (ms_base st) (ms_history st) (ms_ready st)).

Lemma install_ready meta data st :
  let ms := (MemStateMachine_install_snapshot meta data (ms_sm st)).2 in
  log_ready (ms_log st) ∧ mem_panic_on_apply ms = false ∧
  mem_sm ms = replay_from (default (ms_base st) (decode data)) (if decode data is Some _ then [] else ms_history st).
Proof.
  destruct (ms_ready st) as (Hl & Hf & Hs). unfold MemStateMachine_install_snapshot. by destruct (decode data).
Qed.

Definition MemStore_install (meta : SnapshotMeta) (data : Bytes) st : result unit MemError * MemStore :=
  let i := MemStateMachine_install_snapshot meta data (ms_sm st) in
  (i.1, mkMemStore (ms_log st) i.2 (default (ms_base st) (decode data)) (if decode data is Some _ then [] else ms_history st)
     (install_ready meta data st)).

Definition or_panicked {A} (o : outcome (result A MemError)) : result A MemError :=
  match o with Ret r => r | Panic => Err MemError_Panicked end.

(** Nothing reads the number of builders that were asked for. *)
#[local] Instance MemStore_storage : RaftStorage MemStore := {
  IoError := MemError;
  Response := ClientResponse;
  read_vote st := MemLogStore_read_vote (ms_log st);
  read_committed st := MemLogStore_read_committed (ms_log st);
  get_log_state st := MemLogStore_get_log_state (ms_log st);
  try_get_log_entries i j st := or_panicked (MemLogStore_try_get_log_entries i j (ms_log st));
  limited_get_log_entries i j st := or_panicked (fst <$> MemLogStore_limited_get_log_entries i j (ms_log st));
  store_purge := MemStore_purge;
  applied_state st := MemStateMachine_applied_state (ms_sm st);
  sm_apply := MemStore_apply;
  get_current_snapshot st := MemStateMachine_get_current_snapshot (ms_sm st);
  install_snapshot := MemStore_install;
  try_create_snapshot_builder force st :=
    if (MemStateMachine_try_create_snapshot_builder force (ms_sm st)).1 then Some MemStore_build else None;
}.

Definition MemStore_view st : StoreView :=
  mkStoreView (mem_vote (ms_log st)) (mem_committed (ms_log st)) (last_purged_log_id (ms_log st)) (mem_log (ms_log st)).*2
    (ms_history st) (last_applied_log (mem_sm (ms_sm st))) (last_membership (mem_sm (ms_sm st)))
    ((λ s, mkSnapshot (mem_meta s) (mem_data s)) <$> current_snapshot (ms_sm st)).

(** A snapshot can be installed when its data is of the state that it says. *)
Definition MemStore_valid (s : Snapshot) : Prop :=
  ∃ sm, decode (Snapshot_snapshot s) = Some sm ∧
    Snapshot_meta s = mkSnapshotMeta (last_applied_log sm) (last_membership sm).

Lemma MemStore_purge_law upto st : last_purged_log_id (ms_log st) ≼ Some upto →
  ∃ st', MemStore_purge upto st = (Ok tt, st') ∧ MemStore_view st' = view_purge upto (MemStore_view st).
Proof.
  intros Hp. destruct (purge_run upto (ms_log st) (proj1 (ms_ready st)) Hp) as (ls & E & _ & E1 & E2 & E3 & E4).
  unfold MemStore_purge. generalize (@eq_refl _ (MemLogStore_purge upto (ms_log st))).
  generalize (MemLogStore_purge upto (ms_log st)) at 2 3 as o. intros [ls'|] Eo; [|congruence].
  eexists. split; [done|]. assert (ls' = ls) as -> by congruence.
  unfold MemStore_view, view_purge. cbn. by rewrite E1, E2, E3, E4.
Qed.

Lemma MemStore_apply_law items st : ∃ sent st', MemStore_apply (Ok <$> items) st = (Ok tt, sent, st') ∧
  sent.*1 = omap snd items ∧ MemStore_view st' = view_apply items.*1 (MemStore_view st).
Proof.
  unfold MemStore_apply. generalize (@eq_refl _ (MemStateMachine_apply (Ok <$> items) (ms_sm st))).
  generalize (MemStateMachine_apply (Ok <$> items) (ms_sm st)) at 2 3 as o. intros o Eo.
  pose proof Eo as Er. unfold MemStateMachine_apply in Er. destruct (ms_ready st) as (Hl & Hf & Hs). rewrite Hf in Er.
  destruct (apply_loop_ok items (mem_sm (ms_sm st))) as (sent & E & Hsent). rewrite E in Er. cbn in Er.
  destruct o as [[[r sent'] ms]|]; [|done]. injection Er as <- <- <-.
  do 2 eexists. split; [done|]. split; [done|]. unfold MemStore_view, view_apply. cbn.
  by rewrite mem_take_ok, replay_applied, replay_membership.
Qed.

#[local] Instance MemStore_laws : RaftStorageLaws MemStore.
Proof.
  refine {| view := MemStore_view; snapshot_valid := MemStore_valid |}; cbn.
  - done.
  - intros st. unfold MemLogStore_read_committed. by destruct (ms_ready st) as ((-> & _) & _).
  - intros st. apply log_state_eq.
  - intros i j st Hij. rewrite range_entries, (proj2 (ltb_false j i)) by first [apply (ms_ready st)|by apply N_ord_le]. done.
  - intros i j st Hij. rewrite limited_ready, (proj2 (ltb_false j i)) by first [apply (ms_ready st)|by apply N_ord_le]. exists (length (mem_log (ms_log st)).*2).
    cbn. rewrite take_ge; [done|]. etrans; [apply length_filter|]. lia.
  - intros upto st. apply MemStore_purge_law.
  - done.
  - apply MemStore_apply_law.
  - intros st. unfold MemStateMachine_get_current_snapshot. by destruct (current_snapshot (ms_sm st)).
  - intros s st (sm & Hd & Hm). unfold MemStore_install. cbn zeta.
    assert ((MemStateMachine_install_snapshot (Snapshot_meta s) (Snapshot_snapshot s) (ms_sm st)).1 = Ok tt) as ->
      by (unfold MemStateMachine_install_snapshot; by rewrite Hd).
    eexists. split; [done|]. unfold MemStore_view, view_install, MemStateMachine_install_snapshot. cbn. rewrite Hd. cbn.
    by destruct s; cbn in *; subst.
  - intros st. by eexists.
  - intros force st build. destruct (force || _); [|done]. intros [= <-]. do 2 eexists. split; [done|].
    split; [done|]. split; [|done]. eexists. split; [apply decode_encode|done].
Defined.
End mem_store.

Module MemStoreWitness.
(** A codec that keeps the fields apart. *)
Definition Raw : Type :=
  option (LeaderIdAdv.LeaderId * N) * (option (LeaderIdAdv.LeaderId * N) * (list (gset N) * gmap N unit)) * gmap string string.
#[local] Instance types : RaftTypeConfig := mem_config Raw.

Definition raw_id (x : LogId) : LeaderIdAdv.LeaderId * N := (LogId_leader_id x, LogId_index x).
Definition id_of (x : LeaderIdAdv.LeaderId * N) : LogId := mkLogId x.1 x.2.
Definition raw (sm : MemStoreStateMachine (Bytes := Raw)) : Raw :=
  let m := last_membership sm in
  (raw_id <$> last_applied_log sm,
   (raw_id <$> StoredMembership_log_id m,
    (Membership_configs (StoredMembership_membership m), Membership_nodes (StoredMembership_membership m))),
   client_status sm).
Definition unraw (r : Raw) : option (MemStoreStateMachine (Bytes := Raw)) :=
  let '(applied, (mid, (configs, nodes)), status) := r in
  Some (mkMemStoreStateMachine (id_of <$> applied)
    (mkStoredMembership (id_of <$> mid) (mkMembership configs nodes)) status).

Lemma unraw_raw sm : unraw (raw sm) = Some sm.
Proof. destruct sm as [[[]|] [[[]|] []] ?]; done. Qed.

Definition lid (i : N) : LogId := mkLogId (LeaderIdAdv.mk 1 1) i.
Definition put (i : N) (client status : string) : Entry :=
  mkEntry (lid i) (EntryPayload_Normal (mkClientRequest client i status)).
Definition e0 : Entry := put 0 "a" "x".
Definition e1 : Entry := put 1 "b" "y".
Definition e2 : Entry := put 2 "a" "z".
Definition e3 : Entry := Entry_new_blank (lid 3).
Definition ops : list StoreOp :=
  [StoreOp_SaveVote (Vote_new_committed 1 1); StoreOp_Append [e0; e1; e2]; StoreOp_TruncateAfter (Some (lid 1));
   StoreOp_Append [e2; e3]; StoreOp_Apply [(e0, None); (e1, None); (e2, Some (ApplyResponder_Normal (lid 2) 7%N))];
   StoreOp_BuildSnapshot false; StoreOp_Purge (lid 1)].

Lemma mem_store_refines_witness :
  ∃ s st, mem_run raw unraw ops new_mem_store = Ret (Ok <$> [StoreReply_Done; StoreReply_Done; StoreReply_Done; StoreReply_Done;
      StoreReply_Sent [(ApplyResponder_Normal (lid 2) 7%N, Some "x")]; StoreReply_Snapshot s; StoreReply_Done], st) ∧
    MemLogStore_limited_get_log_entries 0 9 st.1 = Ret (Ok [e2; e3], st.1) ∧
    MemLogStore_get_log_state st.1 = Ok (mkLogState (Some (lid 1)) (Some (lid 3))) ∧
    client_status (mem_sm st.2) !! "a" = Some "z" ∧ snapshot_of unraw [e0; e1; e2] s.
Proof.
  destruct (mem_store_refines raw unraw unraw_raw ops) as (rs & st & a & Hrun & Habs & Hreads).
  - repeat (split; [cbn; first [exact I|lia|by repeat constructor|done]|]; intros ? ? Ha; inversion Ha; subst; clear Ha).
    done.
  - unfold ops in Habs. repeat match goal with
    | H : abs_run _ _ (_ :: _) _ _ |- _ => inversion H; subst; clear H
    | H : abs_run _ _ [] _ _ |- _ => inversion H; subst; clear H
    | H : abs_op _ _ _ _ _ |- _ => inversion H; subst; clear H
    end.
    eexists _, st. split; [exact Hrun|]. destruct Hreads as [_ _ Hs He _ Hc _]. split; [exact (He 0%N 9%N)|]. split; [apply Hs|].
    split; [apply Hc|]. done.
Defined.

(** The interface has the store as an instance. *)
#[local] Existing Instances MemStore_storage MemStore_laws.
Definition empty : MemStore (Bytes := Raw).
Proof. refine (mkMemStore MemLogStore_new MemStateMachine_new MemStoreStateMachine_default [] _). repeat split; constructor. Defined.

Example mem_store_law : ∃ st', store_purge (RaftStorage := MemStore_storage raw unraw) (lid 1) empty = (Ok tt, st') ∧
  MemStore_view st' = view_purge (lid 1) (MemStore_view empty).
Proof. apply (purge_law (RaftStorageLaws := MemStore_laws raw unraw unraw_raw) (lid 1) empty). done. Qed.
End MemStoreWitness.
