(* ===== verification/SmWorker.v ===== *)
(** * The state machine worker

    [core/sm/worker.rs]: the task that owns the state machine runs the
    commands of the runtime in order.  An application of logs pairs each entry
    read from the log with the responder that waits for its index. *)

From S2P Require Import Prelude Vote LogId LogIdList Quorum Membership VecProgress IOState.
From S2P Require Import MembershipState Entry RaftState Config ProgressEntry Proposer Command.
From S2P Require Import Engine Replication Following LeaderHandler VoteHandler EngineImpl.
From S2P Require Import VoteSafety Cluster ReadQueue CoreHelpers Wire Core Storage.

Section worker.
Context {C : RaftTypeConfig} {St : Type} `{!RaftStorage St}.
Implicit Types (e : Entry) (es : list Entry) (rs : list (u64 * Sender)).



(** [RaftLogReader::entries_stream], the default: a read that fails is a
    stream of one error. *)
Definition entries_stream (since end' : u64) (st : St) : list (result Entry IoError) :=
  match try_get_log_entries since end' st with
  | Ok es => Ok <$> es
  | Err e => [Err e]
  end.

(** The closure of [apply] on a stream: the responders are consumed from the
    front, each by the entry of its index. *)
Fixpoint attach_responders (strm : list (result Entry IoError)) rs :
    list (result (Entry * option ApplyResponder) IoError) :=
  match strm with
  | [] => []
  | Err err :: strm => Err err :: attach_responders strm rs
  | Ok entry :: strm =>
      let '(responder, rs) :=
        match rs with
        | (idx, r) :: rest => if decide (idx = Entry_index entry) then (Some r, rest) else (None, rs)
        | [] => (None, [])
        end in
      Ok (into_parts (mkEntryResponderBuilder entry responder)) :: attach_responders strm rs
  end.

(** What the worker sends: an answer to a client, a snapshot, the result of a
    command to the runtime. *)
Inductive WorkerOutput :=
| WorkerOutput_Reply (tx : Sender) (r : ClientWriteResponse Response)
| WorkerOutput_Snapshot (tx : Sender) (s : option Snapshot)
| WorkerOutput_Notify (r : result SmResponse (StorageError IoError)).

Definition replies (sent : list (ApplyResponder * Response)) : list WorkerOutput :=
  (λ ar, let '(tx, r) := ApplyResponder_send ar.1 ar.2 in WorkerOutput_Reply tx r) <$> sent.

Definition Worker_apply (first last : LogId) rs (st : St) :
    result ApplyResult (StorageError IoError) * list WorkerOutput * St :=
  let since := LogId_index first in
  let end' := u64_add (LogId_index last) 1 in
  let strm := attach_responders (entries_stream since end' st) rs in
  let '(res, sent, st) := sm_apply strm st in
  (match sto_apply last res with
   | Ok _ => Ok (mkApplyResult since end' last)
   | Err e => Err e
   end, replies sent, st).

(** [build_snapshot] with the task that it spawns. *)
Definition Worker_build_snapshot (st : St) : list WorkerOutput * St :=
  match try_create_snapshot_builder false st with
  | None => ([WorkerOutput_Notify (Ok (SmResponse_BuildSnapshotDone None))], st)
  | Some build =>
      let '(res, st) := build st in
      ([WorkerOutput_Notify match sto_write_snapshot None res with
        | Ok snap => Ok (SmResponse_BuildSnapshotDone (Some (Snapshot_meta snap)))
        | Err e => Err e
        end], st)
  end.

Definition Worker_get_snapshot (tx : Sender) (st : St) : result (list WorkerOutput) (StorageError IoError) :=
  match sto_read_snapshot None (get_current_snapshot st) with
  | Ok snapshot => Ok [WorkerOutput_Snapshot tx snapshot]
  | Err e => Err e
  end.

(** One iteration of [worker_loop]; [external] is the function of an
    [ExternalFunc]. *)
Definition worker_step (external : St → St) (cmd : SmCommand) (st : St) :
    result unit (StorageError IoError) * list WorkerOutput * St :=
  match cmd with
  | SmCommand_BuildSnapshot => let '(os, st) := Worker_build_snapshot st in (Ok tt, os, st)
  | SmCommand_GetSnapshot tx =>
      match Worker_get_snapshot tx st with
      | Ok os => (Ok tt, os, st)
      | Err e => (Err e, [], st)
      end
  | SmCommand_InstallFullSnapshot io_id snapshot =>
      let meta := Snapshot_meta snapshot in
      let '(res, st) := install_snapshot meta (Snapshot_snapshot snapshot) st in
      match sto_write_snapshot (Some (SnapshotMeta_signature meta)) res with
      | Ok _ => (Ok tt, [WorkerOutput_Notify (Ok (SmResponse_InstallSnapshot io_id (Some meta)))], st)
      | Err e => (Err e, [], st)
      end
  | SmCommand_Apply first last rs =>
      let '(res, os, st) := Worker_apply first last rs st in
      match res with
      | Ok resp => (Ok tt, os ++ [WorkerOutput_Notify (Ok (SmResponse_Apply resp))], st)
      | Err e => (Err e, os, st)
      end
  | SmCommand_ExternalFunc => (Ok tt, [], external st)
  end.

(** [worker_loop] and [do_spawn]: the commands in order until the channel is
    closed or one fails, which is reported. *)
Fixpoint worker_loop (external : St → St) (cmds : list SmCommand) (st : St) :
    list WorkerOutput * St :=
  match cmds with
  | [] => ([], st)
  | cmd :: cmds =>
      let '(res, os, st) := worker_step external cmd st in
      match res with
      | Ok _ => let '(os', st) := worker_loop external cmds st in (os ++ os', st)
      | Err e => (os ++ [WorkerOutput_Notify (Err e)], st)
      end
  end.

(** ** Lemmas *)

Definition responder_of e (tx : Sender) : ApplyResponder :=
  match Entry_get_membership e with
  | Some m => ApplyResponder_Membership (Entry_log_id e) m tx
  | None => ApplyResponder_Normal (Entry_log_id e) tx
  end.

(** The stream of a read that succeeds, with the responders attached. *)
Definition attached es rs : list (Entry * option ApplyResponder) :=
  omap (λ x, match x with Ok y => Some y | Err _ => None end) (attach_responders (Ok <$> es) rs).

Lemma attached_ok es rs : attach_responders (Ok <$> es) rs = Ok <$> attached es rs.
Proof.
  unfold attached. revert rs. induction es as [|e es IH]; intros rs; [done|]. cbn.
  destruct rs as [|[idx r] rest]; [|destruct (decide _)]; cbn; by rewrite <- IH.
Qed.
Lemma attached_entries es rs : (attached es rs).*1 = es.
Proof.
  unfold attached. revert rs. induction es as [|e es IH]; intros rs; [done|]. cbn.
  destruct rs as [|[idx r] rest]; [|destruct (decide _)]; cbn; by rewrite IH.
Qed.

Lemma attached_responders es rs :
  StronglySorted entry_lt es → StronglySorted (λ a b, a.1 < b.1)%N rs →
  (∀ i tx, (i, tx) ∈ rs → ∃ e, e ∈ es ∧ Entry_index e = i) →
  Forall2 (λ itx r, ∃ e, e ∈ es ∧ Entry_index e = itx.1 ∧ r = responder_of e itx.2)
    rs (omap snd (attached es rs)).
Proof.
  unfold attached. intros Hes. revert rs. induction Hes as [|e es Hes IH Hlt]; intros rs Hrs Hin.
  { destruct rs as [|[i tx] rs]; [constructor|]. destruct (Hin i tx) as (e & []%elem_of_nil & _). left. }
  destruct rs as [|[i tx] rs].
  { cbn. specialize (IH [] ltac:(constructor)). apply Forall2_nil_inv_l in IH; [|by intros ? ? ?%elem_of_nil].
    rewrite IH. constructor. }
  inversion Hrs as [|? ? Hrs' Hall]; subst. rewrite Forall_forall in Hlt. rewrite Forall_forall in Hall.
  cbn. destruct (decide (i = Entry_index e)) as [->|Hne]; cbn.
  - unfold responder_of at 1. destruct (Entry_get_membership e) as [m|] eqn:Em; cbn;
    (constructor; [exists e; split; [left|]; cbn; split; [done|]; unfold responder_of; by rewrite Em|]);
    (eapply Forall2_impl; [apply IH; [done|]|]);
    try (intros [j tx'] r (e' & He' & Hr); exists e'; split; [by right|done]);
    (intros j tx' Hj; destruct (Hin j tx') as (e' & [->|He']%elem_of_cons & Hi); [by right| |by exists e'];
     specialize (Hall _ Hj); cbn in Hall; lia).
  - eapply Forall2_impl; [apply IH|].
    + by constructor; [|apply Forall_forall].
    + intros j tx' Hj. destruct (Hin j tx' Hj) as (e' & [->|He']%elem_of_cons & Hi); [|by exists e'].
      exfalso. apply elem_of_cons in Hj as [[= -> ->]|Hj]; [done|]. specialize (Hall _ Hj). cbn in Hall.
      destruct (Hin i tx) as (e1 & [->|He1]%elem_of_cons & Hi1); [by left|done|].
      specialize (Hlt _ He1). unfold entry_lt in Hlt. lia.
    + intros [j tx'] r (e' & He' & Hr). exists e'. split; [by right|done].
Qed.

(** A responder below the first entry is never reached, and neither is any
    responder behind it: such responders must not get into the queue. *)
Lemma stranded_responders es i tx rs :
  (∀ e, e ∈ es → Entry_index e ≠ i) → omap snd (attached es ((i, tx) :: rs)) = [].
Proof.
  unfold attached. induction es as [|e es IH]; intros Hne; [done|]. cbn.
  destruct (decide (i = Entry_index e)) as [->|]; [by destruct (Hne e); [left|]|].
  cbn. apply IH. intros e' He'. apply Hne. by right.
Qed.

(** ** Theorems *)

Context `{!RaftStorageLaws St}.

Lemma Worker_apply_run first last rs st :
  let es := entries_in (LogId_index first) (u64_add (LogId_index last) 1) (sv_log (view st)) in
  (LogId_index first ≤ u64_add (LogId_index last) 1)%N →
  ∃ sent st', Worker_apply first last rs st =
      (Ok (mkApplyResult (LogId_index first) (u64_add (LogId_index last) 1) last), replies sent, st') ∧
    sent.*1 = omap snd (attached es rs) ∧ view st' = view_apply es (view st).
Proof.
  intros es Hle. unfold Worker_apply, entries_stream. rewrite entries_law by done. fold es. rewrite attached_ok.
  destruct (apply_law (attached es rs) st) as (sent & st' & -> & Hsent & Hv).
  exists sent, st'. split; [done|]. split; [done|]. by rewrite Hv, attached_entries.
Qed.

Lemma replies_responders (P : ApplyResponder → u64 * Sender → Prop) rs sent :
  Forall2 (λ itx r, P r itx) rs sent.*1 →
  Forall2 (λ itx o, ∃ r resp, P r itx ∧
    o = let '(tx, a) := ApplyResponder_send r resp in WorkerOutput_Reply tx a) rs (replies sent).
Proof.
  unfold replies. revert rs. induction sent as [|[r resp] sent IH]; intros rs H; cbn in *.
  - apply Forall2_nil_inv_r in H as ->. constructor.
  - apply Forall2_cons_inv_r in H as (itx & rs' & HP & H & ->). constructor; [by exists r, resp|by apply IH].
Qed.

(** An application of logs with an application whose storage works: the
    entries of the range are appended to what the state machine has applied,
    in log order, the runtime is told of the range, and when the response
    channels are in index order and each is of an index of the range, then
    each channel is answered exactly once, in order, with the log id and the
    membership of the entry at its own index. *)
Theorem apply_answers_own_entries first last rs st :
  let es := entries_in (LogId_index first) (u64_add (LogId_index last) 1) (sv_log (view st)) in
  (LogId_index first ≤ u64_add (LogId_index last) 1)%N → StronglySorted entry_lt (sv_log (view st)) → StronglySorted (λ a b, a.1 < b.1)%N rs →
  (∀ i tx, (i, tx) ∈ rs → ∃ e, e ∈ es ∧ Entry_index e = i) →
  ∃ os st', Worker_apply first last rs st =
      (Ok (mkApplyResult (LogId_index first) (u64_add (LogId_index last) 1) last), os, st') ∧
    view st' = view_apply es (view st) ∧
    Forall2 (λ itx o, ∃ e resp, e ∈ es ∧ Entry_index e = itx.1 ∧
      o = WorkerOutput_Reply itx.2 (mkClientWriteResponse (Entry_log_id e) resp (Entry_get_membership e)))
      rs os.
Proof.
  intros es Hle Hlog Hrs Hin. destruct (Worker_apply_run first last rs st Hle) as (sent & st' & Hrun & Hsent & Hv).
  exists (replies sent), st'. split; [done|]. split; [done|].
  pose proof (attached_responders es rs (StronglySorted_filter _ _ _ Hlog) Hrs Hin) as Hf.
  fold es in Hsent. rewrite <- Hsent in Hf.
  apply (replies_responders (λ r itx, ∃ e, e ∈ es ∧ Entry_index e = itx.1 ∧ r = responder_of e itx.2)) in Hf.
  eapply Forall2_impl; [exact Hf|]. intros [i tx] o (r & resp & (e & He & Hi & ->) & ->).
  exists e, resp. split; [done|]. split; [done|]. unfold responder_of.
  by destruct (Entry_get_membership e).
Qed.

(** The commands of a runtime that applies from the index [n] on, each range
    where the last has ended, up to before [n']. *)
Inductive chained : u64 → list SmCommand → u64 → Prop :=
| chained_nil n : chained n [] n
| chained_build n cmds n' : chained n cmds n' → chained n (SmCommand_BuildSnapshot :: cmds) n'
| chained_get n tx cmds n' : chained n cmds n' → chained n (SmCommand_GetSnapshot tx :: cmds) n'
| chained_apply first last rs cmds n' :
    (LogId_index first ≤ LogId_index last)%N → (LogId_index last + 1 < u64_modulus)%N → chained (LogId_index last + 1) cmds n' →
    chained (LogId_index first) (SmCommand_Apply first last rs :: cmds) n'.

Lemma chained_le n cmds n' : chained n cmds n' → (n ≤ n')%N.
Proof. induction 1; lia. Qed.

Lemma worker_step_chained external n cmd cmds n' st : chained n (cmd :: cmds) n' →
  StronglySorted entry_lt (sv_log (view st)) →
  ∃ os st' m, worker_step external cmd st = (Ok tt, os, st') ∧ chained m cmds n' ∧ (n ≤ m)%N ∧
    sv_log (view st') = sv_log (view st) ∧ (∀ err, WorkerOutput_Notify (Err err) ∉ os) ∧
    sv_history (view st') = sv_history (view st) ++ entries_in n m (sv_log (view st)).
Proof.
  inversion 1 as [|? ? ? Hc|? tx ? ? Hc|first last rs ? ? Hle Hlt Hc]; subst; intros Hlog; cbn [worker_step].
  - unfold Worker_build_snapshot. destruct (try_create_snapshot_builder false st) as [build|] eqn:Eb.
    + destruct (build_law _ _ _ Eb) as (s & st' & -> & Hv & _). do 3 eexists.
      split; [done|]. split; [done|]. rewrite Hv, entries_in_empty, app_nil_r.
      split; [lia|]. split; [done|]. split; [|done]. by intros err [=]%list_elem_of_singleton.
    + do 3 eexists. split; [done|]. split; [done|]. rewrite entries_in_empty, app_nil_r.
      split; [lia|]. split; [done|]. split; [|done]. by intros err [=]%list_elem_of_singleton.
  - unfold Worker_get_snapshot. rewrite snapshot_law. do 3 eexists. split; [done|]. split; [done|]. rewrite entries_in_empty, app_nil_r.
    split; [lia|]. split; [done|]. split; [|done]. by intros err [=]%list_elem_of_singleton.
  - destruct (Worker_apply_run first last rs st) as (sent & st' & -> & _ & Hv); [rewrite u64_add_small by done; lia|].
    do 3 eexists. split; [done|]. split; [exact Hc|]. rewrite Hv. split; [lia|]. split; [done|].
    cbn. rewrite u64_add_small by done. split; [|done].
    unfold replies. intros err [Hin|[=]%list_elem_of_singleton]%elem_of_app.
    apply list_elem_of_fmap in Hin as ([r resp] & Hr & _). by destruct r.
Qed.

(** C15: the state machine applies the log in order, each entry once: when the
    runtime hands out consecutive ranges, with snapshots read and built in
    between, no command fails and the entries applied are those of the log
    from the first index to the last. *)
Theorem worker_applies_log_in_order external n cmds n' st :
  chained n cmds n' → StronglySorted entry_lt (sv_log (view st)) →
  ∃ os st', worker_loop external cmds st = (os, st') ∧
    (∀ err, WorkerOutput_Notify (Err err) ∉ os) ∧
    sv_history (view st') = sv_history (view st) ++ entries_in n n' (sv_log (view st)).
Proof.
  revert n st. induction cmds as [|cmd cmds IH]; intros n st Hc Hlog.
  { inversion Hc; subst. exists [], st. split; [done|]. split; [by intros ? ?%elem_of_nil|].
    by rewrite entries_in_empty, app_nil_r. }
  destruct (worker_step_chained external n cmd cmds n' st Hc Hlog)
    as (os & st1 & m & Hstep & Hc' & Hle & Hl & Herr & Hh).
  destruct (IH m st1 Hc') as (os' & st' & Hrun & Herr' & Hh'); [by rewrite Hl|].
  exists (os ++ os'), st'. cbn. rewrite Hstep, Hrun. split; [done|]. split.
  - intros err [?%Herr|?%Herr']%elem_of_app; done.
  - pose proof (chained_le _ _ _ Hc').
    by rewrite Hh', Hh, Hl, <- app_assoc, <- entries_in_split by (lia || done).
Qed.
End worker.

Module SmWorkerWitness.
#[local] Existing Instance std_config.

Definition lid (t i : u64) : LogId := mkLogId (C := std_config) (LeaderIdStd.mkCommitted t) i.
Definition entry (t i : u64) : Entry := Entry_new_blank (lid t i).
Definition config_entry (t i : u64) : Entry := Entry_new_membership (lid t i) Membership_default.

(** Four entries, of which the first has been applied. *)
Definition mem : StoreView :=
  mkStoreView None None None [entry 1 0; config_entry 1 1; entry 2 2; entry 2 3] [entry 1 0]
    (Some (lid 1 0)) StoredMembership_default None.

#[local] Instance memory : RaftStorage StoreView := mem_store (C := std_config) tt.
#[local] Instance memory_laws : RaftStorageLaws StoreView := mem_store_laws (C := std_config) tt.

Lemma mem_sorted : StronglySorted entry_lt (sv_log mem).
Proof. cbn. repeat constructor. Qed.

Lemma apply_answers_own_entries_witness :
  ∃ os st', Worker_apply (lid 1 1) (lid 2 3) [(1, 7); (3, 8)]%N mem =
      (Ok (mkApplyResult 1 4 (lid 2 3)), os, st') ∧
    sv_history st' = [entry 1 0; config_entry 1 1; entry 2 2; entry 2 3] ∧ length os = 2.
Proof.
  destruct (apply_answers_own_entries (lid 1 1) (lid 2 3) [(1, 7); (3, 8)]%N mem)
    as (os & st' & Hrun & Hv & Hos).
  - vm_compute. done.
  - exact mem_sorted.
  - repeat constructor.
  - intros i tx [[= -> ->]|[[= -> ->]|[]%elem_of_nil]%elem_of_cons]%elem_of_cons.
    + exists (config_entry 1 1). split; [by repeat constructor|done].
    + exists (entry 2 3). split; [by repeat constructor|done].
  - exists os, st'. split; [exact Hrun|]. split; [cbn in Hv; by rewrite Hv|].
    by apply Forall2_length in Hos.
Defined.

Lemma worker_applies_log_in_order_witness :
  ∃ os st', worker_loop id [SmCommand_Apply (lid 1 1) (lid 1 1) []; SmCommand_BuildSnapshot;
      SmCommand_Apply (lid 2 2) (lid 2 3) [(3, 8)]]%N mem = (os, st') ∧
    sv_history st' = [entry 1 0; config_entry 1 1; entry 2 2; entry 2 3].
Proof.
  destruct (worker_applies_log_in_order id 1 [SmCommand_Apply (lid 1 1) (lid 1 1) [];
    SmCommand_BuildSnapshot; SmCommand_Apply (lid 2 2) (lid 2 3) [(3, 8)]]%N 4 mem)
    as (os & st' & Hrun & _ & Hh).
  - apply (chained_apply (lid 1 1)); [done|done|]. constructor.
    apply (chained_apply (lid 2 2)); [done|done|]. constructor.
  - exact mem_sorted.
  - exists os, st'. split; [exact Hrun|exact Hh].
Defined.
End SmWorkerWitness.
