(* ===== verification/Startup.v ===== *)
(** * Recovery at start

    [storage/helper.rs] and [storage/log_reader_ext.rs]: a node that starts
    restores its state machine from a snapshot and from the committed logs, and
    rebuilds its [RaftState] from what the application has stored. *)

From S2P Require Import Prelude Vote LogId LogIdList Quorum Membership VecProgress IOState.
From S2P Require Import MembershipState Entry RaftState Config ProgressEntry Proposer Command.
From S2P Require Import Engine Replication Following Storage.

Section startup.
Context {C : RaftTypeConfig} {St : Type} `{!RaftStorage St}.
Implicit Types (e : Entry) (es : list Entry) (st : St).

(** ** Programs on a store

    A panic, or a value or a storage error with the store that is left. *)
Definition H (A : Type) : Type := St → outcome (result A (StorageError IoError) * St).

#[global] Instance H_ret : MRet H := λ A a st, Ret (Ok a, st).
#[global] Instance H_bind : MBind H := λ A B f m st,
  match m st with
  | Ret (Ok a, st) => f a st
  | Ret (Err e, st) => Ret (Err e, st)
  | Panic => Panic
  end.
Definition hread {A} (f : St → result A (StorageError IoError)) : H A := λ st, Ret (f st, st).
Definition hcall {A} (f : St → result A (StorageError IoError) * St) : H A := λ st, Ret (f st).
Definition hfail {A} (e : StorageError IoError) : H A := λ st, Ret (Err e, st).
Definition hpanic {A} : H A := λ _, Panic.

(** [RaftLogReaderExt::get_log_id] *)
Definition get_log_id_at (log_index : u64) st : result LogId (StorageError IoError) :=
  match sto_read_logs (try_get_log_entries log_index (log_index + 1)%N st) with
  | Err err => Err err
  | Ok [] => Err (StorageError_read_log_at_index log_index (inr ErrorMessage_not_found))
  | Ok (e :: _) => Ok (Entry_log_id e)
  end.

(** [RaftLogReaderExt::try_get_log_entry] *)
Definition try_get_log_entry (log_index : u64) st : result (option Entry) (StorageError IoError) :=
  match sto_read_logs (try_get_log_entries log_index (u64_add log_index 1) st) with
  | Err err => Err err
  | Ok es => Ok (last es)
  end.

(** [restore_from_snapshot] *)
Definition restore_from_snapshot : H unit :=
  '(last_applied, _) ← hread (λ st, sto_read_sm (applied_state st));
  snapshot ← hread (λ st, sto_read_snapshot None (get_current_snapshot st));
  match snapshot with
  | None => mret tt
  | Some snap =>
      if (SnapshotMeta_last_log_id (Snapshot_meta snap) >? last_applied) then
        hcall (λ st,
          let '(r, st) := install_snapshot (Snapshot_meta snap) (Snapshot_snapshot snap) st in
          (sto_write_snapshot (Some (SnapshotMeta_signature (Snapshot_meta snap))) r, st))
      else mret tt
  end.

(** [reapply_committed]; the fuel is an upper bound of the number of chunks. *)
Definition chunk_size : u64 := 64.

Fixpoint reapply_loop (fuel : nat) (start end' : u64) : H unit :=
  if (start <? end') then
    match fuel with
    | O => hpanic
    | S fuel =>
        let chunk_end := N.min end' (u64_add start chunk_size) in
        entries ← hread (λ st, sto_read_logs (try_get_log_entries start chunk_end st));
        let first := Entry_index <$> head entries in
        let last_index := Entry_index <$> last entries in
        let err := inr (ErrorMessage_missing_entries start chunk_end first last_index) in
        if decide (first ≠ Some start) then hfail (StorageError_read_log_at_index start err)
        else if decide (last_index ≠ Some (u64_sub chunk_end 1)) then
          hfail (StorageError_read_log_at_index (u64_sub chunk_end 1) err)
        else
          match last entries with
          | None => hpanic
          | Some last_entry =>
              _ ← hcall (λ st,
                let '(r, _, st) := sm_apply ((λ e, Ok (e, None)) <$> entries) st in
                (sto_apply (Entry_log_id last_entry) r, st));
              reapply_loop fuel chunk_end end'
          end
    end
  else mret tt.

Definition reapply_committed (start end' : u64) : H unit :=
  reapply_loop (N.to_nat (end' - start)) start end'.

(** [last_membership_in_log]: steps of 64 entries from the end of the log
    backwards. *)
Definition step : u64 := 64.

Fixpoint last_membership_loop (fuel : nat) (start end' : u64) (res : list StoredMembership) :
    H (list StoredMembership) :=
  if (start <? end') then
    match fuel with
    | O => hpanic
    | S fuel =>
        let step_start := N.max start (end' - step)%N in
        entries ← hread (λ st, sto_read_logs (try_get_log_entries step_start end' st));
        let res := last_two_loop (rev entries) res in
        if decide (length res = 2) then mret res
        else last_membership_loop fuel start (end' - step)%N res
    end
  else mret res.

Definition last_membership_in_log (since_index : u64) : H (list StoredMembership) :=
  log_state ← hread (λ st, sto_read_logs (get_log_state st));
  let end' := next_index (LogState_last_log_id log_state) in
  let start := N.max (next_index (LogState_last_purged_log_id log_state)) since_index in
  last_membership_loop (N.to_nat end') start end' [].

(** [get_membership] *)
Definition get_membership : H MembershipState :=
  '(last_applied, sm_mem) ← hread (λ st, sto_read_sm (applied_state st));
  log_mem ← last_membership_in_log (next_index last_applied);
  mret match log_mem with
       | [m0; m1] => mkMembershipState m0 m1
       | m0 :: _ => mkMembershipState sm_mem m0
       | [] => mkMembershipState sm_mem sm_mem
       end.

(** [get_key_log_ids], on the reader of the store: the search reads and does
    not change it.  The fuel is enough for a search of the whole range. *)
Definition get_key_log_ids_of (purged last_log : option LogId) : H LogIdList := λ st,
  let fuel := 2 * N.to_nat (next_index last_log) + 2 in
  match StorageHelper_get_key_log_ids fuel (λ i, get_log_id_at i st) purged last_log with
  | Some r => Ret (r, st)
  | None => Panic
  end.

(** The snapshot part of [get_initial_state]: a snapshot that is not persisted
    is built again when logs are purged. *)
Definition load_snapshot (last_purged_log_id : option LogId) : H (option Snapshot) :=
  snapshot ← hread (λ st, sto_read_snapshot None (get_current_snapshot st));
  match snapshot with
  | Some s => mret (Some s)
  | None =>
      if decide (is_Some last_purged_log_id) then
        builder ← hread (λ st, Ok (try_create_snapshot_builder true st));
        match builder with
        | None => hpanic
        | Some build =>
            s ← hcall (λ st, let '(r, st) := build st in (sto_write_snapshot None r, st));
            mret (Some s)
        end
      else mret None
  end.

(** [unwrap_or_default] *)
Definition snapshot_meta_of (snapshot : option Snapshot) : SnapshotMeta :=
  match snapshot with Some s => Snapshot_meta s | None => SnapshotMeta_default end.

(** [get_initial_state] behind its first reads. *)
Definition recover (vote : Vote) (committed : option LogId) (log_state : LogState)
    (last_applied : option LogId) (now : Instant) : H RaftState :=
  let last_purged_log_id := LogState_last_purged_log_id log_state in
  let last_log_id := LogState_last_log_id log_state in
  if (last_log_id <? last_purged_log_id) then
    hfail (StorageError_read_logs (inr (ErrorMessage_inverted_log_order last_log_id last_purged_log_id)))
  else
  let committed := if (committed <? last_applied) then last_applied else committed in
  _ ← restore_from_snapshot;
  '(last_applied, _) ← hread (λ st, sto_read_sm (applied_state st));
  last_applied ←
    (if (last_applied <? committed) then
      let start := next_index last_applied in
      let end' := next_index committed in
      if (start <? next_index last_purged_log_id) then
        hfail (StorageError_read_log_at_index start
          (inr (ErrorMessage_cannot_reapply start last_purged_log_id)))
      else
        _ ← reapply_committed start end';
        mret committed
    else mret last_applied);
  mem_state ← get_membership;
  '(last_log_id, last_purged_log_id) ←
    (if (last_log_id <? last_applied) then
      if (next_index last_log_id >=? next_index last_applied) then
        hfail (StorageError_read_logs (inr (ErrorMessage_inverted_applied last_applied last_log_id)))
      else
        match last_applied with
        | None => hpanic
        | Some upto =>
            _ ← hcall (λ st, let '(r, st) := store_purge upto st in (sto_write_logs r, st));
            mret (last_applied, last_applied)
        end
    else mret (last_log_id, last_purged_log_id));
  log_id_list ← get_key_log_ids_of last_purged_log_id last_log_id;
  snapshot ← load_snapshot last_purged_log_id;
  let snapshot_meta := snapshot_meta_of snapshot in
  let io_state := IOState_new vote last_applied (SnapshotMeta_last_log_id snapshot_meta) last_purged_log_id in
  mret (mkRaftState (Leased_new now 0 vote) log_id_list mem_state snapshot_meta 0 ServerState_Learner
          io_state last_purged_log_id 1).

(** [get_initial_state]; [id] is the node id of the helper and [now] the time. *)
Definition get_initial_state (id : option u64) (now : Instant) : H RaftState :=
  vote ← hread (λ st, sto_read_vote (read_vote st));
  vote ← match vote, id with
         | Some vote, _ => mret vote
         | None, Some id => mret (mkVote (LeaderId_new 0 id) false)
         | None, None => hpanic
         end;
  committed ← hread (λ st, sto_read_logs (read_committed st));
  log_state ← hread (λ st, sto_read_logs (get_log_state st));
  '(last_applied, _) ← hread (λ st, sto_read_sm (applied_state st));
  recover vote committed log_state last_applied now.

(** ** Lemmas *)

Lemma H_bind_ok {A B} (m : H A) (f : A → H B) st a st' :
  m st = Ret (Ok a, st') → (m ≫= f) st = f a st'.
Proof. unfold mbind, H_bind. by intros ->. Qed.

Context `{!RaftStorageLaws St}.

Lemma read_entries_run {B} a b (f : list Entry → H B) st : (a ≤ b)%N →
  (hread (λ st, sto_read_logs (try_get_log_entries a b st)) ≫= f) st =
    f (entries_in a b (sv_log (view st))) st.
Proof. intros ?. apply H_bind_ok. unfold hread. by rewrite entries_law. Qed.

Lemma apply_entries_run {B} (f : unit → H B) es log_id st :
  ∃ st', (hcall (λ st, let '(r, _, st) := sm_apply ((λ e, Ok (e, None)) <$> es) st in
      (sto_apply log_id r, st)) ≫= f) st = f tt st' ∧ view st' = view_apply es (view st).
Proof.
  destruct (apply_law ((., None) <$> es) st) as (sent & st' & Hrun & _ & Hv).
  rewrite <- list_fmap_compose in Hrun, Hv. cbn in Hv. rewrite list_fmap_id in Hv.
  exists st'. split; [|done]. apply H_bind_ok. unfold hcall. cbn in Hrun. unfold compose in Hrun. by rewrite Hrun.
Qed.

Definition missing (i : u64) es : Prop := ∀ e, e ∈ es → Entry_index e ≠ i.

Lemma reapply_loop_spec fuel start end' st :
  StronglySorted entry_lt (sv_log (view st)) → (end' + chunk_size < u64_modulus)%N →
  N.to_nat (end' - start) ≤ fuel → (start ≤ end')%N →
  ∃ r st' k, reapply_loop fuel start end' st = Ret (r, st') ∧ (start ≤ k ≤ end')%N ∧
    view st' = view_apply (entries_in start k (sv_log (view st))) (view st) ∧
    match r with
    | Ok _ => k = end'
    | Err err => ∃ i msg, (k ≤ i < end')%N ∧ missing i (sv_log (view st)) ∧
        err = StorageError_read_log_at_index i (inr msg)
    end.
Proof.
  revert start st. induction fuel as [|fuel IH]; intros start st Hlog Hend Hf Hle.
  { cbn [reapply_loop]. replace (start <? end') with false by (symmetry; rewrite ltb_false, N_ord_le; lia).
    exists (Ok tt), st, end'. replace end' with start by lia.
    rewrite entries_in_empty, view_apply_nil. by repeat split. }
  cbn [reapply_loop]. destruct (start <? end') eqn:Elt.
  2:{ rewrite ltb_false, N_ord_le in Elt. exists (Ok tt), st, end'. replace end' with start by lia.
    rewrite entries_in_empty, view_apply_nil. by repeat split. }
  rewrite ltb_true, N_ord_lt in Elt. unfold chunk_size in *. rewrite u64_add_small by lia.
  set (ce := N.min end' (start + 64)%N).
  assert (start < ce ≤ end')%N as Hce by (unfold ce; lia). clearbody ce. rewrite read_entries_run by lia. cbn zeta.
  set (es := entries_in start ce (sv_log (view st))).
  assert (∀ i msg, (start ≤ i < end')%N → missing i (sv_log (view st)) →
    ∃ r st' k, hfail (A:=unit) (StorageError_read_log_at_index i (inr msg)) st = Ret (r, st') ∧
      (start ≤ k ≤ end')%N ∧ view st' = view_apply (entries_in start k (sv_log (view st))) (view st) ∧
      match r with
      | Ok _ => k = end'
      | Err err => ∃ i msg, (k ≤ i < end')%N ∧ missing i (sv_log (view st)) ∧
          err = StorageError_read_log_at_index i (inr msg)
      end) as Hfail.
  { intros i msg Hi Hm. do 2 eexists. exists start. split; [done|]. split; [lia|].
    rewrite entries_in_empty, view_apply_nil. split; [done|]. by exists i, msg. }
  rewrite u64_sub_small by (unfold in_u64; lia).
  case_decide as Hfirst; [apply Hfail; [lia|]; intros e He Hi; apply Hfirst;
    eapply entries_in_head; [done|done|done|lia]|].
  case_decide as Hlast; [apply Hfail; [lia|]; intros e He Hi; apply Hlast;
    rewrite <- Hi; eapply entries_in_last; [done|done|lia|lia]|].
  destruct (last es) as [e|] eqn:El; [|discriminate].
  destruct (apply_entries_run (λ _, reapply_loop fuel ce end') es (Entry_log_id e) st) as (st1 & -> & Hv).
  destruct (IH ce st1) as (r & st' & k & -> & Hk & Hv' & Hr); [by rewrite Hv|done|lia|lia|].
  rewrite Hv in Hv', Hr. cbn [sv_log view_apply] in Hv', Hr.
  exists r, st', k. split; [done|]. split; [lia|]. split.
  - rewrite Hv', view_apply_app. unfold es. by rewrite <- entries_in_split by (lia || done).
  - destruct r as [|err]; [done|]. destruct Hr as (i & msg & Hi & Hm & ->). by exists i, msg.
Qed.

Lemma last_two_step (ms0 ms1 acc : list StoredMembership) : length acc ≤ 1 →
  let res := drop (length ms1 - (2 - length acc)) ms1 ++ acc in
  length res ≤ 2 ∧
  (if decide (length res = 2) then res else drop (length ms0 - (2 - length res)) ms0 ++ res) =
    drop (length (ms0 ++ ms1) - (2 - length acc)) (ms0 ++ ms1) ++ acc.
Proof.
  intros Hacc res. unfold res. rewrite !length_app, length_drop. split; [lia|]. case_decide as Hl.
  - rewrite drop_app_ge by lia. f_equal. f_equal. lia.
  - replace (length ms1 - (2 - length acc)) with 0 by lia. rewrite drop_0, app_assoc. f_equal.
    rewrite drop_app_le by lia. do 2 f_equal. lia.
Qed.

Lemma last_membership_loop_spec fuel start end' acc st :
  StronglySorted entry_lt (sv_log (view st)) → length acc ≤ 1 → N.to_nat end' ≤ fuel →
  let ms := memberships_of (entries_in start end' (sv_log (view st))) in
  last_membership_loop fuel start end' acc st = Ret (Ok (drop (length ms - (2 - length acc)) ms ++ acc), st).
Proof.
  intros Hlog. revert end' acc. induction fuel as [|fuel IH]; intros end' acc Hacc Hf; cbn zeta.
  { replace end' with 0%N by lia. cbn [last_membership_loop].
    replace (start <? 0%N) with false by (symmetry; rewrite ltb_false, N_ord_le; lia).
    rewrite entries_in_nil by lia. done. }
  cbn [last_membership_loop]. destruct (start <? end') eqn:Elt.
  2:{ rewrite ltb_false, N_ord_le in Elt. by rewrite entries_in_nil. }
  rewrite ltb_true, N_ord_lt in Elt. rewrite read_entries_run by lia. cbn zeta. unfold step in *.
  assert (entries_in start end' (sv_log (view st)) = entries_in start (end' - 64) (sv_log (view st)) ++
    entries_in (N.max start (end' - 64)) end' (sv_log (view st))) as ->.
  { destruct (decide (start ≤ end' - 64)%N).
    - rewrite N.max_r by lia. by apply entries_in_split; [lia|].
    - rewrite N.max_l by lia. by rewrite (entries_in_nil start (end' - 64)) by lia. }
  rewrite memberships_of_app. set (ms1 := memberships_of (entries_in (N.max _ _) _ _)).
  rewrite (last_two_loop_spec _ ms1 acc) by (done || (destruct acc as [|? []]; cbn in *; [by left|by right; eexists|lia])).
  set (ms0 := memberships_of _). destruct (last_two_step ms0 ms1 acc Hacc) as [Hlen <-].
  case_decide as Hl; [done|]. rewrite IH by lia. done.
Qed.

(** The last two memberships of the entries from an index on. *)
Definition recent_memberships (since : u64) (log : list Entry) : list StoredMembership :=
  let ms := memberships_of (filter (λ e, (since ≤ Entry_index e)%N) log) in drop (length ms - 2) ms.

(** A stored log: in index order, from behind the purged entries on. *)
Definition log_stored (v : StoreView) : Prop :=
  StronglySorted entry_lt (sv_log v) ∧
  (∀ e, e ∈ sv_log v → next_index (sv_purged v) ≤ Entry_index e ∧ Entry_index e + 1 < u64_modulus)%N.

Lemma sorted_last es e : StronglySorted entry_lt es → e ∈ es →
  ∃ l, last es = Some l ∧ (Entry_index e ≤ Entry_index l)%N ∧ l ∈ es.
Proof.
  intros Hs He. destruct es as [|l es _] using rev_ind; [by apply elem_of_nil in He|].
  exists l. rewrite last_snoc. split; [done|]. rewrite !elem_of_app. split; [|right; by left].
  apply elem_of_app in He as [He|He]; [|by apply list_elem_of_singleton in He as ->].
  assert (entry_lt e l) as Hlt by (eapply StronglySorted_app_1_elem_of; [exact Hs|done|by left]).
  unfold entry_lt in Hlt. lia.
Qed.

Lemma last_membership_run since st : log_stored (view st) →
  last_membership_in_log since st = Ret (Ok (recent_memberships since (sv_log (view st))), st).
Proof.
  intros [Hlog Hge]. unfold last_membership_in_log.
  rewrite (H_bind_ok _ _ st (mkLogState (sv_purged (view st)) _) st) by (unfold hread; by rewrite get_log_state_law).
  cbn [LogState_last_log_id LogState_last_purged_log_id].
  rewrite last_membership_loop_spec by (done || (cbn; lia)). rewrite app_nil_r.
  enough (entries_in (N.max (next_index (sv_purged (view st))) since)
    (next_index match last (sv_log (view st)) with
                | Some e => Some (Entry_log_id e) | None => sv_purged (view st) end)
    (sv_log (view st)) = filter (λ e, (since ≤ Entry_index e)%N) (sv_log (view st))) as -> by done.
  apply filter_ext_in. intros e He. specialize (Hge e He) as Hge'.
  destruct (sorted_last _ e Hlog He) as (l & -> & Hle & Hl).
  rewrite next_index_some by by apply (Hge l). unfold Entry_index in *. lia.
Qed.

(** ** Consistent stores

    All log ids of a store are on one line: the entry at the index [i] was
    proposed by [leader i].  An optional log id is given by the index that
    follows it. *)
Context `{!RaftLeaderIdLaws C} (leader : u64 → CommittedLeaderId).

Definition upto (n : u64) : option LogId :=
  if decide (n = 0%N) then None else Some (id_at leader (n - 1)).

(** The entries are consecutive, from the index [p] on. *)
Fixpoint log_from (p : u64) (es : list Entry) : Prop :=
  match es with
  | [] => True
  | e :: es => Entry_log_id e = id_at leader p ∧ log_from (p + 1) es
  end.

(** The index after the snapshot. *)
Definition snapshot_next (v : StoreView) : u64 :=
  match sv_snapshot v with
  | Some snap => next_index (SnapshotMeta_last_log_id (Snapshot_meta snap))
  | None => 0
  end.

(** The log is stored from [p] to before [h], the state machine has applied
    up to [a] and the cluster has committed up to [c]; the purged entries are
    in the snapshot, or in the state machine when there is none. *)
Record store_ok (v : StoreView) (p h a c : u64) : Prop := {
  ok_mono i j : (i ≤ j)%N → (j < h)%N → leader i ≼ leader j;
  ok_width : (2 * h + 64 < u64_modulus)%N;
  ok_bounds : (p ≤ h ∧ a ≤ h ∧ c ≤ h)%N;
  ok_purged : sv_purged v = upto p;
  ok_log : log_from p (sv_log v) ∧ (p + N.of_nat (length (sv_log v)) = h)%N;
  ok_applied : sv_applied v = upto a;
  ok_membership : ∃ m, (m ≤ a)%N ∧ StoredMembership_log_id (sv_membership v) = upto m;
  ok_committed : sv_committed v = upto c;
  ok_snapshot :
    match sv_snapshot v with
    | None => (p ≤ a)%N
    | Some snap => snapshot_valid (St := St) snap ∧ ∃ s m, (p ≤ s ≤ h)%N ∧ (m ≤ s)%N ∧
        SnapshotMeta_last_log_id (Snapshot_meta snap) = upto s ∧
        StoredMembership_log_id (SnapshotMeta_last_membership (Snapshot_meta snap)) = upto m
    end;
}.

Lemma next_index_upto n : (n < u64_modulus)%N → next_index (upto n) = n.
Proof.
  intros Hn. unfold upto. destruct (decide (n = 0%N)) as [->|]; [done|].
  rewrite next_index_some; cbn; lia.
Qed.

Section line.
Context (h : u64) (mono : ∀ i j, (i ≤ j)%N → (j < h)%N → leader i ≼ leader j).

Lemma upto_lt m n : (m < n)%N → (n ≤ h)%N → upto m ≺ upto n.
Proof.
  intros Hmn Hn. unfold upto. rewrite (decide_False (P := n = 0%N)) by lia.
  destruct (decide (m = 0%N)); [done|]. apply Some_lt, LogId_lt_alt. cbn.
  destruct (ord_le_alt (leader (m - 1)) (leader (n - 1))) as [Hl _].
  destruct Hl as [Hl|Hl]; [apply mono; lia|by left|right]. split; [done|lia].
Qed.

Lemma upto_ltb m n : (m ≤ h)%N → (n ≤ h)%N → (upto m <? upto n) = (m <? n).
Proof.
  intros Hm Hn. destruct (m <? n) eqn:E.
  - rewrite ltb_true, N_ord_lt in E. by apply ltb_true, upto_lt.
  - rewrite ltb_false, N_ord_le in E. apply ltb_false. destruct (decide (n = m)) as [->|]; [apply ord_le_refl|].
    apply ord_lt_le, upto_lt; lia.
Qed.
Lemma upto_leb m n : (m ≤ h)%N → (n ≤ h)%N → (upto m <=? upto n) = (m <=? n).
Proof.
  intros Hm Hn. destruct (m <=? n) eqn:E.
  - rewrite leb_true, N_ord_le in E. apply leb_true. destruct (decide (n = m)) as [->|]; [apply ord_le_refl|].
    apply ord_lt_le, upto_lt; lia.
  - rewrite leb_false, N_ord_lt in E. apply leb_false, upto_lt; lia.
Qed.
End line.

Lemma log_from_elem p es e : log_from p es → e ∈ es →
  (p ≤ Entry_index e < p + N.of_nat (length es))%N ∧ Entry_log_id e = id_at leader (Entry_index e).
Proof.
  revert p. induction es as [|x es IH]; intros p Hf He; [by apply elem_of_nil in He|].
  destruct Hf as [Hx Hf]. apply elem_of_cons in He as [->|He]; cbn [length].
  - unfold Entry_index. rewrite Hx. cbn. split; [lia|done].
  - destruct (IH _ Hf He). split; [lia|done].
Qed.
Lemma log_from_sorted p es : log_from p es → StronglySorted entry_lt es.
Proof.
  revert p. induction es as [|x es IH]; intros p; [constructor|]. intros [Hx Hf].
  constructor; [by eapply IH|]. apply Forall_forall. intros e He.
  destruct (log_from_elem _ _ _ Hf He) as [? _]. unfold entry_lt, Entry_index at 1. rewrite Hx. cbn. lia.
Qed.
Lemma log_from_stored p es i : log_from p es → (p ≤ i < p + N.of_nat (length es))%N →
  ∃ e, e ∈ es ∧ Entry_log_id e = id_at leader i.
Proof.
  revert p. induction es as [|x es IH]; cbn [length]; intros p Hf Hi; [lia|]. destruct Hf as [Hx Hf].
  destruct (decide (i = p)) as [->|]; [exists x; split; [by left|done]|].
  destruct (IH _ Hf ltac:(lia)) as (e & He & Hid). exists e. split; [by right|done].
Qed.
Lemma log_from_last p es : log_from p es → es ≠ [] →
  Entry_log_id <$> last es = upto (p + N.of_nat (length es)).
Proof.
  revert p. induction es as [|x [|y es] IH]; intros p Hf Hne; [done| |].
  - destruct Hf as [Hx _]. cbn. rewrite Hx. unfold upto. rewrite decide_False by lia. do 2 f_equal. lia.
  - destruct Hf as [_ Hf]. rewrite last_cons_cons, (IH _ Hf) by done. f_equal. cbn [length]. lia.
Qed.
Lemma log_from_ids p es : log_from p es →
  Entry_log_id <$> es = (λ i : nat, id_at leader (p + N.of_nat i)) <$> seq 0 (length es).
Proof.
  revert p. induction es as [|x es IH]; intros p; [done|]. intros [Hx Hf]. cbn [length seq fmap list_fmap].
  rewrite Hx, (IH _ Hf), <- fmap_S_seq, <- list_fmap_compose. f_equal; [f_equal; lia|].
  apply list_fmap_ext. intros i y _. cbn. f_equal. lia.
Qed.

Section run.
Context (v : StoreView) (p h a c : u64) (Hok : store_ok v p h a c).

Lemma ok_sorted : StronglySorted entry_lt (sv_log v).
Proof. destruct Hok. by eapply log_from_sorted, (ok_log0). Qed.
Lemma ok_log_stored : log_stored v.
Proof.
  split; [apply ok_sorted|]. destruct Hok as [? ? ? -> [Hf Hl] ? ? ? ?]. intros e He.
  destruct (log_from_elem _ _ _ Hf He) as [? _]. rewrite next_index_upto by lia. lia.
Qed.
Lemma ok_present i : (p ≤ i < h)%N → ∃ e, e ∈ sv_log v ∧ Entry_index e = i ∧ Entry_log_id e = id_at leader i.
Proof.
  destruct Hok as [? ? ? ? [Hf Hl] ? ? ? ?]. intros Hi.
  destruct (log_from_stored _ _ i Hf ltac:(lia)) as (e & He & Hid). exists e. split; [done|].
  unfold Entry_index. by rewrite Hid.
Qed.
Lemma ok_last_log_id :
  match last (sv_log v) with Some e => Some (Entry_log_id e) | None => sv_purged v end = upto h.
Proof.
  destruct Hok as [? ? ? Hp [Hf Hl] ? ? ? ?]. destruct (sv_log v) as [|x es] eqn:E.
  { cbn in *. rewrite Hp. f_equal. lia. }
  rewrite <- Hl, <- (log_from_last p (x :: es) Hf) by done.
  destruct (last (x :: es)) eqn:El; [done|]. by apply last_None in El.
Qed.
End run.

(** *** The stages of the recovery *)

Lemma upto_Some (i : u64) : Some (id_at leader i) = upto (i + 1).
Proof. unfold upto. rewrite decide_False by lia. do 2 f_equal. lia. Qed.

Lemma upto_pred (n : u64) : (0 < n)%N → upto n = Some (id_at leader (n - 1)).
Proof. intros. unfold upto. by rewrite decide_False by lia. Qed.

Lemma ok_snapshot_next v p h a c : store_ok v p h a c →
  (snapshot_next v ≤ h)%N ∧ (p ≤ N.max a (snapshot_next v))%N.
Proof.
  intros [? ? ? ? ? ? ? ? Hsnap]. unfold snapshot_next. destruct (sv_snapshot v) as [snap|]; [|lia].
  destruct Hsnap as (_ & s & m & Hs & Hm & -> & _). rewrite next_index_upto by lia. lia.
Qed.

Lemma restore_run st p h a c : store_ok (view st) p h a c →
  ∃ st', restore_from_snapshot st = Ret (Ok tt, st') ∧
    store_ok (view st') p h (N.max a (snapshot_next (view st))) c ∧
    sv_log (view st') = sv_log (view st) ∧ sv_snapshot (view st') = sv_snapshot (view st) ∧
    sv_history (view st') = if (a <? snapshot_next (view st)) then [] else sv_history (view st).
Proof.
  intros Hok. pose proof (ok_snapshot_next _ _ _ _ _ Hok) as [Hsn _]. unfold restore_from_snapshot.
  rewrite (H_bind_ok _ _ st (sv_applied (view st), sv_membership (view st)) st)
    by (unfold hread; by rewrite applied_law).
  rewrite (H_bind_ok _ _ st (sv_snapshot (view st)) st) by (unfold hread; by rewrite snapshot_law).
  destruct Hok as [Hmono Hw Hb Hp Hlog Ha Hm Hc Hsnap]. unfold snapshot_next in *.
  destruct (sv_snapshot (view st)) as [snap|] eqn:Es.
  2:{ exists st. replace (a <? 0%N) with false by (symmetry; rewrite ltb_false, N_ord_le; lia).
    rewrite N.max_l by lia. split; [done|]. split; [|done].
    refine (Build_store_ok _ _ _ _ _ Hmono Hw Hb Hp Hlog Ha Hm Hc _). by rewrite Es. }
  destruct Hsnap as (Hval & s & m & Hs & Hm' & Hsid & Hmid). rewrite Hsid in *.
  rewrite next_index_upto in * by lia. rewrite Ha, (upto_ltb h Hmono) by lia.
  destruct (a <? s) eqn:E.
  - rewrite ltb_true, N_ord_lt in E. rewrite N.max_r by lia.
    destruct (install_law snap st Hval) as (st' & Hrun & Hv). unfold hcall. rewrite Hrun. exists st'.
    split; [done|]. rewrite Hv. split; [|done].
    refine (Build_store_ok (view_install snap (view st)) p h s c Hmono Hw _ Hp Hlog Hsid _ Hc _); [lia| |].
    + by exists m.
    + split; [done|]. by exists s, m.
  - rewrite ltb_false, N_ord_le in E. rewrite N.max_l by lia. exists st. split; [done|].
    split; [|done]. refine (Build_store_ok _ _ _ _ _ Hmono Hw Hb Hp Hlog Ha Hm Hc _). rewrite Es. split; [done|]. by exists s, m.
Qed.

Lemma apply_membership v p h a c b : store_ok v p h a c → (p ≤ a ≤ b)%N → (b ≤ h)%N →
  ∃ m, (m ≤ b)%N ∧ StoredMembership_log_id
    (default (sv_membership v) (last (memberships_of (entries_in a b (sv_log v))))) = upto m.
Proof.
  intros Hok Hab Hbh. destruct Hok as [? ? ? ? [Hf Hl] ? (m & Hm & Hid) ? ?].
  destruct (last _) as [sm|] eqn:El; cbn; [|exists m; split; [lia|done]].
  apply last_Some_elem_of in El. unfold memberships_of in El. apply list_elem_of_omap in El as (e & He & Hsm).
  apply elem_of_entries_in in He as [Hi He]. destruct (log_from_elem _ _ _ Hf He) as [_ Hide].
  destruct (Entry_get_membership e); [|done]. injection Hsm as <-. cbn. rewrite Hide, upto_Some.
  eexists. split; [|done]. lia.
Qed.

Lemma apply_last v p h a c b : store_ok v p h a c → (p ≤ a < b)%N → (b ≤ h)%N →
  match last (entries_in a b (sv_log v)) with Some e => Some (Entry_log_id e) | None => sv_applied v end = upto b.
Proof.
  intros Hok Hab Hbh. destruct (ok_present _ _ _ _ _ Hok (b - 1)) as (e & He & Hi & Hid); [lia|].
  pose proof (entries_in_last a b _ e (ok_sorted _ _ _ _ _ Hok) He ltac:(lia) ltac:(lia)) as Hlast.
  destruct (last _) as [l|] eqn:El; [|done]. injection Hlast as Hle.
  apply last_Some_elem_of, elem_of_entries_in in El as [_ Hl].
  destruct Hok as [? ? ? ? [Hf _] ? ? ? ?]. destruct (log_from_elem _ _ _ Hf Hl) as [_ ->].
  rewrite Hle, Hi, upto_Some. f_equal. lia.
Qed.

Lemma reapply_run st p h a c b : store_ok (view st) p h a c → (p ≤ a < b)%N → (b ≤ h)%N →
  ∃ st', reapply_committed a b st = Ret (Ok tt, st') ∧
    view st' = view_apply (entries_in a b (sv_log (view st))) (view st) ∧
    store_ok (view st') p h b c.
Proof.
  intros Hok Hab Hbh. unfold reapply_committed.
  destruct (reapply_loop_spec (N.to_nat (b - a)) a b st (ok_sorted _ _ _ _ _ Hok))
    as (r & st' & k & -> & Hk & Hv & Hr); [destruct Hok; unfold chunk_size; lia|done|lia|].
  destruct r as [[]|err].
  2:{ destruct Hr as (i & msg & Hi & Hm & _).
    destruct (ok_present _ _ _ _ _ Hok i) as (e & He & Hei & _); [lia|]. by destruct (Hm e He). }
  subst k. exists st'. split; [done|]. split; [done|].
  pose proof (apply_membership _ _ _ _ _ b Hok ltac:(lia) Hbh) as Hm.
  pose proof (apply_last _ _ _ _ _ b Hok Hab Hbh) as Hl.
  rewrite Hv. destruct Hok as [Hmono Hw Hb Hp Hlog _ _ Hc Hs].
  refine (Build_store_ok (view_apply _ (view st)) p h b c Hmono Hw _ Hp Hlog Hl Hm Hc _); [lia|].
  cbn [view_apply sv_snapshot]. destruct (sv_snapshot (view st)); [done|lia].
Qed.

(** *** Memberships *)

(** The last two of the membership of the state machine and those behind it in
    the log. *)
Definition recovered_memberships (sm : StoredMembership) (ms : list StoredMembership) : MembershipState :=
  mkMembershipState (default sm (last (removelast (sm :: ms)))) (default sm (last ms)).

Lemma recovered_memberships_eq sm ms :
  match drop (length ms - 2) ms with
  | [m0; m1] => mkMembershipState m0 m1
  | m0 :: _ => mkMembershipState sm m0
  | [] => mkMembershipState sm sm
  end = recovered_memberships sm ms.
Proof.
  destruct ms as [|m1 ms _] using rev_ind; [done|]. destruct ms as [|m0 ms _] using rev_ind; [done|].
  unfold recovered_memberships. rewrite app_comm_cons, removelast_last, !last_snoc.
  rewrite app_comm_cons, last_snoc, !length_app. cbn [length].
  replace (length ms + 1 + 1 - 2) with (length ms) by lia. by rewrite <- app_assoc, drop_app_length.
Qed.

Definition memberships_since (t : u64) (log : list Entry) : list StoredMembership :=
  memberships_of (filter (λ e, (t ≤ Entry_index e)%N) log).

Lemma get_membership_run st : log_stored (view st) →
  get_membership st = Ret (Ok (recovered_memberships (sv_membership (view st))
    (memberships_since (next_index (sv_applied (view st))) (sv_log (view st)))), st).
Proof.
  intros Hlog. unfold get_membership.
  rewrite (H_bind_ok _ _ st (sv_applied (view st), sv_membership (view st)) st)
    by (unfold hread; by rewrite applied_law).
  rewrite (H_bind_ok _ _ st _ st (last_membership_run _ _ Hlog)).
  by rewrite <- recovered_memberships_eq.
Qed.
Lemma ok_get_membership st p h a c : store_ok (view st) p h a c →
  get_membership st = Ret (Ok (recovered_memberships (sv_membership (view st))
    (memberships_since a (sv_log (view st)))), st).
Proof.
  intros Hok. rewrite get_membership_run by by eapply ok_log_stored.
  destruct Hok as [? Hw Hb ? ? -> ? ? ?]. by rewrite next_index_upto by lia.
Qed.

Definition membership_at (m : StoredMembership) (n : u64) : Prop := StoredMembership_log_id m = upto n.

Lemma memberships_since_sorted v p h a c : store_ok v p h a c →
  StronglySorted (λ m m', ∃ i j, (a < i < j)%N ∧ (j ≤ h)%N ∧ membership_at m i ∧ membership_at m' j)
    (memberships_since a (sv_log v)) ∧
  Forall (λ m, ∃ i, (a < i ≤ h)%N ∧ membership_at m i) (memberships_since a (sv_log v)).
Proof.
  intros Hok. pose proof (ok_sorted _ _ _ _ _ Hok) as Hs.
  assert (∀ e, e ∈ sv_log v → Entry_index e + 1 ≤ h ∧ Some (Entry_log_id e) = upto (Entry_index e + 1))%N as Hall.
  { intros e He. destruct Hok as [? ? ? ? [Hf Hl] ? ? ? ?].
    destruct (log_from_elem _ _ _ Hf He) as [? Hid]. rewrite Hid, upto_Some. split; [lia|done]. }
  unfold memberships_since. clear Hok. induction Hs as [|e es Hs IH Hlt]; [by split; constructor|].
  destruct IH as [IHs IHf]; [intros e' He'; apply Hall; by right|].
  assert (Forall (λ m, ∃ j, (Entry_index e + 1 < j ≤ h)%N ∧ membership_at m j)
    (memberships_of (filter (λ e, (a ≤ Entry_index e)%N) es))) as Hge.
  { apply Forall_forall. intros m Hm. unfold memberships_of in Hm.
    apply list_elem_of_omap in Hm as (e' & [_ He']%list_elem_of_filter & Hm).
    destruct (Entry_get_membership e'); [|done]. injection Hm as <-. rewrite Forall_forall in Hlt.
    destruct (Hall e') as [? Hid]; [by right|]. specialize (Hlt e' He'). unfold entry_lt in Hlt.
    eexists. split; [|exact Hid]. lia. }
  rewrite filter_cons. case_decide as Ha; [|done].
  unfold memberships_of. cbn. destruct (Entry_get_membership e) as [m|]; cbn; [|done].
  destruct (Hall e) as [? Hid]; [by left|]. split; constructor; try done.
  - eapply Forall_impl; [exact Hge|]. intros m' (j & Hj & Hm'). exists (Entry_index e + 1)%N, j.
    split; [lia|]. split; [lia|]. done.
  - exists (Entry_index e + 1)%N. split; [lia|done].
Qed.

Lemma upto_index_le m n : (m ≤ n)%N → opt_index (upto m) ≼ opt_index (upto n).
Proof.
  intros Hmn. unfold upto. destruct (decide (m = 0%N)); [apply None_le|]. rewrite decide_False by lia.
  cbn. apply Some_le. rewrite N_ord_le. cbn. lia.
Qed.

Lemma recovered_memberships_valid v p h a c : store_ok v p h a c →
  MembershipState_validate (recovered_memberships (sv_membership v) (memberships_since a (sv_log v))) = true.
Proof.
  intros Hok. destruct (memberships_since_sorted _ _ _ _ _ Hok) as [Hs Hf].
  destruct Hok as [Hmono _ Hb _ _ _ (m & Hm & Hsm) _ _].
  assert (∀ m0 m1 i j, membership_at m0 i → membership_at m1 j → (i ≤ j ≤ h)%N →
    MembershipState_validate (mkMembershipState m0 m1) = true) as Hval.
  { intros m0 m1 i j H0 H1 Hij. apply MembershipState_validate_true. unfold committed_log_id, effective_log_id; cbn.
    unfold membership_at in *. rewrite H0, H1. split; [|apply upto_index_le; lia].
    apply leb_true. rewrite (upto_leb h Hmono) by lia. rewrite leb_true, N_ord_le. lia. }
  destruct (memberships_since a (sv_log v)) as [|m1 ms _] using rev_ind;
    [apply MembershipState_validate_same|]. destruct ms as [|m0 ms _] using rev_ind.
  - cbn in Hf |- *. rewrite Forall_singleton in Hf. destruct Hf as (j & Hj & Hm1). eapply Hval; [exact Hsm|exact Hm1|lia].
  - unfold recovered_memberships. rewrite app_comm_cons, removelast_last, !last_snoc, app_comm_cons, last_snoc. cbn.
    assert (∃ i j, (a < i < j)%N ∧ (j ≤ h)%N ∧ membership_at m0 i ∧ membership_at m1 j) as (i & j & ? & ? & H0 & H1).
    { refine (StronglySorted_app_1_elem_of _ _ _ m0 m1 Hs _ _); [apply elem_of_app; right|]; by left. }
    eapply Hval; [exact H0|exact H1|lia].
Qed.

(** *** Log ids *)

Lemma get_log_id_run st p h a c i : store_ok (view st) p h a c → (p ≤ i < h)%N →
  get_log_id_at i st = Ok (id_at leader i).
Proof.
  intros Hok Hi. unfold get_log_id_at. rewrite entries_law by lia. cbn.
  destruct (ok_present _ _ _ _ _ Hok i Hi) as (e & He & Hei & _).
  pose proof (entries_in_head i (i + 1) _ e (ok_sorted _ _ _ _ _ Hok) He Hei ltac:(lia)) as Hh.
  destruct (entries_in i (i + 1) (sv_log (view st))) as [|x l] eqn:E; [done|].
  assert (x ∈ entries_in i (i + 1) (sv_log (view st))) as Hx by (rewrite E; left).
  apply elem_of_entries_in in Hx as [Hxi Hx]. destruct Hok as [? ? ? ? [Hf _] ? ? ? ?].
  destruct (log_from_elem _ _ _ Hf Hx) as [_ ->]. do 2 f_equal. lia.
Qed.

Lemma key_log_ids_run st p h a c : store_ok (view st) p h a c →
  ∃ l, get_key_log_ids_of (upto p) (upto h) st = Ret (Ok l, st) ∧ LogIdList_wf l ∧
    LogIdList_purged l = upto p ∧ LogIdList_ids l = Entry_log_id <$> sv_log (view st).
Proof.
  intros Hok. unfold get_key_log_ids_of. pose proof (λ i, get_log_id_run st p h a c i Hok) as Hget.
  pose proof Hok as [Hmono Hw Hb _ [Hf Hl] _ _ _ _].
  rewrite next_index_upto by lia. destruct (decide (p = h)) as [<-|Hne].
  - destruct (sv_log (view st)); [|cbn in Hl; lia]. unfold StorageHelper_get_key_log_ids, upto.
    destruct (decide (p = 0%N)); [|rewrite decide_True by done]; eexists; (split; [done|]); (split; [|done]).
    + by repeat constructor.
    + split; [|by repeat constructor]. cbn. split; [lia|]. by intros ? ?%elem_of_nil.
  - rewrite (upto_pred h) by lia.
    destruct (StorageHelper_get_key_log_ids_lemma (λ i, get_log_id_at i st) leader (upto p) (h - 1)
      (2 * N.to_nat h + 2)) as (l & Hrun & Hwf & Hpu & Hids); rewrite ?next_index_upto by lia; try lia.
    + unfold upto. intros x. destruct (decide _); [done|]. intros [= <-]. cbn. lia.
    + intros i Hi. apply Hget. lia.
    + intros i j ? ? ?. apply Hmono; lia.
    + unfold upto. intros x. destruct (decide _); [done|]. intros [= <-]. cbn. apply Hmono; lia.
    + rewrite Hrun. exists l. split; [done|]. split; [done|]. split; [done|].
      rewrite Hids, (log_from_ids p) by done. unfold stored_ids. rewrite next_index_upto by lia.
      by replace (N.to_nat (h - 1 + 1 - p)) with (length (sv_log (view st))) by lia.
Qed.

(** *** The whole recovery *)

Definition restored_vote (id : u64) (v : StoreView) : Vote :=
  default (Vote_new_with_default_term id) (sv_vote v).

Definition last_log_of (v : StoreView) : option LogId :=
  match last (sv_log v) with Some e => Some (Entry_log_id e) | None => sv_purged v end.

Lemma get_initial_state_eq id now st :
  get_initial_state (Some id) now st =
    recover (restored_vote id (view st)) (sv_committed (view st))
      (mkLogState (sv_purged (view st)) (last_log_of (view st))) (sv_applied (view st)) now st.
Proof.
  unfold get_initial_state.
  rewrite (H_bind_ok _ _ st (sv_vote (view st)) st) by (unfold hread; by rewrite read_vote_law).
  rewrite (H_bind_ok _ _ st (restored_vote id (view st)) st) by (unfold restored_vote; by destruct (sv_vote (view st))).
  rewrite (H_bind_ok _ _ st (sv_committed (view st)) st) by (unfold hread; by rewrite read_committed_law).
  rewrite (H_bind_ok _ _ st (mkLogState (sv_purged (view st)) (last_log_of (view st))) st)
    by (unfold hread; by rewrite get_log_state_law).
  by rewrite (H_bind_ok _ _ st (sv_applied (view st), sv_membership (view st)) st)
    by (unfold hread; by rewrite applied_law).
Qed.

Lemma load_snapshot_run st p h a c : store_ok (view st) p h a c → (snapshot_next (view st) ≤ a)%N →
  ∃ snap st' s, load_snapshot (upto p) st = Ret (Ok snap, st') ∧ (p ≤ s ≤ a)%N ∧
    SnapshotMeta_last_log_id (snapshot_meta_of snap) = upto s ∧
    sv_log (view st') = sv_log (view st) ∧ sv_applied (view st') = sv_applied (view st) ∧
    sv_history (view st') = sv_history (view st) ∧ sv_membership (view st') = sv_membership (view st).
Proof.
  intros [_ Hw Hb Hp _ Ha _ _ Hsnap] Hle. unfold load_snapshot.
  rewrite (H_bind_ok _ _ st (sv_snapshot (view st)) st) by (unfold hread; by rewrite snapshot_law).
  unfold snapshot_next in Hle. destruct (sv_snapshot (view st)) as [snap|].
  { destruct Hsnap as (_ & s & m & Hs & _ & Hid & _). rewrite Hid, next_index_upto in Hle by lia.
    exists (Some snap), st, s. split; [done|]. split; [lia|]. done. }
  case_decide as Hsome.
  - destruct (force_law st) as [build Hbuild].
    rewrite (H_bind_ok _ _ st (Some build) st) by (unfold hread; by rewrite Hbuild). cbv beta iota.
    destruct (build_law _ _ _ Hbuild) as (snap & st' & Hrun & Hv & _ & Hmeta).
    erewrite H_bind_ok by (unfold hcall; by rewrite Hrun).
    exists (Some snap), st', a. split; [done|]. split; [lia|]. cbn [snapshot_meta_of]. rewrite Hmeta, Hv. done.
  - exists None, st, 0%N. split; [done|]. split; [|done]. unfold upto in Hsome.
    destruct (decide (p = 0%N)) as [->|]; [lia|]. destruct Hsome. by eexists.
Qed.

(** The recovered state passes the checks that the crate makes of a state. *)
Lemma recovered_valid v p h t c l snap s vote now :
  store_ok v p h t c → LogIdList_wf l → LogIdList_purged l = upto p →
  LogIdList_ids l = Entry_log_id <$> sv_log v → (p ≤ s ≤ t)%N →
  SnapshotMeta_last_log_id (snapshot_meta_of snap) = upto s →
  RaftState_validate (mkRaftState (Leased_new now 0 vote) l
    (recovered_memberships (sv_membership v) (memberships_since t (sv_log v))) (snapshot_meta_of snap) 0
    ServerState_Learner (IOState_new vote (upto t) (upto s) (upto p)) (upto p) 1) = true.
Proof.
  intros Hok Hwf Hpu Hids Hst Hsid. pose proof (recovered_memberships_valid _ _ _ _ _ Hok) as Hmem.
  assert (LogIdList_last l = upto h) as Hlast.
  { rewrite LogIdList_last_spec, Hids, Hpu, fmap_last by done. rewrite <- (ok_last_log_id _ _ _ _ _ Hok).
    destruct (last (sv_log v)); [done|]. by destruct Hok. }
  destruct Hok as [Hmono Hw Hb Hp [Hf _] _ _ _ _].
  assert (∀ m n, (m ≤ n)%N → (n ≤ h)%N → (upto m <=? upto n) = true) as Hle.
  { intros m n ? ?. rewrite (upto_leb h Hmono) by lia. rewrite leb_true, N_ord_le. done. }
  unfold RaftState_validate, last_purged_log_id, purge_upto, snapshot_last_log_id, local_committed, last_log_id.
  cbn [RaftState_log_ids RaftState_purge_upto RaftState_snapshot_meta RaftState_membership_state RaftState_io_state].
  rewrite Hpu, Hsid, Hmem, Hlast. unfold apply_progress, IOState_validate, IOProgress_validate.
  cbn [RaftState_io_state IOState_new IOState_apply_progress IOState_snapshot IOState_purged IOState_log_progress
    IOProgress_new_synchronized IOProgress_accepted IOProgress_submitted IOProgress_flushed].
  rewrite !pleb_refl, !Hle by lia. cbn [andb].
  replace (match upto s with Some _ => true | None => true end) with true by by destruct (upto s).
  destruct (upto p) eqn:E; [done|]. rewrite LogIdList_first_spec, Hids by done.
  unfold upto in E. destruct (decide (p = 0%N)) as [->|]; [|done].
  destruct (sv_log v) as [|e es]; [done|]. destruct Hf as [Hf _]. cbn. by rewrite Hf.
Qed.

Lemma reapply_stage st p h a c d : store_ok (view st) p h a c → (p ≤ a)%N → (d ≤ h)%N →
  ∃ st', (if (upto a <? upto d) then
      let start := next_index (upto a) in
      let end' := next_index (upto d) in
      if (start <? next_index (upto p)) then
        hfail (StorageError_read_log_at_index start (inr (ErrorMessage_cannot_reapply start (upto p))))
      else
        _ ← reapply_committed start end';
        mret (upto d)
    else mret (upto a)) st = Ret (Ok (upto (N.max a d)), st') ∧
    view st' = view_apply (entries_in a (N.max a d) (sv_log (view st))) (view st) ∧
    store_ok (view st') p h (N.max a d) c.
Proof.
  intros Hok Hpa Hd. pose proof Hok as [Hmono Hw Hb _ _ _ _ _ _]. rewrite (upto_ltb h Hmono) by lia.
  destruct (a <? d) eqn:E.
  - rewrite ltb_true, N_ord_lt in E. rewrite !next_index_upto by lia. cbn zeta. rewrite N.max_r by lia.
    replace (a <? p) with false by (symmetry; rewrite ltb_false, N_ord_le; lia).
    destruct (reapply_run st p h a c d Hok) as (st' & Hrun & Hv & Hok'); [lia|lia|].
    exists st'. by rewrite (H_bind_ok _ _ _ _ _ Hrun).
  - rewrite ltb_false, N_ord_le in E. rewrite N.max_l by lia. exists st.
    by rewrite entries_in_empty, view_apply_nil.
Qed.

(** C12: a node that starts on a consistent store recovers: the snapshot is
    installed when it is ahead of the state machine, the committed entries
    behind it are applied in order, each once, nothing else is, and the state
    that the engine starts from is valid: its vote is the stored one, its log
    ids are those of the stored log, its applied log id is that of the state
    machine, and its memberships are the last two of those applied and those
    behind them in the log. *)
Theorem restart_recovers id now st p h a c :
  store_ok (view st) p h a c →
  let s := snapshot_next (view st) in
  let t := N.max (N.max a s) c in
  ∃ rs st', get_initial_state (Some id) now st = Ret (Ok rs, st') ∧ RaftState_validate rs = true ∧
    vote_ref rs = restored_vote id (view st) ∧
    LogIdList_wf (RaftState_log_ids rs) ∧ last_purged_log_id rs = upto p ∧
    LogIdList_ids (RaftState_log_ids rs) = Entry_log_id <$> sv_log (view st) ∧
    io_applied rs = upto t ∧ sv_applied (view st') = upto t ∧
    sv_history (view st') =
      (if (a <? s) then [] else sv_history (view st)) ++ entries_in (N.max a s) t (sv_log (view st)) ∧
    RaftState_membership_state rs =
      recovered_memberships (sv_membership (view st')) (memberships_since t (sv_log (view st))).
Proof.
  intros Hok. cbn zeta. pose proof (ok_snapshot_next _ _ _ _ _ Hok) as [Hsh Hps].
  destruct (restore_run _ _ _ _ _ Hok) as (st1 & Hrestore & Hok1 & Hlog1 & Hsnap1 & Hh1).
  set (s := snapshot_next (view st)) in *. set (a1 := N.max a s) in *.
  destruct (reapply_stage _ _ _ _ _ (N.max a c) Hok1 Hps) as (st2 & Hreapply & Hv2 & Hok2); [destruct Hok; lia|].
  replace (N.max a1 (N.max a c)) with (N.max a1 c) in * by lia. set (t := N.max a1 c) in *.
  assert (snapshot_next (view st2) ≤ t)%N as Hst.
  { rewrite Hv2. unfold snapshot_next. cbn. rewrite Hsnap1. fold (snapshot_next (view st)). fold s. lia. }
  destruct (key_log_ids_run _ _ _ _ _ Hok2) as (l & Hkeys & Hwf & Hpu & Hids).
  destruct (load_snapshot_run _ _ _ _ _ Hok2 Hst) as (snap & st3 & s3 & Hload & Hs3 & Hsid & Hl3 & Ha3 & Hh3 & Hm3).
  pose proof (recovered_valid _ _ _ _ _ l snap s3 (restored_vote id (view st)) now Hok2 Hwf Hpu Hids Hs3 Hsid) as Hval.
  pose proof Hok as [Hmono Hw Hb Hp _ Ha _ Hc _].
  assert (sv_log (view st2) = sv_log (view st)) as Hlog2 by by rewrite Hv2, <- Hlog1.
  rewrite get_initial_state_eq, Hc, Hp, Ha. unfold last_log_of. rewrite (ok_last_log_id _ _ _ _ _ Hok).
  unfold recover.
  cbn [LogState_last_purged_log_id LogState_last_log_id]. cbn zeta.
  rewrite !(upto_ltb h Hmono) by lia.
  replace (h <? p) with false by (symmetry; rewrite ltb_false, N_ord_le; lia).
  rewrite (H_bind_ok _ _ _ _ _ Hrestore).
  rewrite (H_bind_ok _ _ st1 (upto a1, sv_membership (view st1)) st1)
    by (unfold hread; rewrite applied_law; by destruct Hok1 as [? ? ? ? ? -> ? ? ?]).
  replace (if (c <? a) then upto a else upto c) with (upto (N.max a c)).
  2:{ destruct (c <? a) eqn:E; [rewrite ltb_true, N_ord_lt in E|rewrite ltb_false, N_ord_le in E]; f_equal; lia. }
  rewrite (H_bind_ok _ _ _ _ _ Hreapply), (H_bind_ok _ _ _ _ _ (ok_get_membership _ _ _ _ _ Hok2)).
  rewrite (upto_ltb h Hmono) by lia.
  replace (h <? t) with false by (symmetry; rewrite ltb_false, N_ord_le; lia).
  rewrite (H_bind_ok _ _ st2 (upto h, upto p) st2) by done.
  rewrite (H_bind_ok _ _ _ _ _ Hkeys), (H_bind_ok _ _ _ _ _ Hload), Hsid.
  eexists _, st3. split; [reflexivity|]. split; [exact Hval|]. rewrite Hlog2 in *.
  split; [done|]. split; [done|]. split; [done|]. split; [done|]. split; [done|].
  split; [rewrite Ha3; by destruct Hok2|]. split; [|by rewrite Hm3].
  rewrite Hh3, Hv2. cbn [view_apply sv_history]. by rewrite Hh1, Hlog1.
Qed.

Lemma restore_none st :
  (∀ snap, sv_snapshot (view st) = Some snap → SnapshotMeta_last_log_id (Snapshot_meta snap) ≼ sv_applied (view st)) →
  restore_from_snapshot st = Ret (Ok tt, st).
Proof.
  intros Hs. unfold restore_from_snapshot.
  rewrite (H_bind_ok _ _ st (sv_applied (view st), sv_membership (view st)) st)
    by (unfold hread; by rewrite applied_law).
  rewrite (H_bind_ok _ _ st (sv_snapshot (view st)) st) by (unfold hread; by rewrite snapshot_law).
  destruct (sv_snapshot (view st)) as [snap|]; [|done].
  destruct (_ <? _) eqn:E; [|done]. apply ltb_true in E. by apply ord_not_le in E; destruct E; apply Hs.
Qed.

(** C31: a node does not start from a store that lost entries: when the log
    store is inverted, or when entries that are committed and not applied have
    been purged and no snapshot holds them, the start fails with an error that
    names them, and nothing is written. *)
Theorem restart_refuses_lost_entries id now st :
  let v := view st in
  (last_log_of v ≺ sv_purged v → get_initial_state (Some id) now st =
    Ret (Err (StorageError_read_logs (inr (ErrorMessage_inverted_log_order (last_log_of v) (sv_purged v)))), st)) ∧
  (sv_purged v ≼ last_log_of v → sv_applied v ≺ sv_committed v →
   (next_index (sv_applied v) < next_index (sv_purged v))%N →
   (∀ snap, sv_snapshot v = Some snap → SnapshotMeta_last_log_id (Snapshot_meta snap) ≼ sv_applied v) →
   get_initial_state (Some id) now st =
    Ret (Err (StorageError_read_log_at_index (next_index (sv_applied v))
      (inr (ErrorMessage_cannot_reapply (next_index (sv_applied v)) (sv_purged v)))), st)).
Proof.
  cbn zeta. rewrite get_initial_state_eq. unfold recover. cbn [LogState_last_purged_log_id LogState_last_log_id].
  split.
  - intros Hlt. by replace (_ <? _) with true by by symmetry; apply ltb_true.
  - intros Hle Hac Hpu Hs.
    replace (_ <? sv_purged _) with false by by symmetry; apply ltb_false.
    replace (sv_committed _ <? _) with false by (symmetry; by apply ltb_false, ord_lt_le).
    rewrite (H_bind_ok _ _ _ _ _ (restore_none st Hs)).
    rewrite (H_bind_ok _ _ st (sv_applied (view st), sv_membership (view st)) st)
      by (unfold hread; by rewrite applied_law).
    replace (_ <? sv_committed _) with true by (symmetry; by apply ltb_true). cbn zeta.
    by replace (next_index _ <? next_index _) with true by (symmetry; by rewrite ltb_true, N_ord_lt).
Qed.

Lemma load_snapshot_total purged st : ∃ snap st', load_snapshot purged st = Ret (Ok snap, st') ∧
  sv_log (view st') = sv_log (view st) ∧ sv_purged (view st') = sv_purged (view st) ∧
  sv_history (view st') = sv_history (view st).
Proof.
  unfold load_snapshot.
  rewrite (H_bind_ok _ _ st (sv_snapshot (view st)) st) by (unfold hread; by rewrite snapshot_law).
  destruct (sv_snapshot (view st)) as [snap|]; [by eexists _, st|]. case_decide; [|by eexists _, st].
  destruct (force_law st) as [build Hbuild].
  rewrite (H_bind_ok _ _ st (Some build) st) by (unfold hread; by rewrite Hbuild). cbv beta iota.
  destruct (build_law _ _ _ Hbuild) as (snap & st' & Hrun & Hv & _).
  erewrite H_bind_ok by (unfold hcall; by rewrite Hrun). eexists _, st'. by rewrite Hv.
Qed.

(** A crash between the installation of a snapshot and the purge of the
    logs it covers is cleaned up: a log that ends before the applied entry is
    purged up to it, and the node starts with an empty log behind the applied
    entry; the state machine is left as it is. *)
Theorem restart_cleans_hole id now st applied :
  let v := view st in
  log_stored v → sv_applied v = Some applied → (LogId_index applied + 1 < u64_modulus)%N →
  sv_purged v ≼ last_log_of v → last_log_of v ≺ Some applied →
  (next_index (last_log_of v) ≤ LogId_index applied)%N → sv_committed v ≼ Some applied →
  (∀ snap, sv_snapshot v = Some snap → SnapshotMeta_last_log_id (Snapshot_meta snap) ≼ Some applied) →
  ∃ rs st', get_initial_state (Some id) now st = Ret (Ok rs, st') ∧
    RaftState_log_ids rs = LogIdList_new (Some applied) [] ∧ io_applied rs = Some applied ∧
    sv_log (view st') = [] ∧ sv_purged (view st') = Some applied ∧ sv_history (view st') = sv_history v.
Proof.
  cbn zeta. intros Hlog Ha Hw Hpl Hlt Hidx Hc Hs. rewrite <- Ha in Hs.
  destruct (purge_law applied st) as (st1 & Hpurge & Hv1); [ord|].
  destruct (load_snapshot_total (Some applied) st1) as (snap & st2 & Hload & Hl2 & Hp2 & Hh2).
  rewrite get_initial_state_eq. unfold recover. cbn [LogState_last_purged_log_id LogState_last_log_id].
  replace (_ <? sv_purged _) with false by by symmetry; apply ltb_false.
  assert ((if (sv_committed (view st) <? sv_applied (view st)) then sv_applied (view st)
           else sv_committed (view st)) ≼ Some applied) as Hc'.
  { rewrite Ha. destruct (sv_committed (view st) <? Some applied); [apply ord_le_refl|done]. }
  revert Hc'. generalize (if (sv_committed (view st) <? sv_applied (view st)) then sv_applied (view st)
    else sv_committed (view st)) as committed. intros committed Hc'. cbn zeta.
  rewrite (H_bind_ok _ _ _ _ _ (restore_none st Hs)).
  rewrite (H_bind_ok _ _ st (Some applied, sv_membership (view st)) st) by (unfold hread; by rewrite applied_law, Ha).
  replace (_ <? committed) with false by by symmetry; apply ltb_false.
  rewrite (H_bind_ok _ _ st (Some applied) st) by done.
  rewrite (H_bind_ok _ _ _ _ _ (get_membership_run _ Hlog)).
  replace (last_log_of _ <? _) with true by by symmetry; apply ltb_true.
  replace (_ >=? _) with false by (symmetry; rewrite leb_false, N_ord_lt, (next_index_some applied) by done; lia).
  erewrite (H_bind_ok _ _ st (Some applied, Some applied) st1)
    by by erewrite H_bind_ok by (unfold hcall; by rewrite Hpurge).
  rewrite (H_bind_ok _ _ st1 (LogIdList_new (Some applied) []) st1).
  2:{ unfold get_key_log_ids_of, StorageHelper_get_key_log_ids. cbn [opt_index fmap option_fmap option_map].
    by rewrite decide_True by done. }
  rewrite (H_bind_ok _ _ _ _ _ Hload). eexists _, st2. split; [reflexivity|]. split; [done|]. split; [done|].
  rewrite Hl2, Hp2, Hh2, Hv1. split; [|done]. cbn. apply filter_none. intros e He.
  destruct Hlog as [Hsort Hb]. destruct (sorted_last _ e Hsort He) as (x & Hx & Hle & Hin).
  unfold last_log_of in Hidx. rewrite Hx, next_index_some in Hidx by by apply Hb. unfold Entry_index in *. lia.
Qed.
End startup.

Module StartupWitness.
#[local] Existing Instance std_config.
#[local] Instance memory : RaftStorage StoreView := mem_store (C := std_config) tt.
#[local] Instance memory_laws : RaftStorageLaws StoreView := mem_store_laws (C := std_config) tt.

(** Two entries of term 1 and two of term 2, of which the first is purged. *)
Definition leader_at (i : u64) : CommittedLeaderId (RaftTypeConfig := std_config) :=
  LeaderIdStd.mkCommitted (if (i <? 2)%N then 1 else 2).
Definition lid (i : u64) : LogId := id_at leader_at i.
Definition membership (i : u64) : StoredMembership := mkStoredMembership (Some (lid i)) Membership_default.
Definition log : list Entry :=
  [Entry_new_membership (lid 1) Membership_default; Entry_new_blank (lid 2);
   Entry_new_membership (lid 3) Membership_default].
Definition snapshot : Snapshot := mkSnapshot (mkSnapshotMeta (Some (lid 1)) (membership 1)) tt.

(** The state machine is in memory only, and starts empty. *)
Definition stored : StoreView :=
  mkStoreView (Some (Vote_new 2 1)) (Some (lid 2)) (Some (lid 0)) log [] None StoredMembership_default (Some snapshot).

Lemma leader_at_mono (i j : u64) : (i ≤ j)%N → (j < 4)%N → leader_at i ≼ leader_at j.
Proof.
  intros Hij Hj. unfold leader_at.
  assert (i ∈ [0; 1; 2; 3] ∧ j ∈ [0; 1; 2; 3])%N as [Hi Hj'].
  { rewrite !elem_of_cons, elem_of_nil. lia. }
  rewrite !elem_of_cons, elem_of_nil in Hi, Hj'.
  destruct Hi as [->|[->|[->|[->|[]]]]], Hj' as [->|[->|[->|[->|[]]]]]; by vm_compute.
Qed.

Lemma stored_ok : store_ok leader_at stored 1 4 0 3.
Proof.
  refine (Build_store_ok leader_at stored 1 4 0 3 leader_at_mono _ _ _ _ _ _ _ _); try done.
  - exists 0%N. done.
  - split; [done|]. exists 2%N, 2%N. done.
Qed.

Lemma restart_recovers_witness :
  ∃ rs st', get_initial_state (Some 1%N) 100%N stored = Ret (Ok rs, st') ∧ RaftState_validate rs = true ∧
    LogIdList_ids (RaftState_log_ids rs) = [lid 1; lid 2; lid 3] ∧
    sv_history st' = [Entry_new_blank (lid 2)] ∧
    RaftState_membership_state rs = mkMembershipState (membership 1) (membership 3).
Proof.
  destruct (restart_recovers leader_at 1 100 stored 1 4 0 3)
    as (rs & st' & Hrun & Hval & _ & _ & _ & Hids & _ & _ & Hh & _); [exact stored_ok|].
  exists rs, st'. split; [exact Hrun|]. split; [exact Hval|]. split; [exact Hids|]. split; [exact Hh|].
  assert (get_initial_state (Some 1%N) 100%N stored = Ret (Ok rs, st')) as Hrun' by exact Hrun.
  clear - Hrun'. vm_compute in Hrun'. injection Hrun' as <- _. vm_compute. reflexivity.
Defined.

(** The same store without its snapshot: the entry 0 is lost. *)
Lemma restart_refuses_lost_entries_witness :
  let st := mkStoreView None (Some (lid 2)) (Some (lid 0)) log [] None StoredMembership_default None in
  get_initial_state (Some 1%N) 100%N st =
    Ret (Err (StorageError_read_log_at_index 0 (inr (ErrorMessage_cannot_reapply 0 (Some (lid 0))))), st).
Proof.
  intros st. destruct (restart_refuses_lost_entries 1 100 st) as [_ Hlost]. by apply Hlost.
Defined.

(** The snapshot at 9 was installed, and the log was not purged. *)
Lemma restart_cleans_hole_witness :
  let at9 := mkLogId (C := std_config) (LeaderIdStd.mkCommitted 3) 9 in
  let st := mkStoreView None (Some (lid 2)) (Some (lid 0)) log [] (Some at9) StoredMembership_default None in
  ∃ rs st', get_initial_state (Some 1%N) 100%N st = Ret (Ok rs, st') ∧
    RaftState_log_ids rs = LogIdList_new (Some at9) [] ∧ sv_log st' = [].
Proof.
  intros at9 st. destruct (restart_cleans_hole 1 100 st at9) as (rs & st' & Hrun & Hids & _ & Hlog & _); try done.
  - split; [cbn; repeat constructor|]. intros e He. change (e ∈ log) in He. unfold log in He. rewrite !elem_of_cons, elem_of_nil in He.
    by destruct He as [->|[->|[->|[]]]].
  - by exists rs, st'.
Defined.
End StartupWitness.
