(* ===== verification/ReplStream.v ===== *)
(** * Replication streams

    [replication/mod.rs], [replication/stream_state.rs],
    [replication/replication_context.rs], [replication/replication_progress.rs],
    [replication/inflight_append.rs], [replication/inflight_append_queue.rs],
    [replication/backoff_state.rs], [replication/backoff_consumer.rs] and
    [replication/payload.rs]: the task of a leader that sends log entries to
    one target.

    A session is the life of one stream: the transport polls the request stream
    and delivers responses.  In which order it does is not fixed by the code,
    so a session is run on a list of events.  What the task reads from the
    watch channels and from the log store at a poll is part of the event. *)

From S2P Require Import Prelude Vote LogId LogIdList Quorum Membership VecProgress IOState.
From S2P Require Import MembershipState Entry RaftState Config ProgressEntry Proposer Command.
From S2P Require Import Engine Replication Following LeaderHandler VoteHandler EngineImpl.
From S2P Require Import VoteSafety Cluster ReadQueue CoreHelpers Wire Core Storage.

(** ** Backoff

    [network/backoff.rs]: an iterator of delays. *)
Record Backoff := mkBackoff {
  Backoff_delays : nat → option Duration;
  Backoff_position : nat;
}.
Definition Backoff_next (b : Backoff) : option Duration * Backoff :=
  (Backoff_delays b (Backoff_position b), mkBackoff (Backoff_delays b) (S (Backoff_position b))).

Definition EXHAUSTED_BACKOFF_DELAY : Duration := 500.
Definition BACKOFF_RANK_THRESHOLD : u64 := 20.

Record BackoffState := mkBackoffState {
  BackoffState_rank : u64;
  BackoffState_inner : option Backoff;
}.
Definition BackoffState_new : BackoffState := mkBackoffState 0 None.

Definition on_success (s : BackoffState) : BackoffState :=
  if decide (BackoffState_rank s = 0%N) then s else mkBackoffState 0 None.
Definition on_error (s : BackoffState) (weight : u64) : BackoffState :=
  mkBackoffState (u64_add (BackoffState_rank s) weight) (BackoffState_inner s).
Definition observe {T} (s : BackoffState) (r : result T RPCError) : BackoffState :=
  match r with Ok _ => on_success s | Err e => on_error s (backoff_rank e) end.
Definition reconcile (s : BackoffState) (backoff_factory : Backoff) : BackoffState :=
  mkBackoffState (BackoffState_rank s)
    (if (BackoffState_rank s >? BACKOFF_RANK_THRESHOLD) then
       match BackoffState_inner s with Some b => Some b | None => Some backoff_factory end
     else None).

(** [BackoffConsumer::next_delay] *)
Definition next_delay (s : BackoffState) : option Duration * BackoffState :=
  match BackoffState_inner s with
  | None => (None, s)
  | Some b =>
      let '(d, b) := Backoff_next b in
      (Some (default EXHAUSTED_BACKOFF_DELAY d), mkBackoffState (BackoffState_rank s) (Some b))
  end.

Section stream.
Context {C : RaftTypeConfig} `{!StoreEnv} {St : Type} `{!RaftStorage St}.
(** What the runtime is told of a storage error. *)
Context (report : Storage.StorageError IoError → Core.StorageError).
Implicit Types (matching : option LogId).

(** ** Requests in flight *)
Record InflightAppend := mkInflightAppend {
  InflightAppend_sending_time : Instant;
  InflightAppend_last_log_id : option LogId;
}.

Definition inflight_push (q : list InflightAppend) (now : Instant) (log_id : option LogId) :
    list InflightAppend := q ++ [mkInflightAppend now log_id].

Fixpoint drain_acked_loop (q : list InflightAppend) matching (last : option Instant) :
    option Instant * list InflightAppend :=
  match q with
  | first :: rest =>
      if (matching >=? InflightAppend_last_log_id first) then
        drain_acked_loop rest matching (Some (InflightAppend_sending_time first))
      else (last, q)
  | [] => (last, [])
  end.
Definition drain_acked (q : list InflightAppend) matching : option Instant * list InflightAppend :=
  drain_acked_loop q matching None.

(** ** The payload *)
Definition Payload_update_matching (p : Payload) matching : Payload :=
  match p with
  | Payload_LogIdRange r => Payload_LogIdRange (mkLogIdRange matching (LogIdRange_last r))
  | Payload_LogsSince _ => Payload_LogsSince matching
  end.
Definition Payload_len (p : Payload) : option u64 :=
  match p with
  | Payload_LogIdRange r => Some (LogIdRange_len r)
  | Payload_LogsSince _ => None
  end.

(** ** The context *)
Record ReplicationContext := mkReplicationContext {
  ReplicationContext_id : u64;
  ReplicationContext_target : u64;
  ReplicationContext_leader_vote : CommittedVote;
  ReplicationContext_stream_id : u64;
  ReplicationContext_config : Config;
}.

Definition leader_changed (ctx : ReplicationContext) (accepted_io : IOId) : bool :=
  bool_decide (IOId_leader_id accepted_io ≠
    CommittedVote_leader_id (ReplicationContext_leader_vote ctx)).

Definition notify_storage_error (error : Storage.StorageError IoError) : Notification :=
  Notification_StorageError (report error).
Definition notify_heartbeat_progress (ctx : ReplicationContext) (sending_time : Instant) : Notification :=
  Notification_HeartbeatProgress (ReplicationContext_stream_id ctx) sending_time
    (ReplicationContext_target ctx).
Definition context_notify_progress (ctx : ReplicationContext) (result : option ReplicationResult)
    (inflight_id : option u64) : Notification :=
  Notification_ReplicationProgress (ReplicationContext_stream_id ctx)
    (ReplicationContext_target ctx) result inflight_id.
Definition notify_higher_vote (ctx : ReplicationContext) (higher : Vote) : Notification :=
  Notification_HigherVote (ReplicationContext_target ctx) higher (ReplicationContext_leader_vote ctx).

(** ** The request stream *)
Record StreamState := mkStreamState {
  StreamState_payload : option Payload;
  StreamState_inflight_id : option u64;
}.

(** What a wait for more logs is ended by. *)
Inductive WaitEvent :=
| WaitEvent_Data (inflight_id : u64)
| WaitEvent_Submitted
| WaitEvent_Committed
| WaitEvent_Cancel.

(** A poll of the request stream: the submitted I/O that each round of the
    wait reads, with the event that ends the round; the log store, the accepted
    I/O and the committed log id that are read then, and the time. *)
Record Poll := mkPoll {
  poll_waits : list (option LogId * WaitEvent);
  poll_store : St;
  poll_accepted : IOId;
  poll_committed : option LogId;
  poll_time : Instant;
}.

Inductive Async (A : Type) := Ready (a : A) | Pending.
Arguments Ready {A} a.
Arguments Pending {A}.

Definition non_reversed_log_id_range (prev last : option LogId) : LogIdRange :=
  mkLogIdRange prev (if (last <? prev) then prev else last).

(** The wait of [get_log_id_range]; it is pending after the last event. *)
Fixpoint wait_log_id_range (prev : option LogId) (inflight_id : option u64)
    (waits : list (option LogId * WaitEvent)) : Async (option LogIdRange) :=
  match waits with
  | [] => Pending
  | (last_log_id, ev) :: waits =>
      if (last_log_id >? prev) then Ready (Some (non_reversed_log_id_range prev last_log_id))
      else
        match ev with
        | WaitEvent_Data new_id =>
            if decide (Some new_id ≠ inflight_id) then Ready None
            else wait_log_id_range prev inflight_id waits
        | WaitEvent_Submitted => wait_log_id_range prev inflight_id waits
        | WaitEvent_Committed => Ready (Some (non_reversed_log_id_range prev last_log_id))
        | WaitEvent_Cancel => Ready None
        end
  end.

Definition get_log_id_range (s : StreamState) (p : Poll) : Async (option LogIdRange) :=
  match StreamState_payload s with
  | None => Ready None
  | Some (Payload_LogIdRange r) => Ready (Some r)
  | Some (Payload_LogsSince prev) => wait_log_id_range prev (StreamState_inflight_id s) (poll_waits p)
  end.

Definition update_log_id_range (s : StreamState) matching : StreamState :=
  match StreamState_payload s with
  | None => s
  | Some payload =>
      let payload := Payload_update_matching payload matching in
      mkStreamState (if decide (Payload_len payload = Some 0%N) then None else Some payload)
        (StreamState_inflight_id s)
  end.

(** A result that is empty violates the contract of the store, and is handled
    as a heartbeat. *)
Definition read_log_entries (max_entries : u64) (rng : LogIdRange) (st : St) :
    result (list Entry * LogIdRange) (Storage.StorageError IoError) :=
  let start := next_index (LogIdRange_prev rng) in
  let end' := next_index (LogIdRange_last rng) in
  let r := mkLogIdRange (LogIdRange_prev rng) (LogIdRange_prev rng) in
  if (start >=? end') then Ok ([], r)
  else
    let end' := N.min end' (u64_add start max_entries) in
    match sto_read_logs (limited_get_log_entries start end' st) with
    | Err e => Err e
    | Ok logs =>
        match last logs with
        | None => Ok ([], r)
        | Some e => Ok (logs, mkLogIdRange (LogIdRange_prev rng) (Some (Entry_log_id e)))
        end
    end.

Inductive ReplicationClosed :=
| ReplicationClosed_canceled
| ReplicationClosed_leader_changed
| ReplicationClosed_storage_error
| ReplicationClosed_channel.

(** [next_request], without its backoff: the result, the stream state, and what
    the runtime is told. *)
Definition next_request (ctx : ReplicationContext) (s : StreamState) (p : Poll) :
    Async (result (option AppendEntriesRequest) ReplicationClosed * StreamState * list Notification) :=
  match get_log_id_range s p with
  | Pending => Pending
  | Ready None => Ready (Ok None, s, [])
  | Ready (Some log_id_range) =>
      match read_log_entries (max_payload_entries (ReplicationContext_config ctx)) log_id_range
              (poll_store p) with
      | Err sto_err => Ready (Err ReplicationClosed_storage_error, s, [notify_storage_error sto_err])
      | Ok (entries, sending_range) =>
          if leader_changed ctx (poll_accepted p) then Ready (Ok None, s, [])
          else
            let req := mkAppendEntriesRequest
              (CommittedVote_into_vote (ReplicationContext_leader_vote ctx))
              (LogIdRange_prev sending_range) entries (poll_committed p) in
            Ready (Ok (Some req), update_log_id_range s (LogIdRange_last sending_range), [])
      end
  end.

(** ** The task *)

(** [local_committed] is the committed log id of the leader, [remote_matched]
    the last log id that the target is known to have. *)
Record ReplicationProgress := mkReplicationProgress {
  local_committed_sent : option LogId;
  remote_matched : option LogId;
}.

Record ReplicationCore := mkReplicationCore {
  rc_context : ReplicationContext;
  rc_stream_state : StreamState;
  rc_next_action : option Payload;
  rc_inflight_id : option u64;
  rc_progress : ReplicationProgress;
  rc_backoff : BackoffState;
}.
Definition set_stream_state (c : ReplicationCore) (s : StreamState) : ReplicationCore :=
  mkReplicationCore (rc_context c) s (rc_next_action c) (rc_inflight_id c) (rc_progress c) (rc_backoff c).
Definition set_next_action (c : ReplicationCore) (a : option Payload) : ReplicationCore :=
  mkReplicationCore (rc_context c) (rc_stream_state c) a (rc_inflight_id c) (rc_progress c) (rc_backoff c).
Definition set_inflight_id (c : ReplicationCore) (i : option u64) : ReplicationCore :=
  mkReplicationCore (rc_context c) (rc_stream_state c) (rc_next_action c) i (rc_progress c) (rc_backoff c).
Definition set_progress (c : ReplicationCore) (g : ReplicationProgress) : ReplicationCore :=
  mkReplicationCore (rc_context c) (rc_stream_state c) (rc_next_action c) (rc_inflight_id c) g (rc_backoff c).
Definition set_backoff (c : ReplicationCore) (b : BackoffState) : ReplicationCore :=
  mkReplicationCore (rc_context c) (rc_stream_state c) (rc_next_action c) (rc_inflight_id c) (rc_progress c) b.
Definition set_remote_matched (c : ReplicationCore) matching : ReplicationCore :=
  set_progress c (mkReplicationProgress (local_committed_sent (rc_progress c)) matching).

(** [ReplicationCore::spawn], with the reset at the start of [main]. *)
Definition ReplicationCore_new (ctx : ReplicationContext) (progress : ReplicationProgress) : ReplicationCore :=
  mkReplicationCore ctx (mkStreamState None None) None None progress BackoffState_new.

(** What the task does: a notification for the runtime, a request, a sleep. *)
Inductive StreamOutput :=
| StreamOutput_Notify (n : Notification)
| StreamOutput_Send (req : AppendEntriesRequest)
| StreamOutput_Sleep (d : Duration).

(** *** A session *)
Record Session := mkSession {
  session_core : ReplicationCore;
  session_queue : list InflightAppend;
  session_fatal : option ReplicationClosed;
  session_ended : bool;
}.

Definition session_new (c : ReplicationCore) : Session := mkSession c [] None false.

(** [next_append_request]: the queue of requests in flight is given each request
    that is made; the stream is not polled after its end. *)
Definition next_append_request (s : Session) (p : Poll) : Session * list StreamOutput :=
  if session_ended s then (s, [])
  else
    let c := session_core s in
    match next_request (rc_context c) (rc_stream_state c) p with
    | Pending => (s, [])
    | Ready (res, ss, ns) =>
        let c := set_stream_state c ss in
        match res with
        | Ok (Some req) =>
            let '(delay, b) := next_delay (rc_backoff c) in
            (mkSession (set_backoff c b)
               (inflight_push (session_queue s) (poll_time p) (AppendEntriesRequest_last_log_id req))
               (session_fatal s) false,
             (StreamOutput_Notify <$> ns) ++
             match delay with Some d => [StreamOutput_Sleep d] | None => [] end ++ [StreamOutput_Send req])
        | Ok None => (mkSession c (session_queue s) (session_fatal s) true, StreamOutput_Notify <$> ns)
        | Err err => (mkSession c (session_queue s) (Some err) true, StreamOutput_Notify <$> ns)
        end
    end.

Definition send_progress_error (c : ReplicationCore) : list StreamOutput :=
  match rc_inflight_id c with
  | None => []
  | Some id => [StreamOutput_Notify (context_notify_progress (rc_context c) None (Some id))]
  end.

Definition notify_progress (c : ReplicationCore) (replication_result : ReplicationResult) :
    ReplicationCore * list StreamOutput :=
  let notification :=
    [StreamOutput_Notify (context_notify_progress (rc_context c) (Some replication_result) (rc_inflight_id c))] in
  match replication_result with
  | Ok matching =>
      (set_remote_matched c matching, match matching with None => [] | Some _ => notification end)
  | Err _ => (c, notification)
  end.

(** One response of [handle_response_stream]; the flag tells whether the stream
    is read on. *)
Definition handle_response (s : Session) (rpc_res : result StreamAppendResult RPCError) :
    Session * list StreamOutput * bool :=
  let c := session_core s in
  let c := set_backoff c (observe (rc_backoff c) rpc_res) in
  let queued q c := mkSession c q (session_fatal s) (session_ended s) in
  match rpc_res with
  | Err _ => (queued (session_queue s) c, send_progress_error c, false)
  | Ok (Ok matching) =>
      let '(last_acked_sending_time, q) := drain_acked (session_queue s) matching in
      let hb := match last_acked_sending_time with
                | Some t => [StreamOutput_Notify (notify_heartbeat_progress (rc_context c) t)]
                | None => []
                end in
      let '(c, os) := notify_progress (set_remote_matched c matching) (Ok matching) in
      (queued q c, hb ++ os, true)
  | Ok (Err (StreamAppendError_Conflict conflict_log_id)) =>
      let '(c, os) := notify_progress c (Err conflict_log_id) in
      (queued (session_queue s) c, os, false)
  | Ok (Err (StreamAppendError_HigherVote higher)) =>
      (queued (session_queue s) c, [StreamOutput_Notify (notify_higher_vote (rc_context c) higher)], false)
  end.

Inductive SessionEvent :=
| SessionEvent_Poll (p : Poll)
| SessionEvent_Response (r : result StreamAppendResult RPCError)
| SessionEvent_End
| SessionEvent_Cancel.

(** The transport polls requests and [handle_response_stream] reads responses:
    [Ok tt] when the response stream has come to its end; [Pending] after the
    last event. *)
Fixpoint session_loop (s : Session) (evs : list SessionEvent) :
    Session * list StreamOutput * Async (result unit unit) :=
  match evs with
  | [] => (s, [], Pending)
  | SessionEvent_Poll p :: evs =>
      let '(s, os) := next_append_request s p in
      let '(s, os', r) := session_loop s evs in
      (s, os ++ os', r)
  | SessionEvent_Response rpc_res :: evs =>
      let '(s, os, go) := handle_response s rpc_res in
      if (go : bool) then
        let '(s, os', r) := session_loop s evs in
        (s, os ++ os', r)
      else (s, os, Ready (Err tt))
  | SessionEvent_End :: _ => (s, [], Ready (Ok tt))
  | SessionEvent_Cancel :: _ => (s, [], Ready (Err tt))
  end.

(** The polls while the stream is established. *)
Fixpoint poll_all (s : Session) (ps : list Poll) : Session * list StreamOutput :=
  match ps with
  | [] => (s, [])
  | p :: ps =>
      let '(s, os) := next_append_request s p in
      let '(s, os') := poll_all s ps in
      (s, os ++ os')
  end.

(** What the transport does in a session: the polls while [stream_append] is
    called, its result, and the events behind it. *)
Record SessionInput := mkSessionInput {
  input_polls : list Poll;
  input_open : result unit RPCError;
  input_events : list SessionEvent;
}.

(** [take_stream_fatal_error] and the results of [run_stream_session]. *)
Definition session_result (s : Session) (consumed : bool) : result bool ReplicationClosed :=
  match session_fatal s with
  | Some err => Err err
  | None => Ok consumed
  end.

Definition run_stream_session (c : ReplicationCore) (payload : Payload) (i : SessionInput) :
    ReplicationCore * list StreamOutput * Async (result bool ReplicationClosed) :=
  let c := set_stream_state c (mkStreamState (Some payload) (rc_inflight_id c)) in
  let '(s, os) := poll_all (session_new c) (input_polls i) in
  match session_fatal s with
  | Some err => (session_core s, os, Ready (Err err))
  | None =>
      match input_open i with
      | Err rpc_err =>
          let c := session_core s in
          let c := set_backoff c (on_error (rc_backoff c) (backoff_rank rpc_err)) in
          (c, os ++ send_progress_error c, Ready (Ok false))
      | Ok _ =>
          let '(s, os', res) := session_loop s (input_events i) in
          (session_core s, os ++ os',
           match res with
           | Pending => Pending
           | Ready r => Ready (session_result s match r with Ok _ => true | Err _ => false end)
           end)
      end
  end.

(** *** The main loop *)

Inductive DrainEvent :=
| DrainEvent_Replicate (data : Replicate)
| DrainEvent_Committed (committed : option LogId)
| DrainEvent_Closed.

(** [drain_events] *)
Definition drain_events (c : ReplicationCore) (ev : DrainEvent) : result ReplicationCore ReplicationClosed :=
  match ev with
  | DrainEvent_Replicate data =>
      Ok (set_next_action (set_inflight_id c (Some (Replicate_inflight_id data))) (Some (Replicate_payload data)))
  | DrainEvent_Committed committed =>
      let m := remote_matched (rc_progress c) in
      let c := set_progress c (mkReplicationProgress committed m) in
      Ok (set_next_action (set_inflight_id c None) (Some (Payload_LogIdRange (mkLogIdRange m m))))
  | DrainEvent_Closed => Err ReplicationClosed_channel
  end.

(** What one iteration reads: whether the task is cancelled, the accepted I/O,
    a new backoff, the command that is published, and the event that a wait
    ends with. *)
Record Round := mkRound {
  round_canceled : bool;
  round_accepted : IOId;
  round_backoff : Backoff;
  round_replicate : Replicate;
  round_event : DrainEvent;
  round_session : SessionInput;
}.

Definition ensure_still_leading (c : ReplicationCore) (i : Round) : result unit ReplicationClosed :=
  if round_canceled i then Err ReplicationClosed_canceled
  else if leader_changed (rc_context c) (round_accepted i) then Err ReplicationClosed_leader_changed
  else Ok tt.

Definition select_next_payload (c : ReplicationCore) (i : Round) :
    outcome (result (Payload * ReplicationCore) ReplicationClosed) :=
  let r :=
    match rc_next_action c with
    | None => drain_events c (round_event i)
    | Some _ =>
        let new_data := round_replicate i in
        if decide (rc_inflight_id c ≠ Some (Replicate_inflight_id new_data)) then
          Ok (set_next_action (set_inflight_id c (Some (Replicate_inflight_id new_data)))
                (Some (Replicate_payload new_data)))
        else Ok c
    end in
  match r with
  | Err err => Ret (Err err)
  | Ok c => payload ← unwrap (rc_next_action c); Ret (Ok (payload, set_next_action c None))
  end.

(** One iteration of [main]. *)
Definition main_iteration (c : ReplicationCore) (i : Round) :
    outcome (ReplicationCore * list StreamOutput * Async (result unit ReplicationClosed)) :=
  match ensure_still_leading c i with
  | Err err => Ret (c, [], Ready (Err err))
  | Ok _ =>
      let c := set_backoff c (reconcile (rc_backoff c) (round_backoff i)) in
      r ← select_next_payload c i;
      match r with
      | Err err => Ret (c, [], Ready (Err err))
      | Ok (payload, c) =>
          let '(c, os, res) := run_stream_session c payload (round_session i) in
          match res with
          | Pending => Ret (c, os, Pending)
          | Ready (Err err) => Ret (c, os, Ready (Err err))
          | Ready (Ok false) => Ret (c, os, Ready (Ok tt))
          | Ready (Ok true) =>
              let payload := Payload_update_matching payload (remote_matched (rc_progress c)) in
              let c :=
                if decide (Payload_len payload ≠ Some 0%N) then set_next_action c (Some payload)
                else set_inflight_id c None in
              Ret (c, os, Ready (Ok tt))
          end
      end
  end.

Fixpoint replication_main (c : ReplicationCore) (rounds : list Round) :
    outcome (ReplicationCore * list StreamOutput * Async ReplicationClosed) :=
  match rounds with
  | [] => Ret (c, [], Pending)
  | i :: rounds =>
      '(c, os, r) ← main_iteration c i;
      match r with
      | Pending => Ret (c, os, Pending)
      | Ready (Err err) => Ret (c, os, Ready err)
      | Ready (Ok _) =>
          '(c, os', r) ← replication_main c rounds;
          Ret (c, os ++ os', r)
      end
  end.

(** ** Snapshots

    [replication/snapshot_transmitter.rs]: the task that sends a snapshot to the
    target until it is received.  The errors of a transport are those of
    [errors/streaming_error.rs], with its RPC errors in one constructor. *)
Inductive SendError :=
| SendError_Closed
| SendError_StorageError (e : Storage.StorageError IoError)
| SendError_RPC (e : RPCError).

(** [errors/replication_error.rs] *)
Inductive ReplicationError :=
| ReplicationError_HigherVote (higher sender_vote : Vote)
| ReplicationError_Closed
| ReplicationError_StorageError (e : Storage.StorageError IoError)
| ReplicationError_RPCError (e : RPCError).

Definition ReplicationError_from (e : SendError) : ReplicationError :=
  match e with
  | SendError_Closed => ReplicationError_Closed
  | SendError_StorageError e => ReplicationError_StorageError e
  | SendError_RPC e => ReplicationError_RPCError e
  end.

(** One attempt: the snapshot the reader returns, the time before it is sent,
    the result of the transport, the delays of a new backoff, and whether the
    task is cancelled in the sleep behind it. *)
Record Attempt := mkAttempt {
  attempt_snapshot : option (option Snapshot);
  attempt_start : Instant;
  attempt_result : result SnapshotResponse SendError;
  attempt_backoff : Backoff;
  attempt_canceled : bool;
}.

Definition send_snapshot (ctx : ReplicationContext) (inflight_id : u64) (snapshot : Snapshot) (a : Attempt) :
    result (list StreamOutput) ReplicationError :=
  let sender_vote := CommittedVote_into_vote (ReplicationContext_leader_vote ctx) in
  match attempt_result a with
  | Err e => Err (ReplicationError_from e)
  | Ok resp =>
      if pgtb (SnapshotResponse_vote resp) sender_vote then
        Err (ReplicationError_HigherVote (SnapshotResponse_vote resp) sender_vote)
      else
        Ok [StreamOutput_Notify (notify_heartbeat_progress ctx (attempt_start a));
            StreamOutput_Notify (context_notify_progress ctx
              (Some (Ok (SnapshotMeta_last_log_id (Snapshot_meta snapshot)))) (Some inflight_id))]
  end.

Definition read_and_send_snapshot (ctx : ReplicationContext) (inflight_id : u64) (a : Attempt) :
    result (list StreamOutput) ReplicationError :=
  match attempt_snapshot a with
  | None => Err ReplicationError_Closed
  | Some None =>
      Err (ReplicationError_StorageError (StorageError_read_snapshot None (inr ErrorMessage_snapshot_not_found)))
  | Some (Some snapshot) => send_snapshot ctx inflight_id snapshot a
  end.

(** [stream_snapshot]: the outputs, and whether the task has ended; it does not
    end as long as attempts fail with an RPC error. *)
Fixpoint stream_snapshot (ctx : ReplicationContext) (inflight_id : u64) (backoff : option Backoff)
    (attempts : list Attempt) : list StreamOutput * bool :=
  match attempts with
  | [] => ([], false)
  | a :: attempts =>
      match read_and_send_snapshot ctx inflight_id a with
      | Ok os => (os, true)
      | Err ReplicationError_Closed => ([], true)
      | Err (ReplicationError_HigherVote higher _) =>
          ([StreamOutput_Notify (notify_higher_vote ctx higher)], true)
      | Err (ReplicationError_StorageError e) => ([StreamOutput_Notify (notify_storage_error e)], true)
      | Err (ReplicationError_RPCError e) =>
          let backoff :=
            match e with
            | RPCError_Unreachable _ =>
                match backoff with Some b => Some b | None => Some (attempt_backoff a) end
            | _ => None
            end in
          match backoff with
          | None => stream_snapshot ctx inflight_id None attempts
          | Some b =>
              let '(d, b) := Backoff_next b in
              let sleep := StreamOutput_Sleep (default EXHAUSTED_BACKOFF_DELAY d) in
              if attempt_canceled a then ([sleep], true)
              else
                let '(os, ended) := stream_snapshot ctx inflight_id (Some b) attempts in
                (sleep :: os, ended)
          end
      end
  end.
End stream.

Arguments Ready {A} a.
Arguments Pending {A}.
