(* ===== verification/ReplSafety.v ===== *)
(** * Properties of the replication streams

    What the task of [ReplStream.v] sends, against a log in memory and whatever the
    transport does in a session: the requests are in order, a range is sent
    completely, and the two ways in which a session can go wrong. *)

From S2P Require Import Prelude Vote LogId LogIdList Quorum Membership VecProgress IOState.
From S2P Require Import MembershipState Entry RaftState Config ProgressEntry Proposer Command.
From S2P Require Import Engine Replication Following LeaderHandler VoteHandler EngineImpl.
From S2P Require Import VoteSafety Cluster ReadQueue CoreHelpers Wire Core Storage Startup ReplStream.

(** ** Backoff *)

(** Delays are only taken while the rank of the errors is above the
    threshold. *)
Definition backoff_wf (s : BackoffState) : Prop :=
  is_Some (BackoffState_inner s) → (BACKOFF_RANK_THRESHOLD < BackoffState_rank s)%N.

Inductive BackoffOp :=
| BackoffOp_observe (r : result unit RPCError)
| BackoffOp_reconcile (b : Backoff)
| BackoffOp_next_delay.

Definition backoff_op (s : BackoffState) (op : BackoffOp) : BackoffState :=
  match op with
  | BackoffOp_observe r => observe s r
  | BackoffOp_reconcile b => reconcile s b
  | BackoffOp_next_delay => (next_delay s).2
  end.

(** The weight of the errors behind the last success. *)
Definition error_weight (ops : list BackoffOp) : N :=
  foldl (λ n op, match op with
                 | BackoffOp_observe (Err e) => n + backoff_rank e
                 | BackoffOp_observe (Ok _) => 0
                 | _ => n
                 end)%N 0%N ops.
Definition total_weight (ops : list BackoffOp) : N :=
  foldr (λ op n, match op with BackoffOp_observe (Err e) => backoff_rank e + n | _ => n end)%N 0%N ops.

Lemma backoff_op_wf s op : backoff_wf s →
  (∀ e, op = BackoffOp_observe (Err e) → BackoffState_rank s + backoff_rank e < u64_modulus)%N →
  backoff_wf (backoff_op s op) ∧
  BackoffState_rank (backoff_op s op) =
    match op with
    | BackoffOp_observe (Err e) => (BackoffState_rank s + backoff_rank e)%N
    | BackoffOp_observe (Ok _) => 0%N
    | _ => BackoffState_rank s
    end.
Proof.
  intros Hwf Hw. unfold backoff_wf in *. destruct op as [[u|e]|b|]; cbn.
  - unfold on_success. case_decide as H0; [split; [done|exact H0]|]. split; [by intros [? [=]]|done].
  - specialize (Hw e eq_refl). unfold on_error. cbn. rewrite u64_add_small by done. split; [|done].
    intros Hi. specialize (Hwf Hi). lia.
  - split; [|done]. destruct (_ <? _) eqn:E; [|by intros [? [=]]].
    rewrite ltb_true, N_ord_lt in E. by intros _.
  - unfold next_delay. destruct (BackoffState_inner s) as [b|] eqn:Ei; [|split; [intros Hi; apply Hwf; cbn in Hi; by rewrite Ei in Hi|done]].
    split; [|done]. intros _. apply Hwf. by eexists.
Qed.

Lemma backoff_ops_wf ops s n : backoff_wf s → BackoffState_rank s = n → (n + total_weight ops < u64_modulus)%N →
  let s' := foldl backoff_op s ops in
  backoff_wf s' ∧ BackoffState_rank s' = foldl (λ n op, match op with
      | BackoffOp_observe (Err e) => n + backoff_rank e
      | BackoffOp_observe (Ok _) => 0
      | _ => n
      end)%N n ops.
Proof.
  revert s n. induction ops as [|op ops IH]; intros s n Hwf Hn Hw; [done|]. cbn [foldl total_weight foldr] in *.
  destruct (backoff_op_wf s op Hwf) as [Hwf' Hr].
  { intros e ->. fold (total_weight ops) in Hw. lia. }
  apply IH; [done| |].
  - rewrite Hr. destruct op as [[]| |]; by rewrite ?Hn.
  - fold (total_weight ops) in Hw. destruct op as [[]| |]; lia.
Qed.

(** A request is delayed only when the errors since the last success weigh more
    than the threshold: whatever was observed before, a success ends the
    delays at once. *)
Lemma delayed_only_by_errors ops :
  (total_weight ops < u64_modulus)%N →
  let s := foldl backoff_op BackoffState_new ops in
  (next_delay s).1 ≠ None → (BACKOFF_RANK_THRESHOLD < error_weight ops)%N.
Proof.
  intros Hw. cbn zeta. destruct (backoff_ops_wf ops BackoffState_new 0%N) as [Hwf Hr]; [by intros [? [=]]|done|done|].
  unfold error_weight. rewrite <- Hr. unfold next_delay, backoff_wf in *.
  destruct (BackoffState_inner _); [|done]. intros _. apply Hwf. by eexists.
Qed.

Section ranges.
Context {C : RaftTypeConfig} `{!StoreEnv} {St : Type} `{!RaftStorage St} `{!RaftStorageLaws St}.
Context `{!RaftLeaderIdLaws C}.
Context (report : Storage.StorageError IoError → Core.StorageError).
(** The entry at the index [i] of the leader was proposed by [leader i]; the
    indexes are below [bound]. *)
Context (leader : u64 → CommittedLeaderId) (bound : u64).
Context (mono : ∀ i j, (i ≤ j)%N → (j < bound)%N → leader i ≼ leader j).
Context (ctx : ReplicationContext).
Context (width : (bound + max_payload_entries (ReplicationContext_config ctx) < u64_modulus)%N).
Context (positive : (0 < max_payload_entries (ReplicationContext_config ctx))%N).
#[local] Abbreviation log_from := (log_from leader).
#[local] Abbreviation upto := (upto leader).

(** ** Ranges of a log *)

Lemma log_from_take p es n : log_from p es → log_from p (take n es).
Proof.
  revert p n. induction es as [|e es IH]; intros p [|n]; try done. intros [He Hf]. split; [done|by apply IH].
Qed.

Lemma log_from_app p es es' : log_from p (es ++ es') ↔ log_from p es ∧ log_from (p + N.of_nat (length es)) es'.
Proof.
  revert p. induction es as [|e es IH]; intros p; cbn [app length Startup.log_from].
  - rewrite N.add_0_r. tauto.
  - rewrite IH. replace (p + 1 + N.of_nat (length es))%N with (p + N.of_nat (S (length es)))%N by lia. tauto.
Qed.

Lemma entries_in_cons_skip (a b : u64) e es : (Entry_index e < a)%N → entries_in a b (e :: es) = entries_in a b es.
Proof. intros. unfold entries_in. rewrite filter_cons_False; [done|lia]. Qed.

Lemma log_from_entries_in lo es (a b : u64) : log_from lo es → (lo ≤ a ≤ b)%N → (b ≤ lo + N.of_nat (length es))%N →
  log_from a (entries_in a b es) ∧ N.of_nat (length (entries_in a b es)) = (b - a)%N.
Proof.
  revert lo a. induction es as [|e es IH]; intros lo a Hf Hab Hb; cbn [length] in Hb.
  { rewrite entries_in_nil by lia. cbn. split; [done|lia]. }
  destruct Hf as [He Hf]. assert (Entry_index e = lo) as Hi by (unfold Entry_index; by rewrite He).
  destruct (decide (a = b)) as [->|]; [rewrite entries_in_empty; cbn; split; [done|lia]|].
  destruct (decide (a = lo)) as [->|].
  - assert (entries_in lo b (e :: es) = e :: entries_in (lo + 1) b es) as ->.
    { unfold entries_in. rewrite filter_cons_True by lia. f_equal. apply filter_ext_in. intros x Hx.
      destruct (log_from_elem _ _ _ _ Hf Hx). lia. }
    destruct (IH (lo + 1)%N (lo + 1)%N Hf) as [IHf IHl]; [lia|lia|]. cbn [length Startup.log_from].
    split; [done|lia].
  - rewrite entries_in_cons_skip by lia. destruct (IH (lo + 1)%N a Hf) as [IHf IHl]; [lia|lia|]. done.
Qed.

(** ** One request *)

(** The store of a poll holds the log of the leader from [lo] to before [hi],
    and what is submitted is stored. *)
Definition poll_at (lo hi : u64) (p : Poll) : Prop :=
  log_from lo (sv_log (view (poll_store p))) ∧
  (lo + N.of_nat (length (sv_log (view (poll_store p)))) = hi)%N ∧
  Forall (λ w, ∃ n, (n ≤ hi)%N ∧ w.1 = upto n) (poll_waits p).
Definition poll_ok (lo m : u64) (p : Poll) : Prop :=
  ∃ lo' hi, (lo' ≤ lo)%N ∧ (m ≤ hi ≤ bound)%N ∧ poll_at lo' hi p.

(** The stream has sent what is before [k]; a range ends before [m]. *)
Definition stream_at (k m : u64) (s : StreamState) : Prop :=
  match StreamState_payload s with
  | None => True
  | Some (Payload_LogIdRange r) => r = mkLogIdRange (upto k) (upto m) ∧ (k ≤ m)%N
  | Some (Payload_LogsSince prev) => prev = upto k
  end.

Lemma non_reversed_upto k n : (k ≤ bound)%N → (n ≤ bound)%N →
  non_reversed_log_id_range (upto k) (upto n) = mkLogIdRange (upto k) (upto (N.max k n)).
Proof.
  intros Hk Hn. unfold non_reversed_log_id_range. rewrite (upto_ltb leader bound mono) by done.
  destruct (n <? k) eqn:E.
  - rewrite ltb_true, N_ord_lt in E. by rewrite N.max_l by lia.
  - rewrite ltb_false, N_ord_le in E. by rewrite N.max_r by lia.
Qed.

Lemma wait_log_id_range_upto hi k id waits r : (k ≤ bound)%N → (hi ≤ bound)%N →
  Forall (λ w, ∃ n, (n ≤ hi)%N ∧ w.1 = upto n) waits →
  wait_log_id_range (upto k) id waits = Ready (Some r) →
  ∃ n, r = mkLogIdRange (upto k) (upto n) ∧ (k = n ∨ k ≤ n ≤ hi)%N.
Proof.
  intros Hk Hhi Hw. induction Hw as [|[l ev] waits (n & Hn & Hl) Hw IH]; [done|]. cbn in Hl. subst l. cbn.
  rewrite non_reversed_upto by lia.
  assert (∀ r', Ready (Some (mkLogIdRange (upto k) (upto (N.max k n)))) = Ready (Some r') →
    ∃ n', r' = mkLogIdRange (upto k) (upto n') ∧ (k = n' ∨ k ≤ n' ≤ hi)%N) as Hmax.
  { intros r' [= <-]. exists (N.max k n). split; [done|]. lia. }
  destruct (_ <? _); [by apply Hmax|]. destruct ev; try done; [|by apply Hmax].
  case_decide; [done|by apply IH].
Qed.

Lemma get_log_id_range_upto lo hi m k s p r : poll_at lo hi p → (m ≤ hi ≤ bound)%N →
  stream_at k m s → (k ≤ bound)%N → get_log_id_range s p = Ready (Some r) →
  ∃ n, r = mkLogIdRange (upto k) (upto n) ∧ (k = n ∨ k ≤ n ≤ hi)%N ∧
    (∀ r', StreamState_payload s = Some (Payload_LogIdRange r') → n = m).
Proof.
  intros (Hf & Hlen & Hw) Hhi Hs Hk. unfold get_log_id_range, stream_at in *.
  destruct (StreamState_payload s) as [[r'|prev]|]; [| |done].
  - destruct Hs as [-> Hkm]. intros [= <-]. exists m. split; [done|]. split; [lia|done].
  - subst prev. intros (n & -> & Hn)%(wait_log_id_range_upto hi); [|done|lia|done].
    exists n. split; [done|]. split; [lia|done].
Qed.

Lemma read_log_entries_upto lo hi k n p entries rng : poll_at lo hi p → (lo ≤ k ≤ bound)%N →
  (k = n ∨ k ≤ n ≤ hi)%N → (hi ≤ bound)%N →
  read_log_entries (max_payload_entries (ReplicationContext_config ctx)) (mkLogIdRange (upto k) (upto n))
    (poll_store p) = Ok (entries, rng) →
  let k' := (k + N.of_nat (length entries))%N in
  rng = mkLogIdRange (upto k) (upto k') ∧ log_from k entries ∧ (k' ≤ n)%N ∧ (k < n → k < k')%N ∧
    (N.of_nat (length entries) ≤ max_payload_entries (ReplicationContext_config ctx))%N.
Proof.
  intros (Hf & Hlen & _) Hk Hn Hhi. unfold read_log_entries. cbn [LogIdRange_prev LogIdRange_last].
  rewrite !next_index_upto by lia. destruct (n <=? k) eqn:E.
  { rewrite leb_true, N_ord_le in E. intros [= <- <-]. cbn. rewrite N.add_0_r. repeat split; lia. }
  rewrite leb_false, N_ord_lt in E. rewrite u64_add_small by lia. set (e := N.min n _).
  destruct (limited_law k e (poll_store p)) as [c ->]; [lia|]. cbn [sto_read_logs map_io_err].
  destruct (log_from_entries_in lo (sv_log (view (poll_store p))) k e Hf) as [He Hl]; [lia|lia|].
  set (es := take (S c) _). assert (log_from k es) as Hes by by apply log_from_take.
  assert (0 < length es ∧ (N.of_nat (length es) ≤ e - k)%N) as [Hpos Hle].
  { unfold es. rewrite length_take. lia. }
  assert (es ≠ []) as Hne by (intros Hnil; rewrite Hnil in Hpos; cbn in Hpos; lia).
  pose proof (log_from_last leader k es Hes Hne) as Hlast.
  destruct (last es) as [x|] eqn:El; [|by apply last_None in El]. cbn in Hlast. rewrite Hlast.
  intros [= <- <-]. cbn zeta. split; [done|]. split; [done|]. lia.
Qed.

Lemma update_log_id_range_at k k' m s : stream_at k m s → (k ≤ k')%N → (m ≤ bound)%N → (k' ≤ bound)%N →
  (∀ r, StreamState_payload s = Some (Payload_LogIdRange r) → k' ≤ m)%N →
  stream_at k' m (update_log_id_range s (upto k')) ∧
  (∀ r, StreamState_payload s = Some (Payload_LogIdRange r) →
    StreamState_payload (update_log_id_range s (upto k')) =
      if decide (k' = m) then None else Some (Payload_LogIdRange (mkLogIdRange (upto k') (upto m)))).
Proof.
  intros Hs Hkk Hm Hk' Hr. unfold update_log_id_range, stream_at in *.
  destruct (StreamState_payload s) as [[r|prev]|] eqn:Es; [| |by rewrite Es].
  - destruct Hs as [-> Hkm]. specialize (Hr _ eq_refl). cbn [Payload_update_matching Payload_len LogIdRange_last StreamState_payload].
    unfold LogIdRange_len. cbn [LogIdRange_last LogIdRange_prev]. rewrite !next_index_upto by lia.
    rewrite u64_sub_small by (unfold in_u64; lia).
    assert ((if decide (Some (m - k')%N = Some 0%N) then None
      else Some (Payload_LogIdRange (mkLogIdRange (upto k') (upto m)))) =
      if decide (k' = m) then None else Some (Payload_LogIdRange (mkLogIdRange (upto k') (upto m)))) as ->.
    { destruct (decide (k' = m)) as [->|]; [by rewrite decide_True by (f_equal; lia)|].
      rewrite decide_False; [done|]. intros [=]. lia. }
    split; [|done]. destruct (decide (k' = m)); [done|]. split; [done|lia].
  - cbn. split; [done|]. intros r [=].
Qed.

Lemma next_request_follows lo m k s p req s' ns : poll_ok lo m p → stream_at k m s → (lo ≤ k ≤ bound)%N →
  next_request report ctx s p = Ready (Ok (Some req), s', ns) →
  let k' := (k + N.of_nat (length (AppendEntriesRequest_entries req)))%N in
  AppendEntriesRequest_vote req = CommittedVote_into_vote (ReplicationContext_leader_vote ctx) ∧
  AppendEntriesRequest_prev_log_id req = upto k ∧ log_from k (AppendEntriesRequest_entries req) ∧
  (N.of_nat (length (AppendEntriesRequest_entries req)) ≤ max_payload_entries (ReplicationContext_config ctx))%N ∧
  AppendEntriesRequest_leader_commit req = poll_committed p ∧
  stream_at k' m s' ∧ (k' ≤ bound)%N ∧
  (∀ r, StreamState_payload s = Some (Payload_LogIdRange r) → (k < m → k < k')%N ∧
    StreamState_payload s' =
      if decide (k' = m) then None else Some (Payload_LogIdRange (mkLogIdRange (upto k') (upto m)))).
Proof.
  intros (lo' & hi & Hlo & Hhi & Hp) Hs Hk. unfold next_request.
  destruct (get_log_id_range s p) as [[r|]|] eqn:Eg; [|done|done].
  destruct (get_log_id_range_upto _ _ _ _ _ _ _ Hp Hhi Hs (proj2 Hk) Eg) as (n & -> & Hn & Hm).
  destruct (read_log_entries _ _ _) as [[entries rng]|] eqn:Er; [|done].
  destruct (leader_changed _ _); [done|]. intros [= <- <- <-].
  destruct (read_log_entries_upto lo' hi k n p entries rng Hp ltac:(lia) Hn ltac:(lia) Er) as (-> & Hf & Hle & Hlt & Hmax).
  cbn [AppendEntriesRequest_vote AppendEntriesRequest_prev_log_id AppendEntriesRequest_entries
    AppendEntriesRequest_leader_commit LogIdRange_prev LogIdRange_last]. cbn zeta.
  set (k' := (k + N.of_nat (length entries))%N) in *.
  destruct (update_log_id_range_at k k' m s Hs) as [Hs' Hr]; [lia|lia|lia|intros r' Hr; specialize (Hm r' Hr); lia|].
  split; [done|]. split; [done|]. split; [done|]. split; [done|]. split; [done|]. split; [done|]. split; [lia|].
  intros r' Hr'. specialize (Hm r' Hr'). split; [lia|by apply (Hr r')].
Qed.

(** ** A session *)

Definition sends (os : list StreamOutput) : list AppendEntriesRequest :=
  omap (λ o, match o with StreamOutput_Send req => Some req | _ => None end) os.

Lemma sends_app os os' : sends (os ++ os') = sends os ++ sends os'.
Proof. apply omap_app. Qed.
Lemma sends_notify ns : sends (StreamOutput_Notify <$> ns) = [].
Proof. by induction ns. Qed.

(** The requests of a leader from [k] on: each begins where the last has ended
    and carries the next entries of the log. *)
Fixpoint requests_follow (k : u64) (reqs : list AppendEntriesRequest) : Prop :=
  match reqs with
  | [] => True
  | req :: reqs =>
      AppendEntriesRequest_vote req = CommittedVote_into_vote (ReplicationContext_leader_vote ctx) ∧
      AppendEntriesRequest_prev_log_id req = upto k ∧ log_from k (AppendEntriesRequest_entries req) ∧
      (N.of_nat (length (AppendEntriesRequest_entries req)) ≤ max_payload_entries (ReplicationContext_config ctx))%N ∧
      requests_follow (k + N.of_nat (length (AppendEntriesRequest_entries req))) reqs
  end.

(** The number of entries that are sent. *)
Definition sent_entries (reqs : list AppendEntriesRequest) : u64 :=
  N.of_nat (length (reqs ≫= AppendEntriesRequest_entries)).

Lemma requests_follow_app k reqs reqs' :
  requests_follow k (reqs ++ reqs') ↔ requests_follow k reqs ∧ requests_follow (k + sent_entries reqs) reqs'.
Proof.
  unfold sent_entries. revert k. induction reqs as [|req reqs IH]; intros k; cbn [app requests_follow mbind list_bind length].
  - rewrite N.add_0_r. tauto.
  - rewrite IH, length_app. replace (k + N.of_nat (length (AppendEntriesRequest_entries req)) +
      N.of_nat (length (reqs ≫= AppendEntriesRequest_entries)))%N with
      (k + N.of_nat (length (AppendEntriesRequest_entries req) + length (reqs ≫= AppendEntriesRequest_entries)))%N by lia.
    tauto.
Qed.

(** What a session keeps: the context, and a stream that is at [k]. *)
Definition session_at (k m : u64) (s : Session) : Prop :=
  rc_context (session_core s) = ctx ∧ stream_at k m (rc_stream_state (session_core s)).

Lemma next_request_stops s p res s' ns : next_request report ctx s p = Ready (res, s', ns) →
  (∀ req, res ≠ Ok (Some req)) → s' = s.
Proof.
  unfold next_request. destruct (get_log_id_range s p) as [[r|]|]; [|by intros [= <- <- <-]|done].
  destruct (read_log_entries _ _ _) as [[entries rng]|]; [|by intros [= <- <- <-]].
  destruct (leader_changed _ _); intros [= <- <- <-] Hne; [done|]. by destruct (Hne _ eq_refl).
Qed.

Lemma next_append_request_at lo m k s p s' os : poll_ok lo m p → session_at k m s → (lo ≤ k ≤ bound)%N →
  next_append_request report s p = (s', os) →
  requests_follow k (sends os) ∧ session_at (k + sent_entries (sends os)) m s' ∧ (k + sent_entries (sends os) ≤ bound)%N.
Proof.
  intros Hp [Hctx Hs] Hk.
  assert (∀ s' os, sends os = [] → session_at k m s' → requests_follow k (sends os) ∧
    session_at (k + sent_entries (sends os)) m s' ∧ (k + sent_entries (sends os) ≤ bound)%N) as Hnone.
  { intros s1 os1 -> Hs1. unfold sent_entries. cbn. rewrite N.add_0_r. split; [done|]. split; [done|lia]. }
  unfold next_append_request. destruct (session_ended s); [intros [= <- <-]; by apply Hnone|].
  rewrite Hctx. destruct (next_request report ctx _ p) as [[[res ss] ns]|] eqn:Er;
    [|intros [= <- <-]; by apply Hnone].
  destruct res as [[req|]|err].
  - destruct (next_request_follows _ _ _ _ _ _ _ _ Hp Hs Hk Er) as (Hv & Hprev & Hf & Hmax & _ & Hs' & Hb & _).
    destruct (next_delay _) as [delay b]. intros [= <- <-].
    assert (sends ((StreamOutput_Notify <$> ns) ++ match delay with Some d => [StreamOutput_Sleep d] | None => [] end
      ++ [StreamOutput_Send req]) = [req]) as ->.
    { rewrite !sends_app, sends_notify. by destruct delay. }
    unfold sent_entries. cbn [mbind list_bind]. rewrite app_nil_r. done.
  - intros [= <- <-]. apply Hnone; [apply sends_notify|].
    rewrite (next_request_stops _ _ _ _ _ Er) by done. done.
  - intros [= <- <-]. apply Hnone; [apply sends_notify|].
    rewrite (next_request_stops _ _ _ _ _ Er) by done. done.
Qed.

Lemma sends_progress_error c : sends (send_progress_error c) = [].
Proof. unfold send_progress_error. by destruct (rc_inflight_id c). Qed.

(** A response does not move the request stream. *)
Lemma handle_response_stream s r s' os go : handle_response s r = (s', os, go) →
  sends os = [] ∧ rc_stream_state (session_core s') = rc_stream_state (session_core s) ∧
  rc_context (session_core s') = rc_context (session_core s).
Proof.
  unfold handle_response. destruct r as [[matching|[conflict|higher]]|err].
  - destruct (drain_acked _ _) as [t q]. intros [= <- <- <-]. destruct t, matching; done.
  - intros [= <- <- <-]. done.
  - intros [= <- <- <-]. done.
  - intros [= <- <- <-]. by rewrite sends_progress_error.
Qed.

Definition event_ok (lo m : u64) (ev : SessionEvent) : Prop :=
  match ev with SessionEvent_Poll p => poll_ok lo m p | _ => True end.

Lemma session_loop_at lo m evs k s s' os r : Forall (event_ok lo m) evs → session_at k m s → (lo ≤ k ≤ bound)%N →
  session_loop report s evs = (s', os, r) → requests_follow k (sends os).
Proof.
  intros Hev. revert k s s' os r. induction Hev as [|ev evs Hev _ IH]; intros k s s' os r Hs Hk; cbn.
  { by intros [= <- <- <-]. }
  destruct ev as [p|rpc_res| |]; [| |by intros [= <- <- <-]|by intros [= <- <- <-]].
  - destruct (next_append_request report s p) as [s1 os1] eqn:E1.
    destruct (session_loop report s1 evs) as [[s2 os2] r2] eqn:E2. intros [= <- <- <-].
    destruct (next_append_request_at _ _ _ _ _ _ _ Hev Hs Hk E1) as (H1 & Hs1 & Hb1).
    rewrite sends_app. apply requests_follow_app. split; [done|]. eapply IH; [exact Hs1|lia|exact E2].
  - destruct (handle_response s rpc_res) as [[s1 os1] go] eqn:E1.
    destruct (handle_response_stream _ _ _ _ _ E1) as (H1 & Hss & Hc).
    destruct go; [|intros [= <- <- <-]; by rewrite H1].
    destruct (session_loop report s1 evs) as [[s2 os2] r2] eqn:E2. intros [= <- <- <-].
    rewrite sends_app, H1. eapply IH; [|exact Hk|exact E2]. destruct Hs as [Hctx Hs].
    split; [by rewrite Hc|by rewrite Hss].
Qed.

Lemma poll_all_at lo m ps k s s' os : Forall (poll_ok lo m) ps → session_at k m s → (lo ≤ k ≤ bound)%N →
  poll_all report s ps = (s', os) →
  requests_follow k (sends os) ∧ session_at (k + sent_entries (sends os)) m s' ∧ (k + sent_entries (sends os) ≤ bound)%N.
Proof.
  intros Hps. revert k s s' os. induction Hps as [|p ps Hp _ IH]; intros k s s' os Hs Hk; cbn.
  { intros [= <- <-]. unfold sent_entries. cbn. rewrite N.add_0_r. split; [done|]. split; [done|lia]. }
  destruct (next_append_request report s p) as [s1 os1] eqn:E1.
  destruct (poll_all report s1 ps) as [s2 os2] eqn:E2. intros [= <- <-].
  destruct (next_append_request_at _ _ _ _ _ _ _ Hp Hs Hk E1) as (H1 & Hs1 & Hb1).
  destruct (IH _ _ _ _ Hs1 ltac:(lia) E2) as (H2 & Hs2 & Hb2).
  rewrite sends_app, requests_follow_app. assert (sent_entries (sends os1 ++ sends os2) =
    sent_entries (sends os1) + sent_entries (sends os2))%N as ->.
  { unfold sent_entries. rewrite bind_app, length_app. lia. }
  rewrite N.add_assoc. done.
Qed.

(** A payload that begins behind [k]. *)
Definition payload_at (k m : u64) (payload : Payload) : Prop :=
  match payload with
  | Payload_LogIdRange r => r = mkLogIdRange (upto k) (upto m) ∧ (k ≤ m)%N
  | Payload_LogsSince prev => prev = upto k
  end.
Definition input_ok (lo m : u64) (i : SessionInput) : Prop :=
  Forall (poll_ok lo m) (input_polls i) ∧ Forall (event_ok lo m) (input_events i).

(** C34: a leader sends its log in order: whatever the transport does in a
    session (polls before or between the responses, errors, conflicts, a
    cancellation), the requests it is given begin where the payload begins, each
    begins where the last has ended and carries the next entries of the log, no
    more than the configured number, under the vote of this leader. *)
Theorem requests_in_order lo m k c payload i c' os r :
  rc_context c = ctx → payload_at k m payload → (lo ≤ k ≤ bound)%N → input_ok lo m i →
  run_stream_session report c payload i = (c', os, r) → requests_follow k (sends os).
Proof.
  intros Hctx Hp Hk [Hpolls Hevs]. unfold run_stream_session.
  set (s0 := session_new _). assert (session_at k m s0) as Hs0 by (split; [done|by destruct payload]).
  destruct (poll_all report s0 (input_polls i)) as [s1 os1] eqn:E1.
  destruct (poll_all_at _ _ _ _ _ _ _ Hpolls Hs0 Hk E1) as (H1 & Hs1 & Hb1).
  destruct (session_fatal s1); [by intros [= <- <- <-]|].
  destruct (input_open i) as [|rpc_err].
  - destruct (session_loop report s1 (input_events i)) as [[s2 os2] r2] eqn:E2. intros [= <- <- <-].
    rewrite sends_app. apply requests_follow_app. split; [done|].
    eapply session_loop_at; [exact Hevs|exact Hs1|lia|exact E2].
  - intros [= <- <- <-]. rewrite sends_app. apply requests_follow_app. split; [done|].
    by rewrite sends_progress_error.
Qed.

(** ** A range is sent completely *)

Lemma requests_follow_entries k reqs : requests_follow k reqs → log_from k (reqs ≫= AppendEntriesRequest_entries).
Proof.
  revert k. induction reqs as [|req reqs IH]; intros k; [done|]. intros (_ & _ & Hf & _ & Hr).
  cbn. apply log_from_app. split; [done|by apply IH].
Qed.

Lemma next_request_range s p k m : (k < m ≤ bound)%N →
  StreamState_payload s = Some (Payload_LogIdRange (mkLogIdRange (upto k) (upto m))) →
  leader_changed ctx (poll_accepted p) = false →
  ∃ req s', next_request report ctx s p = Ready (Ok (Some req), s', []).
Proof.
  intros Hk Hs Hl. unfold next_request, get_log_id_range. rewrite Hs, Hl. unfold read_log_entries.
  cbn [LogIdRange_prev LogIdRange_last]. rewrite !next_index_upto by lia.
  destruct (_ <=? _); [by do 2 eexists|]. rewrite u64_add_small by lia.
  set (e := N.min m _). destruct (limited_law k e (poll_store p)) as [n ->]; [lia|].
  cbn. destruct (last _); by do 2 eexists.
Qed.

(** The session is sending the range from [k] to before [m]: it has not failed,
    and the stream ends only when the range does. *)
Definition sending (k m : u64) (s : Session) : Prop :=
  rc_context (session_core s) = ctx ∧ session_fatal s = None ∧
  if decide (k = m) then StreamState_payload (rc_stream_state (session_core s)) = None
  else (k < m)%N ∧ session_ended s = false ∧
    StreamState_payload (rc_stream_state (session_core s)) =
      Some (Payload_LogIdRange (mkLogIdRange (upto k) (upto m))).

Abbreviation matched s := (remote_matched (rc_progress (session_core s))).

Lemma sending_le k m s : sending k m s → (k ≤ m)%N.
Proof. intros (_ & _ & Hs). case_decide; [lia|]. destruct Hs. lia. Qed.

Lemma poll_range lo m k s p : poll_ok lo m p → (lo ≤ k)%N → leader_changed ctx (poll_accepted p) = false →
  sending k m s →
  ∃ s' os k', next_append_request report s p = (s', os) ∧ requests_follow k (sends os) ∧
    k' = (k + sent_entries (sends os))%N ∧ (k' = m ∨ k < k')%N ∧ sending k' m s' ∧ matched s' = matched s.
Proof.
  intros Hp Hlo Hl (Hctx & Hfatal & Hs). assert (m ≤ bound)%N as Hm by (destruct Hp as (? & ? & ? & ? & ?); lia).
  unfold next_append_request. case_decide as Hkm; [subst k|destruct Hs as (Hlt & -> & Hs)].
  { assert (∀ s', rc_context (session_core s') = ctx → session_fatal s' = None → matched s' = matched s →
      StreamState_payload (rc_stream_state (session_core s')) = None →
      ∃ s2 os k', (s', []) = (s2, os) ∧ requests_follow m (sends os) ∧ k' = (m + sent_entries (sends os))%N ∧
        (k' = m ∨ m < k')%N ∧ sending k' m s2 ∧ matched s2 = matched s) as Hidle.
    { intros s' H1 H2 H3 H4. exists s', [], m. split; [done|]. split; [done|]. split; [symmetry; apply N.add_0_r|]. split; [by left|].
      split; [|done]. split; [done|]. split; [done|]. by rewrite decide_True. }
    destruct (session_ended s); [by apply Hidle|].
    unfold next_request, get_log_id_range. rewrite Hs. by apply Hidle. }
  destruct (next_request_range _ p k m (conj Hlt Hm) Hs Hl) as (req & ss & Hreq).
  assert (stream_at k m (rc_stream_state (session_core s))) as Hat by (unfold stream_at; rewrite Hs; split; [done|lia]).
  destruct (next_request_follows _ _ _ _ _ _ _ _ Hp Hat ltac:(lia) Hreq)
    as (Hv & Hprev & Hf & Hmax & _ & Hs' & _ & Hr). destruct (Hr _ Hs) as [Hlt' Hpay].
  rewrite Hctx, Hreq. destruct (next_delay _) as [delay b].
  eexists _, _, _. split; [reflexivity|]. rewrite !sends_app, sends_notify.
  assert (sends match delay with Some d => [StreamOutput_Sleep d] | None => [] end = []) as -> by by destruct delay.
  unfold sent_entries. cbn [sends omap list_omap app mbind list_bind]. rewrite app_nil_r.
  split; [done|]. split; [done|]. split; [right; lia|]. split; [|done]. split; [done|]. split; [done|].
  cbn [session_core rc_stream_state set_backoff set_stream_state session_ended]. rewrite Hpay.
  unfold stream_at in Hs'. rewrite Hpay in Hs'. destruct (decide _); [done|]. split; [destruct Hs'; lia|done].
Qed.

Lemma sent_entries_app reqs reqs' : sent_entries (reqs ++ reqs') = (sent_entries reqs + sent_entries reqs')%N.
Proof. unfold sent_entries. rewrite bind_app, length_app. lia. Qed.

(** What comes after [os], which sent the entries from [k] to before [k1]. *)
Lemma follows_then k k1 os os' : requests_follow k (sends os) → k1 = (k + sent_entries (sends os))%N →
  requests_follow k1 (sends os') →
  requests_follow k (sends (os ++ os')) ∧
  (k1 + sent_entries (sends os') = k + sent_entries (sends (os ++ os')))%N.
Proof.
  intros H1 -> H2. rewrite sends_app, requests_follow_app, sent_entries_app. split; [done|]. lia.
Qed.

Definition leads (p : Poll (St := St)) : Prop := leader_changed ctx (poll_accepted p) = false.

Lemma polls_range lo m k s ps : Forall (poll_ok lo m) ps → Forall leads ps → (lo ≤ k)%N → sending k m s →
  ∃ s' os k', poll_all report s ps = (s', os) ∧ requests_follow k (sends os) ∧
    k' = (k + sent_entries (sends os))%N ∧ (k' = m ∨ k + N.of_nat (length ps) ≤ k')%N ∧ sending k' m s' ∧
    matched s' = matched s.
Proof.
  intros Hps. revert k s. induction Hps as [|p ps Hp _ IH]; intros k s Hls Hlo Hs; cbn [poll_all length].
  { exists s, [], k. split; [done|]. split; [done|]. split; [symmetry; apply N.add_0_r|]. split; [right; lia|done]. }
  inversion_clear Hls as [|? ? Hl Hls'].
  destruct (poll_range _ _ _ _ _ Hp Hlo Hl Hs) as (s1 & os1 & k1 & -> & Hf1 & Hk1 & Hn1 & Hs1 & Hm1).
  destruct (IH k1 s1 Hls' ltac:(lia) Hs1) as (s2 & os2 & k2 & -> & Hf2 & Hk2 & Hn2 & Hs2 & Hm2).
  destruct (follows_then _ _ _ _ Hf1 Hk1 Hf2) as [Hf Hsum].
  exists s2, (os1 ++ os2), k2. split; [done|]. split; [done|]. split; [lia|]. split; [|by rewrite Hm2].
  pose proof (sending_le _ _ _ Hs2). lia.
Qed.

(** The polls of a session while responses are read, up to what ends it, and the
    log ids that the responses report to match. *)
Fixpoint live_polls (evs : list (SessionEvent (St := St))) : list Poll :=
  match evs with
  | SessionEvent_Poll p :: evs => p :: live_polls evs
  | SessionEvent_Response (Ok (Ok _)) :: evs => live_polls evs
  | _ => []
  end.
Fixpoint live_matches (evs : list (SessionEvent (St := St))) : list (option LogId) :=
  match evs with
  | SessionEvent_Poll _ :: evs => live_matches evs
  | SessionEvent_Response (Ok (Ok matching)) :: evs => matching :: live_matches evs
  | _ => []
  end.

Lemma response_range k m s res s' os go : handle_response s res = (s', os, go) → sending k m s →
  sending k m s' ∧ sends os = [] ∧
  match res with
  | Ok (Ok matching) => go = true ∧ matched s' = matching
  | _ => go = false ∧ matched s' = matched s
  end.
Proof.
  intros Hr (Hctx & Hfatal & Hs). destruct (handle_response_stream _ _ _ _ _ Hr) as (Hos & Hst & Hc).
  enough (session_fatal s' = session_fatal s ∧ session_ended s' = session_ended s ∧
    match res with
    | Ok (Ok matching) => go = true ∧ matched s' = matching
    | _ => go = false ∧ matched s' = matched s
    end) as (Hf & He & Hm).
  { split; [|done]. unfold sending. by rewrite Hc, Hst, Hf, He. }
  revert Hr. unfold handle_response. destruct res as [[matching|[conflict|higher]]|err].
  - destruct (drain_acked _ _) as [t q]. by intros [= <- <- <-].
  - by intros [= <- <- <-].
  - by intros [= <- <- <-].
  - by intros [= <- <- <-].
Qed.

Lemma loop_range lo m evs k s : Forall (poll_ok lo m) (live_polls evs) → Forall leads (live_polls evs) →
  (lo ≤ k)%N → sending k m s →
  ∃ s' os r k', session_loop report s evs = (s', os, r) ∧ requests_follow k (sends os) ∧
    k' = (k + sent_entries (sends os))%N ∧ (k' = m ∨ k + N.of_nat (length (live_polls evs)) ≤ k')%N ∧
    sending k' m s' ∧ matched s' = default (matched s) (last (live_matches evs)).
Proof.
  assert (∀ k s s' os r, sends os = [] → sending k m s' → matched s' = matched s →
    ∃ s2 os2 r2 k', (s', os, r) = (s2, os2, r2 : Async (result unit unit)) ∧ requests_follow k (sends os2) ∧
      k' = (k + sent_entries (sends os2))%N ∧ (k' = m ∨ k + N.of_nat 0 ≤ k')%N ∧ sending k' m s2 ∧
      matched s2 = matched s) as Hend.
  { intros k1 s1 s' os r Hos Hs Hm. exists s', os, r, k1. split; [done|]. rewrite Hos. split; [done|].
    split; [symmetry; apply N.add_0_r|]. split; [right; lia|done]. }
  revert k s. induction evs as [|ev evs IH]; intros k s Hps Hls Hlo Hs; cbn [session_loop]; [by apply Hend|].
  destruct ev as [p|res| |]; [| |by apply Hend|by apply Hend].
  - cbn [live_polls live_matches length] in *. inversion_clear Hps as [|? ? Hp Hps']. inversion_clear Hls as [|? ? Hl Hls'].
    destruct (poll_range _ _ _ _ _ Hp Hlo Hl Hs) as (s1 & os1 & k1 & -> & Hf1 & Hk1 & Hn1 & Hs1 & Hm1).
    destruct (IH k1 s1 Hps' Hls' ltac:(lia) Hs1) as (s2 & os2 & r & k2 & -> & Hf2 & Hk2 & Hn2 & Hs2 & Hm2).
    destruct (follows_then _ _ _ _ Hf1 Hk1 Hf2) as [Hf Hsum].
    exists s2, (os1 ++ os2), r, k2. split; [done|]. split; [done|]. split; [lia|]. split; [|by rewrite Hm2, Hm1].
    pose proof (sending_le _ _ _ Hs2). lia.
  - destruct (handle_response s res) as [[s1 os1] go] eqn:Hr.
    destruct (response_range _ _ _ _ _ _ _ Hr Hs) as (Hs1 & Hos1 & Hm1).
    destruct res as [[matching|err]|err]; destruct Hm1 as [-> Hm1]; [|by apply Hend|by apply Hend].
    destruct (IH k s1 Hps Hls Hlo Hs1) as (s2 & os2 & r & k2 & -> & Hf2 & Hk2 & Hn2 & Hs2 & Hm2).
    exists s2, (os1 ++ os2), r, k2. split; [done|]. rewrite sends_app, Hos1. cbn [app live_matches].
    split; [done|]. split; [done|]. split; [done|]. split; [done|]. rewrite Hm2, last_cons, Hm1. by destruct (last _).
Qed.

(** C35: a range of entries is sent completely: in a session whose stream is
    opened, on a log that holds the range and while this node leads, if the
    transport polls as often as there are entries, while the stream is opened
    or between the responses that it delivers, then it has been given exactly
    the entries of the range, in order, whatever the responses are and however
    the session ends; the stream has come to its end, nothing fatal is reported,
    and the target is known to match what the last response says. *)
Theorem range_replicated lo m k c i :
  let polls := input_polls i ++ live_polls (input_events i) in
  rc_context c = ctx → (lo ≤ k < m)%N → Forall (poll_ok lo m) polls → Forall leads polls →
  input_open i = Ok tt → (m - k ≤ N.of_nat (length polls))%N →
  ∃ c' os r, run_stream_session report c (Payload_LogIdRange (mkLogIdRange (upto k) (upto m))) i = (c', os, r) ∧
    log_from k (sends os ≫= AppendEntriesRequest_entries) ∧ sent_entries (sends os) = (m - k)%N ∧
    StreamState_payload (rc_stream_state c') = None ∧ (∀ e, r ≠ Ready (Err e)) ∧
    remote_matched (rc_progress c') = default (remote_matched (rc_progress c)) (last (live_matches (input_events i))).
Proof.
  intros polls Hctx Hk [Hps1 Hps2]%Forall_app [Hls1 Hls2]%Forall_app Hopen Hn.
  unfold polls in Hn. rewrite length_app in Hn. unfold run_stream_session. set (s0 := session_new _).
  assert (sending k m s0) as Hs0 by (split; [done|]; split; [done|]; rewrite decide_False by lia; split; [lia|done]).
  destruct (polls_range lo m k s0 _ Hps1 Hls1 ltac:(lia) Hs0) as (s1 & os1 & k1 & -> & Hf1 & Hk1 & Hn1 & Hs1 & Hm1).
  rewrite (proj1 (proj2 Hs1)), Hopen.
  destruct (loop_range lo m (input_events i) k1 s1 Hps2 Hls2 ltac:(lia) Hs1)
    as (s2 & os2 & r & k2 & -> & Hf2 & Hk2 & Hn2 & Hs2 & Hm2).
  destruct (follows_then _ _ _ _ Hf1 Hk1 Hf2) as [Hf Hsum]. pose proof (sending_le _ _ _ Hs2) as Hle.
  assert (k2 = m) as -> by lia. destruct Hs2 as (_ & Hfatal & Hs2). rewrite decide_True in Hs2 by done.
  eexists _, _, _. split; [reflexivity|]. split; [by apply requests_follow_entries|]. split; [lia|].
  split; [done|]. split; [|by rewrite Hm2, Hm1]. intros e. unfold session_result. rewrite Hfatal. by destruct r.
Qed.
End ranges.

(** ** Acknowledged requests *)

Section acks.
Context {C : RaftTypeConfig} `{!RaftLeaderIdLaws C}.

(** The requests at the front of the queue that are at or below the matching
    log id are removed, and the time is that of the last of them. *)
Lemma drain_acked_spec (q : list InflightAppend) matching :
  ∃ acked rest, q = acked ++ rest ∧
    Forall (λ a, InflightAppend_last_log_id a ≼ matching) acked ∧
    (∀ a, head rest = Some a → matching ≺ InflightAppend_last_log_id a) ∧
    drain_acked q matching = (InflightAppend_sending_time <$> last acked, rest).
Proof.
  unfold drain_acked.
  enough (∀ t, ∃ acked rest, q = acked ++ rest ∧
    Forall (λ a, InflightAppend_last_log_id a ≼ matching) acked ∧
    (∀ a, head rest = Some a → matching ≺ InflightAppend_last_log_id a) ∧
    drain_acked_loop q matching t =
      (match last acked with Some a => Some (InflightAppend_sending_time a) | None => t end, rest)) as H.
  { destruct (H None) as (acked & rest & ? & ? & ? & ->). exists acked, rest. by destruct (last acked). }
  induction q as [|a q IH]; intros t; [by exists [], []|]. cbn.
  destruct (_ <=? matching) eqn:E.
  - apply leb_true in E. destruct (IH (Some (InflightAppend_sending_time a))) as (acked & rest & -> & Hf & Hr & ->).
    exists (a :: acked), rest. split; [done|]. split; [by constructor|]. split; [done|].
    rewrite last_cons. by destruct (last acked).
  - apply leb_false in E. exists [], (a :: q). split; [done|]. split; [done|]. split; [|done].
    by intros ? [= <-].
Qed.
End acks.

(** ** Snapshots *)

Section snapshots.
Context {C : RaftTypeConfig} `{!StoreEnv} {St : Type} `{!RaftStorage St}.
Context (report : Storage.StorageError IoError → Core.StorageError) (ctx : ReplicationContext) (inflight_id : u64).

Definition is_sleep (o : StreamOutput) : Prop := ∃ d, o = StreamOutput_Sleep d.
Definition retried (a : Attempt) : Prop := ∃ e, read_and_send_snapshot ctx inflight_id a = Err (ReplicationError_RPCError e).

(** What the last attempt tells the runtime. *)
Definition final_outputs (a : Attempt) : list StreamOutput :=
  match read_and_send_snapshot ctx inflight_id a with
  | Ok os => os
  | Err (ReplicationError_HigherVote higher _) => [StreamOutput_Notify (notify_higher_vote ctx higher)]
  | Err (ReplicationError_StorageError e) => [StreamOutput_Notify (notify_storage_error report e)]
  | Err _ => []
  end.

(** The task that sends a snapshot retries as long as the transport fails,
    sleeping only in between, and reports nothing of these attempts; it ends with
    the first attempt that does not fail so, or with a cancellation of a sleep,
    and tells the runtime exactly the outcome of that attempt: the target has
    the snapshot, the target has a higher vote, or there is no snapshot to send. *)
Theorem snapshot_retried_until_done backoff attempts :
  let '(os, ended) := stream_snapshot report ctx inflight_id backoff attempts in
  ∃ sleeps, Forall is_sleep sleeps ∧
    if ended then
      ∃ before a after, attempts = before ++ a :: after ∧ Forall retried before ∧
        os = sleeps ++ final_outputs a ∧ (retried a → attempt_canceled a = true)
    else Forall retried attempts ∧ os = sleeps.
Proof.
  revert backoff. induction attempts as [|a attempts IH]; intros backoff; cbn [stream_snapshot]; [by exists []|].
  assert (∀ os, final_outputs a = os → (∀ e, read_and_send_snapshot ctx inflight_id a ≠ Err (ReplicationError_RPCError e)) →
    ∃ sleeps, Forall is_sleep sleeps ∧ ∃ before a' after, a :: attempts = before ++ a' :: after ∧
      Forall retried before ∧ os = sleeps ++ final_outputs a' ∧ (retried a' → attempt_canceled a' = true)) as Hfinal.
  { intros os Hos Hne. exists []. split; [done|]. exists [], a, attempts. split; [done|]. split; [done|].
    split; [done|]. intros [e He]. by destruct (Hne e). }
  destruct (read_and_send_snapshot ctx inflight_id a) as [os|[h v| |e|e]] eqn:Ea;
    try (apply Hfinal; [by unfold final_outputs; rewrite Ea|done]).
  assert (retried a) as Ha by by exists e.
  set (backoff' := match e with RPCError_Unreachable _ => _ | _ => _ end). clearbody backoff'.
  assert (∀ pre os ended b, Forall is_sleep pre → stream_snapshot report ctx inflight_id b attempts = (os, ended) →
    ∃ sleeps, Forall is_sleep sleeps ∧
      if ended then ∃ before a' after, a :: attempts = before ++ a' :: after ∧ Forall retried before ∧
        pre ++ os = sleeps ++ final_outputs a' ∧ (retried a' → attempt_canceled a' = true)
      else Forall retried (a :: attempts) ∧ pre ++ os = sleeps) as Hrec.
  { intros pre os ended b Hpre Hrun. specialize (IH b). rewrite Hrun in IH. destruct IH as (sleeps & Hsl & IH).
    exists (pre ++ sleeps). split; [by apply Forall_app|]. destruct ended.
    - destruct IH as (before & a' & after & -> & Hb & -> & Hc). exists (a :: before), a', after.
      split; [done|]. split; [by constructor|]. by rewrite app_assoc.
    - destruct IH as [Hr ->]. split; [by constructor|done]. }
  destruct backoff' as [b|].
  - cbn [Backoff_next]. destruct (attempt_canceled a) eqn:Ec.
    + exists [StreamOutput_Sleep (default EXHAUSTED_BACKOFF_DELAY (Backoff_delays b (Backoff_position b)))].
      split; [by repeat econstructor|]. exists [], a, attempts. split; [done|]. split; [done|].
      unfold final_outputs. by rewrite Ea.
    + destruct (stream_snapshot _ _ _ _ _) as [os ended] eqn:Er. eapply (Hrec [_]); [by repeat econstructor|exact Er].
  - destruct (stream_snapshot _ _ _ _ _) as [os ended] eqn:Er. eapply (Hrec []); [done|exact Er].
Qed.
End snapshots.

Module ReplSafetyWitness.
#[local] Existing Instance std_config.
#[local] Instance store : StoreEnv := {| Core.StorageError := unit; storage_error _ := None |}.
#[local] Instance memory : RaftStorage StoreView := mem_store (C := std_config) tt.
#[local] Instance memory_laws : RaftStorageLaws StoreView := mem_store_laws (C := std_config) tt.

Definition leader_at (i : u64) : CommittedLeaderId (RaftTypeConfig := std_config) := LeaderIdStd.mkCommitted 1.
Definition lid (i : u64) : LogId := id_at leader_at i.
Definition entry (i : u64) : Entry := Entry_new_blank (lid i).

(** A leader with five entries that sends at most two at once. *)
Definition leader_log : StoreView :=
  mkStoreView None None None [entry 0; entry 1; entry 2; entry 3; entry 4] [] None StoredMembership_default None.
Definition leader_vote : CommittedVote := CommittedVote_new (C := std_config) (LeaderIdStd.mk 1 1).
Definition config : Config :=
  match Config_default with
  | mkConfig a b c d e f _ h i j k l m n o p q r s t u v w x y z => mkConfig a b c d e f 2 h i j k l m n o p q r s t u v w x y z
  end.
Definition context : ReplicationContext := mkReplicationContext 1 2 leader_vote 9 config.
Definition accepted : IOId := IOId_Log (mkLogIOId leader_vote (Some (lid 4))).
Definition poll (t : Instant) (waits : list (option LogId * WaitEvent)) : Poll :=
  mkPoll waits leader_log accepted (Some (lid 3)) t.
Definition core : ReplicationCore := ReplicationCore_new context (mkReplicationProgress None (Some (lid 0))).
Definition report (e : Storage.StorageError IoError) : Core.StorageError := tt.

Lemma poll_fits t waits : Forall (λ w, w.1 = Some (lid 4)) waits →
  poll_ok leader_at 5 1 5 (poll t waits).
Proof.
  intros Hw. exists 0%N, 5%N. split; [done|]. split; [done|]. split; [by repeat constructor|]. split; [done|].
  cbn [poll_waits poll]. eapply Forall_impl; [exact Hw|]. intros w Hw'. exists 5%N. by rewrite Hw'.
Qed.

(** The entries behind the first are sent while the answer to the first
    request arrives before the last poll. *)
Definition input : SessionInput :=
  mkSessionInput [poll 10 [(Some (lid 4), WaitEvent_Submitted)]] (Ok tt)
    [SessionEvent_Poll (poll 20 [(Some (lid 4), WaitEvent_Submitted)]);
     SessionEvent_Response (Ok (Ok (Some (lid 2)))); SessionEvent_End].

Lemma requests_in_order_witness :
  ∃ c os r, run_stream_session report core (Payload_LogsSince (Some (lid 0))) input = (c, os, r) ∧
    AppendEntriesRequest_entries <$> sends os = [[entry 1; entry 2]; [entry 3; entry 4]] ∧
    requests_follow leader_at context 1 (sends os).
Proof.
  destruct (run_stream_session report core (Payload_LogsSince (Some (lid 0))) input) as [[c os] r] eqn:E.
  exists c, os, r. split; [done|]. split.
  - vm_compute in E. injection E as _ <- _. vm_compute. reflexivity.
  - apply (requests_in_order report leader_at 5%N ltac:(done) context eq_refl eq_refl 1 5 1 core
      (Payload_LogsSince (Some (lid 0))) input c os r); [done|done|done| |exact E].
    split; [|repeat constructor]; repeat constructor; apply poll_fits; by repeat constructor.
Defined.

(** The transport polls once while it opens the stream, and then waits for the
    answer to each request before the next poll. *)
Definition sequential : SessionInput :=
  mkSessionInput [poll 10 []] (Ok tt)
    [SessionEvent_Response (Ok (Ok (Some (lid 2)))); SessionEvent_Poll (poll 20 []);
     SessionEvent_Response (Ok (Ok (Some (lid 4)))); SessionEvent_Poll (poll 30 []);
     SessionEvent_Poll (poll 40 []); SessionEvent_End].

Lemma range_replicated_witness :
  ∃ c os r, run_stream_session report core
      (Payload_LogIdRange (mkLogIdRange (Some (lid 0)) (Some (lid 4)))) sequential = (c, os, r) ∧
    sent_entries (sends os) = 4%N ∧ remote_matched (rc_progress c) = Some (lid 4).
Proof.
  destruct (range_replicated report leader_at 5%N ltac:(done) context eq_refl eq_refl 1 5 1 core sequential)
    as (c & os & r & Hrun & _ & Hn & _ & _ & Hm); try done.
  - repeat constructor; by apply poll_fits.
  - by repeat constructor.
  - exists c, os, r. split; [exact Hrun|]. split; [exact Hn|exact Hm].
Defined.

(** The time of a request is reported before the request is answered: the
    second request, which carries a committed log id and no entries, ends with
    the log id that the answer to the first one acknowledges. *)
Example unanswered_request_acknowledged :
  let evs := [SessionEvent_Poll (poll 10 [(Some (lid 4), WaitEvent_Submitted)]);
              SessionEvent_Poll (poll 500 [(Some (lid 4), WaitEvent_Committed)]);
              SessionEvent_Response (Ok (Ok (Some (lid 4))))] in
  let '(_, os, _) := run_stream_session report core (Payload_LogsSince (Some (lid 2))) (mkSessionInput [] (Ok tt) evs) in
  AppendEntriesRequest_entries <$> sends os = [[entry 3; entry 4]; []] ∧
  StreamOutput_Notify (Notification_HeartbeatProgress 9 500 2) ∈ os ∧
  StreamOutput_Notify (Notification_HeartbeatProgress 9 10 2) ∉ os.
Proof.
  vm_compute. split; [reflexivity|]. split; [repeat constructor|].
  intros Hin. repeat (apply elem_of_cons in Hin as [[=]|Hin]). by apply elem_of_nil in Hin.
Qed.

(** A limit of [u64::MAX] entries, which a configuration may have, overflows:
    the range to read is reversed, and a store that takes it to be empty never
    lets anything be sent. *)
Definition unlimited : ReplicationContext :=
  match Config_default with
  | mkConfig a b c d e f _ h i j k l m n o p q r s t u v w x y z =>
      mkReplicationContext 1 2 leader_vote 9
        (mkConfig a b c d e f (u64_modulus - 1) h i j k l m n o p q r s t u v w x y z)
  end.
Example huge_limit_sends_nothing :
  max_payload_entries (ReplicationContext_config unlimited) ≠ 0%N ∧
  let s := mkStreamState (Some (Payload_LogIdRange (mkLogIdRange (Some (lid 0)) (Some (lid 4))))) None in
  ∃ req, next_request report unlimited s (poll 10 []) = Ready (Ok (Some req), s, []) ∧
    AppendEntriesRequest_entries req = [].
Proof. split; [done|]. eexists. vm_compute. by split. Qed.
End ReplSafetyWitness.
