(* ===== verification/TaskLocal.v ===== *)
(** * Values that are local to a task

    [async_runtime/task_local.rs]: a key whose value is swapped into a variable
    of the thread while a task is polled, and [async_runtime/deterministic_rng.rs],
    the seed of the random numbers of a task, which is such a value.

    Code that uses a key is [Code], and the futures that run it are [Fut].
    They are run on threads by swapping the variable of the thread as the source
    does ([act], [poll]), and on their own by passing the value of the scope
    they are in ([eval], [poll_env]).  The two agree, so that tasks on any
    threads see the values of their own scopes only. *)

From S2P Require Import Prelude.

Section task_local.
(** [T] is the type of the value.  It is shared, so that it changes only if it
    is a cell. *)
Context {T O : Type}.

(** The variable of a thread, a [RefCell]: its value, how many borrows of it are
    active, and whether the thread still has it. *)
Record Thread := mkThread { cell : option T; borrows : nat; alive : bool }.
Implicit Types (th : Thread) (slot env : option T).

Inductive ScopeInnerErr := ScopeInnerErr_BorrowError | ScopeInnerErr_AccessError.
Inductive AccessError := mkAccessError.

(** Code that runs on a thread; it may return or unwind. *)
Inductive exit := Returned | Unwound.
Definition Act (R : Type) : Type := Thread → exit * R * Thread.

Definition set_cell slot th : Thread := mkThread slot (borrows th) (alive th).

(** [scope_inner]: the value is swapped in, and swapped out by the [Guard] when
    the code returns or unwinds. *)
Definition scope_inner {R} slot (f : Act R) th : exit * result R ScopeInnerErr * option T * Thread :=
  if negb (alive th) then (Returned, Err ScopeInnerErr_AccessError, slot, th)
  else if decide (borrows th ≠ 0) then (Returned, Err ScopeInnerErr_BorrowError, slot, th)
  else
    let '(slot, th) := (cell th, set_cell slot th) in
    let '(x, r, th) := f th in
    if alive th && bool_decide (borrows th = 0) then (x, Ok r, cell th, set_cell slot th)
    else (Unwound, Ok r, slot, th).

(** [try_with]: the code runs with the variable borrowed. *)
Definition try_with {R} (f : Act R) th : exit * result R AccessError * Thread :=
  if alive th then
    match cell th with
    | Some _ =>
        let '(x, r, th) := f (mkThread (cell th) (S (borrows th)) (alive th)) in
        (x, Ok r, mkThread (cell th) (pred (borrows th)) (alive th))
    | None => (Returned, Err mkAccessError, th)
    end
  else (Returned, Err mkAccessError, th).

(** The callers that panic on an error return no value then. *)
Definition LocalKey_with {R} (f : Act R) th : exit * option R * Thread :=
  let '(x, r, th) := try_with f th in
  match r with Ok res => (x, Some res, th) | Err _ => (Unwound, None, th) end.

(** The value is dropped at the end. *)
Definition sync_scope {R} (value : T) (f : Act R) th : exit * option R * Thread :=
  let '(x, r, _, th) := scope_inner (Some value) f th in
  match r with Ok res => (x, Some res, th) | Err _ => (Unwound, None, th) end.

(** ** Code *)

(** [C_modify] is [try_with] of a function that reads a cell and writes it;
    [C_with] is [with]; [C_scope] is [sync_scope]; [C_catch] is
    [catch_unwind]. *)
Inductive Code :=
| C_done
| C_panic
| C_emit (o : O) (k : Code)
| C_modify (f : T → T) (k : option T → Code)
| C_with (body k : Code)
| C_scope (value : T) (body k : Code)
| C_catch (body : Code) (k : exit → Code).

(** Reading and writing through the reference that [try_with] gives. *)
Definition modify_cell (f : T → T) : Act (option T) := λ th, (Returned, cell th, set_cell (f <$> cell th) th).

(** [get]: the value, or an error outside of a scope. *)
Definition C_get (k : option T → Code) : Code := C_modify id k.

(** Goes on if the code has returned. *)
Definition and_then (r : exit * list O * Thread) (k : Act (list O)) : exit * list O * Thread :=
  let '(x, os, th) := r in
  match x with
  | Returned => let '(x, os', th) := k th in (x, os ++ os', th)
  | Unwound => (Unwound, os, th)
  end.

Fixpoint act (c : Code) : Act (list O) := λ th,
  match c with
  | C_done => (Returned, [], th)
  | C_panic => (Unwound, [], th)
  | C_emit o k => and_then (Returned, [o], th) (act k)
  | C_modify f k =>
      let '(_, r, th) := try_with (modify_cell f) th in
      match r with Ok seen => act (k seen) th | Err _ => act (k None) th end
  | C_with body k =>
      let '(x, r, th) := LocalKey_with (act body) th in and_then (x, default [] r, th) (act k)
  | C_scope value body k =>
      let '(x, r, th) := sync_scope value (act body) th in and_then (x, default [] r, th) (act k)
  | C_catch body k => let '(x, os, th) := act body th in and_then (Returned, os, th) (act (k x))
  end.

(** The code in the scope [env]; [held] is whether the value is borrowed. *)
Fixpoint eval (c : Code) (held : bool) env : exit * list O * option T :=
  match c with
  | C_done => (Returned, [], env)
  | C_panic => (Unwound, [], env)
  | C_emit o k => let '(x, os, env) := eval k held env in (x, o :: os, env)
  | C_modify f k => eval (k env) held (f <$> env)
  | C_with body k =>
      match env with
      | None => (Unwound, [], env)
      | Some _ =>
          let '(x, os, env) := eval body true env in
          match x with
          | Returned => let '(x, os', env) := eval k held env in (x, os ++ os', env)
          | Unwound => (Unwound, os, env)
          end
      end
  | C_scope value body k =>
      if held then (Unwound, [], env)
      else
        let '(x, os, _) := eval body false (Some value) in
        match x with
        | Returned => let '(x, os', env) := eval k held env in (x, os ++ os', env)
        | Unwound => (Unwound, os, env)
        end
  | C_catch body k =>
      let '(x, os, env) := eval body held env in
      let '(x, os', env) := eval (k x) held env in (x, os ++ os', env)
  end.

Definition held th : bool := bool_decide (borrows th ≠ 0).

(** Swapping the variable of a thread is passing the value of the scope: code
    leaves the borrows of the thread as they were, and its variable as it was
    but for its own writes to the value of the scope. *)
Lemma act_eval c th : alive th = true →
  act c th = let '(x, os, env) := eval c (held th) (cell th) in (x, os, mkThread env (borrows th) true).
Proof.
  revert th. induction c as [| |o k IH|f k IH|body IHb k IH|value body IHb k IH|body IHb k IH]; intros [v b []] Ha; try done; cbn.
  - rewrite IH by done. unfold held. cbn. by destruct (eval k _ v) as [[[] os] env].
  - unfold try_with. cbn. destruct v as [v|]; cbn; rewrite IH by done; done.
  - unfold LocalKey_with, try_with. cbn. destruct v as [v|]; [|done]. rewrite IHb by done. unfold held. cbn.
    rewrite (bool_decide_eq_true_2 (S b ≠ 0)) by done.
    destruct (eval body true (Some v)) as [[[] os] env]; cbn; [|done].
    rewrite IH by done. unfold held. cbn. by destruct (eval k _ env) as [[? ?] ?].
  - unfold sync_scope, scope_inner, held. cbn. destruct (decide (b ≠ 0)) as [Hb|Hb].
    { by rewrite bool_decide_eq_true_2. }
    rewrite bool_decide_eq_false_2 by done. rewrite IHb by done. unfold held. cbn. rewrite bool_decide_eq_false_2 by done.
    destruct (eval body false (Some value)) as [[x os] env]. cbn. rewrite bool_decide_eq_true_2 by lia. cbn.
    destruct x; cbn; [|done]. rewrite IH by done. unfold held. cbn. rewrite bool_decide_eq_false_2 by done.
    by destruct (eval k false v) as [[? ?] ?].
  - rewrite IHb by done. unfold held. cbn. destruct (eval body _ v) as [[x os] env]. cbn. rewrite IH by done.
    unfold held. cbn. by destruct (eval (k x) _ env) as [[? ?] ?].
Qed.

(** ** Futures *)

(** [Fut_code] runs one part of its code at each poll and is ready after the
    last; [dtor] is what runs when it is dropped before.  [Fut_then] awaits one
    future and then another.  [Fut_scope] is [TaskLocalFuture], with its slot
    and its future. *)
Inductive Fut :=
| Fut_code (parts : list Code) (dtor : Code)
| Fut_then (f g : Fut)
| Fut_scope (slot : option T) (future : option Fut).

(** [LocalKey::scope] *)
Definition scope (value : T) (f : Fut) : Fut := Fut_scope (Some value) (Some f).

(** [take_value] *)
Definition take_value (f : Fut) : option T * Fut :=
  match f with
  | Fut_scope slot future => (slot, Fut_scope None future)
  | _ => (None, f)
  end.

Inductive Poll := Ready | Pending.

(** A poll gives the state of the future after it, and what was emitted. *)
Record Polled := mkPolled { p_poll : Poll; p_out : list O; p_fut : Fut }.

Fixpoint poll (f : Fut) : Act Polled := λ th,
  match f with
  | Fut_code [] dtor => (Returned, mkPolled Ready [] f, th)
  | Fut_code (c :: parts) dtor =>
      let '(x, os, th) := act c th in
      (x, mkPolled (match parts with [] => Ready | _ => Pending end) os (Fut_code parts dtor), th)
  | Fut_then f g =>
      let '(x, p, th) := poll f th in
      match x, p_poll p with
      | Returned, Ready =>
          let '(x, q, th) := poll g th in (x, mkPolled (p_poll q) (p_out p ++ p_out q) (p_fut q), th)
      | _, _ => (x, mkPolled (p_poll p) (p_out p) (Fut_then (p_fut p) g), th)
      end
  | Fut_scope slot future =>
      match future with
      | Some fut =>
          let '(x, r, slot, th) := scope_inner slot (poll fut) th in
          match r with
          | Ok p =>
              let left := match x, p_poll p with Returned, Ready => None | _, _ => Some (p_fut p) end in
              (x, mkPolled (p_poll p) (p_out p) (Fut_scope slot left), th)
          | Err _ => (Unwound, mkPolled Pending [] (Fut_scope slot future), th)
          end
      | None =>
          let '(x, r, slot, th) := scope_inner slot (λ th, (Returned, tt, th)) th in
          (Unwound, mkPolled Pending [] (Fut_scope slot future), th)
      end
  end.

(** A future is dropped: a future in a scope is dropped while its value is set,
    if that is possible. *)
Fixpoint drop_fut (f : Fut) : Act (list O) := λ th,
  match f with
  | Fut_code [] _ => (Returned, [], th)
  | Fut_code _ dtor => act dtor th
  | Fut_then f g => and_then (drop_fut f th) (drop_fut g)
  | Fut_scope slot None => (Returned, [], th)
  | Fut_scope slot (Some fut) =>
      let '(x, r, _, th) := scope_inner slot (drop_fut fut) th in
      match r with Ok os => (x, os, th) | Err _ => drop_fut fut th end
  end.

(** The same in the scope [env]. *)
Fixpoint poll_env (f : Fut) (held : bool) env : exit * Polled * option T :=
  match f with
  | Fut_code [] dtor => (Returned, mkPolled Ready [] f, env)
  | Fut_code (c :: parts) dtor =>
      let '(x, os, env) := eval c held env in
      (x, mkPolled (match parts with [] => Ready | _ => Pending end) os (Fut_code parts dtor), env)
  | Fut_then f g =>
      let '(x, p, env) := poll_env f held env in
      match x, p_poll p with
      | Returned, Ready =>
          let '(x, q, env) := poll_env g held env in (x, mkPolled (p_poll q) (p_out p ++ p_out q) (p_fut q), env)
      | _, _ => (x, mkPolled (p_poll p) (p_out p) (Fut_then (p_fut p) g), env)
      end
  | Fut_scope slot future =>
      match future with
      | Some fut =>
          if held then (Unwound, mkPolled Pending [] (Fut_scope slot future), env)
          else
            let '(x, p, slot) := poll_env fut false slot in
            let left := match x, p_poll p with Returned, Ready => None | _, _ => Some (p_fut p) end in
            (x, mkPolled (p_poll p) (p_out p) (Fut_scope slot left), env)
      | None => (Unwound, mkPolled Pending [] (Fut_scope slot future), env)
      end
  end.

Fixpoint drop_env (f : Fut) (held : bool) env : exit * list O * option T :=
  match f with
  | Fut_code [] _ => (Returned, [], env)
  | Fut_code _ dtor => eval dtor held env
  | Fut_then f g =>
      let '(x, os, env) := drop_env f held env in
      match x with
      | Returned => let '(x, os', env) := drop_env g held env in (x, os ++ os', env)
      | Unwound => (Unwound, os, env)
      end
  | Fut_scope slot None => (Returned, [], env)
  | Fut_scope slot (Some fut) =>
      if held then drop_env fut held env
      else let '(x, os, _) := drop_env fut false slot in (x, os, env)
  end.

(** A scope around code that leaves the borrows alone. *)
Lemma scope_inner_run {R} slot (f : Act R) th x r slot' :
  alive th = true → f (set_cell slot th) = (x, r, mkThread slot' (borrows th) true) →
  scope_inner slot f th =
    if held th then (Returned, Err ScopeInnerErr_BorrowError, slot, th) else (x, Ok r, slot', th).
Proof.
  destruct th as [v b []]; [|done]. intros _ Hf. unfold scope_inner, held. cbn in *.
  destruct (decide (b ≠ 0)); [by rewrite bool_decide_eq_true_2|]. rewrite bool_decide_eq_false_2 by done.
  unfold set_cell in Hf. cbn in Hf. unfold set_cell. cbn. rewrite Hf. cbn. by rewrite bool_decide_eq_true_2 by lia.
Qed.

(** [Fut] has futures inside of options. *)
Lemma Fut_rect' (P : Fut → Prop) :
  (∀ parts dtor, P (Fut_code parts dtor)) → (∀ f g, P f → P g → P (Fut_then f g)) →
  (∀ slot, P (Fut_scope slot None)) → (∀ slot f, P f → P (Fut_scope slot (Some f))) → ∀ f, P f.
Proof. intros Hc Ht Hn Hs. fix IH 1. intros [parts dtor|f g|slot [f|]]; [apply Hc|by apply Ht|by apply Hs|apply Hn]. Qed.

Lemma poll_poll_env f th : alive th = true →
  poll f th = let '(x, p, env) := poll_env f (held th) (cell th) in (x, p, mkThread env (borrows th) true).
Proof.
  revert th. induction f as [[|c parts] dtor|f g IHf IHg|slot|slot f IHf] using Fut_rect'; intros th Ha; cbn.
  - destruct th as [v b []]; done.
  - rewrite act_eval by done. by destruct (eval c _ _) as [[? ?] ?].
  - rewrite IHf by done. destruct (poll_env f _ _) as [[x p] env]. destruct x, (p_poll p); try done.
    rewrite IHg by done. unfold held. cbn. by destruct (poll_env g _ env) as [[? ?] ?].
  - rewrite (scope_inner_run slot _ th Returned tt slot) by (destruct th as [? ? []]; done).
    destruct th as [v b []], (held _); done.
  - pose proof (IHf (set_cell slot th) Ha) as E. cbn in E. unfold held in E. cbn in E.
    destruct (held th) eqn:Hh.
    + destruct (poll_env f (bool_decide (borrows th ≠ 0)) slot) as [[x p] slot'].
      rewrite (scope_inner_run slot _ th x p slot' Ha E), Hh. by destruct th as [v b []].
    + unfold held in Hh. rewrite Hh in E. destruct (poll_env f false slot) as [[x p] slot'].
      rewrite (scope_inner_run slot _ th x p slot' Ha E). unfold held. rewrite Hh. by destruct th as [v b []].
Qed.

Lemma drop_drop_env f th : alive th = true →
  drop_fut f th = let '(x, os, env) := drop_env f (held th) (cell th) in (x, os, mkThread env (borrows th) true).
Proof.
  revert th. induction f as [[|c parts] dtor|f g IHf IHg|slot|slot f IHf] using Fut_rect'; intros th Ha; cbn.
  - destruct th as [v b []]; done.
  - by rewrite act_eval.
  - rewrite IHf by done. destruct (drop_env f _ _) as [[[] os] env]; cbn; [|done].
    rewrite IHg by done. unfold held. cbn. by destruct (drop_env g _ env) as [[? ?] ?].
  - destruct th as [v b []]; done.
  - pose proof (IHf (set_cell slot th) Ha) as E. cbn in E. unfold held in E. cbn in E.
    destruct (held th) eqn:Hh.
    + destruct (drop_env f (bool_decide (borrows th ≠ 0)) slot) as [[x os] slot'].
      rewrite (scope_inner_run slot _ th x os slot' Ha E), Hh, IHf by done. by rewrite Hh.
    + unfold held in Hh. rewrite Hh in E. destruct (drop_env f false slot) as [[x os] slot'].
      rewrite (scope_inner_run slot _ th x os slot' Ha E). unfold held. rewrite Hh. by destruct th as [v b []].
Qed.

(** ** Tasks on threads *)

(** An executor polls tasks on threads, in any order; a task that has unwound is
    not polled again, and neither is one that is ready. *)
Record Task := mkTask { t_fut : Fut; t_ended : bool; t_out : list O }.
Record Machine := mkMachine { m_threads : nat → Thread; m_tasks : nat → Task }.

Definition upd_at {A} (f : nat → A) (i : nat) (x : A) : nat → A := λ j, if decide (j = i) then x else f j.

Definition poll_task (t : Task) : Act Task := λ th,
  if t_ended t then (Returned, t, th)
  else
    let '(x, p, th) := poll (t_fut t) th in
    (Returned, mkTask (p_fut p) (match x, p_poll p with Returned, Pending => false | _, _ => true end) (t_out t ++ p_out p), th).

Definition run_one (m : Machine) (step : nat * nat) : Machine :=
  let '(task, thread) := step in
  let '(_, t, th) := poll_task (m_tasks m task) (m_threads m thread) in
  mkMachine (upd_at (m_threads m) thread th) (upd_at (m_tasks m) task t).

Definition run (m : Machine) (schedule : list (nat * nat)) : Machine := foldl run_one m schedule.

(** A task on its own, polled [n] times. *)
Definition poll_alone (t : Task) : Task :=
  if t_ended t then t
  else
    let '(x, p, _) := poll_env (t_fut t) false None in
    mkTask (p_fut p) (match x, p_poll p with Returned, Pending => false | _, _ => true end) (t_out t ++ p_out p).

(** The threads are as between polls. *)
Definition idle th : Prop := th = mkThread None 0 true.

(** Outside of a scope, code finds no value and leaves none. *)
Lemma eval_outside c held : (eval c held None).2 = None.
Proof.
  revert held. induction c as [| |o k IH|f k IH|body IHb k IH|value body IHb k IH|body IHb k IH]; intros hd; cbn; try done.
  - specialize (IH hd). by destruct (eval k hd None) as [[? ?] ?].
  - destruct hd; [done|]. destruct (eval body false (Some value)) as [[[] ?] ?]; [|done].
    specialize (IH false). by destruct (eval k false None) as [[? ?] ?].
  - specialize (IHb hd). destruct (eval body hd None) as [[x ?] env]. cbn in IHb. subst env.
    specialize (IH x hd). by destruct (eval (k x) hd None) as [[? ?] ?].
Qed.

Lemma poll_env_outside f held : (poll_env f held None).2 = None.
Proof.
  revert held. induction f as [[|c parts] dtor|f g IHf IHg|slot|slot f IHf] using Fut_rect'; intros hd; cbn; try done.
  - pose proof (eval_outside c hd) as E. by destruct (eval c hd None) as [[? ?] ?].
  - specialize (IHf hd). destruct (poll_env f hd None) as [[x p] env]. cbn in IHf. subst env.
    destruct x, (p_poll p); try done. specialize (IHg hd). by destruct (poll_env g hd None) as [[? ?] ?].
  - destruct hd; [done|]. by destruct (poll_env f false slot) as [[? ?] ?].
Qed.

Lemma poll_task_alone t th : idle th → poll_task t th = (Returned, poll_alone t, th).
Proof.
  intros ->. unfold poll_task, poll_alone. destruct (t_ended t); [done|]. rewrite poll_poll_env by done.
  change (held (mkThread None 0 true)) with false. cbn [cell borrows].
  pose proof (poll_env_outside (t_fut t) false) as E. destruct (poll_env (t_fut t) false None) as [[x p] env].
  cbn in E. by subst env.
Qed.

Lemma iter_snoc {A} (f : A → A) n x : Nat.iter (S n) f x = Nat.iter n f (f x).
Proof. apply Nat.iter_succ_r. Qed.

Lemma run_isolated schedule m task :
  (∀ i, idle (m_threads m i)) →
  m_tasks (run m schedule) task = Nat.iter (length (filter (λ s, s.1 = task) schedule)) poll_alone (m_tasks m task) ∧
  ∀ i, idle (m_threads (run m schedule) i).
Proof.
  revert m. induction schedule as [|[i thread] schedule IH]; intros m Hm; [done|]. cbn [run foldl].
  change (foldl run_one ?x schedule) with (run x schedule).
  assert (run_one m (i, thread) = mkMachine (upd_at (m_threads m) thread (m_threads m thread))
    (upd_at (m_tasks m) i (poll_alone (m_tasks m i)))) as -> by (unfold run_one; by rewrite poll_task_alone).
  destruct (IH (mkMachine (upd_at (m_threads m) thread (m_threads m thread)) (upd_at (m_tasks m) i (poll_alone (m_tasks m i)))))
    as [Ht Hth].
  { intros j. cbn. unfold upd_at. case_decide; auto. }
  split; [|done]. rewrite Ht. cbn [m_tasks]. rewrite filter_cons. cbn [fst]. unfold upd_at.
  case_decide as E1; case_decide as E2; try congruence. subst. cbn [length]. by rewrite iter_snoc.
Qed.

(** C38: Tasks see the values of their own scopes: whatever code they run (with
    nested scopes, panics that are caught, writes to the value), whichever
    threads they are polled on and however the polls of other tasks come
    between, a task emits what it emits when its polls are run on their own with
    the values passed to the code of each scope.  The threads are left without
    a value and without a borrow. *)
Theorem tasks_isolated schedule m task :
  (∀ i, idle (m_threads m i)) →
  m_tasks (run m schedule) task = Nat.iter (length (filter (λ s, s.1 = task) schedule)) poll_alone (m_tasks m task) ∧
  ∀ i, idle (m_threads (run m schedule) i).
Proof. apply run_isolated. Qed.
End task_local.

Arguments Thread : clear implicits.
Arguments Code : clear implicits.
Arguments Fut : clear implicits.
Arguments Task : clear implicits.
Arguments Machine : clear implicits.

(** ** Seeds *)

Definition u64_mask (x : N) : u64 := (x mod u64_modulus)%N.
(** [wrapping_mul] *)
Definition u64_mul (a b : u64) : u64 := u64_mask (a * b).

Definition GOLDEN_RATIO : u64 := 0x9e3779b97f4a7c15.
Definition SQRT2 : u64 := 0x6a09e667f3bcc908.

(** [z ^ (z >> k)] *)
Definition xorshift (k : N) (z : u64) : u64 := N.lxor z (N.shiftr z k).

Definition splitmix64 (seed gamma : u64) : u64 :=
  let z := u64_add seed gamma in
  let z := u64_mul (xorshift 30 z) 0xbf58476d1ce4e5b9 in
  let z := u64_mul (xorshift 27 z) 0x94d049bb133111eb in
  xorshift 31 z.

Definition derive_spawn_seed (seed : u64) : u64 := splitmix64 seed GOLDEN_RATIO.
Definition advance_seed (seed : u64) : u64 := splitmix64 seed SQRT2.

(** [take_and_advance_seed]: the seed of the task, or the random number [r]
    outside of a scope. *)
Definition take_and_advance_seed {O} (r : u64) (k : u64 → Code u64 O) : Code u64 O :=
  C_modify advance_seed (λ seen, k (default r seen)).

(** [DeterministicRng::scope] *)
Definition DeterministicRng_scope {O} (seed : u64) (f : Fut u64 O) : Fut u64 O := scope seed f.

(** Different seeds are kept apart: each operation on 64 bits has an inverse. *)
Lemma xorshift_inj k a b : (k ≠ 0)%N → xorshift k a = xorshift k b → a = b.
Proof.
  intros Hk E. apply N.bits_inj. intros i.
  assert (∀ d i, (N.log2 a < i + d)%N → (N.log2 b < i + d)%N → N.testbit a i = N.testbit b i) as Hall.
  { intros d. induction d as [d IH] using (well_founded_induction N.lt_wf_0). intros j Ha Hb.
    assert (N.testbit (xorshift k a) j = N.testbit (xorshift k b) j) as Ej by by rewrite E.
    unfold xorshift in Ej. rewrite !N.lxor_spec, !N.shiftr_spec in Ej by lia.
    destruct (decide (d < k)%N) as [Hd|Hd].
    - rewrite (N.bits_above_log2 a (j + k)), (N.bits_above_log2 b (j + k)) in Ej by lia. by rewrite !xorb_false_r in Ej.
    - rewrite (IH (d - k)%N ltac:(lia) (j + k)%N ltac:(lia) ltac:(lia)) in Ej.
      by destruct (N.testbit a j), (N.testbit b j), (N.testbit b (j + k)). }
  apply (Hall (N.succ (N.max (N.log2 a) (N.log2 b)))); lia.
Qed.

Lemma xorshift_in k a : in_u64 a → in_u64 (xorshift k a).
Proof.
  unfold in_u64, u64_modulus, xorshift. change 18446744073709551616%N with (2 ^ 64)%N. intros Ha.
  destruct (decide (N.lxor a (N.shiftr a k) = 0%N)) as [->|Hn]; [lia|]. apply N.log2_lt_pow2; [lia|].
  destruct (decide (a = 0%N)) as [->|Ha0]; [by rewrite N.shiftr_0_l in Hn|].
  eapply N.le_lt_trans; [apply N.log2_lxor|]. rewrite N.log2_shiftr. apply N.log2_lt_pow2 in Ha; lia.
Qed.

(** Multiplication by an odd number, whose inverse is [c]. *)
Lemma u64_mul_inj m c a b : (u64_mask (m * c) = 1)%N → in_u64 a → in_u64 b → u64_mul a m = u64_mul b m → a = b.
Proof.
  unfold u64_mul, u64_mask, in_u64. intros Hc Ha Hb E.
  assert (∀ x, (x < u64_modulus)%N → ((x * m) mod u64_modulus * c) mod u64_modulus = x)%N as Hinv.
  { intros x Hx. rewrite N.Div0.mul_mod_idemp_l, <- N.mul_assoc, <- N.Div0.mul_mod_idemp_r, Hc, N.mul_1_r.
    by apply N.mod_small. }
  by rewrite <- (Hinv a Ha), <- (Hinv b Hb), E.
Qed.

Lemma u64_add_inj a b g : in_u64 a → in_u64 b → u64_add a g = u64_add b g → a = b.
Proof.
  unfold in_u64, u64_add. intros Ha Hb E.
  assert (∀ x, (x < u64_modulus)%N → ((x + g) mod u64_modulus + (u64_modulus - g mod u64_modulus)) mod u64_modulus = x)%N as Hinv.
  { intros x Hx. pose proof (N.mod_lt g u64_modulus ltac:(done)).
    rewrite N.Div0.add_mod_idemp_l. rewrite (N.div_mod g u64_modulus) at 1 by done.
    replace (x + (u64_modulus * (g / u64_modulus) + g mod u64_modulus) + (u64_modulus - g mod u64_modulus))%N
      with (x + (g / u64_modulus + 1) * u64_modulus)%N by lia.
    rewrite N.Div0.mod_add. by apply N.mod_small. }
  by rewrite <- (Hinv a Ha), <- (Hinv b Hb), E.
Qed.

(** Deriving a seed loses nothing: two seeds with the same next seed are the
    same. *)
Theorem splitmix64_injective gamma a b :
  in_u64 a → in_u64 b → splitmix64 a gamma = splitmix64 b gamma → a = b.
Proof.
  intros Ha Hb E. unfold splitmix64 in E. apply xorshift_inj in E; [|done].
  assert (∀ x y, in_u64 (u64_mul x y)) as Hin by (intros; by apply N.mod_lt).
  apply (u64_mul_inj _ 3573116690164977347) in E; [|done|by apply xorshift_in, Hin..]. apply xorshift_inj in E; [|done].
  apply (u64_mul_inj _ 10871156337175269513) in E; [|done|by apply xorshift_in, u64_add_in..].
  apply xorshift_inj in E; [|done]. by apply u64_add_inj in E.
Qed.

(** The seeds that a task draws. *)
Fixpoint seeds (n : nat) (seed : u64) : list u64 :=
  match n with O => [] | S n => seed :: seeds n (advance_seed seed) end.

(** Code that draws [n] seeds and emits them. *)
Fixpoint draws (r : u64) (n : nat) : Code u64 u64 :=
  match n with O => C_done | S n => take_and_advance_seed r (λ seed, C_emit seed (draws r n)) end.

Lemma eval_draws r n held seed :
  eval (draws r n) held (Some seed) = (Returned, seeds n seed, Some (Nat.iter n advance_seed seed)).
Proof. revert seed. induction n as [|n IH]; intros seed; [done|]. cbn. by rewrite IH, <- Nat.iter_succ_r. Qed.

Lemma seeds_app n m seed : seeds (n + m) seed = seeds n seed ++ seeds m (Nat.iter n advance_seed seed).
Proof. revert seed. induction n as [|n IH]; intros seed; [done|]. cbn. by rewrite IH, <- Nat.iter_succ_r. Qed.

Lemma ended_stays {T O} (t : Task T O) n : t_ended t = true → Nat.iter n poll_alone t = t.
Proof. intros Ht. induction n as [|n IH]; [done|]. rewrite Nat.iter_succ, IH. unfold poll_alone. by rewrite Ht. Qed.

Lemma polls_draw r k seed counts dtor out :
  t_out (Nat.iter k poll_alone (mkTask (DeterministicRng_scope seed (Fut_code (draws r <$> counts) dtor)) false out)) =
  out ++ seeds (sum_list (take k counts)) seed.
Proof.
  revert seed counts out. induction k as [|k IH]; intros seed counts out; [by rewrite app_nil_r|].
  rewrite iter_snoc. destruct counts as [|c counts].
  { rewrite ended_stays by done. done. }
  unfold poll_alone at 2. cbn. rewrite eval_draws. cbn. destruct counts as [|c' counts].
  - rewrite ended_stays by done. cbn. by rewrite take_nil, Nat.add_0_r.
  - specialize (IH (Nat.iter c advance_seed seed) (c' :: counts) (out ++ seeds c seed)).
    etrans; [exact IH|]. by rewrite <- app_assoc, <- seeds_app.
Qed.

(** Random numbers are a function of the seed: a task in the scope of a seed
    draws the seeds that follow from it, one after the other over its polls,
    whatever else the threads run in between. *)
Theorem seeds_deterministic schedule (m : Machine u64 u64) task r seed counts dtor :
  (∀ i, idle (m_threads m i)) →
  m_tasks m task = mkTask (DeterministicRng_scope seed (Fut_code (draws r <$> counts) dtor)) false [] →
  t_out (m_tasks (run m schedule) task) =
    seeds (sum_list (take (length (filter (λ s, s.1 = task) schedule)) counts)) seed.
Proof. intros Hm Ht. destruct (run_isolated schedule m task Hm) as [-> _]. by rewrite Ht, polls_draw. Qed.

Module TaskLocalWitness.
(** Two tasks that draw seeds, one in a nested scope of the other kind of code:
    polled on two threads in turns. *)
Definition noisy : Fut u64 u64 :=
  DeterministicRng_scope 5 (Fut_code [draws 0 1; C_scope 9%N (draws 0 1) (draws 0 2); C_catch C_panic (λ _ : exit, draws 0 1)] C_done).
Definition machine : Machine u64 u64 :=
  mkMachine (λ _, mkThread None 0 true)
    (λ i, match i with
          | 0 => mkTask (DeterministicRng_scope 7 (Fut_code (draws 0 <$> [2; 1]) C_done)) false []
          | _ => mkTask noisy false []
          end).
Definition schedule : list (nat * nat) := [(0, 0); (1, 0); (1, 1); (0, 1); (1, 0); (0, 0)].

Lemma tasks_isolated_witness :
  t_out (m_tasks (run machine schedule) 1) = [5%N; 9%N] ++ seeds 3 (advance_seed 5).
Proof.
  destruct (tasks_isolated schedule machine 1) as [-> _]; [done|]. vm_compute. reflexivity.
Defined.

Lemma seeds_deterministic_witness : t_out (m_tasks (run machine schedule) 0) = seeds 3 7.
Proof. apply (seeds_deterministic schedule machine 0 0 7 [2; 1] C_done); done. Defined.

Lemma splitmix64_injective_witness : splitmix64 1 SQRT2 ≠ splitmix64 2 SQRT2.
Proof. intros E. by apply (splitmix64_injective SQRT2 1 2) in E. Defined.
End TaskLocalWitness.
