(* ===== verification/Watch.v ===== *)
(** * The watch channel

    [async_runtime/watch/mod.rs]: a channel that keeps the last value, with a
    version that tells receivers of changes.  First the operations, each as one
    step; then the channel as senders and a receiver run at once, where a send,
    a poll of [changed] and a [borrow_and_update] are a step for each lock,
    atomic and waker that they touch.  The steps are interleaved as if memory
    were sequentially consistent. *)

From S2P Require Import Prelude.

(** The result of polling a future. *)
Inductive Poll (A : Type) := Poll_Ready (a : A) | Poll_Pending.
Arguments Poll_Ready {A} a.
Arguments Poll_Pending {A}.

Inductive RecvError := mkRecvError.

Section watch.
Context {T : Type}.

(** [Shared], without the wakers. *)
Record Watch := mkWatch {
  Watch_value : T;
  Watch_version : u64;
  Watch_closed : bool;
  Watch_tx_count : N;
  Watch_rx_count : N;
}.
Record WatchReceiver := mkWatchReceiver { seen_version : u64 }.

Definition channel (init : T) : Watch * WatchReceiver := (mkWatch init 1 false 1 1, mkWatchReceiver 1).

(** What a send does under the write lock: the value, then the version. *)
Definition write_value (w : Watch) (v : T) : Watch :=
  mkWatch v (Watch_version w) (Watch_closed w) (Watch_tx_count w) (Watch_rx_count w).
Definition bump_version (w : Watch) : Watch :=
  mkWatch (Watch_value w) (u64_add (Watch_version w) 1) (Watch_closed w) (Watch_tx_count w) (Watch_rx_count w).
Definition watch_set (w : Watch) (v : T) : Watch := bump_version (write_value w v).

(** [send] fails with the value when there is no receiver. *)
Definition send (w : Watch) (value : T) : result Watch T :=
  if decide (Watch_rx_count w = 0%N) then Err value else Ok (watch_set w value).

(** [send_if_modified]: the closure gives the new value when it has modified it. *)
Definition send_if_modified (w : Watch) (modify : T → option T) : Watch * bool :=
  match modify (Watch_value w) with
  | Some v => (watch_set w v, true)
  | None => (w, false)
  end.
Definition send_if_different `{!EqDecision T} (w : Watch) (value : T) : Watch * bool :=
  send_if_modified w (λ current, if decide (current ≠ value) then Some value else None).
Definition send_if_greater `{!PartialOrd T} (w : Watch) (value : T) : Watch * bool :=
  send_if_modified w (λ current, if pgtb value current then Some value else None).

Definition sender_clone (w : Watch) : Watch :=
  mkWatch (Watch_value w) (Watch_version w) (Watch_closed w) (Watch_tx_count w + 1) (Watch_rx_count w).
Definition sender_drop (w : Watch) : Watch :=
  mkWatch (Watch_value w) (Watch_version w) (if decide (Watch_tx_count w = 1%N) then true else Watch_closed w)
    (Watch_tx_count w - 1) (Watch_rx_count w).

Definition subscribe (w : Watch) : Watch * WatchReceiver :=
  (mkWatch (Watch_value w) (Watch_version w) (Watch_closed w) (Watch_tx_count w) (Watch_rx_count w + 1),
   mkWatchReceiver (Watch_version w)).
Definition receiver_clone (w : Watch) (rx : WatchReceiver) : Watch * WatchReceiver :=
  (mkWatch (Watch_value w) (Watch_version w) (Watch_closed w) (Watch_tx_count w) (Watch_rx_count w + 1), rx).
Definition receiver_drop (w : Watch) : Watch :=
  mkWatch (Watch_value w) (Watch_version w) (Watch_closed w) (Watch_tx_count w) (Watch_rx_count w - 1).

Definition borrow_watched (w : Watch) : T := Watch_value w.
Definition load_version (w : Watch) : WatchReceiver := mkWatchReceiver (Watch_version w).
Definition borrow_and_update (w : Watch) (rx : WatchReceiver) : T * WatchReceiver :=
  (borrow_watched w, load_version w).

(** A poll of [changed]. *)
Definition changed (w : Watch) (rx : WatchReceiver) : Poll (result unit RecvError) * WatchReceiver :=
  if (seen_version rx <? Watch_version w) then (Poll_Ready (Ok tt), load_version w)
  else if Watch_closed w then (Poll_Ready (Err mkRecvError), rx)
  else (Poll_Pending, rx).

(** [wait_until] on the states of the channel at which the task runs.  At the
    first state, and at each state with a version that is not seen, the
    condition is checked; a second check at the same state does not differ. *)
Fixpoint wait_loop (cond : T → bool) (waiting : bool) (rx : WatchReceiver) (ws : list Watch) :
    Poll (result T RecvError) :=
  match ws with
  | [] => Poll_Pending
  | w :: ws =>
      if negb waiting || (seen_version rx <? Watch_version w) then
        if cond (borrow_watched w) then Poll_Ready (Ok (borrow_watched w))
        else if Watch_closed w then Poll_Ready (Err mkRecvError)
        else wait_loop cond true (mkWatchReceiver (Watch_version w)) ws
      else if Watch_closed w then Poll_Ready (Err mkRecvError)
      else wait_loop cond true rx ws
  end.
Definition wait_until (cond : T → bool) (rx : WatchReceiver) (ws : list Watch) : Poll (result T RecvError) :=
  wait_loop cond false rx ws.
Definition wait_until_ge `{!PartialOrd T} (value : T) (rx : WatchReceiver) (ws : list Watch) :
    Poll (result T RecvError) :=
  wait_until (λ current, pgeb current value) rx ws.

(** ** Waiting *)

(** The states of one channel in the order of time. *)
Definition watch_le (w w' : Watch) : Prop :=
  (Watch_version w ≤ Watch_version w')%N ∧
  (Watch_version w = Watch_version w' → Watch_value w = Watch_value w').

Lemma wait_loop_spec cond waiting rx ws :
  (waiting = true → ∀ w, w ∈ ws → (seen_version rx ≤ Watch_version w)%N ∧
    (seen_version rx = Watch_version w → cond (Watch_value w) = false)) →
  StronglySorted watch_le ws →
  match wait_loop cond waiting rx ws with
  | Poll_Ready (Ok v) => ∃ pre w post, ws = pre ++ w :: post ∧ v = Watch_value w ∧ cond v = true ∧
      Forall (λ w, cond (Watch_value w) = false ∧ Watch_closed w = false) pre
  | Poll_Ready (Err _) => ∃ pre w post, ws = pre ++ w :: post ∧ Watch_closed w = true ∧
      Forall (λ w, cond (Watch_value w) = false) (pre ++ [w])
  | Poll_Pending => Forall (λ w, cond (Watch_value w) = false ∧ Watch_closed w = false) ws
  end.
Proof.
  revert waiting rx. induction ws as [|w ws IH]; intros waiting rx Hseen Hs; cbn; [done|].
  inversion Hs as [|? ? Hs' Hw]; subst. rewrite Forall_forall in Hw.
  assert (negb waiting || (seen_version rx <? Watch_version w) = false → cond (Watch_value w) = false) as Hfalse.
  { intros [Hw1 Hlt]%orb_false_iff. destruct waiting; [|done]. rewrite ltb_false, N_ord_le in Hlt.
    destruct (Hseen eq_refl w ltac:(by left)) as [Hle Heq]. apply Heq. lia. }
  assert (∀ rx', (seen_version rx' ≤ Watch_version w)%N → cond (Watch_value w) = false →
    Watch_closed w = false → (seen_version rx' = Watch_version w ∨ ∀ w', w' ∈ w :: ws →
      seen_version rx' = Watch_version w' → cond (Watch_value w') = false) →
    match wait_loop cond true rx' ws with
    | Poll_Ready (Ok v) => ∃ pre w0 post, w :: ws = pre ++ w0 :: post ∧ v = Watch_value w0 ∧ cond v = true ∧
        Forall (λ w, cond (Watch_value w) = false ∧ Watch_closed w = false) pre
    | Poll_Ready (Err _) => ∃ pre w0 post, w :: ws = pre ++ w0 :: post ∧ Watch_closed w0 = true ∧
        Forall (λ w, cond (Watch_value w) = false) (pre ++ [w0])
    | Poll_Pending => Forall (λ w, cond (Watch_value w) = false ∧ Watch_closed w = false) (w :: ws)
    end) as Hgo.
  { intros rx' Hle Hc Hcl Hor.
    assert (true = true → ∀ w', w' ∈ ws → (seen_version rx' ≤ Watch_version w')%N ∧
      (seen_version rx' = Watch_version w' → cond (Watch_value w') = false)) as Hpre.
    { intros _ w' Hw'. destruct (Hw w' Hw') as [Hv Heq]. split; [lia|]. intros Hsv.
      destruct Hor as [Hor|Hor]; [rewrite <- Heq; [done|lia]|]. apply Hor; [by right|done]. }
    specialize (IH true rx' Hpre Hs'). destruct (wait_loop cond true rx' ws) as [[v|e]|].
    - destruct IH as (pre & w0 & post & -> & -> & Hcv & Hf). exists (w :: pre), w0, post. split; [done|].
      split; [done|]. split; [done|]. by constructor.
    - destruct IH as (pre & w0 & post & -> & Hcl0 & Hf). exists (w :: pre), w0, post. split; [done|].
      split; [done|]. by constructor.
    - by constructor. }
  destruct (negb waiting || _) eqn:E.
  - unfold borrow_watched. destruct (cond (Watch_value w)) eqn:Ec.
    + exists [], w, ws. done.
    + destruct (Watch_closed w) eqn:Ecl.
      * exists [], w, ws. split; [done|]. split; [done|]. by repeat constructor.
      * apply Hgo; [done|done|done|]. by left.
  - specialize (Hfalse eq_refl). apply orb_false_iff in E as [Hw1 Hlt]. destruct waiting; [|done].
    destruct (Watch_closed w) eqn:Ecl.
    + exists [], w, ws. split; [done|]. split; [done|]. by repeat constructor.
    + destruct (Hseen eq_refl w ltac:(by left)) as [Hle _]. apply Hgo; [done|done|done|]. right.
      intros w' Hw'. by apply (Hseen eq_refl w' Hw').
Qed.
End watch.

(** ** The channel with senders and a receiver at once

    The task of one receiver, with any number of senders: *)
Section interleaved.
Context {T : Type}.

(** Where the receiver is: between its operations; in a poll of [changed], behind
    the first read of the version, behind that of [closed], and then under the lock
    of the wakers; waiting; with a result that is not yet taken; told of a change
    that it has not read; in [borrow_and_update], behind the load of the version. *)
Inductive Phase :=
| Phase_Idle
| Phase_Checked
| Phase_Open
| Phase_Locked
| Phase_LockedChecked
| Phase_LockedOpen
| Phase_Parked
| Phase_Ready (r : result unit RecvError)
| Phase_Changed
| Phase_Loaded.

Definition holds_wakers (p : Phase) : bool :=
  match p with Phase_Locked | Phase_LockedChecked | Phase_LockedOpen => true | _ => false end.

(** [Shared::wakers], as far as the receiver is concerned: the calls of
    [wake_all_wakers] that still have to drain the map; the wakers of the receiver
    that were drained and still have to be called; whether its waker is in the
    map; and whether it has been woken since it was last polled. *)
Record Wakes := mkWakes {
  wakes_due : nat;
  wakes_drained : nat;
  wakes_registered : bool;
  wakes_woken : bool;
}.
Definition wake_all_due (k : Wakes) : Wakes :=
  mkWakes (S (wakes_due k)) (wakes_drained k) (wakes_registered k) (wakes_woken k).
Definition drain_wakers (k : Wakes) : Wakes :=
  mkWakes (pred (wakes_due k)) (if wakes_registered k then S (wakes_drained k) else wakes_drained k) false (wakes_woken k).
Definition call_waker (k : Wakes) : Wakes :=
  mkWakes (wakes_due k) (pred (wakes_drained k)) (wakes_registered k) true.
Definition set_registered (k : Wakes) (b : bool) : Wakes :=
  mkWakes (wakes_due k) (wakes_drained k) b (wakes_woken k).
Definition set_polled (k : Wakes) : Wakes :=
  mkWakes (wakes_due k) (wakes_drained k) (wakes_registered k) false.

(** The receiver: [reader_got] is the value it has read last, which was the
    [reader_read]th of the channel. *)
Record Reader := mkReader {
  reader_phase : Phase;
  reader_rx : WatchReceiver;
  reader_got : T;
  reader_read : N;
}.
Definition set_phase (r : Reader) (p : Phase) : Reader := mkReader p (reader_rx r) (reader_got r) (reader_read r).

(** [sys_writing] tells that a sender is between the value and the version, and
    [sys_writes] counts the values that were written. *)
Record Sys := mkSys {
  sys_chan : Watch (T := T);
  sys_writing : bool;
  sys_writes : N;
  sys_wakes : Wakes;
  sys_reader : Reader;
}.

Definition sys_init (v : T) : Sys :=
  mkSys (channel v).1 false 1 (mkWakes 0 0 false false) (mkReader Phase_Idle (channel v).2 v 1).

(** [send], and [send_if_modified] with a closure that modifies: the value and
    the version, under the write lock, then [wake_all_wakers], which drains the
    wakers under their lock and calls each.  The last sender closes the channel
    when it is dropped. *)
Inductive sender_step : Sys → Sys → Prop :=
| step_write v c n k r : Watch_tx_count c ≠ 0%N →
    sender_step (mkSys c false n k r) (mkSys (write_value c v) true (n + 1) k r)
| step_bump c n k r : sender_step (mkSys c true n k r) (mkSys (bump_version c) false n (wake_all_due k) r)
| step_drain c b n k r : wakes_due k ≠ 0 → holds_wakers (reader_phase r) = false →
    sender_step (mkSys c b n k r) (mkSys c b n (drain_wakers k) r)
| step_wake c b n k r : wakes_drained k ≠ 0 → sender_step (mkSys c b n k r) (mkSys c b n (call_waker k) r)
| step_clone c b n k r : Watch_tx_count c ≠ 0%N → sender_step (mkSys c b n k r) (mkSys (sender_clone c) b n k r)
| step_drop c b n k r : Watch_tx_count c ≠ 0%N →
    sender_step (mkSys c b n k r)
      (mkSys (sender_drop c) b n (if decide (Watch_tx_count c = 1%N) then wake_all_due k else k) r).

(** The check of the version in a poll; [next] is where it goes on. *)
Definition check_version (c : Watch (T := T)) (r : Reader) (next : Phase) : Reader :=
  if (seen_version (reader_rx r) <? Watch_version c)
  then mkReader (Phase_Ready (Ok tt)) (load_version c) (reader_got r) (reader_read r)
  else set_phase r next.
Definition check_closed (c : Watch (T := T)) (r : Reader) (next : Phase) : Reader :=
  set_phase r (if Watch_closed c then Phase_Ready (Err mkRecvError) else next).

(** A poll of [changed], which may also happen without a wake-up, and the drop of
    the future, when it is ready or while it waits. *)
Inductive poll_step : Sys → Sys → Prop :=
| step_poll c b n k r : reader_phase r = Phase_Idle ∨ reader_phase r = Phase_Parked →
    poll_step (mkSys c b n k r) (mkSys c b n (set_polled k) (check_version c r Phase_Checked))
| step_closed c b n k r : reader_phase r = Phase_Checked →
    poll_step (mkSys c b n k r) (mkSys c b n k (check_closed c r Phase_Open))
| step_lock c b n k r : reader_phase r = Phase_Open →
    poll_step (mkSys c b n k r) (mkSys c b n k (set_phase r Phase_Locked))
| step_version_again c b n k r : reader_phase r = Phase_Locked →
    poll_step (mkSys c b n k r) (mkSys c b n k (check_version c r Phase_LockedChecked))
| step_closed_again c b n k r : reader_phase r = Phase_LockedChecked →
    poll_step (mkSys c b n k r) (mkSys c b n k (check_closed c r Phase_LockedOpen))
| step_insert c b n k r : reader_phase r = Phase_LockedOpen →
    poll_step (mkSys c b n k r) (mkSys c b n (set_registered k true) (set_phase r Phase_Parked))
| step_take c b n k r res : reader_phase r = Phase_Ready res →
    poll_step (mkSys c b n k r)
      (mkSys c b n (set_registered k false) (set_phase r match res with Ok _ => Phase_Changed | Err _ => Phase_Idle end))
| step_cancel c b n k r : reader_phase r = Phase_Parked →
    poll_step (mkSys c b n k r) (mkSys c b n (set_registered k false) (set_phase r Phase_Idle)).

(** [borrow_and_update]: the version without a lock, then the value under the
    read lock; and [borrow_watched], the value only. *)
Inductive read_step : Sys → Sys → Prop :=
| step_load c b n k r : reader_phase r = Phase_Idle ∨ reader_phase r = Phase_Changed →
    read_step (mkSys c b n k r) (mkSys c b n k (mkReader Phase_Loaded (load_version c) (reader_got r) (reader_read r)))
| step_read c n k r : reader_phase r = Phase_Idle ∨ reader_phase r = Phase_Changed ∨ reader_phase r = Phase_Loaded →
    read_step (mkSys c false n k r) (mkSys c false n k (mkReader Phase_Idle (reader_rx r) (borrow_watched c) n)).

Definition sys_step (s s' : Sys) : Prop := sender_step s s' ∨ poll_step s s' ∨ read_step s s'.

Definition sys_reachable (v : T) (s : Sys) : Prop := rtc sys_step (sys_init v) s.

(** A wake-up of the receiver is under way. *)
Definition waking (k : Wakes) : Prop := wakes_drained k ≠ 0 ∨ wakes_woken k = true.

(** The receiver has read all that it was told of. *)
Definition settled (p : Phase) : Prop :=
  match p with Phase_Changed | Phase_Loaded | Phase_Ready (Ok _) => False | _ => True end.

Record sys_inv (s : Sys) (c := sys_chan s) (k := sys_wakes s) (r := sys_reader s)
    (fresh := (Watch_version c ≤ seen_version (reader_rx r))%N) : Prop := {
  inv_version : Watch_version c = if sys_writing s then (sys_writes s - 1)%N else sys_writes s;
  inv_writes : (1 ≤ sys_writes s)%N;
  inv_seen : (seen_version (reader_rx r) ≤ Watch_version c)%N;
  inv_settled : settled (reader_phase r) → (seen_version (reader_rx r) ≤ reader_read r)%N;
  inv_read : (reader_read r ≤ sys_writes s)%N;
  inv_got : reader_read r = sys_writes s → reader_got r = Watch_value c;
  inv_wake :
    match reader_phase r with
    | Phase_LockedChecked => wakes_due k ≠ 0 ∨ fresh
    | Phase_LockedOpen => wakes_due k ≠ 0 ∨ fresh ∧ Watch_closed c = false
    | Phase_Parked => waking k ∨ wakes_registered k = true ∧ (wakes_due k ≠ 0 ∨ fresh ∧ Watch_closed c = false)
    | _ => True
    end;
}.

Lemma sys_inv_init v : sys_inv (sys_init v).
Proof. split; cbn; (done || lia). Qed.

Lemma send_inv s s' : (sys_writes s' < u64_modulus)%N → sys_inv s → sender_step s s' → sys_inv s'.
Proof.
  intros Hb Hinv. destruct 1 as [v c n k r|c n k r|c b n k r Hd Hh|c b n k r Hd|c b n k r|c b n k r];
    destruct Hinv as [Hv Hw Hs Hi Hr Hg Hk]; cbn in *.
  - split; cbn; try (done || lia).
  - assert (u64_add (Watch_version c) 1 = n) as Hbump by (rewrite u64_add_small; lia).
    split; cbn; rewrite ?Hbump; try (done || lia).
    + destruct (reader_phase r); auto. destruct Hk as [?|[? _]]; [by left|right]. split; [done|by left].
  - split; cbn; try done. destruct (reader_phase r); try done. unfold waking in *. cbn.
    left. destruct Hk as [[?|?]|[-> _]]; [left|by right|by left]. by destruct (wakes_registered k).
  - split; cbn; try done. destruct (reader_phase r); try done. left. by right.
  - by split.
  - destruct (decide (Watch_tx_count c = 1%N)) as [Htx|Htx].
    + split; cbn; try done. destruct (reader_phase r); auto. destruct Hk as [?|[? _]]; [by left|right].
      split; [done|by left].
    + split; cbn; try done. by rewrite decide_False.
Qed.

Lemma check_version_inv c b n k k' r next :
  sys_inv (mkSys c b n k r) → settled (reader_phase r) → settled next →
  ((Watch_version c ≤ seen_version (reader_rx r))%N → match next with
    | Phase_LockedOpen | Phase_Parked => False | _ => True end) →
  sys_inv (mkSys c b n k' (check_version c r next)).
Proof.
  intros [Hv Hw Hs Hi Hr Hg Hk] Hset Hset' Hn. unfold check_version. cbn in *.
  destruct (seen_version (reader_rx r) <? Watch_version c) eqn:E; split; cbn; try done; [auto|].
  rewrite ltb_false, N_ord_le in E. specialize (Hn E). destruct next; try done. by right.
Qed.

Lemma poll_inv s s' : sys_inv s → poll_step s s' → sys_inv s'.
Proof.
  intros Hinv. destruct 1 as [c b n k r Hp|c b n k r Hp|c b n k r Hp|c b n k r Hp|c b n k r Hp|c b n k r Hp|c b n k r res Hp|c b n k r Hp].
  - eapply check_version_inv; [exact Hinv| |exact I|exact (λ _, I)]. by destruct Hp as [-> | ->].
  - destruct Hinv as [Hv Hw Hs Hi Hr Hg Hk]. cbn in *. rewrite Hp in *.
    split; cbn; try done; by destruct (Watch_closed c); auto.
  - destruct Hinv as [Hv Hw Hs Hi Hr Hg Hk]. cbn in *. rewrite Hp in *. by split.
  - eapply check_version_inv; [exact Hinv| |exact I|exact (λ _, I)]. by rewrite Hp.
  - destruct Hinv as [Hv Hw Hs Hi Hr Hg Hk]. cbn in *. rewrite Hp in *.
    unfold check_closed. destruct (Watch_closed c) eqn:Ec; split; cbn; try done. destruct Hk; [by left|by right].
  - destruct Hinv as [Hv Hw Hs Hi Hr Hg Hk]. cbn in *. rewrite Hp in *. split; cbn; try done. right. by split.
  - destruct Hinv as [Hv Hw Hs Hi Hr Hg Hk]. cbn in *. rewrite Hp in *. by destruct res; split.
  - destruct Hinv as [Hv Hw Hs Hi Hr Hg Hk]. cbn in *. rewrite Hp in *. by split.
Qed.

Lemma read_inv s s' : sys_inv s → read_step s s' → sys_inv s'.
Proof.
  intros [Hv Hw Hs Hi Hr Hg Hk]. destruct 1 as [c b n k r Hp|c n k r Hp]; cbn in *; split; cbn; try (done || lia).
Qed.

Lemma sys_writes_mono s s' : sys_step s s' → (sys_writes s ≤ sys_writes s')%N.
Proof. intros [H|[H|H]]; destruct H; cbn; lia. Qed.

Lemma sys_inv_reachable v s : sys_reachable v s → (sys_writes s < u64_modulus)%N → sys_inv s.
Proof.
  intros Hr. refine (rtc_ind_r (λ s, _ → sys_inv s) _ (λ _, sys_inv_init v) _ s Hr).
  intros s1 s2 _ Hstep IH Hb. pose proof (sys_writes_mono _ _ Hstep). specialize (IH ltac:(lia)).
  destruct Hstep as [Hs|[Hs|Hs]]; [by eapply send_inv|by eapply poll_inv|by eapply read_inv].
Qed.

(** C36: no update of a watch channel is lost, and no wake-up: however the steps of
    senders and of a receiver that reads after each announced change are
    interleaved, as long as fewer than 2^64 values are sent (the version does not
    wrap around) and whenever no sender holds the write lock, a receiver between
    its operations has read the value that was sent last, or [changed] is ready at
    once; and a receiver that waits in [changed], with no wake-up of it under way,
    has read the value that was sent last, and a sender is left. *)
Theorem watch_no_lost_update v s :
  sys_reachable v s → (sys_writes s < u64_modulus)%N → sys_writing s = false →
  let c := sys_chan s in let k := sys_wakes s in let r := sys_reader s in
  (reader_phase r = Phase_Idle →
    reader_got r = borrow_watched c ∨ (changed c (reader_rx r)).1 = Poll_Ready (Ok tt)) ∧
  (reader_phase r = Phase_Parked → wakes_due k = 0 → wakes_drained k = 0 → wakes_woken k = false →
    reader_got r = borrow_watched c ∧ Watch_closed c = false).
Proof.
  intros Hr Hb Hl. destruct (sys_inv_reachable v s Hr Hb) as [Hv Hw Hs Hi Hrd Hg Hk].
  cbn zeta in *. rewrite Hl in Hv. split.
  - intros Hp. rewrite Hp in Hi. specialize (Hi I). unfold changed.
    destruct (_ <? _) eqn:E; [by right|left]. rewrite ltb_false, N_ord_le in E. apply Hg. lia.
  - intros Hp Hd Hdr Hwk. rewrite Hp in Hi, Hk. specialize (Hi I).
    destruct Hk as [[?|?]|(_ & [?|(Hf & Hcl)])]; [congruence..|]. split; [|done]. apply Hg. lia.
Qed.

(** The operations that are one step elsewhere are runs of these steps with
    nothing in between. *)
Lemma send_steps c n k r v c' : Watch_tx_count c ≠ 0%N → send c v = Ok c' →
  rtc sys_step (mkSys c false n k r) (mkSys c' false (n + 1) (wake_all_due k) r).
Proof.
  intros Htx. unfold send. case_decide; [done|]. intros [= <-].
  eapply rtc_l; [left; by apply (step_write v)|]. apply rtc_once. left. apply step_bump.
Qed.

Lemma borrow_and_update_steps c n k r : reader_phase r = Phase_Idle →
  let '(x, rx) := borrow_and_update c (reader_rx r) in
  rtc sys_step (mkSys c false n k r) (mkSys c false n k (mkReader Phase_Idle rx x n)).
Proof.
  intros Hp. cbn. eapply rtc_l; [right; right; apply step_load; by left|]. apply rtc_once. right. right.
  apply (step_read c n k (mkReader Phase_Loaded (load_version c) (reader_got r) (reader_read r))). cbn. auto.
Qed.

Lemma changed_steps c b n k r : reader_phase r = Phase_Idle ∨ reader_phase r = Phase_Parked →
  let '(p, rx) := changed c (reader_rx r) in
  ∃ k', rtc sys_step (mkSys c b n k r) (mkSys c b n k' (mkReader
    match p with Poll_Ready res => Phase_Ready res | Poll_Pending => Phase_Parked end rx (reader_got r) (reader_read r))).
Proof.
  intros Hp. pose proof (step_poll c b n k r Hp) as Hpoll. unfold changed, check_version in *.
  destruct (_ <? _) eqn:E; [eexists; apply rtc_once; right; left; exact Hpoll|].
  pose proof (step_closed c b n (set_polled k) (set_phase r Phase_Checked) eq_refl) as Hclosed. unfold check_closed in Hclosed.
  destruct (Watch_closed c) eqn:Ec.
  { eexists. eapply rtc_l; [right; left; exact Hpoll|]. apply rtc_once. right. left. exact Hclosed. }
  eexists. eapply rtc_l; [right; left; exact Hpoll|]. eapply rtc_l; [right; left; exact Hclosed|].
  eapply rtc_l; [right; left; by apply step_lock|].
  eapply rtc_l; [right; left; by apply step_version_again|]. unfold check_version. cbn [reader_rx set_phase]. rewrite E.
  eapply rtc_l; [right; left; by apply step_closed_again|]. unfold check_closed. rewrite Ec.
  apply rtc_once. right. left. by apply step_insert.
Qed.

(** An update can be announced twice: [borrow_and_update] can read the value of a
    send whose version it did not load, and [changed] is then ready for that
    value. *)
Lemma watch_announced_twice (v v' : T) :
  ∃ s, sys_reachable v s ∧ reader_phase (sys_reader s) = Phase_Idle ∧ sys_writing s = false ∧
    reader_got (sys_reader s) = v' ∧ reader_read (sys_reader s) = sys_writes s ∧ Watch_value (sys_chan s) = v' ∧
    (changed (sys_chan s) (reader_rx (sys_reader s))).1 = Poll_Ready (Ok tt).
Proof.
  eexists. split.
  - unfold sys_reachable. eapply rtc_l; [left; by apply (step_write v')|]. eapply rtc_l; [right; right; apply step_load; by left|].
    eapply rtc_l; [left; by apply step_bump|]. apply rtc_once. right. right. apply step_read. by right; right.
  - by split_and!.
Qed.

(** The last value may not be announced: [changed] reads the version before
    [closed], so a value that is sent in between, by a sender that is then
    dropped, ends the wait with an error. *)
Lemma watch_closed_hides_value (v v' : T) :
  ∃ s, sys_reachable v s ∧ reader_phase (sys_reader s) = Phase_Ready (Err mkRecvError) ∧
    Watch_value (sys_chan s) = v' ∧ reader_got (sys_reader s) = v ∧
    (seen_version (reader_rx (sys_reader s)) < Watch_version (sys_chan s))%N.
Proof.
  eexists. split.
  - unfold sys_reachable. eapply rtc_l; [right; left; apply step_poll; by left|].
    eapply rtc_l; [left; by apply (step_write v')|]. eapply rtc_l; [left; by apply step_bump|].
    eapply rtc_l; [left; by apply step_drop|]. apply rtc_once. right. left. by apply step_closed.
  - by split_and!.
Qed.
End interleaved.

(** A wait is not missed: on the states of a channel in the order of time, a
    wait returns the first value that satisfies the condition unless the channel
    is closed before, fails only on a closed channel without such a value, and
    otherwise is still waiting. *)
Theorem wait_until_spec {T} (cond : T → bool) rx ws :
  StronglySorted watch_le ws →
  match wait_until cond rx ws with
  | Poll_Ready (Ok v) => ∃ pre w post, ws = pre ++ w :: post ∧ v = Watch_value w ∧ cond v = true ∧
      Forall (λ w, cond (Watch_value w) = false ∧ Watch_closed w = false) pre
  | Poll_Ready (Err _) => ∃ pre w post, ws = pre ++ w :: post ∧ Watch_closed w = true ∧
      Forall (λ w, cond (Watch_value w) = false) (pre ++ [w])
  | Poll_Pending => Forall (λ w, cond (Watch_value w) = false ∧ Watch_closed w = false) ws
  end.
Proof. by apply wait_loop_spec. Qed.

Module WatchWitness.
(** A receiver that waits is woken by a send. *)
Definition waiting : Reader := mkReader Phase_Parked (mkWatchReceiver 1) 10%N 1.
Lemma waits_reachable :
  sys_reachable 10%N (mkSys (channel 10%N).1 false 1 (mkWakes 0 0 true false) waiting).
Proof.
  unfold sys_reachable. eapply rtc_l; [right; left; apply step_poll; by left|].
  eapply rtc_l; [right; left; by apply step_closed|]. eapply rtc_l; [right; left; by apply step_lock|].
  eapply rtc_l; [right; left; by apply step_version_again|]. eapply rtc_l; [right; left; by apply step_closed_again|].
  apply rtc_once. right. left. by apply step_insert.
Qed.

Lemma watch_no_lost_update_witness :
  (∃ s, sys_reachable 10%N s ∧ reader_phase (sys_reader s) = Phase_Idle ∧
    (reader_got (sys_reader s) = borrow_watched (sys_chan s) ∨
     (changed (sys_chan s) (reader_rx (sys_reader s))).1 = Poll_Ready (Ok tt))) ∧
  reader_got waiting = 10%N.
Proof.
  split.
  - exists (sys_init 10%N). split; [apply rtc_refl|]. split; [done|].
    by apply (watch_no_lost_update 10%N (sys_init 10%N)); [apply rtc_refl| | |].
  - by destruct (proj2 (watch_no_lost_update _ _ waits_reachable eq_refl eq_refl) eq_refl eq_refl eq_refl eq_refl).
Defined.

Definition states : list Watch :=
  [mkWatch 0%N 1 false 1 1; mkWatch 5%N 2 false 1 1; mkWatch 5%N 2 false 1 1; mkWatch 12%N 4 false 1 1].
Lemma wait_until_spec_witness :
  wait_until (N.leb 8) (mkWatchReceiver 1) states = Poll_Ready (Ok 12%N) ∧
  ∃ pre w post, states = pre ++ w :: post ∧ 12%N = Watch_value w.
Proof.
  split; [done|]. pose proof (wait_until_spec (N.leb 8) (mkWatchReceiver 1) states) as H.
  cbn in H. destruct H as (pre & w & post & Hs & Hv & _); [by repeat constructor|by exists pre, w, post].
Defined.
End WatchWitness.
