(* ===== verification/Heartbeat.v ===== *)
(** * Heartbeat workers

    [core/heartbeat/worker.rs] and [core/heartbeat/errors.rs]: the task of a
    leader that sends heartbeats to one target and reports the answers.  The
    events it waits for come from the runtime ([CoreRun.broadcast]); the
    answers are those of a follower ([EngineImpl.append_entries]). *)

From S2P Require Import Prelude Vote LogId LogIdList Quorum Membership VecProgress IOState.
From S2P Require Import MembershipState Entry RaftState Config ProgressEntry Proposer Command.
From S2P Require Import Engine Replication Following LeaderHandler VoteHandler EngineImpl.
From S2P Require Import VoteSafety Cluster ReadQueue CoreHelpers Wire Core.

(** [Stopped], with [RaftCoreClosed] *)
Inductive Stopped := Stopped_ReceivedShutdown | Stopped_RaftCoreClosed.

Section heartbeat.
Context {C : RaftTypeConfig} `{!StoreEnv}.

Record HeartbeatWorker := mkHeartbeatWorker {
  HeartbeatWorker_leader_vote : CommittedVote;
  HeartbeatWorker_stream_id : u64;
  HeartbeatWorker_target : u64;
}.
Implicit Types (hw : HeartbeatWorker) (hb : HeartbeatEvent).

(** The channel to the runtime: what was sent, and how many sends it accepts
    before it is closed. *)
Record NotifyChannel := mkNotifyChannel {
  NotifyChannel_sent : list Notification;
  NotifyChannel_room : nat;
}.

Definition send_notification (ch : NotifyChannel) (n : Notification) : NotifyChannel * result unit Stopped :=
  match NotifyChannel_room ch with
  | O => (ch, Err Stopped_RaftCoreClosed)
  | S room => (mkNotifyChannel (NotifyChannel_sent ch ++ [n]) room, Ok tt)
  end.

Definition send_heartbeat_progress hw (ch : NotifyChannel) hb : NotifyChannel * result unit Stopped :=
  send_notification ch (Notification_HeartbeatProgress (HeartbeatWorker_stream_id hw)
    (HeartbeatEvent_time hb) (HeartbeatWorker_target hw)).

(** [handle_stream_result]: a conflict without a previous log id panics. *)
Definition handle_stream_result hw (ch : NotifyChannel) (res : StreamAppendResult) hb :
    outcome (NotifyChannel * result unit Stopped) :=
  match res with
  | Ok _ => Ret (send_heartbeat_progress hw ch hb)
  | Err (StreamAppendError_HigherVote vote) =>
      Ret (send_notification ch
        (Notification_HigherVote (HeartbeatWorker_target hw) vote (HeartbeatWorker_leader_vote hw)))
  | Err (StreamAppendError_Conflict _) =>
      conflict_log_id ← unwrap (HeartbeatEvent_matching hb);
      let '(ch, r) := send_notification ch
        (Notification_ReplicationProgress (HeartbeatWorker_stream_id hw) (HeartbeatWorker_target hw)
          (Some (Err conflict_log_id)) None) in
      match r with
      | Ok _ => Ret (send_heartbeat_progress hw ch hb)
      | Err e => Ret (ch, Err e)
      end
  end.

Definition heartbeat_request hw hb : AppendEntriesRequest :=
  mkAppendEntriesRequest (CommittedVote_into_vote (HeartbeatWorker_leader_vote hw))
    (HeartbeatEvent_matching hb) [] (HeartbeatEvent_cluster_committed hb).

(** What the transport gives for a request: a timeout, an error, a stream
    without a response or a response. *)
Inductive Delivery :=
| Delivery_Timeout
| Delivery_Error (e : RPCError)
| Delivery_NoResponse
| Delivery_Response (res : StreamAppendResult).

(** One turn of the loop: shutdown, or the watched event and the delivery of
    the request for it. *)
Inductive Turn :=
| Turn_Shutdown
| Turn_Changed (latest : option HeartbeatEvent) (delivery : Delivery).

(** [do_run]: the requests sent, the channel, and why the worker stopped
    ([None] when it waits for the next turn). *)
Fixpoint do_run hw (turns : list Turn) (reqs : list AppendEntriesRequest) (ch : NotifyChannel) :
    outcome (list AppendEntriesRequest * NotifyChannel * option Stopped) :=
  match turns with
  | [] => Ret (reqs, ch, None)
  | Turn_Shutdown :: _ => Ret (reqs, ch, Some Stopped_ReceivedShutdown)
  | Turn_Changed None _ :: turns => do_run hw turns reqs ch
  | Turn_Changed (Some hb) d :: turns =>
      let reqs := reqs ++ [heartbeat_request hw hb] in
      match d with
      | Delivery_Response res =>
          x ← handle_stream_result hw ch res hb;
          let '(ch, r) := x in
          match r with
          | Ok _ => do_run hw turns reqs ch
          | Err e => Ret (reqs, ch, Some e)
          end
      | _ => do_run hw turns reqs ch
      end
  end.

(** ** The answers of a follower *)

Context `{!Env}.

(** [res] is what a node in the state [w] answers to the heartbeat. *)
Definition answered_by hw hb (w : World) (res : StreamAppendResult) : Prop :=
  ∃ r w', append_entries (CommittedVote_into_vote (HeartbeatWorker_leader_vote hw))
            (mkLogSegment (HeartbeatEvent_matching hb) []) w = Ret (r, w') ∧
    res = match r with Ok last => Ok last | Err err => Err (StreamAppendError_from err) end.

(** The node does not hold a vote that refuses the leader. *)
Definition acknowledges hw (w : World) : Prop :=
  pgeb (CommittedVote_into_vote (HeartbeatWorker_leader_vote hw)) (vote_ref (Engine_state (w_engine w))) = true.

Lemma append_entries_answer vote prev w r w' :
  append_entries vote (mkLogSegment prev []) w = Ret (r, w') →
  match r with
  | Ok _ => pgeb vote (vote_ref (Engine_state (w_engine w))) = true
  | Err (RejectAppendEntries_RejectVote _) => pgeb vote (vote_ref (Engine_state (w_engine w))) = false
  | Err (RejectAppendEntries_ConflictingLogId c) =>
      pgeb vote (vote_ref (Engine_state (w_engine w))) = true ∧ prev = Some (ConflictingLogId_expect c)
  end.
Proof.
  unfold append_entries. rewrite M_bind_eq, update_vote_eq.
  destruct (pgeb vote _) eqn:E; [|by intros [= <- <-]].
  destruct (update_internal_server_state _) as [[[] w1]|]; [|done].
  rewrite M_bind_eq, get_eq, ensure_log_consecutive_missing. cbn [LogSegment_prev_log_id].
  destruct (missing_prev _ prev) as [p|] eqn:Hm; m_steps; intros [= <- <-]; [|done].
  split; [done|]. destruct prev as [q|]; [|done]. cbn in Hm. by case_match; simplify_eq.
Qed.

Lemma answered_by_spec hw hb w res :
  answered_by hw hb w res →
  match res with
  | Ok _ => acknowledges hw w
  | Err (StreamAppendError_HigherVote _) => ¬ acknowledges hw w
  | Err (StreamAppendError_Conflict id) => acknowledges hw w ∧ HeartbeatEvent_matching hb = Some id
  end.
Proof.
  intros (r & w' & Hr & ->). apply append_entries_answer in Hr. unfold acknowledges.
  destruct r as [last|[e|c]]; cbn; [done| |by destruct Hr]. by rewrite Hr.
Qed.

(** What a notification of the worker stands for: a turn of the loop with an
    answer of the target. *)
Definition justified hw (turns : list Turn) (n : Notification) : Prop :=
  ∃ hb res w, Turn_Changed (Some hb) (Delivery_Response res) ∈ turns ∧ answered_by hw hb w res ∧
    match n with
    | Notification_HeartbeatProgress stream_id sending_time target =>
        stream_id = HeartbeatWorker_stream_id hw ∧ target = HeartbeatWorker_target hw ∧
        sending_time = HeartbeatEvent_time hb ∧ acknowledges hw w
    | Notification_HigherVote target higher leader_vote =>
        target = HeartbeatWorker_target hw ∧ leader_vote = HeartbeatWorker_leader_vote hw ∧
        res = Err (StreamAppendError_HigherVote higher) ∧ ¬ acknowledges hw w
    | Notification_ReplicationProgress stream_id target (Some (Err id)) None =>
        stream_id = HeartbeatWorker_stream_id hw ∧ target = HeartbeatWorker_target hw ∧
        res = Err (StreamAppendError_Conflict id) ∧ HeartbeatEvent_matching hb = Some id
    | _ => False
    end.

Lemma send_justified hw turns ch n :
  Forall (justified hw turns) (NotifyChannel_sent ch) → justified hw turns n →
  Forall (justified hw turns) (NotifyChannel_sent (send_notification ch n).1).
Proof.
  intros Hf Hn. unfold send_notification. destruct (NotifyChannel_room ch); cbn; [done|].
  apply Forall_app. by split; [|apply Forall_singleton].
Qed.

Lemma handle_stream_result_justified hw turns ch res hb w :
  Turn_Changed (Some hb) (Delivery_Response res) ∈ turns → answered_by hw hb w res →
  Forall (justified hw turns) (NotifyChannel_sent ch) →
  ∃ ch' r, handle_stream_result hw ch res hb = Ret (ch', r) ∧
    Forall (justified hw turns) (NotifyChannel_sent ch').
Proof.
  intros Hin Ha Hf. pose proof (answered_by_spec _ _ _ _ Ha) as Hs.
  assert (∀ ch, Forall (justified hw turns) (NotifyChannel_sent ch) → acknowledges hw w →
    Forall (justified hw turns) (NotifyChannel_sent (send_heartbeat_progress hw ch hb).1)) as Hp.
  { intros ch1 Hf1 Hk. apply send_justified; [done|]. by exists hb, res, w. }
  destruct res as [last|[id|v]]; cbn.
  - eexists _, _. rewrite <- surjective_pairing. split; [done|by apply Hp].
  - destruct Hs as [Hk Hm]. rewrite Hm. cbn.
    destruct (send_notification ch _) as [ch1 r1] eqn:E1.
    assert (Forall (justified hw turns) (NotifyChannel_sent ch1)) as Hf1.
    { change ch1 with (ch1, r1).1. rewrite <- E1. apply send_justified; [done|].
      by exists hb, (Err (StreamAppendError_Conflict id)), w. }
    destruct r1 as [[]|e]; [|by eexists _, _].
    eexists _, _. rewrite <- surjective_pairing. split; [done|by apply Hp].
  - eexists _, _. rewrite <- surjective_pairing. split; [done|].
    apply send_justified; [done|]. by exists hb, (Err (StreamAppendError_HigherVote v)), w.
Qed.

Lemma do_run_justified hw all turns reqs ch :
  (∀ tn, tn ∈ turns → tn ∈ all) →
  (∀ hb res, Turn_Changed (Some hb) (Delivery_Response res) ∈ all → ∃ w, answered_by hw hb w res) →
  Forall (justified hw all) (NotifyChannel_sent ch) →
  ∃ reqs' ch' stop, do_run hw turns reqs ch = Ret (reqs', ch', stop) ∧
    Forall (justified hw all) (NotifyChannel_sent ch').
Proof.
  revert reqs ch. induction turns as [|[|[hb|] d] turns IH]; intros reqs ch Hall Hans Hf; cbn.
  - by eexists _, _, _.
  - by eexists _, _, _.
  - assert (∀ tn, tn ∈ turns → tn ∈ all) as Hall' by (intros; apply Hall; by right).
    destruct d as [|e| |res]; try (by apply IH).
    assert (Turn_Changed (Some hb) (Delivery_Response res) ∈ all) as Hin by (apply Hall; by left).
    destruct (Hans _ _ Hin) as [w Hw].
    destruct (handle_stream_result_justified _ _ _ _ _ _ Hin Hw Hf) as (ch' & r & -> & Hf'). cbn.
    destruct r as [[]|e]; [by apply IH|by eexists _, _, _].
  - apply IH; [|done|done]. intros; apply Hall; by right.
Qed.

(** A heartbeat worker whose target answers as a follower does: it never
    panics, whatever the deliveries are and whenever the runtime closes the
    channel, and all it reports is justified by an answer: the sending time
    of a heartbeat is reported only when the target has answered that very
    heartbeat and holds no vote against the leader, a higher vote only when
    the target refused the leader with it, and a conflict only at the log id
    that the leader believed to match. *)
Theorem heartbeat_reports_justified hw turns room :
  (∀ hb res, Turn_Changed (Some hb) (Delivery_Response res) ∈ turns → ∃ w, answered_by hw hb w res) →
  ∃ reqs ch stop, do_run hw turns [] (mkNotifyChannel [] room) = Ret (reqs, ch, stop) ∧
    Forall (justified hw turns) (NotifyChannel_sent ch).
Proof. intros Hans. by apply do_run_justified. Qed.
End heartbeat.

Module HeartbeatWitness.
#[local] Existing Instance adv_config.
Import LogIdListWitness EngineImplWitness.
#[local] Existing Instance VoteHandlerWitness.env.
#[local] Instance store : StoreEnv := {| StorageError := unit; storage_error _ := None |}.

Definition worker : HeartbeatWorker :=
  mkHeartbeatWorker (Vote_to_committed (Vote_new_committed (C := adv_config) 3 1)) 7 2.
Definition event (t : Instant) (matching : option LogId) : HeartbeatEvent := mkHeartbeatEvent t matching None.
Definition answer (hb : HeartbeatEvent) : StreamAppendResult :=
  match append_entries (CommittedVote_into_vote (HeartbeatWorker_leader_vote worker))
          (mkLogSegment (HeartbeatEvent_matching hb) []) world0 with
  | Ret (Ok last, _) => Ok last
  | Ret (Err err, _) => Err (StreamAppendError_from err)
  | Panic => Ok None
  end.

(** An answer, a timeout, a log id that the target has lost, and shutdown. *)
Definition turns : list Turn :=
  let hb1 := event 100 (Some (lid 1 1 3)) in
  let hb3 := event 300 (Some (lid 3 1 99)) in
  [Turn_Changed None Delivery_Timeout; Turn_Changed (Some hb1) (Delivery_Response (answer hb1));
   Turn_Changed (Some (event 200 None)) Delivery_Timeout;
   Turn_Changed (Some hb3) (Delivery_Response (answer hb3)); Turn_Shutdown].

Lemma heartbeat_reports_justified_witness :
  ∃ reqs ch stop, do_run worker turns [] (mkNotifyChannel [] 10) = Ret (reqs, ch, stop) ∧
    Forall (justified worker turns) (NotifyChannel_sent ch) ∧
    NotifyChannel_sent ch = [Notification_HeartbeatProgress 7 100 2;
      Notification_ReplicationProgress 7 2 (Some (Err (lid 3 1 99))) None;
      Notification_HeartbeatProgress 7 300 2].
Proof.
  destruct (heartbeat_reports_justified worker turns 10) as (reqs & ch & stop & Hrun & Hf).
  - intros hb res Hin. exists world0. unfold turns in Hin.
    repeat (apply elem_of_cons in Hin as [Hin|Hin]; [try discriminate Hin|]); [| |by apply not_elem_of_nil in Hin];
      injection Hin as -> ->; unfold answered_by; vm_compute; by eexists _, _.
  - exists reqs, ch, stop. split; [exact Hrun|]. split; [exact Hf|].
    vm_compute in Hrun. by injection Hrun as <- <- <-.
Defined.
End HeartbeatWitness.
