(* ===== verification/Metrics.v ===== *)
(** * Completion of I/O, flush progress and metrics

    [storage/callback.rs], [raft_state/io_state/io_id.rs],
    [core/io_flush_tracking/], [core/metrics_channels.rs],
    [metrics/raft_metrics.rs], [metrics/recorder.rs] and the reports of
    [core/raft_core.rs]: how the completion of I/O reaches the runtime, and
    what the runtime tells observers of its state, through watch channels. *)

From S2P Require Import Prelude Vote LogId LogIdList Quorum Membership VecProgress IOState.
From S2P Require Import MembershipState Entry RaftState Config ProgressEntry Proposer Command.
From S2P Require Import Engine Replication Following LeaderHandler VoteHandler EngineImpl.
From S2P Require Import VoteSafety Cluster ReadQueue CoreHelpers Wire Core CoreHandlers.
From S2P Require Import Storage Watch.

(** ** Completion callbacks *)
Section completion.
Context {C : RaftTypeConfig} {E : Type}.

Definition IOId_subject (i : IOId) : ErrorSubject :=
  match i with
  | IOId_Vote _ => ErrorSubject_Vote
  | IOId_Log l =>
      match LogIOId_log_id l with
      | Some log_id => ErrorSubject_Log log_id
      | None => ErrorSubject_Logs
      end
  end.
Definition IOId_verb (i : IOId) : ErrorVerb := ErrorVerb_Write.

Definition make_storage_error (i : IOId) (e : E) : Storage.StorageError E :=
  mkStorageError (IOId_subject i) (IOId_verb i) (inl e).

(** The watched result of the I/O. *)
#[local] Abbreviation Flushed := (result IOId (Storage.StorageError E)).

Inductive IOFlushed :=
| IOFlushed_Noop
| IOFlushed_Notify (io_id : IOId)
| IOFlushed_Signal (tx : Sender).

Definition is_err {A B} (r : result A B) : bool := negb (is_ok r).

(** The closure of [io_completed]: an error is kept, and so is an I/O that is
    not older than the completed one. *)
Definition completion_update (new_value current : Flushed) : option Flushed :=
  if is_err current then None
  else
    match new_value, current with
    | Ok new_io_id, Ok current_io_id =>
        if pleb new_io_id current_io_id then None else Some new_value
    | _, _ => Some new_value
    end.

(** [io_completed]: the channel after it, and what is sent to a signal. *)
Definition io_completed (cb : IOFlushed) (res : result unit E) (w : Watch (T := Flushed)) :
    Watch (T := Flushed) * option (Sender * result unit E) :=
  match cb with
  | IOFlushed_Noop => (w, None)
  | IOFlushed_Signal tx => (w, Some (tx, res))
  | IOFlushed_Notify io_id =>
      let new_value := match res with
                       | Err e => Err (make_storage_error io_id e)
                       | Ok _ => Ok io_id
                       end in
      ((send_if_modified w (completion_update new_value)).1, None)
  end.

(** The completions of a store, in the order in which they are reported. *)
Definition completions (w : Watch (T := Flushed)) (l : list (IOId * result unit E)) : Watch (T := Flushed) :=
  foldl (λ w c, (io_completed (IOFlushed_Notify c.1) c.2 w).1) w l.

(** The first failed completion. *)
Fixpoint first_failure (l : list (IOId * result unit E)) : option (IOId * E) :=
  match l with
  | [] => None
  | (i, Err e) :: _ => Some (i, e)
  | (_, Ok _) :: l => first_failure l
  end.

Context `{!RaftLeaderIdLaws C}.

Lemma completions_error w e l : Watch_value w = Err e → completions w l = w.
Proof.
  intros Hw. unfold completions. induction l as [|[i r] l IH]; [done|]. cbn.
  unfold send_if_modified, completion_update. rewrite Hw. cbn. apply IH.
Qed.

(** The completion of I/O may be reported in any order: as long as no I/O has
    failed the channel has one of the reported I/Os, and none of them, in
    whatever order they came, is after it; the first failure is kept for
    ever, with the I/O that failed, whatever is reported later. *)
Theorem completion_watermark w io0 l :
  Watch_value w = Ok io0 → (∀ i j, i ∈ io0 :: l.*1 → j ∈ io0 :: l.*1 → partial_cmp i j ≠ None) →
  match first_failure l with
  | None => ∃ io, Watch_value (completions w l) = Ok io ∧ io ∈ io0 :: l.*1 ∧
      ∀ i, i ∈ io0 :: l.*1 → pleb i io = true
  | Some (i, e) => Watch_value (completions w l) = Err (make_storage_error i e)
  end.
Proof.
  revert w io0. induction l as [|[i r] l IH]; intros w io0 Hw Hcmp.
  { exists io0. cbn. split; [done|]. split; [by left|]. intros i [->|[]%not_elem_of_nil]%elem_of_cons.
    apply pleb_refl. }
  destruct r as [[]|e].
  2: { cbn. unfold send_if_modified, completion_update. rewrite Hw. cbn.
    by rewrite (completions_error _ (make_storage_error i e)). }
  assert (∀ i', i' ∈ io0 :: l.*1 → i' ∈ io0 :: i :: l.*1) as Hsub0 by set_solver.
  assert (∀ i', i' ∈ i :: l.*1 → i' ∈ io0 :: i :: l.*1) as Hsub by set_solver.
  assert (pleb i io0 = true ∨ pleb io0 i = true) as Hor.
  { specialize (Hcmp i io0 ltac:(set_solver) ltac:(set_solver)). unfold pleb. rewrite (pcmp_flip i io0).
    destruct (partial_cmp i io0) as [[]|]; [by left|by left|by right|done]. }
  cbn [first_failure completions foldl io_completed fst snd]. unfold send_if_modified, completion_update.
  rewrite Hw. cbn. destruct (pleb i io0) eqn:Ele.
  - specialize (IH w io0 Hw). destruct (first_failure l) as [[i' e]|]; [by apply IH; auto|].
    destruct IH as (io & Hv & Hin & Hmax); [by auto|]. exists io. split; [exact Hv|]. split; [by auto|].
    intros i' Hi'. apply elem_of_cons in Hi' as [->|[->|Hi']%elem_of_cons].
    + apply Hmax. by left.
    + eapply pleb_trans; [exact Ele|]. apply Hmax. by left.
    + apply Hmax. by right.
  - destruct Hor as [Hor|Hle]; [done|].
    specialize (IH (watch_set w (Ok i)) i eq_refl).
    destruct (first_failure l) as [[i' e]|]; [by apply IH; auto|].
    destruct IH as (io & Hv & Hin & Hmax); [by auto|]. exists io. split; [exact Hv|]. split; [by auto|].
    intros i' Hi'. apply elem_of_cons in Hi' as [->|Hi']; [|by apply Hmax].
    eapply pleb_trans; [exact Hle|]. apply Hmax. by left.
Qed.
End completion.

(** ** Flush progress *)
Section progress.
Context {C : RaftTypeConfig}.

Record FlushPoint := mkFlushPoint {
  FlushPoint_vote : Vote;
  FlushPoint_last_log_id : option LogId;
}.
#[global] Instance FlushPoint_eq_dec : EqDecision FlushPoint.
Proof. solve_decision. Defined.
#[global] Instance FlushPoint_partial_ord : PartialOrd FlushPoint := λ a b,
  res ← partial_cmp (FlushPoint_vote a) (FlushPoint_vote b);
  match res with
  | Eq => partial_cmp (FlushPoint_last_log_id a) (FlushPoint_last_log_id b)
  | c => Some c
  end.

Definition IOId_to_vote_and_log_id (i : IOId) : Vote * option LogId := (IOId_to_app_vote i, IOId_last_log_id i).

Record IoProgressSender := mkIoProgressSender {
  log_tx : Watch (T := option FlushPoint);
  vote_tx : Watch (T := option Vote);
  commit_tx : Watch (T := option LogId);
  snapshot_tx : Watch (T := option LogId);
  apply_tx : Watch (T := option LogId);
}.

(** [IoProgressWatcher::new]: the sending and the watching half. *)
Record IoProgressWatcher := mkIoProgressWatcher {
  watcher_log : WatchReceiver;
  watcher_vote : WatchReceiver;
  watcher_commit : WatchReceiver;
  watcher_snapshot : WatchReceiver;
  watcher_apply : WatchReceiver;
}.
Definition IoProgressWatcher_new : IoProgressSender * IoProgressWatcher :=
  let '(log_tx, log) := channel None in
  let '(vote_tx, vote) := channel None in
  let '(commit_tx, commit) := channel None in
  let '(snapshot_tx, snapshot) := channel None in
  let '(apply_tx, apply) := channel None in
  (mkIoProgressSender log_tx vote_tx commit_tx snapshot_tx apply_tx,
   mkIoProgressWatcher log vote commit snapshot apply).

Definition send_log_progress (s : IoProgressSender) (io_id : option IOId) : IoProgressSender :=
  match io_id with
  | None => s
  | Some io_id =>
      let '(vote, log_id) := IOId_to_vote_and_log_id io_id in
      let vote_tx := (send_if_modified (vote_tx s)
        (λ prev, if decide (prev ≠ Some vote) then Some (Some vote) else None)).1 in
      let x := Some (mkFlushPoint vote log_id) in
      let log_tx := (send_if_modified (log_tx s) (λ prev, if decide (prev ≠ x) then Some x else None)).1 in
      mkIoProgressSender log_tx vote_tx (commit_tx s) (snapshot_tx s) (apply_tx s)
  end.
Definition update_log_id_progress (tx : Watch (T := option LogId)) (log_id : option LogId) :
    Watch (T := option LogId) :=
  (send_if_modified tx (λ prev, if decide (prev ≠ log_id) then Some log_id else None)).1.
Definition send_commit_progress (s : IoProgressSender) (log_id : option LogId) : IoProgressSender :=
  mkIoProgressSender (log_tx s) (vote_tx s) (update_log_id_progress (commit_tx s) log_id)
    (snapshot_tx s) (apply_tx s).
Definition send_snapshot_progress (s : IoProgressSender) (log_id : option LogId) : IoProgressSender :=
  mkIoProgressSender (log_tx s) (vote_tx s) (commit_tx s)
    (update_log_id_progress (snapshot_tx s) log_id) (apply_tx s).
Definition send_apply_progress (s : IoProgressSender) (log_id : option LogId) : IoProgressSender :=
  mkIoProgressSender (log_tx s) (vote_tx s) (commit_tx s) (snapshot_tx s)
    (update_log_id_progress (apply_tx s) log_id).

Definition flush_point (i : IOId) : FlushPoint :=
  mkFlushPoint (IOId_to_app_vote i) (IOId_last_log_id i).

(** A flush point is ordered as the I/O it stands for. *)
Lemma flush_point_order i j : partial_cmp (flush_point i) (flush_point j) = partial_cmp i j.
Proof.
  change (FlushPoint_partial_ord (flush_point i) (flush_point j) = IOId_partial_ord i j).
  unfold FlushPoint_partial_ord, IOId_partial_ord. cbn [FlushPoint_vote FlushPoint_last_log_id flush_point].
  by destruct (partial_cmp (IOId_to_app_vote i) _) as [[]|].
Qed.

(** A send of a value that may be there already. *)
Lemma send_if_modified_ne {T} `{!EqDecision T} (w : Watch (T := T)) (v : T) :
  Watch_value (send_if_modified w (λ prev, if decide (prev ≠ v) then Some v else None)).1 = v ∧
  Watch_version (send_if_modified w (λ prev, if decide (prev ≠ v) then Some v else None)).1 =
    (if decide (Watch_value w = v) then Watch_version w else u64_add (Watch_version w) 1) ∧
  Watch_rx_count (send_if_modified w (λ prev, if decide (prev ≠ v) then Some v else None)).1 =
    Watch_rx_count w.
Proof.
  unfold send_if_modified. destruct (decide (Watch_value w = v)) as [Hv|Hv].
  - rewrite decide_False by auto. done.
  - by rewrite decide_True.
Qed.
End progress.

(** ** Metrics *)
Section metrics.
Context {C : RaftTypeConfig} `{!Env, !StoreEnv}.

Inductive Fatal :=
| Fatal_StorageError (e : Core.StorageError)
| Fatal_Panicked
| Fatal_Stopped.

Record RaftDataMetrics := mkRaftDataMetrics {
  data_local_committed : option LogId;
  data_cluster_committed : option LogId;
  data_last_log : option LogId;
  data_last_applied : option LogId;
  data_snapshot : option LogId;
  data_purged : option LogId;
  data_last_quorum_acked : option Instant;
  data_replication : option (gmap N (option LogId));
  data_heartbeat : option (gmap N (option Instant));
}.
#[global] Instance RaftDataMetrics_eq_dec : EqDecision RaftDataMetrics.
Proof. solve_decision. Defined.
Definition RaftDataMetrics_default : RaftDataMetrics :=
  mkRaftDataMetrics None None None None None None None None None.

Record RaftServerMetrics := mkRaftServerMetrics {
  server_id : u64;
  server_vote : Vote;
  server_state : ServerState;
  server_current_leader : option u64;
  server_membership_config : StoredMembership;
  server_committed_membership_config : StoredMembership;
}.
#[global] Instance RaftServerMetrics_eq_dec : EqDecision RaftServerMetrics.
Proof. solve_decision. Defined.
Definition RaftServerMetrics_new_initial (id : u64) : RaftServerMetrics :=
  mkRaftServerMetrics id (Vote_new_with_default_term id) ServerState_Learner None
    StoredMembership_default StoredMembership_default.

Record RaftMetrics := mkRaftMetrics {
  metrics_running_state : result unit Fatal;
  metrics_id : u64;
  metrics_current_term : u64;
  metrics_vote : Vote;
  metrics_last_log_index : option u64;
  metrics_local_committed : option LogId;
  metrics_cluster_committed : option LogId;
  metrics_last_applied : option LogId;
  metrics_snapshot : option LogId;
  metrics_purged : option LogId;
  metrics_state : ServerState;
  metrics_current_leader : option u64;
  metrics_last_quorum_acked : option Instant;
  metrics_membership_config : StoredMembership;
  metrics_committed_membership_config : StoredMembership;
  metrics_heartbeat : option (gmap N (option Instant));
  metrics_replication : option (gmap N (option LogId));
}.
Definition RaftMetrics_new_initial (id : u64) : RaftMetrics :=
  mkRaftMetrics (Ok tt) id 0 (Vote_new_with_default_term id) None None None None None None
    ServerState_Follower None None StoredMembership_default StoredMembership_default None None.

Record MetricsChannels := mkMetricsChannels {
  all_tx : Watch (T := RaftMetrics);
  data_tx : Watch (T := RaftDataMetrics);
  server_tx : Watch (T := RaftServerMetrics);
  progress_tx : IoProgressSender;
}.

(** ** [report_metrics] *)

Definition RaftCore_last_quorum_acked_time (c : RaftCore) : option Instant :=
  l ← Engine_leader (core_engine c); last_quorum_acked_time l.

Definition data_metrics (c : RaftCore) (replication : option (gmap N (option LogId)))
    (heartbeat : option (gmap N (option Instant))) : RaftDataMetrics :=
  let st := core_state c in
  mkRaftDataMetrics (local_committed st) (cluster_committed st) (last_log_id st) (io_applied st)
    (io_snapshot_last_log_id st) (io_purged st) (RaftCore_last_quorum_acked_time c) replication heartbeat.

Definition server_metrics (c : RaftCore) : RaftServerMetrics :=
  let st := core_state c in
  let vote := match IOProgress_flushed (log_progress st) with
              | Some io_id => IOId_to_app_vote io_id
              | None => Vote_new_with_default_term (core_id c)
              end in
  mkRaftServerMetrics (core_id c) vote (RaftState_server_state st) (current_leader st)
    (MembershipState_effective (RaftState_membership_state st))
    (MembershipState_committed (RaftState_membership_state st)).

(** The union of the two above with the running state and the term. *)
Definition all_metrics (c : RaftCore) (d : RaftDataMetrics) (s : RaftServerMetrics) : RaftMetrics :=
  mkRaftMetrics (Ok tt) (server_id s) (Vote_term (vote_ref (core_state c))) (server_vote s)
    (opt_index (data_last_log d)) (data_local_committed d) (data_cluster_committed d)
    (data_last_applied d) (data_snapshot d) (data_purged d) (server_state s) (server_current_leader s)
    (data_last_quorum_acked d) (server_membership_config s) (server_committed_membership_config s)
    (data_heartbeat d) (data_replication d).

(** The three sends, each on its own channel. *)
Definition send_data (d : RaftDataMetrics) (ms : MetricsChannels) : MetricsChannels :=
  mkMetricsChannels (all_tx ms)
    (send_if_modified (data_tx ms) (λ m, if decide (m ≠ d) then Some d else None)).1
    (server_tx ms) (progress_tx ms).
Definition send_server (s : RaftServerMetrics) (ms : MetricsChannels) : MetricsChannels :=
  mkMetricsChannels (all_tx ms) (data_tx ms)
    (send_if_modified (server_tx ms) (λ m, if decide (m ≠ s) then Some s else None)).1 (progress_tx ms).
Definition send_all (m : RaftMetrics) (ms : MetricsChannels) : MetricsChannels :=
  mkMetricsChannels (match send (all_tx ms) m with Ok w => w | Err _ => all_tx ms end)
    (data_tx ms) (server_tx ms) (progress_tx ms).

Definition report_sends (c : RaftCore) (replication : option (gmap N (option LogId)))
    (heartbeat : option (gmap N (option Instant))) : list (MetricsChannels → MetricsChannels) :=
  let d := data_metrics c replication heartbeat in
  let s := server_metrics c in
  [send_data d; send_server s; send_all (all_metrics c d s)].
Definition run_sends (sends : list (MetricsChannels → MetricsChannels)) (ms : MetricsChannels) :
    MetricsChannels := foldl (λ ms f, f ms) ms sends.
Definition report_metrics (c : RaftCore) (replication : option (gmap N (option LogId)))
    (heartbeat : option (gmap N (option Instant))) (ms : MetricsChannels) : MetricsChannels :=
  run_sends (report_sends c replication heartbeat) ms.

(** ** [flush_metrics] *)

Definition replication_metrics (c : RaftCore) : option (gmap N (option LogId)) :=
  l ← Engine_leader (core_engine c);
  Some (list_to_map (reverse ((λ p, (ProgressEntry_id p, ProgressEntry_matching p)) <$>
    VecProgress_entries (Leader_progress l)))).
Definition heartbeat_metrics (c : RaftCore) : option (gmap N (option Instant)) :=
  l ← Engine_leader (core_engine c);
  Some (list_to_map (reverse (VecProgress_entries (Leader_clock_progress l)))).

Definition flush_progress (c : RaftCore) (s : IoProgressSender) : IoProgressSender :=
  let io := RaftState_io_state (core_state c) in
  let s := send_log_progress s (IOProgress_flushed (IOState_log_progress io)) in
  let s := send_commit_progress s (IOProgress_accepted (IOState_apply_progress io)) in
  let s := send_apply_progress s (IOProgress_flushed (IOState_apply_progress io)) in
  send_snapshot_progress s (IOProgress_flushed (IOState_snapshot io)).

Definition flush_metrics (c : RaftCore) (ms : MetricsChannels) : MetricsChannels :=
  let ms := mkMetricsChannels (all_tx ms) (data_tx ms) (server_tx ms) (flush_progress c (progress_tx ms)) in
  report_metrics c (replication_metrics c) (heartbeat_metrics c) ms.

(** The end of [main]: only the full metrics tell of the shutdown. *)
Definition report_shutdown (err : Fatal) (ms : MetricsChannels) : MetricsChannels :=
  let m := borrow_watched (all_tx ms) in
  send_all (mkRaftMetrics (Err err) (metrics_id m) (metrics_current_term m) (metrics_vote m)
    (metrics_last_log_index m) (metrics_local_committed m) (metrics_cluster_committed m)
    (metrics_last_applied m) (metrics_snapshot m) (metrics_purged m) ServerState_Shutdown
    (metrics_current_leader m) (metrics_last_quorum_acked m) (metrics_membership_config m)
    (metrics_committed_membership_config m) (metrics_heartbeat m) (metrics_replication m)) ms.

(** ** [forward_metrics] *)

Inductive Gauge :=
| Gauge_CurrentTerm (term : u64)
| Gauge_LastLogIndex (index : u64)
| Gauge_CommittedIndex (index : u64)
| Gauge_AppliedIndex (index : u64)
| Gauge_SnapshotIndex (index : u64)
| Gauge_PurgedIndex (index : u64)
| Gauge_ServerState (state : N).

Definition forward_metrics (m : RaftMetrics) : list Gauge :=
  [Gauge_CurrentTerm (metrics_current_term m)] ++
  option_list (Gauge_LastLogIndex <$> metrics_last_log_index m) ++
  option_list (Gauge_CommittedIndex <$> opt_index (metrics_local_committed m)) ++
  option_list (Gauge_AppliedIndex <$> opt_index (metrics_last_applied m)) ++
  option_list (Gauge_SnapshotIndex <$> opt_index (metrics_snapshot m)) ++
  option_list (Gauge_PurgedIndex <$> opt_index (metrics_purged m)) ++
  [Gauge_ServerState (match metrics_state m with
     | ServerState_Learner => 0 | ServerState_Follower => 1 | ServerState_Candidate => 2
     | ServerState_Leader => 3 | ServerState_Shutdown => 4 end)].

(** ** The order of the reports *)
Implicit Types (c p : RaftCore) (ms : MetricsChannels).

Definition data_of c : RaftDataMetrics := data_metrics c (replication_metrics c) (heartbeat_metrics c).
Definition metrics_of c : RaftMetrics := all_metrics c (data_of c) (server_metrics c).

(** The channels while the reports of a sequence of states [cs] are made, of
    the last of which only [k] sends are done. *)
Definition while_reporting (cs : list RaftCore) c (k : nat) ms : MetricsChannels :=
  let ms := foldl (λ ms c, flush_metrics c ms) ms cs in
  let ms := mkMetricsChannels (all_tx ms) (data_tx ms) (server_tx ms) (flush_progress c (progress_tx ms)) in
  run_sends (take k (report_sends c (replication_metrics c) (heartbeat_metrics c))) ms.

Lemma while_reporting_flush cs c k ms :
  (3 ≤ k)%nat → while_reporting cs c k ms = flush_metrics c (foldl (λ ms c, flush_metrics c ms) ms cs).
Proof. intros Hk. unfold while_reporting. rewrite take_ge by (cbn; lia). done. Qed.

(** The values of the channels, if somebody watches the full metrics. *)
Definition shows ms (a d s : RaftCore) : Prop :=
  Watch_rx_count (all_tx ms) ≠ 0%N ∧ Watch_value (all_tx ms) = metrics_of a ∧
  Watch_value (data_tx ms) = data_of d ∧ Watch_value (server_tx ms) = server_metrics s.

Lemma shows_send_all a d s c ms : shows ms a d s → shows (send_all (metrics_of c) ms) c d s.
Proof.
  intros (Hrx & Ha & Hd & Hs). unfold shows, send_all, send. cbn. rewrite decide_False by done. done.
Qed.
Lemma shows_send_data a d s c ms : shows ms a d s → shows (send_data (data_of c) ms) a c s.
Proof. intros (Hrx & Ha & Hd & Hs). unfold shows, send_data. cbn. split_and!; try done. apply send_if_modified_ne. Qed.
Lemma shows_send_server a d s c ms : shows ms a d s → shows (send_server (server_metrics c) ms) a d c.
Proof. intros (Hrx & Ha & Hd & Hs). unfold shows, send_server. cbn. split_and!; try done. apply send_if_modified_ne. Qed.

Lemma flush_shows c ms : Watch_rx_count (all_tx ms) ≠ 0%N → shows (flush_metrics c ms) c c c.
Proof.
  intros Hrx. unfold flush_metrics, report_metrics, run_sends. cbn [report_sends foldl].
  unfold shows, send_all, send, send_server, send_data. cbn. rewrite decide_False by done. cbn.
  split_and!; try done; apply send_if_modified_ne.
Qed.
Lemma flush_all_rx cs ms :
  Watch_rx_count (all_tx ms) ≠ 0%N →
  Watch_rx_count (all_tx (foldl (λ ms c, flush_metrics c ms) ms cs)) ≠ 0%N.
Proof.
  revert ms. induction cs as [|c cs IH]; intros ms Hrx; [done|]. cbn [foldl]. apply IH. by apply flush_shows.
Qed.

(** Whoever sees a change of the full metrics sees it in the other two as
    well: at every moment of a report, whichever states were reported before,
    the full metrics are those of the state reported last, or of the new state
    once the data and the server metrics are those of the new state; the
    server metrics are never ahead of the data metrics. *)
Theorem metrics_reported_in_order cs p c k ms :
  Watch_rx_count (all_tx ms) ≠ 0%N →
  shows (while_reporting (cs ++ [p]) c k ms)
    (if decide (k < 3)%nat then p else c) (if decide (k < 1)%nat then p else c)
    (if decide (k < 2)%nat then p else c).
Proof.
  intros Hrx. unfold while_reporting. rewrite foldl_app. cbn [foldl].
  set (ms1 := foldl _ ms cs). assert (Watch_rx_count (all_tx ms1) ≠ 0%N) as Hrx1 by by apply flush_all_rx.
  set (ms2 := mkMetricsChannels _ _ _ _). assert (shows ms2 p p p) as Hk0 by by apply flush_shows.
  pose proof (shows_send_data _ _ _ c _ Hk0) as Hk1. pose proof (shows_send_server _ _ _ c _ Hk1) as Hk2.
  pose proof (shows_send_all _ _ _ c _ Hk2) as Hk3.
  unfold run_sends, report_sends.
  destruct k as [|[|[|k]]]; cbn [take]; rewrite ?take_nil; cbn [foldl]; repeat case_decide;
    first [exact Hk0|exact Hk1|exact Hk2|exact Hk3|lia].
Qed.

(** ** The progress channels *)

(** What the progress channels tell is durable: after the metrics of a state
    are flushed the log and the vote channel have the flushed I/O of the
    state (unless nothing was flushed yet, when they keep their value), the
    other three the committed, applied and snapshotted log id, and a channel
    is only told of a value that differs from its last. *)
Theorem flush_progress_spec c s :
  let io := RaftState_io_state (core_state c) in
  let s' := flush_progress c s in
  let told {T} `{EqDecision T} (w w' : Watch (T := T)) v := Watch_value w' = v ∧
    Watch_version w' = if decide (Watch_value w = v) then Watch_version w else u64_add (Watch_version w) 1 in
  match IOProgress_flushed (IOState_log_progress io) with
  | Some i => told (log_tx s) (log_tx s') (Some (flush_point i)) ∧
      told (vote_tx s) (vote_tx s') (Some (IOId_to_app_vote i))
  | None => log_tx s' = log_tx s ∧ vote_tx s' = vote_tx s
  end ∧
  told (commit_tx s) (commit_tx s') (IOProgress_accepted (IOState_apply_progress io)) ∧
  told (apply_tx s) (apply_tx s') (IOProgress_flushed (IOState_apply_progress io)) ∧
  told (snapshot_tx s) (snapshot_tx s') (IOProgress_flushed (IOState_snapshot io)).
Proof.
  intros io s' told. unfold told, s', flush_progress. cbn.
  destruct (IOProgress_flushed (IOState_log_progress io)) as [i|] eqn:Ei; cbn; fold io; rewrite Ei; cbn.
  all: unfold update_log_id_progress; split_and!; try done; apply send_if_modified_ne.
Qed.
End metrics.

Module MetricsWitness.
#[local] Existing Instance adv_config.
Import LogIdListWitness ReplicationWitness.
#[local] Existing Instance VoteHandlerWitness.env.
#[local] Instance store : StoreEnv := {| Core.StorageError := unit; storage_error _ := None |}.

Definition io (term index : u64) : IOId :=
  IOId_new_log_io (Vote_to_committed (Vote_new_committed (C := adv_config) term 1)) (Some (lid term 1 index)).
Definition flushed_channel : Watch (T := result IOId (Storage.StorageError unit)) := (channel (Ok (io 1 1))).1.

(** The I/O of term 2 completes before the one of term 1. *)
Definition out_of_order : list (IOId * result unit unit) := [(io 2 5, Ok tt); (io 1 3, Ok tt); (io 2 4, Ok tt)].

Lemma completion_watermark_witness :
  ∃ i, Watch_value (completions flushed_channel out_of_order) = Ok i ∧ pleb (io 1 3) i = true ∧ i = io 2 5.
Proof.
  pose proof (completion_watermark flushed_channel (io 1 1) out_of_order) as Hw.
  destruct Hw as (i & Hv & _ & Hmax).
  - reflexivity.
  - cbn. intros i j Hi Hj.
    repeat (apply elem_of_cons in Hi as [->|Hi]; [repeat (apply elem_of_cons in Hj as [->|Hj]; [by vm_compute|]);
      by apply not_elem_of_nil in Hj|]). by apply not_elem_of_nil in Hi.
  - exists i. split; [exact Hv|]. split; [apply Hmax; cbn; set_solver|].
    vm_compute in Hv. by injection Hv as <-.
Defined.

Definition leading_core : RaftCore := RaftCore_new Config_default (RuntimeConfig_new Config_default) two_nodes.
Definition following_core : RaftCore :=
  RaftCore_new Config_default (RuntimeConfig_new Config_default)
    (mkWorld (become_following (w_engine two_nodes)) 0 0).
Definition channels : MetricsChannels :=
  mkMetricsChannels (channel (RaftMetrics_new_initial 1)).1 (channel RaftDataMetrics_default).1
    (channel (RaftServerMetrics_new_initial 1)).1 IoProgressWatcher_new.1.

Lemma metrics_reported_in_order_witness :
  shows (while_reporting [leading_core] following_core 1 channels) leading_core following_core leading_core.
Proof. by apply (metrics_reported_in_order [] leading_core following_core 1 channels). Defined.
End MetricsWitness.
