(* ===== verification/Observers.v ===== *)
(** * Observers of the metrics

    [metrics/metric.rs], [metrics/wait_condition.rs], [metrics/wait.rs],
    [core/io_flush_tracking/watch_progress.rs] and
    [core/step_down_watcher.rs]: what the application waits for, and the task
    that steps down a leader that is no longer a member. *)

From S2P Require Import Prelude Vote LogId LogIdList Quorum Membership VecProgress IOState.
From S2P Require Import MembershipState Entry RaftState Config ProgressEntry Proposer Command.
From S2P Require Import Engine Replication Following LeaderHandler VoteHandler EngineImpl.
From S2P Require Import VoteSafety Cluster ReadQueue CoreHelpers Wire Core CoreHandlers CoreLogic.
From S2P Require Import Watch Metrics.

(** ** Waiting for progress

    [WatchProgress] is a receiver; [wait_until_ge] and [wait_until] are those
    of the channel. *)
Section watch_progress.
Context {T : Type}.

Definition WatchProgress_get (w : Watch (T := T)) : T := borrow_watched w.

(** [next]: the value after a change. *)
Definition WatchProgress_next (w : Watch (T := T)) (rx : WatchReceiver) :
    Poll (result T RecvError) * WatchReceiver :=
  match changed w rx with
  | (Poll_Ready (Ok _), rx) => (Poll_Ready (Ok (WatchProgress_get w)), rx)
  | (Poll_Ready (Err e), rx) => (Poll_Ready (Err e), rx)
  | (Poll_Pending, rx) => (Poll_Pending, rx)
  end.
End watch_progress.

Section observers.
Context {C : RaftTypeConfig} `{!Env, !StoreEnv}.

(** ** A single metric *)

Inductive Metric :=
| Metric_Term (v : u64)
| Metric_Vote (v : Vote)
| Metric_LastLogIndex (v : option u64)
| Metric_Committed (v : option LogId)
| Metric_Applied (v : option LogId)
| Metric_AppliedIndex (v : option u64)
| Metric_Snapshot (v : option LogId)
| Metric_Purged (v : option LogId).

Definition Metric_eq (m : RaftMetrics) (other : Metric) : bool :=
  match other with
  | Metric_Term v => bool_decide (metrics_current_term m = v)
  | Metric_Vote v => bool_decide (metrics_vote m = v)
  | Metric_LastLogIndex v => bool_decide (metrics_last_log_index m = v)
  | Metric_Committed v => bool_decide (metrics_local_committed m = v)
  | Metric_Applied v => bool_decide (metrics_last_applied m = v)
  | Metric_AppliedIndex v => bool_decide (opt_index (metrics_last_applied m) = v)
  | Metric_Snapshot v => bool_decide (metrics_snapshot m = v)
  | Metric_Purged v => bool_decide (metrics_purged m = v)
  end.

Definition Metric_partial_cmp (m : RaftMetrics) (other : Metric) : option comparison :=
  match other with
  | Metric_Term v => Some (cmp (metrics_current_term m) v)
  | Metric_Vote v => partial_cmp (metrics_vote m) v
  | Metric_LastLogIndex v => Some (cmp (metrics_last_log_index m) v)
  | Metric_Committed v => Some (cmp (metrics_local_committed m) v)
  | Metric_Applied v => Some (cmp (metrics_last_applied m) v)
  | Metric_AppliedIndex v => Some (cmp (opt_index (metrics_last_applied m)) v)
  | Metric_Snapshot v => Some (cmp (metrics_snapshot m) v)
  | Metric_Purged v => Some (cmp (metrics_purged m) v)
  end.

Inductive WaitCondition := WaitCondition_GE (m : Metric) | WaitCondition_EQ (m : Metric).

Definition condition_holds (cond : WaitCondition) (m : RaftMetrics) : bool :=
  match cond with
  | WaitCondition_GE expect =>
      match Metric_partial_cmp m expect with Some Gt | Some Eq => true | _ => false end
  | WaitCondition_EQ expect => Metric_eq m expect
  end.

(** ** [Wait] *)

(** The message of a timeout has the latest metrics. *)
Inductive WaitError :=
| WaitError_Timeout (timeout : Duration) (latest : RaftMetrics)
| WaitError_ShuttingDown.

(** One turn of the loop: the channel when it is read, the clock, and the
    channel when [changed] is polled, unless the delay is over first. *)
Record WaitTurn := mkWaitTurn {
  turn_latest : Watch (T := RaftMetrics);
  turn_now : Instant;
  turn_select : option (Watch (T := RaftMetrics));
}.

Fixpoint wait_turns (func : RaftMetrics → bool) (timeout : Duration) (timeout_at : Instant)
    (rx : WatchReceiver) (turns : list WaitTurn) : Poll (result RaftMetrics WaitError) :=
  match turns with
  | [] => Poll_Pending
  | t :: turns =>
      let latest := borrow_watched (turn_latest t) in
      if func latest then Poll_Ready (Ok latest)
      else if (turn_now t >=? timeout_at) then Poll_Ready (Err (WaitError_Timeout timeout latest))
      else
        match turn_select t with
        | None => Poll_Ready (Err (WaitError_Timeout timeout latest))
        | Some w =>
            match changed w rx with
            | (Poll_Ready (Ok _), rx) => wait_turns func timeout timeout_at rx turns
            | (Poll_Ready (Err _), _) => Poll_Ready (Err WaitError_ShuttingDown)
            | (Poll_Pending, _) => Poll_Pending
            end
        end
  end.

Record Wait := mkWait { Wait_timeout : Duration; Wait_rx : WatchReceiver }.

Definition Wait_metrics (w : Wait) (func : RaftMetrics → bool) (start : Instant) (turns : list WaitTurn) :
    Poll (result RaftMetrics WaitError) :=
  wait_turns func (Wait_timeout w) (start + Wait_timeout w)%N (Wait_rx w) turns.

(** The conditions of the methods of [Wait]. *)
Definition Wait_until (cond : WaitCondition) : RaftMetrics → bool := condition_holds cond.
Definition Wait_ge (m : Metric) : RaftMetrics → bool := Wait_until (WaitCondition_GE m).
Definition Wait_eq (m : Metric) : RaftMetrics → bool := Wait_until (WaitCondition_EQ m).
Definition Wait_vote (want : Vote) : RaftMetrics → bool := Wait_eq (Metric_Vote want).
Definition Wait_current_leader (leader_id : u64) : RaftMetrics → bool :=
  λ m, bool_decide (metrics_current_leader m = Some leader_id).
Definition Wait_log_index (index : option u64) : RaftMetrics → bool := Wait_eq (Metric_LastLogIndex index).
Definition Wait_log_index_at_least (index : option u64) : RaftMetrics → bool :=
  Wait_ge (Metric_LastLogIndex index).
Definition Wait_applied_index (index : option u64) : RaftMetrics → bool := Wait_eq (Metric_AppliedIndex index).
Definition Wait_applied_index_at_least (index : option u64) : RaftMetrics → bool :=
  Wait_ge (Metric_AppliedIndex index).
Definition Wait_state (want_state : ServerState) : RaftMetrics → bool :=
  λ m, bool_decide (metrics_state m = want_state).
Definition Wait_leader_with_quorum_acked (at_least : option Instant) : RaftMetrics → bool :=
  λ m, bool_decide (metrics_state m = ServerState_Leader) &&
    match metrics_last_quorum_acked m with
    | Some acked => match at_least with Some want => (acked >=? want) | None => true end
    | None => false
    end.
Definition Wait_voter_ids (voter_ids : list N) : RaftMetrics → bool :=
  λ m, bool_decide ((list_to_set voter_ids : gset N) =
    list_to_set (StoredMembership_voter_ids (metrics_membership_config m))).
Definition Wait_snapshot (snapshot_last_log_id : LogId) : RaftMetrics → bool :=
  Wait_eq (Metric_Snapshot (Some snapshot_last_log_id)).
Definition Wait_committed_index (index : option u64) : RaftMetrics → bool :=
  λ m, bool_decide (opt_index (metrics_local_committed m) = index).
Definition Wait_committed_index_at_least (index : option u64) : RaftMetrics → bool :=
  λ m, (opt_index (metrics_local_committed m) >=? index).
Definition Wait_purged (want : option LogId) : RaftMetrics → bool := Wait_eq (Metric_Purged want).

(** ** [StepDownWatcher] *)

Definition is_removed_leader (m : RaftServerMetrics) : bool :=
  if decide (server_state m ≠ ServerState_Leader) then false
  else if Membership_contains (StoredMembership_membership (server_membership_config m)) (server_id m)
  then false
  else bool_decide (server_committed_membership_config m = server_membership_config m).

(** [Iterator::max_by_key]: the last of the greatest elements. *)
Definition max_by_key {A K} `{!Ord K} (key : A → K) (l : list A) : option A :=
  foldl (λ best x, match best with
                   | None => Some x
                   | Some b => if (key x >=? key b) then Some x else Some b
                   end) None l.

Definition transfer_target (m : RaftMetrics) : option u64 :=
  replication ← metrics_replication m;
  let matching (id : N) : option LogId := mjoin (replication !! id) in
  max_by_key matching (StoredMembership_voter_ids (metrics_membership_config m)).

Record StepDownWatcher := mkStepDownWatcher {
  step_down_delay : Duration;
  transfer_wait : Duration;
}.
Definition StepDownWatcher_spawn (config : Config) : option StepDownWatcher :=
  match removed_leader_step_down config with
  | StepDownPolicy_Never => None
  | StepDownPolicy_After ms => Some (mkStepDownWatcher ms (heartbeat_interval config))
  end.

(** [try_step_down] with the server metrics before and after the delay, and the
    metrics that are read then: the commands it sends. *)
Definition try_step_down (before after : RaftServerMetrics) (m : RaftMetrics) : list ExternalCommand :=
  if negb (is_removed_leader before) then []
  else if negb (is_removed_leader after) then []
  else
    option_list (ExternalCommand_TriggerTransferLeader <$> transfer_target m) ++
    [ExternalCommand_RefreshServerState (Some (server_vote after))
       (StoredMembership_log_id (server_membership_config after))].

(** [watch_loop]: what it reads at each turn, until the sender is gone. *)
Fixpoint watch_loop (reads : list (RaftServerMetrics * RaftServerMetrics * RaftMetrics)) :
    list ExternalCommand :=
  match reads with
  | [] => []
  | (before, after, m) :: reads => try_step_down before after m ++ watch_loop reads
  end.

(** ** Waiting *)
Context `{!RaftLeaderIdLaws C}.

(** Equality and order of a metric agree. *)
Lemma Metric_eq_cmp m x : Metric_eq m x = true ↔ Metric_partial_cmp m x = Some Eq.
Proof.
  destruct x; cbn; rewrite bool_decide_eq_true.
  2: by rewrite pcmp_eq.
  all: rewrite <- cmp_eq; split; [by intros ->|by intros [=]].
Qed.

Definition turn_states (t : WaitTurn) : list (Watch (T := RaftMetrics)) :=
  turn_latest t :: option_list (turn_select t).

(** What a wait tells of the turns it has taken. *)
Definition wait_result (func : RaftMetrics → bool) (timeout : Duration) (timeout_at : Instant)
    (turns : list WaitTurn) (res : Poll (result RaftMetrics WaitError)) : Prop :=
  ∃ pre t post, turns = pre ++ t :: post ∧
    Forall (λ t, func (Watch_value (turn_latest t)) = false) pre ∧
    match res with
    | Poll_Ready (Ok m) => m = Watch_value (turn_latest t) ∧ func m = true
    | Poll_Ready (Err (WaitError_Timeout d latest)) =>
        d = timeout ∧ latest = Watch_value (turn_latest t) ∧ func latest = false ∧
        ((timeout_at ≤ turn_now t)%N ∨ turn_select t = None)
    | Poll_Ready (Err WaitError_ShuttingDown) =>
        ∃ s, turn_select t = Some s ∧ Watch_closed s = true ∧ func (Watch_value s) = false
    | Poll_Pending =>
        func (Watch_value (turn_latest t)) = false ∧ (turn_now t < timeout_at)%N ∧
        ∃ s, turn_select t = Some s ∧ (Watch_closed s = false ∧ func (Watch_value s) = false ∨ post = [])
    end.

Lemma wait_result_cons func timeout timeout_at t turns res :
  func (Watch_value (turn_latest t)) = false →
  wait_result func timeout timeout_at turns res → wait_result func timeout timeout_at (t :: turns) res.
Proof.
  intros Ht (pre & t' & post & -> & Hpre & Hres). exists (t :: pre), t', post.
  split; [done|]. split; [by constructor|done].
Qed.

Lemma wait_turns_spec func timeout timeout_at rx turns :
  turns ≠ [] →
  StronglySorted watch_le (turns ≫= turn_states) →
  (∀ s, s ∈ turns ≫= turn_states → (seen_version rx ≤ Watch_version s)%N) →
  wait_result func timeout timeout_at turns (wait_turns func timeout timeout_at rx turns).
Proof.
  intros Hne. revert rx. induction turns as [|t turns IH]; [done|]. intros rx Hs Hv.
  cbn [wait_turns]. unfold borrow_watched.
  destruct (func (Watch_value (turn_latest t))) eqn:Ef; [by exists [], t, turns|].
  destruct (turn_now t >=? timeout_at) eqn:En.
  { rewrite leb_true, N_ord_le in En. exists [], t, turns. split; [done|]. split; [done|]. split_and!; try done. by left. }
  rewrite leb_false, N_ord_lt in En.
  destruct (turn_select t) as [s|] eqn:Es.
  2: { exists [], t, turns. split; [done|]. split; [done|]. split_and!; try done. by right. }
  assert ((t :: turns) ≫= turn_states = turn_latest t :: s :: (turns ≫= turn_states)) as Heqs.
  { rewrite bind_cons. unfold turn_states at 1. by rewrite Es. }
  rewrite Heqs in Hs, Hv.
  inversion Hs as [|? ? Hs1 Hle1]; subst. inversion Hs1 as [|? ? Hs2 Hle2]; subst.
  rewrite Forall_forall in Hle1, Hle2.
  assert (seen_version rx ≤ Watch_version (turn_latest t))%N as Hv1 by (apply Hv; by left).
  destruct (Hle1 s ltac:(by left)) as [Hv2 Hsame].
  unfold changed. destruct (seen_version rx <? Watch_version s) eqn:Elt.
  - destruct turns as [|t2 turns].
    { exists [], t, []. cbn. split; [done|]. split; [done|]. split; [done|]. split; [done|]. exists s. by auto. }
    apply wait_result_cons; [done|]. apply IH; [done|done|]. intros s' Hs'. by apply (Hle2 s' Hs').
  - rewrite ltb_false, N_ord_le in Elt. assert (Watch_version (turn_latest t) = Watch_version s) as Heq by lia.
    specialize (Hsame Heq).
    destruct (Watch_closed s) eqn:Ecl; exists [], t, turns; (split; [done|]); (split; [done|]).
    + exists s. by rewrite <- Hsame.
    + split; [done|]. split; [done|]. exists s. split; [done|]. left. by rewrite <- Hsame.
Qed.

(** Waiting for the metrics: on the states of the channel in the order of
    time, a wait returns the first metrics it reads that satisfy the
    condition; it ends by a timeout only when the time is up and the metrics
    it reports do not satisfy the condition, and because of the shutdown only
    when the channel is closed and its last metrics, those that tell of the
    shutdown included, do not satisfy it. *)
Theorem wait_metrics_spec w func start turns :
  turns ≠ [] →
  StronglySorted watch_le (turns ≫= turn_states) →
  (∀ s, s ∈ turns ≫= turn_states → (seen_version (Wait_rx w) ≤ Watch_version s)%N) →
  wait_result func (Wait_timeout w) (start + Wait_timeout w)%N turns (Wait_metrics w func start turns).
Proof. apply wait_turns_spec. Qed.

(** ** Stepping down *)

Lemma max_by_key_app {A K} `{!Ord K} (key : A → K) l x :
  max_by_key key (l ++ [x]) = match max_by_key key l with
                              | None => Some x
                              | Some b => if (key x >=? key b) then Some x else Some b
                              end.
Proof. unfold max_by_key. by rewrite foldl_app. Qed.

Lemma max_by_key_spec {A K} `{!Ord K, !OrdLaws K} (key : A → K) l :
  match max_by_key key l with
  | None => l = []
  | Some x => ∃ pre post, l = pre ++ x :: post ∧
      (∀ y, y ∈ pre → (key y <=? key x) = true) ∧ (∀ y, y ∈ post → (key y <? key x) = true)
  end.
Proof.
  induction l as [|z l IH] using rev_ind; [done|]. rewrite max_by_key_app.
  destruct (max_by_key key l) as [b|].
  2: { subst. exists [], []. split; [done|]. by split; intros y []%not_elem_of_nil. }
  destruct IH as (pre & post & -> & Hpre & Hpost). destruct (key z >=? key b) eqn:E.
  - exists (pre ++ b :: post), []. split; [done|]. split; [|by intros y []%not_elem_of_nil].
    assert ((key b <=? key z) = true) as Hbz by ord.
    intros y Hy. apply elem_of_app in Hy as [Hy|[->|Hy]%elem_of_cons]; [| done |].
    + specialize (Hpre y Hy). ord.
    + specialize (Hpost y Hy). ord.
  - exists pre, (post ++ [z]). split; [by rewrite <- app_assoc|]. split; [done|].
    intros y [Hy|Hy%list_elem_of_singleton]%elem_of_app; [by apply Hpost|]. subst. ord.
Qed.

Lemma transfer_target_spec m to :
  transfer_target m = Some to →
  ∃ replication, metrics_replication m = Some replication ∧
    StoredMembership_is_voter (metrics_membership_config m) to = true ∧
    ∀ id, StoredMembership_is_voter (metrics_membership_config m) id = true →
      (mjoin (replication !! id) <=? mjoin (replication !! to)) = true.
Proof.
  unfold transfer_target. destruct (metrics_replication m) as [replication|]; [|done]. cbn. intros Hto.
  exists replication. split; [done|].
  pose proof (max_by_key_spec (λ id : N, mjoin (replication !! id))
    (StoredMembership_voter_ids (metrics_membership_config m))) as Hs.
  rewrite Hto in Hs. destruct Hs as (pre & post & Heq & Hpre & Hpost).
  assert (∀ id, StoredMembership_is_voter (metrics_membership_config m) id = true ↔ id ∈ pre ++ to :: post) as Hvoter.
  { intros id. rewrite <- Heq. symmetry. apply elem_of_voter_ids. }
  split; [apply Hvoter; set_solver|]. intros id [Hid|[->|Hid]%elem_of_cons]%Hvoter%elem_of_app.
  - by apply Hpre.
  - ord.
  - specialize (Hpost id Hid). ord.
Qed.

(** What the runtime does with the command of the watcher. *)
Lemma refresh_stale vote log_id c :
  vote_ref (core_state c) ≠ vote ∨ effective_log_id (RaftState_membership_state (core_state c)) ≠ Some log_id →
  handle_external_command (ExternalCommand_RefreshServerState (Some vote) (Some log_id)) c = Ret (Ok tt, c).
Proof.
  intros Hne. unfold handle_external_command. rewrite K_bind_eq, kget_eq.
  destruct (bool_decide (vote_ref _ = vote) && _) eqn:E; [|done].
  apply andb_true_iff in E as [Ev Em]. rewrite !bool_decide_eq_true in Ev, Em. naive_solver.
Qed.

Lemma refresh_removed vote log_id c :
  let ms := RaftState_membership_state (core_state c) in
  vote_ref (core_state c) = vote → effective_log_id ms = Some log_id →
  MembershipState_contains ms (core_id c) = false →
  ∃ c', handle_external_command (ExternalCommand_RefreshServerState (Some vote) (Some log_id)) c = Ret (Ok tt, c') ∧
    core_engine c' = become_following (core_engine c).
Proof.
  intros ms Hv Hm Hc. unfold handle_external_command. rewrite K_bind_eq, kget_eq.
  rewrite !bool_decide_true by done. cbn [andb]. rewrite on_engine_eq.
  unfold refresh_server_state, update_internal_server_state. rewrite M_bind_eq, get_eq.
  unfold RaftState_is_leader, is_leading. fold (core_engine c) (core_state c) (core_id c) ms.
  rewrite Hc. cbn [andb]. rewrite modify_eq. by eexists.
Qed.

(** A leader that is no longer a member steps down: when the watcher saw in
    the metrics, before and after the delay, a leader that the committed
    membership does not contain, it asks for a transfer at most, to a voter
    with the greatest matching log id, and then for a refresh.  The refresh
    does nothing on a node that has another vote or another membership by
    then; if the node is unchanged it stops leading, is a learner and closes
    its replication streams. *)
Theorem removed_leader_steps_down c c' before m log_id :
  let after := server_metrics c in
  let membership := MembershipState_effective (RaftState_membership_state (core_state c)) in
  let refresh := ExternalCommand_RefreshServerState (Some (server_vote after)) (Some log_id) in
  is_removed_leader before = true → is_removed_leader after = true →
  StoredMembership_log_id membership = Some log_id → Membership_valid (StoredMembership_membership membership) →
  core_id c' = core_id c →
  ∃ transfer, try_step_down before after m = transfer ++ [refresh] ∧
    (transfer = [] ∨ ∃ to replication, transfer = [ExternalCommand_TriggerTransferLeader to] ∧
      metrics_replication m = Some replication ∧
      StoredMembership_is_voter (metrics_membership_config m) to = true ∧
      ∀ id, StoredMembership_is_voter (metrics_membership_config m) id = true →
        (mjoin (replication !! id) <=? mjoin (replication !! to)) = true) ∧
    (vote_ref (core_state c') ≠ server_vote after ∨
     effective_log_id (RaftState_membership_state (core_state c')) ≠ Some log_id →
     handle_external_command refresh c' = Ret (Ok tt, c')) ∧
    (vote_ref (core_state c') = server_vote after →
     MembershipState_effective (RaftState_membership_state (core_state c')) = membership →
     ∃ c'', handle_external_command refresh c' = Ret (Ok tt, c'') ∧
       Engine_leader (core_engine c'') = None ∧ RaftState_server_state (core_state c'') = ServerState_Learner ∧
       (is_Some (Engine_leader (core_engine c')) →
        Command_CloseReplicationStreams ∈ commands (core_engine c''))).
Proof.
  intros after membership refresh Hb Ha Hid Hvalid Hnode.
  assert (Membership_contains (StoredMembership_membership membership) (core_id c) = false) as Hcontains.
  { unfold is_removed_leader in Ha. case_decide; [done|].
    destruct (Membership_contains _ (server_id after)) eqn:E; [done|exact E]. }
  unfold try_step_down. rewrite Hb, Ha. cbn [negb].
  assert (StoredMembership_log_id (server_membership_config after) = Some log_id) as -> by exact Hid.
  exists (option_list (ExternalCommand_TriggerTransferLeader <$> transfer_target m)). split; [done|].
  split; [|split].
  - destruct (transfer_target m) as [to|] eqn:Eto; [|by left]. right.
    destruct (transfer_target_spec m to Eto) as (replication & ? & ? & ?). by exists to, replication.
  - apply refresh_stale.
  - intros Hv Hm. destruct (refresh_removed (server_vote after) log_id c') as (c'' & Hr & He).
    + done.
    + unfold effective_log_id. by rewrite Hm.
    + unfold MembershipState_contains. by rewrite Hm, Hnode.
    + exists c''. split; [exact Hr|].
      destruct (become_following_eq (core_engine c')) as (Hcmd & Hl & _ & _ & _ & Hst).
      rewrite <- He in Hcmd, Hl, Hst. split; [done|]. split.
      * unfold core_state. rewrite Hst. cbn. fold (core_state c') (core_id c').
        unfold calc_server_state, RaftState_is_leader, is_leading, RaftState_is_voter, MembershipState_contains,
          MembershipState_is_voter. rewrite Hm, Hnode, Hcontains. cbn [andb].
        destruct (Membership_is_voter _ _) eqn:Ev; [|done]. apply Hvalid in Ev.
        by apply bool_decide_eq_false in Hcontains.
      * intros [l Hle]. rewrite Hcmd. unfold had_leading_state. rewrite Hle. set_solver.
Qed.
End observers.

Module ObserversWitness.
#[local] Existing Instance adv_config.
Import LogIdListWitness ReplicationWitness MetricsWitness.
#[local] Existing Instance VoteHandlerWitness.env.
#[local] Existing Instance MetricsWitness.store.

(** The channel before a node leads, while it leads and after its shutdown. *)
Definition state0 : Watch := (channel (RaftMetrics_new_initial 1)).1.
Definition state1 : Watch := watch_set state0 (metrics_of leading_core).
Definition state2 : Watch := sender_drop (all_tx (report_shutdown Fatal_Stopped
  (mkMetricsChannels state1 (data_tx channels) (server_tx channels) (progress_tx channels)))).
Definition turns : list WaitTurn :=
  [mkWaitTurn state0 100 (Some state1); mkWaitTurn state1 110 (Some state2); mkWaitTurn state2 120 (Some state2)].

Lemma wait_metrics_spec_witness :
  Wait_metrics (mkWait 500 (mkWatchReceiver 1)) (Wait_purged (Some (lid 9 9 9))) 100 turns =
    Poll_Ready (Err WaitError_ShuttingDown) ∧
  wait_result (Wait_purged (Some (lid 9 9 9))) 500 600 turns (Poll_Ready (Err WaitError_ShuttingDown)).
Proof.
  assert (Wait_metrics (mkWait 500 (mkWatchReceiver 1)) (Wait_purged (Some (lid 9 9 9))) 100 turns =
    Poll_Ready (Err WaitError_ShuttingDown)) as Hw by (vm_compute; reflexivity).
  split; [exact Hw|]. rewrite <- Hw.
  apply (wait_metrics_spec (mkWait 500 (mkWatchReceiver 1)) (Wait_purged (Some (lid 9 9 9))) 100 turns).
  - done.
  - assert (watch_le state0 state1) by (split; [by vm_compute|by vm_compute]).
    assert (watch_le state1 state2) by (split; [by vm_compute|by vm_compute]).
    assert (watch_le state0 state2) by (split; [by vm_compute|by vm_compute]).
    assert (∀ s : Watch (T := RaftMetrics), watch_le s s) by (intros s; split; [lia|done]).
    cbn. repeat constructor; done.
  - intros s Hs. cbn in Hs.
    repeat (apply elem_of_cons in Hs as [->|Hs]; [by vm_compute|]). by apply not_elem_of_nil in Hs.
Defined.

(** Node 1 leads nodes 2 and 3, which do not include it. *)
Definition m23 : StoredMembership :=
  mkStoredMembership (Some (lid 5 1 8)) (mkMembership [{[2; 3]}%N] (list_to_map [(2, tt); (3, tt)]%N)).
Definition removed_core : RaftCore :=
  let e := w_engine two_nodes in
  let st := set_membership_state (Engine_state e) (mkMembershipState m23 m23) in
  let st := set_vote st (Leased_without_last_update (Vote_new_committed (C := adv_config) 5 1)) in
  let st := set_io_state st (set_log_progress (RaftState_io_state st)
    (IOProgress_new_synchronized (Some (io 5 8)))) in
  RaftCore_new Config_default (RuntimeConfig_new Config_default)
    (mkWorld (set_state e (set_server_state st ServerState_Leader)) 0 0).

Lemma removed_leader_steps_down_witness :
  ∃ c', handle_external_command (ExternalCommand_RefreshServerState
      (Some (server_vote (server_metrics removed_core))) (Some (lid 5 1 8))) removed_core = Ret (Ok tt, c') ∧
    RaftState_server_state (core_state c') = ServerState_Learner.
Proof.
  destruct (removed_leader_steps_down removed_core removed_core (server_metrics removed_core)
    (metrics_of removed_core) (lid 5 1 8)) as (transfer & _ & _ & _ & Hrefresh).
  - vm_compute. reflexivity.
  - vm_compute. reflexivity.
  - reflexivity.
  - apply Membership_ensure_valid_ok. vm_compute. reflexivity.
  - reflexivity.
  - destruct Hrefresh as (c' & Hr & _ & Hs & _).
    + vm_compute. reflexivity.
    + reflexivity.
    + by exists c'.
Defined.
End ObserversWitness.
