(* ===== verification/Join.v ===== *)
(** * Joining the runtime

    [raft/raft_inner.rs] ([join_core_task] and [get_core_stop_error]) and
    [raft/core_state.rs]: the callers that wait for the task of the runtime to
    end and read its result.  The first of them takes the handle of the task,
    the others wait for it on a watch channel.  The callers run at once, so
    the protocol is a step relation over the shared state. *)

From S2P Require Import Prelude Vote LogId LogIdList Quorum Membership VecProgress IOState.
From S2P Require Import MembershipState Entry RaftState Config ProgressEntry Proposer Command.
From S2P Require Import Engine Replication Following LeaderHandler VoteHandler EngineImpl.
From S2P Require Import VoteSafety Cluster ReadQueue CoreHelpers Wire Core Watch Metrics.

Section join.
Context {C : RaftTypeConfig} `{!StoreEnv}.

(** The task returns an error always, so the result is the error. *)
Inductive CoreState :=
| CoreState_Running
| CoreState_Joining (rx : WatchReceiver)
| CoreState_Done (res : Fatal).

(** A call of [join_core_task]. *)
Inductive Joiner :=
| Joiner_Owner
| Joiner_Announcing
| Joiner_Waiting (rx : WatchReceiver)
| Joiner_Joined
| Joiner_Dropped.

(** [join_exit] is the end of the task: [None] inside when it has panicked. *)
Record JoinSys := mkJoinSys {
  join_state : CoreState;
  join_exit : option (option Fatal);
  join_chan : Watch (T := bool);
  join_joiners : gmap N Joiner;
}.
Implicit Types (s : JoinSys) (t : N).

Definition join_init : JoinSys := mkJoinSys CoreState_Running None (channel false).1 ∅.
Definition task_result (r : option Fatal) : Fatal := default Fatal_Panicked r.

(** The part of [join_core_task] under the lock. *)
Definition join_lock t s : JoinSys :=
  match join_state s with
  | CoreState_Running =>
      let '(tx, rx) := channel false in
      mkJoinSys (CoreState_Joining rx) (join_exit s) tx (<[t := Joiner_Owner]> (join_joiners s))
  | CoreState_Joining watch_rx =>
      let '(w, rx) := receiver_clone (join_chan s) watch_rx in
      mkJoinSys (join_state s) (join_exit s) w (<[t := Joiner_Waiting rx]> (join_joiners s))
  | CoreState_Done _ =>
      mkJoinSys (join_state s) (join_exit s) (join_chan s) (<[t := Joiner_Joined]> (join_joiners s))
  end.

(** The handle is ready: the result is recorded, which drops the receiver in the
    state, and then announced, after which the sender is dropped. *)
Definition join_record t (r : option Fatal) s : JoinSys :=
  mkJoinSys (CoreState_Done (task_result r)) (join_exit s) (receiver_drop (join_chan s))
    (<[t := Joiner_Announcing]> (join_joiners s)).
Definition join_announce t s : JoinSys :=
  let w := match send (join_chan s) true with Ok w => w | Err _ => join_chan s end in
  mkJoinSys (join_state s) (join_exit s) (sender_drop w) (<[t := Joiner_Joined]> (join_joiners s)).

(** One turn of the loop of a waiting caller. *)
Definition join_wake t (rx : WatchReceiver) s : JoinSys :=
  match changed (join_chan s) rx with
  | (Poll_Pending, _) => s
  | (Poll_Ready (Err _), _) =>
      mkJoinSys (join_state s) (join_exit s) (receiver_drop (join_chan s))
        (<[t := Joiner_Joined]> (join_joiners s))
  | (Poll_Ready (Ok _), rx) =>
      if borrow_watched (join_chan s) then
        mkJoinSys (join_state s) (join_exit s) (receiver_drop (join_chan s))
          (<[t := Joiner_Joined]> (join_joiners s))
      else
        mkJoinSys (join_state s) (join_exit s) (join_chan s)
          (<[t := Joiner_Waiting rx]> (join_joiners s))
  end.

(** A caller that is dropped while it waits: the future of an owner takes the
    sender with it, that of a waiting caller its receiver. *)
Definition drop_owner t s : JoinSys :=
  mkJoinSys (join_state s) (join_exit s) (sender_drop (join_chan s))
    (<[t := Joiner_Dropped]> (join_joiners s)).
Definition drop_waiter t s : JoinSys :=
  mkJoinSys (join_state s) (join_exit s) (receiver_drop (join_chan s))
    (<[t := Joiner_Dropped]> (join_joiners s)).

(** [owners_dropped]: whether callers that own the handle may be dropped. *)
Inductive join_step (owners_dropped : bool) : JoinSys → JoinSys → Prop :=
| join_step_exit r s : join_exit s = None →
    join_step owners_dropped s (mkJoinSys (join_state s) (Some r) (join_chan s) (join_joiners s))
| join_step_lock t s : join_joiners s !! t = None → join_step owners_dropped s (join_lock t s)
| join_step_record t r s : join_joiners s !! t = Some Joiner_Owner → join_exit s = Some r →
    join_step owners_dropped s (join_record t r s)
| join_step_announce t s : join_joiners s !! t = Some Joiner_Announcing →
    join_step owners_dropped s (join_announce t s)
| join_step_wake t rx s : join_joiners s !! t = Some (Joiner_Waiting rx) →
    join_step owners_dropped s (join_wake t rx s)
| join_step_drop_waiter t rx s : join_joiners s !! t = Some (Joiner_Waiting rx) →
    join_step owners_dropped s (drop_waiter t s)
| join_step_drop_owner t s : owners_dropped = true → join_joiners s !! t = Some Joiner_Owner →
    join_step owners_dropped s (drop_owner t s).

Definition join_reachable (owners_dropped : bool) s : Prop := rtc (join_step owners_dropped) join_init s.

(** [get_core_stop_error], once [join_core_task] has returned: [unreachable!] is
    a panic. *)
Definition get_core_stop_error s : outcome Fatal :=
  match join_state s with
  | CoreState_Done res => Ret res
  | _ => Panic
  end.

(** ** The invariant *)

Definition join_inv s : Prop :=
  match join_state s with
  | CoreState_Running => join_joiners s = ∅
  | CoreState_Joining rx =>
      seen_version rx = 1%N ∧ Watch_version (join_chan s) = 1%N ∧ Watch_closed (join_chan s) = false ∧
      Watch_tx_count (join_chan s) = 1%N ∧
      (∃ t, join_joiners s !! t = Some Joiner_Owner) ∧
      ∀ t j, join_joiners s !! t = Some j →
        match j with
        | Joiner_Owner | Joiner_Dropped => True
        | Joiner_Waiting rx => seen_version rx = 1%N
        | Joiner_Announcing | Joiner_Joined => False
        end
  | CoreState_Done res =>
      (∃ r, join_exit s = Some r ∧ res = task_result r) ∧
      (Watch_closed (join_chan s) = true ∨ Watch_tx_count (join_chan s) = 1%N ∧
        ∃ t, join_joiners s !! t = Some Joiner_Announcing)
  end.

Lemma join_inv_init : join_inv join_init.
Proof. done. Qed.

(** No caller sees a change of the channel before the announcement. *)
Definition chan_inv s : Prop :=
  (Watch_version (join_chan s) = 1%N ∨ Watch_value (join_chan s) = true) ∧
  (∀ rx, join_state s = CoreState_Joining rx → seen_version rx = 1%N) ∧
  (∀ t rx, join_joiners s !! t = Some (Joiner_Waiting rx) → seen_version rx = 1%N).

Lemma chan_inv_init : chan_inv join_init.
Proof. split; [by left|]. split; [done|]. intros t rx. cbn. by rewrite lookup_empty. Qed.

Lemma chan_inv_step b s s' : chan_inv s → join_step b s s' → chan_inv s'.
Proof.
  intros (Hv & Hst & Hw) Hstep.
  assert (∀ t j, (∀ rx, j ≠ Joiner_Waiting rx) → ∀ t' rx,
    <[t := j]> (join_joiners s) !! t' = Some (Joiner_Waiting rx) → seen_version rx = 1%N) as Hins.
  { intros t j Hj t' rx [[_ ->]|[_ Hrx]]%lookup_insert_Some; [by destruct (Hj rx)|by apply (Hw t')]. }
  destruct Hstep as [r s He|t s Ht|t r s Ht He|t s Ht|t rx s Ht|t rx s Ht|t s Hf Ht]; unfold chan_inv.
  - done.
  - unfold join_lock. destruct (join_state s) as [|rx|res] eqn:Es; cbn.
    + split; [by left|]. split; [by intros rx [= <-]|]. by apply Hins.
    + rewrite ?Es. split; [done|]. split; [done|].
      intros t' rx' [[_ [= <-]]|[_ Hrx]]%lookup_insert_Some; [by apply Hst|by apply (Hw t')].
    + rewrite ?Es. split; [done|]. split; [done|]. by apply Hins.
  - split; [done|]. split; [done|]. by apply Hins.
  - unfold join_announce, send. cbn. split; [|split; [done|by apply Hins]].
    destruct (decide (Watch_rx_count (join_chan s) = 0%N)); cbn; [exact Hv|by right].
  - unfold join_wake. destruct (changed (join_chan s) rx) as [[[[]|[]]|] rx2] eqn:Ech.
    + unfold borrow_watched. destruct (Watch_value (join_chan s)) eqn:Eval; cbn.
      * split; [by right|]. split; [done|]. by apply Hins.
      * destruct Hv as [Hv|Hv]; [|congruence].
        split; [by left|]. split; [done|]. intros t' rx' [[_ [= <-]]|[_ Hrx]]%lookup_insert_Some; [|by apply (Hw t')].
        unfold changed in Ech.
        case_match; [injection Ech as <-; done|by case_match].
    + split; [done|]. split; [done|]. by apply Hins.
    + done.
  - split; [done|]. split; [done|]. by apply Hins.
  - split; [done|]. split; [done|]. by apply Hins.
Qed.

Lemma chan_inv_reachable b s : join_reachable b s → chan_inv s.
Proof.
  intros Hr. refine (rtc_ind_r chan_inv _ chan_inv_init _ s Hr).
  intros s1 s2 _ Hstep Hinv. by eapply chan_inv_step.
Qed.

Lemma join_inv_step s s' : join_inv s → join_step false s s' → join_inv s'.
Proof.
  intros Hinv Hstep. destruct Hstep as [r s He|t s Ht|t r s Ht He|t s Ht|t rx s Ht|t rx s Ht|t s Hf Ht];
    [..|done]; unfold join_inv in *.
  - cbn. destruct (join_state s); [done|done|]. destruct Hinv as [(r' & Hr & ->) Hc]. by rewrite Hr in He.
  - unfold join_lock. destruct (join_state s) as [|rx|res] eqn:Es; cbn.
    + split_and!; try done; [exists t; apply lookup_insert_eq|]. rewrite Hinv.
      intros t' j [[<- <-]|[_ Hj]]%lookup_insert_Some; [done|]. by rewrite lookup_empty in Hj.
    + rewrite ?Es. destruct Hinv as (Hrx & Hv & Hcl & Htx & (to & Hto) & Hj). split_and!; try done.
      * exists to. rewrite lookup_insert_ne; [done|]. by intros ->; rewrite Ht in Hto.
      * intros t' j [[<- <-]|[_ Hj']]%lookup_insert_Some; [done|by apply (Hj t')].
    + rewrite ?Es. destruct Hinv as [Hres [Hc|(Htx & to & Hto)]]; (split; [done|]); [by left|].
      right. split; [done|]. exists to. rewrite lookup_insert_ne; [done|]. by intros ->; rewrite Ht in Hto.
  - unfold join_record. cbn. split; [by exists r|]. destruct (join_state s) as [|rx|res].
    + by rewrite Hinv, lookup_empty in Ht.
    + right. destruct Hinv as (_ & _ & _ & Htx & _). split; [done|]. exists t. apply lookup_insert_eq.
    + destruct Hinv as [_ [Hc|(Htx & _)]]; [by left|]. right. split; [done|]. exists t. apply lookup_insert_eq.
  - unfold join_announce. cbn. destruct (join_state s) as [|rx|res].
    + by rewrite Hinv, lookup_empty in Ht.
    + destruct Hinv as (_ & _ & _ & _ & _ & Hj). by destruct (Hj t _ Ht).
    + destruct Hinv as [Hres Hc]. split; [done|]. left.
      assert (∀ w : Watch (T := bool), Watch_closed w = true ∨ Watch_tx_count w = 1%N →
        Watch_closed (sender_drop w) = true) as Hdrop.
      { intros w [Hw|Hw]; cbn; case_decide; done. }
      apply Hdrop. unfold send. destruct (decide _); cbn; naive_solver.
  - unfold join_wake. destruct (join_state s) as [|rx'|res] eqn:Es.
    + by rewrite Hinv, lookup_empty in Ht.
    + destruct Hinv as (Hrx & Hv & Hcl & Htx & Ho & Hj). pose proof (Hj t _ Ht) as Hseen.
      unfold changed. rewrite Hv, Hseen, Hcl. cbn. rewrite ?Es. by split_and!.
    + destruct Hinv as [Hres Hc].
      assert (∀ j, j ≠ Joiner_Announcing → Watch_closed (join_chan s) = true ∨
        Watch_tx_count (join_chan s) = 1%N ∧ ∃ t', <[t := j]> (join_joiners s) !! t' = Some Joiner_Announcing) as Hc'.
      { intros j Hj. destruct Hc as [Hc|(Htx & t' & Ht')]; [by left|]. right. split; [done|]. exists t'.
        rewrite lookup_insert_ne; [done|]. by intros ->; rewrite Ht in Ht'. }
      destruct (changed _ rx) as [[[[]|[]]|] rx2]; [destruct (borrow_watched _)|..]; cbn; rewrite ?Es; auto.
  - unfold drop_waiter. cbn. destruct (join_state s) as [|rx'|res] eqn:Es.
    + by rewrite Hinv, lookup_empty in Ht.
    + destruct Hinv as (Hrx & Hv & Hcl & Htx & (to & Hto) & Hj). split_and!; try done.
      * exists to. rewrite lookup_insert_ne; [done|]. by intros ->; rewrite Ht in Hto.
      * intros t' j [[<- <-]|[_ Hj']]%lookup_insert_Some; [done|by apply (Hj t')].
    + destruct Hinv as [Hres [Hc|(Htx & to & Hto)]]; (split; [done|]); [by left|].
      right. split; [done|]. exists to. rewrite lookup_insert_ne; [done|]. by intros ->; rewrite Ht in Hto.
Qed.

Lemma join_inv_reachable s : join_reachable false s → join_inv s.
Proof.
  intros Hr. refine (rtc_ind_r join_inv _ join_inv_init _ s Hr).
  intros s1 s2 _ Hstep Hinv. by eapply join_inv_step.
Qed.

(** A joined caller finds the result. *)
Lemma join_inv_joined s t :
  join_inv s → join_joiners s !! t = Some Joiner_Joined →
  ∃ r, join_exit s = Some r ∧ get_core_stop_error s = Ret (task_result r).
Proof.
  unfold join_inv, get_core_stop_error. intros Hinv Ht. destruct (join_state s) as [|rx|res].
  - by rewrite Hinv, lookup_empty in Ht.
  - destruct Hinv as (_ & _ & _ & _ & _ & Hj). by destruct (Hj t _ Ht).
  - destruct Hinv as [(r & Hr & ->) _]. by exists r.
Qed.

(** ** Progress *)

Definition joiner_weight (j : Joiner) : nat :=
  match j with
  | Joiner_Owner => 2
  | Joiner_Announcing | Joiner_Waiting _ => 1
  | Joiner_Joined | Joiner_Dropped => 0
  end.

(** Once the task has ended, a caller that waits is not left waiting: some
    caller can take a step that brings it closer to its return. *)
Lemma join_inv_progress s t j :
  join_inv s → chan_inv s → is_Some (join_exit s) → join_joiners s !! t = Some j → joiner_weight j ≠ 0 →
  ∃ t' j' j'' s', join_step false s s' ∧ join_joiners s !! t' = Some j' ∧
    join_joiners s' = <[t' := j'']> (join_joiners s) ∧ joiner_weight j'' < joiner_weight j'.
Proof.
  intros Hinv (Hchan & _ & Hseen) [r Hr] Ht Hj.
  assert (∀ t, join_joiners s !! t = Some Joiner_Owner → ∃ t' j' j'' s', join_step false s s' ∧
    join_joiners s !! t' = Some j' ∧ join_joiners s' = <[t' := j'']> (join_joiners s) ∧
    joiner_weight j'' < joiner_weight j') as Howner.
  { intros t0 Ht0. exists t0, Joiner_Owner, Joiner_Announcing, (join_record t0 r s). split_and!; [|done|done|cbn; lia].
    by apply join_step_record. }
  assert (∀ t, join_joiners s !! t = Some Joiner_Announcing → ∃ t' j' j'' s', join_step false s s' ∧
    join_joiners s !! t' = Some j' ∧ join_joiners s' = <[t' := j'']> (join_joiners s) ∧
    joiner_weight j'' < joiner_weight j') as Hann.
  { intros t0 Ht0. exists t0, Joiner_Announcing, Joiner_Joined, (join_announce t0 s).
    split_and!; [|done|done|cbn; lia]. by apply join_step_announce. }
  destruct j as [| |rx| |]; [by apply (Howner t)|by apply (Hann t)| |done|done].
  unfold join_inv in Hinv. destruct (join_state s) as [|rx'|res].
  - by rewrite Hinv, lookup_empty in Ht.
  - destruct Hinv as (_ & _ & _ & _ & (to & Hto) & _). by apply (Howner to).
  - destruct Hinv as [_ [Hcl|(_ & to & Hto)]]; [|by apply (Hann to)].
    exists t, (Joiner_Waiting rx), Joiner_Joined, (join_wake t rx s).
    split_and!; [by apply join_step_wake|done| |cbn; lia]. unfold join_wake, changed, borrow_watched.
    rewrite (Hseen t rx Ht), Hcl. destruct (_ <? _) eqn:Elt; [|done].
    destruct Hchan as [Hchan|Hchan]; [|by rewrite Hchan]. rewrite Hchan in Elt. by vm_compute in Elt.
Qed.

(** C39: whoever joins the runtime learns why it stopped: unless the caller that
    waits for the task itself is dropped, a call of [join_core_task] returns
    only after the task has ended, the lookup of the error behind it does not
    panic and gives every caller the result of the task; and once the task has
    ended, as long as a caller is waiting, some caller can take a step that
    brings it closer to its return. *)
Theorem joiners_learn_result s :
  join_reachable false s →
  (∀ t, join_joiners s !! t = Some Joiner_Joined →
     ∃ r, join_exit s = Some r ∧ get_core_stop_error s = Ret (task_result r)) ∧
  (∀ t j, is_Some (join_exit s) → join_joiners s !! t = Some j → joiner_weight j ≠ 0 →
     ∃ t' j' j'' s', join_step false s s' ∧ join_joiners s !! t' = Some j' ∧
       join_joiners s' = <[t' := j'']> (join_joiners s) ∧ joiner_weight j'' < joiner_weight j').
Proof.
  intros Hr. pose proof (join_inv_reachable s Hr) as Hinv. pose proof (chan_inv_reachable _ s Hr) as Hchan.
  split; [intros t; by apply join_inv_joined|intros t j; by apply join_inv_progress].
Qed.

(** If the caller that owns the handle is dropped, by a timeout around a request
    for example, the others return while the task is still running and panic
    as they look for its result. *)
Lemma dropped_owner_panics :
  ∃ s, join_reachable true s ∧ join_exit s = None ∧ join_joiners s !! 2%N = Some Joiner_Joined ∧
    get_core_stop_error s = Panic.
Proof.
  exists (join_wake 2 (mkWatchReceiver 1) (join_lock 2 (drop_owner 1 (join_lock 1 join_init)))).
  split; [|done]. unfold join_reachable.
  eapply rtc_l; [by apply (join_step_lock true 1)|].
  eapply rtc_l; [by apply (join_step_drop_owner true 1)|].
  eapply rtc_l; [by apply (join_step_lock true 2)|].
  eapply rtc_l; [by apply (join_step_wake true 2 (mkWatchReceiver 1))|]. done.
Qed.
End join.

Module JoinWitness.
#[local] Existing Instance adv_config.
#[local] Existing Instance MetricsWitness.store.

(** Two callers, of which the second waits for the first. *)
Definition joined : JoinSys :=
  join_wake 2 (mkWatchReceiver 1) (join_announce 1 (join_record 1 (Some Fatal_Stopped)
    (mkJoinSys (CoreState_Joining (mkWatchReceiver 1)) (Some (Some Fatal_Stopped)) (mkWatch false 1 false 1 2)
       {[1%N := Joiner_Owner; 2%N := Joiner_Waiting (mkWatchReceiver 1)]}))).
Lemma joined_reachable : join_reachable false joined.
Proof.
  unfold join_reachable.
  eapply rtc_l; [by apply (join_step_lock false 1)|].
  eapply rtc_l; [by apply (join_step_lock false 2)|].
  eapply rtc_l; [by apply (join_step_exit false (Some Fatal_Stopped))|].
  eapply rtc_l; [by apply (join_step_record false 1 (Some Fatal_Stopped))|].
  eapply rtc_l; [by apply (join_step_announce false 1)|].
  eapply rtc_l; [by apply (join_step_wake false 2 (mkWatchReceiver 1))|].
  apply reflexive_eq. vm_compute. reflexivity.
Qed.

Lemma joiners_learn_result_witness :
  join_joiners joined !! 2%N = Some Joiner_Joined ∧ get_core_stop_error joined = Ret Fatal_Stopped.
Proof.
  split; [done|]. destruct (joiners_learn_result joined joined_reachable) as [Hj _].
  destruct (Hj 2%N eq_refl) as (r & Hr & Hs). rewrite Hs. vm_compute in Hr. by injection Hr as <-.
Defined.
End JoinWitness.
