(* ===== verification/Api.v ===== *)
(** * The public API

    [raft/raft_inner.rs], [raft/api/], [raft/trigger.rs], [raft/mod.rs],
    [raft/message/write.rs], [raft/message/write_request.rs],
    [raft/message/change_membership_request.rs] and
    [raft/linearizable_read/linearizer.rs]: what the calls of an application
    send to the runtime and make of the answers.

    A call of the API is a program: a tree of the things it asks of the outside
    (sending a message, receiving an answer, waiting for the metrics), with a
    continuation for every result.  What it does is a run: the requests with
    the results they were given. *)

From S2P Require Import Prelude Vote LogId LogIdList Quorum Membership VecProgress IOState.
From S2P Require Import MembershipState Entry RaftState Config ProgressEntry Proposer Command.
From S2P Require Import Engine Replication Following LeaderHandler VoteHandler EngineImpl.
From S2P Require Import VoteSafety Cluster ReadQueue CoreHelpers Wire Core CoreHandlers CoreLogic.
From S2P Require Import Storage Watch Metrics Observers.

Section api.
Context {C : RaftTypeConfig} `{!Env, !StoreEnv} {R : Type}.

(** ** Programs *)

Definition ClientWriteResult : Type := result (ClientWriteResponse R) ClientWriteError.

(** What a oneshot channel of the API carries. *)
Inductive Kind :=
| Kind_Vote | Kind_Append | Kind_InstallSnapshot | Kind_GetSnapshot | Kind_Initialize | Kind_Linearizer
| Kind_Write | Kind_Payload | Kind_AllowNextRevert | Kind_RaftState.
Definition reply (k : Kind) : Type :=
  match k with
  | Kind_Vote => VoteResponse
  | Kind_Append => StreamAppendResult
  | Kind_InstallSnapshot => SnapshotResponse
  | Kind_GetSnapshot => option Snapshot
  | Kind_Initialize => result unit InitializeError
  | Kind_Linearizer => ReadResult
  | Kind_Write => ClientWriteResult
  | Kind_Payload => EntryPayload
  | Kind_AllowNextRevert => result unit AllowNextRevertError
  | Kind_RaftState => RaftState
  end.

(** [Call_Send] and the other sends tell whether the channel took the message,
    [Call_Recv] gives nothing when the sender was dropped,
    [Call_WaitStopped] tells whether the runtime stopped in time, and
    [Call_StopError] is [get_core_stop_error] of [Join]. *)
Inductive Call : Type → Type :=
| Call_Oneshot : Call Sender
| Call_Send (msg : RaftMsg) : Call bool
| Call_SendSm (cmd : SmCommand) : Call bool
| Call_SendSnapshot (vote : Vote) (snapshot : Snapshot) (tx : Sender) : Call bool
| Call_Recv (k : Kind) (tx : Sender) : Call (option (reply k))
| Call_WaitStopped (timeout : Duration) : Call bool
| Call_StopError : Call Fatal
| Call_Wait (timeout : Duration) (func : RaftMetrics → bool) : Call (result RaftMetrics WaitError)
| Call_Metrics : Call RaftMetrics
| Call_Now : Call Instant.

Inductive Prog (A : Type) : Type :=
| Prog_Ret (a : A)
| Prog_Panic
| Prog_Call {X : Type} (c : Call X) (k : X → Prog A).
Arguments Prog_Ret {A} a.
Arguments Prog_Panic {A}.
Arguments Prog_Call {A X} c k.

Fixpoint Prog_bind_ {A B} (p : Prog A) (f : A → Prog B) : Prog B :=
  match p with
  | Prog_Ret a => f a
  | Prog_Panic => Prog_Panic
  | Prog_Call c k => Prog_Call c (λ x, Prog_bind_ (k x) f)
  end.
#[global] Instance Prog_ret : MRet Prog := @Prog_Ret.
#[global] Instance Prog_bind : MBind Prog := λ A B f p, Prog_bind_ p f.
Definition call {X} (c : Call X) : Prog X := Prog_Call c Prog_Ret.
Definition punwrap {A} (o : option A) : Prog A :=
  match o with Some a => Prog_Ret a | None => Prog_Panic end.

(** [?] on a result *)
Definition try_ {A B E} (p : Prog (result A E)) (f : A → Prog (result B E)) : Prog (result B E) :=
  r ← p; match r with Ok a => f a | Err e => mret (Err e) end.
#[local] Notation "x ←? p ; q" := (try_ p (λ x, q)) (at level 20, p at level 100, q at level 200).

(** ** [RaftInner] *)

Definition RECV_CORE_STOP_TIMEOUT : Duration := 1000.

Definition send_msg (mes : RaftMsg) : Prog (result unit Fatal) :=
  sent ← call (Call_Send mes);
  if (sent : bool) then mret (Ok tt) else fatal ← call Call_StopError; mret (Err fatal).

(** [wait_core_stopped]: a turn is the metrics that are read and how the wait for
    their next change ends. *)
Inductive StopWait := StopWait_Changed | StopWait_SenderDropped | StopWait_Timeout.
Fixpoint wait_core_stopped (turns : list (RaftMetrics * StopWait)) : Poll bool :=
  match turns with
  | [] => Poll_Pending
  | (metrics, w) :: turns =>
      if negb (is_ok (metrics_running_state metrics)) then Poll_Ready true
      else
        match w with
        | StopWait_Changed => wait_core_stopped turns
        | StopWait_SenderDropped => Poll_Ready true
        | StopWait_Timeout => Poll_Ready false
        end
  end.

Definition get_core_stop_error_bounded : Prog Fatal :=
  stopped ← call (Call_WaitStopped RECV_CORE_STOP_TIMEOUT);
  if (stopped : bool) then call Call_StopError else mret Fatal_Stopped.

Definition recv_msg (k : Kind) (rx : Sender) : Prog (result (reply k) Fatal) :=
  recv_res ← call (Call_Recv k rx);
  match recv_res with
  | Some x => mret (Ok x)
  | None => fatal ← get_core_stop_error_bounded; mret (Err fatal)
  end.

Definition call_core (k : Kind) (mes : RaftMsg) (rx : Sender) : Prog (result (reply k) Fatal) :=
  _ ←? send_msg mes; recv_msg k rx.
Definition call_core_oneshot (k : Kind) (make_msg : Sender → RaftMsg) : Prog (result (reply k) Fatal) :=
  tx ← call Call_Oneshot; call_core k (make_msg tx) tx.

Definition send_external_command (cmd : ExternalCommand) : Prog (result unit Fatal) :=
  sent ← call (Call_Send (RaftMsg_ExternalCommand cmd));
  if (sent : bool) then mret (Ok tt) else fatal ← call Call_StopError; mret (Err fatal).

(** [wait]: a hundred years if there is no timeout. *)
Definition wait_timeout (timeout : option Duration) : Duration :=
  default (86400 * 365 * 100 * 1000)%N timeout.

(** ** [ProtocolApi] *)

Definition send_sm_command (cmd : SmCommand) : Prog (result unit Fatal) :=
  sent ← call (Call_SendSm cmd);
  if (sent : bool) then mret (Ok tt) else fatal ← get_core_stop_error_bounded; mret (Err fatal).

Definition ProtocolApi_vote (rpc : VoteRequest) : Prog (result VoteResponse Fatal) :=
  call_core_oneshot Kind_Vote (RaftMsg_RequestVote rpc).
Definition ProtocolApi_pre_vote (rpc : VoteRequest) : Prog (result VoteResponse Fatal) :=
  call_core_oneshot Kind_Vote (RaftMsg_RequestPreVote rpc).
Definition ProtocolApi_append_entries (rpc : AppendEntriesRequest) :
    Prog (result AppendEntriesResponse Fatal) :=
  stream_result ←? call_core_oneshot Kind_Append (RaftMsg_AppendEntries rpc);
  mret (Ok (AppendEntriesResponse_from stream_result)).
Definition ProtocolApi_get_snapshot : Prog (result (option Snapshot) Fatal) :=
  tx ← call Call_Oneshot;
  _ ←? send_sm_command (SmCommand_GetSnapshot tx);
  recv_msg Kind_GetSnapshot tx.
Definition ProtocolApi_install_full_snapshot (vote : Vote) (snapshot : Snapshot) :
    Prog (result SnapshotResponse Fatal) :=
  tx ← call Call_Oneshot;
  sent ← call (Call_SendSnapshot vote snapshot tx);
  if (sent : bool) then recv_msg Kind_InstallSnapshot tx
  else fatal ← call Call_StopError; mret (Err fatal).

Definition check_transfer_leader_progress (req : TransferLeaderRequest) (progress : option FlushPoint) :
    result unit TransferLeaderError :=
  match progress with
  | None => Err (TransferLeaderError_LogNotFlushed (TransferLeaderRequest_last_log_id req) None)
  | Some progress =>
      let from_leader := TransferLeaderRequest_from_leader req in
      let vote_matches := bool_decide (FlushPoint_vote progress = from_leader) in
      let log_is_flushed :=
        (FlushPoint_last_log_id progress >=? TransferLeaderRequest_last_log_id req) in
      if vote_matches && log_is_flushed then Ok tt
      else if negb (pgeb from_leader (FlushPoint_vote progress)) then
        Err (TransferLeaderError_VoteChanged from_leader (FlushPoint_vote progress))
      else
        Err (TransferLeaderError_LogNotFlushed (TransferLeaderRequest_last_log_id req)
               (FlushPoint_last_log_id progress))
  end.

(** A turn of [ensure_log_flushed_for_transfer_leader]: the progress that is
    read and how the wait for a change ends. *)
Inductive FlushWait :=
| FlushWait_Changed
| FlushWait_Closed
| FlushWait_Timeout (progress : option FlushPoint).

(** [None] when the runtime has stopped. *)
Fixpoint ensure_log_flushed (req : TransferLeaderRequest) (turns : list (option FlushPoint * FlushWait)) :
    Poll (option (result unit TransferLeaderError)) :=
  match turns with
  | [] => Poll_Pending
  | (progress, w) :: turns =>
      let res := check_transfer_leader_progress req progress in
      match res with
      | Ok _ | Err (TransferLeaderError_VoteChanged _ _) => Poll_Ready (Some res)
      | _ =>
          match w with
          | FlushWait_Changed => ensure_log_flushed req turns
          | FlushWait_Closed => Poll_Ready None
          | FlushWait_Timeout progress => Poll_Ready (Some (check_transfer_leader_progress req progress))
          end
      end
  end.

(** [handle_transfer_leader] of the node [id]; [flushed] is the result of the
    wait for the log. *)
Definition handle_transfer_leader_request (id : u64) (req : TransferLeaderRequest)
    (flushed : option (result unit TransferLeaderError)) :
    Prog (result (result unit TransferLeaderError) Fatal) :=
  let submit : Prog (result (result unit TransferLeaderError) Fatal) :=
    _ ←? send_msg (RaftMsg_HandleTransferLeader (TransferLeaderRequest_from_leader req)
           (TransferLeaderRequest_to_node_id req) (TransferLeaderRequest_last_log_id req));
    mret (Ok (Ok tt)) in
  if decide (TransferLeaderRequest_to_node_id req = id) then
    match flushed with
    | None => fatal ← call Call_StopError; mret (Err fatal)
    | Some (Err err) => mret (Ok (Err err))
    | Some (Ok _) => submit
    end
  else submit.

(** ** [AppApi] *)

Definition AppApi_get_read_linearizer (o : LinearizerOption) : Prog (result ReadResult Fatal) :=
  call_core_oneshot Kind_Linearizer (RaftMsg_GetLinearizer o).

Definition do_client_write_ff (payloads : list EntryPayload) (responders : list (option Sender)) :
    Prog (result unit Fatal) :=
  send_msg (RaftMsg_ClientWrite payloads responders None).
Definition AppApi_client_write (payload : EntryPayload) : Prog (result ClientWriteResult Fatal) :=
  complete ← call Call_Oneshot;
  _ ←? do_client_write_ff [payload] [Some complete];
  recv_msg Kind_Write complete.
Definition AppApi_client_write_ff (payload : EntryPayload) (responder : option Sender) :
    Prog (result unit Fatal) :=
  do_client_write_ff [payload] [responder].

Record WriteResponse := mkWriteResponse { WriteResponse_log_id : LogId; WriteResponse_response : R }.
Definition WriteResponse_from (resp : ClientWriteResponse R) : WriteResponse :=
  mkWriteResponse (ClientWriteResponse_log_id resp) (ClientWriteResponse_data resp).
(** [into_write_result]: the errors of a membership change are unreachable. *)
Definition into_write_result (r : ClientWriteResult) : outcome (result WriteResponse ForwardToLeader) :=
  match r with
  | Ok resp => Ret (Ok (WriteResponse_from resp))
  | Err (ClientWriteError_ForwardToLeader e) => Ret (Err e)
  | Err _ => Panic
  end.

(** [client_write_many]: the receivers of the answers, and the stream that polls
    them in the order of the payloads. *)
Fixpoint oneshots (n : nat) : Prog (list Sender) :=
  match n with
  | O => mret []
  | S n => tx ← call Call_Oneshot; txs ← oneshots n; mret (tx :: txs)
  end.
Definition AppApi_client_write_many (payloads : list EntryPayload) : Prog (result (list Sender) Fatal) :=
  receivers ← oneshots (length payloads);
  _ ←? do_client_write_ff payloads (Some <$> receivers);
  mret (Ok receivers).
Fixpoint write_many_stream (receivers : list (option ClientWriteResult)) :
    outcome (list (result (result WriteResponse ForwardToLeader) Fatal)) :=
  match receivers with
  | [] => Ret []
  | Some r :: receivers =>
      x ← into_write_result r; xs ← write_many_stream receivers; Ret (Ok x :: xs)
  | None :: _ => Ret [Err Fatal_Stopped]
  end.

Record WriteRequest := mkWriteRequest {
  WriteRequest_app_data : AppData;
  WriteRequest_responder : option Sender;
  WriteRequest_expected_leader : option CommittedLeaderId;
}.
Definition Raft_write (app_data : AppData) : WriteRequest := mkWriteRequest app_data None None.
Definition WriteRequest_set_responder (w : WriteRequest) (responder : Sender) : WriteRequest :=
  mkWriteRequest (WriteRequest_app_data w) (Some responder) (WriteRequest_expected_leader w).
Definition WriteRequest_with_leader (w : WriteRequest) (expected_leader : CommittedLeaderId) : WriteRequest :=
  mkWriteRequest (WriteRequest_app_data w) (WriteRequest_responder w) (Some expected_leader).
(** [WriteRequest::into_future] *)
Definition WriteRequest_send (w : WriteRequest) : Prog (result unit Fatal) :=
  send_msg (RaftMsg_ClientWrite [EntryPayload_Normal (WriteRequest_app_data w)] [WriteRequest_responder w]
    (WriteRequest_expected_leader w)).

(** ** [ManagementApi] *)

Record ChangeMembershipRequest := mkChangeMembershipRequest {
  request_members : ChangeMembers;
  request_retain : bool;
  request_preconditions : list Precondition;
  request_payload : option (EntryPayload * EntryPayload);
}.
Definition ChangeMembershipRequest_new (members : ChangeMembers) (retain : bool) : ChangeMembershipRequest :=
  mkChangeMembershipRequest members retain [] None.

Definition request_with_payload (request : ChangeMembershipRequest) (joint uniform : EntryPayload) :
    ChangeMembershipRequest :=
  mkChangeMembershipRequest (request_members request) (request_retain request) (request_preconditions request)
    (Some (joint, uniform)).
Definition request_with_preconditions (request : ChangeMembershipRequest) (preconditions : list Precondition) :
    ChangeMembershipRequest :=
  mkChangeMembershipRequest (request_members request) (request_retain request) preconditions (request_payload request).

Record ChangeMembershipOutcome := mkChangeMembershipOutcome {
  outcome_joint : option (ClientWriteResponse R);
  outcome_uniform : ClientWriteResponse R;
}.

Definition ManagementApi_initialize (members : gmap N Node) : Prog (result (result unit InitializeError) Fatal) :=
  call_core_oneshot Kind_Initialize (RaftMsg_Initialize members).

(** The preconditions of the second step. *)
Definition second_preconditions (preconditions : list Precondition) (log_id : LogId) : list Precondition :=
  omap (λ x, match x with
             | Precondition_LastMembershipLogId _ => None
             | Precondition_LastLogId _ => None
             | Precondition_CommittedLeaderId _ => Some x
             end) preconditions ++
  [Precondition_LastMembershipLogId (Some log_id)].

Definition change_membership_with_payload (request : ChangeMembershipRequest) :
    Prog (result (result ChangeMembershipOutcome ClientWriteError) Fatal) :=
  let changes := request_members request in
  let retain := request_retain request in
  let preconditions := request_preconditions request in
  let '(joint_payload, uniform_payload) :=
    default (EntryPayload_Blank, EntryPayload_Blank) (request_payload request) in
  tx ← call Call_Oneshot;
  unused_tx ← call Call_Oneshot;
  client_write_result ←? call_core Kind_Write
    (RaftMsg_ChangeMembership changes
       (MembershipPayloads_JointOrUniform joint_payload uniform_payload unused_tx) retain preconditions tx) tx;
  match client_write_result with
  | Err e => mret (Ok (Err e))
  | Ok resp =>
      membership ← punwrap (ClientWriteResponse_membership resp);
      if negb (Membership_is_joint membership) then mret (Ok (Ok (mkChangeMembershipOutcome None resp)))
      else
        uniform_payload ←? recv_msg Kind_Payload unused_tx;
        tx ← call Call_Oneshot;
        client_write_result ←? call_core Kind_Write
          (RaftMsg_ChangeMembership (AddVoterIds ∅) (MembershipPayloads_Uniform uniform_payload) retain
             (second_preconditions preconditions (ClientWriteResponse_log_id resp)) tx) tx;
        mret (Ok (match client_write_result with
                  | Ok uniform => Ok (mkChangeMembershipOutcome (Some resp) uniform)
                  | Err e => Err e
                  end))
  end.

Definition ManagementApi_change_membership (members : ChangeMembers) (retain : bool)
    (preconditions : list Precondition) : Prog (result ClientWriteResult Fatal) :=
  result ←? change_membership_with_payload (mkChangeMembershipRequest members retain preconditions None);
  mret (Ok (match result with Ok outcome => Ok (outcome_uniform outcome) | Err e => Err e end)).

Definition ManagementApi_append_membership (membership : Membership) (payload : EntryPayload)
    (preconditions : list Precondition) : Prog (result ClientWriteResult Fatal) :=
  tx ← call Call_Oneshot;
  call_core Kind_Write (RaftMsg_AppendMembership (with_membership payload membership) preconditions tx) tx.

(** [check_replication_upto_date]: [Err] while the replication is behind. *)
Definition check_replication_upto_date (threshold : u64) (metrics : RaftMetrics) (node_id : u64)
    (membership_log_id : option LogId) : result (option LogId) unit :=
  if (StoredMembership_log_id (metrics_membership_config metrics) <? membership_log_id) then Err tt
  else
    match StoredMembership_get_node (metrics_membership_config metrics) node_id with
    | None => Ok None
    | Some _ =>
        match metrics_replication metrics with
        | None => Ok None
        | Some repl =>
            match repl !! node_id with
            | None => Err tt
            | Some matched =>
                let distance := replication_lag (opt_index matched) (metrics_last_log_index metrics) in
                if (distance <=? threshold) then Ok matched else Err tt
            end
        end
    end.

(** [add_learner] of the node [this]; the result of the wait is not used. *)
Definition ManagementApi_add_learner (this threshold id : u64) (node : Node) (blocking : bool) :
    Prog (result ClientWriteResult Fatal) :=
  tx ← call Call_Oneshot;
  client_write_result ←? call_core Kind_Write
    (RaftMsg_ChangeMembership (AddNodes {[id := node]}) (MembershipPayloads_Uniform EntryPayload_Blank) true [] tx) tx;
  match client_write_result with
  | Err e => mret (Ok (Err e))
  | Ok resp =>
      if negb blocking then mret (Ok (Ok resp))
      else if decide (this = id) then mret (Ok (Ok resp))
      else
        _ ← call (Call_Wait (wait_timeout None)
          (λ metrics, is_ok (check_replication_upto_date threshold metrics id
                               (Some (ClientWriteResponse_log_id resp)))));
        mret (Ok (Ok resp))
  end.

(** ** [Trigger] *)

Definition Trigger_elect (pre_vote : bool) : Prog (result unit Fatal) :=
  send_external_command (ExternalCommand_Elect pre_vote).
Definition Trigger_heartbeat : Prog (result unit Fatal) := send_external_command ExternalCommand_Heartbeat.
Definition Trigger_snapshot : Prog (result unit Fatal) := send_external_command ExternalCommand_Snapshot.
Definition Trigger_purge_log (upto : u64) : Prog (result unit Fatal) :=
  send_external_command (ExternalCommand_PurgeLog upto).
Definition Trigger_transfer_leader (to : u64) : Prog (result unit Fatal) :=
  send_external_command (ExternalCommand_TriggerTransferLeader to).
Definition Trigger_allow_next_revert (to : u64) (allow : bool) :
    Prog (result (result unit AllowNextRevertError) Fatal) :=
  tx ← call Call_Oneshot;
  _ ←? send_external_command (ExternalCommand_AllowNextRevert to allow tx);
  recv_msg Kind_AllowNextRevert tx.
Definition Trigger_refresh_server_state (vote : option Vote) (membership_log_id : option LogId) :
    Prog (result unit Fatal) :=
  send_external_command (ExternalCommand_RefreshServerState vote membership_log_id).

(** ** [Linearizer] and [Raft] *)

(** [try_await_ready] on the node [this_id]. *)
Definition try_await_ready (l : Linearizer) (this_id : u64) (timeout : option Duration) :
    Prog (result (result LinearizeState LinearizeState) Fatal) :=
  let state := Linearizer_state l in
  if is_ready_on_node state this_id then mret (Ok (Ok state))
  else
    let expected := Some (LogId_index (LinearizeState_read_log_id state)) in
    res ← call (Call_Wait (wait_timeout timeout) (Wait_applied_index_at_least expected));
    match res with
    | Ok metrics => mret (Ok (Ok (LinearizeState_with_applied state this_id (metrics_last_applied metrics))))
    | Err (WaitError_Timeout _ _) =>
        metrics ← call Call_Metrics;
        let state := LinearizeState_with_applied state this_id (metrics_last_applied metrics) in
        if is_ready_on_node state this_id then mret (Ok (Ok state)) else mret (Ok (Err state))
    | Err WaitError_ShuttingDown => err ← call Call_StopError; mret (Err err)
    end.
Definition await_ready (l : Linearizer) (this_id : u64) : Prog (result LinearizeState Fatal) :=
  state_res ←? try_await_ready l this_id None;
  match state_res with
  | Ok state => mret (Ok state)
  | Err _ => Prog_Panic
  end.

Inductive RaftError (E : Type) := RaftError_APIError (e : E) | RaftError_Fatal (f : Fatal).
Arguments RaftError_APIError {E} e.
Arguments RaftError_Fatal {E} f.
(** [into_raft_result] *)
Definition into_raft_result {T E} (r : result (result T E) Fatal) : result T (RaftError E) :=
  match r with
  | Ok (Ok t) => Ok t
  | Ok (Err e) => Err (RaftError_APIError e)
  | Err f => Err (RaftError_Fatal f)
  end.

Definition ensure_linearizable (this_id : u64) (o : LinearizerOption) :
    Prog (result LogId (RaftError LinearizableReadError)) :=
  r ← AppApi_get_read_linearizer o;
  match into_raft_result r with
  | Err e => mret (Err e)
  | Ok linearizer =>
      state ← await_ready linearizer this_id;
      mret (match state with
            | Ok state => Ok (LinearizeState_read_log_id state)
            | Err f => Err (RaftError_Fatal f)
            end)
  end.
Definition Raft_get_read_log_id (o : LinearizerOption) :
    Prog (result (LogId * option LogId) (RaftError LinearizableReadError)) :=
  r ← AppApi_get_read_linearizer o;
  mret (match into_raft_result r with
        | Err e => Err e
        | Ok l => Ok (LinearizeState_read_log_id (Linearizer_state l), LinearizeState_applied (Linearizer_state l))
        end).

Definition Raft_is_leader (m : RaftMetrics) : bool := bool_decide (metrics_state m = ServerState_Leader).

(** [Leader] of [raft/leader.rs] *)
Record LeaderHandle := mkLeaderHandle {
  LeaderHandle_leader_id : LeaderId;
  LeaderHandle_last_quorum_acked : option Instant;
}.
Definition as_leader (id : u64) (m : RaftMetrics) : result LeaderHandle ForwardToLeader :=
  if negb (Vote_is_committed (metrics_vote m)) then Err ForwardToLeader_empty
  else
    let leader_id := Vote_leader_id (metrics_vote m) in
    let node_id := Vote_leader_node_id (metrics_vote m) in
    if decide (node_id = id) then Ok (mkLeaderHandle leader_id (metrics_last_quorum_acked m))
    else
      Err (mkForwardToLeader (Some node_id) (StoredMembership_get_node (metrics_membership_config m) node_id)).

Definition with_raft_state {V} (func : RaftState → V) : Prog (result V Fatal) :=
  tx ← call Call_Oneshot;
  _ ←? send_msg (RaftMsg_WithRaftState tx);
  res ← call (Call_Recv Kind_RaftState tx);
  match res with
  | Some st => mret (Ok (func st))
  | None => fatal ← call Call_StopError; mret (Err fatal)
  end.
Definition Raft_is_initialized : Prog (result bool Fatal) := with_raft_state is_initialized.

Definition recovery_covered (m : RaftMetrics) : bool :=
  match opt_index (metrics_cluster_committed m) with
  | Some i => (Some i >=? metrics_last_log_index m)
  | None => false
  end.
Definition wait_for_recovery (timeout : option Duration) : Prog (result RaftMetrics WaitError) :=
  start ← call Call_Now;
  metrics ←? call (Call_Wait (wait_timeout timeout) recovery_covered);
  let target := opt_index (metrics_cluster_committed metrics) in
  remaining ← match timeout with
              | Some t => now ← call Call_Now; mret (Some (t - (now - start))%N)
              | None => mret None
              end;
  call (Call_Wait (wait_timeout remaining) (Wait_applied_index_at_least target)).

(** ** The methods of [Raft] *)

(** [into_raft_result] of a result that has no error of its own. *)
Definition into_fatal_result {T} (r : result T Fatal) : result T (RaftError Empty_set) :=
  result_map_err RaftError_Fatal r.
(** [decompose]: the inverse of [into_raft_result]. *)
Definition decompose {T E} (r : result T (RaftError E)) : result (result T E) (RaftError Empty_set) :=
  match r with
  | Ok x => Ok (Ok x)
  | Err (RaftError_APIError e) => Ok (Err e)
  | Err (RaftError_Fatal f) => Err (RaftError_Fatal f)
  end.

Definition Raft_append_entries (rpc : AppendEntriesRequest) :
    Prog (result AppendEntriesResponse (RaftError Empty_set)) :=
  r ← call_core_oneshot Kind_Append (RaftMsg_AppendEntries rpc);
  mret (result_map AppendEntriesResponse_from (into_fatal_result r)).
Definition Raft_vote (rpc : VoteRequest) : Prog (result VoteResponse (RaftError Empty_set)) :=
  r ← call_core_oneshot Kind_Vote (RaftMsg_RequestVote rpc); mret (into_fatal_result r).
Definition Raft_pre_vote (rpc : VoteRequest) : Prog (result VoteResponse (RaftError Empty_set)) :=
  r ← call_core_oneshot Kind_Vote (RaftMsg_RequestPreVote rpc); mret (into_fatal_result r).
Definition Raft_get_snapshot : Prog (result (option Snapshot) (RaftError Empty_set)) :=
  tx ← call Call_Oneshot;
  sent ← call (Call_SendSm (SmCommand_GetSnapshot tx));
  if (sent : bool) then
    x ← call (Call_Recv Kind_GetSnapshot tx);
    match x with
    | Some x => mret (Ok x)
    | None => fatal ← get_core_stop_error_bounded; mret (Err (RaftError_Fatal fatal))
    end
  else fatal ← get_core_stop_error_bounded; mret (Err (RaftError_Fatal fatal)).
Definition Raft_install_full_snapshot (vote : Vote) (snapshot : Snapshot) : Prog (result SnapshotResponse Fatal) :=
  tx ← call Call_Oneshot;
  sent ← call (Call_SendSnapshot vote snapshot tx);
  if (sent : bool) then recv_msg Kind_InstallSnapshot tx
  else fatal ← call Call_StopError; mret (Err fatal).

Definition Raft_current_leader (m : RaftMetrics) : option u64 := metrics_current_leader m.
Definition Raft_voter_ids (m : RaftMetrics) : list u64 :=
  StoredMembership_voter_ids (metrics_membership_config m).
Definition Raft_learner_ids (m : RaftMetrics) : list u64 :=
  Membership_learner_ids (StoredMembership_membership (metrics_membership_config m)).

Definition Raft_get_read_linearizer (o : LinearizerOption) :
    Prog (result Linearizer (RaftError LinearizableReadError)) :=
  r ← AppApi_get_read_linearizer o; mret (into_raft_result r).
Definition Raft_client_write (app_data : AppData) :
    Prog (result (ClientWriteResponse R) (RaftError ClientWriteError)) :=
  r ← AppApi_client_write (EntryPayload_Normal app_data); mret (into_raft_result r).
Definition write_blank : Prog (result (ClientWriteResponse R) (RaftError ClientWriteError)) :=
  r ← AppApi_client_write EntryPayload_Blank; mret (into_raft_result r).
Definition Raft_client_write_ff (app_data : AppData) (responder : option Sender) : Prog (result unit Fatal) :=
  AppApi_client_write_ff (EntryPayload_Normal app_data) responder.
Definition Raft_client_write_many (app_data : list AppData) : Prog (result (list Sender) Fatal) :=
  AppApi_client_write_many (EntryPayload_Normal <$> app_data).
Definition Raft_initialize (members : gmap N Node) : Prog (result unit (RaftError InitializeError)) :=
  r ← ManagementApi_initialize members; mret (into_raft_result r).
Definition external_request (req : Sender) : Prog (result unit Fatal) := send_msg (RaftMsg_WithRaftState req).
Definition external_state_machine_request : Prog (result unit Fatal) := send_sm_command SmCommand_ExternalFunc.

Definition Raft_change_membership_if (members : ChangeMembers) (retain : bool) (preconditions : list Precondition) :
    Prog (result (ClientWriteResponse R) (RaftError ClientWriteError)) :=
  r ← ManagementApi_change_membership members retain preconditions; mret (into_raft_result r).
Definition Raft_change_membership (members : ChangeMembers) (retain : bool) :
    Prog (result (ClientWriteResponse R) (RaftError ClientWriteError)) :=
  r ← ManagementApi_change_membership members retain []; mret (into_raft_result r).
Definition Raft_change_membership_with_payload (request : ChangeMembershipRequest) :
    Prog (result ChangeMembershipOutcome (RaftError ClientWriteError)) :=
  r ← change_membership_with_payload request; mret (into_raft_result r).
Definition Raft_append_membership (membership : Membership) (payload : EntryPayload)
    (preconditions : list Precondition) : Prog (result (ClientWriteResponse R) (RaftError ClientWriteError)) :=
  r ← ManagementApi_append_membership membership payload preconditions; mret (into_raft_result r).
Definition Raft_add_learner (this threshold id : u64) (node : Node) (blocking : bool) :
    Prog (result (ClientWriteResponse R) (RaftError ClientWriteError)) :=
  r ← ManagementApi_add_learner this threshold id node blocking; mret (into_raft_result r).

(** ** Runs *)

Inductive Ev :=
| mkEv {X : Type} (c : Call X) (x : X).

Fixpoint runs {A} (p : Prog A) (t : list Ev) (r : outcome A) : Prop :=
  match p with
  | Prog_Ret a => t = [] ∧ r = Ret a
  | Prog_Panic => t = [] ∧ r = Panic
  | Prog_Call c k => ∃ x t', t = mkEv c x :: t' ∧ runs (k x) t' r
  end.

(** The messages that are sent to the runtime. *)
Definition sends (t : list Ev) : list RaftMsg :=
  omap (λ ev, match ev with @mkEv _ c _ => match c with Call_Send m => Some m | _ => None end end) t.

(** A wait that succeeds gives metrics that satisfy the condition
    ([wait_metrics_spec]). *)
Definition wait_ok (ev : Ev) : Prop :=
  match ev with
  | @mkEv X c x =>
      match c in Call X return X → Prop with
      | Call_Wait _ func => λ res, match res with Ok m => func m = true | Err _ => True end
      | _ => λ _, True
      end x
  end.

(** The bounded wait gives up only while every metrics it has seen are of a
    runtime that runs. *)
Lemma wait_core_stopped_false turns :
  wait_core_stopped turns = Poll_Ready false →
  ∃ seen m rest, turns = seen ++ (m, StopWait_Timeout) :: rest ∧
    Forall (λ turn, is_ok (metrics_running_state turn.1) = true) (seen ++ [(m, StopWait_Timeout)]).
Proof.
  induction turns as [|[m w] turns IH]; [done|]. cbn.
  destruct (is_ok (metrics_running_state m)) eqn:E; [|done]. cbn. destruct w; [|done|].
  - intros (seen & m' & rest & -> & Hf)%IH. exists ((m, StopWait_Changed) :: seen), m', rest.
    split; [done|]. by constructor.
  - intros _. exists [], m, turns. split; [done|]. by repeat constructor.
Qed.

(** ** Calls *)

(** A call of the runtime sends its message once and returns what the runtime
    answered; it returns a fatal error only when the runtime did not take the
    message, or when the answer was dropped, and then after the runtime was
    seen to stop or after a second in which it was not. *)
Theorem call_answered_or_stopped k msg rx t r :
  runs (call_core k msg rx) t r →
  sends t = [msg] ∧
  match r with
  | Ret (Ok x) => t = [mkEv (Call_Send msg) true; mkEv (Call_Recv k rx) (Some x)]
  | Ret (Err f) =>
      t = [mkEv (Call_Send msg) false; mkEv Call_StopError f] ∨
      ∃ stopped, t = [mkEv (Call_Send msg) true; mkEv (Call_Recv k rx) None;
          mkEv (Call_WaitStopped RECV_CORE_STOP_TIMEOUT) stopped] ++
        (if (stopped : bool) then [mkEv Call_StopError f] else []) ∧ (stopped = false → f = Fatal_Stopped)
  | Panic => False
  end.
Proof.
  unfold call_core, try_, send_msg, recv_msg, get_core_stop_error_bounded. cbn.
  intros (sent & t1 & -> & Hr). destruct sent; cbn in Hr.
  - destruct Hr as (res & t2 & -> & Hr). destruct res as [x|]; cbn in Hr.
    + by destruct Hr as [-> ->].
    + destruct Hr as (stopped & t3 & -> & Hr). destruct stopped; cbn in Hr.
      * destruct Hr as (f & t4 & -> & -> & ->). split; [done|]. right. by exists true.
      * destruct Hr as [-> ->]. split; [done|]. right. by exists false.
  - destruct Hr as (f & t2 & -> & -> & ->). split; [done|]. by left.
Qed.

(** The two forms of a result hold the same. *)
Lemma decompose_into_raft_result {T E} (r : result (result T E) Fatal) :
  decompose (into_raft_result r) = result_map_err RaftError_Fatal r.
Proof. by destruct r as [[]|]. Qed.

(** ** Linearizable reads *)

#[local] Arguments is_ready_on_node : simpl never.
#[local] Arguments LinearizeState_with_applied : simpl never.

(** The log ids of one log are ordered as their indexes. *)
Definition one_log (a b : LogId) : Prop := (a <=? b) = (LogId_index a <=? LogId_index b).

(** A linearizer is ready only when the local state machine has applied what
    the read must see: the state that is returned is that of this node, for
    the same read log id, and its applied log reaches the read log id; a
    timeout is reported only for a state that has not reached it, a fatal
    error only after the runtime has stopped, and the wait never panics. *)
Theorem linearizer_ready_when_applied l id timeout t r :
  runs (try_await_ready l id timeout) t r → Forall wait_ok t →
  (∀ st a, r = Ret (Ok (Ok st)) → LinearizeState_applied st = Some a →
     one_log (LinearizeState_read_log_id (Linearizer_state l)) a) →
  match r with
  | Ret (Ok (Ok st)) => is_ready_on_node st id = true ∧
      LinearizeState_read_log_id st = LinearizeState_read_log_id (Linearizer_state l)
  | Ret (Ok (Err st)) => is_ready_on_node st id = false ∧
      LinearizeState_read_log_id st = LinearizeState_read_log_id (Linearizer_state l)
  | Ret (Err f) => mkEv Call_StopError f ∈ t
  | Panic => False
  end.
Proof.
  unfold try_await_ready. intros Hruns Hok Hlog.
  destruct (is_ready_on_node (Linearizer_state l) id) eqn:Eready.
  { cbn in Hruns. by destruct Hruns as [-> ->]. }
  cbn in Hruns. destruct Hruns as (res & t1 & -> & Hruns). inversion Hok as [|? ? Hwait Hok1]; subst.
  destruct res as [m|[d latest|]]; cbn in Hruns.
  - destruct Hruns as [-> ->]. cbn in Hwait. split; [|done]. unfold is_ready_on_node, LinearizeState_with_applied. cbn.
    rewrite bool_decide_true by done. cbn [andb].
    destruct (metrics_last_applied m) as [a|] eqn:Ea; [|done].
    specialize (Hlog _ a eq_refl eq_refl). unfold one_log in Hlog.
    change ((LinearizeState_read_log_id (Linearizer_state l) <=? a) = true). rewrite Hlog.
    rewrite leb_true, N_ord_le. set (i := LogId_index (LinearizeState_read_log_id (Linearizer_state l))) in *.
    change (match N.compare (LogId_index a) i with Lt => false | _ => true end = true) in Hwait.
    destruct (N.compare_spec (LogId_index a) i) as [Hc|Hc|Hc]; [lia|done|lia].
  - destruct Hruns as (m & t2 & -> & Hruns). 
    match type of Hruns with context [if ?b then _ else _] => destruct b eqn:E2 end;
      destruct Hruns as [-> ->]; done.
  - destruct Hruns as (f & t2 & -> & -> & ->). set_solver.
Qed.

(** ** Membership changes *)

Definition first_message (request : ChangeMembershipRequest) (tx unused_tx : Sender) : RaftMsg :=
  let '(joint, uniform) := default (EntryPayload_Blank, EntryPayload_Blank) (request_payload request) in
  RaftMsg_ChangeMembership (request_members request) (MembershipPayloads_JointOrUniform joint uniform unused_tx)
    (request_retain request) (request_preconditions request) tx.
Definition second_message (request : ChangeMembershipRequest) (joint_log_id : LogId) (payload : EntryPayload)
    (tx : Sender) : RaftMsg :=
  RaftMsg_ChangeMembership (AddVoterIds ∅) (MembershipPayloads_Uniform payload) (request_retain request)
    (second_preconditions (request_preconditions request) joint_log_id) tx.

(** The answers that a run has received for writes, and the payloads. *)
Definition write_answers (t : list Ev) : list (Sender * ClientWriteResult) :=
  omap (λ ev, match ev with
    | @mkEv X c x =>
        match c in Call X return X → option (Sender * ClientWriteResult) with
        | Call_Recv k tx =>
            match k return option (reply k) → option (Sender * ClientWriteResult) with
            | Kind_Write => fmap (pair tx)
            | _ => λ _, None
            end
        | _ => λ _, None
        end x
    end) t.
Definition payload_answers (t : list Ev) : list (Sender * EntryPayload) :=
  omap (λ ev, match ev with
    | @mkEv X c x =>
        match c in Call X return X → option (Sender * EntryPayload) with
        | Call_Recv k tx =>
            match k return option (reply k) → option (Sender * EntryPayload) with
            | Kind_Payload => fmap (pair tx)
            | _ => λ _, None
            end
        | _ => λ _, None
        end x
    end) t.
Definition write_answer (t : list Ev) (tx : Sender) (r : ClientWriteResult) : Prop := (tx, r) ∈ write_answers t.

Lemma ensure_preconditions_app ps qs st :
  ensure_preconditions_satisfied (ps ++ qs) st =
    match ensure_preconditions_satisfied ps st with
    | Ok _ => ensure_preconditions_satisfied qs st
    | Err e => Err e
    end.
Proof. induction ps as [|p ps IH]; [done|]. cbn. by destruct (ensure_satisfied p st). Qed.

Lemma ensure_preconditions_elem ps st p :
  ensure_preconditions_satisfied ps st = Ok tt → p ∈ ps → ensure_satisfied p st = Ok tt.
Proof.
  induction ps as [|q ps IH]; cbn; [by intros _ []%not_elem_of_nil|].
  destruct (ensure_satisfied q st) as [[]|e] eqn:E; [|done].
  intros Hps [->|Hp]%elem_of_cons; [done|by apply IH].
Qed.

(** The second step is refused, without effect, by a node whose last membership
    is not the joint one of the first step, or that has another leader than
    the request asks for. *)
Lemma second_message_fenced request log_id payload tx c r c' :
  handle_api_msg (second_message request log_id payload tx) c = Ret (r, c') →
  effective_log_id (RaftState_membership_state (core_state c)) = Some log_id ∧
    (∀ id, Precondition_CommittedLeaderId id ∈ request_preconditions request →
       Vote_try_to_committed_leader_id (vote_ref (core_state c)) = Some id) ∨
  ∃ e, r = Ok tt ∧ c' = emit [Output_WriteFailed tx e] c.
Proof.
  cbn [second_message handle_api_msg]. unfold RaftCore_change_membership. rewrite K_bind_eq.
  unfold ensure_leader_handler. rewrite K_bind_eq, kget_eq.
  unfold mret at 1, K_ret at 1. cbv beta iota.
  match goal with |- context [match ?x with Ok _ => _ | Err _ => fail_writes _ _ end] => destruct x as [l|f] end.
  2: { unfold fail_writes. rewrite kmodify_eq. intros [= <- <-]. right. by eexists. }
  rewrite K_bind_eq, kget_eq.
  destruct (ensure_preconditions_satisfied _ _) as [[]|e] eqn:E.
  2: { unfold fail_writes. rewrite kmodify_eq. intros [= <- <-]. right. by eexists. }
  intros _. left. unfold second_preconditions in E. split.
  - pose proof (ensure_preconditions_elem _ _ (Precondition_LastMembershipLogId (Some log_id)) E) as Hl.
    cbn in Hl. specialize (Hl ltac:(set_solver)). by case_decide.
  - intros id Hid. pose proof (ensure_preconditions_elem _ _ (Precondition_CommittedLeaderId id) E) as Hl.
    cbn in Hl. assert (Precondition_CommittedLeaderId id ∈ omap (λ x, match x with
      | Precondition_LastMembershipLogId _ => None | Precondition_LastLogId _ => None
      | Precondition_CommittedLeaderId _ => Some x end) (request_preconditions request)) as Hin.
    { apply list_elem_of_omap. by exists (Precondition_CommittedLeaderId id). }
    specialize (Hl ltac:(set_solver)). by case_decide.
Qed.

(** What the run of a change shows of its messages and its result. *)
Definition change_messages (request : ChangeMembershipRequest) (t : list Ev)
    (r : outcome (result (result ChangeMembershipOutcome ClientWriteError) Fatal)) : Prop :=
  ∃ tx unused_tx,
    (sends t = [first_message request tx unused_tx] ∧
     match r with
     | Ret (Ok (Ok o)) => outcome_joint o = None ∧ write_answer t tx (Ok (outcome_uniform o)) ∧
         ∃ m, ClientWriteResponse_membership (outcome_uniform o) = Some m ∧ Membership_is_joint m = false
     | Ret (Ok (Err e)) => write_answer t tx (Err e)
     | Ret (Err _) => True
     | Panic => False
     end) ∨
    (∃ resp m payload tx',
     sends t = [first_message request tx unused_tx;
                second_message request (ClientWriteResponse_log_id resp) payload tx'] ∧
     write_answer t tx (Ok resp) ∧ ClientWriteResponse_membership resp = Some m ∧ Membership_is_joint m = true ∧
     (unused_tx, payload) ∈ payload_answers t ∧
     match r with
     | Ret (Ok (Ok o)) => outcome_joint o = Some resp ∧ write_answer t tx' (Ok (outcome_uniform o))
     | Ret (Ok (Err e)) => write_answer t tx' (Err e)
     | Ret (Err _) => True
     | Panic => False
     end).

Lemma change_membership_runs request t r :
  runs (change_membership_with_payload request) t r →
  (∀ tx resp, write_answer t tx (Ok resp) → is_Some (ClientWriteResponse_membership resp)) →
  change_messages request t r.
Proof.
  unfold change_membership_with_payload, change_messages, first_message, write_answer.
  destruct (default _ (request_payload request)) as [joint uniform]. intros Hr Hm.
  cbn in Hr. destruct Hr as (tx & t1 & -> & unused & t2 & -> & sent & t3 & -> & Hr). exists tx, unused.
  destruct sent; cbn in Hr; [|left; destruct Hr as (f & t4 & -> & -> & ->); by split].
  destruct Hr as (ans & t4 & -> & Hr). destruct ans as [[resp|e]|]; cbn in Hr.
  3: { left. destruct Hr as (stopped & t5 & -> & Hr). destruct stopped; cbn in Hr.
       - destruct Hr as (f & t6 & -> & -> & ->). by split.
       - destruct Hr as [-> ->]. by split. }
  2: { left. destruct Hr as [-> ->]. split; [done|]. cbn. set_solver. }
  destruct (Hm tx resp) as [m Hresp]; [cbn; set_solver|]. rewrite Hresp in Hr. cbn in Hr.
  destruct (Membership_is_joint m) eqn:Ej; cbn in Hr.
  2: { left. destruct Hr as [-> ->]. split; [done|]. split; [done|]. cbn. split; [set_solver|]. by exists m. }
  destruct Hr as (ans & t5 & -> & Hr). destruct ans as [payload|]; cbn in Hr.
  2: { left. destruct Hr as (stopped & t6 & -> & Hr). destruct stopped; cbn in Hr.
       - destruct Hr as (f & t7 & -> & -> & ->). by split.
       - destruct Hr as [-> ->]. by split. }
  right. destruct Hr as (tx' & t6 & -> & sent & t7 & -> & Hr). exists resp, m, payload, tx'.
  destruct sent; cbn in Hr.
  2: { destruct Hr as (f & t8 & -> & -> & ->). split_and!; try done; cbn; set_solver. }
  destruct Hr as (ans & t8 & -> & Hr). destruct ans as [[resp'|e]|]; cbn in Hr.
  - destruct Hr as [-> ->]. split_and!; try done; cbn; set_solver.
  - destruct Hr as [-> ->]. split_and!; try done; cbn; set_solver.
  - destruct Hr as (stopped & t9 & -> & Hr). destruct stopped; cbn in Hr.
    + destruct Hr as (f & t10 & -> & -> & ->). split_and!; try done; cbn; set_solver.
    + destruct Hr as [-> ->]. split_and!; try done; cbn; set_solver.
Qed.

(** C40: a membership change of the API: it sends the change, and only if that has
    committed a joint membership a second message, with the payload the
    runtime has returned, which makes the membership uniform; the result is
    the answer of the last step, and it does not panic as long as the answer
    to a membership entry has the membership.  Whatever happened in between,
    a node handles the second message only if its last membership is the
    joint one that the first step has committed and the leader that the
    request asks for still leads; otherwise it is refused without effect. *)
Theorem change_membership_two_messages request t r :
  runs (change_membership_with_payload request) t r →
  (∀ tx resp, write_answer t tx (Ok resp) → is_Some (ClientWriteResponse_membership resp)) →
  change_messages request t r ∧
  ∀ log_id payload tx c r' c', second_message request log_id payload tx ∈ sends t →
    handle_api_msg (second_message request log_id payload tx) c = Ret (r', c') →
    effective_log_id (RaftState_membership_state (core_state c)) = Some log_id ∧
      (∀ id, Precondition_CommittedLeaderId id ∈ request_preconditions request →
         Vote_try_to_committed_leader_id (vote_ref (core_state c)) = Some id) ∨
    ∃ e, r' = Ok tt ∧ c' = emit [Output_WriteFailed tx e] c.
Proof.
  intros Hr Hm. split; [by apply change_membership_runs|]. intros log_id payload tx c r' c' _.
  apply second_message_fenced.
Qed.

(** ** Transfer of leadership *)

Definition flushed_for (req : TransferLeaderRequest) (p : FlushPoint) : Prop :=
  FlushPoint_vote p = TransferLeaderRequest_from_leader req ∧
  (TransferLeaderRequest_last_log_id req <=? FlushPoint_last_log_id p) = true.

Lemma check_transfer_ok req p :
  check_transfer_leader_progress req p = Ok tt → ∃ q, p = Some q ∧ flushed_for req q.
Proof.
  unfold check_transfer_leader_progress. destruct p as [q|]; [|done].
  destruct (bool_decide _ && _) eqn:E; [|by case_match].
  apply andb_true_iff in E as [Hv Hl]. rewrite bool_decide_eq_true in Hv. intros _. by exists q.
Qed.

Lemma ensure_log_flushed_ok req turns :
  ensure_log_flushed req turns = Poll_Ready (Some (Ok tt)) →
  ∃ p w q, (p, w) ∈ turns ∧ (p = Some q ∨ w = FlushWait_Timeout (Some q)) ∧ flushed_for req q.
Proof.
  induction turns as [|[p w] turns IH]; [done|]. cbn.
  destruct (check_transfer_leader_progress req p) as [[]|e] eqn:E.
  { intros _. apply check_transfer_ok in E as (q & -> & Hq). exists (Some q), w, q. split; [by left|]. by auto. }
  destruct e as [ex ac|ex ac]; [done|]. destruct w as [| |p']; [|done|].
  - intros (p' & w' & q & Hin & Hor & Hq)%IH. exists p', w', q. split; [by right|done].
  - intros [= (q & -> & Hq)%check_transfer_ok]. exists p, (FlushWait_Timeout (Some q)), q. split; [by left|]. by auto.
Qed.

(** The node that is to lead hands the transfer to its runtime only after it
    has seen, before the timeout, that its log is flushed up to the last log
    of the leader, under the vote of the leader; if the vote changed or the
    log did not arrive in time the error is returned and nothing is sent. *)
Theorem transfer_waits_for_flush id req turns flushed t r :
  TransferLeaderRequest_to_node_id req = id →
  ensure_log_flushed req turns = Poll_Ready flushed →
  runs (handle_transfer_leader_request id req flushed) t r →
  match flushed with
  | Some (Ok _) =>
      sends t = [RaftMsg_HandleTransferLeader (TransferLeaderRequest_from_leader req) id
                   (TransferLeaderRequest_last_log_id req)] ∧
      ∃ p w q, (p, w) ∈ turns ∧ (p = Some q ∨ w = FlushWait_Timeout (Some q)) ∧ flushed_for req q
  | Some (Err e) => sends t = [] ∧ r = Ret (Ok (Err e))
  | None => sends t = [] ∧ ∃ f, r = Ret (Err f)
  end.
Proof.
  intros Hid Hflush Hr. unfold handle_transfer_leader_request in Hr. rewrite decide_True in Hr by done.
  destruct flushed as [[[]|e]|].
  - split; [|by apply ensure_log_flushed_ok]. cbn in Hr. destruct Hr as (sent & t1 & -> & Hr).
    destruct sent; cbn in Hr; [destruct Hr as [-> ->]; by rewrite <- Hid|].
    destruct Hr as (f & t2 & -> & -> & ->). by rewrite <- Hid.
  - cbn in Hr. by destruct Hr as [-> ->].
  - cbn in Hr. destruct Hr as (f & t1 & -> & -> & ->). split; [done|by exists f].
Qed.

(** ** Recovery *)

(** The timeouts of the waits and the readings of the clock. *)
Definition waited (t : list Ev) : list Duration :=
  omap (λ ev, match ev with @mkEv _ c _ => match c with Call_Wait d _ => Some d | _ => None end end) t.
Definition clock_reads (t : list Ev) : list Instant :=
  omap (λ ev, match ev with
              | @mkEv X c x => match c in Call X return X → option Instant with
                               | Call_Now => Some
                               | _ => λ _, None
                               end x
              end) t.

(** [wait_for_recovery] returns metrics only when the node has applied, by
    index, a log that the cluster has committed and that was not before the
    last log of the node when the node learned of it; the second wait lasts no
    longer than what the first has left of the timeout. *)
Theorem recovery_applied timeout t r :
  runs (wait_for_recovery timeout) t r → Forall wait_ok t →
  match r with
  | Ret (Ok m) => ∃ m1 i a, opt_index (metrics_cluster_committed m1) = Some i ∧
      (metrics_last_log_index m1 <=? Some i) = true ∧
      opt_index (metrics_last_applied m) = Some a ∧ (i ≤ a)%N
  | Ret (Err _) => True
  | Panic => False
  end ∧
  ∀ d, timeout = Some d →
    waited t = [d] ∨ ∃ start now, clock_reads t = [start; now] ∧ waited t = [d; (d - (now - start))%N].
Proof.
  unfold wait_for_recovery. intros Hr Hok. cbn in Hr. destruct Hr as (start & t1 & -> & res & t2 & -> & Hr).
  inversion Hok as [|? ? _ Hok1]; subst. inversion Hok1 as [|? ? Hw1 Hok2]; subst. cbn in Hw1.
  destruct res as [m1|e]; cbn in Hr.
  2: { destruct Hr as [-> ->]. split; [done|]. intros d ->. by left. }
  unfold recovery_covered in Hw1. destruct (opt_index (metrics_cluster_committed m1)) as [i|] eqn:Ei; [|done].
  assert (∀ d m, wait_ok (mkEv (Call_Wait d (Wait_applied_index_at_least (Some i))) (Ok m)) →
    ∃ m1 i a, opt_index (metrics_cluster_committed m1) = Some i ∧
      (metrics_last_log_index m1 <=? Some i) = true ∧
      opt_index (metrics_last_applied m) = Some a ∧ (i ≤ a)%N) as Hsecond.
  { intros d m Hall. cbn in Hall.
    destruct (metrics_last_applied m) as [a|]; [|done]. exists m1, i, (LogId_index a). split; [done|]. split; [done|].
    split; [done|]. change (match N.compare (LogId_index a) i with Lt => false | _ => true end = true) in Hall.
    destruct (N.compare_spec (LogId_index a) i); [lia|done|lia]. }
  destruct timeout as [d|]; cbn in Hr.
  - destruct Hr as (now & t3 & -> & res & t4 & -> & -> & ->). split.
    + destruct res; [|done]. eapply Hsecond. inversion Hok2 as [|? ? _ Hok3]; subst. by inversion Hok3.
    + intros d' [= <-]. right. by exists start, now.
  - destruct Hr as (res & t3 & -> & -> & ->). split; [|done].
    destruct res; [|done]. eapply Hsecond. by inversion Hok2.
Qed.
End api.

Module ApiWitness.
#[local] Existing Instance adv_config.
Import LogIdListWitness MembershipWitness MetricsWitness.
#[local] Existing Instance VoteHandlerWitness.env.
#[local] Existing Instance MetricsWitness.store.

(** A read that waits for the log id of the leader on another node. *)
Definition reader : Linearizer := Linearizer_new 2 (lid 5 1 6) (Some (lid 5 1 4)).
Definition applied_metrics : RaftMetrics :=
  all_metrics leading_core
    (mkRaftDataMetrics None (Some (lid 5 1 6)) (Some (lid 5 1 6)) (Some (lid 5 1 7)) None None None None None)
    (server_metrics leading_core).

(** A vote request that the runtime answers. *)
Definition vote_msg : RaftMsg :=
  RaftMsg_RequestVote (mkVoteRequest (Vote_new (C := adv_config) 6 2) None false false) 4%N.
Definition vote_run : list (Ev (R := unit)) :=
  [mkEv (Call_Send vote_msg) true;
   mkEv (Call_Recv Kind_Vote 4%N) (Some (mkVoteResponse (Vote_new (C := adv_config) 6 2) true None))].
Lemma call_answered_or_stopped_witness : sends vote_run = [vote_msg].
Proof.
  apply (call_answered_or_stopped (R := unit) Kind_Vote vote_msg 4%N vote_run
    (Ret (Ok (mkVoteResponse (Vote_new (C := adv_config) 6 2) true None)))).
  eexists _, _. split; [reflexivity|]. eexists _, _. split; [reflexivity|]. by split.
Defined.

Lemma linearizer_ready_when_applied_witness :
  runs (R := unit) (try_await_ready reader 1 (Some 100%N))
    [mkEv (Call_Wait 100 (Wait_applied_index_at_least (Some 6%N))) (Ok applied_metrics)]
    (Ret (Ok (Ok (mkLinearizeState 1 (lid 5 1 6) (Some (lid 5 1 7)))))) ∧
  is_ready_on_node (mkLinearizeState 1 (lid 5 1 6) (Some (lid 5 1 7))) 1 = true.
Proof.
  assert (runs (R := unit) (try_await_ready reader 1 (Some 100%N))
    [mkEv (Call_Wait 100 (Wait_applied_index_at_least (Some 6%N))) (Ok applied_metrics)]
    (Ret (Ok (Ok (mkLinearizeState 1 (lid 5 1 6) (Some (lid 5 1 7))))))) as Hr.
  { by exists (Ok applied_metrics), []. }
  split; [exact Hr|]. apply (linearizer_ready_when_applied reader 1 (Some 100%N) _ _ Hr).
  - apply Forall_singleton. vm_compute. reflexivity.
  - intros st a [= <-] [= <-]. vm_compute. reflexivity.
Defined.

(** A change from the voters 1, 2 and 3 to 3, 4 and 5. *)
Definition request : ChangeMembershipRequest :=
  ChangeMembershipRequest_new (ReplaceAllVoters {[3; 4; 5]}%N) true.
Definition joint_resp : ClientWriteResponse unit := mkClientWriteResponse (lid 5 1 8) tt (Some m123_345).
Definition uniform_resp : ClientWriteResponse unit := mkClientWriteResponse (lid 5 1 9) tt (Some m123).
Definition change_run : list (Ev (R := unit)) :=
  [mkEv Call_Oneshot 7%N; mkEv Call_Oneshot 8%N; mkEv (Call_Send (first_message request 7%N 8%N)) true;
   mkEv (Call_Recv Kind_Write 7%N) (Some (Ok joint_resp)); mkEv (Call_Recv Kind_Payload 8%N) (Some EntryPayload_Blank);
   mkEv Call_Oneshot 9%N; mkEv (Call_Send (second_message request (lid 5 1 8) EntryPayload_Blank 9%N)) true;
   mkEv (Call_Recv Kind_Write 9%N) (Some (Ok uniform_resp))].

Lemma change_membership_two_messages_witness :
  change_messages request change_run
    (Ret (Ok (Ok (mkChangeMembershipOutcome (Some joint_resp) uniform_resp)))).
Proof.
  apply (change_membership_two_messages request change_run).
  - repeat (eexists _, _; split; [reflexivity|]). split; reflexivity.
  - intros tx resp Hin. unfold write_answer in Hin.
    unfold change_run in Hin. cbn in Hin. apply elem_of_cons in Hin as [[= -> ->]|Hin]; [by eexists|].
    apply list_elem_of_singleton in Hin as [= -> ->]. by eexists.
Defined.

(** The log of the leader arrives at the second look. *)
Definition transfer : TransferLeaderRequest :=
  mkTransferLeaderRequest (Vote_new_committed (C := adv_config) 5 1) 2 (Some (lid 5 1 6)).
Definition transfer_turns : list (option FlushPoint * FlushWait) :=
  [(None, FlushWait_Changed); (Some (flush_point (io 5 7)), FlushWait_Changed)].

Lemma transfer_waits_for_flush_witness :
  ∃ p w q, (p, w) ∈ transfer_turns ∧ (p = Some q ∨ w = FlushWait_Timeout (Some q)) ∧ flushed_for transfer q.
Proof.
  pose proof (transfer_waits_for_flush (R := unit) 2 transfer transfer_turns (Some (Ok tt))
    [mkEv (Call_Send (RaftMsg_HandleTransferLeader (Vote_new_committed (C := adv_config) 5 1) 2 (Some (lid 5 1 6)))) true]
    (Ret (Ok (Ok tt)))) as Ht.
  destruct Ht as [_ Hq]; [reflexivity|vm_compute; reflexivity| |exact Hq].
  eexists _, _; split; [reflexivity|]. by split.
Defined.

Definition recovered_run : list (Ev (R := unit)) :=
  [mkEv Call_Now 100%N; mkEv (Call_Wait 500 recovery_covered) (Ok applied_metrics); mkEv Call_Now 180%N;
   mkEv (Call_Wait 420 (Wait_applied_index_at_least (Some 6%N))) (Ok applied_metrics)].

Lemma recovery_applied_witness :
  ∃ m1 i a, opt_index (metrics_cluster_committed m1) = Some i ∧ (metrics_last_log_index m1 <=? Some i) = true ∧
    opt_index (metrics_last_applied applied_metrics) = Some a ∧ (i ≤ a)%N.
Proof.
  destruct (recovery_applied (Some 500%N) recovered_run (Ret (Ok applied_metrics))) as [Hr _].
  - repeat (eexists _, _; split; [reflexivity|]). split; reflexivity.
  - repeat constructor; vm_compute; reflexivity.
  - exact Hr.
Defined.
End ApiWitness.
