(* ===== verification/ApiTasks.v ===== *)
(** * Tasks of the API

    [raft/stream_append.rs], the forwarder of I/O completions and the leader
    callbacks of [raft/mod.rs]: the tasks that the API starts beside the
    runtime, which read from one channel and write to another. *)

From S2P Require Import Prelude Vote LogId LogIdList Quorum Membership VecProgress IOState.
From S2P Require Import MembershipState Entry RaftState Config ProgressEntry Proposer Command.
From S2P Require Import Engine Replication Following LeaderHandler VoteHandler EngineImpl.
From S2P Require Import VoteSafety Cluster ReadQueue CoreHelpers Wire Core CoreHandlers CoreLogic.
From S2P Require Import Storage Watch Metrics Observers.

Section api_tasks.
Context {C : RaftTypeConfig} `{!StoreEnv}.

(** ** Leader callbacks *)

(** A call of the [start] or of the [stop] callback. *)
Inductive LeaderEvent := LeaderEvent_Start (l : LeaderId) | LeaderEvent_Stop (l : LeaderId).

(** The closure of [on_leader_change] on one vote, with the state that it keeps. *)
Definition on_leader_change (my_node_id : u64) (prev_leader_id : option LeaderId) (vote : Vote) :
    option LeaderId * list LeaderEvent :=
  let leader_id := Vote_leader_id vote in
  if decide (Vote_leader_node_id vote = my_node_id) then
    if Vote_is_committed vote && bool_decide (prev_leader_id ≠ Some leader_id) then
      (Some leader_id, option_list (LeaderEvent_Stop <$> prev_leader_id) ++ [LeaderEvent_Start leader_id])
    else (prev_leader_id, [])
  else (None, option_list (LeaderEvent_Stop <$> prev_leader_id)).

(** The closure of [on_cluster_leader_change]: the arguments of the callback, if
    it is called. *)
Definition on_cluster_leader_change (prev_vote : option Vote) (new_vote : Vote) :
    option Vote * option (option (LeaderId * bool) * (LeaderId * bool)) :=
  let old_leader := Vote_leader_id <$> prev_vote in
  let new_leader := Vote_leader_id new_vote in
  (Some new_vote,
   if decide (old_leader ≠ Some new_leader) then
     Some ((λ v, (Vote_leader_id v, Vote_is_committed v)) <$> prev_vote,
           (Vote_leader_id new_vote, Vote_is_committed new_vote))
   else None).

(** [watch_vote_change]: the callback on the votes that are read, in order; a
    value without vote is skipped. *)
Fixpoint watch_vote_change {S E} (callback : S → Vote → S * E) (s : S) (reads : list (option Vote)) :
    S * list E :=
  match reads with
  | [] => (s, [])
  | None :: reads => watch_vote_change callback s reads
  | Some vote :: reads =>
      let '(s, e) := callback s vote in
      let '(s, es) := watch_vote_change callback s reads in
      (s, e :: es)
  end.

(** [start] and [stop] in turns, from the leadership [cur], to the end. *)
Fixpoint alternates (cur : option LeaderId) (es : list LeaderEvent) (last : option LeaderId) : Prop :=
  match es with
  | [] => cur = last
  | LeaderEvent_Start l :: es => cur = None ∧ alternates (Some l) es last
  | LeaderEvent_Stop l :: es => cur = Some l ∧ alternates None es last
  end.

Lemma alternates_app cur es1 mid es2 last :
  alternates cur es1 mid → alternates mid es2 last → alternates cur (es1 ++ es2) last.
Proof.
  revert cur. induction es1 as [|[l|l] es1 IH]; intros cur; cbn; [by intros ->| |];
    intros [-> Hes] Hes2; (split; [done|]); by apply IH.
Qed.

Lemma on_leader_change_alternates id prev vote :
  alternates prev (on_leader_change id prev vote).2 (on_leader_change id prev vote).1.
Proof.
  unfold on_leader_change. destruct (decide (Vote_leader_node_id vote = id)); [destruct (_ && _)|];
    by destruct prev.
Qed.

Lemma start_not_stop prev l : LeaderEvent_Start l ∉ option_list (LeaderEvent_Stop <$> prev).
Proof. destruct prev; cbn; [by intros Hl%list_elem_of_singleton|apply not_elem_of_nil]. Qed.

(** What the callbacks are told of the votes: a start is of a committed vote of
    this node, and the leadership that is left running is one that was
    started and that no vote of another node has followed. *)
Lemma leader_callbacks id prev reads prev' es :
  watch_vote_change (on_leader_change id) prev reads = (prev', es) →
  alternates prev (concat es) prev' ∧
  (∀ l, LeaderEvent_Start l ∈ concat es → ∃ vote, Some vote ∈ reads ∧ Vote_leader_id vote = l ∧
     Vote_is_committed vote = true ∧ Vote_leader_node_id vote = id) ∧
  (∀ vote, last reads = Some (Some vote) → Vote_leader_node_id vote ≠ id → prev' = None) ∧
  (∀ vote, last reads = Some (Some vote) → Vote_leader_node_id vote = id → Vote_is_committed vote = true →
     prev' = Some (Vote_leader_id vote)).
Proof.
  revert prev prev' es. induction reads as [|[vote|] reads IH]; intros prev prev' es; cbn [watch_vote_change].
  - intros [= <- <-]. split; [done|]. by split; [intros l []%not_elem_of_nil|].
  - destruct (on_leader_change id prev vote) as [s e] eqn:Ecb.
    destruct (watch_vote_change (on_leader_change id) s reads) as [s' es'] eqn:Erest. intros [= <- <-].
    destruct (IH s s' es' Erest) as (Halt & Hstart & Hother & Hown). cbn [concat].
    pose proof (on_leader_change_alternates id prev vote) as H1. rewrite Ecb in H1. cbn in H1.
    split; [by eapply alternates_app|]. split; [|split].
    + intros l [Hl|Hl]%elem_of_app.
      * exists vote. split; [by left|]. revert Ecb. unfold on_leader_change. case_decide as Hid.
        -- destruct (Vote_is_committed vote && _) eqn:E; intros [= <- <-]; [|by apply not_elem_of_nil in Hl].
           apply andb_true_iff in E as [E _]. apply elem_of_app in Hl as [Hl|Hl]; [by apply start_not_stop in Hl|].
           apply list_elem_of_singleton in Hl. by injection Hl as ->.
        -- intros [= <- <-]. exfalso. by apply (start_not_stop prev l).
      * destruct (Hstart l Hl) as (v & Hv & Hrest). exists v. split; [by right|done].
    + intros v Hv Hne. destruct reads as [|r reads]; [|by apply (Hother v)]. cbn in Hv. injection Hv as ->.
      cbn in Erest. injection Erest as <- <-. unfold on_leader_change in Ecb. rewrite decide_False in Ecb by done.
      by injection Ecb.
    + intros v Hv Hid Hc. destruct reads as [|r reads]; [|by apply (Hown v)]. cbn in Hv. injection Hv as ->.
      cbn in Erest. injection Erest as <- <-. unfold on_leader_change in Ecb. rewrite decide_True in Ecb by done.
      rewrite Hc in Ecb. cbn in Ecb. case_bool_decide; by injection Ecb as <- <-.
  - intros Hw. destruct (IH prev prev' es Hw) as (Halt & Hstart & Hother & Hown). split; [done|].
    split; [intros l Hl; destruct (Hstart l Hl) as (v & Hv & Hrest); exists v; split; [by right|done]|].
    split; intros v Hv; (destruct reads as [|r reads]; [done|]); [by apply (Hother v)|by apply (Hown v)].
Qed.

(** [on_leader_change]: whichever votes are read from the channel, the start
    and the stop callback are called in turns, each stop with the leadership
    that was started last; a start is of a committed vote of this node, and
    after the last vote a leadership is left running only if that vote is not
    one of another node. *)
Theorem leader_callbacks_alternate id reads prev' es :
  watch_vote_change (on_leader_change id) None reads = (prev', es) →
  alternates None (concat es) prev' ∧
  (∀ l, LeaderEvent_Start l ∈ concat es → ∃ vote, Some vote ∈ reads ∧ Vote_leader_id vote = l ∧
     Vote_is_committed vote = true ∧ Vote_leader_node_id vote = id) ∧
  (∀ vote, last reads = Some (Some vote) → Vote_leader_node_id vote ≠ id → prev' = None) ∧
  (∀ vote, last reads = Some (Some vote) → Vote_leader_node_id vote = id → Vote_is_committed vote = true →
     prev' = Some (Vote_leader_id vote)).
Proof. apply leader_callbacks. Qed.

(** ** The forwarder of I/O completions *)
Context {E : Type} (report : Storage.StorageError E → Core.StorageError).
#[local] Abbreviation Flushed := (result IOId (Storage.StorageError E)).

(** A turn: the channel when [changed] is polled, when it is polled again after
    the interval, unless that has passed, and when the value is read. *)
Record ForwardTurn := mkForwardTurn {
  forward_changed : Watch (T := Flushed);
  forward_drained : option (Watch (T := Flushed));
  forward_read : Watch (T := Flushed);
}.

Definition forward_notification (res : Flushed) : Notification :=
  match res with
  | Ok io_id => Notification_LocalIO io_id
  | Err e => Notification_StorageError (report e)
  end.

(** [io_completion_forwarder], while the runtime takes notifications: the values
    that are forwarded and the receiver. *)
Fixpoint io_completion_forwarder (rx : WatchReceiver) (turns : list ForwardTurn) :
    list Flushed * WatchReceiver :=
  match turns with
  | [] => ([], rx)
  | t :: turns =>
      match changed (forward_changed t) rx with
      | (Poll_Ready (Ok _), rx) =>
          let rx := match forward_drained t with
                    | Some w => (changed w rx).2
                    | None => rx
                    end in
          let '(fs, rx) := io_completion_forwarder rx turns in
          (borrow_watched (forward_read t) :: fs, rx)
      | (_, rx) => ([], rx)
      end
  end.

Definition forward_states (t : ForwardTurn) : list (Watch (T := Flushed)) :=
  forward_changed t :: option_list (forward_drained t) ++ [forward_read t].

Lemma changed_seen {T} (w : Watch (T := T)) rx :
  (seen_version rx ≤ Watch_version w)%N → (seen_version (changed w rx).2 ≤ Watch_version w)%N.
Proof. intros Hle. unfold changed. destruct (_ <? _); [cbn; lia|]. by destruct (Watch_closed w). Qed.

Lemma forwarder_spec rx turns w :
  (∀ s, s ∈ turns ≫= forward_states → (seen_version rx ≤ Watch_version s)%N) →
  (seen_version rx ≤ Watch_version w)%N →
  StronglySorted watch_le ((turns ≫= forward_states) ++ [w]) →
  let '(fs, rx') := io_completion_forwarder rx turns in
  (seen_version rx' ≤ Watch_version w)%N ∧
  match last fs with
  | None => rx' = rx
  | Some f => seen_version rx' = Watch_version w → f = Watch_value w
  end.
Proof.
  revert rx. induction turns as [|t turns IH]; intros rx Hseen Hw Hs; [by cbn|]. cbn [io_completion_forwarder].
  assert ((t :: turns) ≫= forward_states = forward_states t ++ (turns ≫= forward_states)) as Heq by done.
  rewrite Heq in Hseen. rewrite Heq, <- app_assoc in Hs. clear Heq.
  apply StronglySorted_app in Hs as (Hcross & Hst & Hrest).
  assert (∀ s s', s ∈ forward_states t → s' ∈ (turns ≫= forward_states) ++ [w] → watch_le s s') as Hle.
  { intros s s' Hin Hin'. by apply Hcross. }
  unfold forward_states in Hst, Hle. inversion Hst as [|? ? Hst1 Hc]; subst. rewrite Forall_forall in Hc.
  unfold changed at 1. destruct (seen_version rx <? Watch_version (forward_changed t)) eqn:Elt.
  2: { destruct (Watch_closed (forward_changed t)); by cbn. }
  set (rx2 := match forward_drained t with Some w => _ | None => _ end).
  assert (seen_version rx2 ≤ Watch_version (forward_read t))%N as Hrx2.
  { unfold rx2. destruct (forward_drained t) as [d|]; cbn in Hc, Hst1.
    - etrans; [apply changed_seen; cbn; apply (Hc d); set_solver|].
      inversion Hst1 as [|? ? _ Hd]; subst. rewrite Forall_forall in Hd. apply (Hd (forward_read t)). set_solver.
    - cbn. apply (Hc (forward_read t)). set_solver. }
  assert (∀ s', s' ∈ (turns ≫= forward_states) ++ [w] → watch_le (forward_read t) s') as Hread.
  { intros s' Hs'. apply Hle; [|done]. set_solver. }
  specialize (IH rx2). destruct (io_completion_forwarder rx2 turns) as [fs rx'].
  destruct IH as [Hw' Hlast].
  - intros s Hs. destruct (Hread s) as [Hv _]; [set_solver|]. lia.
  - destruct (Hread w) as [Hv _]; [set_solver|]. lia.
  - done.
  - split; [done|]. rewrite last_cons. destruct (last fs) as [f|]; [done|]. subst rx'. intros Hv.
    destruct (Hread w) as [Hv1 Hv2]; [set_solver|]. apply Hv2. lia.
Qed.

(** No completion of I/O is lost on its way to the runtime: when the forwarder
    waits, the value it forwarded last is the current one, or the channel has
    a change that wakes it, or there was no completion at all.  Together with
    the watermark the runtime so learns of the newest completed I/O and of the
    first error. *)
Theorem completions_forwarded rx turns w :
  (∀ s, s ∈ (turns ≫= forward_states) ++ [w] → (seen_version rx ≤ Watch_version s)%N) →
  StronglySorted watch_le ((turns ≫= forward_states) ++ [w]) →
  let '(fs, rx') := io_completion_forwarder rx turns in
  last fs = Some (Watch_value w) ∨ (changed w rx').1 = Poll_Ready (Ok tt) ∨
  fs = [] ∧ Watch_version w = seen_version rx.
Proof.
  intros Hseen Hs. pose proof (forwarder_spec rx turns w) as Hspec.
  destruct (io_completion_forwarder rx turns) as [fs rx']. destruct Hspec as [Hle Hlast].
  - intros s Hin. apply Hseen. set_solver.
  - apply Hseen. set_solver.
  - done.
  - unfold changed. destruct (seen_version rx' <? Watch_version w) eqn:Elt; [by right; left|].
    rewrite ltb_false, N_ord_le in Elt. assert (seen_version rx' = Watch_version w) as Heq by lia.
    destruct (last fs) as [f|] eqn:Elast; [left; f_equal; by apply Hlast|]. subst rx'. right. right.
    apply last_None in Elast. by subst.
Qed.

(** ** Pipelined appends

    [stream_append]: the task sends requests while the runtime takes them,
    [accepted] of them, and the stream gives the answers in order, [None] for
    an answer that was dropped. *)
Definition stream_append_sent (accepted : nat) (input : list AppendEntriesRequest) : list AppendEntriesRequest :=
  take accepted input.
Fixpoint stream_append_output (fatal : Fatal) (pending : list (option StreamAppendResult)) :
    list (result StreamAppendResult Fatal) :=
  match pending with
  | [] => []
  | Some (Ok x) :: pending => Ok (Ok x) :: stream_append_output fatal pending
  | Some (Err e) :: _ => [Ok (Err e)]
  | None :: _ => [Err fatal]
  end.
Definition stream_append (fatal : Fatal) (accepted : nat) (input : list AppendEntriesRequest)
    (answers : nat → option StreamAppendResult) : list (result StreamAppendResult Fatal) :=
  stream_append_output fatal (imap (λ i _, answers i) (stream_append_sent accepted input)).

(** The stream has the answers in the order of the requests, up to the first
    one that is not a success, which ends it. *)
Lemma stream_append_in_order fatal accepted input answers n :
  match stream_append fatal accepted input answers !! n with
  | Some (Ok r) => is_Some (input !! n) ∧ answers n = Some r
  | Some (Err f) => f = fatal ∧ is_Some (input !! n) ∧ answers n = None
  | None => True
  end ∧
  (is_Some (stream_append fatal accepted input answers !! S n) →
   ∃ x, stream_append fatal accepted input answers !! n = Some (Ok (Ok x))).
Proof.
  unfold stream_append, stream_append_sent. revert input answers n.
  induction accepted as [|k IH]; intros input answers n.
  { destruct n; cbn; by split; [|intros [? [=]]]. }
  destruct input as [|req input]; [destruct n; cbn; by split; [|intros [? [=]]]|]. cbn [take imap].
  destruct (answers 0) as [[x|e]|] eqn:Ea; destruct n as [|n]; cbn.
  - split; [by split|]. intros _. by exists x.
  - apply (IH input (answers ∘ S) n).
  - split; [by split|]. by intros [? [=]].
  - by split; [|intros [? [=]]].
  - split; [by split|]. by intros [? [=]].
  - by split; [|intros [? [=]]].
Qed.

(** A runtime that has stopped before a request could be sent ends the stream
    without an error. *)
Example stopped_runtime_ends_silently fatal req answers :
  stream_append fatal 0 [req] answers = [].
Proof. done. Qed.
End api_tasks.

Module ApiTasksWitness.
#[local] Existing Instance adv_config.
Import MetricsWitness.
#[local] Existing Instance MetricsWitness.store.

Definition won (term : u64) : Vote := Vote_new_committed (C := adv_config) term 1.
Definition other (term : u64) : Vote := Vote_new_committed (C := adv_config) term 2.

(** Node 1 leads in the terms 1, 2 and 4. *)
Definition votes : list (option Vote) :=
  [None; Some (Vote_new (C := adv_config) 1 1); Some (won 1); Some (won 2); Some (other 3);
   Some (Vote_new (C := adv_config) 4 1); Some (won 4)].

Lemma leader_callbacks_alternate_witness :
  let '(prev, es) := watch_vote_change (on_leader_change 1) None votes in
  alternates None (concat es) prev ∧
  concat es = [LeaderEvent_Start (Vote_leader_id (won 1)); LeaderEvent_Stop (Vote_leader_id (won 1));
    LeaderEvent_Start (Vote_leader_id (won 2)); LeaderEvent_Stop (Vote_leader_id (won 2));
    LeaderEvent_Start (Vote_leader_id (won 4))].
Proof.
  destruct (watch_vote_change (on_leader_change 1) None votes) as [prev es] eqn:E. split.
  - by destruct (leader_callbacks_alternate 1 votes prev es E).
  - vm_compute in E. injection E as <- <-. vm_compute. reflexivity.
Defined.

(** A node that is elected tells the callback of its candidacy; that its vote
    was committed is not told, as the leader id is the same. *)
Example commit_not_told :
  (watch_vote_change on_cluster_leader_change None [Some (Vote_new (C := adv_config) 1 1); Some (won 1)]).2 =
    [Some (None, (Vote_leader_id (won 1), false)); None].
Proof. vm_compute. reflexivity. Qed.

(** Two completions of which the forwarder sees the second only. *)
Definition io_state (n : nat) : Watch := completions flushed_channel (take n out_of_order).
Definition forward_turns : list ForwardTurn := [mkForwardTurn (io_state 1) (Some (io_state 1)) (io_state 3)].

Lemma completions_forwarded_witness :
  (io_completion_forwarder (mkWatchReceiver 1) forward_turns).1 = [Ok (io 2 5)] ∧
  let '(fs, rx') := io_completion_forwarder (mkWatchReceiver 1) forward_turns in
  last fs = Some (Watch_value (io_state 3)) ∨ (changed (io_state 3) rx').1 = Poll_Ready (Ok tt) ∨
  fs = [] ∧ Watch_version (io_state 3) = 1%N.
Proof.
  split; [vm_compute; reflexivity|].
  assert (watch_le (io_state 1) (io_state 3)) by (split; by vm_compute).
  assert (∀ s : Watch (T := result IOId (Storage.StorageError unit)), watch_le s s) by (intros s; split; [lia|done]).
  apply (completions_forwarded (mkWatchReceiver 1) forward_turns (io_state 3)).
  - intros s Hs. cbn [forward_turns mbind list_bind forward_states option_list app] in Hs.
    repeat (apply elem_of_cons in Hs as [->|Hs]; [by vm_compute|]). by apply not_elem_of_nil in Hs.
  - cbn [forward_turns mbind list_bind forward_states option_list app]. repeat constructor; done.
Defined.
End ApiTasksWitness.
