(* ===== verification/Node.v ===== *)
(** * A node from its start to its end

    [Raft::new] of [raft/mod.rs] and [main], [do_main] and [runtime_loop] of
    [core/raft_core.rs]: a node reads its state from the store, starts the
    engine, and handles what arrives until it is told to stop or the store
    fails.  A node that crashes starts again from what it has stored. *)

From S2P Require Import Prelude Vote LogId LogIdList Quorum Membership VecProgress IOState.
From S2P Require Import MembershipState Entry RaftState Config ProgressEntry Proposer Command.
From S2P Require Import Engine Replication Following LeaderHandler VoteHandler EngineImpl.
From S2P Require Import VoteSafety Cluster ReadQueue CoreHelpers Wire Core CoreHandlers CoreRun CoreLogic.
From S2P Require Import CoreSafety CoreVotes Storage Startup Watch Metrics.

Section node.
Context {C : RaftTypeConfig} `{!Env, !StoreEnv}.
Implicit Types (c : RaftCore).

(** ** Starting *)

Section new.
Context {St : Type} `{!RaftStorage St}.

(** The state that [Raft::new] gives to the runtime.  The first random number is
    taken by the ticks, the second is the election timeout. *)
Definition Raft_new (id : u64) (config : Config) : H (St := St) RaftCore :=
  if (election_timeout_min config <? election_timeout_max config) then
    let eng_config :=
      EngineConfig_new id config (random_range 1 (election_timeout_min config) (election_timeout_max config)) in
    state ← get_initial_state (Some id) (clock 0);
    let engine := Engine_new state eng_config in
    mret (RaftCore_new config (RuntimeConfig_new config) (mkWorld engine 1 2))
  else hpanic.
End new.

(** ** The loop

    The runtime holds a sender of each of its channels, so they do not close. *)
Record Queues := mkQueues {
  q_notifications : list Notification;
  q_snapshots : list (Vote * Snapshot * Sender);
  q_msgs : list RaftMsg;
}.

(** What arrives until the loop is woken, and what arrives while it works. *)
Record Arrivals := mkArrivals {
  arr_shutdown : bool;
  arr_before : Queues;
  arr_notifications : list Notification;
  arr_msgs : list RaftMsg;
}.
Definition arrive (q a : Queues) : Queues :=
  mkQueues (q_notifications q ++ q_notifications a) (q_snapshots q ++ q_snapshots a) (q_msgs q ++ q_msgs a).

(** [select_biased!]: the first channel that is ready. *)
Inductive Selected :=
| Selected_Shutdown
| Selected_Pending
| Selected_Wake (wake : Wake) (q : Queues).
Definition select (shutdown : bool) (q : Queues) : Selected :=
  if shutdown then Selected_Shutdown
  else
    match q_notifications q, q_snapshots q, q_msgs q with
    | n :: ns, _, _ => Selected_Wake (Wake_Notification n) (mkQueues ns (q_snapshots q) (q_msgs q))
    | [], (vote, snapshot, tx) :: ss, _ =>
        Selected_Wake (Wake_InstallSnapshot vote snapshot tx) (mkQueues [] ss (q_msgs q))
    | [], [], _ :: _ => Selected_Wake Wake_Api q
    | [], [], [] => Selected_Pending
    end.

(** The error that the loop has returned, or nothing while it waits. *)
Fixpoint runtime_loop (balancer : Balancer) (q : Queues) (turns : list Arrivals) c (ms : MetricsChannels) :
    outcome (option Fatal * RaftCore * MetricsChannels) :=
  match turns with
  | [] => Ret (None, c, ms)
  | a :: turns =>
      let q := arrive q (arr_before a) in
      match select (arr_shutdown a) q with
      | Selected_Shutdown => Ret (Some Fatal_Stopped, c, ms)
      | Selected_Pending => runtime_loop balancer q turns c ms
      | Selected_Wake wake q =>
          '(r, c) ← runtime_iteration balancer wake (q_msgs q ++ arr_msgs a)
                      (q_notifications q ++ arr_notifications a) c;
          match r with
          | Err e => Ret (Some (Fatal_StorageError e), c, ms)
          | Ok (balancer, msgs, ns) =>
              runtime_loop balancer (mkQueues ns (q_snapshots q) msgs) turns c (flush_metrics c ms)
          end
      end
  end.

Definition start_engine : K unit := on_engine startup;; run_engine_commands.
Definition do_main (turns : list Arrivals) c (ms : MetricsChannels) :
    outcome (option Fatal * RaftCore * MetricsChannels) :=
  '(r, c) ← start_engine c;
  match r with
  | Err e => Ret (Some (Fatal_StorageError e), c, ms)
  | Ok _ =>
      let ms := flush_metrics c ms in
      runtime_loop (Balancer_new 10000) (mkQueues [] [] []) turns c (flush_metrics c ms)
  end.

(** [main]: the last metrics tell of the end. *)
Definition main (turns : list Arrivals) c (ms : MetricsChannels) :
    outcome (option Fatal * RaftCore * MetricsChannels) :=
  '(res, c, ms) ← do_main turns c ms;
  match res with
  | None => Ret (None, c, ms)
  | Some err => Ret (Some err, c, report_shutdown err (flush_metrics c ms))
  end.

(** ** The loop takes the steps of a node *)

Inductive node_step : relation RaftCore :=
| node_step_msg msg c r c' : handle_api_msg msg c = Ret (r, c') → node_step c c'
| node_step_notification n c r c' : handle_notification n c = Ret (r, c') → node_step c c'
| node_step_snapshot vote snapshot tx c r c' :
    handle_install_full_snapshot_request vote snapshot tx c = Ret (r, c') → node_step c c'
| node_step_routine c r c' : trigger_routine_actions c = Ret (r, c') → node_step c c'
| node_step_commands c r c' : run_engine_commands c = Ret (r, c') → node_step c c'.

#[local] Abbreviation steps m := (KRel (rtc node_step) m).
#[local] Instance steps_msg msg : steps (handle_api_msg msg).
Proof. intros c r c' Hm. by eapply rtc_once, node_step_msg. Qed.
#[local] Instance steps_notification n : steps (handle_notification n).
Proof. intros c r c' Hm. by eapply rtc_once, node_step_notification. Qed.
#[local] Instance steps_snapshot vote snapshot tx : steps (handle_install_full_snapshot_request vote snapshot tx).
Proof. intros c r c' Hm. by eapply rtc_once, node_step_snapshot. Qed.
#[local] Instance steps_routine : steps trigger_routine_actions.
Proof. intros c r c' Hm. by eapply rtc_once, node_step_routine. Qed.
#[local] Instance steps_commands : steps run_engine_commands.
Proof. intros c r c' Hm. by eapply rtc_once, node_step_commands. Qed.

#[local] Instance steps_msg_loop at_most msgs total last : steps (process_raft_msg_loop at_most msgs total last).
Proof.
  revert msgs total last. induction at_most as [|n IH]; intros [|msg msgs] total last; cbn; krel; apply IH.
Qed.
#[local] Instance steps_notification_loop at_most ns processed since :
  steps (process_notification_loop at_most ns processed since).
Proof.
  revert ns processed since. induction at_most as [|n IH]; intros [|x ns] processed since; cbn; krel; apply IH.
Qed.
#[local] Instance steps_iteration balancer wake msgs ns : steps (runtime_iteration balancer wake msgs ns).
Proof. unfold runtime_iteration, process_raft_msg, process_notification. krel. Qed.

Lemma runtime_loop_steps balancer q turns c ms res c' ms' :
  runtime_loop balancer q turns c ms = Ret (res, c', ms') → rtc node_step c c'.
Proof.
  revert balancer q c ms. induction turns as [|a turns IH]; intros balancer q c ms; cbn; [by intros [= _ <- _]|].
  destruct (select _ _) as [| |wake q']; [by intros [= _ <- _]|apply IH|].
  destruct (runtime_iteration _ _ _ _ c) as [[r c1]|] eqn:E; [|done]. cbn.
  apply steps_iteration in E. destruct r as [[[b msgs] ns]|e].
  - intros Hrest%IH. by trans c1.
  - by intros [= _ <- _].
Qed.

Lemma do_main_steps turns c ms res c' ms' :
  do_main turns c ms = Ret (res, c', ms') →
  ∃ w, startup (core_world c) = Ret (tt, w) ∧ rtc node_step (set_world c w) c'.
Proof.
  unfold do_main, start_engine. rewrite K_bind_eq, on_engine_eq.
  destruct (startup (core_world c)) as [[[] w]|]; [|done]. cbn [mbind outcome_bind].
  destruct (run_engine_commands (set_world c w)) as [[r c1]|] eqn:E; [|done]. cbn. apply steps_commands in E.
  intros Hrest. exists w. split; [done|]. destruct r as [[]|e].
  - trans c1; [done|]. by eapply runtime_loop_steps.
  - by injection Hrest as _ <- _.
Qed.

(** *** The end *)

Lemma flush_rx c ms : Watch_rx_count (all_tx (flush_metrics c ms)) = Watch_rx_count (all_tx ms).
Proof.
  unfold flush_metrics, report_metrics, run_sends. cbn [report_sends foldl].
  unfold send_all, send. cbn [all_tx send_server send_data]. by case_decide.
Qed.

Lemma report_shutdown_seen err ms :
  Watch_rx_count (all_tx ms) ≠ 0%N →
  metrics_running_state (borrow_watched (all_tx (report_shutdown err ms))) = Err err ∧
  metrics_state (borrow_watched (all_tx (report_shutdown err ms))) = ServerState_Shutdown.
Proof. intros Hrx. unfold report_shutdown, send_all, send. cbn [all_tx]. by rewrite decide_False. Qed.

Lemma runtime_loop_rx balancer q turns c ms res c' ms' :
  runtime_loop balancer q turns c ms = Ret (res, c', ms') →
  Watch_rx_count (all_tx ms') = Watch_rx_count (all_tx ms).
Proof.
  revert balancer q c ms. induction turns as [|a turns IH]; intros balancer q c ms; cbn; [by intros [= _ _ <-]|].
  destruct (select _ _) as [| |wake q']; [by intros [= _ _ <-]|apply IH|].
  destruct (runtime_iteration _ _ _ _ c) as [[[[[b msgs] ns]|e] c1]|]; cbn; [|by intros [= _ _ <-]|done].
  intros ->%IH. apply flush_rx.
Qed.

(** A shutdown is looked at before anything that is queued. *)
Lemma runtime_loop_ends balancer q turns c ms res c' ms' :
  Exists (λ a, arr_shutdown a = true) turns →
  runtime_loop balancer q turns c ms = Ret (res, c', ms') →
  is_Some res.
Proof.
  revert balancer q c ms. induction turns as [|a turns IH]; intros balancer q c ms; [by intros ?%Exists_nil|].
  rewrite Exists_cons. cbn. destruct (arr_shutdown a) eqn:Ea; [intros _ [= <- _ _]; by eexists|].
  intros [[=]|Hex]. destruct (select false _) as [| |wake q'] eqn:Es; [|by apply IH|].
  { intros [= <- _ _]. by eexists. }
  destruct (runtime_iteration _ _ _ _ c) as [[[[[b msgs] ns]|e] c1]|]; cbn; [by apply IH| |done].
  intros [= <- _ _]. by eexists.
Qed.

Lemma do_main_rx turns c ms res c' ms' :
  do_main turns c ms = Ret (res, c', ms') → Watch_rx_count (all_tx ms') = Watch_rx_count (all_tx ms).
Proof.
  unfold do_main. destruct (start_engine c) as [[[[]|e] c1]|]; cbn; [|by intros [= _ _ <-]|done].
  intros ->%runtime_loop_rx. etrans; apply flush_rx.
Qed.

Lemma runtime_loop_error balancer q turns c ms err c' ms' :
  runtime_loop balancer q turns c ms = Ret (Some err, c', ms') →
  err = Fatal_Stopped ∨ ∃ e, err = Fatal_StorageError e.
Proof.
  revert balancer q c ms. induction turns as [|a turns IH]; intros balancer q c ms; cbn; [done|].
  destruct (select _ _) as [| |wake q']; [intros [= <- _ _]; by left|apply IH|].
  destruct (runtime_iteration _ _ _ _ c) as [[[[[b msgs] ns]|e] c1]|]; cbn; [apply IH| |done].
  intros [= <- _ _]. right. by exists e.
Qed.

Lemma do_main_ends turns c ms res c' ms' :
  do_main turns c ms = Ret (res, c', ms') →
  (Exists (λ a, arr_shutdown a = true) turns → is_Some res) ∧
  ∀ err, res = Some err → err = Fatal_Stopped ∨ ∃ e, err = Fatal_StorageError e.
Proof.
  unfold do_main. destruct (start_engine c) as [[[[]|e] c1]|]; cbn; [| |done].
  - intros Hl. split; [intros Hex; by eapply runtime_loop_ends|]. intros err ->. by eapply runtime_loop_error.
  - intros [= <- _ _]. split; [by eexists|]. intros err [= <-]. right. by exists e.
Qed.

(** C14: the runtime does what its handlers do and nothing else, and it ends when it
    is told to: every run of [main], on whatever arrives and however it is
    spread over the channels, starts the engine and then takes the steps of a
    node, one handler or one run of the queued commands at a time; once a
    shutdown was signalled it has returned, with that or with the storage error
    that came first, and the last metrics that anyone sees say so. *)
Theorem main_refines_steps turns c ms res c' ms' :
  main turns c ms = Ret (res, c', ms') → Watch_rx_count (all_tx ms) ≠ 0%N →
  (∃ w, startup (core_world c) = Ret (tt, w) ∧ rtc node_step (set_world c w) c') ∧
  (Exists (λ a, arr_shutdown a = true) turns → is_Some res) ∧
  ∀ err, res = Some err →
    (err = Fatal_Stopped ∨ ∃ e, err = Fatal_StorageError e) ∧
    metrics_running_state (borrow_watched (all_tx ms')) = Err err ∧
    metrics_state (borrow_watched (all_tx ms')) = ServerState_Shutdown.
Proof.
  unfold main. destruct (do_main turns c ms) as [[[res1 c1] ms1]|] eqn:E; [|done]. cbn. intros Hmain Hrx.
  assert (Watch_rx_count (all_tx ms1) ≠ 0%N) as Hrx1.
  { rewrite <- (do_main_rx _ _ _ _ _ _ E) in Hrx. exact Hrx. }
  pose proof (do_main_steps _ _ _ _ _ _ E) as Hsteps. pose proof (do_main_ends _ _ _ _ _ _ E) as [Hends Herr].
  destruct res1 as [err1|]; injection Hmain as <- <- <-; (split; [done|]; split; [done|]); [|done].
  intros err [= <-]. split; [by apply Herr|].
  apply (report_shutdown_seen err1 (flush_metrics c1 ms1)). by rewrite flush_rx.
Qed.
End node.

(** ** Crashes and restarts *)

Section restarts.
Context {C : RaftTypeConfig} `{!Env, !StoreEnv} `{!RaftLeaderIdLaws C}.
Context {St : Type} `{!RaftStorage St, !RaftStorageLaws St}.
Implicit Types (c : RaftCore) (st : St) (v w : Vote) (vs : list Vote).

Definition uncommitted v : Vote := UncommittedVote_into_vote (Vote_to_non_committed v).

(** A life of the node [id]: it starts on [st], handles what arrives, and has by
    its end handed the votes [vs] to the store.  The store kept all of them,
    or all but the last if saving that one has failed. *)
Definition life (id : u64) (config : Config) st vs : Prop :=
  ∃ c0 st' wd c, Raft_new id config st = Ret (Ok c0, st') ∧ startup (core_world c0) = Ret (tt, wd) ∧
    rtc vote_step (set_world c0 wd) c ∧ (written_votes c = vs ∨ ∃ x, written_votes c = vs ++ [x]).

(** The lives of a node on one disk: every life starts on a store that has the
    vote that was saved last. *)
Definition last_vote (stored : option Vote) vs : option Vote :=
  match last vs with Some w => Some w | None => stored end.
Inductive lives (id : u64) (config : Config) : option Vote → list Vote → Prop :=
| lives_nil stored : lives id config stored []
| lives_cons stored st vs rest :
    sv_vote (view st) = stored → life id config st vs → lives id config (last_vote stored vs) rest →
    lives id config stored (vs ++ rest).

(** A vote after another on the disk of the node [id]: it is at least that vote,
    or both are of term 0; a node that led has first given back its commitment
    of it. *)
Definition follows (id : u64) v w : Prop :=
  vote_le0 v w ∨
  Vote_committed v = true ∧ Vote_leader_node_id v = id ∧ vote_le0 (uncommitted v) w.

Lemma H_bind_inv {A B} (m : H (St := St) A) (f : A → H B) st b st' :
  (m ≫= f) st = Ret (Ok b, st') → ∃ a st1, m st = Ret (Ok a, st1) ∧ f a st1 = Ret (Ok b, st').
Proof.
  unfold mbind, H_bind. destruct (m st) as [[[a|e] st1]|]; [|done|done]. intros Hf. by exists a, st1.
Qed.

Lemma recover_vote vote committed log_state last_applied now st rs st' :
  recover vote committed log_state last_applied now st = Ret (Ok rs, st') → vote_ref rs = vote.
Proof.
  unfold recover. case_match; [done|]. intros Hr.
  apply H_bind_inv in Hr as (? & ? & _ & Hr). apply H_bind_inv in Hr as ([? ?] & ? & _ & Hr).
  apply H_bind_inv in Hr as (? & ? & _ & Hr). apply H_bind_inv in Hr as (? & ? & _ & Hr).
  apply H_bind_inv in Hr as ([? ?] & ? & _ & Hr). apply H_bind_inv in Hr as (? & ? & _ & Hr).
  apply H_bind_inv in Hr as (? & ? & _ & Hr). by injection Hr as <- _.
Qed.

Lemma Raft_new_vote id config st c st' :
  Raft_new id config st = Ret (Ok c, st') →
  local_vote (core_engine c) = restored_vote id (view st) ∧ core_id c = id ∧ core_trace c = [] ∧
  commands (core_engine c) = [].
Proof.
  unfold Raft_new. case_match; [|done]. intros (rs & st1 & Hi & Hr)%H_bind_inv.
  rewrite get_initial_state_eq in Hi. apply recover_vote in Hi. by injection Hr as <- _.
Qed.

Lemma startup_votes (wd wd' : World) :
  startup wd = Ret (tt, wd') →
  ∃ a vs, (a = local_vote (w_engine wd) ∨
      Vote_committed (local_vote (w_engine wd)) = true ∧
      Vote_leader_node_id (local_vote (w_engine wd)) = Engine_id (w_engine wd) ∧
      a = uncommitted (local_vote (w_engine wd))) ∧
    saved_votes (w_engine wd') = saved_votes (w_engine wd) ++ vs ∧ climbs a vs (local_vote (w_engine wd')).
Proof.
  unfold startup. rewrite M_bind_eq, get_eq. cbn zeta.
  destruct (RaftState_is_leader _ _) eqn:El; cbn [andb].
  - destruct (EngineConfig_enable_leader_restore _).
    + intros E. destruct (vote_mono _ _ _ E) as (vs & Hs & Hr). exists (local_vote (w_engine wd)), vs.
      apply rising_climbs in Hr. by auto.
    + unfold RaftState_is_leader, is_leading in El. apply andb_true_iff in El as [[_ Hid]%andb_true_iff Hc].
      rewrite bool_decide_eq_true in Hid. rewrite !M_bind_eq. cbn. intros [= <-].
      exists (uncommitted (local_vote (w_engine wd))), []. rewrite app_nil_r.
      split; [by auto|]. split; [done|]. cbn. reflexivity.
  - rewrite M_bind_eq. cbn. intros [= <-]. exists (local_vote (w_engine wd)), []. rewrite app_nil_r.
    split; [by auto|]. split; [done|]. cbn. reflexivity.
Qed.

(** Each vote follows the one before it, from [a] to the last. *)
Fixpoint chain (R : relation Vote) (a : Vote) vs : Prop :=
  match vs with
  | [] => True
  | v :: vs => R a v ∧ chain R v vs
  end.

Lemma chain_app R a vs ws : chain R a (vs ++ ws) ↔ chain R a vs ∧ chain R (default a (last vs)) ws.
Proof.
  revert a. induction vs as [|v vs IH]; intros a; [cbn; tauto|]. cbn [app chain]. rewrite IH, last_cons.
  destruct (last vs); cbn; tauto.
Qed.

Lemma climbs_chain id a vs b : climbs a vs b → chain (follows id) a vs.
Proof.
  revert a. induction vs as [|v vs IH]; intros a; [done|]. intros [Ha Hr]. split; [by left|by apply IH].
Qed.

Lemma life_chain id config st vs : life id config st vs → chain (follows id) (restored_vote id (view st)) vs.
Proof.
  intros (c0 & st' & wd & c & (Hv & Hid & Ht & Hc)%Raft_new_vote & (a & vs1 & Ha & Hs & Hr1)%startup_votes & Hrun & Hvs).
  assert (core_rise (set_world c0 wd) c) as (vs2 & Hall & Hr2).
  { clear - Hrun RaftLeaderIdLaws0. induction Hrun as [|c1 c2 c3 Hstep _ IH]; [done|]. trans c2; [by apply vote_step_rises|done]. }
  assert (chain (follows id) a (all_votes c)) as Hchain.
  { eapply climbs_chain. rewrite Hall.
    replace (all_votes (set_world c0 wd)) with vs1; [by eapply climbs_app|].
    unfold all_votes, written_votes. cbn. rewrite Ht. cbn. unfold core_engine. cbn. rewrite Hs.
    unfold saved_votes, core_engine in *. rewrite Hc. done. }
  unfold all_votes in Hchain. apply chain_app in Hchain as [Hchain _].
  assert (chain (follows id) a vs) as Hvs'.
  { destruct Hvs as [<-|[x Hx]]; [done|]. rewrite Hx in Hchain. by apply chain_app in Hchain as [? _]. }
  destruct vs as [|v vs]; [done|]. destruct Hvs' as [Hf Hrest]. split; [|done].
  unfold core_engine, core_id in *. destruct Ha as [->|(Hcom & Hnode & ->)]; rewrite Hv in *.
  - exact Hf.
  - destruct Hf as [Hf|(Hf & _)]; [|done]. right. rewrite Hnode. done.
Qed.

Lemma lives_chain id config stored vs :
  lives id config stored vs → chain (follows id) (default (Vote_new_with_default_term id) stored) vs.
Proof.
  induction 1 as [|stored st vs rest Hst Hlife _ IH]; [done|]. apply chain_app. split.
  - apply life_chain in Hlife. by rewrite <- Hst.
  - unfold last_vote in IH. by destruct (last vs).
Qed.

Lemma follows_term id v w : follows id v w → (Vote_term v ≤ Vote_term w)%N.
Proof.
  assert (∀ v w, vote_le0 v w → (Vote_term v ≤ Vote_term w)%N) as Hle.
  { intros x y [?%Vote_lt_term_le|[-> ->]]; done. }
  intros [?|(_ & _ & ?)]; [by apply Hle|]. by apply (Hle (uncommitted v)).
Qed.

Lemma chain_sorted (R : relation Vote) (f : Vote → N) a vs :
  (∀ v w, R v w → (f v ≤ f w)%N) → chain R a vs → StronglySorted N.le (f <$> a :: vs).
Proof.
  intros Hf Hc. apply Sorted_StronglySorted; [intros x y z; apply N.le_trans|].
  revert a Hc. induction vs as [|v vs IH]; intros a Hc; [repeat constructor|]. destruct Hc as [Ha Hc].
  constructor; [by apply IH|]. constructor. by apply Hf.
Qed.

(** C13: a node keeps the promises of its votes through crashes: over all the lives
    of a node on its disk, whenever each of them ends and whatever messages,
    notifications, snapshots and commands it handles, initializations among
    them, each vote on the disk is at least the one before it, or both are of
    term 0, before any election; and a node that led may only give back its own
    commitment when it starts again.  So its term never falls. *)
Theorem votes_survive_restarts id config stored vs :
  lives id config stored vs →
  let first := default (Vote_new_with_default_term id) stored in
  chain (follows id) first vs ∧ StronglySorted N.le (Vote_term <$> first :: vs).
Proof.
  intros Hl%lives_chain. split; [done|]. eapply chain_sorted; [|done]. apply follows_term.
Qed.
End restarts.

(** ** Witnesses *)

Module NodeWitness.
#[local] Existing Instance std_config.
Import CoreWitness.
#[local] Instance memory : RaftStorage StoreView := mem_store (C := std_config) tt.
#[local] Instance memory_laws : RaftStorageLaws StoreView := mem_store_laws (C := std_config) tt.

Definition channels : MetricsChannels :=
  mkMetricsChannels (channel (RaftMetrics_new_initial 1)).1 (channel RaftDataMetrics_default).1
    (channel (RaftServerMetrics_new_initial 1)).1 IoProgressWatcher_new.1.

(** The node is initialized, elects itself, and is then told to stop, with a
    write still queued. *)
Definition turns : list Arrivals :=
  [mkArrivals false (mkQueues [] [] [initialize1]) [] [];
   mkArrivals false (mkQueues [] [] []) [] [];
   mkArrivals false (mkQueues [granted] [] []) [flushed 1] [];
   mkArrivals true (mkQueues [] [] [write2]) [] []].
Definition run_end : option Fatal * RaftCore * MetricsChannels :=
  match main turns node1 channels with Ret x => x | Panic => (None, node1, channels) end.

Lemma main_refines_steps_witness :
  metrics_running_state (borrow_watched (all_tx run_end.2)) = Err Fatal_Stopped ∧
  RaftState_server_state (core_state run_end.1.2) = ServerState_Leader.
Proof.
  assert (main turns node1 channels = Ret (Some Fatal_Stopped, run_end.1.2, run_end.2)) as Hrun
    by (vm_compute; reflexivity).
  destruct (main_refines_steps _ _ _ _ _ _ Hrun) as (_ & _ & Hend); [done|].
  split; [by apply Hend|vm_compute; reflexivity].
Defined.

(** The node crashes when it has asked for votes, and asks in the next term after it
    has started again on its log. *)
Definition empty_store : StoreView := mkStoreView None None None [] [] None StoredMembership_default None.
Definition voted_store : StoreView :=
  mkStoreView (Some (Vote_new (C := std_config) 1 1)) None None
    [Entry_new_membership (lid 0 0) (Membership_new_unchecked [{[1%N]}] (list_to_map [(1%N, tt)]))] [] None
    StoredMembership_default None.
Definition started (st : StoreView) : RaftCore :=
  match Raft_new 1 Config_default st with
  | Ret (Ok c, _) => after (on_engine startup) c
  | _ => node1
  end.
Definition elect : RaftMsg := RaftMsg_ExternalCommand (ExternalCommand_Elect false).
Definition life1 : RaftCore :=
  after run_engine_commands (after (handle_api_msg initialize1) (started empty_store)).
Definition life2 : RaftCore := after run_engine_commands (after (handle_api_msg elect) (started voted_store)).

Lemma msg_steps msg c : succeeds (handle_api_msg msg) c = true →
  rtc vote_step c (after (handle_api_msg msg) c).
Proof. intros Hs. apply rtc_once. eapply vote_step_msg. by apply after_succeeds. Qed.
Lemma command_steps c : succeeds run_engine_commands c = true → rtc vote_step c (after run_engine_commands c).
Proof. intros Hs. apply rtc_once. eapply vote_step_commands. by apply after_succeeds. Qed.

Lemma life1_lived : life 1 Config_default empty_store [Vote_new (C := std_config) 1 1].
Proof.
  eexists _, empty_store, (core_world (started empty_store)), life1.
  split; [vm_compute; reflexivity|]. split; [vm_compute; reflexivity|].
  split; [|left; vm_compute; reflexivity]. unfold life1.
  change (set_world _ _) with (started empty_store).
  etrans; [apply (msg_steps initialize1); vm_compute; reflexivity|].
  apply command_steps; vm_compute; reflexivity.
Qed.
Lemma life2_lived : life 1 Config_default voted_store [Vote_new (C := std_config) 2 1].
Proof.
  eexists _, voted_store, (core_world (started voted_store)), life2.
  split; [vm_compute; reflexivity|]. split; [vm_compute; reflexivity|].
  split; [|left; vm_compute; reflexivity]. unfold life2.
  change (set_world _ _) with (started voted_store).
  etrans; [apply (msg_steps elect); vm_compute; reflexivity|].
  apply command_steps; vm_compute; reflexivity.
Qed.

Lemma votes_survive_restarts_witness :
  StronglySorted N.le (Vote_term (C := std_config) <$>
    [Vote_new 0 1; Vote_new 1 1; Vote_new 2 1]).
Proof.
  assert (lives 1 Config_default None
    ([Vote_new (C := std_config) 1 1] ++ [Vote_new (C := std_config) 2 1] ++ [])) as Hl.
  { apply (lives_cons _ _ None empty_store); [reflexivity|exact life1_lived|].
    apply (lives_cons _ _ _ voted_store); [reflexivity|exact life2_lived|constructor]. }
  exact (proj2 (votes_survive_restarts _ _ _ _ Hl)).
Defined.
End NodeWitness.
