(* ===== verification/Deadline.v ===== *)
(** * The deadlines of pending reads

    [core/linearizable_read/pending_read_deadline_notifier.rs]: the task that
    wakes the runtime when the earliest pending read reaches its deadline.
    The runtime tells it the deadline over a watch channel, and it answers
    with a notification; the two run at once, so what they do together is a
    step relation over the queue of reads, the channel and the task. *)

From S2P Require Import Prelude Vote LogId LogIdList Quorum Membership VecProgress IOState.
From S2P Require Import MembershipState Entry RaftState Config ProgressEntry Proposer Command.
From S2P Require Import Engine Replication Following LeaderHandler ReadQueue Watch.

Section deadline.
Context {C : RaftTypeConfig}.

(** Where the task is: at the top of its loop, between the two loads of
    [borrow_and_update], waiting for a deadline, waiting until the deadline,
    sending the notification, and waiting for the next deadline.  The runtime
    lives, so neither channel closes and the loop does not return. *)
Inductive Notifier :=
| Notifier_Top (rx : WatchReceiver)
| Notifier_Loaded (rx : WatchReceiver)
| Notifier_Idle (rx : WatchReceiver)
| Notifier_Armed (rx : WatchReceiver) (deadline : Instant)
| Notifier_Sending (rx : WatchReceiver) (deadline : Instant)
| Notifier_Fired (rx : WatchReceiver) (deadline : Instant).

Definition task_rx (t : Notifier) : WatchReceiver :=
  match t with
  | Notifier_Top rx | Notifier_Loaded rx | Notifier_Idle rx
  | Notifier_Armed rx _ | Notifier_Sending rx _ | Notifier_Fired rx _ => rx
  end.

(** [deadline_sent] are the notifications that the runtime has not handled yet. *)
Record DeadlineSys := mkDeadlineSys {
  deadline_queue : PendingReadQueue;
  deadline_chan : Watch (T := option Instant);
  deadline_task : Notifier;
  deadline_sent : nat;
  deadline_now : Instant;
}.
Implicit Types (s : DeadlineSys).

Definition deadline_init (t : Instant) : DeadlineSys :=
  let '(tx, rx) := channel None in mkDeadlineSys PendingReadQueue_default tx (Notifier_Top rx) 0 t.

Definition set_deadline (w : Watch (T := option Instant)) (deadline : option Instant) :
    Watch (T := option Instant) :=
  (send_if_different w deadline).1.

(** [run], one step; [None] while it waits or when it can not take this step. *)
Definition notifier_read (w : Watch (T := option Instant)) (t : Notifier) : option Notifier :=
  match t with
  | Notifier_Top rx => Some (Notifier_Loaded (borrow_and_update w rx).2)
  | Notifier_Loaded rx =>
      Some (match (borrow_and_update w rx).1 with
            | None => Notifier_Idle rx
            | Some deadline => Notifier_Armed rx deadline
            end)
  | _ => None
  end.
Definition notifier_changed (w : Watch (T := option Instant)) (t : Notifier) : option Notifier :=
  match t with
  | Notifier_Idle rx | Notifier_Armed rx _ | Notifier_Fired rx _ =>
      match changed w rx with
      | (Poll_Ready (Ok _), rx) => Some (Notifier_Top rx)
      | _ => None
      end
  | _ => None
  end.
Definition notifier_timeout (now : Instant) (t : Notifier) : option Notifier :=
  match t with
  | Notifier_Armed rx deadline => if (deadline <=? now) then Some (Notifier_Sending rx deadline) else None
  | _ => None
  end.

Definition with_task s (t : Notifier) : DeadlineSys :=
  mkDeadlineSys (deadline_queue s) (deadline_chan s) t (deadline_sent s) (deadline_now s).

(** The steps of the task. *)
Inductive notifier_step : DeadlineSys → DeadlineSys → Prop :=
| notifier_step_read s t : notifier_read (deadline_chan s) (deadline_task s) = Some t →
    notifier_step s (with_task s t)
| notifier_step_changed s t : notifier_changed (deadline_chan s) (deadline_task s) = Some t →
    notifier_step s (with_task s t)
| notifier_step_timeout s t : notifier_timeout (deadline_now s) (deadline_task s) = Some t →
    notifier_step s (with_task s t)
| notifier_step_send s rx deadline : deadline_task s = Notifier_Sending rx deadline →
    notifier_step s (mkDeadlineSys (deadline_queue s) (deadline_chan s) (Notifier_Fired rx deadline)
      (S (deadline_sent s)) (deadline_now s)).

(** A change of the queue by the runtime, which then tells the deadline.  The
    versions of the channel do not wrap around. *)
Definition with_queue s (q : PendingReadQueue) (sent : nat) : DeadlineSys :=
  mkDeadlineSys q (set_deadline (deadline_chan s) (earliest_deadline q)) (deadline_task s) sent (deadline_now s).
Definition version_room s : Prop := (Watch_version (deadline_chan s) + 1 < u64_modulus)%N.

Inductive deadline_step : DeadlineSys → DeadlineSys → Prop :=
| deadline_step_task s s' : notifier_step s s' → deadline_step s s'
| deadline_step_time s t : (deadline_now s ≤ t)%N →
    deadline_step s (mkDeadlineSys (deadline_queue s) (deadline_chan s) (deadline_task s) (deadline_sent s) t)
| deadline_step_ops s ops q sent : version_room s →
    (next_sequence (deadline_queue s) + N.of_nat (length ops) < u64_modulus)%N →
    queue_ops ops (deadline_queue s) = Ret (q, sent) → deadline_step s (with_queue s q (deadline_sent s))
(** The notification is handled: reads may be answered, and those that have
    expired are. *)
| deadline_step_handle s n ops q1 sent1 q make_error sent : version_room s → deadline_sent s = S n →
    (next_sequence (deadline_queue s) + N.of_nat (length ops) < u64_modulus)%N →
    queue_ops ops (deadline_queue s) = Ret (q1, sent1) →
    drain_expired q1 (deadline_now s) make_error = Ret (q, sent) → deadline_step s (with_queue s q n).

Definition deadline_reachable (t : Instant) s : Prop := rtc deadline_step (deadline_init t) s.

(** ** The invariant *)

Definition unseen s (rx : WatchReceiver) : Prop := (seen_version rx < Watch_version (deadline_chan s))%N.

Record deadline_inv s : Prop := {
  dinv_wf : queue_wf (deadline_queue s);
  dinv_chan : Watch_value (deadline_chan s) = earliest_deadline (deadline_queue s);
  dinv_seen : (seen_version (task_rx (deadline_task s)) ≤ Watch_version (deadline_chan s))%N;
  dinv_task : match deadline_task s with
    | Notifier_Top _ | Notifier_Loaded _ => True
    | Notifier_Idle rx => unseen s rx ∨ Watch_value (deadline_chan s) = None
    | Notifier_Armed rx d => unseen s rx ∨ Watch_value (deadline_chan s) = Some d
    | Notifier_Sending rx d => (d ≤ deadline_now s)%N ∧ (unseen s rx ∨ Watch_value (deadline_chan s) = Some d)
    | Notifier_Fired rx d => (d ≤ deadline_now s)%N ∧
        (unseen s rx ∨ Watch_value (deadline_chan s) = Some d ∧ 0 < deadline_sent s)
    end;
}.

(** The steps of the task until it has sent a notification, at most. *)
Definition is_unseen s (rx : WatchReceiver) : bool := (seen_version rx <? Watch_version (deadline_chan s)).
Definition task_weight s : nat :=
  match deadline_task s with
  | Notifier_Top _ => 4
  | Notifier_Loaded rx => if is_unseen s rx then 6 else 3
  | Notifier_Idle _ | Notifier_Fired _ _ => 5
  | Notifier_Armed rx _ => if is_unseen s rx then 5 else 2
  | Notifier_Sending _ _ => 1
  end.

Lemma is_unseen_true s rx : is_unseen s rx = true ↔ unseen s rx.
Proof. unfold is_unseen, unseen. by rewrite ltb_true, N_ord_lt. Qed.
Lemma is_unseen_false s rx : is_unseen s rx = false ↔ ¬ unseen s rx.
Proof. rewrite <- is_unseen_true. by destruct (is_unseen s rx). Qed.
Lemma changed_unseen (w : Watch (T := option Instant)) rx :
  (seen_version rx < Watch_version w)%N → changed w rx = (Poll_Ready (Ok tt), mkWatchReceiver (Watch_version w)).
Proof. intros Hlt. unfold changed. replace (_ <? _) with true; [done|]. symmetry. by rewrite ltb_true, N_ord_lt. Qed.

(** *** A new deadline *)

Lemma set_deadline_spec (w : Watch (T := option Instant)) d :
  (Watch_version w + 1 < u64_modulus)%N →
  Watch_value (set_deadline w d) = d ∧
  (Watch_value w ≠ d → Watch_version (set_deadline w d) = (Watch_version w + 1)%N) ∧
  (Watch_value w = d → set_deadline w d = w).
Proof.
  intros Hv. unfold set_deadline, send_if_different, send_if_modified. case_decide as Hd; cbn.
  - split; [done|]. split; [|done]. intros _. by apply u64_add_small.
  - by split.
Qed.

(** The task still sees what it has to see after the queue has changed. *)
Lemma with_queue_unseen s q sent rx :
  version_room s → unseen s rx → unseen (with_queue s q sent) rx.
Proof.
  intros Hv Hu. unfold unseen, with_queue in *. cbn.
  destruct (set_deadline_spec (deadline_chan s) (earliest_deadline q) Hv) as (_ & Hne & Heq).
  destruct (decide (Watch_value (deadline_chan s) = earliest_deadline q)) as [He|He]; [by rewrite Heq|].
  rewrite Hne by done. lia.
Qed.
Lemma with_queue_value s q sent rx (x : option Instant) :
  version_room s → (seen_version rx ≤ Watch_version (deadline_chan s))%N → Watch_value (deadline_chan s) = x →
  unseen (with_queue s q sent) rx ∨ Watch_value (deadline_chan (with_queue s q sent)) = x ∧ earliest_deadline q = x.
Proof.
  intros Hv Hle Hx. unfold unseen, with_queue. cbn.
  destruct (set_deadline_spec (deadline_chan s) (earliest_deadline q) Hv) as (Hval & Hne & Heq).
  destruct (decide (Watch_value (deadline_chan s) = earliest_deadline q)) as [He|He].
  - right. rewrite Hval, <- He. done.
  - left. rewrite Hne by done. lia.
Qed.

Lemma with_queue_version s q sent :
  version_room s → (Watch_version (deadline_chan s) ≤ Watch_version (deadline_chan (with_queue s q sent)))%N.
Proof.
  intros Hv. unfold with_queue. cbn.
  destruct (set_deadline_spec (deadline_chan s) (earliest_deadline q) Hv) as (_ & Hne & Heq).
  destruct (decide (Watch_value (deadline_chan s) = earliest_deadline q)) as [He|He];
    [by rewrite Heq|rewrite Hne by done; lia].
Qed.

(** A change of the queue keeps the invariant, if it does not use up the
    notification that a deadline in the queue still needs. *)
Lemma deadline_inv_queue s q sent :
  deadline_inv s → version_room s → queue_wf q →
  (deadline_sent s ≤ sent ∨ ∀ d, earliest_deadline q = Some d → (deadline_now s < d)%N) →
  deadline_inv (with_queue s q sent).
Proof.
  intros [Hwf Hchan Hseen Htask] Hv Hq Hsent. pose proof (with_queue_version s q sent Hv) as Hver.
  split; [done|by apply (set_deadline_spec (deadline_chan s) (earliest_deadline q) Hv)|cbn; cbn in Hver; lia|].
  cbn [deadline_task with_queue]. destruct (deadline_task s) as [rx|rx|rx|rx d|rx d|rx d]; try done.
  - destruct Htask as [Hu|Hx]; [left; by apply with_queue_unseen|].
    by destruct (with_queue_value s q sent rx None Hv Hseen Hx) as [Hu|[Hx' _]]; [left|right].
  - destruct Htask as [Hu|Hx]; [left; by apply with_queue_unseen|].
    by destruct (with_queue_value s q sent rx (Some d) Hv Hseen Hx) as [Hu|[Hx' _]]; [left|right].
  - destruct Htask as [Hd Htask]. split; [done|]. destruct Htask as [Hu|Hx]; [left; by apply with_queue_unseen|].
    by destruct (with_queue_value s q sent rx (Some d) Hv Hseen Hx) as [Hu|[Hx' _]]; [left|right].
  - destruct Htask as [Hd Htask]. split; [done|]. destruct Htask as [Hu|[Hx Hn]]; [left; by apply with_queue_unseen|].
    destruct (with_queue_value s q sent rx (Some d) Hv Hseen Hx) as [Hu|[Hx' He]]; [by left|].
    destruct Hsent as [Hle|Hlater]; [right; split; [done|cbn; lia]|]. specialize (Hlater d He). lia.
Qed.

Lemma drain_expired_later q now make_error q' sent :
  queue_wf q → drain_expired q now make_error = Ret (q', sent) →
  queue_wf q' ∧ (∀ kr, kr ∈ reads q' → (now < PendingRead_deadline kr.2)%N) ∧
  ∀ d, earliest_deadline q' = Some d → (now < d)%N.
Proof.
  intros Hwf Hd. destruct (drain_expired_spec q now make_error Hwf) as (q1 & ans & Hrun & Hwf1 & _ & _ & Hr & _).
  rewrite Hrun in Hd. injection Hd as <- _.
  assert (∀ kr, kr ∈ reads q1 → (now < PendingRead_deadline kr.2)%N) as Hlater.
  { intros kr. rewrite Hr. intros [Hne _]%list_elem_of_filter. unfold expired in Hne. lia. }
  split; [done|]. split; [done|]. intros d (kr & Hin & <-)%(earliest_deadline_in _ _ Hwf1). by apply Hlater.
Qed.

Lemma queue_ops_wf ops q q' sent :
  queue_wf q → (next_sequence q + N.of_nat (length ops) < u64_modulus)%N → queue_ops ops q = Ret (q', sent) →
  queue_wf q'.
Proof.
  intros Hwf Hn Hrun. destruct (queue_ops_spec ops q Hwf Hn) as (q1 & s1 & Hrun1 & Hwf1 & _).
  rewrite Hrun in Hrun1. by injection Hrun1 as <- _.
Qed.

Lemma deadline_inv_notifier s s' : deadline_inv s → notifier_step s s' → deadline_inv s'.
Proof.
  intros [Hwf Hchan Hseen Htask]. destruct 1 as [s t Hr|s t Hc|s t Ht|s rx d Hs]; split; try done; cbn in *.
  - destruct (deadline_task s); try done; injection Hr as <-; unfold borrow_watched; cbn in *; [lia|].
    by destruct (Watch_value (deadline_chan s)).
  - destruct (deadline_task s) as [rx|rx|rx|rx d|rx d|rx d]; try done; injection Hr as <-; [done|].
    unfold borrow_watched. cbn. destruct (Watch_value (deadline_chan s)); by right.
  - destruct (deadline_task s) as [rx|rx|rx|rx d|rx d|rx d]; try done; cbn in Hc; unfold changed in Hc.
    all: repeat case_match; try done; simplify_eq; cbn; lia.
  - destruct (deadline_task s) as [rx|rx|rx|rx d|rx d|rx d]; try done; cbn in Hc; unfold changed in Hc.
    all: repeat case_match; try done; by simplify_eq.
  - destruct (deadline_task s) as [rx|rx|rx|rx d|rx d|rx d]; try done. cbn in Ht.
    destruct (d <=? deadline_now s); [|done]. by injection Ht as <-.
  - destruct (deadline_task s) as [rx|rx|rx|rx d|rx d|rx d]; try done. cbn in Ht.
    destruct (d <=? deadline_now s) eqn:E; [|done]. injection Ht as <-. rewrite leb_true, N_ord_le in E. done.
  - by rewrite Hs in Hseen.
  - rewrite Hs in Htask. destruct Htask as [Hd [Hu|Hx]]; (split; [done|]); [by left|right]. split; [done|lia].
Qed.

Lemma deadline_inv_step s s' : deadline_inv s → deadline_step s s' → deadline_inv s'.
Proof.
  intros Hinv. destruct 1 as [s s' Hs|s t Ht|s ops q sent Hv Hn Hq|s n ops q1 sent1 q mk sent Hv Hn Hl Hq Hd].
  - by eapply deadline_inv_notifier.
  - destruct Hinv as [Hwf Hchan Hseen Htask]. split; try done. cbn in *.
    destruct (deadline_task s); try done; destruct Htask as [Hd Htask]; (split; [lia|done]).
  - apply deadline_inv_queue; try done; [|by left]. by eapply queue_ops_wf; [apply Hinv|..].
  - assert (queue_wf q1) as Hwf1 by (by eapply queue_ops_wf; [apply Hinv|..]).
    destruct (drain_expired_later _ _ _ _ _ Hwf1 Hd) as (Hwf & _ & He). apply deadline_inv_queue; try done. by right.
Qed.

Lemma deadline_inv_reachable t s : deadline_reachable t s → deadline_inv s.
Proof.
  intros Hr. refine (rtc_ind_r deadline_inv _ _ _ s Hr).
  - split; [apply queue_wf_default|done|cbn; lia|done].
  - intros s1 s2 _ Hstep Hinv. by eapply deadline_inv_step.
Qed.

(** *** The task does not sleep through a deadline *)

Lemma notifier_enabled s d :
  deadline_inv s → earliest_deadline (deadline_queue s) = Some d → (d ≤ deadline_now s)%N → deadline_sent s = 0 →
  ∃ s', notifier_step s s'.
Proof.
  intros [Hwf Hchan Hseen Htask] Hd Hnow Hsent. rewrite <- Hchan in Hd.
  destruct (deadline_task s) as [rx|rx|rx|rx d'|rx d'|rx d'] eqn:E.
  1,2: eexists; apply notifier_step_read; by rewrite E.
  1: destruct Htask as [Hu|Hx]; [|by rewrite Hx in Hd].
  2: destruct Htask as [Hu|Hx].
  5: destruct Htask as [_ [Hu|[_ Hn]]]; [|lia].
  1,2,5: eexists; apply notifier_step_changed; rewrite E; cbn; by rewrite (changed_unseen _ _ Hu).
  - rewrite Hd in Hx. injection Hx as <-. eexists. apply notifier_step_timeout. rewrite E. cbn.
    replace (d <=? deadline_now s) with true; [done|]. symmetry. by rewrite leb_true, N_ord_le.
  - eexists. by eapply notifier_step_send.
Qed.

Lemma notifier_advances s s' d :
  deadline_inv s → earliest_deadline (deadline_queue s) = Some d → notifier_step s s' →
  deadline_sent s < deadline_sent s' ∨
  deadline_queue s' = deadline_queue s ∧ deadline_now s' = deadline_now s ∧ task_weight s' < task_weight s.
Proof.
  intros [Hwf Hchan Hseen Htask] Hd. rewrite <- Hchan in Hd.
  destruct 1 as [s t Hr|s t Hc|s t Ht|s rx d' Hs]; [right..|left; cbn; lia].
  all: split; [done|]; split; [done|]; unfold task_weight; cbn [deadline_task with_task].
  - destruct (deadline_task s) as [rx|rx|rx|rx d'|rx d'|rx d']; try done; injection Hr as <-.
    + replace (is_unseen _ _) with false; [lia|]. symmetry. apply is_unseen_false. unfold unseen. cbn. lia.
    + cbn. unfold borrow_watched. rewrite Hd. change (is_unseen (with_task s (Notifier_Armed rx d)) rx) with (is_unseen s rx).
      destruct (is_unseen s rx); lia.
  - assert (∃ rx, t = Notifier_Top rx ∧ is_unseen s (task_rx (deadline_task s)) = true) as (rx' & -> & Hu).
    { unfold is_unseen. destruct (deadline_task s) as [rx|rx|rx|rx d'|rx d'|rx d']; try done; cbn in *.
      all: unfold changed in Hc; destruct (_ <? _); [|by destruct (Watch_closed _)].
      all: injection Hc as <-; by eexists. }
    destruct (deadline_task s) as [rx|rx|rx|rx d'|rx d'|rx d']; try done; cbn in Hu; rewrite ?Hu; lia.
  - destruct (deadline_task s) as [rx|rx|rx|rx d'|rx d'|rx d']; try done. cbn in Ht.
    destruct (d' <=? deadline_now s); [|done]. injection Ht as <-. cbn. destruct (is_unseen s rx); lia.
Qed.

(** Steps of the task, which send a notification within [n] of them. *)
Inductive notifies : nat → DeadlineSys → Prop :=
| notifies_now n s : 0 < deadline_sent s → notifies n s
| notifies_later n s : (∃ s', notifier_step s s') → (∀ s', notifier_step s s' → notifies n s') → notifies (S n) s.

Lemma task_notifies n s d :
  deadline_inv s → earliest_deadline (deadline_queue s) = Some d → (d ≤ deadline_now s)%N →
  task_weight s ≤ n → notifies n s.
Proof.
  revert s. induction n as [|n IH]; intros s Hinv Hd Hnow Hw.
  { exfalso. unfold task_weight in Hw. destruct (deadline_task s); repeat case_match; lia. }
  destruct (deadline_sent s) as [|k] eqn:Ek; [|constructor; lia]. apply notifies_later.
  - by eapply notifier_enabled.
  - intros s' Hs. destruct (notifier_advances _ _ _ Hinv Hd Hs) as [Hsent|(Hq & Ht & Hlt)]; [constructor; lia|].
    apply IH; [by eapply deadline_inv_notifier|by rewrite Hq|by rewrite Ht|lia].
Qed.

(** C37: no pending read outlives its deadline unnoticed: however the runtime and
    the task of the deadlines are interleaved, once the earliest deadline of a
    pending read has passed the runtime is notified within six steps of the
    task, whichever of them it takes; and when the runtime handles the
    notification, no read that has reached its deadline is left in the queue. *)
Theorem read_deadline_not_missed t s d :
  deadline_reachable t s → earliest_deadline (deadline_queue s) = Some d → (d ≤ deadline_now s)%N →
  notifies 6 s ∧
  ∀ ops q1 sent1 q make_error sent,
    (next_sequence (deadline_queue s) + N.of_nat (length ops) < u64_modulus)%N →
    queue_ops ops (deadline_queue s) = Ret (q1, sent1) →
    drain_expired q1 (deadline_now s) make_error = Ret (q, sent) →
    ∀ kr, kr ∈ reads q → (deadline_now s < PendingRead_deadline kr.2)%N.
Proof.
  intros Hinv%deadline_inv_reachable Hd Hnow. split.
  - eapply task_notifies; [done..|]. unfold task_weight. destruct (deadline_task s); repeat case_match; lia.
  - intros ops q1 sent1 q mk sent Hn Hq Hdr. assert (queue_wf q1) as Hwf by (by eapply queue_ops_wf; [apply Hinv|..]).
    by apply (drain_expired_later _ _ _ _ _ Hwf Hdr).
Qed.
End deadline.

(** ** Witnesses *)

Module DeadlineWitness.
#[local] Existing Instance adv_config.
Import ReadQueueWitness.

(** A read is pushed after the task has gone to sleep, and its deadline passes. *)
Definition asleep : DeadlineSys :=
  mkDeadlineSys PendingReadQueue_default (channel None).1 (Notifier_Idle (mkWatchReceiver 1)) 0 10.
Definition pushed1 : PendingReadQueue :=
  match queue_ops [QueueOp_Push 5 (read 20 7)] PendingReadQueue_default with Ret (q, _) => q | Panic => PendingReadQueue_default end.
Definition due : DeadlineSys :=
  mkDeadlineSys pushed1 (mkWatch (Some 20%N) 2 false 1 1) (Notifier_Idle (mkWatchReceiver 1)) 0 25.

Lemma read_deadline_not_missed_witness : notifies 6 due.
Proof.
  apply (read_deadline_not_missed 10 due 20); [|reflexivity|vm_compute; discriminate].
  apply (rtc_l _ _ (with_task (deadline_init 10) (Notifier_Loaded (mkWatchReceiver 1)))).
  { apply deadline_step_task, notifier_step_read. reflexivity. }
  apply (rtc_l _ _ asleep).
  { apply deadline_step_task. exact (notifier_step_read (with_task (deadline_init 10) (Notifier_Loaded (mkWatchReceiver 1)))
      (Notifier_Idle (mkWatchReceiver 1)) eq_refl). }
  apply (rtc_l _ _ (with_queue asleep pushed1 0)).
  { eapply (deadline_step_ops asleep [QueueOp_Push 5 (read 20 7)]); vm_compute; reflexivity. }
  apply rtc_once, (deadline_step_time (with_queue asleep pushed1 0) 25). vm_compute. discriminate.
Defined.
End DeadlineWitness.
